(* ===== verification/_CoqProject ===== *)
-Q . S2P
Prelude.v
Config.v
Base.v
Mvcc.v
Memtable.v
Hash.v
Bloom.v
BloomParams.v
Cache.v
Bufio.v
Wal.v
WalReader.v
Block.v
Fs.v
Decimal.v
Sstable.v
SstReader.v
Store.v
Compaction.v
Db.v
Heap.v
Scan.v
DbRefine.v
ScanSteps.v
DbRuns.v
DbRecover.v
DbStamps.v
DbFlushCrash.v
DbBounds.v
DbTypes.v
DbFaults.v
DbCorrupt.v
DbOverflow.v
HcdbServer.v
Resp.v
Server.v
ServerThreads.v
Process.v
ServerConns.v
Races.v
