(* ===== verification/Prelude.v ===== *)
(** * HCDB: a verified model of an LSM key-value store

    HCDB is a key-value store in Go with multi-version keys: writes go to a write-ahead log and
    a sorted memtable; a full memtable is flushed to an immutable table file (SSTable); tables
    of similar size are compacted; reads search the memtable and then the tables, newest first,
    at a snapshot; a server speaks the Redis protocol to clients.

    ** The parts and the files that model them

    - [Prelude]: bytes, machine integers, errors ([result]: value, error or panic), readers,
      three-way comparisons, list lemmas. [Config]: [src/config].
    - [Base]: [src/internal/base]: internal keys (user key, sequence number, kind in an 8-byte
      trailer), their order, and the watermark of pinned snapshots.
    - [Mvcc]: the specification of a multi-version read, [newest k s l]: the newest version of
      [k] visible at [s] among the records [l]. Every level is proved against it.
    - [Memtable]: [src/memtable] over the interface [BTree] (github.com/google/btree is a
      dependency; [BTreeLaws] is what the memtable relies on, [sorted_list_btree] an instance).
    - [Hash], [Bloom], [BloomParams]: CRC-32 and FNV, and [src/bloomfilter].
    - [Cache]: [src/cache]: an LRU shard as a linked list of cells with a map, the sharded
      cache, and the interface [Cacher]/[CacherLaws] that readers of blocks are proved against.
    - [Bufio]: [io.Writer] and the disk behind it as the class [Writer]/[WriterLaws], with the
      errors of writing and of system calls, files with their fsynced part, [bufio.Writer], and
      [src/faultinjection].
    - [Wal]: [src/wal]: records, syncing every tenth write, replay, crashes. [WalReader]: the
      counting reader of a replay over a file whose reads may be short.
    - [Fs]: the file system operations the tables need, as a map from paths to files.
    - [Block], [Sstable], [SstReader]: [src/sstable]: byte formats and index search; the two
      writers, temporary files and renaming, opening; block reads through the cache,
      iterators, point lookups.
    - [Store], [Compaction]: the invariant of the table directory, and [src/compaction].
    - [Db]: [src/db/types.go], [db.go], [operations.go]: the record [DB] has the fields of the
      Go struct; every operation takes and returns the database and the world (file system and
      clock).
    - [Heap], [Scan]: [container/heap] and [src/db/iterator.go], the merging iterator.
    - [DbRefine]: the abstract database (the list of all writes, and the pinned snapshots) and
      the simulation between it and [Db]. [DbRuns]: properties kept along a run of calls.
      [DbRecover]: crashes, [Close] and reopening. [Decimal], [DbStamps]: the decimal stamps in
      the file names, and the order of the tables on a restart. [DbFlushCrash]: crashes inside
      a flush, between its steps and while it writes a table. [DbBounds]: how large the
      memtable and the log become. [DbTypes]: the shape of every stored record and level.
      [DbFaults]: writes whose flush or compaction fails at a byte or a system call, and runs
      of calls on such a disk. [DbCorrupt]: a read that meets a damaged block. [DbOverflow]: a
      write after the last sequence number. [ScanSteps]: a scan whose [Next]s alternate with
      other calls. [Races]: two orders of steps of different goroutines that go wrong.
    - [Resp]: [src/resp], parser and serialiser. [Server]: [src/server/dispatch.go] and
      [handleConn] of [server.go]; handlers are programs of database calls that run against
      any [Store], in particular the real and the abstract database. [ServerThreads]: the
      goroutines of many connections on one database, step by step. [ServerConns]: the rest
      of [server.go], the accept loop, the shutdown goroutine and the goroutines of the
      connections as a step relation over their places in the code.
    - [HcdbServer]: [src/cmd/hcdb-server]: the configuration from the environment, with
      [path/filepath], and [main] over any [Serve]. [Process]: [main] with the [Serve] of
      [ServerThreads], from the first start to the next one.

    ** What the theorems show

    Formats: keys, blocks, index, footers, filters, log records and protocol values are read
    back as written; a changed byte of a block is detected; decoders and the protocol parser
    terminate on every input. Crash safety: a log cut anywhere is replayed to its complete
    records, a crash loses at most the last nine acknowledged writes, a disk that fails at a
    byte or at a system call leaves a flush undone or the complete table installed, never half
    of it. Reads: memtable, table and filter lookups, iterators and scans return exactly the
    abstract multi-version answers, whatever the cache holds. Compaction keeps every read that
    a pinned snapshot or the present can make. The whole, under the conditions named below:
    from an empty directory, a sequence of calls, and a stream of bytes a client sends, is
    answered exactly as the list of all writes answers it ([database_refines_history],
    [server_refines_history]). With many connections and an interleaving of their goroutines
    there is one order of the database calls that this list answers, every client is sent the
    replies that follow from its own calls, and a scan is answered as of its opening however
    long it is drained ([connections_linearize]). After a crash the reopened database answers
    as that list without its last few writes ([recovery_keeps_synced_writes]), and after a
    server with any clients has stopped gracefully, the next start answers from all of it
    ([served_writes_survive_restart]). A crash between two steps of a flush or of its
    compaction loses nothing, provided the log is reset or whole by then and only the group of
    the newest table is ever merged; a crash while a table is written leaves a temporary file,
    and one without a footer blocks the next start ([flush_crash_loses_nothing]). A write whose
    flush or compaction fails, at any byte and any system call but the removal of a merged
    table, reports exactly that error but has taken effect, and reads stay right
    ([failed_write_takes_effect]); a whole run of calls on such a disk is answered from the
    history of all its writes ([failing_disk_refines_history]). Every stored record is well
    formed, within the bounds and one of the writes made ([stored_records_well_typed]). The
    memtable stays below 4 MiB and the log below 12 MiB. Connections: in every reachable state
    the set of connections and the wait group are exact, [Serve] returns [nil] only when every
    goroutine is gone, and once all connections in use are closed it does return.

    Further theorems describe defects: a write is acknowledged before it is durable and is lost
    when [Serve] fails, a temporary file without a footer, left by a crash, prevents the next
    start, a table that cannot be removed after a compaction hides the keys of those that were
    removed before it ([failed_removal_hides_key]), compaction of tables that are not
    neighbours can make a stale value the answer, so can a crash just before a flush resets the
    log ([flush_crash_hides_newer_write]), a snapshot can lose a race with a compaction, a
    compaction cuts an open scan short, a connection accepted during shutdown keeps [Serve]
    waiting, two connections that delete one key can both be told that they removed it
    ([concurrent_del_counts_twice]), a damaged block is detected but answered as if the key did
    not exist ([corrupt_block_reads_as_absent]), the write after the last sequence number is
    acknowledged and lost ([sequence_overflow_loses_write]), and a client can make the parser
    panic or split an error reply. The refinement theorems therefore assume that each
    compaction of the run merges neighbouring tables ([run_in_order], [conn_safe]; trivially
    true below four tables; [compaction_can_bury_newer_version] shows a run without it) and,
    with many connections, removes no table under an open scan ([server_safe]), that callers
    use only snapshots they hold and that fewer than 2^56 writes are made ([calls_ok]). What is
    stored is well formed and bounded whatever the compactions merge. Recovery also assumes
    that no table has 2^30 records and that the file names order the tables newest first
    ([reopen_in_order]). The latter is proved for the runs in which no compaction merges more
    than the group of the newest table ([restart_keeps_table_order]); for others it can fail,
    and then a restart brings an overwritten value back ([restart_returns_overwritten_value]),
    since a compaction names its files by the time of the merge.

    ** Modelling decisions

    Operations that hold the database's mutex are single steps. Loops whose recursion is not
    structural take fuel computed from their input (the length of the bytes or lists they
    consume); the theorems are about the results with that fuel. Where the code itself can
    panic or end in the same way, exhausted fuel is a value of its own and proved not to occur:
    [None] of the protocol parser ([resp_read_streaming]) and [ConnRunning] of the loop of a
    connection ([server_refines_history]); elsewhere it is a [Panic], which the theorems
    exclude. Sequence numbers, lengths and hashes wrap at their Go width. Times that name new
    tables come from a clock that only moves forward. Reading an existing file does not fail at
    the system level. Making a table may: every path has its own [Writer], which may fail at
    any byte and, by [sys_error], at opening the file, its [Sync], the rename, the [Sync] of
    the directory and the removal of the file. Theorems about a working disk assume [Reliable];
    the invariants are kept in two strengths, [db_shape] whatever the compactions merge and
    [db_inv] with the order of the levels.

    ** Not modelled

    Log output, tests. A crash falls between two calls, between two steps of a flush or while a
    table is written ([crash_point]), and the directory entries of synced tables survive it; a
    start with a complete temporary file is not treated. A call of the database is one step in
    the refinement theorems, except a scan, whose [Next]s are steps of their own in
    [ServerThreads]; [Races] looks at what can go wrong between the steps of a scan and of
    [GetSnapshot]. The log file itself is on a working disk in the theorems about the whole
    database, so that [resetWAL] succeeds; [Wal] treats a failing one. The deferred removal of
    a temporary file succeeds when a table could not be written. Allocations below 2^48 bytes
    succeed and the stack is unlimited. Sockets are part of the environment of [ServerConns]: a
    connection either can be read, is closed, or its client is gone. *)

From stdpp Require Export base gmap list sorting strings.
From coqutil Require Export Byte Word.LittleEndianList.
From Stdlib Require Export ZArith Lia.

#[export] Set Default Goal Selector "!".

Global Open Scope Z_scope.

#[global] Arguments Nat.modulo : simpl never.
#[global] Arguments Nat.div : simpl never.

(** ** Bytes and fixed-width integers *)

(** A Go [[]byte] (and a Go [string], which is a byte string too). *)
Abbreviation bytes := (list Corelib.Init.Byte.byte).

#[global] Instance byte_eq_dec : EqDecision byte := Byte.byte_eq_dec.

#[global] Program Instance byte_countable : Countable byte :=
  inj_countable' Byte.to_N (fun n => default Byte.x00 (Byte.of_N n)) _.
Next Obligation. intros b. simpl. by rewrite (Byte.of_to_N b). Qed.

(** The bytes of an ASCII literal. *)
Definition bytes_of (s : string) : bytes := String.list_byte_of_string s.

(** [len(s)] as a Go [int]. *)
Definition blen {A} (l : list A) : Z := Z.of_nat (length l).

(** Conversion to an unsigned integer type of [w] bits. *)
Definition uwrap (w z : Z) : Z := z mod 2 ^ w.

(** Conversion to a signed (two's complement) integer type of [w] bits. *)
Definition swrap (w z : Z) : Z := (z + 2 ^ (w - 1)) mod 2 ^ w - 2 ^ (w - 1).

Abbreviation u8 := (uwrap 8).
Abbreviation u32 := (uwrap 32).
Abbreviation u64 := (uwrap 64).
Abbreviation i32 := (swrap 32).
Abbreviation i64 := (swrap 64).

(** ** Errors *)

(** The error values the program can return. [Errorf] carries the text of a
    [fmt.Errorf] format (its arguments are not kept), [ErrText] a full message. *)
Inductive goerror :=
| EOF
| ErrUnexpectedEOF
| ErrClosedPipe
| ErrShortWrite
| ErrNotExist
| ErrInvalidSeek
| Errorf (format : string)
| ErrText (msg : string).

#[global] Instance goerror_eq_dec : EqDecision goerror.
Proof. solve_decision. Defined.

(** What a Go call can do: return normally, return a non-nil error, or panic. *)
Inductive result (A : Type) :=
| Ok (a : A)
| Err (e : goerror)
| Panic.
Arguments Ok {A} _.
Arguments Err {A} _.
Arguments Panic {A}.

#[global] Instance result_eq_dec {A} `{EqDecision A} : EqDecision (result A).
Proof. solve_decision. Defined.

Definition rbind {A B} (m : result A) (f : A -> result B) : result B :=
  match m with
  | Ok a => f a
  | Err e => Err e
  | Panic => Panic
  end.

Declare Scope go_scope.
Delimit Scope go_scope with go.
Notation "'let*' x := m 'in' k" := (rbind m (fun x => k))
  (at level 10, x pattern, m at level 100, k at level 200) : go_scope.
Global Open Scope go_scope.

(** ** The byte readers of [io], [bytes] and [encoding/binary]

    A reader is the list of bytes not read yet. *)

(** [io.ReadFull(r, buf)] with [len(buf) = n]. *)
Definition io_ReadFull (n : Z) (r : bytes) : result (bytes * bytes) :=
  if n <=? 0 then Ok ([], r)
  else if blen r =? 0 then Err EOF
  else if blen r <? n then Err ErrUnexpectedEOF
  else Ok (take (Z.to_nat n) r, drop (Z.to_nat n) r).

(** [binary.Read(r, binary.LittleEndian, &x)] for a [uint32], [int32] and [int64]. *)
Definition read_uint32 (r : bytes) : result (Z * bytes) :=
  let* (b, r') := io_ReadFull 4 r in Ok (le_combine b, r').
Definition read_int32 (r : bytes) : result (Z * bytes) :=
  let* (b, r') := io_ReadFull 4 r in Ok (i32 (le_combine b), r').
Definition read_int64 (r : bytes) : result (Z * bytes) :=
  let* (b, r') := io_ReadFull 8 r in Ok (i64 (le_combine b), r').

(** [binary.LittleEndian.PutUint32]/[PutUint64] and [binary.Write] of an integer of
    four or eight bytes (signed or not: two's complement has the same bytes). *)
Definition le32 (z : Z) : bytes := le_split 4 z.
Definition le64 (z : Z) : bytes := le_split 8 z.

#[global] Arguments blen : simpl never.
#[global] Arguments le32 : simpl never.
#[global] Arguments le64 : simpl never.
#[global] Arguments le_split : simpl never.
#[global] Arguments le_combine : simpl never.
#[global] Arguments io_ReadFull : simpl never.

(** ** Three-way comparison functions *)

(** A Go comparison function: negative, zero or positive. [TotalCompare] says that it is
    the comparison of a total order whose equality is Leibniz equality. *)
Class TotalCompare {A} (f : A -> A -> Z) : Prop := {
  cmp_eq a b : f a b = 0 <-> a = b;
  cmp_opp a b : f b a = - f a b;
  cmp_trans a b c : f a b < 0 -> f b c < 0 -> f a c < 0
}.

(** [cmp.Compare] on an ordered integer type. *)
Definition cmp_Compare (x y : Z) : Z :=
  if x <? y then -1 else if y <? x then 1 else 0.

(** [bytes.Compare]: lexicographic on unsigned bytes, a proper prefix first. *)
Fixpoint bytes_Compare (a b : bytes) : Z :=
  match a, b with
  | [], [] => 0
  | [], _ :: _ => -1
  | _ :: _, [] => 1
  | x :: a', y :: b' =>
      let c := cmp_Compare (byte.unsigned x) (byte.unsigned y) in
      if c =? 0 then bytes_Compare a' b' else c
  end.

(** [bytes.Equal]. *)
Definition bytes_Equal (a b : bytes) : bool := bool_decide (a = b).

(** ** Automation *)

Create HintDb hcdb discriminated.
Create Rewrite HintDb hcdb.

(** Split the boolean tests of a translated condition into propositions. *)
Ltac breflect :=
  repeat match goal with
  | H : (_ <? _) = true |- _ => apply Z.ltb_lt in H
  | H : (_ <? _) = false |- _ => apply Z.ltb_ge in H
  | H : (_ <=? _) = true |- _ => apply Z.leb_le in H
  | H : (_ <=? _) = false |- _ => apply Z.leb_gt in H
  | H : (_ =? _) = true |- _ => apply Z.eqb_eq in H
  | H : (_ =? _) = false |- _ => apply Z.eqb_neq in H
  | H : (_ && _) = true |- _ => apply andb_true_iff in H as [? ?]
  | H : (_ || _) = false |- _ => apply orb_false_iff in H as [? ?]
  | H : negb _ = true |- _ => apply negb_true_iff in H
  | H : negb _ = false |- _ => apply negb_false_iff in H
  end.

(** Case analysis on the condition of every [if] in the goal, with the tests reflected. *)
Ltac case_if :=
  match goal with
  | |- context [if ?b then _ else _] =>
      lazymatch b with
      | context [if _ then _ else _] => fail
      | _ => let E := fresh "E" in destruct b eqn:E; breflect
      end
  end.

Ltac case_ifs := repeat (case_if; try lia; try congruence).

(** [lia] after unfolding the length function of the Go model. *)
Ltac len_lia := unfold blen in *; rewrite ?length_app, ?length_take, ?length_drop,
  ?length_le_split in *; simpl in *; lia.

(** ** Lemmas *)

Lemma blen_nonneg {A} (l : list A) : 0 <= blen l.
Proof. unfold blen. lia. Qed.

Lemma blen_app {A} (l k : list A) : blen (l ++ k) = blen l + blen k.
Proof. unfold blen. rewrite length_app. lia. Qed.

Lemma blen_cons {A} (x : A) (l : list A) : blen (x :: l) = 1 + blen l.
Proof. unfold blen. simpl. lia. Qed.

Lemma uwrap_small w z : 0 <= z < 2 ^ w -> uwrap w z = z.
Proof. apply Z.mod_small. Qed.

Lemma uwrap_range w z : 0 <= w -> 0 <= uwrap w z < 2 ^ w.
Proof. intros. apply Z.mod_pos_bound. lia. Qed.

Lemma swrap_small w z : 0 < w -> - 2 ^ (w - 1) <= z < 2 ^ (w - 1) -> swrap w z = z.
Proof.
  intros Hw Hz. unfold swrap. rewrite Z.mod_small; [lia|].
  replace (2 ^ w) with (2 * 2 ^ (w - 1)); [lia|].
  rewrite <- Z.pow_succ_r by lia. f_equal. lia.
Qed.

Lemma swrap_uwrap w z : 0 <= w -> swrap w (uwrap w z) = swrap w z.
Proof. intros. unfold swrap, uwrap. by rewrite Zplus_mod_idemp_l. Qed.

Lemma length_le32 z : length (le32 z) = 4%nat.
Proof. apply length_le_split. Qed.

Lemma length_le64 z : length (le64 z) = 8%nat.
Proof. apply length_le_split. Qed.

Lemma blen_le32 z : blen (le32 z) = 4.
Proof. unfold blen. by rewrite length_le32. Qed.

Lemma blen_le64 z : blen (le64 z) = 8.
Proof. unfold blen. by rewrite length_le64. Qed.

Lemma le_combine_le32 z : le_combine (le32 z) = u32 z.
Proof. unfold le32. by rewrite le_combine_split. Qed.

Lemma le_combine_le64 z : le_combine (le64 z) = u64 z.
Proof. unfold le64. by rewrite le_combine_split. Qed.

#[export] Hint Rewrite @blen_app @blen_cons blen_le32 blen_le64 length_le32 length_le64 : hcdb.

(** Reading back exactly the bytes at the front of the stream. *)
Lemma io_ReadFull_app n (b r : bytes) : blen b = n -> io_ReadFull n (b ++ r) = Ok (b, r).
Proof.
  intros Hn. unfold io_ReadFull. rewrite blen_app, Hn.
  pose proof (blen_nonneg b). pose proof (blen_nonneg r).
  case_ifs.
  - destruct b as [|x b]; [done|]. rewrite blen_cons in *. pose proof (blen_nonneg b). lia.
  - subst n. unfold blen in *. rewrite Nat2Z.id. by rewrite take_app_length, drop_app_length.
Qed.

Lemma read_uint32_app z (r : bytes) : 0 <= z < 2 ^ 32 -> read_uint32 (le32 z ++ r) = Ok (z, r).
Proof.
  intros Hz. unfold read_uint32. rewrite io_ReadFull_app by apply blen_le32. simpl.
  by rewrite le_combine_le32, uwrap_small.
Qed.

Lemma read_int32_app z (r : bytes) :
  - 2 ^ 31 <= z < 2 ^ 31 -> read_int32 (le32 z ++ r) = Ok (z, r).
Proof.
  intros Hz. unfold read_int32. rewrite io_ReadFull_app by apply blen_le32. simpl.
  by rewrite le_combine_le32, swrap_uwrap, swrap_small by lia.
Qed.

Lemma read_int64_app z (r : bytes) :
  - 2 ^ 63 <= z < 2 ^ 63 -> read_int64 (le64 z ++ r) = Ok (z, r).
Proof.
  intros Hz. unfold read_int64. rewrite io_ReadFull_app by apply blen_le64. simpl.
  by rewrite le_combine_le64, swrap_uwrap, swrap_small by lia.
Qed.

(** A short read fails; at the very end of the stream the error is [EOF]. *)
Lemma io_ReadFull_short n (r : bytes) :
  blen r < n -> io_ReadFull n r = Err (if blen r =? 0 then EOF else ErrUnexpectedEOF).
Proof. intros. pose proof (blen_nonneg r). unfold io_ReadFull. case_ifs. Qed.

(** A successful read splits the stream. *)
Lemma io_ReadFull_inv n (r b r' : bytes) :
  0 <= n -> io_ReadFull n r = Ok (b, r') -> r = b ++ r' /\ blen b = n.
Proof.
  intros Hn. unfold io_ReadFull. case_ifs; intros [= <- <-].
  - split; [done|]. unfold blen. simpl. lia.
  - split; [by rewrite take_drop|]. unfold blen in *. rewrite length_take. lia.
Qed.

(** *** Comparisons *)

Section total_compare.
Context {A} (f : A -> A -> Z) `{!TotalCompare f}.

Lemma cmp_refl a : f a a = 0.
Proof. by apply cmp_eq. Qed.

Lemma cmp_gt_lt a b : 0 < f a b <-> f b a < 0.
Proof. rewrite (cmp_opp (f:=f) a b). lia. Qed.

Lemma cmp_le_lt_trans a b c : f a b <= 0 -> f b c < 0 -> f a c < 0.
Proof.
  intros H1 H2. destruct (Z.eq_dec (f a b) 0) as [->%(cmp_eq (f:=f))|]; [done|].
  apply (cmp_trans (f:=f) a b c); lia.
Qed.

Lemma cmp_lt_le_trans a b c : f a b < 0 -> f b c <= 0 -> f a c < 0.
Proof.
  intros H1 H2. destruct (Z.eq_dec (f b c) 0) as [<-%(cmp_eq (f:=f))|]; [done|].
  apply (cmp_trans (f:=f) a b c); lia.
Qed.

Lemma cmp_antisym a b : f a b <= 0 -> f b a <= 0 -> a = b.
Proof. intros H1 H2. apply (cmp_eq (f:=f)). rewrite (cmp_opp (f:=f) a b) in H2. lia. Qed.

Lemma cmp_le_trans a b c : f a b <= 0 -> f b c <= 0 -> f a c <= 0.
Proof.
  intros H1 H2. destruct (Z.eq_dec (f a b) 0) as [->%(cmp_eq (f:=f))|]; [done|].
  assert (f a c < 0); [|lia]. apply (cmp_lt_le_trans a b c); lia.
Qed.
End total_compare.

Lemma cmp_Compare_spec x y :
  (x < y /\ cmp_Compare x y = -1) \/ (x = y /\ cmp_Compare x y = 0)
  \/ (y < x /\ cmp_Compare x y = 1).
Proof. unfold cmp_Compare. case_ifs; lia. Qed.

#[global] Instance cmp_Compare_total : TotalCompare cmp_Compare.
Proof. split; intros *; unfold cmp_Compare; case_ifs; split; lia. Qed.

Lemma bytes_Compare_cons x y a b :
  bytes_Compare (x :: a) (y :: b) =
    if decide (x = y) then bytes_Compare a b
    else cmp_Compare (byte.unsigned x) (byte.unsigned y).
Proof.
  cbn [bytes_Compare]. destruct (decide (x = y)) as [->|Hne].
  - by rewrite (cmp_refl cmp_Compare).
  - case_if; [|done]. destruct Hne. apply byte.unsigned_inj.
    by apply (cmp_eq (f := cmp_Compare)).
Qed.

#[global] Instance bytes_Compare_total : TotalCompare bytes_Compare.
Proof.
  split.
  - induction a as [|x a IH]; intros [|y b]; try done.
    rewrite bytes_Compare_cons. destruct (decide (x = y)) as [->|Hne].
    { rewrite IH. naive_solver. }
    rewrite (cmp_eq (f := cmp_Compare)). split; [|naive_solver].
    by intros ?%byte.unsigned_inj.
  - induction a as [|x a IH]; intros [|y b]; try done.
    rewrite !bytes_Compare_cons. repeat case_decide; try congruence.
    apply (cmp_opp (f := cmp_Compare)).
  - induction a as [|x a IH]; intros [|y b] [|z c]; try done.
    rewrite !bytes_Compare_cons. repeat case_decide; subst; try congruence; eauto.
    + intros H1 H2.
      pose proof (cmp_trans (f := cmp_Compare) _ _ _ H1 H2) as H3.
      by rewrite (cmp_refl cmp_Compare) in H3.
    + apply (cmp_trans (f := cmp_Compare)).
Qed.

(** *** Lists *)

Lemma StronglySorted_filter {A} (R : relation A) (P : A -> Prop) `{!forall x, Decision (P x)} l :
  StronglySorted R l -> StronglySorted R (filter P l).
Proof.
  induction 1 as [|x l Hs IH Hx]; [constructor|].
  rewrite filter_cons. case_decide; [|done]. constructor; [done|].
  rewrite Forall_forall in *. intros y [_ Hy]%list_elem_of_filter. auto.
Qed.

Lemma find_none_iff {A} (f : A -> bool) (l : list A) :
  List.find f l = None <-> forall x, x ∈ l -> f x = false.
Proof.
  split.
  - intros H x Hx%list_elem_of_In. by eapply List.find_none.
  - intros H. destruct (List.find f l) as [x|] eqn:E; [|done].
    apply List.find_some in E as [Hin Hx]. rewrite H in Hx; [done|].
    by apply list_elem_of_In.
Qed.

Lemma list_filter_iff_in {A} (P Q : A -> Prop) `{!forall x, Decision (P x)}
    `{!forall x, Decision (Q x)} (l : list A) :
  (forall x, x ∈ l -> P x <-> Q x) -> filter P l = filter Q l.
Proof.
  induction l as [|x l IH]; intros Hin; [done|]. rewrite !filter_cons.
  rewrite IH by (intros; by apply Hin, list_elem_of_further).
  pose proof (Hin x (list_elem_of_here _ _)). repeat case_decide; tauto.
Qed.

Lemma filter_none {A} (P : A -> Prop) `{!forall x, Decision (P x)} (l : list A) :
  (forall x, x ∈ l -> ~ P x) -> filter P l = [].
Proof.
  induction l as [|x l IH]; intros Hin; [done|]. rewrite filter_cons_False.
  - apply IH. intros. by apply Hin, list_elem_of_further.
  - apply Hin, list_elem_of_here.
Qed.

Lemma filter_all {A} (P : A -> Prop) `{!forall x, Decision (P x)} (l : list A) :
  (forall x, x ∈ l -> P x) -> filter P l = l.
Proof.
  induction l as [|x l IH]; intros Hin; [done|]. rewrite filter_cons_True.
  - f_equal. apply IH. intros. by apply Hin, list_elem_of_further.
  - apply Hin, list_elem_of_here.
Qed.

(** Of two prefixes of one list the shorter is a prefix of the longer. *)
Lemma prefix_shorter {A} (a b c : list A) :
  a `prefix_of` c -> b `prefix_of` c -> (length a <= length b)%nat -> a `prefix_of` b.
Proof.
  intros [x ->] [y Hy] Hl. exists (take (length b - length a) x).
  apply (f_equal (take (length b))) in Hy. rewrite take_app_length in Hy.
  rewrite take_app_ge in Hy by done. done.
Qed.
