(* ===== verification/Config.v ===== *)
(** * Configuration constants ([src/config/config.go])

    The compile-time constants of package [config] that the other components read, and the
    [Config] record that [db.Open] receives. *)

From S2P Require Import Prelude.

Definition MAX_KEY_LENGTH : Z := 1024.
Definition MAX_VALUE_LENGTH : Z := 1048576.

Definition DEFAULT_MEMTABLE_FLUSH_SIZE : Z := 4 * 1024 * 1024.
Definition DEFAULT_BLOCK_SIZE : Z := 4096.
Definition DEFAULT_SYNC_THRESHOLD : Z := 10.

Definition DEFAULT_COMPACTION_THRESHOLD : Z := 4.
Definition DEFAULT_SIMILAR_SIZE_RATIO : Z := 2.

Definition DEFAULT_BLOOM_EXPECTED_KEYS : Z := 100000.

Definition DEFAULT_BLOCK_CACHE_ENTRIES : Z := 256.
Definition DEFAULT_CACHE_SHARD_COUNT : Z := 16.

Record Config := mkConfig {
  WALPath : bytes;
  SSTDir : bytes
}.

Definition DefaultConfig (walPath sstDir : bytes) : Config :=
  {| WALPath := walPath; SSTDir := sstDir |}.
