(* ===== verification/Base.v ===== *)
(** * Internal keys, lookup results and the snapshot watermark ([src/internal/base])

    [internal.go]: the internal key (user key + 8-byte trailer packing a 56-bit sequence
    number and a one-byte kind), its encoding, its order and the search keys.
    [lookup.go]: the three-valued lookup result.
    [watermark.go]: the reference-counted set of pinned snapshots.

    The theorems: trailers and encoded keys round-trip, [InternalCompare] is a total order
    (user key ascending, sequence number descending), a search key at a snapshot separates
    the visible versions of its user key from the invisible ones, and the watermark
    implements a multiset of pins whose minimum is [Floor]. *)

From stdpp Require Import gmultiset.
From S2P Require Import Prelude.

(** ** [internal.go] *)

Definition SeqNumMax : Z := Z.shiftl 1 56 - 1.

Definition InternalKeyKindDelete : Z := 0.
Definition InternalKeyKindSet : Z := 1.
Definition InternalKeyKindMax : Z := 1.
Definition InternalKeyKindInvalid : Z := 255.

(** The type [Compare func(a, b []byte) int]. *)
Definition Compare : Type := bytes -> bytes -> Z.

Definition MakeTrailer (seqNum kind : Z) : Z :=
  Z.lor (u64 (Z.shiftl seqNum 8)) kind.

Definition trailer_SeqNum (t : Z) : Z := Z.shiftr t 8.

Definition trailer_Kind (t : Z) : Z := u8 (Z.land t 255).

Record InternalKey := mkIK {
  UserKey : bytes;
  Trailer : Z
}.

Definition InternalTrailerLen : Z := 8.

Definition MakeInternalKey (userKey : bytes) (seqNum kind : Z) : InternalKey :=
  {| UserKey := userKey; Trailer := MakeTrailer seqNum kind |}.

Definition MakeSearchKeyAt (userKey : bytes) (snapshot : Z) : InternalKey :=
  MakeInternalKey userKey snapshot InternalKeyKindMax.

Definition MakeSearchKey (userKey : bytes) : InternalKey :=
  MakeSearchKeyAt userKey SeqNumMax.

Definition DecodeInternalKey (encodedKey : bytes) : InternalKey :=
  let n := blen encodedKey - InternalTrailerLen in
  if 0 <=? n then
    {| UserKey := take (Z.to_nat n) encodedKey;
       Trailer := le_combine (take 8 (drop (Z.to_nat n) encodedKey)) |}
  else
    {| UserKey := []; Trailer := InternalKeyKindInvalid |}.

Definition InternalCompare (userCmp : Compare) (a b : InternalKey) : Z :=
  let x := userCmp (UserKey a) (UserKey b) in
  if negb (x =? 0) then x
  else cmp_Compare (Trailer b) (Trailer a).

(** [Encode] overwrites the front of the caller's buffer: [copy], then [PutUint64] on the
    rest, which panics when fewer than eight bytes are left. *)
Definition Encode (k : InternalKey) (buf : bytes) : result bytes :=
  let i := Nat.min (length buf) (length (UserKey k)) in
  let buf1 := take i (UserKey k) ++ drop i buf in
  if (length buf1 - i <? 8)%nat then Panic
  else Ok (take i buf1 ++ le64 (Trailer k) ++ drop (i + 8) buf1).

Definition Size (k : InternalKey) : Z := blen (UserKey k) + InternalTrailerLen.

(** The three lines every caller of [Encode] has: [buf := make([]byte, k.Size());
    k.Encode(buf); return buf]. *)
Definition encodeIK (k : InternalKey) : bytes :=
  match Encode k (replicate (Z.to_nat (Size k)) Byte.x00) with
  | Ok buf => buf
  | _ => []
  end.

Definition SeqNum (k : InternalKey) : Z := trailer_SeqNum (Trailer k).

Definition Kind (k : InternalKey) : Z := trailer_Kind (Trailer k).

Definition Visible (k : InternalKey) (snapshot : Z) : bool := SeqNum k <=? snapshot.

Definition Valid (k : InternalKey) : bool := Kind k <=? InternalKeyKindMax.

(** ** [lookup.go] *)

Inductive KEY_LOOKUP_ENUM := KEY_ABSENT | KEY_FOUND | KEY_DELETED.

(** ** [watermark.go] *)

Record Watermark := mkWatermark { active : gmap Z Z }.

Definition NewWatermark : Watermark := {| active := ∅ |}.

(** Reading a missing key of a Go map gives the zero value. *)
Definition refcount (w : Watermark) (seq : Z) : Z := default 0 (active w !! seq).

Definition Begin (w : Watermark) (seq : Z) : Watermark :=
  {| active := <[seq := refcount w seq + 1]> (active w) |}.

Definition Done (w : Watermark) (seq : Z) : Watermark :=
  if refcount w seq <=? 1 then {| active := delete seq (active w) |}
  else {| active := <[seq := refcount w seq - 1]> (active w) |}.

Definition Floor (w : Watermark) : Z :=
  map_fold (fun seq _ floor => if seq <? floor then seq else floor) SeqNumMax (active w).

(** Calls on one watermark, and what they do to the multiset of pins it stands for. *)
Inductive wop := OpBegin (seq : Z) | OpDone (seq : Z).

Definition wm_step (w : Watermark) (o : wop) : Watermark :=
  match o with OpBegin s => Begin w s | OpDone s => Done w s end.

Definition pin_step (pins : gmultiset Z) (o : wop) : gmultiset Z :=
  match o with OpBegin s => {[+ s +]} ⊎ pins | OpDone s => pins ∖ {[+ s +]} end.

(** ** Trailers *)

Lemma SeqNumMax_val : SeqNumMax = 2 ^ 56 - 1.
Proof. done. Qed.

Lemma land_shiftl_low a k n : 0 <= n -> 0 <= k < 2 ^ n -> Z.land (Z.shiftl a n) k = 0.
Proof.
  intros Hn Hk. apply Z.bits_inj'. intros i Hi.
  rewrite Z.land_spec, Z.bits_0, Z.shiftl_spec by done.
  destruct (decide (i < n)) as [|Hge].
  - by rewrite Z.testbit_neg_r by lia.
  - rewrite <- (Z.mod_small k (2 ^ n)) by done. rewrite Z.mod_pow2_bits_high by lia.
    apply andb_false_r.
Qed.

(** A trailer is the number [seq * 256 + kind]. *)
Lemma MakeTrailer_val seq kind :
  0 <= seq <= SeqNumMax -> 0 <= kind < 256 -> MakeTrailer seq kind = seq * 256 + kind.
Proof.
  rewrite SeqNumMax_val. intros Hs Hk. unfold MakeTrailer.
  assert (Hsh : Z.shiftl seq 8 = seq * 256) by (rewrite Z.shiftl_mul_pow2; lia).
  rewrite uwrap_small by lia.
  pose proof (Z.add_lor_land (Z.shiftl seq 8) kind) as Hadd.
  rewrite (land_shiftl_low seq kind 8) in Hadd by lia. lia.
Qed.

Lemma trailer_SeqNum_val t : trailer_SeqNum t = t / 256.
Proof. unfold trailer_SeqNum. by rewrite Z.shiftr_div_pow2. Qed.

Lemma trailer_Kind_val t : trailer_Kind t = t mod 256.
Proof.
  unfold trailer_Kind, uwrap. change 255 with (Z.ones 8). rewrite Z.land_ones by lia.
  by rewrite Z.mod_mod.
Qed.

Lemma trailer_SeqNum_make seq kind :
  0 <= seq <= SeqNumMax -> 0 <= kind < 256 -> trailer_SeqNum (MakeTrailer seq kind) = seq.
Proof.
  intros Hs Hk. rewrite MakeTrailer_val, trailer_SeqNum_val by done.
  rewrite Z.div_add_l by lia. rewrite Z.div_small; lia.
Qed.

Lemma trailer_Kind_make seq kind :
  0 <= seq <= SeqNumMax -> 0 <= kind < 256 -> trailer_Kind (MakeTrailer seq kind) = kind.
Proof.
  intros Hs Hk. rewrite MakeTrailer_val, trailer_Kind_val by done.
  rewrite Z.add_comm, Z_mod_plus_full. by apply Z.mod_small.
Qed.

Lemma MakeTrailer_range seq kind :
  0 <= seq <= SeqNumMax -> 0 <= kind < 256 -> 0 <= MakeTrailer seq kind < 2 ^ 64.
Proof. intros. rewrite MakeTrailer_val by done. rewrite SeqNumMax_val in *. lia. Qed.

(** ** Encoding *)

Lemma Encode_fits k buf :
  (length (UserKey k) + 8 <= length buf)%nat ->
  Encode k buf = Ok (UserKey k ++ le64 (Trailer k) ++ drop (length (UserKey k) + 8) buf).
Proof.
  intros Hlen. unfold Encode. rewrite Nat.min_r by lia.
  rewrite take_ge by lia. rewrite length_app, length_drop.
  destruct (Nat.ltb_spec (length (UserKey k) + (length buf - length (UserKey k)) -
    length (UserKey k)) 8) as [?|_]; [lia|].
  rewrite take_app_length. do 3 f_equal.
  rewrite drop_app_ge by lia. rewrite drop_drop. f_equal. lia.
Qed.

Lemma encodeIK_val k : encodeIK k = UserKey k ++ le64 (Trailer k).
Proof.
  unfold encodeIK, Size, InternalTrailerLen. rewrite Encode_fits.
  - rewrite drop_ge, app_nil_r; [done|]. rewrite length_replicate. unfold blen. lia.
  - rewrite length_replicate. unfold blen. lia.
Qed.

Lemma DecodeInternalKey_app (uk tr : bytes) :
  length tr = 8%nat -> DecodeInternalKey (uk ++ tr) = mkIK uk (le_combine tr).
Proof.
  intros Htr. unfold DecodeInternalKey, InternalTrailerLen.
  assert (Hn : blen (uk ++ tr) - 8 = Z.of_nat (length uk)).
  { rewrite blen_app. unfold blen. lia. }
  rewrite Hn, Nat2Z.id. case_ifs. rewrite take_app_length, drop_app_length.
  by rewrite take_ge by lia.
Qed.

Lemma decode_encodeIK k : 0 <= Trailer k < 2 ^ 64 -> DecodeInternalKey (encodeIK k) = k.
Proof.
  intros Ht. rewrite encodeIK_val, DecodeInternalKey_app by apply length_le64.
  rewrite le_combine_le64, uwrap_small by done. by destruct k.
Qed.

Lemma encode_decode_ik (b : bytes) : 8 <= blen b -> encodeIK (DecodeInternalKey b) = b.
Proof.
  intros Hb. rewrite encodeIK_val. unfold DecodeInternalKey, InternalTrailerLen.
  case_ifs. simpl. unfold blen in *.
  rewrite (take_ge (drop _ b)) by (rewrite length_drop; lia).
  unfold le64. rewrite split_le_combine'; [by rewrite take_drop|].
  rewrite length_drop. lia.
Qed.

Lemma encodeIK_length k : length (encodeIK k) = (length (UserKey k) + 8)%nat.
Proof. rewrite encodeIK_val, length_app, length_le64. lia. Qed.

Lemma decode_trailer_range b : 0 <= Trailer (DecodeInternalKey b) < 2 ^ 64.
Proof.
  unfold DecodeInternalKey, InternalTrailerLen, InternalKeyKindInvalid.
  case_if; simpl; [|lia]. unfold blen in *.
  pose proof (le_combine_bound (take 8 (drop (Z.to_nat (Z.of_nat (length b) - 8)) b))) as Hb.
  rewrite length_take, length_drop in Hb. 
  replace (Nat.min 8 (length b - Z.to_nat (Z.of_nat (length b) - 8)))%nat with 8%nat in Hb by lia.
  exact Hb.
Qed.

(** ** The order of internal keys *)

#[global] Instance InternalCompare_total userCmp `{!TotalCompare userCmp} :
  TotalCompare (InternalCompare userCmp).
Proof.
  split.
  - intros [ka ta] [kb tb]. unfold InternalCompare. simpl. case_if.
    + split; [done|]. intros [= -> ->]. by rewrite (cmp_refl userCmp) in E.
    + apply (cmp_eq (f := userCmp)) in E as ->.
      rewrite (cmp_eq (f := cmp_Compare)). naive_solver.
  - intros [ka ta] [kb tb]. unfold InternalCompare. simpl.
    rewrite (cmp_opp (f := userCmp) ka kb). case_if; case_if; try lia.
    apply (cmp_opp (f := cmp_Compare)).
  - intros [ka ta] [kb tb] [kc tc]. unfold InternalCompare. simpl.
    destruct (Z.eq_dec (userCmp ka kb) 0) as [E1|E1];
      destruct (Z.eq_dec (userCmp kb kc) 0) as [E2|E2].
    + apply (cmp_eq (f := userCmp)) in E1 as ->, E2 as ->.
      rewrite (cmp_refl userCmp). simpl. intros H1 H2.
      exact (cmp_trans (f := cmp_Compare) _ _ _ H2 H1).
    + apply (cmp_eq (f := userCmp)) in E1 as ->. rewrite (cmp_refl userCmp).
      simpl. case_ifs.
    + apply (cmp_eq (f := userCmp)) in E2 as ->. rewrite (cmp_refl userCmp).
      simpl. case_ifs.
    + case_if; [|lia]. case_if; [|lia]. intros H1 H2.
      pose proof (cmp_trans (f := userCmp) _ _ _ H1 H2). case_ifs.
Qed.

(** The order of encoded keys: what [Item.Less], [SortEntries], [searchIndex] and the
    iterators compute on the stored bytes. *)
Definition kcmp (a b : bytes) : Z :=
  InternalCompare bytes_Compare (DecodeInternalKey a) (DecodeInternalKey b).

Lemma InternalCompare_same (k : bytes) t1 t2 :
  InternalCompare bytes_Compare (mkIK k t1) (mkIK k t2) = cmp_Compare t2 t1.
Proof. unfold InternalCompare. simpl. by rewrite (cmp_refl bytes_Compare). Qed.

Lemma InternalCompare_diff a b :
  UserKey a <> UserKey b ->
  InternalCompare bytes_Compare a b = bytes_Compare (UserKey a) (UserKey b).
Proof.
  intros Hne. unfold InternalCompare. case_if; [done|].
  by apply (cmp_eq (f := bytes_Compare)) in E.
Qed.

Lemma cmp_Compare_lt x y : cmp_Compare x y < 0 <-> x < y.
Proof. unfold cmp_Compare. case_ifs. Qed.

Lemma cmp_Compare_le x y : cmp_Compare x y <= 0 <-> x <= y.
Proof. unfold cmp_Compare. case_ifs. Qed.

Lemma InternalCompare_lt a b :
  InternalCompare bytes_Compare a b < 0 <->
    bytes_Compare (UserKey a) (UserKey b) < 0
    \/ UserKey a = UserKey b /\ Trailer b < Trailer a.
Proof.
  destruct (decide (UserKey a = UserKey b)) as [E|Hne].
  - destruct a as [ka ta], b as [kb tb]. simpl in *. subst kb.
    rewrite InternalCompare_same, cmp_Compare_lt, (cmp_refl bytes_Compare). split; [by right; split|]. by intros [?|[_ ?]].
  - rewrite InternalCompare_diff by done. split; [by left|]. by intros [?|[? _]].
Qed.

(** The search key at [snap] precedes exactly the versions with a sequence number of at
    most [snap], as long as their kind is a valid one. *)
Lemma search_key_le k snap e :
  0 <= snap <= SeqNumMax -> UserKey e = k -> Valid e = true ->
  (InternalCompare bytes_Compare (MakeSearchKeyAt k snap) e <= 0 <-> SeqNum e <= snap).
Proof.
  intros Hs Hk Hv. destruct e as [uk t]. simpl in *. subst uk.
  unfold MakeSearchKeyAt, MakeInternalKey. rewrite InternalCompare_same, cmp_Compare_le.
  unfold Valid, Kind, SeqNum, InternalKeyKindMax in *. simpl in *. breflect.
  rewrite MakeTrailer_val by lia. rewrite trailer_Kind_val, trailer_SeqNum_val in *.
  pose proof (Z.div_mod t 256 ltac:(lia)). pose proof (Z.mod_pos_bound t 256 ltac:(lia)). lia.
Qed.

(** ** The watermark *)

Definition wm_rel (w : Watermark) (pins : gmultiset Z) : Prop :=
  forall s, refcount w s = Z.of_nat (multiplicity s pins)
    /\ (forall n, active w !! s = Some n -> 0 < n).

Lemma refcount_insert w s n t :
  refcount (mkWatermark (<[s := n]> (active w))) t = if decide (s = t) then n else refcount w t.
Proof. unfold refcount. simpl. rewrite lookup_insert. by case_decide. Qed.

Lemma refcount_delete w s t :
  refcount (mkWatermark (delete s (active w))) t = if decide (s = t) then 0 else refcount w t.
Proof. unfold refcount. simpl. rewrite lookup_delete. by case_decide. Qed.

Lemma wm_rel_step w pins o : wm_rel w pins -> wm_rel (wm_step w o) (pin_step pins o).
Proof.
  intros HR t. destruct (HR t) as [Ht Hpos]. destruct o as [s|s]; simpl.
  - unfold Begin. rewrite refcount_insert, multiplicity_disj_union, multiplicity_singleton.
    destruct (HR s) as [Hs _]. simpl. rewrite lookup_insert.
    split; repeat case_decide; subst; try done; try lia. intros n [= <-]. lia.
  - unfold Done. rewrite multiplicity_difference, multiplicity_singleton.
    destruct (HR s) as [Hs Hsp]. case_if.
    + rewrite refcount_delete. simpl. rewrite lookup_delete.
      split; repeat case_decide; subst; try done; lia.
    + rewrite refcount_insert. simpl. rewrite lookup_insert.
      split; repeat case_decide; subst; try done; try lia. intros n [= <-]. lia.
Qed.

Lemma wm_rel_run ops w pins :
  wm_rel w pins -> wm_rel (foldl wm_step w ops) (foldl pin_step pins ops).
Proof.
  revert w pins. induction ops as [|o ops IH]; intros w pins HR; [done|].
  apply IH, wm_rel_step, HR.
Qed.

Lemma wm_rel_pinned w pins s : wm_rel w pins -> (s ∈ pins <-> is_Some (active w !! s)).
Proof.
  intros HR. destruct (HR s) as [Hs Hp]. rewrite elem_of_multiplicity.
  unfold refcount in Hs. destruct (active w !! s) as [n|] eqn:E; simpl in Hs.
  - specialize (Hp n eq_refl). split; [eauto|lia].
  - split; [lia|]. by intros [].
Qed.

(** [Floor] is the minimum of [SeqNumMax] and the pinned numbers. *)
Lemma Floor_spec w :
  (forall s, is_Some (active w !! s) -> Floor w <= s)
  /\ Floor w <= SeqNumMax
  /\ (Floor w = SeqNumMax \/ is_Some (active w !! Floor w)).
Proof.
  unfold Floor.
  apply (map_fold_weak_ind (fun r (m : gmap Z Z) =>
    (forall s, is_Some (m !! s) -> r <= s) /\ r <= SeqNumMax
    /\ (r = SeqNumMax \/ is_Some (m !! r)))).
  - split; [|split; [lia|by left]]. intros s [? [=]].
  - intros i x m r Hi (H1 & H2 & H3). split; [|split].
    + intros s. rewrite lookup_insert. case_decide; [subst; case_ifs|].
      intros Hs. specialize (H1 s Hs). case_ifs.
    + case_ifs.
    + case_if; [right; rewrite lookup_insert_eq; eauto|].
      destruct H3 as [?|H3]; [by left|]. right.
      rewrite lookup_insert. case_decide; eauto.
Qed.

(** ** Properties *)

(** Packing a sequence number and a kind into a trailer loses nothing over the whole
    56-bit and 8-bit ranges, and the packed value fits a [uint64]; an internal key is
    recovered from its encoding, and every stored byte string of at least eight bytes is
    the encoding of the key it decodes to. *)
Theorem internal_key_roundtrip (uk : bytes) (seq kind : Z) (stored : bytes) :
  0 <= seq <= SeqNumMax -> 0 <= kind < 256 -> InternalTrailerLen <= blen stored ->
  let k := MakeInternalKey uk seq kind in
  DecodeInternalKey (encodeIK k) = k
  /\ SeqNum k = seq /\ Kind k = kind /\ 0 <= Trailer k < 2 ^ 64
  /\ blen (encodeIK k) = Size k
  /\ encodeIK (DecodeInternalKey stored) = stored.
Proof.
  intros Hs Hk Hst. split_and!; simpl.
  - by apply decode_encodeIK, MakeTrailer_range.
  - by apply trailer_SeqNum_make.
  - by apply trailer_Kind_make.
  - by apply MakeTrailer_range.
  - by apply MakeTrailer_range.
  - unfold blen, Size, InternalTrailerLen, blen. rewrite encodeIK_length. simpl. lia.
  - by apply encode_decode_ik.
Qed.

Lemma internal_key_roundtrip_witness :
  let k := MakeInternalKey (bytes_of "city") 47 InternalKeyKindSet in
  DecodeInternalKey (encodeIK k) = k /\ SeqNum k = 47 /\ Kind k = 1.
Proof.
  destruct (internal_key_roundtrip (bytes_of "city") 47 1 (bytes_of "12345678"))
    as (H1 & H2 & H3 & _); [vm_compute; split; congruence|lia|vm_compute; congruence|].
  done.
Defined.

(** [InternalCompare] orders internal keys by user key ascending, then sequence number
    descending, then kind descending. *)
Theorem internal_compare_order (a b : bytes) (s1 s2 k1 k2 : Z) :
  0 <= s1 <= SeqNumMax -> 0 <= s2 <= SeqNumMax -> 0 <= k1 < 256 -> 0 <= k2 < 256 ->
  InternalCompare bytes_Compare (MakeInternalKey a s1 k1) (MakeInternalKey b s2 k2) < 0 <->
    bytes_Compare a b < 0 \/ (a = b /\ (s2 < s1 \/ (s1 = s2 /\ k2 < k1))).
Proof.
  intros. rewrite InternalCompare_lt. simpl. rewrite !MakeTrailer_val by done.
  split; (intros [?|[-> ?]]; [by left|right; split; [done|lia]]).
Qed.

Lemma internal_compare_order_witness :
  InternalCompare bytes_Compare (MakeInternalKey (bytes_of "a") 9 1)
    (MakeInternalKey (bytes_of "b") 200 1) < 0.
Proof.
  apply (internal_compare_order (bytes_of "a") (bytes_of "b") 9 200 1 1);
    [rewrite SeqNumMax_val; lia|rewrite SeqNumMax_val; lia|lia|lia|].
  left. vm_compute. reflexivity.
Defined.

(** The search key of a user key at a snapshot sorts before (or equal to) exactly those
    versions of that user key that are visible at the snapshot, so a seek to it lands on the
    newest visible version. *)
Theorem search_key_separates (uk : bytes) (snapshot seq kind : Z) :
  0 <= snapshot <= SeqNumMax -> 0 <= seq <= SeqNumMax -> 0 <= kind <= InternalKeyKindMax ->
  let version := MakeInternalKey uk seq kind in
  (InternalCompare bytes_Compare (MakeSearchKeyAt uk snapshot) version <= 0
    <-> Visible version snapshot = true)
  /\ (0 < InternalCompare bytes_Compare (MakeSearchKeyAt uk snapshot) version
    <-> Visible version snapshot = false).
Proof.
  intros Hsn Hs Hk version. unfold InternalKeyKindMax in Hk.
  assert (Hv : Valid version = true).
  { unfold Valid, Kind, version, InternalKeyKindMax. simpl.
    rewrite trailer_Kind_make by lia. lia. }
  pose proof (search_key_le uk snapshot version Hsn eq_refl Hv) as Hle.
  unfold Visible. split; [by rewrite Z.leb_le|]. rewrite Z.leb_gt. lia.
Qed.

Lemma search_key_separates_witness :
  let v := MakeInternalKey (bytes_of "k") 7 InternalKeyKindDelete in
  (InternalCompare bytes_Compare (MakeSearchKeyAt (bytes_of "k") 6) v <= 0
    <-> Visible v 6 = true)
  /\ (0 < InternalCompare bytes_Compare (MakeSearchKeyAt (bytes_of "k") 6) v
    <-> Visible v 6 = false).
Proof.
  apply (search_key_separates (bytes_of "k") 6 7 InternalKeyKindDelete);
    vm_compute; split; congruence.
Defined.

(** Whatever sequence of [Begin] and [Done] calls is made on a new watermark, it
    represents the multiset of outstanding pins: a sequence number is in the map exactly
    when it is pinned, its count is its number of pins (never zero or negative), an
    unmatched [Done] changes nothing, and [Floor] is the smallest pinned number, or
    [SeqNumMax] when nothing is pinned. *)
Theorem watermark_refines_pins (ops : list wop) :
  let w := foldl wm_step NewWatermark ops in
  let pins : gmultiset Z := foldl pin_step ∅ ops in
  (forall s, refcount w s = Z.of_nat (multiplicity s pins))
  /\ (forall s, is_Some (active w !! s) <-> s ∈ pins)
  /\ (forall s, s ∈ pins -> Floor w <= s)
  /\ (Floor w = SeqNumMax \/ Floor w ∈ pins).
Proof.
  intros w pins.
  assert (HR : wm_rel w pins).
  { apply wm_rel_run. intros s. unfold refcount. simpl. by rewrite lookup_empty. }
  destruct (Floor_spec w) as (F1 & F2 & F3). split; [|split; [|split]].
  - intros s. apply HR.
  - intros s. symmetry. by apply wm_rel_pinned.
  - intros s Hs. by apply F1, (wm_rel_pinned _ _ _ HR).
  - destruct F3 as [->|Hin]; [by left|right]. by apply (wm_rel_pinned _ _ _ HR).
Qed.
