(* ===== verification/Mvcc.v ===== *)
(** * Multi-version lookup: the abstract specification

    Every level of the store (memtable, SSTable, write-ahead log) holds the same kind of
    record, an encoded internal key with a value. This file says what a read of a user key
    at a snapshot means on a collection of such records, independently of how a component
    stores them: [newest] picks the visible version with the greatest trailer.

    The lemmas reduce [newest] to what the components do: the first hit in sorted order
    ([newest_sorted]), the first level with a hit when the levels are ordered by recency
    ([newest_app_newer]), and independence of the storage order ([newest_perm]). *)

From S2P Require Import Prelude Base.

(** ** Records

    [memtable.Item], [sstable.BlockEntry] and [wal.Entry] are structs with the same two
    fields; one record type models the three. *)
Record kv := mkKV { Key : bytes; Value : bytes }.

#[global] Instance kv_eq_dec : EqDecision kv.
Proof. solve_decision. Defined.

#[global] Instance kv_inhabited : Inhabited kv := populate (mkKV [] []).

(** The decoded key of a record, and its parts. *)
Definition ik (e : kv) : InternalKey := DecodeInternalKey (Key e).
Definition uk (e : kv) : bytes := UserKey (ik e).
Definition trl (e : kv) : Z := Trailer (ik e).
Definition seqn (e : kv) : Z := SeqNum (ik e).

(** The order of records by encoded internal key. *)
Definition ecmp (a b : kv) : Z := kcmp (Key a) (Key b).
Definition ele (a b : kv) : Prop := ecmp a b <= 0.

(** A record as the program writes it: a whole trailer with a valid kind. *)
Definition wf_kv (e : kv) : Prop := 8 <= blen (Key e) /\ Valid (ik e) = true.

(** Two records with the same encoded key are the same write. *)
Definition coherent (l : list kv) : Prop :=
  forall a b, a ∈ l -> b ∈ l -> Key a = Key b -> a = b.

(** ** Reads *)

Definition visible_in (k : bytes) (s : Z) (e : kv) : bool :=
  bytes_Equal (uk e) k && Visible (ik e) s.

(** The visible version of [k] with the greatest trailer (the first one on a tie). *)
Fixpoint newest (k : bytes) (s : Z) (l : list kv) : option kv :=
  match l with
  | [] => None
  | e :: l' =>
      if visible_in k s e then
        match newest k s l' with
        | Some e' => if trl e' <=? trl e then Some e else Some e'
        | None => Some e
        end
      else newest k s l'
  end.

(** The three-valued answer of one level, and the answer of the database. *)
Definition lookup_result (o : option kv) : bytes * KEY_LOOKUP_ENUM :=
  match o with
  | None => ([], KEY_ABSENT)
  | Some e =>
      if Kind (ik e) =? InternalKeyKindDelete then ([], KEY_DELETED)
      else (Value e, KEY_FOUND)
  end.

Definition read_result (o : option kv) : option bytes :=
  match o with
  | None => None
  | Some e => if Kind (ik e) =? InternalKeyKindDelete then None else Some (Value e)
  end.

(** Every version in [l1] is at least as new as every version of the same key in [l2]. *)
Definition newer_than (l1 l2 : list kv) : Prop :=
  forall a b, a ∈ l1 -> b ∈ l2 -> uk a = uk b -> trl b <= trl a.

(** A list of levels, newest first. *)
Inductive by_recency : list (list kv) -> Prop :=
| by_recency_nil : by_recency []
| by_recency_cons l ls :
    Forall (newer_than l) ls -> by_recency ls -> by_recency (l :: ls).

(** ** Lemmas on records and their order *)

Lemma visible_in_true k s e : visible_in k s e = true <-> uk e = k /\ seqn e <= s.
Proof.
  unfold visible_in, bytes_Equal, Visible, seqn.
  rewrite andb_true_iff, bool_decide_eq_true, Z.leb_le. done.
Qed.

Lemma trl_seqn_le a b : trl a <= trl b -> seqn a <= seqn b.
Proof.
  unfold seqn, SeqNum, trl. rewrite !trailer_SeqNum_val. intros. by apply Z.div_le_mono.
Qed.

Lemma seqn_nonneg e : 0 <= seqn e.
Proof.
  unfold seqn, SeqNum. rewrite trailer_SeqNum_val.
  pose proof (decode_trailer_range (Key e)). unfold ik. apply Z.div_pos; lia.
Qed.

Lemma wf_key_inj a b : wf_kv a -> wf_kv b -> uk a = uk b -> trl a = trl b -> Key a = Key b.
Proof.
  intros [Ha _] [Hb _] Hu Ht.
  rewrite <- (encode_decode_ik (Key a)), <- (encode_decode_ik (Key b)) by done.
  f_equal. unfold uk, trl, ik in *. destruct (DecodeInternalKey (Key a)),
    (DecodeInternalKey (Key b)). simpl in *. by subst.
Qed.

Lemma ele_same_key a b : uk a = uk b -> (ele a b <-> trl b <= trl a).
Proof.
  intros Hu. unfold ele, ecmp, kcmp, uk, trl, ik in *.
  destruct (DecodeInternalKey (Key a)) as [ka ta], (DecodeInternalKey (Key b)) as [kb tb].
  simpl in *. subst kb. by rewrite InternalCompare_same, cmp_Compare_le.
Qed.

Lemma ele_uk a b : ele a b -> bytes_Compare (uk a) (uk b) <= 0.
Proof.
  unfold ele, ecmp, kcmp, uk, ik. intros H.
  destruct (decide (UserKey (DecodeInternalKey (Key a)) = UserKey (DecodeInternalKey (Key b))))
    as [->|Hne].
  - by rewrite (cmp_refl bytes_Compare).
  - by rewrite InternalCompare_diff in H.
Qed.

#[global] Instance ele_dec a b : Decision (ele a b).
Proof. unfold ele. apply _. Defined.

#[global] Instance ele_trans : Transitive ele.
Proof. intros a b c. unfold ele, ecmp, kcmp. apply (cmp_le_trans _). Qed.

#[global] Instance ele_refl : Reflexive ele.
Proof. intros a. unfold ele, ecmp, kcmp. by rewrite (cmp_refl _). Qed.

#[global] Instance ele_total : Total ele.
Proof.
  intros a b. unfold ele, ecmp, kcmp.
  rewrite (cmp_opp (f := InternalCompare bytes_Compare) (DecodeInternalKey (Key b))). lia.
Qed.

(** ** Lemmas on [newest] *)

Lemma newest_None k s l :
  newest k s l = None <-> forall e, e ∈ l -> visible_in k s e = false.
Proof.
  induction l as [|x l IH]; simpl.
  - split; [|done]. intros _ e He. by apply elem_of_nil in He.
  - destruct (visible_in k s x) eqn:Hx.
    + split; [by destruct (newest k s l); [case_match|]|].
      intros H. rewrite (H x) in Hx; [done|apply list_elem_of_here].
    + rewrite IH. split; intros H e He.
      * apply elem_of_cons in He as [->|?]; auto.
      * by apply H, list_elem_of_further.
Qed.

Lemma newest_Some k s l e :
  newest k s l = Some e ->
  e ∈ l /\ visible_in k s e = true
  /\ forall e', e' ∈ l -> visible_in k s e' = true -> trl e' <= trl e.
Proof.
  revert e. induction l as [|x l IH]; intros e; simpl; [done|].
  destruct (visible_in k s x) eqn:Hx.
  - destruct (newest k s l) as [e'|] eqn:Hn.
    + destruct (IH e' eq_refl) as (Hin & Hv & Hmax).
      case_if; intros [= <-].
      * split; [apply list_elem_of_here|]. split; [done|].
        intros e'' [->|Hin'']%elem_of_cons Hv''; [lia|].
        specialize (Hmax _ Hin'' Hv''); lia.
      * split; [by apply list_elem_of_further|]. split; [done|].
        intros e'' [->|Hin'']%elem_of_cons Hv''; [lia|]. by apply Hmax.
    + intros [= <-]. split; [apply list_elem_of_here|]. split; [done|].
      intros e'' [->|Hin'']%elem_of_cons Hv''; [lia|].
      rewrite newest_None in Hn. by rewrite (Hn _ Hin'') in Hv''.
  - intros Hn. destruct (IH e Hn) as (Hin & Hv & Hmax).
    split; [by apply list_elem_of_further|]. split; [done|].
    intros e'' [->|Hin'']%elem_of_cons Hv''; [congruence|]. by apply Hmax.
Qed.

(** Any visible record that no visible record exceeds is a possible answer; when the records
    are well formed and coherent it is the answer. *)
Lemma newest_intro k s l e :
  Forall wf_kv l -> coherent l -> e ∈ l -> visible_in k s e = true ->
  (forall e', e' ∈ l -> visible_in k s e' = true -> trl e' <= trl e) ->
  newest k s l = Some e.
Proof.
  intros Hwf Hco Hin Hv Hmax. rewrite Forall_forall in Hwf.
  destruct (newest k s l) as [e'|] eqn:Hn.
  - apply newest_Some in Hn as (Hin' & Hv' & Hmax'). f_equal.
    apply Hco; [done..|]. apply wf_key_inj; auto.
    + apply visible_in_true in Hv as [-> _], Hv' as [-> _]. done.
    + apply Z.le_antisymm; auto.
  - rewrite newest_None in Hn. rewrite (Hn e Hin) in Hv. done.
Qed.

Lemma newest_perm k s l1 l2 :
  Forall wf_kv l1 -> coherent l1 -> (forall e, e ∈ l1 <-> e ∈ l2) ->
  newest k s l1 = newest k s l2.
Proof.
  intros Hwf Hco Heq. symmetry.
  assert (Hwf2 : Forall wf_kv l2).
  { rewrite Forall_forall in *. intros e He. apply Hwf. by apply Heq. }
  assert (Hco2 : coherent l2).
  { intros a b Ha Hb. apply Hco; by apply Heq. }
  destruct (newest k s l1) as [e|] eqn:Hn.
  - apply newest_Some in Hn as (Hin & Hv & Hmax).
    apply newest_intro; auto; [by apply Heq|]. intros e' He'. apply Hmax. by apply Heq.
  - apply newest_None. rewrite newest_None in Hn. intros e He. apply Hn. by apply Heq.
Qed.

Lemma newest_app k s l1 l2 :
  newest k s (l1 ++ l2) =
    match newest k s l1, newest k s l2 with
    | Some e1, Some e2 => if trl e2 <=? trl e1 then Some e1 else Some e2
    | Some e1, None => Some e1
    | None, o => o
    end.
Proof.
  induction l1 as [|x l1 IH]; simpl; [done|].
  destruct (visible_in k s x); [|done]. rewrite IH.
  destruct (newest k s l1) as [e1|], (newest k s l2) as [e2|]; repeat case_if; try done; lia.
Qed.

(** Levels in order of recency are searched one after the other. *)
Lemma newest_app_newer k s l1 l2 :
  newer_than l1 l2 ->
  newest k s (l1 ++ l2) =
    match newest k s l1 with Some e => Some e | None => newest k s l2 end.
Proof.
  intros Hnew. rewrite newest_app.
  destruct (newest k s l1) as [e1|] eqn:H1; [|done].
  destruct (newest k s l2) as [e2|] eqn:H2; [|done].
  apply newest_Some in H1 as (Hin1 & [Hk1 _]%visible_in_true & _),
    H2 as (Hin2 & [Hk2 _]%visible_in_true & _).
  specialize (Hnew e1 e2 Hin1 Hin2). case_if; [done|].
  rewrite Hk1, Hk2 in Hnew. specialize (Hnew eq_refl). lia.
Qed.

(** In a list sorted by internal key the answer is the first visible record. *)
Lemma newest_sorted k s l :
  StronglySorted ele l -> newest k s l = List.find (visible_in k s) l.
Proof.
  induction 1 as [|x l Hs IH Hx]; simpl; [done|].
  destruct (visible_in k s x) eqn:Hv; [|done].
  destruct (newest k s l) as [e'|] eqn:Hn; [|done].
  apply newest_Some in Hn as (Hin & Hv' & _).
  rewrite Forall_forall in Hx. specialize (Hx e' Hin).
  apply visible_in_true in Hv as [Hk _], Hv' as [Hk' _].
  apply ele_same_key in Hx; [|congruence]. case_if; [done|lia].
Qed.

(** A record that is not visible for the query does not matter. *)
Lemma newest_cons_skip k s e l :
  visible_in k s e = false -> newest k s (e :: l) = newest k s l.
Proof. intros H. simpl. by rewrite H. Qed.

(** A record at least as new as every other version of its key answers its reads. *)
Lemma newest_cons_hit k s e l :
  visible_in k s e = true -> newer_than [e] l -> newest k s (e :: l) = Some e.
Proof.
  intros Hv Hnew. change (e :: l) with ([e] ++ l).
  rewrite newest_app_newer by done. simpl. by rewrite Hv.
Qed.

Lemma by_recency_app ls1 ls2 :
  by_recency (ls1 ++ ls2) <->
    by_recency ls1 /\ by_recency ls2
    /\ forall l1 l2, l1 ∈ ls1 -> l2 ∈ ls2 -> newer_than l1 l2.
Proof.
  induction ls1 as [|l ls1 IH]; simpl.
  - split; [|by intros (_ & ? & _)]. intros H. split; [constructor|]. split; [done|].
    intros l1 l2 Hl1. by apply elem_of_nil in Hl1.
  - split.
    + inversion 1 as [|? ? Hf Hr]; subst. apply Forall_app in Hf as [Hf1 Hf2].
      apply IH in Hr as (Hr1 & Hr2 & Hr3). split_and!; [by constructor|done|].
      rewrite Forall_forall in Hf2.
      intros l1 l2 [->|?]%elem_of_cons ?; auto.
    + intros (H1 & H2 & H3). inversion H1 as [|? ? Hf Hr]; subst. constructor.
      * apply Forall_app. split; [done|]. apply Forall_forall.
        intros l2 Hl2. apply H3; [apply list_elem_of_here|done].
      * apply IH. split_and!; [done..|]. intros l1 l2 Hl1 Hl2.
        apply H3; [by apply list_elem_of_further|done].
Qed.

Lemma newer_than_concat l ls : Forall (newer_than l) ls <-> newer_than l (concat ls).
Proof.
  rewrite Forall_forall. split.
  - intros H a b Ha Hb. apply list_elem_of_In, in_concat in Hb as (l' & Hl' & Hb).
    apply (H l'); [by apply list_elem_of_In|done|by apply list_elem_of_In].
  - intros H l' Hl' a b Ha Hb. apply H; [done|].
    apply list_elem_of_In, in_concat. exists l'. split; by apply list_elem_of_In.
Qed.

(** ** Seeking

    [from p l]: the records of [l] at or after the encoded key [p]. *)
Definition from (p : bytes) (l : list kv) : list kv := filter (fun e => 0 <= kcmp (Key e) p) l.

(** The encoded search key of [k] at [s]. *)
Definition search_bytes (k : bytes) (s : Z) : bytes := encodeIK (MakeSearchKeyAt k s).

Lemma decode_search_bytes k s :
  0 <= s <= SeqNumMax -> DecodeInternalKey (search_bytes k s) = MakeSearchKeyAt k s.
Proof.
  intros Hs. unfold search_bytes. apply decode_encodeIK. simpl.
  apply MakeTrailer_range; [done|]. unfold InternalKeyKindMax. lia.
Qed.

Lemma search_bytes_ge k s e :
  0 <= s <= SeqNumMax -> wf_kv e -> uk e = k ->
  (0 <= kcmp (Key e) (search_bytes k s) <-> seqn e <= s).
Proof.
  intros Hs [_ Hv] Hk. unfold kcmp. rewrite decode_search_bytes by done.
  rewrite (cmp_opp (f := InternalCompare bytes_Compare) (MakeSearchKeyAt k s)).
  pose proof (search_key_le k s (ik e) Hs Hk Hv) as H. unfold seqn. rewrite <- H.
  unfold ik. lia.
Qed.

Lemma search_bytes_uk k s e :
  0 <= s <= SeqNumMax -> 0 <= kcmp (Key e) (search_bytes k s) -> uk e <> k ->
  bytes_Compare k (uk e) < 0.
Proof.
  intros Hs. unfold kcmp. rewrite decode_search_bytes by done. intros Hge Hne.
  rewrite InternalCompare_diff in Hge by done. unfold uk, ik in *. simpl in *.
  rewrite (cmp_opp (f := bytes_Compare) (UserKey (DecodeInternalKey (Key e))) k).
  assert (bytes_Compare (UserKey (DecodeInternalKey (Key e))) k <> 0); [|lia].
  by intros ?%(cmp_eq (f := bytes_Compare)).
Qed.

Lemma sorted_from p l : StronglySorted ele l -> StronglySorted ele (from p l).
Proof. apply StronglySorted_filter. Qed.

(** Records before the search key are never visible. *)
Lemma find_from k s l :
  0 <= s <= SeqNumMax -> Forall wf_kv l ->
  List.find (visible_in k s) (from (search_bytes k s) l) = List.find (visible_in k s) l.
Proof.
  intros Hs Hwf. induction Hwf as [|e l He Hl IH]; [done|].
  unfold from in *. rewrite filter_cons. case_decide as Hd; simpl.
  - by destruct (visible_in k s e).
  - destruct (visible_in k s e) eqn:Hv; [|done].
    apply visible_in_true in Hv as [Hk Hq]. destruct Hd. by apply search_bytes_ge.
Qed.

(** A seek to the search key answers a read: the first record found there is the newest
    visible version, unless it belongs to another user key. *)
Lemma newest_seek k s l :
  0 <= s <= SeqNumMax -> Forall wf_kv l -> StronglySorted ele l ->
  newest k s l =
    match from (search_bytes k s) l with
    | e :: _ => if bytes_Equal (uk e) k then Some e else None
    | [] => None
    end.
Proof.
  intros Hs Hwf Hsort. rewrite newest_sorted, <- find_from by done.
  assert (Hwf' : Forall wf_kv (from (search_bytes k s) l)).
  { rewrite Forall_forall in *. intros e [_ He]%list_elem_of_filter. auto. }
  pose proof (sorted_from (search_bytes k s) l Hsort) as Hsort'.
  assert (Hge : Forall (fun e => 0 <= kcmp (Key e) (search_bytes k s))
    (from (search_bytes k s) l)).
  { apply Forall_forall. by intros e [He _]%list_elem_of_filter. }
  destruct (from (search_bytes k s) l) as [|e r]; [done|].
  inversion_clear Hwf' as [|? ? He Hr]. inversion_clear Hge as [|? ? Hge1 Hge2].
  inversion_clear Hsort' as [|? ? _ Hle].
  unfold bytes_Equal. case_bool_decide as Hk; simpl.
  - assert (visible_in k s e = true) as ->; [|done].
    apply visible_in_true. split; [done|]. by apply search_bytes_ge in Hge1.
  - assert (Hlt : bytes_Compare k (uk e) < 0) by (by eapply search_bytes_uk).
    destruct (visible_in k s e) eqn:Hv; [by apply visible_in_true in Hv as [? _]|].
    apply find_none_iff. intros x Hx.
    rewrite Forall_forall in Hle. specialize (Hle x Hx). apply ele_uk in Hle.
    destruct (visible_in k s x) eqn:Hvx; [|done].
    apply visible_in_true in Hvx as [Hkx _].
    rewrite Hkx in Hle. pose proof (cmp_lt_le_trans bytes_Compare _ _ _ Hlt Hle) as Hc.
    by rewrite (cmp_refl bytes_Compare) in Hc.
Qed.
