(* ===== verification/Memtable.v ===== *)
(** * The memtable ([src/memtable])

    [memtable.go]/[memtable_types.go]: the in-memory sorted table, and [iterator.go]: the
    range iterator over it. The B-tree itself is [github.com/google/btree], which is not
    part of the repository: the class [BTree] is its interface and [BTreeLaws] states the
    documented behaviour the memtable relies on. [sorted_list_btree] is one implementation
    of the interface; it makes the definitions executable and shows that the laws hold of
    something.

    The theorems: a point lookup answers the abstract multi-version read, the iterator
    yields exactly the visible records in range in internal-key order, and inserting adds
    one record and accounts for its size. *)

From S2P Require Import Prelude Config Base Mvcc.

(** ** The B-tree interface *)

(** Run a callback over a list until it returns [false]. *)
Fixpoint iter_while {S A} (f : S -> A -> S * bool) (s : S) (l : list A) : S :=
  match l with
  | [] => s
  | x :: l' => let '(s', continue) := f s x in if continue then iter_while f s' l' else s'
  end.

(** The operations of [btree.BTree] that the memtable calls. The callback of an iteration
    is a function on the state that its closure captures; it returns whether to go on. *)
Class BTree (A : Type) (less : A -> A -> bool) := {
  btree : Type;
  btree_New : Z -> btree;
  ReplaceOrInsert : btree -> A -> btree;
  tree_Ascend : forall {S}, btree -> (S -> A -> S * bool) -> S -> S;
  AscendGreaterOrEqual : forall {S}, btree -> A -> (S -> A -> S * bool) -> S -> S;
}.

(** The items of a tree, in the order [Ascend] visits them. *)
Definition tree_items {A less} `{BTree A less} (t : btree) : list A :=
  tree_Ascend t (fun acc x => (acc ++ [x], true)) [].

Definition tree_sorted {A} (less : A -> A -> bool) : list A -> Prop :=
  StronglySorted (fun a b => less a b = true).

(** [less] is a strict weak order, as [btree.Item] requires. *)
Class StrictWeak {A} (less : A -> A -> bool) : Prop := {
  less_irrefl a : less a a = false;
  less_trans a b c : less a b = true -> less b c = true -> less a c = true;
  less_negtrans a b c : less a b = false -> less b c = false -> less a c = false;
}.

(** Documented behaviour of the B-tree, for trees built with its operations ([btree_ok]):
    the items are in strictly increasing order; [ReplaceOrInsert] adds the item and removes
    the one that equals it, if any; [Ascend] visits every item in order and
    [AscendGreaterOrEqual] those not less than the pivot, both until the callback says
    stop. *)
Class BTreeLaws (A : Type) (less : A -> A -> bool) `{BTree A less} := {
  btree_ok : btree -> Prop;
  New_ok d : btree_ok (btree_New d);
  ReplaceOrInsert_ok t x : btree_ok t -> btree_ok (ReplaceOrInsert t x);
  items_sorted t : btree_ok t -> tree_sorted less (tree_items t);
  items_New d : tree_items (btree_New d) = [];
  items_ReplaceOrInsert t x y : btree_ok t ->
    y ∈ tree_items (ReplaceOrInsert t x) <->
      y = x \/ (y ∈ tree_items t /\ (less y x = true \/ less x y = true));
  Ascend_items S t (f : S -> A -> S * bool) s : btree_ok t ->
    tree_Ascend t f s = iter_while f s (tree_items t);
  AscendGreaterOrEqual_items S t pivot (f : S -> A -> S * bool) s : btree_ok t ->
    AscendGreaterOrEqual t pivot f s =
      iter_while f s (filter (fun y => less y pivot = false) (tree_items t));
}.

(** ** An implementation of the interface: sorted lists *)

Fixpoint list_insert_sorted {A} (less : A -> A -> bool) (x : A) (l : list A) : list A :=
  match l with
  | [] => [x]
  | y :: l' =>
      if less x y then x :: y :: l'
      else if less y x then y :: list_insert_sorted less x l'
      else x :: l'
  end.

#[export] Instance sorted_list_btree A (less : A -> A -> bool) : BTree A less := {|
  btree := list A;
  btree_New _ := [];
  ReplaceOrInsert t x := list_insert_sorted less x t;
  tree_Ascend S t f s := iter_while f s t;
  AscendGreaterOrEqual S t pivot f s :=
    iter_while f s (filter (fun y => less y pivot = false) t)
|}.

(** ** The memtable *)

Definition Item_Less (a b : kv) : bool :=
  InternalCompare bytes_Compare (DecodeInternalKey (Key a)) (DecodeInternalKey (Key b)) <? 0.

Section memtable.
Context `{BT : BTree kv Item_Less}.

Record MemTable := mkMemTable { tree : btree; mt_size : Z }.

Definition NewMemTable : MemTable := {| tree := btree_New 32; mt_size := 0 |}.

Definition mt_insert (mt : MemTable) (internalKey value : bytes) : MemTable :=
  let newItem := mkKV internalKey value in
  {| tree := ReplaceOrInsert (tree mt) newItem;
     mt_size := mt_size mt + (blen (Key newItem) + blen (Value newItem)) |}.

Definition mt_Put (mt : MemTable) (internalKey value : bytes) : MemTable :=
  mt_insert mt internalKey value.

Definition mt_Delete (mt : MemTable) (internalKey : bytes) : MemTable :=
  mt_insert mt internalKey [].

Definition encodeSearchKey (userKey : bytes) (snapshot : Z) : bytes :=
  encodeIK (MakeSearchKeyAt userKey snapshot).

Definition mt_Get (mt : MemTable) (userKey : bytes) (snapshot : Z) : bytes * KEY_LOOKUP_ENUM :=
  let found :=
    AscendGreaterOrEqual (tree mt) (mkKV (encodeSearchKey userKey snapshot) [])
      (fun (found : option kv) item =>
        if negb (bytes_Equal (UserKey (DecodeInternalKey (Key item))) userKey)
        then (found, false)
        else (Some item, false)) None in
  match found with
  | None => ([], KEY_ABSENT)
  | Some item =>
      if Kind (DecodeInternalKey (Key item)) =? InternalKeyKindDelete then ([], KEY_DELETED)
      else (Value item, KEY_FOUND)
  end.

Definition mt_Size (mt : MemTable) : Z := mt_size mt.

Definition mt_Ascend {S} (mt : MemTable) (fn : S -> bytes -> bytes -> S * bool) (s : S) : S :=
  tree_Ascend (tree mt) (fun s item => fn s (Key item) (Value item)) s.

(** *** The iterator ([iterator.go]) *)

Record mt_Iterator := mkMtIter { mi_entries : list kv; mi_pos : nat }.

Definition mt_NewIterator (mt : MemTable) (lowerBound : bytes) (upperBound : option bytes)
    (snapshot : Z) : mt_Iterator :=
  let pivot := mkKV (encodeSearchKey lowerBound snapshot) [] in
  let entries :=
    AscendGreaterOrEqual (tree mt) pivot
      (fun (entries : list kv) item =>
        let ikey := DecodeInternalKey (Key item) in
        let past := match upperBound with
                    | Some ub => 0 <? bytes_Compare (UserKey ikey) ub
                    | None => false
                    end in
        if past then (entries, false)
        else if negb (Visible ikey snapshot) then (entries, true)
        else (entries ++ [item], true)) [] in
  {| mi_entries := entries; mi_pos := 0 |}.

Definition mi_Valid (it : mt_Iterator) : bool := (mi_pos it <? length (mi_entries it))%nat.

(** [Key] and [Value] panic past the end of the slice. *)
Definition mi_Key (it : mt_Iterator) : result bytes :=
  match mi_entries it !! mi_pos it with Some e => Ok (Key e) | None => Panic end.
Definition mi_Value (it : mt_Iterator) : result bytes :=
  match mi_entries it !! mi_pos it with Some e => Ok (Value e) | None => Panic end.

Definition mi_Next (it : mt_Iterator) : mt_Iterator :=
  {| mi_entries := mi_entries it; mi_pos := S (mi_pos it) |}.
End memtable.

Arguments MemTable : clear implicits.
Arguments MemTable {_}.

(** ** Lemmas on the interface *)

Lemma iter_while_app {S A} (f : S -> A -> S * bool) s l :
  (forall s x, x ∈ l -> (f s x).2 = true) ->
  iter_while f s l = foldl (fun s x => (f s x).1) s l.
Proof.
  revert s. induction l as [|x l IH]; intros s H; simpl; [done|].
  pose proof (H s x (list_elem_of_here _ _)) as Hx. destruct (f s x) as [s' c]. simpl in *.
  subst c. apply IH. intros. by apply H, list_elem_of_further.
Qed.

Lemma iter_while_collect {A} (acc l : list A) :
  iter_while (fun acc x => (acc ++ [x], true)) acc l = acc ++ l.
Proof.
  revert acc. induction l as [|x l IH]; intros acc; simpl; [by rewrite app_nil_r|].
  rewrite IH. by rewrite <- app_assoc.
Qed.

Section sorted_list.
Context {A} (less : A -> A -> bool) `{!StrictWeak less}.

Lemma insert_elem_of x l y :
  tree_sorted less l ->
  y ∈ list_insert_sorted less x l <->
    y = x \/ (y ∈ l /\ (less y x = true \/ less x y = true)).
Proof.
  induction 1 as [|z l Hs IH Hz]; simpl.
  { rewrite list_elem_of_singleton, elem_of_nil. tauto. }
  rewrite Forall_forall in Hz.
  destruct (less x z) eqn:Hxz; [|destruct (less z x) eqn:Hzx].
  - rewrite !elem_of_cons. split; [|tauto].
    intros [->|[->|Hy]]; [tauto|tauto|]. right. split; [tauto|]. right.
    apply (less_trans _ z); auto.
  - rewrite !elem_of_cons, IH. split; [|tauto].
    intros [->|[->|[? ?]]]; tauto.
  - rewrite !elem_of_cons. split; [|intros [?|[[->|?] [?|?]]]; [tauto|congruence..|tauto|tauto]].
    intros [->|Hy]; [tauto|]. right. split; [tauto|]. right.
    destruct (less x y) eqn:Hxy; [done|].
    pose proof (less_negtrans _ _ _ Hzx Hxy). rewrite Hz in *; done.
Qed.

Lemma insert_sorted x l : tree_sorted less l -> tree_sorted less (list_insert_sorted less x l).
Proof.
  induction 1 as [|z l Hs IH Hz]; simpl.
  { repeat constructor. }
  pose proof Hz as Hz'. rewrite Forall_forall in Hz'.
  destruct (less x z) eqn:Hxz; [|destruct (less z x) eqn:Hzx].
  - constructor; [by constructor|]. constructor; [done|].
    apply Forall_forall. intros y Hy. apply (less_trans _ z); auto.
  - constructor; [done|]. apply Forall_forall. intros y Hy.
    apply insert_elem_of in Hy; [|done]. destruct Hy as [->|[Hy _]]; auto.
  - constructor; [done|]. apply Forall_forall. intros y Hy.
    destruct (less x y) eqn:Hxy; [done|].
    pose proof (less_negtrans _ _ _ Hzx Hxy). rewrite Hz' in *; done.
Qed.
End sorted_list.

#[export] Program Instance sorted_list_btree_laws A (less : A -> A -> bool)
    `{!StrictWeak less} : BTreeLaws A less := {|
  btree_ok := tree_sorted less
|}.
Next Obligation. constructor. Qed.
Next Obligation. intros. by apply insert_sorted. Qed.
Next Obligation. intros. unfold tree_items. simpl. by rewrite iter_while_collect. Qed.
Next Obligation. done. Qed.
Next Obligation.
  intros. unfold tree_items. simpl. rewrite !iter_while_collect. by apply insert_elem_of.
Qed.
Next Obligation. intros. unfold tree_items. simpl. by rewrite iter_while_collect. Qed.
Next Obligation. intros. unfold tree_items. simpl. by rewrite iter_while_collect. Qed.

#[export] Instance Item_Less_strict_weak : StrictWeak Item_Less.
Proof.
  split; unfold Item_Less; intros *.
  - by rewrite (cmp_refl _).
  - rewrite !Z.ltb_lt. apply (cmp_trans (f := InternalCompare bytes_Compare)).
  - rewrite !Z.ltb_ge. intros H1 H2.
    pose proof (cmp_opp (f := InternalCompare bytes_Compare)) as Hopp.
    rewrite Hopp. rewrite Hopp in H1, H2.
    pose proof (cmp_le_trans (InternalCompare bytes_Compare)
      (DecodeInternalKey (Key c)) (DecodeInternalKey (Key b)) (DecodeInternalKey (Key a))).
    lia.
Qed.

(** ** The memtable against the interface *)

Section memtable_facts.
Context `{BT : BTree kv Item_Less} {BL : BTreeLaws kv Item_Less}.

Definition mt_items (mt : MemTable) : list kv := tree_items (tree mt).

(** The invariant: a tree built by its operations, holding well-formed records. *)
Definition mt_ok (mt : MemTable) : Prop := btree_ok (tree mt) /\ Forall wf_kv (mt_items mt).

Lemma Item_Less_false a b : Item_Less a b = false <-> 0 <= kcmp (Key a) (Key b).
Proof. unfold Item_Less, kcmp. apply Z.ltb_ge. Qed.

Lemma mt_items_sorted mt : btree_ok (tree mt) -> StronglySorted ele (mt_items mt).
Proof.
  intros H. pose proof (items_sorted (tree mt) H) as Hs. unfold mt_items.
  induction Hs as [|x l Hs IH Hx]; constructor; [done|].
  eapply Forall_impl; [exact Hx|]. intros y Hy. unfold Item_Less in Hy.
  apply Z.ltb_lt in Hy. unfold ele, ecmp, kcmp. lia.
Qed.

Lemma mt_items_coherent mt : btree_ok (tree mt) -> coherent (mt_items mt).
Proof.
  intros H. pose proof (items_sorted (tree mt) H) as Hs. unfold mt_items.
  assert (Hirr : forall a b, Key a = Key b -> Item_Less a b = true -> False).
  { intros a b E. unfold Item_Less. rewrite E, (cmp_refl _). done. }
  induction Hs as [|x l Hs IH Hx]; intros a b Ha Hb E.
  { by apply elem_of_nil in Ha. }
  rewrite Forall_forall in Hx.
  apply elem_of_cons in Ha as [->|Ha]; apply elem_of_cons in Hb as [->|Hb]; [done|..].
  - destruct (Hirr x b); auto.
  - destruct (Hirr x a); auto.
  - by apply IH.
Qed.

Lemma filter_ge_from mt p :
  filter (fun y => Item_Less y p = false) (mt_items mt) = from (Key p) (mt_items mt).
Proof. apply list_filter_iff. intros e. apply Item_Less_false. Qed.

Lemma NewMemTable_ok : mt_ok NewMemTable.
Proof. split; [apply New_ok|]. unfold mt_items. simpl. by rewrite items_New. Qed.

Lemma mt_insert_ok mt k v : mt_ok mt -> wf_kv (mkKV k v) -> mt_ok (mt_insert mt k v).
Proof.
  intros [Hb Hwf] He. split; [by apply ReplaceOrInsert_ok|].
  rewrite Forall_forall in *. intros x Hx. unfold mt_items in *. simpl in Hx.
  apply items_ReplaceOrInsert in Hx as [->|[Hx _]]; auto.
Qed.

(** Inserting a record under a key that is not in the table keeps all the others. *)
Lemma mt_insert_items mt k v :
  mt_ok mt -> wf_kv (mkKV k v) -> (forall x, x ∈ mt_items mt -> Key x <> k) ->
  forall y, y ∈ mt_items (mt_insert mt k v) <-> y ∈ mkKV k v :: mt_items mt.
Proof.
  intros [Hb Hwf] He Hfresh y. unfold mt_items in *. simpl.
  rewrite items_ReplaceOrInsert, elem_of_cons by done. split; [tauto|].
  intros [->|Hy]; [tauto|]. right. split; [done|].
  destruct (Item_Less y (mkKV k v)) eqn:E1; [tauto|].
  destruct (Item_Less (mkKV k v) y) eqn:E2; [tauto|]. exfalso.
  apply Item_Less_false in E1, E2. unfold kcmp in *.
  rewrite (cmp_opp (f := InternalCompare bytes_Compare)
    (DecodeInternalKey (Key y))) in E2.
  assert (Heq : DecodeInternalKey (Key y) = DecodeInternalKey k).
  { apply (cmp_eq (f := InternalCompare bytes_Compare)). simpl in *. lia. }
  rewrite Forall_forall in Hwf. apply (Hfresh y Hy).
  rewrite <- (encode_decode_ik (Key y)), <- (encode_decode_ik k).
  - by rewrite Heq.
  - apply He.
  - by apply Hwf.
Qed.

Lemma mt_insert_newest mt k v uk s :
  mt_ok mt -> wf_kv (mkKV k v) -> (forall x, x ∈ mt_items mt -> Key x <> k) ->
  newest uk s (mt_items (mt_insert mt k v)) = newest uk s (mkKV k v :: mt_items mt).
Proof.
  intros Hok He Hfresh. pose proof (mt_insert_ok mt k v Hok He) as [Hb' Hwf'].
  apply newest_perm; [done|by apply mt_items_coherent|]. by apply mt_insert_items.
Qed.

Lemma mt_Get_newest mt k s :
  mt_ok mt -> 0 <= s <= SeqNumMax -> mt_Get mt k s = lookup_result (newest k s (mt_items mt)).
Proof.
  intros [Hb Hwf] Hs. unfold mt_Get. rewrite AscendGreaterOrEqual_items by done.
  rewrite newest_seek by (try done; by apply mt_items_sorted).
  fold (mt_items mt). rewrite filter_ge_from. simpl.
  change (encodeSearchKey k s) with (search_bytes k s).
  destruct (from (search_bytes k s) (mt_items mt)) as [|e r]; [done|]. simpl.
  change (UserKey (DecodeInternalKey (Key e))) with (uk e).
  by destruct (bytes_Equal (uk e) k).
Qed.

Lemma mt_Ascend_items {S} mt (fn : S -> bytes -> bytes -> S * bool) s :
  btree_ok (tree mt) ->
  mt_Ascend mt fn s = iter_while (fun s e => fn s (Key e) (Value e)) s (mt_items mt).
Proof. intros Hb. unfold mt_Ascend. by rewrite Ascend_items. Qed.

(** What a range scan of one source asks for. *)
Definition in_range (lb : bytes) (ub : option bytes) (s : Z) (e : kv) : Prop :=
  bytes_Compare lb (uk e) <= 0
  /\ (match ub with Some u => bytes_Compare (uk e) u <= 0 | None => True end)
  /\ seqn e <= s.

#[export] Instance in_range_dec lb ub s e : Decision (in_range lb ub s e).
Proof. unfold in_range. destruct ub; apply _. Defined.

Definition within (ub : option bytes) (e : kv) : Prop :=
  match ub with Some u => bytes_Compare (uk e) u <= 0 | None => True end.

#[export] Instance within_dec ub e : Decision (within ub e).
Proof. unfold within. destruct ub; apply _. Defined.

Lemma within_mono ub a b : ele a b -> within ub b -> within ub a.
Proof.
  intros H%ele_uk. unfold within. destruct ub; [|done].
  by apply (cmp_le_trans bytes_Compare).
Qed.

(** The callback of the iterator keeps the visible records up to the upper bound. *)
Lemma iterator_collect ub s acc l :
  StronglySorted ele l ->
  iter_while (fun (entries : list kv) item =>
      if match ub with
         | Some u => 0 <? bytes_Compare (UserKey (DecodeInternalKey (Key item))) u
         | None => false
         end
      then (entries, false)
      else if negb (Visible (DecodeInternalKey (Key item)) s) then (entries, true)
      else (entries ++ [item], true)) acc l
  = acc ++ filter (fun e => within ub e /\ seqn e <= s) l.
Proof.
  intros Hs. revert acc. induction Hs as [|x l Hs IH Hx]; intros acc.
  { by rewrite app_nil_r. }
  simpl. assert (Hpast : (if match ub with
         | Some u => 0 <? bytes_Compare (UserKey (DecodeInternalKey (Key x))) u
         | None => false end then True else False) <-> ~ within ub x).
  { unfold within, uk, ik. destruct ub as [u|]; [|tauto]. case_if; lia. }
  rewrite filter_cons. destruct (match ub with Some u => _ | None => _ end).
  - rewrite decide_False by tauto. symmetry. rewrite <- (app_nil_r acc) at 2. f_equal.
    apply filter_none. intros y Hy [Hw _].
    rewrite Forall_forall in Hx. apply Hpast; [done|]. eapply within_mono; eauto.
  - assert (Hw : within ub x) by (destruct (decide (within ub x)); tauto).
    unfold Visible. change (SeqNum (DecodeInternalKey (Key x))) with (seqn x).
    destruct (Z.leb_spec (seqn x) s) as [Hle|Hgt]; simpl; rewrite IH.
    + rewrite decide_True by done. by rewrite <- app_assoc.
    + by rewrite decide_False by (intros [_ ?]; lia).
Qed.

Lemma search_bytes_range lb ub s e :
  0 <= s <= SeqNumMax -> wf_kv e ->
  ((within ub e /\ seqn e <= s) /\ 0 <= kcmp (Key e) (search_bytes lb s))
    <-> in_range lb ub s e.
Proof.
  intros Hs He. unfold in_range. fold (within ub e).
  destruct (decide (uk e = lb)) as [E|Hne].
  - rewrite search_bytes_ge by done. rewrite E, (cmp_refl bytes_Compare).
    assert (0 <= 0) by lia. tauto.
  - split.
    + intros [[Hw Hq] Hge]. split_and!; [|done..].
      pose proof (search_bytes_uk lb s e Hs Hge Hne). lia.
    + intros (Hlb & Hw & Hq). split; [done|]. unfold kcmp.
      rewrite decode_search_bytes by done. rewrite InternalCompare_diff by done. simpl.
      change (UserKey (DecodeInternalKey (Key e))) with (uk e).
      rewrite (cmp_opp (f := bytes_Compare) lb). lia.
Qed.

Lemma mt_NewIterator_entries mt lb ub s :
  mt_ok mt -> 0 <= s <= SeqNumMax ->
  mi_entries (mt_NewIterator mt lb ub s) = filter (in_range lb ub s) (mt_items mt).
Proof.
  intros [Hb Hwf] Hs. unfold mt_NewIterator. simpl.
  rewrite AscendGreaterOrEqual_items by done. fold (mt_items mt).
  rewrite filter_ge_from. simpl. change (encodeSearchKey lb s) with (search_bytes lb s).
  rewrite iterator_collect by (by apply sorted_from, mt_items_sorted).
  simpl. unfold from. rewrite list_filter_filter.
  apply list_filter_iff_in. intros e He. rewrite Forall_forall in Hwf.
  apply search_bytes_range; auto.
Qed.
End memtable_facts.

(** ** Properties *)

Section memtable_properties.
Context `{BT : BTree kv Item_Less} {BL : BTreeLaws kv Item_Less}.

(** C26: for every B-tree that behaves as documented, a point lookup in the memtable at a
    snapshot is the abstract multi-version read of its records: absent when no version is
    visible, deleted when the newest visible version is a tombstone, and otherwise its
    value. *)
Theorem memtable_get_spec (mt : MemTable) (k : bytes) (snapshot : Z) :
  mt_ok mt -> 0 <= snapshot <= SeqNumMax ->
  mt_Get mt k snapshot = lookup_result (newest k snapshot (mt_items mt)).
Proof. apply mt_Get_newest. Qed.

(** Inserting an encoded internal key that the table does not hold yet keeps the
    invariant, makes every later read see the old versions plus the new one, and adds the
    key and value lengths to the size that triggers a flush. *)
Theorem memtable_insert_accumulates (mt : MemTable) (k v userKey : bytes) (snapshot : Z) :
  mt_ok mt -> wf_kv (mkKV k v) -> (forall x, x ∈ mt_items mt -> Key x <> k) ->
  mt_ok (mt_insert mt k v)
  /\ newest userKey snapshot (mt_items (mt_insert mt k v))
     = newest userKey snapshot (mkKV k v :: mt_items mt)
  /\ mt_Size (mt_insert mt k v) = mt_Size mt + blen k + blen v.
Proof.
  intros Hok He Hf. split_and!.
  - by apply mt_insert_ok.
  - by apply mt_insert_newest.
  - unfold mt_Size. simpl. lia.
Qed.

(** The range iterator collects exactly the records of the table whose user key lies
    between the bounds (no upper bound when it is nil) and that are visible at the snapshot,
    in internal-key order. *)
Theorem memtable_iterator_spec (mt : MemTable) (lb : bytes) (ub : option bytes) (snapshot : Z) :
  mt_ok mt -> 0 <= snapshot <= SeqNumMax ->
  mi_entries (mt_NewIterator mt lb ub snapshot) = filter (in_range lb ub snapshot) (mt_items mt)
  /\ StronglySorted ele (mi_entries (mt_NewIterator mt lb ub snapshot)).
Proof.
  intros Hok Hs. rewrite mt_NewIterator_entries by done. split; [done|].
  apply StronglySorted_filter, mt_items_sorted, Hok.
Qed.
End memtable_properties.

(** A concrete table: two versions of ["a"] and a tombstone for ["b"]. *)
Definition demo_mt : MemTable :=
  let put mt k s v := mt_Put mt (encodeIK (MakeInternalKey (bytes_of k) s 1)) (bytes_of v) in
  mt_Delete (put (put NewMemTable "a" 1 "old") "a" 3 "new")%string
    (encodeIK (MakeInternalKey (bytes_of "b") 4 0)).

Lemma demo_mt_ok : mt_ok demo_mt.
Proof.
  unfold demo_mt, mt_Put, mt_Delete.
  repeat first [apply mt_insert_ok | apply NewMemTable_ok | split; vm_compute; congruence].
Qed.

Lemma memtable_get_spec_witness :
  mt_Get demo_mt (bytes_of "a") 2 = (bytes_of "old", KEY_FOUND)
  /\ mt_Get demo_mt (bytes_of "b") 9 = ([], KEY_DELETED).
Proof.
  split.
  - rewrite (memtable_get_spec demo_mt (bytes_of "a") 2);
      [reflexivity|apply demo_mt_ok|vm_compute; split; congruence].
  - rewrite (memtable_get_spec demo_mt (bytes_of "b") 9);
      [reflexivity|apply demo_mt_ok|vm_compute; split; congruence].
Defined.

Lemma memtable_insert_accumulates_witness :
  let k := encodeIK (MakeInternalKey (bytes_of "a") 5 1) in
  newest (bytes_of "a") 9 (mt_items (mt_insert demo_mt k (bytes_of "v5")))
  = Some (mkKV k (bytes_of "v5")).
Proof.
  intros k.
  destruct (memtable_insert_accumulates demo_mt k (bytes_of "v5") (bytes_of "a") 9)
    as (_ & H & _); [apply demo_mt_ok|split; vm_compute; congruence| |].
  - intros x Hx. vm_compute in Hx.
    repeat (apply elem_of_cons in Hx as [->|Hx]; [vm_compute; congruence|]).
    by apply elem_of_nil in Hx.
  - rewrite H. reflexivity.
Defined.

Lemma memtable_iterator_spec_witness :
  mi_entries (mt_NewIterator demo_mt (bytes_of "a") (Some (bytes_of "a")) 3)
  = filter (in_range (bytes_of "a") (Some (bytes_of "a")) 3) (mt_items demo_mt).
Proof.
  apply (memtable_iterator_spec demo_mt (bytes_of "a") (Some (bytes_of "a")) 3);
    [apply demo_mt_ok|vm_compute; split; congruence].
Defined.
