(* ===== verification/Hash.v ===== *)
(** * The checksums and hashes of the Go standard library the program uses

    [hash/crc32]'s [ChecksumIEEE] (blocks and log records) and [hash/fnv]'s FNV-1a in 32 and
    64 bits (Bloom filter positions, cache shards), as executable definitions, with the
    facts about them that the other components use: their ranges, and that the CRC tells
    any two inputs apart that differ in a single byte. *)

From S2P Require Import Prelude.

(** ** CRC-32, reflected polynomial [0xEDB88320] *)

Definition crc_poly : Z := 3988292384.

Definition crc_bit (c : Z) : Z :=
  if Z.odd c then Z.lxor (Z.shiftr c 1) crc_poly else Z.shiftr c 1.

Definition crc_byte (c : Z) (b : byte) : Z :=
  Nat.iter 8 crc_bit (Z.lxor c (byte.unsigned b)).

Definition crc_mask : Z := Z.ones 32.

Definition crc32_ChecksumIEEE (data : bytes) : Z :=
  Z.lxor (foldl crc_byte crc_mask data) crc_mask.

(** ** FNV-1a *)

Definition fnv64_offset : Z := 14695981039346656037.
Definition fnv64_prime : Z := 1099511628211.
Definition fnv32_offset : Z := 2166136261.
Definition fnv32_prime : Z := 16777619.

Definition fnv64a (key : bytes) : Z :=
  foldl (fun h b => u64 (Z.lxor h (byte.unsigned b) * fnv64_prime)) fnv64_offset key.

Definition fnv32a (key : bytes) : Z :=
  foldl (fun h b => u32 (Z.lxor h (byte.unsigned b) * fnv32_prime)) fnv32_offset key.

(** Published test vectors. *)
Example crc32_check_value : crc32_ChecksumIEEE (bytes_of "123456789") = 3421780262.
Proof. vm_compute. reflexivity. Qed.

Example fnv32a_check_value : fnv32a (bytes_of "a") = 3826002220.
Proof. vm_compute. reflexivity. Qed.

Example fnv64a_check_value : fnv64a (bytes_of "a") = 12638187200555641996.
Proof. vm_compute. reflexivity. Qed.

(** ** Ranges *)

Definition in32 (c : Z) : Prop := 0 <= c < 2 ^ 32.

(** A number is below [2 ^ n] exactly when its bits from [n] on are clear. *)
Lemma bits_lt_pow2 c n : 0 <= n -> 0 <= c -> (forall i, n <= i -> Z.testbit c i = false) -> c < 2 ^ n.
Proof.
  intros Hn Hc Hb.
  assert (Heq : c = c mod 2 ^ n).
  { apply Z.bits_inj'. intros i Hi. destruct (decide (i < n)).
    - by rewrite Z.mod_pow2_bits_low by lia.
    - rewrite Z.mod_pow2_bits_high by lia. apply Hb. lia. }
  rewrite Heq. apply Z.mod_pos_bound. lia.
Qed.

Lemma in32_high c i : in32 c -> 32 <= i -> Z.testbit c i = false.
Proof.
  intros Hc Hi. rewrite <- (Z.mod_small c (2 ^ 32)) by exact Hc.
  by apply Z.mod_pow2_bits_high.
Qed.

Lemma lxor_in32 a b : in32 a -> in32 b -> in32 (Z.lxor a b).
Proof.
  intros Ha Hb. assert (0 <= Z.lxor a b) by (apply Z.lxor_nonneg; unfold in32 in *; lia).
  split; [done|]. apply bits_lt_pow2; [lia|done|].
  intros i Hi. by rewrite Z.lxor_spec, !in32_high.
Qed.

Lemma shiftr1_range c : in32 c -> 0 <= Z.shiftr c 1 < 2 ^ 31.
Proof.
  unfold in32. intros Hc. rewrite Z.shiftr_div_pow2 by lia.
  change (2 ^ 1) with 2. split; [apply Z.div_pos; lia|].
  apply Z.div_lt_upper_bound; lia.
Qed.

Lemma crc_bit_in32 c : in32 c -> in32 (crc_bit c).
Proof.
  intros Hc. pose proof (shiftr1_range c Hc) as Hs. unfold crc_bit.
  assert (in32 (Z.shiftr c 1)) by (unfold in32 in *; lia).
  case_if; [|done]. apply lxor_in32; [done|]. unfold in32, crc_poly. lia.
Qed.

Lemma byte_in32 b : in32 (byte.unsigned b).
Proof. pose proof (byte.unsigned_range b). unfold in32. lia. Qed.

Lemma iter_in32 n c : in32 c -> in32 (Nat.iter n crc_bit c).
Proof. intros Hc. induction n; simpl; [done|]. by apply crc_bit_in32. Qed.

Lemma crc_byte_in32 c b : in32 c -> in32 (crc_byte c b).
Proof. intros Hc. apply iter_in32, lxor_in32, byte_in32. done. Qed.

Lemma crc_fold_in32 c data : in32 c -> in32 (foldl crc_byte c data).
Proof.
  revert c. induction data as [|b data IH]; intros c Hc; simpl; [done|].
  by apply IH, crc_byte_in32.
Qed.

Lemma crc_mask_in32 : in32 crc_mask.
Proof. unfold in32, crc_mask. vm_compute. split; congruence. Qed.

Lemma crc32_range data : 0 <= crc32_ChecksumIEEE data < 2 ^ 32.
Proof. apply lxor_in32; [apply crc_fold_in32|]; apply crc_mask_in32. Qed.

Lemma fnv64a_range key : 0 <= fnv64a key < 2 ^ 64.
Proof.
  unfold fnv64a. assert (H : 0 <= fnv64_offset < 2 ^ 64) by (unfold fnv64_offset; lia).
  revert H. generalize fnv64_offset. induction key as [|b key IH]; intros h Hh; simpl; [done|].
  by apply IH, uwrap_range.
Qed.

Lemma fnv32a_range key : 0 <= fnv32a key < 2 ^ 32.
Proof.
  unfold fnv32a. assert (H : 0 <= fnv32_offset < 2 ^ 32) by (unfold fnv32_offset; lia).
  revert H. generalize fnv32_offset. induction key as [|b key IH]; intros h Hh; simpl; [done|].
  by apply IH, uwrap_range.
Qed.

(** ** The CRC distinguishes single-byte changes *)

Lemma lxor_inj_l a b c : Z.lxor a b = Z.lxor a c -> b = c.
Proof.
  intros H. rewrite <- (Z.lxor_0_l b), <- (Z.lxor_0_l c), <- (Z.lxor_nilpotent a).
  by rewrite !Z.lxor_assoc, H.
Qed.

(** Bit 31 of the next state is the bit that was shifted out. *)
Lemma crc_bit_top c : in32 c -> Z.testbit (crc_bit c) 31 = Z.odd c.
Proof.
  intros Hc. unfold crc_bit.
  assert (Hs : Z.testbit (Z.shiftr c 1) 31 = false).
  { rewrite Z.shiftr_spec by lia. by apply in32_high. }
  destruct (Z.odd c); [|done]. by rewrite Z.lxor_spec, Hs.
Qed.

Lemma crc_bit_inj c d : in32 c -> in32 d -> crc_bit c = crc_bit d -> c = d.
Proof.
  intros Hc Hd H.
  assert (Hodd : Z.odd c = Z.odd d) by (rewrite <- !crc_bit_top by done; by rewrite H).
  assert (Hsh : Z.shiftr c 1 = Z.shiftr d 1).
  { unfold crc_bit in H. rewrite <- Hodd in H. destruct (Z.odd c); [|done].
    rewrite !(Z.lxor_comm _ crc_poly) in H. by apply lxor_inj_l in H. }
  rewrite !Z.shiftr_div_pow2 in Hsh by lia. change (2 ^ 1) with 2 in Hsh.
  rewrite (Z.div_mod c 2), (Z.div_mod d 2) by lia.
  rewrite !Zmod_odd, Hodd, Hsh. done.
Qed.

Lemma iter_crc_inj n c d :
  in32 c -> in32 d -> Nat.iter n crc_bit c = Nat.iter n crc_bit d -> c = d.
Proof.
  intros Hc Hd. induction n as [|n IH]; simpl; [done|]. intros H.
  apply IH, crc_bit_inj; [by apply iter_in32..|done].
Qed.

Lemma crc_byte_inj_state c d b : in32 c -> in32 d -> crc_byte c b = crc_byte d b -> c = d.
Proof.
  intros Hc Hd H%iter_crc_inj; [|by apply lxor_in32, byte_in32..].
  rewrite !(Z.lxor_comm _ (byte.unsigned b)) in H. by apply lxor_inj_l in H.
Qed.

Lemma crc_byte_inj_byte c x y : in32 c -> crc_byte c x = crc_byte c y -> x = y.
Proof.
  intros Hc H%iter_crc_inj; [|by apply lxor_in32, byte_in32..].
  apply lxor_inj_l in H. by apply byte.unsigned_inj.
Qed.

Lemma crc_fold_inj c d data :
  in32 c -> in32 d -> foldl crc_byte c data = foldl crc_byte d data -> c = d.
Proof.
  revert c d. induction data as [|b data IH]; intros c d Hc Hd H; simpl in *; [done|].
  apply IH in H; [|by apply crc_byte_in32..]. by apply crc_byte_inj_state in H.
Qed.

Lemma crc32_single_byte (pre suf : bytes) x y :
  crc32_ChecksumIEEE (pre ++ x :: suf) = crc32_ChecksumIEEE (pre ++ y :: suf) -> x = y.
Proof.
  unfold crc32_ChecksumIEEE. rewrite !(Z.lxor_comm _ crc_mask). intros H%lxor_inj_l.
  rewrite !foldl_app in H. simpl in H.
  assert (Hp : in32 (foldl crc_byte crc_mask pre)) by apply crc_fold_in32, crc_mask_in32.
  apply crc_fold_inj in H; [|by apply crc_byte_in32..].
  by apply crc_byte_inj_byte in H.
Qed.
