(* ===== verification/Bloom.v ===== *)
(** * The Bloom filter ([src/bloomfilter])

    [bloomfilter_types.go], [bloom.go] (the allocation; the floating-point sizing is in
    [BloomParams]), [bloomfilter_operations.go], [hash.go]: adding and probing keys, and the
    serialised form stored in an SSTable.

    The theorems: no false negatives, also through serialisation; the serialised form
    round-trips; a well-formed filter never panics. *)

From S2P Require Import Prelude Hash.

Record BloomFilter := mkBloom {
  bits : list bool;
  numHash : Z;
  bf_size : Z
}.

#[global] Instance BloomFilter_eq_dec : EqDecision BloomFilter.
Proof. solve_decision. Defined.

(** The filter [NewBloomFilter] allocates once its size and hash count are known. *)
Definition newBloom (size hashes : Z) : BloomFilter :=
  {| bits := replicate (Z.to_nat size) false; numHash := hashes; bf_size := size |}.

(** ** [hash.go] *)

Definition fnvHash (key : bytes) : Z := fnv64a key.
Definition fnvHash32 (key : bytes) : Z := fnv32a key.

(** A [%] by zero panics. *)
Definition hashPosition (key : bytes) (seed size : Z) : result Z :=
  let h1 := fnvHash key in
  let h2 := fnvHash32 key in
  if u64 size =? 0 then Panic
  else Ok (i64 (u64 (h1 + u64 (u64 seed * u64 h2)) mod u64 size)).

(** [bits[pos]] and [bits[pos] = true]; an index out of range panics. *)
Definition bits_at (l : list bool) (pos : Z) : result bool :=
  if pos <? 0 then Panic
  else match l !! Z.to_nat pos with Some b => Ok b | None => Panic end.

Definition bits_set (l : list bool) (pos : Z) : result (list bool) :=
  if (pos <? 0) || (blen l <=? pos) then Panic else Ok (<[Z.to_nat pos := true]> l).

(** ** [bloomfilter_operations.go] *)

(** The loop of [Add] from [i] on, with [n] iterations left. *)
Fixpoint add_loop (key : bytes) (size : Z) (n : nat) (i : Z) (l : list bool) :
    result (list bool) :=
  match n with
  | O => Ok l
  | S n' =>
      let* pos := hashPosition key i size in
      let* l' := bits_set l pos in
      add_loop key size n' (i + 1) l'
  end.

Definition Add (bf : BloomFilter) (key : bytes) : result BloomFilter :=
  let* l := add_loop key (bf_size bf) (Z.to_nat (numHash bf)) 0 (bits bf) in
  Ok {| bits := l; numHash := numHash bf; bf_size := bf_size bf |}.

Fixpoint probe_loop (key : bytes) (size : Z) (n : nat) (i : Z) (l : list bool) : result bool :=
  match n with
  | O => Ok true
  | S n' =>
      let* pos := hashPosition key i size in
      let* b := bits_at l pos in
      if negb b then Ok false else probe_loop key size n' (i + 1) l
  end.

Definition MightContain (bf : BloomFilter) (key : bytes) : result bool :=
  probe_loop key (bf_size bf) (Z.to_nat (numHash bf)) 0 (bits bf).

(** ** Serialisation ([hash.go]) *)

(** [out[8+i/8] |= 1 << (i % 8)] *)
Definition set_bit (out : bytes) (i : nat) : bytes :=
  alter (fun b => byte.of_Z (Z.lor (byte.unsigned b) (Z.shiftl 1 (Z.of_nat (i mod 8)))))
    (8 + i / 8)%nat out.

Fixpoint set_bits (out : bytes) (i : nat) (l : list bool) : bytes :=
  match l with
  | [] => out
  | b :: l' => set_bits (if b then set_bit out i else out) (S i) l'
  end.

(** [make([]byte, numBytes+8)] with the two header fields written over its front. *)
Definition Serialize (bf : BloomFilter) : bytes :=
  let numBytes := ((length (bits bf) + 7) / 8)%nat in
  let out := replicate (numBytes + 8) Byte.x00 in
  let out := le32 (u32 (bf_size bf)) ++ drop 4 out in
  let out := take 4 out ++ le32 (u32 (numHash bf)) ++ drop 8 out in
  set_bits out 0 (bits bf).

(** [(data[byteIdx]>>bitIdx)&1 == 1] *)
Definition get_bit (data : bytes) (i : nat) : bool :=
  match data !! (8 + i / 8)%nat with
  | Some b => Z.land (Z.shiftr (byte.unsigned b) (Z.of_nat (i mod 8))) 1 =? 1
  | None => false
  end.

(** [data[0:4]] and [data[4:8]] panic on fewer than eight bytes. *)
Definition Deserialize (data : bytes) : result BloomFilter :=
  if blen data <? 8 then Panic
  else
    let size := le_combine (take 4 data) in
    let hashes := le_combine (take 4 (drop 4 data)) in
    Ok {| bits := map (get_bit data) (seq 0 (Z.to_nat size));
          numHash := hashes; bf_size := size |}.

(** ** The invariant *)

(** The bit array has the recorded size, and both header fields fit a [uint32]. *)
Definition bloom_ok (bf : BloomFilter) : Prop :=
  blen (bits bf) = bf_size bf /\ 0 < bf_size bf < 2 ^ 32 /\ 0 <= numHash bf < 2 ^ 32.

(** ** Lemmas *)

Lemma hashPosition_ok key seed size :
  0 < size < 2 ^ 32 -> exists pos, hashPosition key seed size = Ok pos /\ 0 <= pos < size.
Proof.
  intros Hs. unfold hashPosition. rewrite (uwrap_small 64 size) by lia. case_ifs.
  eexists. split; [done|].
  pose proof (Z.mod_pos_bound (u64 (fnvHash key + u64 (u64 seed * u64 (fnvHash32 key)))) size).
  rewrite swrap_small; lia.
Qed.

Lemma bits_set_ok l pos :
  0 <= pos < blen l -> bits_set l pos = Ok (<[Z.to_nat pos := true]> l).
Proof. intros H. unfold bits_set. case_if; [|done]. apply orb_true_iff in E. lia. Qed.

Lemma bits_at_ok l pos :
  0 <= pos < blen l -> exists b, bits_at l pos = Ok b /\ l !! Z.to_nat pos = Some b.
Proof.
  intros H. unfold bits_at. case_ifs.
  destruct (lookup_lt_is_Some_2 l (Z.to_nat pos)) as [b Hb]; [unfold blen in H; lia|].
  rewrite Hb. eauto.
Qed.

(** [l] has every bit that [k] has. *)
Definition bits_le (k l : list bool) : Prop :=
  length k = length l /\ forall i, k !! i = Some true -> l !! i = Some true.

#[export] Instance bits_le_preorder : PreOrder bits_le.
Proof.
  split; [by intros l|]. intros a b c [H1 H2] [H3 H4]. split; [congruence|auto].
Qed.

Lemma bits_le_set l i : bits_le l (<[i := true]> l).
Proof.
  split; [by rewrite length_insert|]. intros j Hj.
  destruct (decide (i = j)) as [->|].
  - apply list_lookup_insert_eq. by eapply lookup_lt_Some.
  - by rewrite list_lookup_insert_ne.
Qed.

Lemma add_loop_ok key size n i l :
  0 < size < 2 ^ 32 -> blen l = size ->
  exists l', add_loop key size n i l = Ok l' /\ bits_le l l'.
Proof.
  intros Hs. revert i l. induction n as [|n IH]; intros i l Hl; simpl; [by exists l|].
  destruct (hashPosition_ok key i size Hs) as (pos & -> & Hpos). simpl.
  rewrite bits_set_ok by lia. simpl.
  destruct (IH (i + 1) (<[Z.to_nat pos := true]> l)) as (l' & -> & Hle).
  { unfold blen in *. by rewrite length_insert. }
  exists l'. split; [done|]. etrans; [apply bits_le_set|done].
Qed.

Lemma probe_loop_mono key size n i k l :
  0 < size < 2 ^ 32 -> blen k = size -> bits_le k l ->
  probe_loop key size n i k = Ok true -> probe_loop key size n i l = Ok true.
Proof.
  intros Hs Hk [Hlen Hle]. revert i. induction n as [|n IH]; intros i; simpl; [done|].
  destruct (hashPosition_ok key i size Hs) as (pos & -> & Hpos). simpl.
  destruct (bits_at_ok k pos) as (b & -> & Hb); [lia|].
  destruct (bits_at_ok l pos) as (c & -> & Hc); [unfold blen in *; lia|]. simpl.
  destruct b; simpl; [|done]. apply Hle in Hb. rewrite Hb in Hc. injection Hc as <-. apply IH.
Qed.

Lemma probe_loop_total key size n i l :
  0 < size < 2 ^ 32 -> blen l = size -> exists b, probe_loop key size n i l = Ok b.
Proof.
  intros Hs Hl. revert i. induction n as [|n IH]; intros i; simpl; [eauto|].
  destruct (hashPosition_ok key i size Hs) as (pos & -> & Hpos). simpl.
  destruct (bits_at_ok l pos) as (b & -> & Hb); [lia|]. simpl. destruct b; simpl; eauto.
Qed.

Lemma add_loop_probe key size n i l l' :
  0 < size < 2 ^ 32 -> blen l = size ->
  add_loop key size n i l = Ok l' -> probe_loop key size n i l' = Ok true.
Proof.
  intros Hs. revert i l. induction n as [|n IH]; intros i l Hl; simpl; [done|].
  destruct (hashPosition_ok key i size Hs) as (pos & -> & Hpos). simpl.
  rewrite bits_set_ok by lia. simpl. intros Hadd.
  set (l1 := <[Z.to_nat pos := true]> l) in *.
  assert (Hl1 : blen l1 = size) by (unfold l1, blen in *; by rewrite length_insert).
  destruct (add_loop_ok key size n (i + 1) l1 Hs Hl1) as (l2 & Hl2 & Hlen & Hle).
  rewrite Hadd in Hl2. injection Hl2 as ->.
  destruct (bits_at_ok l2 pos) as (b & -> & Hb); [unfold blen in *; lia|].
  rewrite Hle in Hb.
  - injection Hb as <-. simpl. by eapply IH.
  - apply list_lookup_insert_eq. unfold blen in *. lia.
Qed.

Lemma bloom_ok_new size hashes :
  0 < size < 2 ^ 32 -> 0 <= hashes < 2 ^ 32 -> bloom_ok (newBloom size hashes).
Proof.
  intros. split; [|split; simpl; lia]. unfold blen. simpl. rewrite length_replicate. lia.
Qed.

Lemma Add_ok bf key :
  bloom_ok bf ->
  exists bf', Add bf key = Ok bf' /\ bloom_ok bf' /\ numHash bf' = numHash bf
    /\ bf_size bf' = bf_size bf /\ bits_le (bits bf) (bits bf') /\ MightContain bf' key = Ok true.
Proof.
  intros (Hlen & Hs & Hn). unfold Add.
  destruct (add_loop_ok key (bf_size bf) (Z.to_nat (numHash bf)) 0 (bits bf) Hs Hlen)
    as (l & Hl & Hle). rewrite Hl. simpl.
  eexists. split; [done|]. split; [|split; [done|split; [done|split; [done|]]]].
  - split; [|split; simpl; lia]. simpl. destruct Hle as [E _]. unfold blen in *. lia.
  - unfold MightContain. simpl. by eapply add_loop_probe.
Qed.

(** Adding a list of keys, as the SSTable writers do. *)
Fixpoint add_all (bf : BloomFilter) (keys : list bytes) : result BloomFilter :=
  match keys with
  | [] => Ok bf
  | k :: ks => let* bf' := Add bf k in add_all bf' ks
  end.

Lemma add_all_ok bf keys :
  bloom_ok bf ->
  exists bf', add_all bf keys = Ok bf' /\ bloom_ok bf' /\ numHash bf' = numHash bf
    /\ bf_size bf' = bf_size bf /\ bits_le (bits bf) (bits bf')
    /\ forall k, k ∈ keys -> MightContain bf' k = Ok true.
Proof.
  revert bf. induction keys as [|k ks IH]; intros bf Hok; simpl.
  - exists bf. split; [done|]. split; [done|]. split; [done|]. split; [done|]. split; [done|].
    intros k Hk. by apply elem_of_nil in Hk.
  - destruct (Add_ok bf k Hok) as (b1 & -> & Hok1 & Hn1 & Hs1 & Hle1 & Hk1). simpl.
    destruct (IH b1 Hok1) as (b2 & -> & Hok2 & Hn2 & Hs2 & Hle2 & Hall).
    exists b2. split; [done|]. split; [done|]. split; [congruence|]. split; [congruence|]. split.
    + by etrans.
    + intros k' [->|Hk']%elem_of_cons; [|auto].
      unfold MightContain in *. rewrite Hs2, Hn2.
      eapply probe_loop_mono; [apply Hok1|apply Hok1|done|done].
Qed.

Lemma MightContain_total bf key : bloom_ok bf -> exists b, MightContain bf key = Ok b.
Proof. intros (Hlen & Hs & _). by apply probe_loop_total. Qed.

(** *** Serialisation *)

Lemma length_set_bits out i l : length (set_bits out i l) = length out.
Proof.
  revert out i. induction l as [|b l IH]; intros out i; simpl; [done|].
  rewrite IH. destruct b; [|done]. apply length_alter.
Qed.

Lemma bit_test z j : 0 <= j -> (Z.land (Z.shiftr z j) 1 =? 1) = Z.testbit z j.
Proof.
  intros Hj. change 1 with (Z.ones 1) at 1. rewrite Z.land_ones by lia.
  rewrite Z.shiftr_div_pow2 by done. change (2 ^ 1) with 2.
  rewrite <- Z.testbit_spec' by done. by destruct (Z.testbit z j).
Qed.

Lemma testbit_set_byte b i j :
  (i < 8)%nat -> (j < 8)%nat ->
  Z.testbit (byte.unsigned (byte.of_Z (Z.lor (byte.unsigned b) (Z.shiftl 1 (Z.of_nat i)))))
    (Z.of_nat j) = bool_decide (i = j) || Z.testbit (byte.unsigned b) (Z.of_nat j).
Proof.
  intros Hi Hj. rewrite byte.unsigned_of_Z. unfold byte.wrap.
  rewrite Z.mod_pow2_bits_low by lia.
  rewrite Z.lor_spec, Z.shiftl_spec by lia. rewrite orb_comm. f_equal.
  destruct (decide (i = j)) as [->|Hne].
  - rewrite bool_decide_eq_true_2, Z.sub_diag by done. done.
  - rewrite bool_decide_eq_false_2 by done.
    destruct (decide (j < i)%nat); [by rewrite Z.testbit_neg_r by lia|].
    apply Z.bits_above_log2; simpl; lia.
Qed.

Lemma get_set_bit out i j :
  (8 + i / 8 < length out)%nat ->
  get_bit (set_bit out i) j = bool_decide (i = j) || get_bit out j.
Proof.
  intros Hlen. unfold get_bit, set_bit. rewrite list_lookup_alter.
  pose proof (Nat.mod_upper_bound i 8 ltac:(lia)). pose proof (Nat.mod_upper_bound j 8 ltac:(lia)).
  pose proof (Nat.div_mod_eq i 8). pose proof (Nat.div_mod_eq j 8).
  case_decide as Hd.
  - destruct (lookup_lt_is_Some_2 out (8 + i / 8)%nat) as [b Hb]; [done|].
    rewrite <- Hd, Hb. simpl. rewrite !bit_test by lia.
    rewrite testbit_set_byte by done. f_equal. apply bool_decide_ext.
    split; [|by intros ->]. intros Hm. rewrite (Nat.div_mod_eq i 8), (Nat.div_mod_eq j 8). lia.
  - rewrite bool_decide_eq_false_2; [done|]. intros ->. lia.
Qed.

Lemma get_set_bits out i l j :
  (8 + (i + length l + 7) / 8 <= length out)%nat ->
  get_bit (set_bits out i l) j =
    (if decide (i <= j)%nat then default false (l !! (j - i)%nat) else false) || get_bit out j.
Proof.
  revert out i. induction l as [|b l IH]; intros out i Hlen; simpl.
  { by case_decide. }
  assert (Hi : (8 + i / 8 < length out)%nat).
  { apply Nat.lt_le_trans with (8 + (i + S (length l) + 7) / 8)%nat; [|simpl in *; lia].
    assert (i / 8 < (i + S (length l) + 7) / 8)%nat; [|lia].
    apply Nat.Div0.div_lt_upper_bound. 
    pose proof (Nat.div_mod_eq (i + S (length l) + 7) 8).
    pose proof (Nat.mod_upper_bound (i + S (length l) + 7) 8). lia. }
  assert (Hlen' : length (if b then set_bit out i else out) = length out).
  { destruct b; [apply length_alter|done]. }
  rewrite IH by (rewrite Hlen'; replace (S i + length l)%nat with (i + S (length l))%nat by lia; done).
  assert (Hget : get_bit (if b then set_bit out i else out) j = b && bool_decide (i = j) || get_bit out j).
  { destruct b; [by apply get_set_bit|done]. }
  rewrite Hget. rewrite orb_assoc. f_equal.
  destruct (decide (i = j)) as [->|Hne].
  - rewrite decide_False by lia. rewrite decide_True by lia. rewrite Nat.sub_diag.
    rewrite bool_decide_eq_true_2, andb_true_r by done. done.
  - rewrite bool_decide_eq_false_2, andb_false_r, orb_false_r by done.
    repeat case_decide; try lia; try done.
    replace (j - i)%nat with (S (j - S i))%nat by lia. done.
Qed.

Lemma get_bit_header size hashes n j :
  get_bit (le32 size ++ le32 hashes ++ replicate n Byte.x00) j = false.
Proof.
  unfold get_bit. rewrite app_assoc, lookup_app_r by (rewrite length_app, !length_le32; lia).
  destruct (replicate n Byte.x00 !! _) as [b|] eqn:E; [|done].
  apply lookup_replicate in E as [-> _]. rewrite bit_test by lia. apply Z.bits_0.
Qed.

Lemma Serialize_val bf :
  Serialize bf =
    set_bits (le32 (u32 (bf_size bf)) ++ le32 (u32 (numHash bf))
      ++ replicate ((length (bits bf) + 7) / 8) Byte.x00) 0 (bits bf).
Proof.
  unfold Serialize. f_equal. set (n := ((length (bits bf) + 7) / 8)%nat).
  rewrite take_app_length' by (by rewrite length_le32). f_equal. f_equal.
  rewrite drop_app_ge by (rewrite length_le32; lia). rewrite length_le32.
  rewrite drop_drop, drop_replicate. f_equal. lia.
Qed.

Lemma take_set_bits n out i l : (n <= 8)%nat -> take n (set_bits out i l) = take n out.
Proof.
  intros Hn. revert out i. induction l as [|b l IH]; intros out i; simpl; [done|].
  rewrite IH. destruct b; [|done]. unfold set_bit.
  by rewrite take_alter_ge by lia.
Qed.

Lemma Deserialize_Serialize bf : bloom_ok bf -> Deserialize (Serialize bf) = Ok bf.
Proof.
  intros (Hlen & Hs & Hn). unfold Deserialize. rewrite Serialize_val.
  set (n := ((length (bits bf) + 7) / 8)%nat).
  set (out := le32 (u32 (bf_size bf)) ++ le32 (u32 (numHash bf)) ++ replicate n Byte.x00).
  assert (Hout : length out = (8 + n)%nat).
  { unfold out. rewrite !length_app, !length_le32, length_replicate. lia. }
  assert (Hhdr : forall j, get_bit out j = false) by (intros; apply get_bit_header).
  unfold blen. rewrite length_set_bits. case_if; [lia|].
  assert (H8 : take 8 (set_bits out 0 (bits bf)) =
    le32 (u32 (bf_size bf)) ++ le32 (u32 (numHash bf))).
  { rewrite take_set_bits by lia. unfold out. rewrite app_assoc.
    apply take_app_length'. rewrite length_app, !length_le32. done. }
  assert (H4 : take 4 (set_bits out 0 (bits bf)) = le32 (u32 (bf_size bf))).
  { replace 4%nat with (4 `min` 8)%nat at 1 by done. rewrite <- take_take, H8.
    apply take_app_length'. by rewrite length_le32. }
  assert (H48 : take 4 (drop 4 (set_bits out 0 (bits bf))) = le32 (u32 (numHash bf))).
  { rewrite take_drop_commute. simpl. rewrite H8.
    apply drop_app_length'. by rewrite length_le32. }
  rewrite H4, H48, !le_combine_le32, !(uwrap_small 32 (u32 _)) by (apply uwrap_range; lia).
  rewrite !uwrap_small by lia.
  trans (Ok (mkBloom (bits bf) (numHash bf) (bf_size bf))); [|by destruct bf].
  do 2 f_equal. apply list_eq. intros i. rewrite list_lookup_fmap.
  replace (Z.to_nat (bf_size bf)) with (length (bits bf)) by (unfold blen in Hlen; lia).
  destruct (decide (i < length (bits bf))%nat) as [Hi|Hi].
  - rewrite lookup_seq_lt by done. simpl. rewrite get_set_bits by (rewrite Hout; done).
    rewrite decide_True by lia. rewrite Hhdr, orb_false_r, Nat.sub_0_r.
    by destruct (lookup_lt_is_Some_2 (bits bf) i Hi) as [b ->].
  - rewrite lookup_seq_ge by lia. simpl. symmetry. apply lookup_ge_None. lia.
Qed.

(** ** Properties *)

(** C22: the filter has no false negatives: after adding any keys to a well-formed filter,
    every one of them is reported as possibly present, both by the filter in memory and by
    the one read back from its serialised form. *)
Theorem bloom_no_false_negatives (bf : BloomFilter) (keys : list bytes) (k : bytes) :
  bloom_ok bf -> k ∈ keys ->
  exists bf', add_all bf keys = Ok bf' /\ bloom_ok bf'
    /\ MightContain bf' k = Ok true
    /\ rbind (Deserialize (Serialize bf')) (fun b => MightContain b k) = Ok true.
Proof.
  intros Hok Hk. destruct (add_all_ok bf keys Hok) as (bf' & Hadd & Hok' & _ & _ & _ & Hall).
  exists bf'. split; [done|]. split; [done|]. split; [auto|].
  rewrite Deserialize_Serialize by done. simpl. auto.
Qed.

Lemma bloom_no_false_negatives_witness :
  exists bf', add_all (newBloom 100 3) [bytes_of "a"; bytes_of "b"] = Ok bf'
    /\ bloom_ok bf' /\ MightContain bf' (bytes_of "b") = Ok true
    /\ rbind (Deserialize (Serialize bf')) (fun b => MightContain b (bytes_of "b")) = Ok true.
Proof.
  apply (bloom_no_false_negatives (newBloom 100 3) [bytes_of "a"; bytes_of "b"] (bytes_of "b")).
  - apply bloom_ok_new; lia.
  - apply list_elem_of_further, list_elem_of_here.
Defined.

(** A serialised filter is read back exactly, and probing a well-formed filter always
    returns a verdict (no index or division panic). *)
Theorem bloom_serialize_roundtrip (bf : BloomFilter) :
  bloom_ok bf ->
  Deserialize (Serialize bf) = Ok bf
  /\ length (Serialize bf) = (8 + (length (bits bf) + 7) / 8)%nat
  /\ forall k, exists b, MightContain bf k = Ok b.
Proof.
  intros Hok. split; [by apply Deserialize_Serialize|]. split; [|by intros; apply MightContain_total].
  rewrite Serialize_val, length_set_bits, !length_app, !length_le32, length_replicate. lia.
Qed.

Lemma bloom_serialize_roundtrip_witness :
  Deserialize (Serialize (newBloom 13 2)) = Ok (newBloom 13 2).
Proof. apply (bloom_serialize_roundtrip (newBloom 13 2)). apply bloom_ok_new; lia. Defined.
