(* ===== verification/BloomParams.v ===== *)
(** * Sizing a Bloom filter ([src/bloomfilter/bloomfilter_precompute.go], [bloom.go])

    [findOptimalParamsValues] computes the number of bits and of hash functions in
    [float64] arithmetic. It is translated to Rocq's binary64 floats, with [math.Log] in the
    Standard Library's portable algorithm, so that the size of the filters the program
    really allocates is computed, not assumed. *)

From Stdlib Require Import Floats Uint63.
From S2P Require Import Prelude Config Bloom.

(** [float64(n)] for a non-negative [int]. *)
Definition float_of_int (n : Z) : float := PrimFloat.of_uint63 (Uint63.of_Z n).

(** [int(math.Ceil(x))] for a finite [x]. *)
Definition ceil_int (x : float) : Z :=
  match Prim2SF x with
  | S754_finite sign m e =>
      let v := if sign then Z.neg m else Z.pos m in
      if 0 <=? e then v * 2 ^ e else - ((- v) / 2 ^ (- e))
  | _ => 0
  end.

(** [math.Log] (positive, finite arguments). *)
Definition math_Log (x : float) : float :=
  let '(f1, ki) := Z.frexp x in
  let small := PrimFloat.ltb f1 0x1.6a09e667f3bcdp-1%float in
  let f1 := if small then (f1 * 2)%float else f1 in
  let ki := if small then ki - 1 else ki in
  let f := (f1 - 1)%float in
  let k := if 0 <=? ki then float_of_int ki else (- float_of_int (- ki))%float in
  let s := (f / (2 + f))%float in
  let s2 := (s * s)%float in
  let s4 := (s2 * s2)%float in
  let L1 := 0x1.5555555555593p-1%float in
  let L2 := 0x1.999999997fa04p-2%float in
  let L3 := 0x1.2492494229359p-2%float in
  let L4 := 0x1.c71c51d8e78afp-3%float in
  let L5 := 0x1.7466496cb03dep-3%float in
  let L6 := 0x1.39a09d078c69fp-3%float in
  let L7 := 0x1.2f112df3e5244p-3%float in
  let Ln2Hi := 0x1.62e42feep-1%float in
  let Ln2Lo := 0x1.a39ef35793c76p-33%float in
  let t1 := (s2 * (L1 + s4 * (L3 + s4 * (L5 + s4 * L7))))%float in
  let t2 := (s4 * (L2 + s4 * (L4 + s4 * L6)))%float in
  let R := (t1 + t2)%float in
  let hfsq := (0.5 * f * f)%float in
  (k * Ln2Hi - ((hfsq - (s * (hfsq + R) + k * Ln2Lo)) - f))%float.

Definition DEFAULT_BLOOM_FALSE_POSITIVE_RATE : float := 0x1.47ae147ae147bp-7%float.

Definition findOptimalParamsValues (n : Z) (p : float) : Z * Z :=
  let m := (- float_of_int n * math_Log p / (math_Log 2 * math_Log 2))%float in
  let k := (m / float_of_int n * math_Log 2)%float in
  (ceil_int m, ceil_int k).

Definition NewBloomFilter (expectedKeys : Z) : BloomFilter :=
  let '(size, hashes) := findOptimalParamsValues expectedKeys DEFAULT_BLOOM_FALSE_POSITIVE_RATE in
  newBloom size hashes.

Lemma default_params :
  findOptimalParamsValues DEFAULT_BLOOM_EXPECTED_KEYS DEFAULT_BLOOM_FALSE_POSITIVE_RATE
  = (958506, 7).
Proof. vm_compute. reflexivity. Qed.

(** The filter every SSTable is written with has 958506 bits and 7 hash functions, and
    it is well formed: its bit array has the recorded size and both numbers fit the 32-bit
    header fields of the serialised form. *)
Theorem default_bloom_filter_ok :
  bf_size (NewBloomFilter DEFAULT_BLOOM_EXPECTED_KEYS) = 958506
  /\ numHash (NewBloomFilter DEFAULT_BLOOM_EXPECTED_KEYS) = 7
  /\ bloom_ok (NewBloomFilter DEFAULT_BLOOM_EXPECTED_KEYS).
Proof.
  unfold NewBloomFilter. rewrite default_params. split; [done|]. split; [done|].
  apply bloom_ok_new; lia.
Qed.
