(* ===== verification/Cache.v ===== *)
(** * The block cache ([src/cache])

    [lru.go], [operations.go]: one LRU shard, a doubly linked list of elements
    ([container/list]) with a map from keys to elements; [sharded.go]: the sharded cache and
    the [Cacher] interface SSTables use.

    Elements are allocated cells with an identity: the list holds their identities in order,
    the map points at them, and their contents can be overwritten in place.

    The theorems: a shard implements the abstract LRU policy on an association list (the
    pointer structure and the map never disagree), it never exceeds its capacity, and the
    sharded cache meets the [Cacher] laws that the SSTable reader relies on. *)

From S2P Require Import Prelude Hash.

(** ** The interface *)

(** [Cacher]: [Get] reports a value or its absence, [Put] stores one. Both may reorder or
    evict entries, so they return the new cache. *)
Class Cacher (V C : Type) := {
  cache_Get : C -> bytes -> result (option V * C);
  cache_Put : C -> bytes -> V -> result C
}.

(** What a client may rely on: [Get] answers the current view and does not change it; after
    [Put] the view holds nothing but the new entry and old ones (any entry may be gone). *)
Class CacherLaws (V C : Type) `{Cacher V C} := {
  cache_ok : C -> Prop;
  cache_view : C -> bytes -> option V;
  cache_Get_spec c k : cache_ok c ->
    exists c', cache_Get c k = Ok (cache_view c k, c') /\ cache_ok c'
      /\ forall j, cache_view c' j = cache_view c j;
  cache_Put_spec c k v : cache_ok c ->
    exists c', cache_Put c k v = Ok c' /\ cache_ok c'
      /\ forall j w, cache_view c' j = Some w ->
           (j = k /\ w = v) \/ (j <> k /\ cache_view c j = Some w)
}.

Section lru.
Context {V : Type} `{Inhabited V}.

(** ** One shard *)

(** [entry] is a key and a value. *)
Record LRU := mkLRU {
  capacity : Z;
  ll : list nat;                      (* elements, front first *)
  elems : gmap nat (bytes * V);       (* the entry each element points to *)
  items : gmap bytes nat;             (* key -> element *)
  next_elem : nat                     (* allocator: identities from here on are unused *)
}.

(** Following the pointer an element holds. *)
Definition deref (m : gmap nat (bytes * V)) (e : nat) : bytes * V := m !!! e.

Definition NewLRU (cap : Z) : LRU :=
  {| capacity := cap; ll := []; elems := ∅; items := ∅; next_elem := 0 |}.

(** [container/list]: moving, removing and pushing elements. *)
Definition list_Remove (l : list nat) (e : nat) : list nat := filter (fun x => x <> e) l.
Definition list_MoveToFront (l : list nat) (e : nat) : list nat := e :: list_Remove l e.

Definition evictOldest (c : LRU) : LRU :=
  match last (ll c) with
  | None => c
  | Some oldest =>
      {| capacity := capacity c;
         ll := list_Remove (ll c) oldest;
         elems := elems c;
         items := delete ((deref (elems c) oldest).1) (items c);
         next_elem := next_elem c |}
  end.

Definition lru_insert (c : LRU) (key : bytes) (value : V) : LRU :=
  let c1 :=
    match items c !! key with
    | Some elem =>
        {| capacity := capacity c;
           ll := list_MoveToFront (ll c) elem;
           elems := <[elem := ((deref (elems c) elem).1, value)]> (elems c);
           items := items c;
           next_elem := next_elem c |}
    | None =>
        let elem := next_elem c in
        {| capacity := capacity c;
           ll := elem :: ll c;
           elems := <[elem := (key, value)]> (elems c);
           items := <[key := elem]> (items c);
           next_elem := S elem |}
    end in
  if negb (capacity c1 =? 0) && (capacity c1 <? blen (ll c1)) then evictOldest c1 else c1.

Definition lru_Get (c : LRU) (key : bytes) : option V * LRU :=
  match items c !! key with
  | None => (None, c)
  | Some elem =>
      (Some (deref (elems c) elem).2,
       {| capacity := capacity c;
          ll := list_MoveToFront (ll c) elem;
          elems := elems c;
          items := items c;
          next_elem := next_elem c |})
  end.

Definition lru_Put (c : LRU) (key : bytes) (value : V) : LRU := lru_insert c key value.

Definition lru_Len (c : LRU) : Z := blen (ll c).

(** ** The sharded cache *)

Record ShardedLRU := mkSharded { shards : list LRU }.

Definition NewShardedLRU (numShards capacityPerShard : Z) : ShardedLRU :=
  {| shards := replicate (Z.to_nat numShards) (NewLRU capacityPerShard) |}.

(** A [%] by zero panics. *)
Definition shardIndex (key : bytes) (numShards : Z) : result Z :=
  if u32 numShards =? 0 then Panic else Ok (fnv32a key mod u32 numShards).

Definition sharded_Get (s : ShardedLRU) (key : bytes) : result (option V * ShardedLRU) :=
  let* idx := shardIndex key (blen (shards s)) in
  match shards s !! Z.to_nat idx with
  | None => Panic
  | Some shard =>
      let '(r, shard') := lru_Get shard key in
      Ok (r, {| shards := <[Z.to_nat idx := shard']> (shards s) |})
  end.

Definition sharded_Put (s : ShardedLRU) (key : bytes) (value : V) : result ShardedLRU :=
  let* idx := shardIndex key (blen (shards s)) in
  match shards s !! Z.to_nat idx with
  | None => Panic
  | Some shard => Ok {| shards := <[Z.to_nat idx := lru_Put shard key value]> (shards s) |}
  end.

Definition sharded_Len (s : ShardedLRU) : Z :=
  foldl (fun total shard => total + lru_Len shard) 0 (shards s).

(** ** The abstract LRU policy: an association list, most recently used first *)

Definition al_remove (k : bytes) (l : list (bytes * V)) : list (bytes * V) :=
  filter (fun e => e.1 <> k) l.

Definition al_lookup (k : bytes) (l : list (bytes * V)) : option V :=
  snd <$> List.find (fun e => bool_decide (e.1 = k)) l.

Definition al_Get (l : list (bytes * V)) (k : bytes) : option V * list (bytes * V) :=
  match al_lookup k l with
  | Some v => (Some v, (k, v) :: al_remove k l)
  | None => (None, l)
  end.

Definition al_Put (cap : Z) (l : list (bytes * V)) (k : bytes) (v : V) : list (bytes * V) :=
  let l' := (k, v) :: al_remove k l in
  if negb (cap =? 0) && (cap <? blen l') then removelast l' else l'.

(** The entries of a shard, in list order. *)
Definition contents (c : LRU) : list (bytes * V) := (fun e => deref (elems c) e) <$> ll c.

(** The list has no element twice, the map holds exactly the listed elements under their
    own keys, every identity in use has been allocated, and the capacity is respected. *)
Definition lru_ok (c : LRU) : Prop :=
  NoDup (ll c)
  /\ (forall k e, items c !! k = Some e <-> e ∈ ll c /\ (deref (elems c) e).1 = k)
  /\ Forall (fun e => (e < next_elem c)%nat) (ll c)
  /\ (capacity c <> 0 -> blen (ll c) <= Z.max 0 (capacity c)).
End lru.

Arguments LRU : clear implicits.
Arguments deref {V H} m e : simpl never.
Arguments ShardedLRU : clear implicits.

#[export] Instance ShardedLRU_Cacher V `{Inhabited V} : Cacher V (ShardedLRU V) := {|
  cache_Get := sharded_Get;
  cache_Put := sharded_Put
|}.

(** ** Lemmas on one shard *)

Section lru_facts.
Context {V : Type} `{Inhabited V}.
Implicit Types (c : LRU V) (k : bytes).

Lemma deref_insert_eq (m : gmap nat (bytes * V)) e x : deref (<[e := x]> m) e = x.
Proof. apply lookup_total_insert_eq. Qed.

Lemma deref_insert_ne (m : gmap nat (bytes * V)) e e' x :
  e <> e' -> deref (<[e := x]> m) e' = deref m e'.
Proof. apply lookup_total_insert_ne. Qed.

Lemma deref_insert (m : gmap nat (bytes * V)) e e' x :
  deref (<[e := x]> m) e' = if decide (e = e') then x else deref m e'.
Proof. case_decide; [subst; apply deref_insert_eq|by apply deref_insert_ne]. Qed.

Definition ekey c (e : nat) : bytes := (deref (elems c) e).1.

Lemma lru_ok_inj c e1 e2 :
  lru_ok c -> e1 ∈ ll c -> e2 ∈ ll c -> ekey c e1 = ekey c e2 -> e1 = e2.
Proof.
  intros (_ & Hit & _) H1 H2 Hk.
  assert (items c !! ekey c e1 = Some e1) as E1 by (by apply Hit).
  assert (items c !! ekey c e1 = Some e2) as E2 by (by apply Hit).
  congruence.
Qed.

Lemma al_lookup_contents c k :
  lru_ok c -> al_lookup k (contents c) = (fun e => (deref (elems c) e).2) <$> items c !! k.
Proof.
  intros Hok. pose proof Hok as (_ & Hit & _). unfold al_lookup, contents.
  destruct (items c !! k) as [e|] eqn:E; simpl.
  - pose proof (proj1 (Hit k e) E) as [Hin Hk].
    destruct (List.find _ _) as [x|] eqn:F.
    + apply List.find_some in F as [Hx%list_elem_of_In Hxk%bool_decide_eq_true].
      apply list_elem_of_fmap in Hx as (e' & -> & He').
      simpl in *. rewrite (lru_ok_inj c e' e Hok He' Hin); [done|]. unfold ekey. congruence.
    + rewrite find_none_iff in F. specialize (F (deref (elems c) e)).
      rewrite bool_decide_eq_true_2 in F by done. exfalso.
      discriminate F. apply list_elem_of_fmap. eauto.
  - destruct (List.find _ _) as [x|] eqn:F; [|done].
    apply List.find_some in F as [Hx%list_elem_of_In Hxk%bool_decide_eq_true].
    apply list_elem_of_fmap in Hx as (e' & -> & He').
    assert (items c !! k = Some e') by (by apply Hit). congruence.
Qed.

Lemma fmap_remove (f : nat -> bytes * V) (l : list nat) e :
  (forall x, x ∈ l -> (f x).1 = (f e).1 -> x = e) ->
  f <$> list_Remove l e = al_remove (f e).1 (f <$> l).
Proof.
  intros Hinj. unfold list_Remove, al_remove. induction l as [|x l IH]; [done|].
  rewrite filter_cons, fmap_cons, filter_cons.
  rewrite <- IH by (intros; apply Hinj; [by apply list_elem_of_further|done]).
  specialize (Hinj x (list_elem_of_here _ _)).
  destruct (decide (x <> e)) as [Hne|Heq].
  - rewrite decide_True by (intros Hf; by apply Hne, Hinj). by rewrite fmap_cons.
  - rewrite decide_False; [done|]. intros Hne. apply Heq. intros ->. done.
Qed.

Lemma al_remove_absent k (l : list (bytes * V)) :
  (forall x, x ∈ l -> x.1 <> k) -> al_remove k l = l.
Proof. intros Hl. by apply filter_all. Qed.

Lemma NoDup_remove_elem (l : list nat) e : NoDup l -> NoDup (list_Remove l e).
Proof. apply NoDup_filter. Qed.

Lemma elem_of_list_Remove (l : list nat) e x : x ∈ list_Remove l e <-> x ∈ l /\ x <> e.
Proof. unfold list_Remove. rewrite list_elem_of_filter. tauto. Qed.

Lemma MoveToFront_perm (l : list nat) e :
  NoDup l -> e ∈ l -> list_MoveToFront l e ≡ₚ l.
Proof.
  intros Hnd He. unfold list_MoveToFront. apply NoDup_Permutation.
  - constructor; [rewrite elem_of_list_Remove; tauto|by apply NoDup_remove_elem].
  - done.
  - intros x. rewrite elem_of_cons, elem_of_list_Remove.
    destruct (decide (x = e)) as [->|]; tauto.
Qed.

Lemma list_Remove_last (l : list nat) e :
  NoDup (l ++ [e]) -> list_Remove (l ++ [e]) e = l.
Proof.
  intros Hnd. unfold list_Remove. rewrite filter_app. rewrite filter_all.
  - rewrite (filter_none _ [e]); [by rewrite app_nil_r|].
    intros x ->%list_elem_of_singleton. tauto.
  - intros x Hx ->. apply NoDup_app in Hnd as (_ & Hd & _).
    apply (Hd e Hx), list_elem_of_here.
Qed.

(** Reordering the list keeps the invariant. *)
Lemma lru_ok_reorder c l :
  lru_ok c -> l ≡ₚ ll c ->
  lru_ok (mkLRU (capacity c) l (elems c) (items c) (next_elem c)).
Proof.
  intros (H1 & H2 & H3 & H4) Hp. split; [|split; [|split]]; simpl.
  - by rewrite Hp.
  - intros k e. rewrite Hp. apply H2.
  - by rewrite Hp.
  - intros Hc. unfold blen in *. rewrite Hp. auto.
Qed.

Lemma lru_Get_refines c k :
  lru_ok c ->
  (lru_Get c k).1 = (al_Get (contents c) k).1
  /\ contents (lru_Get c k).2 = (al_Get (contents c) k).2
  /\ lru_ok (lru_Get c k).2 /\ capacity (lru_Get c k).2 = capacity c.
Proof.
  intros Hok. unfold lru_Get, al_Get. rewrite al_lookup_contents by done.
  destruct (items c !! k) as [e|] eqn:E; simpl; [|done].
  pose proof Hok as (Hnd & Hit & _). apply Hit in E as [Hin Hk].
  split; [done|]. split; [|split; [|done]].
  - unfold contents. simpl. rewrite fmap_remove.
    + cbv beta.  rewrite Hk. f_equal. rewrite <- Hk. apply surjective_pairing.
    + intros x Hx Hxk. by eapply (lru_ok_inj c).
  - apply lru_ok_reorder; [done|]. by apply MoveToFront_perm.
Qed.

(** What [insert] does before it looks at the capacity. *)
Definition lru_place c k (v : V) : LRU V :=
  match items c !! k with
  | Some elem =>
      mkLRU (capacity c) (list_MoveToFront (ll c) elem)
        (<[elem := ((deref (elems c) elem).1, v)]> (elems c)) (items c) (next_elem c)
  | None =>
      mkLRU (capacity c) (next_elem c :: ll c) (<[next_elem c := (k, v)]> (elems c))
        (<[k := next_elem c]> (items c)) (S (next_elem c))
  end.

Lemma lru_insert_place c k v :
  lru_insert c k v =
    let c1 := lru_place c k v in
    if negb (capacity c1 =? 0) && (capacity c1 <? blen (ll c1)) then evictOldest c1 else c1.
Proof. done. Qed.

(** The invariant without the capacity bound. *)
Definition lru_shape c : Prop :=
  NoDup (ll c)
  /\ (forall k e, items c !! k = Some e <-> e ∈ ll c /\ (deref (elems c) e).1 = k)
  /\ Forall (fun e => (e < next_elem c)%nat) (ll c).

Lemma lru_place_hit c k v e :
  lru_ok c -> items c !! k = Some e ->
  lru_shape (lru_place c k v)
  /\ contents (lru_place c k v) = (k, v) :: al_remove k (contents c)
  /\ length (ll (lru_place c k v)) = length (ll c).
Proof.
  intros Hok E. pose proof Hok as (Hnd & Hit & Hlt & _).
  pose proof (proj1 (Hit k e) E) as [Hin Hk].
  pose proof (MoveToFront_perm _ e Hnd Hin) as Hp.
  unfold lru_place. rewrite E.
  split; [split; [|split]|split]; simpl.
  - by rewrite Hp.
  - intros k' e'. rewrite Hit, Hp. rewrite deref_insert.
    case_decide as Hd; [subst e'; simpl; tauto|done].
  - by rewrite Hp.
  - unfold contents. simpl. rewrite deref_insert_eq. f_equal; [by rewrite Hk|].
    rewrite <- Hk. rewrite <- fmap_remove by (intros; by eapply (lru_ok_inj c)).
    apply list_fmap_ext. intros i x Hx.
    apply list_elem_of_lookup_2, elem_of_list_Remove in Hx as [_ Hne].
    by rewrite deref_insert_ne by congruence.
  - change (length (list_MoveToFront (ll c) e) = length (ll c)). by rewrite Hp.
Qed.

Lemma lru_place_miss c k v :
  lru_ok c -> items c !! k = None ->
  lru_shape (lru_place c k v)
  /\ contents (lru_place c k v) = (k, v) :: al_remove k (contents c)
  /\ length (ll (lru_place c k v)) = S (length (ll c)).
Proof.
  intros Hok E. pose proof Hok as (Hnd & Hit & Hlt & _). rewrite Forall_forall in Hlt.
  assert (Hfresh : forall e, e ∈ ll c -> e <> next_elem c) by (intros e He ->; specialize (Hlt _ He); lia).
  unfold lru_place. rewrite E.
  split; [split; [|split]|split]; simpl; [| | | |done].
  - constructor; [|done]. intros Hin. by apply (Hfresh _ Hin).
  - intros k' e'. rewrite lookup_insert, elem_of_cons, deref_insert.
    destruct (decide (k = k')) as [<-|Hkk].
    + split.
      * intros [= <-]. split; [by left|by rewrite decide_True].
      * case_decide as Hd; [by subst|]. intros [[->|Hin] Hk]; [done|].
        assert (items c !! k = Some e') by (by apply Hit). congruence.
    + rewrite Hit. split.
      * intros [Hin Hk]. rewrite decide_False by (intros <-; by apply (Hfresh _ Hin)). auto.
      * case_decide as Hd; [by intros [_ ?]|]. intros [[->|Hin] Hk]; [done|tauto].
  - constructor; [lia|]. apply Forall_forall. intros e He. specialize (Hlt _ He). lia.
  - unfold contents. simpl. rewrite deref_insert_eq. f_equal.
    trans (contents c).
    + apply list_fmap_ext. intros i x Hx. apply list_elem_of_lookup_2 in Hx.
      rewrite deref_insert_ne; [done|]. intros Heq. by apply (Hfresh _ Hx).
    + symmetry. apply al_remove_absent. intros x (e & -> & He)%list_elem_of_fmap Hk.
      assert (items c !! k = Some e) by (by apply Hit). congruence.
Qed.

Lemma evictOldest_spec c :
  lru_shape c -> ll c <> [] ->
  lru_shape (evictOldest c) /\ contents (evictOldest c) = removelast (contents c)
  /\ blen (ll (evictOldest c)) = blen (ll c) - 1
  /\ capacity (evictOldest c) = capacity c.
Proof.
  intros (Hnd & Hit & Hlt) Hne.
  destruct (exists_last Hne) as (l & e & E). unfold evictOldest. rewrite E, last_snoc.
  rewrite E in Hnd, Hit, Hlt. unfold lru_shape, contents. simpl.
  rewrite list_Remove_last by done. rewrite E, fmap_app. simpl. rewrite removelast_last.
  apply Forall_app in Hlt as [Hlt _]. pose proof (proj1 (NoDup_app _ _) Hnd) as (Hnd1 & Hd & _).
  split; [|split; [done|split; [rewrite blen_app; unfold blen; simpl; lia|done]]].
  split; [done|]. split; [|done].
  intros k x. rewrite lookup_delete. case_decide as Hk.
  - split; [done|]. intros [Hx Hxk]. exfalso. apply (Hd x Hx). 
    assert (items c !! k = Some x) as E1 by (apply Hit; rewrite elem_of_app; auto).
    assert (items c !! k = Some e) as E2 by (apply Hit; rewrite elem_of_app, list_elem_of_singleton; auto).
    rewrite E1 in E2. injection E2 as <-. apply list_elem_of_here.
  - rewrite Hit, elem_of_app, list_elem_of_singleton. split; [|tauto].
    intros [[Hx| ->] Hxk]; [done|]. by rewrite Hxk in Hk.
Qed.

Lemma lru_shape_ok c :
  lru_shape c -> (capacity c <> 0 -> blen (ll c) <= Z.max 0 (capacity c)) -> lru_ok c.
Proof. intros (H1 & H2 & H3) H4. split; [done|]. split; [done|]. by split. Qed.

Lemma lru_Put_refines c k v :
  lru_ok c ->
  contents (lru_Put c k v) = al_Put (capacity c) (contents c) k v
  /\ lru_ok (lru_Put c k v) /\ capacity (lru_Put c k v) = capacity c.
Proof.
  intros Hok. unfold lru_Put. rewrite lru_insert_place. cbv zeta.
  assert (Hpl : lru_shape (lru_place c k v)
    /\ contents (lru_place c k v) = (k, v) :: al_remove k (contents c)
    /\ capacity (lru_place c k v) = capacity c
    /\ ll (lru_place c k v) <> []
    /\ blen (ll (lru_place c k v)) <= blen (ll c) + 1).
  { assert (Hcap : capacity (lru_place c k v) = capacity c)
      by (unfold lru_place; by destruct (items c !! k)).
    assert (Hne : ll (lru_place c k v) <> []) by (unfold lru_place; by destruct (items c !! k)).
    destruct (items c !! k) as [e|] eqn:E.
    - destruct (lru_place_hit c k v e Hok E) as (? & ? & Hl).
      unfold blen. rewrite Hl. split; [done|]. split; [done|]. split; [done|]. split; [done|lia].
    - destruct (lru_place_miss c k v Hok E) as (? & ? & Hl).
      unfold blen. rewrite Hl. split; [done|]. split; [done|]. split; [done|]. split; [done|lia]. }
  destruct Hpl as (Hsh & Hco & Hcap & Hne & Hlen).
  pose proof Hok as (_ & _ & _ & Hbound).
  assert (Hblen : blen (contents (lru_place c k v)) = blen (ll (lru_place c k v))).
  { unfold blen, contents. by rewrite length_fmap. }
  unfold al_Put. rewrite Hcap, <- Hco, Hblen.
  destruct (negb (capacity c =? 0) && (capacity c <? blen (ll (lru_place c k v)))) eqn:Eb.
  - destruct (evictOldest_spec _ Hsh Hne) as (Hsh' & Hco' & Hlen' & Hcap').
    split; [done|]. split; [|by rewrite Hcap'].
    apply lru_shape_ok; [done|]. rewrite Hcap', Hcap, Hlen'. intros Hc. specialize (Hbound Hc). lia.
  - split; [done|]. split; [|done]. apply lru_shape_ok; [done|]. rewrite Hcap. intros Hc.
    apply andb_false_iff in Eb as [Eb|Eb]; breflect; lia.
Qed.

Lemma NewLRU_ok cap : lru_ok (V := V) (NewLRU cap).
Proof.
  split; [constructor|]. split; [|split; [constructor|simpl; unfold blen; simpl; lia]].
  intros k e. simpl. rewrite lookup_empty, elem_of_nil. naive_solver.
Qed.

(** *** The abstract policy *)

Lemma al_lookup_remove k j (l : list (bytes * V)) :
  al_lookup j (al_remove k l) = if decide (j = k) then None else al_lookup j l.
Proof.
  unfold al_lookup, al_remove. induction l as [|[a v] l IH]; simpl; [by case_decide|].
  rewrite filter_cons. simpl. destruct (decide (a <> k)) as [Ha|Ha]; simpl.
  - case_bool_decide; [subst; by rewrite decide_False|done].
  - rewrite IH. case_decide as Hj; [done|]. case_bool_decide; [|done].
    subst. destruct Ha. congruence.
Qed.

Lemma al_lookup_cons k j v (l : list (bytes * V)) :
  al_lookup j ((k, v) :: l) = if decide (j = k) then Some v else al_lookup j l.
Proof.
  unfold al_lookup. simpl. case_bool_decide; case_decide; congruence || done.
Qed.

Lemma al_lookup_removelast j w (l : list (bytes * V)) :
  al_lookup j (removelast l) = Some w -> al_lookup j l = Some w.
Proof.
  induction l as [|[a v] l IH]; [done|]. destruct l as [|b l]; [done|].
  cbn [removelast]. rewrite !(al_lookup_cons a). case_decide; auto.
Qed.

Lemma al_Get_view (l : list (bytes * V)) k j : al_lookup j (al_Get l k).2 = al_lookup j l.
Proof.
  unfold al_Get. destruct (al_lookup k l) as [v|] eqn:E; simpl; [|done].
  rewrite al_lookup_cons, al_lookup_remove. repeat case_decide; congruence.
Qed.

Lemma al_Put_view cap (l : list (bytes * V)) k v j w :
  al_lookup j (al_Put cap l k v) = Some w ->
  (j = k /\ w = v) \/ (j <> k /\ al_lookup j l = Some w).
Proof.
  unfold al_Put. intros Hl.
  assert (al_lookup j ((k, v) :: al_remove k l) = Some w) as Hl'.
  { case_match; [by apply al_lookup_removelast|done]. }
  rewrite al_lookup_cons, al_lookup_remove in Hl'. repeat case_decide; try done.
  - left. split; congruence.
  - right. done.
Qed.
End lru_facts.

(** ** Lemmas on the sharded cache *)

Section sharded_facts.
Context {V : Type} `{Inhabited V}.
Implicit Types (s : ShardedLRU V) (k : bytes).

Definition sharded_ok s : Prop := 0 < blen (shards s) < 2 ^ 32 /\ Forall lru_ok (shards s).

(** What a lookup of [k] would answer. *)
Definition sharded_view s k : option V :=
  match shardIndex k (blen (shards s)) with
  | Ok idx => shards s !! Z.to_nat idx ≫= fun c => al_lookup k (contents c)
  | _ => None
  end.

Lemma shardIndex_ok k n : 0 < n < 2 ^ 32 -> exists i, shardIndex k n = Ok i /\ 0 <= i < n.
Proof.
  intros Hn. unfold shardIndex. rewrite uwrap_small by lia. case_ifs.
  eexists. split; [done|]. apply Z.mod_pos_bound. lia.
Qed.

Lemma NewShardedLRU_ok n cap : 0 < n < 2 ^ 32 -> sharded_ok (NewShardedLRU n cap).
Proof.
  intros Hn. split; simpl.
  - unfold blen. rewrite length_replicate. lia.
  - apply Forall_replicate, NewLRU_ok.
Qed.

(** The shard a key maps to. *)
Lemma sharded_shard s k :
  sharded_ok s -> exists i c, shardIndex k (blen (shards s)) = Ok i
    /\ shards s !! Z.to_nat i = Some c /\ lru_ok c.
Proof.
  intros [Hn Hall]. destruct (shardIndex_ok k _ Hn) as (i & Hi & Hr).
  destruct (lookup_lt_is_Some_2 (shards s) (Z.to_nat i)) as [c Hc]; [unfold blen in Hr; lia|].
  exists i, c. split; [done|]. split; [done|]. by eapply Forall_lookup_1.
Qed.

(** Replacing one shard by another well-formed one. *)
Lemma sharded_update s i c c' :
  sharded_ok s -> shards s !! i = Some c -> lru_ok c' ->
  sharded_ok (mkSharded (<[i := c']> (shards s))).
Proof.
  intros [Hn Hall] Hc Hc'. split; simpl.
  - unfold blen in *. by rewrite length_insert.
  - by apply Forall_insert.
Qed.

Lemma sharded_view_update s i c c' k :
  sharded_ok s -> shards s !! i = Some c ->
  sharded_view (mkSharded (<[i := c']> (shards s))) k =
    if decide (shardIndex k (blen (shards s)) = Ok (Z.of_nat i))
    then al_lookup k (contents c') else sharded_view s k.
Proof.
  intros [Hn _] Hc. unfold sharded_view. simpl.
  assert (blen (<[i := c']> (shards s)) = blen (shards s)) as ->.
  { unfold blen. by rewrite length_insert. }
  destruct (shardIndex_ok k _ Hn) as (j & -> & Hj). case_decide as Hd.
  - injection Hd as ->. rewrite Nat2Z.id, list_lookup_insert_eq; [done|].
    by eapply lookup_lt_Some.
  - rewrite list_lookup_insert_ne; [done|]. intros ->. apply Hd. by rewrite Z2Nat.id by lia.
Qed.

Lemma sharded_Get_spec s k :
  sharded_ok s ->
  exists s', sharded_Get s k = Ok (sharded_view s k, s') /\ sharded_ok s'
    /\ forall j, sharded_view s' j = sharded_view s j.
Proof.
  intros Hok. destruct (sharded_shard s k Hok) as (i & c & Hi & Hc & Hcok).
  destruct (lru_Get_refines c k Hcok) as (H1 & H2 & H3 & _).
  unfold sharded_Get. rewrite Hi. simpl. rewrite Hc.
  destruct (lru_Get c k) as [r c'] eqn:E. simpl in *. eexists. split; [|split].
  - f_equal. f_equal. unfold sharded_view. rewrite Hi, Hc. simpl. rewrite H1.
    unfold al_Get. by destruct (al_lookup k (contents c)).
  - by eapply sharded_update.
  - intros j. rewrite (sharded_view_update s _ c) by done. case_decide as Hd; [|done].
    unfold sharded_view. rewrite Hd, Nat2Z.id, Hc. simpl. by rewrite H2, al_Get_view.
Qed.

Lemma sharded_Put_spec s k v :
  sharded_ok s ->
  exists s', sharded_Put s k v = Ok s' /\ sharded_ok s'
    /\ forall j w, sharded_view s' j = Some w ->
         (j = k /\ w = v) \/ (j <> k /\ sharded_view s j = Some w).
Proof.
  intros Hok. destruct (sharded_shard s k Hok) as (i & c & Hi & Hc & Hcok).
  destruct (lru_Put_refines c k v Hcok) as (H1 & H2 & _).
  unfold sharded_Put. rewrite Hi. simpl. rewrite Hc. eexists. split; [done|]. split.
  - by eapply sharded_update.
  - intros j w. rewrite (sharded_view_update s _ c) by done. case_decide as Hd.
    + rewrite H1. intros [?|[? ?]]%al_Put_view; [by left|right]. split; [done|].
      unfold sharded_view. by rewrite Hd, Nat2Z.id, Hc.
    + intros Hj. right. split; [|done]. intros ->. apply Hd.
      destruct (shardIndex_ok k _ (proj1 Hok)) as (i' & Hi' & Hr).
      rewrite Hi in Hi'. injection Hi' as ->. by rewrite Hi, Z2Nat.id by lia.
Qed.
End sharded_facts.

#[export] Instance ShardedLRU_CacherLaws V `{Inhabited V} : CacherLaws V (ShardedLRU V).
Proof.
  refine {| cache_ok := sharded_ok; cache_view := sharded_view |}.
  - exact sharded_Get_spec.
  - exact sharded_Put_spec.
Defined.

(** ** Properties *)

(** A sequence of calls on one shard, with the answers of the [Get]s. *)
Inductive lru_op (V : Type) := OpGet (k : bytes) | OpPut (k : bytes) (v : V).
Arguments OpGet {V} k.
Arguments OpPut {V} k v.

Fixpoint run_lru {V} `{Inhabited V} (c : LRU V) (ops : list (lru_op V)) :
    list (option V) * LRU V :=
  match ops with
  | [] => ([], c)
  | OpGet k :: ops' =>
      let '(r, c') := lru_Get c k in let '(rs, c'') := run_lru c' ops' in (r :: rs, c'')
  | OpPut k v :: ops' => run_lru (lru_Put c k v) ops'
  end.

Fixpoint run_al {V} (cap : Z) (l : list (bytes * V)) (ops : list (lru_op V)) :
    list (option V) * list (bytes * V) :=
  match ops with
  | [] => ([], l)
  | OpGet k :: ops' =>
      let '(r, l') := al_Get l k in let '(rs, l'') := run_al cap l' ops' in (r :: rs, l'')
  | OpPut k v :: ops' => run_al cap (al_Put cap l k v) ops'
  end.

Lemma run_lru_refines {V} `{Inhabited V} (c : LRU V) ops :
  lru_ok c ->
  (run_lru c ops).1 = (run_al (capacity c) (contents c) ops).1
  /\ contents (run_lru c ops).2 = (run_al (capacity c) (contents c) ops).2
  /\ lru_ok (run_lru c ops).2 /\ capacity (run_lru c ops).2 = capacity c.
Proof.
  revert c. induction ops as [|[k|k v] ops IH]; intros c Hok; simpl; [done|..].
  - destruct (lru_Get_refines c k Hok) as (H1 & H2 & H3 & H4).
    destruct (lru_Get c k) as [r c'], (al_Get (contents c) k) as [r' l']. simpl in *. subst.
    specialize (IH c' H3). rewrite H4 in IH.
    destruct (run_lru c' ops), (run_al (capacity c) (contents c') ops). simpl in *.
    destruct IH as (-> & ? & ? & ?). done.
  - destruct (lru_Put_refines c k v Hok) as (H1 & H2 & H3).
    specialize (IH (lru_Put c k v) H2). by rewrite H1, H3 in IH.
Qed.

(** C25: any sequence of [Get] and [Put] calls on a new LRU of any capacity answers exactly
    as the least-recently-used policy on an association list does (the map and the linked
    list never disagree), leaves the same entries in the same order of recency, and never
    holds more entries than the capacity (no bound when it is zero). *)
Theorem lru_refines_policy {V} `{Inhabited V} (cap : Z) (ops : list (lru_op V)) :
  (run_lru (NewLRU cap) ops).1 = (run_al cap [] ops).1
  /\ contents (run_lru (NewLRU cap) ops).2 = (run_al cap [] ops).2
  /\ (cap = 0 \/ lru_Len (run_lru (NewLRU cap) ops).2 <= Z.max 0 cap).
Proof.
  destruct (run_lru_refines (NewLRU cap) ops (NewLRU_ok cap)) as (H1 & H2 & H3 & H4).
  split; [done|]. split; [done|]. destruct (decide (cap = 0)) as [|Hc]; [by left|right].
  destruct H3 as (_ & _ & _ & Hb). rewrite H4 in Hb. by apply Hb.
Qed.

(** C24: the sharded cache, with any positive number of shards, never panics; a lookup answers
    with the entry the cache holds under the key, if any, and changes no entry; after a store
    the cache holds only entries it held before, under other keys, and the stored value under
    its own key: a store never leaves or brings back another value. *)
Theorem sharded_cache_sound {V} `{Inhabited V} (s : ShardedLRU V) (k j : bytes) (v w : V) :
  sharded_ok s ->
  (exists s', sharded_Get s k = Ok (sharded_view s k, s') /\ sharded_ok s'
     /\ sharded_view s' j = sharded_view s j)
  /\ (exists s', sharded_Put s k v = Ok s' /\ sharded_ok s'
     /\ (sharded_view s' j = Some w ->
         (j = k /\ w = v) \/ (j <> k /\ sharded_view s j = Some w))).
Proof.
  intros Hok. split.
  - destruct (sharded_Get_spec s k Hok) as (s' & ? & ? & ?). eauto.
  - destruct (sharded_Put_spec s k v Hok) as (s' & ? & ? & ?). eauto.
Qed.

Lemma sharded_cache_sound_witness :
  let s := NewShardedLRU (V := Z) 16 16 in
  exists s', sharded_Put s (bytes_of "f:0") 7 = Ok s' /\ sharded_ok s'
    /\ (sharded_view s' (bytes_of "f:0") = Some 7 ->
        (bytes_of "f:0" = bytes_of "f:0" /\ 7 = 7)
        \/ (bytes_of "f:0" <> bytes_of "f:0" /\ sharded_view s (bytes_of "f:0") = Some 7)).
Proof.
  apply (sharded_cache_sound (NewShardedLRU (V := Z) 16 16)
    (bytes_of "f:0") (bytes_of "f:0") 7 7).
  apply NewShardedLRU_ok. lia.
Defined.
