(* ===== verification/Bufio.v ===== *)
(** * Writers: files, [bufio.Writer] and the fault-injecting writer

    The standard library's [io.Writer] and [bufio.Writer] as the write-ahead log and the
    SSTable writers use them, an operating-system file opened for appending, and
    [src/faultinjection/faulty_writer.go].

    [WriterLaws] is the contract of [io.Writer] that the buffered writer relies on; files
    and faulty writers meet it. The lemmas say what reaches the file through a buffered
    writer: always a prefix of what was written, and all of it once a flush succeeds. *)

From S2P Require Import Prelude.

(** ** [io.Writer] *)

(** The system calls on a file, other than [Write], whose errors the program handles: opening
    it, [File.Sync], renaming it, opening and syncing the directory that holds it, removing
    it. *)
Inductive sysop := OpOpen | OpSync | OpRename | OpSyncDir | OpRemove.

#[global] Instance sysop_eq_dec : EqDecision sysop.
Proof. solve_decision. Defined.

(** [Write(p)] returns the number of bytes written and an error; [fsync] is what [File.Sync]
    does to the file at the bottom of the writer when it succeeds, and [sys_error] the error
    with which the disk answers a system call on that file, if it does. *)
Class Writer (W : Type) := {
  write_to : W -> bytes -> W * (Z * option goerror);
  fsync : W -> W;
  sys_error : W -> sysop -> option goerror
}.

(** [File.Sync()] *)
Definition file_Sync {W} `{Writer W} (f : W) : W * option goerror :=
  match sys_error f OpSync with Some e => (f, Some e) | None => (fsync f, None) end.

(** [on_file]: the bytes in the file at the bottom. A write appends a prefix of its argument
    and reports an error exactly when it is a proper one or the writer failed. *)
Class WriterLaws (W : Type) `{Writer W} := {
  on_file : W -> bytes;
  write_to_prefix w p :
    let '(w', (n, err)) := write_to w p in
    0 <= n <= blen p /\ on_file w' = on_file w ++ take (Z.to_nat n) p
    /\ (err = None -> n = blen p);
  fsync_on_file w : on_file (fsync w) = on_file w
}.

(** A regular file: its bytes, and how many of them an [fsync] has made durable. *)
Record os_File := mkFile { fdata : bytes; fsynced : nat }.

#[export] Instance os_File_Writer : Writer os_File := {|
  write_to f p := (mkFile (fdata f ++ p) (fsynced f), (blen p, None));
  fsync f := mkFile (fdata f) (length (fdata f));
  sys_error _ _ := None
|}.

(** A new file on a disk without faults. *)
Definition new_file (path : bytes) : os_File := mkFile [] 0.

(** ** [faulty_writer.go] *)

Record FaultyWriter (W : Type) := mkFaulty { fw_w : W; fw_written : Z; FailAfter : Z }.
Arguments mkFaulty {W} _ _ _.
Arguments fw_w {W} _.
Arguments fw_written {W} _.
Arguments FailAfter {W} _.

Definition NewFaultyWriter {W} (w : W) (failAfter : Z) : FaultyWriter W :=
  {| fw_w := w; fw_written := 0; FailAfter := failAfter |}.

Definition faulty_Write {W} `{Writer W} (fw : FaultyWriter W) (p : bytes) :
    FaultyWriter W * (Z * option goerror) :=
  if FailAfter fw <=? fw_written fw then (fw, (0, Some ErrClosedPipe))
  else
    let allowed := FailAfter fw - fw_written fw in
    if blen p <=? allowed then
      let '(w', (n, err)) := write_to (fw_w fw) p in
      (mkFaulty w' (fw_written fw + n) (FailAfter fw), (n, err))
    else
      let '(w', (n, err)) := write_to (fw_w fw) (take (Z.to_nat allowed) p) in
      let fw' := mkFaulty w' (fw_written fw + n) (FailAfter fw) in
      match err with
      | Some e => (fw', (n, Some e))
      | None => (fw', (n, Some ErrClosedPipe))
      end.

#[export] Instance FaultyWriter_Writer W `{Writer W} : Writer (FaultyWriter W) := {|
  write_to := faulty_Write;
  fsync fw := mkFaulty (fsync (fw_w fw)) (fw_written fw) (FailAfter fw);
  sys_error fw := sys_error (fw_w fw)
|}.

(** ** A disk on which system calls fail *)

(** The file [bf_w] on a disk that fails the calls [bf_ops]. *)
Record BrokenFile (W : Type) := mkBroken { bf_w : W; bf_ops : list sysop }.
Arguments mkBroken {W} _ _.
Arguments bf_w {W} _.
Arguments bf_ops {W} _.

#[export] Instance BrokenFile_Writer W `{Writer W} : Writer (BrokenFile W) := {|
  write_to f p := let '(w, r) := write_to (bf_w f) p in (mkBroken w (bf_ops f), r);
  fsync f := mkBroken (fsync (bf_w f)) (bf_ops f);
  sys_error f op := if decide (op ∈ bf_ops f) then Some (Errorf "input/output error") else sys_error (bf_w f) op
|}.

(** ** [bufio.Writer] *)

Definition bufio_size : Z := 4096.

Section bufio.
Context {W : Type} `{WR : Writer W}.

Record bufio_Writer := mkBufio {
  bw_buf : bytes;              (* the buffered bytes, [b.buf[0:b.n]] *)
  bw_err : option goerror;     (* sticky error *)
  bw_wr : W
}.

Definition bufio_NewWriter (w : W) : bufio_Writer := mkBufio [] None w.

Definition bufio_Reset (w : W) : bufio_Writer := mkBufio [] None w.

Definition bufio_Flush (b : bufio_Writer) : bufio_Writer * option goerror :=
  match bw_err b with
  | Some e => (b, Some e)
  | None =>
      if blen (bw_buf b) =? 0 then (b, None)
      else
        let '(w', (n, err)) := write_to (bw_wr b) (bw_buf b) in
        let err := match err with
                   | None => if n <? blen (bw_buf b) then Some ErrShortWrite else None
                   | Some e => Some e
                   end in
        match err with
        | Some e => (mkBufio (drop (Z.to_nat n) (bw_buf b)) (Some e) w', Some e)
        | None => (mkBufio [] None w', None)
        end
  end.

(** The loop of [Write]: as long as [p] does not fit the free space, write it directly when
    the buffer is empty, or top the buffer up and flush it. Every iteration but a first one
    on a full buffer consumes input, so [length p + 2] iterations are enough. *)
Fixpoint bufio_write_loop (fuel : nat) (b : bufio_Writer) (p : bytes) : bufio_Writer * bytes :=
  match fuel with
  | O => (b, p)
  | S fuel' =>
      let available := bufio_size - blen (bw_buf b) in
      match bw_err b with
      | Some _ => (b, p)
      | None =>
          if blen p <=? available then (b, p)
          else if blen (bw_buf b) =? 0 then
            let '(w', (n, err)) := write_to (bw_wr b) p in
            bufio_write_loop fuel' (mkBufio (bw_buf b) err w') (drop (Z.to_nat n) p)
          else
            let n := Z.to_nat available in
            let '(b', _) := bufio_Flush (mkBufio (bw_buf b ++ take n p) (bw_err b) (bw_wr b)) in
            bufio_write_loop fuel' b' (drop n p)
      end
  end.

Definition bufio_Write (b : bufio_Writer) (p : bytes) : bufio_Writer * option goerror :=
  let '(b', rest) := bufio_write_loop (length p + 2) b p in
  match bw_err b' with
  | Some e => (b', Some e)
  | None => (mkBufio (bw_buf b' ++ rest) None (bw_wr b'), None)
  end.
End bufio.

Arguments bufio_Writer : clear implicits.

(** ** Laws *)

#[export] Program Instance os_File_WriterLaws : WriterLaws os_File := {| on_file := fdata |}.
Next Obligation.
  intros w p. simpl. pose proof (blen_nonneg p). split; [lia|]. split; [|done].
  unfold blen. rewrite Nat2Z.id, firstn_all. done.
Qed.
Next Obligation. done. Qed.

#[export] Program Instance FaultyWriter_WriterLaws W `{WriterLaws W} :
  WriterLaws (FaultyWriter W) := {| on_file fw := on_file (fw_w fw) |}.
Next Obligation.
  intros W WR WL fw p. simpl. unfold faulty_Write. pose proof (blen_nonneg p).
  case_if; [simpl; rewrite app_nil_r; split; [lia|done]|]. cbv zeta. case_if.
  - pose proof (write_to_prefix (fw_w fw) p) as Hw.
    by destruct (write_to (fw_w fw) p) as [w' [n err]].
  - set (a := FailAfter fw - fw_written fw) in *.
    pose proof (write_to_prefix (fw_w fw) (take (Z.to_nat a) p)) as Hw.
    destruct (write_to (fw_w fw) (take (Z.to_nat a) p)) as [w' [n err]].
    destruct Hw as (Hn & Hf & _).
    assert (Hlen : blen (take (Z.to_nat a) p) = a) by (unfold blen in *; rewrite length_take; lia).
    rewrite Hlen in Hn. rewrite take_take in Hf.
    replace (Z.to_nat n `min` Z.to_nat a)%nat with (Z.to_nat n) in Hf by lia.
    destruct err; simpl; (split; [lia|]); done.
Qed.
Next Obligation. intros. simpl. apply fsync_on_file. Qed.

#[export] Program Instance BrokenFile_WriterLaws W `{WriterLaws W} :
  WriterLaws (BrokenFile W) := {| on_file f := on_file (bf_w f) |}.
Next Obligation.
  intros W WR WL f p. simpl. pose proof (write_to_prefix (bf_w f) p) as Hw.
  by destruct (write_to (bf_w f) p) as [w' [n err]].
Qed.
Next Obligation. intros. simpl. apply fsync_on_file. Qed.

(** A disk that never reports an error. *)
Class Reliable (W : Type) `{Writer W} : Prop := {
  write_to_reliable w p : (write_to w p).2.2 = None;
  sys_reliable w op : sys_error w op = None
}.

#[export] Instance os_File_Reliable : Reliable os_File.
Proof. done. Qed.

Section bufio_facts.
Context {W : Type} `{WL : WriterLaws W}.
Implicit Types (b : bufio_Writer W) (p s : bytes).

(** [s] is everything written through [b] so far: without an error it is the file followed by
    the buffer; after an error the file holds a prefix of it. *)
Definition stream_ok b s : Prop :=
  match bw_err b with
  | None => on_file (bw_wr b) ++ bw_buf b = s /\ blen (bw_buf b) <= bufio_size
  | Some _ => on_file (bw_wr b) `prefix_of` s
  end.

Lemma stream_ok_prefix b s : stream_ok b s -> on_file (bw_wr b) `prefix_of` s.
Proof.
  unfold stream_ok. destruct (bw_err b); [done|]. intros [<- _]. by eexists.
Qed.

Lemma stream_ok_new w : stream_ok (bufio_NewWriter w) (on_file w).
Proof. unfold stream_ok, bufio_size, blen. simpl. rewrite app_nil_r. split; [done|lia]. Qed.

Lemma stream_ok_err b s s' : is_Some (bw_err b) -> s `prefix_of` s' -> stream_ok b s -> stream_ok b s'.
Proof. unfold stream_ok. destruct (bw_err b); [|by intros []]. intros _ ? ?. by etrans. Qed.

Lemma take_prefix n p s : s ++ take n p `prefix_of` s ++ p.
Proof. apply prefix_app. exists (drop n p). by rewrite take_drop. Qed.

Lemma bufio_Flush_stream b s :
  stream_ok b s ->
  let '(b', e) := bufio_Flush b in
  stream_ok b' s /\ e = bw_err b' /\ (e = None -> bw_buf b' = [] /\ on_file (bw_wr b') = s).
Proof.
  intros Hok. unfold bufio_Flush. pose proof Hok as Hok'. unfold stream_ok in Hok'.
  destruct (bw_err b) as [e|] eqn:E; [by rewrite E|]. destruct Hok' as [Hs Hb].
  case_if.
  { rewrite E. split; [done|]. split; [done|]. intros _.
    assert (bw_buf b = []) as Hnil.
    { destruct (bw_buf b); [done|]. rewrite blen_cons in *.
      pose proof (blen_nonneg l). lia. }
    rewrite Hnil, app_nil_r in Hs. done. }
  pose proof (write_to_prefix (bw_wr b) (bw_buf b)) as Hw.
  destruct (write_to (bw_wr b) (bw_buf b)) as [w' [n err]]. destruct Hw as (Hn & Hf & He).
  unfold stream_ok, bufio_size in *. destruct err as [e|]; [|case_if]; simpl.
  - rewrite Hf, <- Hs. split; [apply take_prefix|done].
  - specialize (He eq_refl). lia.
  - specialize (He eq_refl). rewrite Hf, He, app_nil_r. unfold blen in *.
    rewrite Nat2Z.id, firstn_all. split; [split; [done|simpl; lia]|done].
Qed.

(** One pass of the [Write] loop splits the input into what was taken and what is left. *)
Lemma bufio_write_loop_stream fuel b p s :
  stream_ok b s ->
  let '(b', rest) := bufio_write_loop fuel b p in
  exists taken, p = taken ++ rest /\ stream_ok b' (s ++ taken).
Proof.
  revert b p s. induction fuel as [|fuel IH]; intros b p s Hok; simpl.
  { exists []. by rewrite app_nil_r. }
  destruct (bw_err b) as [e|] eqn:E; [exists []; by rewrite app_nil_r|].
  case_if; [exists []; by rewrite app_nil_r|].
  pose proof Hok as Hok'. unfold stream_ok in Hok'. rewrite E in Hok'. destruct Hok' as [Hs Hb].
  case_if.
  - assert (Hnil : bw_buf b = []) by (destruct (bw_buf b); [done|]; rewrite blen_cons in *;
      pose proof (blen_nonneg l); lia).
    pose proof (write_to_prefix (bw_wr b) p) as Hw.
    destruct (write_to (bw_wr b) p) as [w' [n err]]. destruct Hw as (Hn & Hf & He).
    assert (Hok1 : stream_ok (mkBufio (bw_buf b) err w') (s ++ take (Z.to_nat n) p)).
    { rewrite Hnil, app_nil_r in Hs. unfold stream_ok, bufio_size. simpl.
      destruct err; rewrite Hf, Hs; [done|]. rewrite Hnil, app_nil_r.
      split; [done|unfold blen; simpl; lia]. }
    specialize (IH _ (drop (Z.to_nat n) p) _ Hok1).
    destruct (bufio_write_loop fuel _ _) as [b' rest]. destruct IH as (taken & Hp & Hok2).
    exists (take (Z.to_nat n) p ++ taken). rewrite <- app_assoc, <- Hp, take_drop.
    split; [done|]. by rewrite app_assoc.
  - set (n := Z.to_nat (bufio_size - blen (bw_buf b))).
    set (b1 := mkBufio (bw_buf b ++ take n p) None (bw_wr b)).
    assert (Hok1 : stream_ok b1 (s ++ take n p)).
    { unfold stream_ok, b1. simpl. rewrite <- Hs, <- app_assoc. split; [done|].
      rewrite blen_app. unfold blen in *. rewrite length_take. unfold n, blen. lia. }
    pose proof (bufio_Flush_stream b1 _ Hok1) as Hfl.
    destruct (bufio_Flush b1) as [b2 e]. destruct Hfl as (Hok2 & _ & _).
    specialize (IH b2 (drop n p) _ Hok2).
    destruct (bufio_write_loop fuel _ _) as [b' rest]. destruct IH as (taken & Hp & Hok3).
    exists (take n p ++ taken). rewrite <- app_assoc, <- Hp, take_drop.
    split; [done|]. by rewrite app_assoc.
Qed.

(** With the fuel [Write] gives it, the loop ends with an error or with a rest that fits. *)
Lemma bufio_write_loop_fits fuel b p :
  (3 <= fuel)%nat -> blen (bw_buf b) <= bufio_size ->
  let '(b', rest) := bufio_write_loop fuel b p in
  bw_err b' = None -> blen (bw_buf b') + blen rest <= bufio_size.
Proof.
  intros Hfuel Hb. destruct fuel as [|fuel]; [lia|]. simpl.
  destruct (bw_err b) as [e|] eqn:E; [by rewrite E|]. case_if; [lia|].
  (* the state after a first iteration without error: empty buffer *)
  assert (Hdirect : forall f (b1 : bufio_Writer W) q, (2 <= f)%nat -> bw_buf b1 = [] ->
    let '(b', rest) := bufio_write_loop f b1 q in
    bw_err b' = None -> blen (bw_buf b') + blen rest <= bufio_size).
  { intros [|f] b1 q Hf Hnil; [lia|]. simpl. destruct (bw_err b1) as [e|] eqn:E1; [by rewrite E1|].
    case_if; [lia|]. rewrite Hnil. simpl. pose proof (write_to_prefix (bw_wr b1) q) as Hw.
    destruct (write_to (bw_wr b1) q) as [w' [n err]]. destruct Hw as (Hn & _ & He).
    destruct f as [|f]; [lia|]. simpl. destruct err as [e|]; [done|].
    assert (Hd : drop (Z.to_nat n) q = []).
    { apply drop_ge. specialize (He eq_refl). unfold blen in *. lia. }
    rewrite Hd. unfold bufio_size, blen in *. simpl. intros _. lia. }
  case_if.
  - pose proof (write_to_prefix (bw_wr b) p) as Hw.
    destruct (write_to (bw_wr b) p) as [w' [n err]]. apply Hdirect; [lia|]. simpl.
    destruct (bw_buf b) as [|x l]; [done|]. rewrite blen_cons in *. pose proof (blen_nonneg l). lia.
  - set (b1 := mkBufio _ _ _).
    pose proof (bufio_Flush_stream b1 (on_file (bw_wr b) ++ bw_buf b1)) as Hfl.
    destruct (bufio_Flush b1) as [b2 e]. destruct Hfl as (_ & He & Hnil).
    { unfold stream_ok, b1. simpl. split; [done|]. rewrite blen_app. unfold blen in *.
      rewrite length_take. lia. }
    destruct (bw_err b2) as [e2|] eqn:E2.
    + destruct fuel as [|fuel]; [lia|]. simpl. rewrite E2. by rewrite E2.
    + apply Hdirect; [lia|]. apply Hnil. by rewrite He.
Qed.

Lemma bufio_Write_stream b p s :
  stream_ok b s ->
  let '(b', e) := bufio_Write b p in stream_ok b' (s ++ p) /\ e = bw_err b'.
Proof.
  intros Hok. unfold bufio_Write.
  pose proof (bufio_write_loop_stream (length p + 2) b p s Hok) as Hl.
  assert (Hfit : let '(b', rest) := bufio_write_loop (length p + 2) b p in
    bw_err b' = None -> blen (bw_buf b') + blen rest <= bufio_size).
  { unfold stream_ok in Hok. destruct (bw_err b) as [e|] eqn:E.
    { destruct (length p + 2)%nat as [|n] eqn:En; [lia|]. simpl. rewrite E. by rewrite E. }
    destruct Hok as [_ Hb]. destruct p as [|x p].
    - simpl. rewrite E. unfold bufio_size, blen in *. simpl. case_if; [simpl; lia|lia].
    - apply bufio_write_loop_fits; [simpl; lia|done]. }
  destruct (bufio_write_loop (length p + 2) b p) as [b' rest].
  destruct Hl as (taken & -> & Hok'). unfold stream_ok in *.
  destruct (bw_err b') as [e|] eqn:E'; rewrite ?E'; simpl.
  - split; [|done]. etrans; [exact Hok'|]. rewrite app_assoc. by eexists.
  - destruct Hok' as [Hs _]. split; [|done]. rewrite !app_assoc, Hs. split; [done|].
    rewrite blen_app. auto.
Qed.

(** A write that fits the free space stays in the buffer. *)
Lemma bufio_Write_fits b p :
  bw_err b = None -> blen (bw_buf b) + blen p <= bufio_size ->
  bufio_Write b p = (mkBufio (bw_buf b ++ p) None (bw_wr b), None).
Proof.
  intros E Hb. unfold bufio_Write. replace (length p + 2)%nat with (S (length p + 1)) by lia.
  simpl. rewrite E. case_if; [|lia]. by rewrite E.
Qed.

Section reliable.
Context `{!Reliable W}.

Lemma bufio_Flush_reliable b s :
  stream_ok b s -> bw_err b = None -> bw_err (bufio_Flush b).1 = None.
Proof.
  intros Hok E. unfold bufio_Flush. rewrite E. case_if; [done|].
  pose proof (write_to_prefix (bw_wr b) (bw_buf b)) as Hw.
  pose proof (write_to_reliable (bw_wr b) (bw_buf b)) as Hr.
  destruct (write_to (bw_wr b) (bw_buf b)) as [w' [n err]]. simpl in Hr. subst err.
  destruct Hw as (_ & _ & He). specialize (He eq_refl). case_if; [lia|done].
Qed.

Lemma bufio_write_loop_reliable fuel b p s :
  stream_ok b s -> bw_err b = None -> bw_err (bufio_write_loop fuel b p).1 = None.
Proof.
  revert b p s. induction fuel as [|fuel IH]; intros b p s Hok E; simpl; [done|].
  rewrite E. case_if; [done|]. case_if.
  - pose proof (bufio_write_loop_stream 1 b p s Hok) as Hl. simpl in Hl. rewrite E in Hl.
    rewrite (proj2 (Z.leb_gt _ _) E0), (proj2 (Z.eqb_eq _ _) E1) in Hl.
    pose proof (write_to_reliable (bw_wr b) p) as Hr.
    destruct (write_to (bw_wr b) p) as [w' [n err]]. simpl in *. subst err.
    destruct Hl as (taken & _ & Hok'). by eapply IH.
  - pose proof (bufio_write_loop_stream 1 b p s Hok) as Hl. simpl in Hl. rewrite E in Hl.
    rewrite (proj2 (Z.leb_gt _ _) E0), (proj2 (Z.eqb_neq _ _) E1) in Hl. set (b1 := mkBufio _ _ _) in *.
    assert (Hok1 : stream_ok b1 (on_file (bw_wr b) ++ bw_buf b1)).
    { unfold stream_ok, b1. simpl. split; [done|]. unfold stream_ok in Hok. rewrite E in Hok.
      rewrite blen_app. unfold blen in *. rewrite length_take. lia. }
    pose proof (bufio_Flush_reliable b1 _ Hok1 eq_refl) as Hr.
    destruct (bufio_Flush b1) as [b2 e]. simpl in *.
    destruct Hl as (taken & _ & Hok'). by eapply IH.
Qed.

Lemma bufio_Write_reliable b p s :
  stream_ok b s -> bw_err b = None ->
  bw_err (bufio_Write b p).1 = None /\ (bufio_Write b p).2 = None.
Proof.
  intros Hok E. pose proof (bufio_Write_stream b p s Hok) as Hw. unfold bufio_Write in *.
  pose proof (bufio_write_loop_reliable (length p + 2) b p s Hok E) as Hr.
  destruct (bufio_write_loop (length p + 2) b p) as [b' rest]. simpl in Hr. by rewrite Hr.
Qed.
End reliable.
End bufio_facts.
