(* ===== verification/Wal.v ===== *)
(** * The write-ahead log ([src/wal])

    [wal_types.go], [open.go], [append.go], [operators.go], [sync.go], [replay.go]: records
    framed by a length and a CRC, appended through a buffered writer, synced every
    [DEFAULT_SYNC_THRESHOLD] writes, and read back by a replay that truncates the file at the
    first record it cannot accept.

    The theorems: a log is replayed to exactly the records that were appended; a log cut
    anywhere (a torn write, through the fault-injecting writer too) is replayed to its
    complete records and truncated behind them; replaying is idempotent on any file; a crash
    loses at most the last nine acknowledged writes. *)

From S2P Require Import Prelude Config Base Mvcc Hash Bufio.

Definition maxEncodedKeyLen : Z := MAX_KEY_LENGTH + InternalTrailerLen.

(** ** Appending ([append.go]) *)

(** [bytes.Buffer] writes do not fail. *)
Definition writeDataBuff (entry : kv) : bytes :=
  let keyLength := u32 (blen (Key entry)) in
  let valueLength := u32 (blen (Value entry)) in
  le32 keyLength ++ le32 valueLength ++ Key entry ++ Value entry.

Section wal.
Context {W : Type} `{WR : Writer W}.

(** [File] is the file at the bottom of [BufWriter]. *)
Record WAL := mkWAL { BufWriter : bufio_Writer W; putCounter : Z }.

Definition wal_Append (w : WAL) (entry : kv) : WAL * option goerror :=
  let dataBytes := writeDataBuff entry in
  let checksum := crc32_ChecksumIEEE dataBytes in
  let totalLength := u32 (u32 (blen dataBytes) + 4) in
  match bufio_Write (BufWriter w) (le32 totalLength) with
  | (b, Some e) => (mkWAL b (putCounter w), Some e)
  | (b, None) =>
      match bufio_Write b dataBytes with
      | (b, Some e) => (mkWAL b (putCounter w), Some e)
      | (b, None) =>
          match bufio_Write b (le32 checksum) with
          | (b, Some e) => (mkWAL b (putCounter w), Some e)
          | (b, None) => (mkWAL b (putCounter w), None)
          end
      end
  end.

(** [sync.go] *)
Definition wal_Sync (w : WAL) : WAL * option goerror :=
  match bufio_Flush (BufWriter w) with
  | (b, Some e) => (mkWAL b (putCounter w), Some e)
  | (b, None) =>
      let '(f, err) := file_Sync (bw_wr b) in
      (mkWAL (mkBufio (bw_buf b) (bw_err b) f) (putCounter w), err)
  end.

(** [operators.go] *)
Definition wal_write (w : WAL) (keyByte valueByte : bytes) : WAL * option goerror :=
  match wal_Append w (mkKV keyByte valueByte) with
  | (w, Some e) => (w, Some e)
  | (w, None) =>
      let w := mkWAL (BufWriter w) (putCounter w + 1) in
      if DEFAULT_SYNC_THRESHOLD <=? putCounter w then
        match wal_Sync w with
        | (w, Some e) => (w, Some e)
        | (w, None) => (mkWAL (BufWriter w) 0, None)
        end
      else (w, None)
  end.

Definition wal_Put (w : WAL) (keyByte valueByte : bytes) : WAL * option goerror :=
  wal_write w keyByte valueByte.

Definition wal_Delete (w : WAL) (keyByte : bytes) : WAL * option goerror :=
  wal_write w keyByte [].

(** [open.go]: the file (created empty when missing) under a fresh buffered writer. *)
Definition wal_Open (file : W) : WAL := mkWAL (bufio_NewWriter file) 0.
End wal.

Arguments WAL : clear implicits.

(** ** Replay ([replay.go]) *)

(** What one iteration of the loop finds at the reader's position: the clean end of the log,
    a record that makes it truncate the file here, or an entry and the rest of the file. *)
Inductive scan :=
| ScanEOF
| ScanBad
| ScanEntry (e : kv) (rest : bytes).

(** Parsing the checked payload: lengths, bounds, key and value. *)
Definition parse_data (dataPart rest : bytes) : scan :=
  match read_uint32 dataPart with
  | Ok (keyLength, r) =>
      match read_uint32 r with
      | Ok (valueLength, r) =>
          if (maxEncodedKeyLen <? keyLength) || (MAX_VALUE_LENGTH <? valueLength) then ScanBad
          else
            match io_ReadFull keyLength r with
            | Ok (key, r) =>
                match io_ReadFull valueLength r with
                | Ok (value, _) => ScanEntry (mkKV key value) rest
                | _ => ScanBad
                end
            | _ => ScanBad
            end
      | _ => ScanBad
      end
  | _ => ScanBad
  end.

(** A record that has been read whole: its checksum, then its payload. *)
Definition check_record (recordBuf rest : bytes) : scan :=
  if blen recordBuf <? 4 then ScanBad
  else
    let n := (length recordBuf - 4)%nat in
    let dataPart := take n recordBuf in
    let storedCRC := le_combine (drop n recordBuf) in
    if negb (crc32_ChecksumIEEE dataPart =? storedCRC) then ScanBad
    else parse_data dataPart rest.

Definition scan_record (r : bytes) : scan :=
  match read_uint32 r with
  | Err EOF => ScanEOF
  | Ok (totalLength, r) =>
      if 4 + maxEncodedKeyLen + 4 + MAX_VALUE_LENGTH + 4 <? totalLength then ScanBad
      else
        match io_ReadFull totalLength r with
        | Ok (recordBuf, rest) => check_record recordBuf rest
        | _ => ScanBad
        end
  | _ => ScanBad
  end.

(** The loop: entries so far and the offset to truncate at, if any. An accepted record takes
    at least four bytes, so [S (length file)] iterations reach the end. *)
Fixpoint replay_loop (fuel : nat) (r : bytes) (startOffset : nat) (entries : list kv) :
    list kv * option nat :=
  match fuel with
  | O => (entries, None)
  | S fuel' =>
      match scan_record r with
      | ScanEOF => (entries, None)
      | ScanBad => (entries, Some startOffset)
      | ScanEntry e rest =>
          replay_loop fuel' rest (startOffset + (length r - length rest))%nat (entries ++ [e])
      end
  end.

(** [File.Truncate(size)]. *)
Definition file_Truncate (f : os_File) (size : nat) : os_File :=
  mkFile (take size (fdata f)) (Nat.min size (fsynced f)).

(** [Replay] reads the file from the start ([Seek(0, 0)]; later appends are not affected, the
    file is opened with [O_APPEND]). *)
Definition wal_Replay (w : WAL os_File) : result (list kv) * WAL os_File :=
  match bufio_Flush (BufWriter w) with
  | (b, Some e) => (Err e, mkWAL b (putCounter w))
  | (b, None) =>
      let f := bw_wr b in
      let '(entries, trunc) := replay_loop (S (length (fdata f))) (fdata f) 0 [] in
      let f' := match trunc with Some off => file_Truncate f off | None => f end in
      (Ok entries, mkWAL (mkBufio (bw_buf b) (bw_err b) f') (putCounter w))
  end.

(** ** The abstract log *)

(** The bytes of one record and of a list of records. *)
Definition record (e : kv) : bytes :=
  let data := writeDataBuff e in
  le32 (u32 (u32 (blen data) + 4)) ++ data ++ le32 (crc32_ChecksumIEEE data).

Definition log (es : list kv) : bytes := concat (map record es).

#[global] Arguments record : simpl never.
#[global] Arguments writeDataBuff : simpl never.

(** The bounds [db.Put] enforces, as they apply to an encoded key. *)
Definition entry_ok (e : kv) : Prop :=
  blen (Key e) <= maxEncodedKeyLen /\ blen (Value e) <= MAX_VALUE_LENGTH.

(** What replaying a file does, as a function of its bytes. *)
Definition replay (file : bytes) : list kv * option nat :=
  replay_loop (S (length file)) file 0 [].

(** The file after a replay. *)
Definition replayed (file : bytes) : bytes :=
  match (replay file).2 with Some off => take off file | None => file end.

(** ** Lemmas: one record *)

Lemma writeDataBuff_len e : blen (writeDataBuff e) = 8 + blen (Key e) + blen (Value e).
Proof. unfold writeDataBuff. rewrite !blen_app, !blen_le32. lia. Qed.

Lemma entry_ok_bounds e :
  entry_ok e -> 0 <= blen (Key e) < 2 ^ 32 /\ 0 <= blen (Value e) < 2 ^ 32
    /\ 0 <= blen (writeDataBuff e) + 4 < 2 ^ 32.
Proof.
  unfold entry_ok, maxEncodedKeyLen, MAX_KEY_LENGTH, MAX_VALUE_LENGTH, InternalTrailerLen.
  intros [Hk Hv]. rewrite writeDataBuff_len.
  pose proof (blen_nonneg (Key e)). pose proof (blen_nonneg (Value e)). lia.
Qed.

Lemma record_len_prefix e :
  entry_ok e -> u32 (u32 (blen (writeDataBuff e)) + 4) = blen (writeDataBuff e) + 4.
Proof.
  intros He. apply entry_ok_bounds in He as (? & ? & ?).
  pose proof (blen_nonneg (writeDataBuff e)). by rewrite !uwrap_small by (rewrite ?uwrap_small; lia).
Qed.

Lemma blen_record e : blen (record e) = blen (writeDataBuff e) + 8.
Proof. unfold record. rewrite !blen_app, !blen_le32. lia. Qed.

Lemma length_record_pos e : (16 <= length (record e))%nat.
Proof.
  pose proof (blen_record e) as H. pose proof (writeDataBuff_len e).
  pose proof (blen_nonneg (Key e)). pose proof (blen_nonneg (Value e)). unfold blen in *. lia.
Qed.

Lemma parse_data_record e rest : entry_ok e -> parse_data (writeDataBuff e) rest = ScanEntry e rest.
Proof.
  intros He. pose proof (entry_ok_bounds e He) as (Hk & Hv & _). destruct He as [Hk' Hv'].
  unfold parse_data, writeDataBuff. rewrite (uwrap_small 32 (blen (Key e))) by lia.
  rewrite (uwrap_small 32 (blen (Value e))) by lia.
  rewrite read_uint32_app by lia. rewrite read_uint32_app by lia. case_if.
  { apply orb_true_iff in E. lia. }
  rewrite io_ReadFull_app by done. rewrite <- (app_nil_r (Value e)) at 2.
  rewrite io_ReadFull_app by done. by destruct e.
Qed.

Lemma scan_record_app e rest : entry_ok e -> scan_record (record e ++ rest) = ScanEntry e rest.
Proof.
  intros He. pose proof (entry_ok_bounds e He) as (_ & _ & Hd).
  unfold scan_record, check_record, record. rewrite record_len_prefix by done.
  rewrite <- app_assoc, read_uint32_app by lia.
  case_if.
  { rewrite writeDataBuff_len in E. destruct He. unfold maxEncodedKeyLen in *. lia. }
  rewrite io_ReadFull_app by (rewrite blen_app, blen_le32; lia).
  case_if; [rewrite blen_app, blen_le32 in E0; pose proof (blen_nonneg (writeDataBuff e)); lia|].
  rewrite length_app, length_le32. cbv zeta.
  replace (length (writeDataBuff e) + 4 - 4)%nat with (length (writeDataBuff e)) by lia.
  rewrite take_app_length, drop_app_length, le_combine_le32.
  rewrite uwrap_small by apply crc32_range. rewrite Z.eqb_refl. simpl.
  by apply parse_data_record.
Qed.

(** A proper prefix of a record is the clean end of the log when it is empty and otherwise
    rejected. *)
Lemma scan_record_torn e torn :
  entry_ok e -> torn `prefix_of` record e -> torn <> record e ->
  scan_record torn = if decide (torn = []) then ScanEOF else ScanBad.
Proof.
  intros He [suf Hsuf] Hne. pose proof (entry_ok_bounds e He) as (_ & _ & Hd).
  assert (Hlt : (length torn < length (record e))%nat).
  { rewrite Hsuf, length_app. destruct suf; [|simpl; lia].
    rewrite app_nil_r in Hsuf. by rewrite Hsuf in Hne. }
  unfold scan_record, check_record, read_uint32.
  destruct (decide (4 <= length torn)%nat) as [H4|H4].
  - rewrite decide_False by (intros ->; simpl in H4; lia).
    assert (Ht : exists t, torn = le32 (blen (writeDataBuff e) + 4) ++ t).
    { exists (drop 4 torn). rewrite <- (take_drop 4 torn) at 1. f_equal.
      unfold record in Hsuf. rewrite record_len_prefix in Hsuf by done.
      apply (f_equal (take 4)) in Hsuf. rewrite (take_app_le torn suf) in Hsuf by done.
      rewrite <- Hsuf. apply take_app_length'. by rewrite length_le32. }
    destruct Ht as [t ->]. rewrite io_ReadFull_app by apply blen_le32. simpl.
    rewrite le_combine_le32, uwrap_small by lia. case_if; [done|].
    rewrite io_ReadFull_short; [done|].
    rewrite length_app, length_le32 in Hlt. pose proof (blen_record e). unfold blen in *. lia.
  - rewrite io_ReadFull_short by (unfold blen; lia). simpl.
    destruct torn as [|x torn]; [done|]. rewrite decide_False by done. by case_if.
Qed.

(** An accepted record occupies a front part of the input, and what follows it does not
    matter. *)
Lemma scan_record_local r e rest :
  scan_record r = ScanEntry e rest ->
  exists rec, r = rec ++ rest /\ (8 <= length rec)%nat
    /\ forall rest', scan_record (rec ++ rest') = ScanEntry e rest'.
Proof.
  unfold scan_record, check_record. destruct (read_uint32 r) as [[total r1]|[]|] eqn:E1; try done.
  unfold read_uint32 in E1. destruct (io_ReadFull 4 r) as [[hd r1']|?|] eqn:E2; try done.
  simpl in E1. injection E1 as <- <-. apply io_ReadFull_inv in E2 as [-> Hhd]; [|lia].
  case_if; [done|]. destruct (io_ReadFull (le_combine hd) r1') as [[buf rest1]|?|] eqn:E3; try done.
  assert (0 <= le_combine hd) as Hnn by apply le_combine_bound.
  apply io_ReadFull_inv in E3 as [-> Hbuf]; [|done].
  case_if; [done|]. cbv zeta. set (n := (length buf - 4)%nat).
  destruct (negb _) eqn:Ecrc; [done|]. intros Hp.
  assert (Hrest : rest1 = rest /\ forall rest', parse_data (take n buf) rest' = ScanEntry e rest').
  { unfold parse_data in *. repeat (case_match; try done). simplify_eq. done. }
  destruct Hrest as [<- Hp']. exists (hd ++ buf). split; [by rewrite app_assoc|].
  split; [rewrite length_app; unfold blen in *; lia|]. intros rest'.
  rewrite <- app_assoc. unfold read_uint32. rewrite io_ReadFull_app by done. simpl.
  rewrite (proj2 (Z.ltb_ge _ _) E). rewrite io_ReadFull_app by done.
  rewrite (proj2 (Z.ltb_ge _ _) E0). fold n. by rewrite Ecrc.
Qed.

(** ** Lemmas: the loop *)

Lemma replay_loop_more fuel r off acc :
  (length r < fuel)%nat -> replay_loop (S fuel) r off acc = replay_loop fuel r off acc.
Proof.
  revert r off acc. induction fuel as [|fuel IH]; intros r off acc Hlt; [lia|].
  cbn [replay_loop]. destruct (scan_record r) as [| |e rest] eqn:E; try done.
  apply scan_record_local in E as (rec & -> & Hrec & _). rewrite length_app in Hlt |- *.
  cbn [replay_loop] in IH. rewrite <- IH by lia. done.
Qed.

Lemma replay_loop_fuel fuel fuel' r off acc :
  (length r < fuel)%nat -> (length r < fuel')%nat ->
  replay_loop fuel r off acc = replay_loop fuel' r off acc.
Proof.
  assert (H : forall k f, (length r < f)%nat ->
    replay_loop (k + f) r off acc = replay_loop f r off acc).
  { intros k f Hf. induction k as [|k IH]; [done|].
    change (S k + f)%nat with (S (k + f)). by rewrite replay_loop_more by lia. }
  intros H1 H2. destruct (decide (fuel <= fuel')%nat).
  - replace fuel' with ((fuel' - fuel) + fuel)%nat by lia. by rewrite H.
  - replace fuel with ((fuel - fuel') + fuel')%nat by lia. by rewrite H.
Qed.

(** An accepted record in front of anything. *)
Lemma replay_loop_entry fuel r off acc e rest :
  (length r < fuel)%nat -> scan_record r = ScanEntry e rest ->
  replay_loop fuel r off acc
  = replay_loop fuel rest (off + (length r - length rest))%nat (acc ++ [e]).
Proof.
  intros Hlt E. destruct fuel as [|fuel]; [lia|].
  trans (replay_loop fuel rest (off + (length r - length rest))%nat (acc ++ [e])).
  { cbn [replay_loop]. by rewrite E. }
  apply scan_record_local in E as (rec & -> & Hrec & _). rewrite length_app in *.
  apply replay_loop_fuel; lia.
Qed.

Lemma length_log_cons e es : length (log (e :: es)) = (length (record e) + length (log es))%nat.
Proof. unfold log. simpl. by rewrite length_app. Qed.

Lemma replay_loop_log es tail fuel off acc :
  Forall entry_ok es -> (length (log es ++ tail) < fuel)%nat ->
  replay_loop fuel (log es ++ tail) off acc
  = replay_loop fuel tail (off + length (log es))%nat (acc ++ es).
Proof.
  intros Hes. revert off acc. induction Hes as [|e es He Hes IH]; intros off acc Hlt.
  { simpl. by rewrite app_nil_r, Nat.add_0_r. }
  change (log (e :: es)) with (record e ++ log es) in *. rewrite <- app_assoc in *.
  rewrite (replay_loop_entry _ _ _ _ e (log es ++ tail)) by (done || by apply scan_record_app).
  rewrite length_app in Hlt. rewrite IH by lia.
  rewrite <- app_assoc. f_equal. rewrite !length_app. lia.
Qed.

(** Cutting a log anywhere leaves some complete records and a proper prefix of the next. *)
Lemma log_prefix es file :
  file `prefix_of` log es ->
  exists n torn, (n <= length es)%nat /\ file = log (take n es) ++ torn
    /\ (torn = [] \/ exists e, es !! n = Some e /\ torn `prefix_of` record e /\ torn <> record e).
Proof.
  revert file. induction es as [|e es IH]; intros file Hp.
  { exists 0%nat, []. apply prefix_nil_inv in Hp as ->. simpl. split; [lia|]. auto. }
  change (log (e :: es)) with (record e ++ log es) in Hp.
  destruct (decide (length (record e) <= length file)%nat) as [Hle|Hgt].
  - destruct Hp as [suf Hsuf].
    assert (Hf : file = record e ++ drop (length (record e)) file).
    { rewrite <- (take_drop (length (record e)) file) at 1. f_equal.
      apply (f_equal (take (length (record e)))) in Hsuf.
      rewrite take_app_length, (take_app_le file) in Hsuf by done. done. }
    set (f' := drop (length (record e)) file) in *.
    assert (Hp' : f' `prefix_of` log es).
    { exists suf. rewrite Hf, <- app_assoc in Hsuf. by apply app_inv_head in Hsuf. }
    destruct (IH f' Hp') as (n & torn & Hn & Ht & Hcase).
    exists (S n), torn. split; [simpl; lia|]. split; [|exact Hcase].
    change (log (take (S n) (e :: es))) with (record e ++ log (take n es)).
    rewrite Hf, <- app_assoc. by f_equal.
  - exists 0%nat, file. split; [simpl; lia|]. split; [done|]. right. exists e.
    split; [done|]. split.
    + destruct Hp as [suf Hsuf]. apply (f_equal (take (length (record e)))) in Hsuf.
      rewrite take_app_length, take_app_ge in Hsuf by lia. by eexists.
    + intros ->. lia.
Qed.

(** Replaying a cut log. *)
Lemma replay_log_prefix es file :
  Forall entry_ok es -> file `prefix_of` log es ->
  exists n, (n <= length es)%nat /\ (replay file).1 = take n es
    /\ replayed file = log (take n es) /\ log (take n es) `prefix_of` file
    /\ (n = length es \/ ~ log (take (S n) es) `prefix_of` file).
Proof.
  intros Hes Hp. apply log_prefix in Hp as (n & torn & Hn & -> & Hcase).
  assert (Hes' : Forall entry_ok (take n es)) by (by apply Forall_take).
  assert (Hscan : scan_record torn = if decide (torn = []) then ScanEOF else ScanBad).
  { destruct Hcase as [->|(e & He & Hpre & Hne)]; [done|].
    apply (scan_record_torn e); [|done..]. eapply Forall_lookup_1; [exact Hes|exact He]. }
  assert (Hr : replay (log (take n es) ++ torn) =
    (take n es, if decide (torn = []) then None else Some (length (log (take n es))))).
  { unfold replay. rewrite replay_loop_log by (done || lia). simpl.
    rewrite Hscan. by case_decide. }
  exists n. unfold replayed. rewrite Hr. simpl. split; [done|]. split; [done|]. split; [|split].
  - case_decide; [subst; by rewrite app_nil_r|]. by rewrite take_app_length.
  - by eexists.
  - destruct (decide (n = length es)) as [|Hne]; [by left|right]. intros Hpre.
    destruct (lookup_lt_is_Some_2 es n) as [e He]; [lia|].
    rewrite (take_S_r _ _ e) in Hpre by done.
    assert (Hlog : log (take n es ++ [e]) = log (take n es) ++ record e).
    { unfold log. rewrite map_app, concat_app. simpl. by rewrite app_nil_r. }
    rewrite Hlog in Hpre. apply prefix_app_inv in Hpre.
    destruct Hcase as [->|(e' & He' & Hpre' & Hnr)].
    + apply prefix_nil_inv in Hpre. pose proof (length_record_pos e) as Hl. by rewrite Hpre in Hl.
    + rewrite He in He'. injection He' as <-. apply Hnr.
      apply (anti_symm prefix); done.
Qed.

(** The whole log is replayed to all its records. *)
Lemma replay_log_all es :
  Forall entry_ok es -> (replay (log es)).1 = es /\ replayed (log es) = log es.
Proof.
  intros Hes. destruct (replay_log_prefix es (log es) Hes) as (n & Hn & Hr & Hrd & _ & [->|Hno]); [done|..].
  - by rewrite firstn_all in Hr, Hrd.
  - destruct Hno. exists (log (drop (S n) es)). unfold log. by rewrite <- concat_app, <- map_app, take_drop.
Qed.

(** Only the empty rest counts as the clean end of the log. *)
Lemma scan_record_EOF r : scan_record r = ScanEOF -> r = [].
Proof.
  unfold scan_record, check_record. destruct (read_uint32 r) as [[n r1]|[]|] eqn:E; try done.
  { unfold parse_data. repeat (case_match; try done). }
  intros _. unfold read_uint32 in E. destruct (decide (blen r < 4)) as [Hlt|Hge].
  - rewrite io_ReadFull_short in E by done. simpl in E. destruct r as [|x r]; [done|].
    rewrite (proj2 (Z.eqb_neq _ 0)) in E; [done|]. unfold blen. simpl. lia.
  - unfold io_ReadFull in E. do 2 (case_match; breflect; [done || lia|]).
    case_match; breflect; [done|]. done.
Qed.

(** Replaying any file accepts some front part of it, which alone is replayed the same. *)
Lemma replay_loop_shape fuel r off acc :
  (length r < fuel)%nat ->
  exists pre tail es, r = pre ++ tail
    /\ replay_loop fuel r off acc
       = (acc ++ es, if decide (tail = []) then None else Some (off + length pre)%nat)
    /\ forall fuel' off' acc', (length pre < fuel')%nat ->
         replay_loop fuel' pre off' acc' = (acc' ++ es, None).
Proof.
  revert off acc r. induction fuel as [|fuel IH]; intros off acc r Hlt; [lia|].
  destruct (scan_record r) as [| |e rest] eqn:E.
  - apply scan_record_EOF in E as ->. exists [], [], []. split; [done|]. simpl. split; [by rewrite app_nil_r|].
    intros [|fuel'] off' acc' Hl; [lia|]. simpl. by rewrite app_nil_r.
  - exists [], r, []. split; [done|]. cbn [replay_loop]. rewrite E, app_nil_r, Nat.add_0_r.
    split.
    + rewrite decide_False; [done|]. intros ->. done.
    + intros [|fuel'] off' acc' Hl; [lia|]. simpl. by rewrite app_nil_r.
  - rewrite (replay_loop_entry _ _ _ _ e rest) by done.
    pose proof E as (rec & -> & Hrec & Hloc)%scan_record_local. rewrite length_app in *.
    rewrite (replay_loop_fuel (S fuel) fuel) by lia.
    destruct (IH (off + (length rec + length rest - length rest))%nat (acc ++ [e]) rest)
      as (pre & tail & es & -> & Hl & Hpre); [lia|].
    exists (rec ++ pre), tail, (e :: es). split; [by rewrite app_assoc|]. split.
    + rewrite Hl, <- app_assoc. f_equal. case_decide; [done|]. f_equal. rewrite !length_app. lia.
    + intros fuel' off' acc' Hl'. rewrite length_app in Hl'.
      rewrite (replay_loop_entry _ _ _ _ e pre); [|by rewrite length_app|apply Hloc].
      rewrite Hpre by lia. by rewrite <- app_assoc.
Qed.

Lemma replay_replayed file : replay (replayed file) = ((replay file).1, None).
Proof.
  destruct (replay_loop_shape (S (length file)) file 0 []) as (pre & tail & es & Hf & Hr & Hpre);
    [lia|].
  assert (Hfile : replayed file = pre).
  { unfold replayed, replay. rewrite Hr. simpl. case_decide.
    - subst tail. by rewrite Hf, app_nil_r.
    - by rewrite Hf, take_app_length. }
  unfold replay at 1. rewrite Hfile, Hpre by lia. unfold replay. by rewrite Hr.
Qed.

(** ** Lemmas: appending through any writer *)

Section wal_append.
Context {W : Type} `{WL : WriterLaws W}.

(** However the append ends, what has reached the file is a prefix of the log so far. *)
Lemma wal_Append_stream (w : WAL W) e s :
  stream_ok (BufWriter w) s ->
  stream_ok (BufWriter (wal_Append w e).1) (s ++ record e)
  /\ (wal_Append w e).2 = bw_err (BufWriter (wal_Append w e).1)
  /\ putCounter (wal_Append w e).1 = putCounter w.
Proof.
  intros Hok. unfold wal_Append, record.
  set (x1 := le32 _). set (x2 := writeDataBuff e). set (x3 := le32 (crc32_ChecksumIEEE x2)).
  clearbody x3 x2 x1.
  pose proof (bufio_Write_stream _ x1 _ Hok) as H1.
  destruct (bufio_Write (BufWriter w) x1) as [b1 e1]. destruct H1 as [H1 E1].
  destruct e1 as [e1|]; simpl.
  { split; [|done]. eapply stream_ok_err; [by rewrite <- E1| |exact H1].
    apply prefix_app. by eexists. }
  pose proof (bufio_Write_stream _ x2 _ H1) as H2.
  destruct (bufio_Write b1 x2) as [b2 e2]. destruct H2 as [H2 E2].
  destruct e2 as [e2|]; simpl.
  { split; [|done]. eapply stream_ok_err; [by rewrite <- E2| |exact H2].
    exists x3. by rewrite <- !app_assoc. }
  pose proof (bufio_Write_stream _ x3 _ H2) as H3.
  destruct (bufio_Write b2 x3) as [b3 e3]. destruct H3 as [H3 E3].
  rewrite <- !app_assoc in H3. by destruct e3.
Qed.

(** Appending a list of records and going on after errors, as the worst caller would. *)
Definition append_all (w : WAL W) (es : list kv) : WAL W :=
  foldl (fun w e => (wal_Append w e).1) w es.

Lemma append_all_stream es (w : WAL W) s :
  stream_ok (BufWriter w) s -> stream_ok (BufWriter (append_all w es)) (s ++ log es).
Proof.
  revert w s. induction es as [|e es IH]; intros w s Hok; simpl; [by rewrite app_nil_r|].
  destruct (wal_Append_stream w e s Hok) as [Hok' _].
  apply IH in Hok'. by rewrite <- app_assoc in Hok'.
Qed.
End wal_append.

(** ** Lemmas: the log of a database, on a plain file *)

(** [es] is what has been written since the log was last empty: nothing was lost on the way
    to the buffer, and all but the last [putCounter] records are durable. *)
Definition wal_inv (w : WAL os_File) (es : list kv) : Prop :=
  bw_err (BufWriter w) = None
  /\ stream_ok (BufWriter w) (log es)
  /\ 0 <= putCounter w < DEFAULT_SYNC_THRESHOLD
  /\ (length (log (take (length es - Z.to_nat (putCounter w)) es))
      <= fsynced (bw_wr (BufWriter w)) <= length (fdata (bw_wr (BufWriter w))))%nat.

Lemma log_app es es' : log (es ++ es') = log es ++ log es'.
Proof. unfold log. by rewrite map_app, concat_app. Qed.

Lemma write_fsynced (f : os_File) p : fsynced (write_to f p).1 = fsynced f.
Proof. done. Qed.

(** Buffered writes never change what is durable, and the file only grows. *)
Definition file_le (f f' : os_File) : Prop :=
  fsynced f' = fsynced f /\ (length (fdata f) <= length (fdata f'))%nat.

#[export] Instance file_le_preorder : PreOrder file_le.
Proof.
  split; [by intros f|]. intros a b c [H1 H2] [H3 H4]. split; [congruence|lia].
Qed.

Lemma file_le_write (f : os_File) p : file_le f (write_to f p).1.
Proof. split; [done|]. simpl. rewrite length_app. lia. Qed.

Lemma bufio_Flush_file (b : bufio_Writer os_File) : file_le (bw_wr b) (bw_wr (bufio_Flush b).1).
Proof.
  unfold bufio_Flush. destruct (bw_err b); [done|]. case_if; [done|].
  pose proof (file_le_write (bw_wr b) (bw_buf b)) as Hf.
  destruct (write_to (bw_wr b) (bw_buf b)) as [w' [n err]]. simpl in Hf.
  by destruct err; [|case_if].
Qed.

Lemma bufio_write_loop_file fuel (b : bufio_Writer os_File) p :
  file_le (bw_wr b) (bw_wr (bufio_write_loop fuel b p).1).
Proof.
  revert b p. induction fuel as [|fuel IH]; intros b p; simpl; [done|].
  destruct (bw_err b); [done|]. case_if; [done|]. case_if.
  - etrans; [|apply IH]. simpl. apply (file_le_write (bw_wr b) p).
  - pose proof (bufio_Flush_file (mkBufio (bw_buf b ++
      take (Z.to_nat (bufio_size - blen (bw_buf b))) p) None (bw_wr b))) as Hf.
    destruct (bufio_Flush _) as [b2 e]. simpl in *. etrans; [exact Hf|apply IH].
Qed.

Lemma bufio_Write_file (b : bufio_Writer os_File) p :
  file_le (bw_wr b) (bw_wr (bufio_Write b p).1).
Proof.
  unfold bufio_Write. pose proof (bufio_write_loop_file (length p + 2) b p) as Hl.
  destruct (bufio_write_loop _ b p) as [b' rest]. simpl in Hl. by destruct (bw_err b').
Qed.

Lemma wal_Append_file (w : WAL os_File) e :
  file_le (bw_wr (BufWriter w)) (bw_wr (BufWriter (wal_Append w e).1)).
Proof.
  unfold wal_Append.
  pose proof (bufio_Write_file (BufWriter w) (le32 (u32 (u32 (blen (writeDataBuff e)) + 4)))) as H1.
  destruct (bufio_Write (BufWriter w) _) as [b1 [e1|]]; [done|]. simpl in H1.
  pose proof (bufio_Write_file b1 (writeDataBuff e)) as H2.
  destruct (bufio_Write b1 _) as [b2 [e2|]]; simpl in *; [by etrans|].
  pose proof (bufio_Write_file b2 (le32 (crc32_ChecksumIEEE (writeDataBuff e)))) as H3.
  destruct (bufio_Write b2 _) as [b3 [e3|]]; simpl in *; (etrans; [exact H1|]; by etrans).
Qed.

Lemma wal_Append_reliable (w : WAL os_File) e s :
  stream_ok (BufWriter w) s -> bw_err (BufWriter w) = None ->
  bw_err (BufWriter (wal_Append w e).1) = None /\ (wal_Append w e).2 = None.
Proof.
  intros Hok E. destruct (wal_Append_stream w e s Hok) as (_ & Heq & _).
  assert (bw_err (BufWriter (wal_Append w e).1) = None) as Hn; [|by rewrite Heq].
  unfold wal_Append.
  destruct (bufio_Write_reliable _ (le32 (u32 (u32 (blen (writeDataBuff e)) + 4))) _ Hok E) as [H1 H1'].
  pose proof (bufio_Write_stream _ (le32 (u32 (u32 (blen (writeDataBuff e)) + 4))) _ Hok) as S1.
  destruct (bufio_Write (BufWriter w) _) as [b1 e1]. simpl in *. subst e1. destruct S1 as [S1 _].
  destruct (bufio_Write_reliable _ (writeDataBuff e) _ S1 H1) as [H2 H2'].
  pose proof (bufio_Write_stream _ (writeDataBuff e) _ S1) as S2.
  destruct (bufio_Write b1 _) as [b2 e2]. simpl in *. subst e2. destruct S2 as [S2 _].
  destruct (bufio_Write_reliable _ (le32 (crc32_ChecksumIEEE (writeDataBuff e))) _ S2 H2) as [H3 H3'].
  destruct (bufio_Write b2 _) as [b3 e3]. simpl in *. by subst e3.
Qed.

(** A sync makes everything durable. *)
Lemma wal_Sync_inv (w : WAL os_File) es :
  bw_err (BufWriter w) = None -> stream_ok (BufWriter w) (log es) ->
  exists w', wal_Sync w = (w', None) /\ bw_err (BufWriter w') = None
    /\ stream_ok (BufWriter w') (log es) /\ putCounter w' = putCounter w
    /\ fdata (bw_wr (BufWriter w')) = log es
    /\ fsynced (bw_wr (BufWriter w')) = length (log es).
Proof.
  intros E Hok. unfold wal_Sync.
  pose proof (bufio_Flush_stream _ _ Hok) as Hf.
  pose proof (bufio_Flush_reliable _ _ Hok E) as Hr.
  destruct (bufio_Flush (BufWriter w)) as [b e]. destruct Hf as (Hok' & He & Hnil).
  simpl in Hr. rewrite Hr in He. subst e. destruct (Hnil eq_refl) as [Hb Hfile].
  simpl in Hfile. eexists. split; [done|]. simpl.
  split; [done|]. split; [|split; [done|split; [done|by rewrite Hfile]]].
  unfold stream_ok in *. simpl in *. rewrite Hr in *. done.
Qed.

Lemma wal_write_inv (w : WAL os_File) es k v :
  wal_inv w es ->
  exists w', wal_write w k v = (w', None) /\ wal_inv w' (es ++ [mkKV k v]).
Proof.
  intros (E & Hok & Hc & Hs). unfold wal_write.
  destruct (wal_Append_stream w (mkKV k v) _ Hok) as (Hok' & _ & Hpc).
  destruct (wal_Append_reliable w (mkKV k v) _ Hok E) as [Hr Hn].
  pose proof (wal_Append_file w (mkKV k v)) as [Hfs Hfl].
  destruct (wal_Append w (mkKV k v)) as [w1 e1]. simpl in *. subst e1.
  assert (Hlog : log es ++ record (mkKV k v) = log (es ++ [mkKV k v])).
  { rewrite log_app. unfold log at 3. simpl. by rewrite app_nil_r. }
  rewrite Hlog in Hok'. rewrite Hpc. case_if.
  - destruct (wal_Sync_inv (mkWAL (BufWriter w1) (putCounter w + 1)) (es ++ [mkKV k v]) Hr Hok')
      as (w2 & -> & E2 & Hok2 & _ & Hd2 & Hs2).
    eexists. split; [done|]. split; [done|]. split; [done|]. simpl.
    split; [unfold DEFAULT_SYNC_THRESHOLD; lia|].
    rewrite Nat.sub_0_r, firstn_all, Hs2, Hd2. lia.
  - eexists. split; [done|]. split; [done|]. split; [done|]. simpl. split; [lia|].
    rewrite Hfs. split; [|lia]. rewrite length_app. simpl.
    replace (length es + 1 - Z.to_nat (putCounter w + 1))%nat
      with (length es - Z.to_nat (putCounter w))%nat by lia.
    rewrite take_app_le by lia. lia.
Qed.

(** A sequence of writes to a log. *)
Fixpoint write_all (w : WAL os_File) (es : list kv) : WAL os_File * option goerror :=
  match es with
  | [] => (w, None)
  | e :: es' =>
      match wal_write w (Key e) (Value e) with
      | (w', Some err) => (w', Some err)
      | (w', None) => write_all w' es'
      end
  end.

Lemma write_all_inv (w : WAL os_File) es0 es :
  wal_inv w es0 -> exists w', write_all w es = (w', None) /\ wal_inv w' (es0 ++ es).
Proof.
  revert w es0. induction es as [|[k v] es IH]; intros w es0 Hinv; simpl.
  { exists w. by rewrite app_nil_r. }
  destruct (wal_write_inv w es0 k v Hinv) as (w1 & -> & Hinv1).
  destruct (IH w1 _ Hinv1) as (w2 & -> & Hinv2). exists w2. by rewrite <- app_assoc in Hinv2.
Qed.

Lemma wal_Open_log_inv es :
  wal_inv (wal_Open (mkFile (log es) (length (log es)))) es.
Proof.
  split; [done|]. split; [|split; [unfold DEFAULT_SYNC_THRESHOLD; simpl; lia|]].
  - split; simpl; [by rewrite app_nil_r|]. unfold blen, bufio_size. simpl. lia.
  - simpl. rewrite Nat.sub_0_r, firstn_all. lia.
Qed.

(** Opening a file and replaying it. *)
Lemma wal_Replay_Open (f : os_File) :
  fsynced f = length (fdata f) ->
  wal_Replay (wal_Open f)
  = (Ok (replay (fdata f)).1, wal_Open (mkFile (replayed (fdata f)) (length (replayed (fdata f))))).
Proof.
  intros Hs. unfold wal_Replay, replayed.
  change (bufio_Flush (BufWriter (wal_Open f))) with (bufio_NewWriter f, @None goerror).
  cbv beta iota zeta. change (fdata (bw_wr (bufio_NewWriter f))) with (fdata f).
  fold (replay (fdata f)).
  destruct (replay (fdata f)) as [es [off|]]; cbn [fst snd bw_wr bw_buf bw_err bufio_NewWriter].
  - assert (file_Truncate f off = mkFile (take off (fdata f)) (length (take off (fdata f)))) as ->;
      [|done]. unfold file_Truncate. by rewrite length_take, Hs.
  - destruct f. simpl in *. by subst.
Qed.

(** A crash: the buffer is gone, and of the file any part not yet durable may be gone too. *)
Definition crash (f f' : os_File) : Prop :=
  exists n, (fsynced f <= n <= length (fdata f))%nat /\ f' = mkFile (take n (fdata f)) n.

(** What survives a crash is replayed to all but at most the last unsynced records. *)
Lemma wal_inv_crash (w : WAL os_File) es f' :
  Forall entry_ok es -> wal_inv w es -> crash (bw_wr (BufWriter w)) f' ->
  exists n, (length es - Z.to_nat (putCounter w) <= n <= length es)%nat
    /\ (replay (fdata f')).1 = take n es /\ replayed (fdata f') = log (take n es).
Proof.
  intros Hes (E & Hok & Hc & Hs) (m & Hm & ->). simpl.
  set (d := fdata (bw_wr (BufWriter w))) in *.
  assert (Hpre : take m d `prefix_of` log es).
  { etrans; [|apply (stream_ok_prefix _ _ Hok)]. exists (drop m d). simpl. by rewrite take_drop. }
  destruct (replay_log_prefix es (take m d) Hes Hpre) as (n & Hn & Hr & Hrd & Hlp & Hmax).
  exists n. split; [|done]. split; [|done].
  set (j := (length es - Z.to_nat (putCounter w))%nat) in *.
  destruct Hmax as [->|Hmax]; [lia|].
  destruct (decide (j <= n)%nat) as [|Hlt]; [done|]. exfalso. apply Hmax.
  assert (Hjpre : forall i, (i <= j)%nat -> log (take i es) `prefix_of` take m d).
  { intros i Hi.
    assert (Hi1 : log (take i es) `prefix_of` log (take j es)).
    { replace (take i es) with (take i (take j es)) by (rewrite take_take; f_equal; lia).
      rewrite <- (take_drop i (take j es)) at 2. rewrite log_app. by eexists. }
    etrans; [exact Hi1|].
    apply (prefix_shorter (log (take j es)) (take m d) (log es)).
    - rewrite <- (take_drop j es) at 2. rewrite log_app. by eexists.
    - done.
    - rewrite length_take. unfold d in *. lia. }
  apply Hjpre. lia.
Qed.

(** ** Properties *)

(** C12: torn writes. Whatever records are appended through any writer that may fail at any
    byte (the fault-injecting writer included), and whether the buffered tail was flushed or
    not, the file holds a prefix of the log; replaying it returns exactly the records that
    are complete in the file, in order, and truncates the file behind the last of them. *)
Theorem torn_write_recovery {W} `{WL : WriterLaws W} (file : W) (es : list kv) (flush : bool) :
  on_file file = [] -> Forall entry_ok es ->
  let w := append_all (wal_Open file) es in
  let b := if flush then (bufio_Flush (BufWriter w)).1 else BufWriter w in
  exists n, (n <= length es)%nat
    /\ (replay (on_file (bw_wr b))).1 = take n es
    /\ replayed (on_file (bw_wr b)) = log (take n es)
    /\ (n = length es \/ ~ log (take (S n) es) `prefix_of` on_file (bw_wr b)).
Proof.
  intros Hnil Hes w b.
  assert (Hok : stream_ok (BufWriter w) (log es)).
  { change (log es) with ([] ++ log es). apply append_all_stream. rewrite <- Hnil.
    apply stream_ok_new. }
  assert (Hb : stream_ok b (log es)).
  { unfold b. destruct flush; [|done]. pose proof (bufio_Flush_stream _ _ Hok) as Hf.
    by destruct (bufio_Flush (BufWriter w)) as [b' e]; destruct Hf. }
  apply stream_ok_prefix in Hb.
  destruct (replay_log_prefix es _ Hes Hb) as (n & H1 & H2 & H3 & _ & H5). eauto.
Qed.

(** A small log for the witnesses. *)
Definition demo_log : list kv :=
  [mkKV (bytes_of "key-0+trailer") (bytes_of "v0"); mkKV (bytes_of "key-1+trailer") []].

Lemma demo_log_ok : Forall entry_ok demo_log.
Proof. repeat constructor; vm_compute; congruence. Qed.

Lemma torn_write_recovery_witness :
  let file := NewFaultyWriter (mkFile [] 0) 40 in
  let w := append_all (wal_Open file) demo_log in
  exists n, (n <= 2)%nat
    /\ (replay (on_file (bw_wr (bufio_Flush (BufWriter w)).1))).1 = take n demo_log
    /\ replayed (on_file (bw_wr (bufio_Flush (BufWriter w)).1)) = log (take n demo_log)
    /\ (n = 2%nat \/ ~ log (take (S n) demo_log)
          `prefix_of` on_file (bw_wr (bufio_Flush (BufWriter w)).1)).
Proof.
  exact (torn_write_recovery (NewFaultyWriter (mkFile [] 0) 40) demo_log true
    eq_refl demo_log_ok).
Defined.

(** Replaying is idempotent on every file, however corrupted: a second replay of the
    file a first one left behind returns the same records and truncates nothing. *)
Theorem replay_idempotent (f : os_File) :
  fsynced f = length (fdata f) ->
  exists es w, wal_Replay (wal_Open f) = (Ok es, w)
    /\ wal_Replay (wal_Open (bw_wr (BufWriter w))) = (Ok es, w)
    /\ fdata (bw_wr (BufWriter w)) `prefix_of` fdata f.
Proof.
  intros Hs. rewrite wal_Replay_Open by done. eexists _, _. split; [done|]. simpl.
  rewrite wal_Replay_Open by done. simpl. rewrite replay_replayed. split.
  - f_equal. unfold replayed at 1 3. by rewrite replay_replayed.
  - unfold replayed. destruct (replay (fdata f)).2; [apply prefix_take|done].
Qed.

Lemma replay_idempotent_witness :
  let d := log demo_log ++ bytes_of "garbage at the end" in
  let f := mkFile d (length d) in
  exists es w, wal_Replay (wal_Open f) = (Ok es, w)
    /\ wal_Replay (wal_Open (bw_wr (BufWriter w))) = (Ok es, w)
    /\ fdata (bw_wr (BufWriter w)) `prefix_of` fdata f.
Proof.
  intros d f. apply (replay_idempotent f). reflexivity.
Defined.

(** Durability of acknowledged writes. Every write to a fresh log succeeds; after any
    number of them a crash at any moment loses at most the last nine: reopening and
    replaying the surviving file returns all but at most [DEFAULT_SYNC_THRESHOLD - 1] of the
    acknowledged records, in order, and leaves a log that can be appended to again. *)
Theorem crash_loses_at_most_nine (es : list kv) (f' : os_File) :
  Forall entry_ok es ->
  exists w, write_all (wal_Open (mkFile [] 0)) es = (w, None)
    /\ (crash (bw_wr (BufWriter w)) f' ->
        exists n w', (length es <= n + 9)%nat /\ (n <= length es)%nat
          /\ wal_Replay (wal_Open f') = (Ok (take n es), w') /\ wal_inv w' (take n es)).
Proof.
  intros Hes. destruct (write_all_inv _ [] es (wal_Open_log_inv [])) as (w & Hw & Hinv).
  exists w. split; [exact Hw|]. intros Hcr.
  destruct (wal_inv_crash w es f' Hes Hinv Hcr) as (n & Hn & Hr & Hrd).
  assert (Hs : fsynced f' = length (fdata f')).
  { destruct Hcr as (m & Hm & ->). simpl. rewrite length_take. lia. }
  exists n. eexists. split; [|split; [lia|split]].
  - destruct Hinv as (_ & _ & Hc & _). unfold DEFAULT_SYNC_THRESHOLD in Hc. lia.
  - rewrite wal_Replay_Open by done. rewrite Hr. done.
  - rewrite Hrd. apply wal_Open_log_inv.
Qed.

Lemma crash_loses_at_most_nine_witness :
  exists w, write_all (wal_Open (mkFile [] 0)) demo_log = (w, None)
    /\ (crash (bw_wr (BufWriter w)) (mkFile [] 0) ->
        exists n w', (length demo_log <= n + 9)%nat /\ (n <= length demo_log)%nat
          /\ wal_Replay (wal_Open (mkFile [] 0)) = (Ok (take n demo_log), w')
          /\ wal_inv w' (take n demo_log)).
Proof. apply (crash_loses_at_most_nine demo_log (mkFile [] 0)), demo_log_ok. Defined.

(** The first record of a new log stays in the buffer when it fits. *)
Lemma first_write_buffered (k v : bytes) :
  blen (record (mkKV k v)) <= bufio_size ->
  exists w, wal_write (wal_Open (mkFile [] 0)) k v = (w, None) /\ fdata (bw_wr (BufWriter w)) = [].
Proof.
  intros Hlen. rewrite blen_record in Hlen.
  unfold wal_Open, bufio_NewWriter, wal_write, wal_Append. generalize dependent (writeDataBuff (mkKV k v)).
  intros d Hlen. pose proof (blen_nonneg d). assert (Hnil : blen (@nil byte) = 0) by done.
  rewrite bufio_Write_fits by (try done; simpl; rewrite blen_le32; unfold bufio_size in *; lia).
  rewrite bufio_Write_fits by (try done; simpl; rewrite blen_le32; lia).
  rewrite bufio_Write_fits by (try done; cbn [bw_buf BufWriter]; rewrite !blen_app, !blen_le32; lia). simpl.
  unfold DEFAULT_SYNC_THRESHOLD. simpl. eexists. by split.
Qed.

(** An acknowledged write is not necessarily on disk. A first [Put] of a record of at
    most 4096 bytes on a fresh log returns no error, yet the file is still empty, and a crash
    right after it recovers nothing. *)
Theorem acknowledged_put_not_durable (k v : bytes) :
  blen (record (mkKV k v)) <= bufio_size ->
  exists w, wal_Put (wal_Open (mkFile [] 0)) k v = (w, None)
    /\ fdata (bw_wr (BufWriter w)) = []
    /\ (replay (fdata (bw_wr (BufWriter w)))).1 = [].
Proof.
  intros Hlen. destruct (first_write_buffered k v Hlen) as (w & Hw & Hd).
  exists w. split; [done|]. split; [done|]. by rewrite Hd.
Qed.

Lemma acknowledged_put_not_durable_witness :
  exists w, wal_Put (wal_Open (mkFile [] 0)) (bytes_of "key+trailer") (bytes_of "value") = (w, None)
    /\ fdata (bw_wr (BufWriter w)) = []
    /\ (replay (fdata (bw_wr (BufWriter w)))).1 = [].
Proof.
  apply (acknowledged_put_not_durable (bytes_of "key+trailer") (bytes_of "value")).
  vm_compute. congruence.
Defined.
