(* ===== verification/WalReader.v ===== *)
(** * The reader under a replay ([src/wal/replay.go])

    [Replay] reads the log through a [countingReader], whose position tells where the record
    that cannot be accepted starts, and through [io.ReadFull], which calls [Read] until the
    buffer is full: a [Read] of a file may return fewer bytes than asked for. [Wal] reads from
    the bytes that are left and computes the position from their number. Here the reader is
    the code's, over a file whose reads are cut short in any way, and [replay_reader_agrees]
    shows that the loop over it returns the same records and the same position to truncate
    at. *)

From S2P Require Import Prelude Config Base Mvcc Hash Bufio Wal.

Section reader.
(** How many bytes the operating system would return when [p] are asked for and the file goes
    on with these. *)
Variable chunk : bytes -> nat -> nat.

(** [File.Read(p)]: nothing for an empty buffer, [io.EOF] at the end, and otherwise at least
    one byte and no more than are asked for or left. *)
Definition file_Read (r : bytes) (p : nat) : bytes * option goerror * bytes :=
  match p, r with
  | O, _ => ([], None, r)
  | _, [] => ([], Some EOF, [])
  | _, _ =>
      let n := Nat.max 1 (Nat.min (chunk r p) (Nat.min p (length r))) in
      (take n r, None, drop n r)
  end.

Record countingReader := mkCounting { cr_r : bytes; cr_pos : nat }.

Definition counting_Read (c : countingReader) (p : nat) : bytes * option goerror * countingReader :=
  let '(b, err, r) := file_Read (cr_r c) p in (b, err, mkCounting r (cr_pos c + length b)).

(** The loop of [io.ReadAtLeast]; every round reads a byte or ends it. *)
Fixpoint read_at_least (fuel : nat) (c : countingReader) (want : nat) (got : bytes) :
    bytes * option goerror * countingReader :=
  match fuel with
  | O => (got, None, c)
  | S fuel' =>
      if decide (length got < want)%nat then
        let '(b, err, c') := counting_Read c (want - length got) in
        match err with
        | None => read_at_least fuel' c' want (got ++ b)
        | Some e => (got ++ b, Some e, c')
        end
      else (got, None, c)
  end.

(** [io.ReadFull(c, buf)] for a buffer of [n] bytes. The loop ends with too few bytes only
    after an error, so the last case is never reached. *)
Definition cr_ReadFull (c : countingReader) (n : Z) : result bytes * countingReader :=
  let want := Z.to_nat n in
  let '(got, err, c') := read_at_least (S want) c want [] in
  (if decide (want <= length got)%nat then Ok got
   else match err with
        | Some EOF => if decide (0 < length got)%nat then Err ErrUnexpectedEOF else Err EOF
        | Some e => Err e
        | None => Panic
        end, c').

(** One iteration of [Replay]. *)
Definition cr_record (c : countingReader) : scan * countingReader :=
  match cr_ReadFull c 4 with
  | (Err EOF, c) => (ScanEOF, c)
  | (Ok b, c) =>
      let totalLength := le_combine b in
      if 4 + maxEncodedKeyLen + 4 + MAX_VALUE_LENGTH + 4 <? totalLength then (ScanBad, c)
      else
        match cr_ReadFull c totalLength with
        | (Ok recordBuf, c) => (check_record recordBuf (cr_r c), c)
        | (_, c) => (ScanBad, c)
        end
  | (_, c) => (ScanBad, c)
  end.

Fixpoint cr_replay (fuel : nat) (c : countingReader) (entries : list kv) : list kv * option nat :=
  match fuel with
  | O => (entries, None)
  | S fuel' =>
      let startOffset := cr_pos c in
      match cr_record c with
      | (ScanEOF, _) => (entries, None)
      | (ScanBad, _) => (entries, Some startOffset)
      | (ScanEntry e _, c') => cr_replay fuel' c' (entries ++ [e])
      end
  end.

(** ** Reads that are cut short add up *)

Lemma read_at_least_ok fuel : forall r pos want got,
  (want - length got < fuel)%nat ->
  let k := (want - length got)%nat in
  read_at_least fuel (mkCounting r pos) want got
  = if decide (k <= length r)%nat then (got ++ take k r, None, mkCounting (drop k r) (pos + k))
    else (got ++ r, Some EOF, mkCounting [] (pos + length r)).
Proof.
  induction fuel as [|fuel IH]; intros r pos want got Hf k; [lia|]. cbn [read_at_least].
  destruct (decide (length got < want)%nat) as [Hlt|Hge].
  2:{ assert (k = 0)%nat as -> by lia. rewrite decide_True by lia. by rewrite take_0, drop_0, app_nil_r, Nat.add_0_r. }
  unfold counting_Read. cbn [cr_r cr_pos]. fold k. unfold file_Read. destruct k as [|k'] eqn:Hk; [lia|].
  destruct r as [|x r]; [rewrite decide_False by (simpl; lia); by rewrite app_nil_r|]. rewrite <- Hk.
  set (n := Nat.max 1 _). assert (Hn : (1 <= n <= k)%nat /\ (n <= length (x :: r))%nat) by (unfold n; simpl length; lia).
  rewrite IH by (rewrite length_app, length_take; lia). cbv zeta.
  replace (want - length (got ++ take n (x :: r)))%nat with (k - n)%nat by (rewrite length_app, length_take; lia).
  rewrite length_drop, length_take, (Nat.min_l n) by lia.
  destruct (decide (k <= length (x :: r))%nat).
  - rewrite decide_True by lia. rewrite drop_drop, <- app_assoc.
    replace (n + (k - n))%nat with k by lia. replace (pos + n + (k - n))%nat with (pos + k)%nat by lia.
    do 3 f_equal. rewrite <- (take_drop n (take k (x :: r))), take_take, Nat.min_l by lia. by rewrite skipn_firstn_comm.
  - rewrite decide_False by lia. rewrite <- app_assoc, take_drop. do 2 f_equal. lia.
Qed.

(** [io.ReadFull] on the counting reader: the bytes of [io_ReadFull], and a position that has
    moved by as many. *)
Lemma cr_ReadFull_ok r pos n :
  match io_ReadFull n r with
  | Ok (b, r') => cr_ReadFull (mkCounting r pos) n = (Ok b, mkCounting r' (pos + (length r - length r')))
                  /\ (length r' <= length r)%nat
  | Err e => (cr_ReadFull (mkCounting r pos) n).1 = Err e
  | Panic => True
  end.
Proof.
  unfold cr_ReadFull. rewrite read_at_least_ok by (simpl; lia). cbn [length app]. rewrite Nat.sub_0_r.
  unfold io_ReadFull. destruct (Z.leb_spec n 0).
  { replace (Z.to_nat n) with 0%nat by lia. rewrite take_0, drop_0. cbn.
    by rewrite Nat.sub_diag, Nat.add_0_r. }
  destruct (Z.eqb_spec (blen r) 0) as [H0|H0].
  { unfold blen in H0. destruct r; [|simpl in H0; lia]. rewrite (decide_False (P := (Z.to_nat n <= length [])%nat)) by (simpl; lia).
    cbn [length]. by rewrite !decide_False by lia. }
  unfold blen in *. destruct (Z.ltb_spec (Z.of_nat (length r)) n).
  - rewrite !decide_False by lia. by rewrite decide_True by lia.
  - rewrite decide_True by lia. rewrite length_take, decide_True, length_drop by lia. split; [|lia].
    do 2 f_equal. lia.
Qed.

Lemma cr_record_ok r pos :
  match scan_record r with
  | ScanEntry e r' => cr_record (mkCounting r pos) = (ScanEntry e r', mkCounting r' (pos + (length r - length r')))
  | x => (cr_record (mkCounting r pos)).1 = x
  end.
Proof.
  unfold scan_record, cr_record, read_uint32.
  pose proof (cr_ReadFull_ok r pos 4) as H4. destruct (io_ReadFull 4 r) as [[b r1]|e|] eqn:E4; cbn [rbind].
  - destruct H4 as [-> Hl1]. destruct (_ <? le_combine b); [done|].
    pose proof (cr_ReadFull_ok r1 (pos + (length r - length r1)) (le_combine b)) as Ht.
    destruct (io_ReadFull (le_combine b) r1) as [[buf r2]|e|] eqn:Et.
    + destruct Ht as [-> Hl2]. cbn [cr_r].
      assert (Hrest : forall x, check_record buf r2 = x -> match x with ScanEntry _ r' => r' = r2 | _ => True end).
      { intros x <-. unfold check_record, parse_data. by repeat case_match; simplify_eq. }
      destruct (check_record buf r2) as [| |e r'] eqn:Ec; [done..|]. rewrite (Hrest _ eq_refl). do 2 f_equal. lia.
    + by destruct (cr_ReadFull _ (le_combine b)) as [[] ?]; simplify_eq/=.
    + unfold io_ReadFull in Et. by repeat case_match.
  - destruct (cr_ReadFull _ 4) as [x c]. simpl in H4. subst x. by destruct e.
  - unfold io_ReadFull in E4. by repeat case_match.
Qed.

(** C29: the replay as the code reads the file. Through [countingReader] and [io.ReadFull],
    and however the reads of the file are cut short, the loop of [Replay] accepts the same
    records as the replay that sees the whole file, and truncates it at the same byte. *)
Theorem replay_reader_agrees (file : bytes) :
  cr_replay (S (length file)) (mkCounting file 0) [] = replay file.
Proof.
  unfold replay. generalize (S (length file)), 0%nat, (@nil kv). intros fuel. revert file.
  induction fuel as [|fuel IH]; intros r pos entries; [done|]. cbn [cr_replay replay_loop cr_pos].
  pose proof (cr_record_ok r pos) as Hr. destruct (scan_record r) as [| |e r'].
  - by destruct (cr_record _) as [x c]; simpl in Hr; subst x.
  - by destruct (cr_record _) as [x c]; simpl in Hr; subst x.
  - rewrite Hr. apply IH.
Qed.
End reader.
