(* ===== verification/Block.v ===== *)
(** * Blocks, index and footer of an SSTable ([src/sstable/block.go], [index.go])

    The byte formats of the file sections and the binary search over the block index.

    The theorems: decoding inverts encoding for blocks, the index and both footers;
    a block in which any one byte was changed is rejected by its checksum; decoding any
    byte string terminates with entries or an error; [searchIndex] returns the last block
    whose first key sorts at or before the target. *)

From S2P Require Import Prelude Base Mvcc Hash Bufio.

(** [sstable_types.go]; [BlockEntry] is [Mvcc.kv]. *)
Record IndexEntry := mkIndexEntry { FirstKey : bytes; Offset : Z; Length : Z }.

#[global] Instance IndexEntry_eq_dec : EqDecision IndexEntry.
Proof. solve_decision. Defined.

(** ** Counted loops over a reader

    [for i := uint32(0); i < n; i++ { e, err := read1(r); ... }]. Every reader below consumes
    input, so one unit of fuel per input byte and one more is enough ([read_n_total]);
    [Panic] marks the exhausted fuel and is never reached. *)
Fixpoint read_n {A} (read1 : bytes -> result (A * bytes)) (fuel : nat) (n : Z) (r : bytes) :
    result (list A) :=
  if n <=? 0 then Ok []
  else
    match fuel with
    | O => Panic
    | S fuel' =>
        let* (e, r') := read1 r in
        let* es := read_n read1 fuel' (n - 1) r' in
        Ok (e :: es)
    end.

(** ** Blocks ([block.go]) *)

(** Writes to a [bytes.Buffer] do not fail. *)
Definition writeBlockEntry (buf : bytes) (e : kv) : bytes :=
  buf ++ le32 (u32 (blen (Key e))) ++ le32 (u32 (blen (Value e))) ++ Key e ++ Value e.

Definition encodeBlock (entries : list kv) : bytes :=
  let buf := foldl writeBlockEntry (le32 (u32 (blen entries))) entries in
  let crc := crc32_ChecksumIEEE buf in
  buf ++ le32 crc.

Definition readBlockEntry (r : bytes) : result (kv * bytes) :=
  let* (keyLen, r) := read_uint32 r in
  let* (valLen, r) := read_uint32 r in
  let* (key, r) := io_ReadFull keyLen r in
  let* (val, r) := io_ReadFull valLen r in
  Ok (mkKV key val, r).

Definition decodeBlock (blockBytes : bytes) : result (list kv) :=
  if blen blockBytes <? 4 then Err (Errorf "block too small")
  else
    let data := take (length blockBytes - 4) blockBytes in
    let storedCRC := le_combine (drop (length blockBytes - 4) blockBytes) in
    if negb (crc32_ChecksumIEEE data =? storedCRC) then Err (Errorf "block CRC mismatch")
    else
      let* (numEntries, reader) := read_uint32 data in
      read_n readBlockEntry (S (length reader)) numEntries reader.

(** ** Seeking in a file *)

(** [f.Seek(off, io.SeekStart)] and [f.Seek(off, io.SeekEnd)]: the rest of the file from
    there. A position before the start is an error, one behind the end is not. *)
Definition seek_start (f : bytes) (off : Z) : result bytes :=
  if off <? 0 then Err ErrInvalidSeek else Ok (drop (Z.to_nat (Z.min off (blen f))) f).
Definition seek_end (f : bytes) (off : Z) : result bytes := seek_start f (blen f + off).

(** ** Index and footer ([index.go]) *)

Section writers.
Context {W : Type} `{WR : Writer W}.

(** A sequence of writes, each returning early on an error. *)
Fixpoint write_seq (w : bufio_Writer W) (ps : list bytes) : bufio_Writer W * option goerror :=
  match ps with
  | [] => (w, None)
  | p :: ps' =>
      match bufio_Write w p with
      | (w', Some e) => (w', Some e)
      | (w', None) => write_seq w' ps'
      end
  end.

Definition index_fields (idx : IndexEntry) : list bytes :=
  [le32 (u32 (blen (FirstKey idx))); FirstKey idx; le64 (Offset idx); le32 (Length idx)].

Fixpoint encodeIndex (w : bufio_Writer W) (entries : list IndexEntry) :
    bufio_Writer W * option goerror :=
  match entries with
  | [] => (w, None)
  | idx :: entries' =>
      match write_seq w (index_fields idx) with
      | (w', Some e) => (w', Some e)
      | (w', None) => encodeIndex w' entries'
      end
  end.

Definition encodeFooter (w : bufio_Writer W) (indexOffset numEntries : Z) :
    bufio_Writer W * option goerror :=
  write_seq w [le64 indexOffset; le32 numEntries].

Definition encodeFooterWithBloom (w : bufio_Writer W) (indexOffset numEntries bloomOffset : Z) :
    bufio_Writer W * option goerror :=
  write_seq w [le64 indexOffset; le32 numEntries; le64 bloomOffset].
End writers.

Definition readIndexEntry (r : bytes) : result (IndexEntry * bytes) :=
  let* (keyLen, r) := read_uint32 r in
  let* (key, r) := io_ReadFull keyLen r in
  let* (offset, r) := read_int64 r in
  let* (length, r) := read_int32 r in
  Ok (mkIndexEntry key offset length, r).

Definition decodeIndex (file : bytes) (indexOffset numEntries : Z) : result (list IndexEntry) :=
  let* r := seek_start file indexOffset in
  read_n readIndexEntry (S (length r)) numEntries r.

Definition readFooter (file : bytes) : result (Z * Z) :=
  let* r := seek_end file (-12) in
  let* (indexOffset, r) := read_int64 r in
  let* (numEntries, r) := read_uint32 r in
  Ok (indexOffset, numEntries).

Definition readFooterWithBloom (file : bytes) : result (Z * Z * Z) :=
  let* r := seek_end file (-20) in
  let* (indexOffset, r) := read_int64 r in
  let* (numEntries, r) := read_uint32 r in
  let* (bloomOffset, r) := read_int64 r in
  Ok (indexOffset, numEntries, bloomOffset).

(** [index[mid]] *)
Definition index_at (index : list IndexEntry) (i : Z) : result IndexEntry :=
  if (0 <=? i) && (i <? blen index)
  then match index !! Z.to_nat i with Some e => Ok e | None => Panic end
  else Panic.

(** The loop of [searchIndex]; the interval [lo, hi] shrinks at every iteration, so
    [len(index) + 1] iterations are enough. *)
Fixpoint search_loop (fuel : nat) (index : list IndexEntry) (target : InternalKey)
    (lo hi res : Z) : result Z :=
  if hi <? lo then Ok res
  else
    match fuel with
    | O => Panic
    | S fuel' =>
        let mid := (lo + hi) / 2 in
        let* e := index_at index mid in
        let firstKey := DecodeInternalKey (FirstKey e) in
        if InternalCompare bytes_Compare firstKey target <=? 0
        then search_loop fuel' index target (mid + 1) hi mid
        else search_loop fuel' index target lo (mid - 1) res
    end.

Definition searchIndex (index : list IndexEntry) (key : bytes) : result Z :=
  let target := DecodeInternalKey key in
  search_loop (S (length index)) index target 0 (blen index - 1) (-1).

#[global] Arguments read_uint32 : simpl never.
#[global] Arguments read_int32 : simpl never.
#[global] Arguments read_int64 : simpl never.

(** ** Lemmas on the counted loops *)

Lemma read_n_roundtrip {A} read1 (enc : A -> bytes) l rest fuel :
  (forall e r, e ∈ l -> read1 (enc e ++ r) = Ok (e, r)) -> (length l <= fuel)%nat ->
  read_n read1 fuel (blen l) (concat (enc <$> l) ++ rest) = Ok l.
Proof.
  revert fuel. induction l as [|e l IH]; intros fuel H1 Hf; [by destruct fuel|].
  destruct fuel as [|fuel]; [simpl in Hf; lia|].
  cbn [read_n fmap list_fmap concat]. rewrite blen_cons.
  case_if; [pose proof (blen_nonneg l); lia|].
  rewrite <- app_assoc, H1 by apply list_elem_of_here. simpl.
  replace (1 + blen l - 1) with (blen l) by lia. rewrite IH; [done| |simpl in Hf; lia].
  intros e' r He'. by apply H1, list_elem_of_further.
Qed.

Lemma read_n_total {A} (read1 : bytes -> result (A * bytes)) fuel n r :
  (forall r, read1 r <> Panic) ->
  (forall r e r', read1 r = Ok (e, r') -> (length r' < length r)%nat) ->
  (length r < fuel)%nat -> read_n read1 fuel n r <> Panic.
Proof.
  intros Hp Hd. revert n r. induction fuel as [|fuel IH]; intros n r Hf; [lia|]. simpl.
  case_if; [done|]. specialize (Hp r).
  destruct (read1 r) as [[e r']| |] eqn:E1; simpl; [|done..]. apply Hd in E1.
  specialize (IH (n - 1) r' ltac:(lia)). by destruct (read_n read1 fuel (n - 1) r').
Qed.

(** A successful read consumes what it returns, and no read panics. *)
Lemma io_ReadFull_no_panic n r : io_ReadFull n r <> Panic.
Proof. unfold io_ReadFull. by repeat case_if. Qed.

Lemma io_ReadFull_len n r b r' : io_ReadFull n r = Ok (b, r') -> (length r' <= length r)%nat.
Proof. unfold io_ReadFull. repeat case_if; intros [= <- <-]; [lia|]. rewrite length_drop. lia. Qed.

Lemma read_uint32_no_panic r : read_uint32 r <> Panic.
Proof.
  unfold read_uint32. pose proof (io_ReadFull_no_panic 4 r).
  by destruct (io_ReadFull 4 r) as [[]| |].
Qed.

Lemma read_int32_no_panic r : read_int32 r <> Panic.
Proof.
  unfold read_int32. pose proof (io_ReadFull_no_panic 4 r).
  by destruct (io_ReadFull 4 r) as [[]| |].
Qed.

Lemma read_int64_no_panic r : read_int64 r <> Panic.
Proof.
  unfold read_int64. pose proof (io_ReadFull_no_panic 8 r).
  by destruct (io_ReadFull 8 r) as [[]| |].
Qed.

Lemma read_uint32_len r z r' : read_uint32 r = Ok (z, r') -> (length r' < length r)%nat.
Proof.
  unfold read_uint32. destruct (io_ReadFull 4 r) as [[b r'']| |] eqn:E1; [|done..].
  apply io_ReadFull_inv in E1 as [-> Hb]; [|lia]. simpl. intros [= _ <-].
  unfold blen in Hb. rewrite length_app. lia.
Qed.

Lemma read_int32_len r z r' : read_int32 r = Ok (z, r') -> (length r' <= length r)%nat.
Proof.
  unfold read_int32. destruct (io_ReadFull 4 r) as [[b r'']| |] eqn:E1; [|done..].
  apply io_ReadFull_len in E1. simpl. by intros [= _ <-].
Qed.

Lemma read_int64_len r z r' : read_int64 r = Ok (z, r') -> (length r' <= length r)%nat.
Proof.
  unfold read_int64. destruct (io_ReadFull 8 r) as [[b r'']| |] eqn:E1; [|done..].
  apply io_ReadFull_len in E1. simpl. by intros [= _ <-].
Qed.

(** ** Blocks *)

(** The lengths of a record fit the format's 32-bit fields. *)
Definition fits32 (e : kv) : Prop := blen (Key e) < 2 ^ 32 /\ blen (Value e) < 2 ^ 32.

Lemma writeBlockEntry_app buf es :
  foldl writeBlockEntry buf es = buf ++ concat (writeBlockEntry [] <$> es).
Proof.
  assert (Hw : forall b e, writeBlockEntry b e = b ++ writeBlockEntry [] e) by done.
  revert buf. induction es as [|e es IH]; intros buf; simpl; [by rewrite app_nil_r|].
  by rewrite IH, Hw, <- app_assoc.
Qed.

Lemma readBlockEntry_app e r :
  fits32 e -> readBlockEntry (writeBlockEntry [] e ++ r) = Ok (e, r).
Proof.
  intros [Hk Hv]. unfold writeBlockEntry, readBlockEntry. rewrite app_nil_l, <- !app_assoc.
  pose proof (blen_nonneg (Key e)). pose proof (blen_nonneg (Value e)).
  rewrite !(uwrap_small 32) by lia. rewrite read_uint32_app by lia. cbn [rbind].
  rewrite read_uint32_app by lia. cbn [rbind]. rewrite io_ReadFull_app by done. cbn [rbind].
  rewrite io_ReadFull_app by done. by destruct e.
Qed.

(** Case analysis on the reads of a decoder, the error cases closed. *)
Ltac read_step :=
  lazymatch goal with
  | |- context [rbind ?m _] =>
      let x := fresh "x" in let r := fresh "r" in let E := fresh "E" in
      destruct m as [[x r]| |] eqn:E; cbn [rbind]; try done
  end.

Ltac no_panic :=
  repeat read_step;
  match goal with
  | H : read_uint32 ?r = Panic |- _ => by destruct (read_uint32_no_panic r)
  | H : io_ReadFull ?n ?r = Panic |- _ => by destruct (io_ReadFull_no_panic n r)
  | H : read_int32 ?r = Panic |- _ => by destruct (read_int32_no_panic r)
  | H : read_int64 ?r = Panic |- _ => by destruct (read_int64_no_panic r)
  end.

Ltac consumed :=
  repeat match goal with
  | H : read_uint32 _ = Ok _ |- _ => apply read_uint32_len in H
  | H : read_int32 _ = Ok _ |- _ => apply read_int32_len in H
  | H : read_int64 _ = Ok _ |- _ => apply read_int64_len in H
  | H : io_ReadFull _ _ = Ok _ |- _ => apply io_ReadFull_len in H
  end.

Lemma readBlockEntry_no_panic r : readBlockEntry r <> Panic.
Proof. unfold readBlockEntry. no_panic. Qed.

Lemma readBlockEntry_len r e r' : readBlockEntry r = Ok (e, r') -> (length r' < length r)%nat.
Proof.
  unfold readBlockEntry. repeat read_step. intros [= _ <-].
  consumed. lia.
Qed.

(** The body of a block: what the checksum covers. *)
Definition block_body (es : list kv) : bytes := foldl writeBlockEntry (le32 (u32 (blen es))) es.

Lemma encodeBlock_split es : encodeBlock es = block_body es ++ le32 (crc32_ChecksumIEEE (block_body es)).
Proof. done. Qed.

(** [decodeBlock] on a body followed by a checksum. *)
Lemma decodeBlock_app (d c : bytes) :
  length c = 4%nat ->
  decodeBlock (d ++ c) =
    if crc32_ChecksumIEEE d =? le_combine c then
      let* (n, reader) := read_uint32 d in
      read_n readBlockEntry (S (length reader)) n reader
    else Err (Errorf "block CRC mismatch").
Proof.
  intros Hc. unfold decodeBlock. case_if; [unfold blen in *; rewrite length_app in *; lia|].
  rewrite length_app, Hc, Nat.add_sub, take_app_length, drop_app_length.
  by destruct (crc32_ChecksumIEEE d =? le_combine c).
Qed.

Lemma encodeBlock_roundtrip es :
  Forall fits32 es -> blen es < 2 ^ 32 -> decodeBlock (encodeBlock es) = Ok es.
Proof.
  intros Hes Hn. pose proof (blen_nonneg es).
  rewrite encodeBlock_split, decodeBlock_app by apply length_le32.
  pose proof (crc32_range (block_body es)).
  rewrite le_combine_le32, uwrap_small, Z.eqb_refl by lia. unfold block_body.
  rewrite writeBlockEntry_app, (uwrap_small 32) by lia. rewrite read_uint32_app by lia.
  cbn [rbind]. rewrite <- (app_nil_r (concat _)) at 2. apply read_n_roundtrip.
  - intros e r He. apply readBlockEntry_app. rewrite Forall_forall in Hes. auto.
  - transitivity (length (concat (writeBlockEntry [] <$> es))); [|lia].
    clear. induction es as [|e es IH]; [simpl; lia|]. cbn [fmap list_fmap concat length].
    rewrite length_app. unfold writeBlockEntry at 1. rewrite !length_app, !length_le32. lia.
Qed.

Lemma decodeBlock_no_panic b : decodeBlock b <> Panic.
Proof.
  unfold decodeBlock. case_if; [done|]. case_if; [done|].
  set (d := take _ b). clearbody d. pose proof (read_uint32_no_panic d).
  destruct (read_uint32 d) as [[n r]| |]; try done. simpl.
  apply (read_n_total _ (S (length r))); [apply readBlockEntry_no_panic|apply readBlockEntry_len|lia].
Qed.

(** A changed byte lies in the body or in the checksum. *)
Lemma block_split (b : bytes) :
  (4 <= length b)%nat -> exists d c, b = d ++ c /\ length c = 4%nat.
Proof.
  intros Hl. exists (take (length b - 4) b), (drop (length b - 4) b).
  rewrite take_drop, length_drop. split; [done|lia].
Qed.

Lemma le_combine_inj (a b : bytes) : length a = length b -> le_combine a = le_combine b -> a = b.
Proof. intros Hl He. rewrite <- (split_le_combine a), <- (split_le_combine b), Hl, He. done. Qed.

Lemma decodeBlock_changed (b : bytes) (i : nat) (x y : byte) es :
  decodeBlock b = Ok es -> b !! i = Some y -> x <> y ->
  decodeBlock (<[i := x]> b) = Err (Errorf "block CRC mismatch").
Proof.
  intros Hok Hi Hne.
  assert (Hl : (4 <= length b)%nat).
  { revert Hok. unfold decodeBlock. case_if; [done|]. unfold blen in *. lia. }
  destruct (block_split b Hl) as (d & c & -> & Hc). rewrite decodeBlock_app in Hok by done.
  destruct (crc32_ChecksumIEEE d =? le_combine c) eqn:Ecrc; [|done]. breflect.
  destruct (decide (i < length d)%nat) as [Hlt|Hge].
  - rewrite insert_app_l, decodeBlock_app by done. rewrite lookup_app_l in Hi by done.
    case_if; [|done]. destruct Hne.
    apply (crc32_single_byte (take i d) (drop (S i) d)).
    rewrite (take_drop_middle d i y) by done. rewrite Ecrc, <- E.
    f_equal. rewrite (insert_take_drop d i x) by done. done.
  - replace i with (length d + (i - length d))%nat by lia.
    rewrite insert_app_r, decodeBlock_app by (by rewrite length_insert).
    rewrite lookup_app_r in Hi by lia. case_if; [|done]. destruct Hne. rewrite Ecrc in E.
    apply le_combine_inj in E; [|by rewrite length_insert].
    apply (f_equal (fun l => l !! (i - length d)%nat)) in E. rewrite Hi in E.
    rewrite list_lookup_insert_eq in E by (by eapply lookup_lt_Some). congruence.
Qed.

(** ** Writing through a buffered writer *)

Section writes.
Context {W : Type} `{WL : WriterLaws W}.

(** A step of the program on a healthy buffered writer that writes [p]: either all of it
    went through, or the step reports the error; it cannot fail on a reliable file. *)
Definition writes (b : bufio_Writer W) (r : bufio_Writer W * option goerror) (p : bytes) : Prop :=
  bw_err b = None ->
  forall s, stream_ok b s ->
    stream_ok r.1 (s ++ p) /\ r.2 = bw_err r.1 /\ (Reliable W -> r.2 = None).

Lemma writes_nil b : writes b (b, None) [].
Proof. intros E s Hs. rewrite app_nil_r. simpl. done. Qed.

Lemma writes_Write b p : writes b (bufio_Write b p) p.
Proof.
  intros E s Hs. pose proof (bufio_Write_stream b p s Hs) as Hw.
  assert (Hr : Reliable W -> (bufio_Write b p).2 = None).
  { intros HR. by eapply bufio_Write_reliable. }
  by destruct (bufio_Write b p) as [b' e], Hw.
Qed.

(** Two steps in sequence, the second skipped when the first fails. *)
Lemma writes_bind b r1 (f : bufio_Writer W -> bufio_Writer W * option goerror) p1 p2 :
  writes b r1 p1 -> writes r1.1 (f r1.1) p2 ->
  writes b (match r1 with (w', Some e) => (w', Some e) | (w', None) => f w' end) (p1 ++ p2).
Proof.
  intros H1 H2 E s Hs. destruct (H1 E s Hs) as (Hs1 & He & Hr).
  destruct r1 as [w1 [e|]]; simpl in *.
  - split; [|done]. rewrite app_assoc. eapply stream_ok_err, Hs1; [by rewrite <- He|by eexists].
  - rewrite app_assoc. by apply H2.
Qed.

Lemma writes_seq b ps : writes b (write_seq b ps) (concat ps).
Proof.
  revert b. induction ps as [|p ps IH]; intros b; simpl; [apply writes_nil|].
  apply (writes_bind b (bufio_Write b p) (fun w => write_seq w ps)); [apply writes_Write|apply IH].
Qed.

Lemma writes_reliable `{HR : !Reliable W} b r p :
  writes b r p -> bw_err b = None -> forall s, stream_ok b s ->
  exists b', r = (b', None) /\ bw_err b' = None /\ stream_ok b' (s ++ p).
Proof.
  intros Hw E s Hs. destruct (Hw E s Hs) as (Hs' & He & Hr). destruct r as [b' e]. simpl in *.
  specialize (Hr HR). exists b'. split; [congruence|]. split; [congruence|done].
Qed.

(** What a flush of a healthy writer on a reliable file leaves in the file. *)
Lemma flushed `{!Reliable W} b s :
  bw_err b = None -> stream_ok b s -> on_file (bw_wr (bufio_Flush b).1) = s.
Proof.
  intros E Hs. pose proof (bufio_Flush_stream b s Hs) as Hf.
  pose proof (bufio_Flush_reliable b s Hs E) as Hr.
  destruct (bufio_Flush b) as [b' e]. destruct Hf as (_ & He & Hfile). simpl in *.
  apply Hfile. by rewrite He.
Qed.

(** The bytes of an index section. *)
Definition index_bytes (l : list IndexEntry) : bytes :=
  concat ((fun idx => concat (index_fields idx)) <$> l).

Lemma writes_encodeIndex b l : writes b (encodeIndex b l) (index_bytes l).
Proof.
  revert b. induction l as [|idx l IH]; intros b; [apply writes_nil|].
  cbn [encodeIndex].
  change (index_bytes (idx :: l)) with (concat (index_fields idx) ++ index_bytes l).
  apply (writes_bind b _ (fun w => encodeIndex w l));
    [apply writes_seq|apply IH].
Qed.
End writes.

(** ** Reading the index and the footer *)

Definition fits_index (idx : IndexEntry) : Prop :=
  blen (FirstKey idx) < 2 ^ 32 /\ 0 <= Offset idx < 2 ^ 63 /\ 0 <= Length idx < 2 ^ 31.

Lemma readIndexEntry_app idx r :
  fits_index idx -> readIndexEntry (concat (index_fields idx) ++ r) = Ok (idx, r).
Proof.
  intros (Hk & Ho & Hl). unfold readIndexEntry, index_fields. cbn [concat].
  rewrite app_nil_r, <- !app_assoc. pose proof (blen_nonneg (FirstKey idx)).
  rewrite (uwrap_small 32) by lia. rewrite read_uint32_app by lia. cbn [rbind].
  rewrite io_ReadFull_app by done. cbn [rbind]. rewrite read_int64_app by lia. cbn [rbind].
  rewrite read_int32_app by lia. by destruct idx.
Qed.

Lemma readIndexEntry_no_panic r : readIndexEntry r <> Panic.
Proof. unfold readIndexEntry. no_panic. Qed.

Lemma readIndexEntry_len r e r' : readIndexEntry r = Ok (e, r') -> (length r' < length r)%nat.
Proof.
  unfold readIndexEntry. repeat read_step. intros [= _ <-].
  consumed. lia.
Qed.

Lemma seek_start_app (a b : bytes) : seek_start (a ++ b) (blen a) = Ok b.
Proof.
  unfold seek_start. pose proof (blen_nonneg a). pose proof (blen_nonneg b).
  case_if; [lia|]. rewrite blen_app, Z.min_l by lia. unfold blen. by rewrite Nat2Z.id, drop_app_length.
Qed.

Lemma seek_end_app (a b : bytes) n : blen b = n -> seek_end (a ++ b) (- n) = Ok b.
Proof.
  intros <-. unfold seek_end. rewrite blen_app.
  replace (blen a + blen b + - blen b) with (blen a) by lia. apply seek_start_app.
Qed.

Lemma decodeIndex_app (pre rest : bytes) l :
  Forall fits_index l ->
  decodeIndex (pre ++ index_bytes l ++ rest) (blen pre) (blen l) = Ok l.
Proof.
  intros Hl. unfold decodeIndex. rewrite seek_start_app. cbn [rbind].
  apply (read_n_roundtrip _ (fun idx => concat (index_fields idx))).
  - intros e r He. apply readIndexEntry_app. rewrite Forall_forall in Hl. auto.
  - transitivity (length (index_bytes l)); [|rewrite length_app; lia]. clear.
    induction l as [|idx l IH]; [simpl; lia|]. unfold index_bytes in *.
    cbn [fmap list_fmap concat length]. rewrite length_app. unfold index_fields at 1.
    cbn [concat]. rewrite !length_app, !length_le32. lia.
Qed.

Lemma readFooterWithBloom_app (pre : bytes) io n bo :
  0 <= io < 2 ^ 63 -> 0 <= n < 2 ^ 32 -> 0 <= bo < 2 ^ 63 ->
  readFooterWithBloom (pre ++ le64 io ++ le32 n ++ le64 bo) = Ok (io, n, bo).
Proof.
  intros H1 H2 H3. unfold readFooterWithBloom. rewrite (seek_end_app _ _ 20).
  - cbn [rbind]. rewrite read_int64_app by lia. cbn [rbind].
    rewrite read_uint32_app by lia. cbn [rbind]. rewrite <- (app_nil_r (le64 bo)).
    by rewrite read_int64_app by lia.
  - by autorewrite with hcdb.
Qed.

Lemma readFooter_app (pre : bytes) io n :
  0 <= io < 2 ^ 63 -> 0 <= n < 2 ^ 32 -> readFooter (pre ++ le64 io ++ le32 n) = Ok (io, n).
Proof.
  intros H1 H2. unfold readFooter. rewrite (seek_end_app _ _ 12).
  - cbn [rbind]. rewrite read_int64_app by lia. cbn [rbind].
    rewrite <- (app_nil_r (le32 n)). by rewrite read_uint32_app by lia.
  - by autorewrite with hcdb.
Qed.

(** ** The binary search *)

Lemma index_at_Some index i e : index !! i = Some e -> index_at index (Z.of_nat i) = Ok e.
Proof.
  intros Hi. pose proof (lookup_lt_Some _ _ _ Hi). unfold index_at, blen.
  rewrite (proj2 (Z.leb_le _ _)), (proj2 (Z.ltb_lt _ _)) by lia. simpl. by rewrite Nat2Z.id, Hi.
Qed.

(** What holds of the blocks outside [lo, hi]. *)
Definition search_inv (index : list IndexEntry) (key : bytes) (lo hi : Z) : Prop :=
  forall j e, index !! j = Some e ->
    (Z.of_nat j < lo -> kcmp (FirstKey e) key <= 0) /\ (hi < Z.of_nat j -> 0 < kcmp (FirstKey e) key).

Definition index_sorted (index : list IndexEntry) : Prop :=
  forall i j a b, (i <= j)%nat -> index !! i = Some a -> index !! j = Some b ->
    kcmp (FirstKey a) (FirstKey b) <= 0.

Lemma search_loop_spec index key fuel lo hi :
  0 <= lo -> hi < blen index -> lo <= hi + 1 -> hi - lo + 1 <= Z.of_nat fuel ->
  exists i, search_loop fuel index (DecodeInternalKey key) lo hi (lo - 1) = Ok i
    /\ -1 <= i < blen index
    /\ (index_sorted index -> search_inv index key lo hi -> search_inv index key (i + 1) i).
Proof.
  revert lo hi. induction fuel as [|fuel IH]; intros lo hi Hlo Hhi Hle Hf; simpl.
  { case_if; [|lia]. exists (lo - 1). split; [done|]. split; [lia|].
    intros _ Hinv. replace hi with (lo - 1) in Hinv by lia. by replace (lo - 1 + 1) with lo by lia. }
  case_if.
  { exists (lo - 1). split; [done|]. split; [lia|].
    intros _ Hinv. replace hi with (lo - 1) in Hinv by lia. by replace (lo - 1 + 1) with lo by lia. }
  assert (Hmid : lo <= (lo + hi) / 2 <= hi) by (split; [apply Z.div_le_lower_bound|
    apply Z.div_le_upper_bound]; lia).
  set (mid := (lo + hi) / 2) in *. clearbody mid.
  destruct (lookup_lt_is_Some_2 index (Z.to_nat mid)) as [e He]; [unfold blen in *; lia|].
  pose proof (index_at_Some _ _ _ He) as Hat. rewrite Z2Nat.id in Hat by lia.
  rewrite Hat. cbn [rbind]. fold (kcmp (FirstKey e) key). case_if.
  - destruct (IH (mid + 1) hi) as (i & Heq & Hi & Hinv); [lia..|].
    replace (mid + 1 - 1) with mid in Heq by lia. rewrite Heq.
    exists i. split; [done|]. split; [done|]. intros Hs Hin. apply Hinv; [done|].
    intros j a Ha. split; [|by apply (Hin j a Ha)]. intros Hj.
    eapply (cmp_le_trans (InternalCompare bytes_Compare)); [|exact E0].
    apply (Hs j (Z.to_nat mid) a e); [lia|done..].
  - destruct (IH lo (mid - 1)) as (i & -> & Hi & Hinv); [lia..|].
    exists i. split; [done|]. split; [done|]. intros Hs Hin. apply Hinv; [done|].
    intros j a Ha. split; [by apply (Hin j a Ha)|]. intros Hj.
    destruct (Z.lt_ge_cases 0 (kcmp (FirstKey a) key)) as [|Hc]; [done|].
    assert (kcmp (FirstKey e) key <= 0); [|lia].
    eapply (cmp_le_trans (InternalCompare bytes_Compare)); [|exact Hc].
    apply (Hs (Z.to_nat mid) j e a); [lia|done..].
Qed.

Lemma searchIndex_ok index key :
  exists i, searchIndex index key = Ok i /\ -1 <= i < blen index
    /\ (index_sorted index ->
        forall j e, index !! j = Some e -> (kcmp (FirstKey e) key <= 0 <-> Z.of_nat j <= i)).
Proof.
  destruct (search_loop_spec index key (S (length index)) 0 (blen index - 1)) as (i & Hl & Hi & Hs);
    [unfold blen; lia..|].
  exists i. split; [exact Hl|]. split; [done|]. intros Hsort j e Hj.
  assert (search_inv index key 0 (blen index - 1)) as Hinit.
  { intros j' e' Hj'. apply lookup_lt_Some in Hj'. unfold blen. lia. }
  destruct (Hs Hsort Hinit j e Hj) as [H1 H2]. split; [|intros; apply H1; lia].
  intros Hle. destruct (decide (Z.of_nat j <= i)); [done|]. specialize (H2 ltac:(lia)). lia.
Qed.

(** ** Properties *)

(** Block round trip. Every list of records whose lengths fit the format is read back
    exactly from its encoded block. *)
Theorem block_roundtrip (es : list kv) :
  Forall fits32 es -> blen es < 2 ^ 32 -> decodeBlock (encodeBlock es) = Ok es.
Proof. apply encodeBlock_roundtrip. Qed.

Definition demo_entries : list kv :=
  [mkKV (bytes_of "apple+trailer") (bytes_of "red"); mkKV (bytes_of "pear+trailer") []].

Lemma block_roundtrip_witness : decodeBlock (encodeBlock demo_entries) = Ok demo_entries.
Proof.
  apply (block_roundtrip demo_entries); [|vm_compute; reflexivity].
  repeat constructor; vm_compute; reflexivity.
Defined.

(** C23: corruption detection. Changing any one byte of a block that decodes, in the body or
    in the checksum, makes [decodeBlock] fail with the checksum error. *)
Theorem block_corruption_detected (b : bytes) (i : nat) (x y : byte) (es : list kv) :
  decodeBlock b = Ok es -> b !! i = Some y -> x <> y ->
  decodeBlock (<[i := x]> b) = Err (Errorf "block CRC mismatch").
Proof. apply decodeBlock_changed. Qed.

Lemma block_corruption_detected_witness :
  decodeBlock (<[4%nat := Byte.x00]> (encodeBlock demo_entries)) = Err (Errorf "block CRC mismatch").
Proof.
  apply (block_corruption_detected _ 4 Byte.x00 Byte.x0d demo_entries);
    [vm_compute; reflexivity|vm_compute; reflexivity|congruence].
Defined.

(** Decoding terminates on every input. Whatever bytes a block, an index section or a
    footer holds, the reader returns a value or an error: it neither panics nor runs out of
    the iterations its input allows. *)
Theorem decoders_total (b : bytes) (off n : Z) :
  decodeBlock b <> Panic /\ decodeIndex b off n <> Panic /\ readFooterWithBloom b <> Panic.
Proof.
  split; [apply decodeBlock_no_panic|]. split.
  - unfold decodeIndex, seek_start. case_if; [done|]. cbn [rbind]. apply read_n_total;
      [apply readIndexEntry_no_panic|apply readIndexEntry_len|lia].
  - unfold readFooterWithBloom, seek_end, seek_start. case_if; [done|]. cbn [rbind]. no_panic.
Qed.

(** The index and the footers are read back as written. An index section and a footer
    written behind any file contents go through without an error, and once flushed the index
    is decoded from its offset and the footer from the end of the file. *)
Theorem index_footer_roundtrip (pre : bytes) (l : list IndexEntry) (io n bo : Z) :
  Forall fits_index l -> 0 <= io < 2 ^ 63 -> 0 <= n < 2 ^ 32 -> 0 <= bo < 2 ^ 63 ->
  exists w wb wf, encodeIndex (bufio_NewWriter (mkFile pre 0)) l = (w, None)
    /\ encodeFooterWithBloom w io n bo = (wb, None) /\ encodeFooter w io n = (wf, None)
    /\ decodeIndex (fdata (bw_wr (bufio_Flush wb).1)) (blen pre) (blen l) = Ok l
    /\ readFooterWithBloom (fdata (bw_wr (bufio_Flush wb).1)) = Ok (io, n, bo)
    /\ readFooter (fdata (bw_wr (bufio_Flush wf).1)) = Ok (io, n).
Proof.
  intros Hl Hio Hn Hbo.
  destruct (writes_reliable _ _ _ (writes_encodeIndex (bufio_NewWriter (mkFile pre 0)) l) eq_refl
    _ (stream_ok_new (mkFile pre 0))) as (w & Hw & Ew & Hs). exists w.
  destruct (writes_reliable _ _ _ (writes_seq w [le64 io; le32 n; le64 bo]) Ew _ Hs)
    as (wb & Hwb & Ewb & Hsb). exists wb.
  destruct (writes_reliable _ _ _ (writes_seq w [le64 io; le32 n]) Ew _ Hs)
    as (wf & Hwf & Ewf & Hsf). exists wf.
  split; [done|]. split; [done|]. split; [done|].
  pose proof (flushed _ _ Ewb Hsb) as Hfb. pose proof (flushed _ _ Ewf Hsf) as Hff.
  cbn [on_file os_File_WriterLaws concat] in Hfb, Hff. rewrite app_nil_r in Hfb, Hff.
  rewrite Hfb, Hff. cbn [fdata].
  split; [|split; [by apply readFooterWithBloom_app|by apply readFooter_app]].
  rewrite <- app_assoc. by apply decodeIndex_app.
Qed.

Definition demo_index : list IndexEntry :=
  [mkIndexEntry (bytes_of "a+trailer") 0 40; mkIndexEntry (bytes_of "m+trailer") 40 77].

Lemma index_footer_roundtrip_witness :
  exists w wb wf, encodeIndex (bufio_NewWriter (mkFile (bytes_of "blocks") 0)) demo_index = (w, None)
    /\ encodeFooterWithBloom w 6 2 99 = (wb, None) /\ encodeFooter w 6 2 = (wf, None)
    /\ decodeIndex (fdata (bw_wr (bufio_Flush wb).1)) 6 2 = Ok demo_index
    /\ readFooterWithBloom (fdata (bw_wr (bufio_Flush wb).1)) = Ok (6, 2, 99)
    /\ readFooter (fdata (bw_wr (bufio_Flush wf).1)) = Ok (6, 2).
Proof.
  apply (index_footer_roundtrip (bytes_of "blocks") demo_index 6 2 99); try lia.
  repeat constructor; vm_compute; congruence.
Defined.

(** The binary search over the block index. On every index and key the search ends
    with a position in range (or -1); on a sorted index it is the last block whose first key
    is not after the key, so exactly the blocks up to it start at or before the key. *)
Theorem search_index_spec (index : list IndexEntry) (key : bytes) :
  exists i, searchIndex index key = Ok i /\ -1 <= i < blen index
    /\ (index_sorted index ->
        forall j e, index !! j = Some e -> (kcmp (FirstKey e) key <= 0 <-> Z.of_nat j <= i)).
Proof. apply searchIndex_ok. Qed.
