(* ===== verification/Fs.v ===== *)
(** * The file system

    What the SSTable writers, the compactor and [db.Open] use of package [os] and of
    [fmt.Sprintf]: a map from paths to regular files and directories, creation, renaming,
    removal and listing of files, and the names [<dir>/<UnixNano>.sst].

    Reading and inspecting existing files does not fail; writing goes through a [Bufio.Writer],
    which may be a faulty one, and its [sys_error] is the error of opening, renaming, removing
    or syncing the file. *)

From stdpp Require Import pretty.
From S2P Require Import Prelude Bufio.

(** ** Text formatting *)

(** [fmt.Sprintf] with the verb [%d]. *)
Definition fmt_d (z : Z) : bytes := bytes_of (pretty z).

Definition slash : byte := Byte.x2f.
Definition dot_sst : bytes := bytes_of ".sst".
Definition dot_tmp : bytes := bytes_of ".tmp".

(** [fmt.Sprintf("%s/%d.sst", dirPath, t)] *)
Definition sst_path (dirPath : bytes) (t : Z) : bytes :=
  dirPath ++ slash :: fmt_d t ++ dot_sst.

(** ** Files *)

Inductive node := File (data : bytes) | Dir.

#[global] Instance node_eq_dec : EqDecision node.
Proof. solve_decision. Defined.

Abbreviation FS := (gmap bytes node).

(** [os.Open] followed by reads: a directory can be opened but not read. *)
Definition os_Open (fs : FS) (path : bytes) : result bytes :=
  match fs !! path with
  | Some (File d) => Ok d
  | Some Dir => Err (Errorf "is a directory")
  | None => Err ErrNotExist
  end.

(** The part of a path before its last separator ([filepath.Dir] on the cleaned paths the
    program builds). *)
Fixpoint drop_last_elem (rev : bytes) : bytes :=
  match rev with
  | [] => []
  | c :: rest => if decide (c = slash) then rest else drop_last_elem rest
  end.
Definition filepath_Dir (path : bytes) : bytes := reverse (drop_last_elem (reverse path)).

(** [os.OpenFile(path, os.O_CREATE|os.O_RDWR, 0644)]: the old contents are kept (there is no
    [O_TRUNC]) and the file position is 0. *)
Definition os_OpenFile (fs : FS) (path : bytes) : result (FS * bytes) :=
  match fs !! path with
  | Some (File old) => Ok (fs, old)
  | Some Dir => Err (Errorf "is a directory")
  | None =>
      match fs !! filepath_Dir path with
      | Some Dir => Ok (<[path := File []]> fs, [])
      | _ => Err ErrNotExist
      end
  end.

(** The contents of a file with contents [old] after [written] was written from position 0. *)
Definition overwrite (old written : bytes) : bytes := written ++ drop (length written) old.

Definition os_Rename (fs : FS) (old new : bytes) : FS * option goerror :=
  match fs !! old, fs !! new with
  | None, _ => (fs, Some ErrNotExist)
  | Some _, Some Dir => (fs, Some (Errorf "file exists"))
  | Some n, _ => (<[new := n]> (delete old fs), None)
  end.

Definition os_Remove (fs : FS) (path : bytes) : FS * option goerror :=
  match fs !! path with
  | None => (fs, Some ErrNotExist)
  | Some Dir => (fs, Some (Errorf "directory not empty"))
  | Some (File _) => (delete path fs, None)
  end.

(** *** Calls that the disk may fail *)

(** [f] is the file that the call is about, on a disk with its faults. *)
Definition disk_OpenFile {W} `{Writer W} (f : W) (fs : FS) (path : bytes) : result (FS * bytes) :=
  match sys_error f OpOpen with Some e => Err e | None => os_OpenFile fs path end.

Definition disk_Rename {W} `{Writer W} (f : W) (fs : FS) (old new : bytes) : FS * option goerror :=
  match sys_error f OpRename with Some e => (fs, Some e) | None => os_Rename fs old new end.

Definition disk_Remove {W} `{Writer W} (f : W) (fs : FS) (path : bytes) : FS * option goerror :=
  match sys_error f OpRemove with Some e => (fs, Some e) | None => os_Remove fs path end.

(** [os.Open(dir)] and [dir.Sync()] *)
Definition disk_SyncDir {W} `{Writer W} (f : W) (fs : FS) (dir : bytes) : option goerror :=
  match fs !! dir with None => Some ErrNotExist | Some _ => sys_error f OpSyncDir end.

(** [os.Stat(path).Size()] *)
Definition os_Stat (fs : FS) (path : bytes) : result Z :=
  match fs !! path with
  | Some (File d) => Ok (blen d)
  | Some Dir => Ok 4096
  | None => Err ErrNotExist
  end.

Definition os_MkdirAll (fs : FS) (path : bytes) : FS * option goerror :=
  match fs !! path with
  | Some (File _) => (fs, Some (Errorf "not a directory"))
  | _ => (<[path := Dir]> fs, None)
  end.

(** ** Listing a directory *)

(** The name of [path] in [dir], if it is directly inside it. *)
Fixpoint strip_prefix (pre path : bytes) : option bytes :=
  match pre, path with
  | [], p => Some p
  | c :: pre', d :: path' => if decide (c = d) then strip_prefix pre' path' else None
  | _ :: _, [] => None
  end.

Definition name_in (dir path : bytes) : option bytes :=
  match strip_prefix (dir ++ [slash]) path with
  | Some n => if decide (slash ∈ n \/ n = []) then None else Some n
  | None => None
  end.

(** [os.ReadDir(dir)], in an unspecified order (its caller sorts it). *)
Definition os_ReadDir (fs : FS) (dir : bytes) : result (list (bytes * node)) :=
  match fs !! dir with
  | Some Dir =>
      Ok (omap (fun '(path, n) => name ← name_in dir path; Some (name, n)) (map_to_list fs))
  | Some (File _) => Err (Errorf "not a directory")
  | None => Err ErrNotExist
  end.

(** ** Lemmas *)

Lemma bytes_of_inj s t : bytes_of s = bytes_of t -> s = t.
Proof.
  unfold bytes_of. intros H. apply (f_equal String.string_of_list_byte) in H.
  by rewrite !String.string_of_list_byte_of_string in H.
Qed.

Lemma fmt_d_inj a b : fmt_d a = fmt_d b -> a = b.
Proof. unfold fmt_d. intros H%bytes_of_inj. by apply (inj pretty) in H. Qed.

Lemma strip_prefix_app pre p : strip_prefix pre (pre ++ p) = Some p.
Proof. induction pre as [|c pre IH]; simpl; [done|]. by rewrite decide_True. Qed.

Lemma strip_prefix_Some pre path p : strip_prefix pre path = Some p -> path = pre ++ p.
Proof.
  revert path. induction pre as [|c pre IH]; intros [|d path]; simpl; [congruence..|].
  case_decide; [|done]. subst d. intros H%IH. by rewrite H.
Qed.

(** *** The characters of a decimal number *)

Definition decimal_char (b : byte) : Prop :=
  b = Byte.x2d \/ (48 <= byte.unsigned b <= 57).

Lemma bytes_of_String c s : bytes_of (String c s) = Ascii.byte_of_ascii c :: bytes_of s.
Proof. done. Qed.

Lemma pretty_N_char_decimal x : decimal_char (Ascii.byte_of_ascii (pretty_N_char x)).
Proof.
  right. unfold pretty_N_char. repeat case_match; vm_compute; split; congruence.
Qed.

Lemma pretty_N_go_decimal x s :
  Forall decimal_char (bytes_of s) -> Forall decimal_char (bytes_of (pretty_N_go x s)).
Proof.
  revert s. induction (N.lt_wf_0 x) as [x _ IH]; intros s Hs.
  destruct (decide (x = 0%N)) as [->|Hx]; [by rewrite pretty_N_go_0|].
  rewrite pretty_N_go_step by lia. apply IH; [apply N.div_lt; lia|].
  rewrite bytes_of_String. constructor; [apply pretty_N_char_decimal|done].
Qed.

Lemma pretty_N_decimal (x : N) : Forall decimal_char (bytes_of (pretty x)).
Proof.
  unfold pretty, pretty_N. case_decide; [|apply pretty_N_go_decimal; constructor].
  constructor; [|constructor]. right. vm_compute. split; congruence.
Qed.

Lemma fmt_d_decimal z : Forall decimal_char (fmt_d z).
Proof.
  unfold fmt_d, pretty, pretty_Z. destruct z as [|p|p].
  - constructor; [|constructor]. right. vm_compute. split; congruence.
  - apply (pretty_N_decimal (Npos p)).
  - constructor; [by left|]. apply (pretty_N_decimal (Npos p)).
Qed.

Lemma fmt_d_no_char z b : ~ decimal_char b -> b ∉ fmt_d z.
Proof. intros Hb Hin. pose proof (fmt_d_decimal z) as H. rewrite Forall_forall in H. auto. Qed.

(** Splitting at the last occurrence of a separator is unambiguous. *)
Lemma split_last_inj {A} (x : A) (a b c d : list A) :
  x ∉ b -> x ∉ d -> a ++ x :: b = c ++ x :: d -> a = c /\ b = d.
Proof.
  revert c. induction a as [|y a IH]; intros [|z c] Hb Hd Heq; simpl in *.
  - by injection Heq.
  - injection Heq as -> ->. destruct Hb. apply elem_of_app. right. apply list_elem_of_here.
  - injection Heq as -> <-. destruct Hd. apply elem_of_app. right. apply list_elem_of_here.
  - injection Heq as -> Heq. destruct (IH c Hb Hd Heq) as [-> ->]. done.
Qed.

Lemma sst_path_inj dir s t : sst_path dir s = sst_path dir t -> s = t.
Proof.
  unfold sst_path. intros H%app_inv_head. injection H as H%app_inv_tail. by apply fmt_d_inj.
Qed.

(** The directory of a file [<dir>/<name>] is [<dir>]. *)
Lemma drop_last_elem_app (n r : bytes) : slash ∉ n -> drop_last_elem (n ++ slash :: r) = r.
Proof.
  induction n as [|c n IH]; intros Hn; cbn [app drop_last_elem]; [by rewrite decide_True|].
  rewrite decide_False; [|intros ->; apply Hn, list_elem_of_here].
  apply IH. intros Hin. by apply Hn, list_elem_of_further.
Qed.

Lemma filepath_Dir_app (d n : bytes) : slash ∉ n -> filepath_Dir (d ++ slash :: n) = d.
Proof.
  intros Hn. unfold filepath_Dir. rewrite reverse_app, reverse_cons, <- app_assoc. simpl.
  rewrite drop_last_elem_app; [by rewrite reverse_involutive|]. by rewrite elem_of_reverse.
Qed.

Lemma sst_name_no_slash t : slash ∉ fmt_d t ++ dot_sst.
Proof.
  rewrite elem_of_app. intros [H|H].
  - apply (fmt_d_no_char t slash); [|done]. intros [?|[Hr _]]; [done|]. by vm_compute in Hr.
  - by apply (bool_decide_eq_true_2 (slash ∈ dot_sst)) in H.
Qed.

Lemma sst_path_dir dir t : filepath_Dir (sst_path dir t) = dir.
Proof. apply filepath_Dir_app, sst_name_no_slash. Qed.

Lemma sst_tmp_dir dir t : filepath_Dir (sst_path dir t ++ dot_tmp) = dir.
Proof.
  unfold sst_path. rewrite <- app_assoc. simpl. apply filepath_Dir_app.
  rewrite elem_of_app. intros [H|H]; [by apply sst_name_no_slash in H|].
  by apply (bool_decide_eq_true_2 (slash ∈ dot_tmp)) in H.
Qed.

Lemma name_in_sst dir t : name_in dir (sst_path dir t) = Some (fmt_d t ++ dot_sst).
Proof.
  unfold name_in, sst_path.
  replace (dir ++ slash :: fmt_d t ++ dot_sst) with ((dir ++ [slash]) ++ fmt_d t ++ dot_sst)
    by (by rewrite <- app_assoc).
  rewrite strip_prefix_app, decide_False; [done|]. intros [H|H]; [by apply sst_name_no_slash in H|].
  apply app_nil in H as [_ H]. done.
Qed.
