(* ===== verification/Decimal.v ===== *)
(** * The order of decimal numerals

    Table files are named by a clock reading in decimal, and [OpenAllInDir] orders them by
    name. Numerals with the same number of digits are ordered as their numbers. *)

From stdpp Require Import pretty.
From S2P Require Import Prelude Bufio Fs.

(** ** Comparing byte strings *)

Lemma bytes_Compare_app_l (p a b : bytes) : bytes_Compare (p ++ a) (p ++ b) = bytes_Compare a b.
Proof. induction p as [|x p IH]; [done|]. cbn [app]. rewrite bytes_Compare_cons. by rewrite decide_True. Qed.

(** The first difference decides. *)
Lemma bytes_Compare_app_lt (a b u v : bytes) :
  length a = length b -> bytes_Compare a b < 0 -> bytes_Compare (a ++ u) (b ++ v) < 0.
Proof.
  revert b. induction a as [|x a IH]; intros [|y b] Hl; [done..|]. cbn [app].
  rewrite !bytes_Compare_cons. case_decide; [|done]. apply IH. by injection Hl.
Qed.

(** ** The digits of a number *)

Definition digit (x : N) : byte := Ascii.byte_of_ascii (pretty_N_char (x mod 10)).
Definition digits (x : N) : bytes := bytes_of (pretty_N_go x "").

Lemma pretty_N_go_digits x s : bytes_of (pretty_N_go x s) = digits x ++ bytes_of s.
Proof.
  unfold digits. revert s. induction (N.lt_wf_0 x) as [x _ IH]; intros s.
  destruct (decide (x = 0%N)) as [->|Hx]; [by rewrite !pretty_N_go_0|].
  rewrite (pretty_N_go_step x s), (pretty_N_go_step x "") by lia. assert ((x `div` 10 < x)%N) by (apply N.div_lt; lia).
  rewrite (IH _ ltac:(done) (String _ s)), (IH _ ltac:(done) (String _ "")), !bytes_of_String.
  by rewrite <- app_assoc.
Qed.

Lemma digits_step x : (0 < x)%N -> digits x = digits (x / 10) ++ [digit x].
Proof.
  intros Hx. unfold digits at 1. rewrite pretty_N_go_step by lia.
  by rewrite pretty_N_go_digits, bytes_of_String.
Qed.

Lemma digit_lt x y : (x mod 10 < y mod 10)%N -> bytes_Compare [digit x] [digit y] < 0.
Proof.
  intros Hlt. pose proof (N.mod_lt y 10 ltac:(done)). unfold digit.
  generalize dependent (x mod 10)%N. generalize dependent (y mod 10)%N. intros b Hb a Hab.
  assert (Hcase : forall n, (n < 10)%N -> n = 0%N \/ n = 1%N \/ n = 2%N \/ n = 3%N \/ n = 4%N
    \/ n = 5%N \/ n = 6%N \/ n = 7%N \/ n = 8%N \/ n = 9%N) by lia.
  destruct (Hcase a ltac:(lia)) as [->|[->|[->|[->|[->|[->|[->|[->|[->| ->]]]]]]]]];
    destruct (Hcase b Hb) as [->|[->|[->|[->|[->|[->|[->|[->|[->| ->]]]]]]]]]; try lia; vm_compute; done.
Qed.

Lemma digits_length k x : (10 ^ N.of_nat k <= x < 10 ^ N.of_nat (S k))%N -> length (digits x) = S k.
Proof.
  revert x. induction k as [|k IH]; intros x Hx.
  - change (10 ^ N.of_nat 0)%N with 1%N in Hx. change (10 ^ N.of_nat 1)%N with 10%N in Hx.
    rewrite digits_step by lia. by rewrite N.div_small by lia.
  - rewrite !Nat2N.inj_succ, !N.pow_succ_r' in Hx. rewrite Nat2N.inj_succ, N.pow_succ_r' in IH.
    rewrite digits_step, length_app by lia. rewrite IH; [simpl; lia|].
    split; [apply N.div_le_lower_bound; lia|apply N.Div0.div_lt_upper_bound; lia].
Qed.

Lemma digits_lt k x y :
  (10 ^ N.of_nat k <= x)%N -> (x < y)%N -> (y < 10 ^ N.of_nat (S k))%N ->
  bytes_Compare (digits x) (digits y) < 0.
Proof.
  revert x y. induction k as [|k IH]; intros x y Hx Hlt Hy.
  - change (10 ^ N.of_nat 0)%N with 1%N in Hx. change (10 ^ N.of_nat 1)%N with 10%N in Hy.
    rewrite (digits_step x), (digits_step y), !N.div_small by lia. apply digit_lt. rewrite !N.mod_small by lia. done.
  - rewrite (digits_step x), (digits_step y) by lia.
    assert (Hpx : (10 ^ N.of_nat k <= x / 10)%N).
    { rewrite Nat2N.inj_succ, N.pow_succ_r' in Hx. apply N.div_le_lower_bound; lia. }
    assert (Hpy : (y / 10 < 10 ^ N.of_nat (S k))%N).
    { rewrite (Nat2N.inj_succ (S k)), N.pow_succ_r' in Hy. apply N.Div0.div_lt_upper_bound; lia. }
    pose proof (N.Div0.div_le_mono x y 10 ltac:(lia)) as Hle.
    destruct (decide (x / 10 = y / 10)%N) as [Heq|Hne].
    + rewrite Heq, bytes_Compare_app_l. apply digit_lt.
      pose proof (N.div_mod x 10 ltac:(done)). pose proof (N.div_mod y 10 ltac:(done)). lia.
    + apply bytes_Compare_app_lt; [|apply IH; lia]. rewrite !(digits_length k) by lia. done.
Qed.

Lemma fmt_d_digits t : 0 < t -> fmt_d t = digits (Z.to_N t).
Proof. intros Ht. destruct t as [|p|p]; [lia| |lia]. done. Qed.

(** Clock readings with the same number of digits. *)
Definition same_decade (lo hi : Z) : Prop :=
  exists k, 10 ^ Z.of_nat k <= lo /\ hi < 10 ^ Z.of_nat (S k).

Lemma fmt_d_lt lo hi s t :
  same_decade lo hi -> lo <= s -> s < t -> t <= hi ->
  bytes_Compare (fmt_d s) (fmt_d t) < 0 /\ length (fmt_d s) = length (fmt_d t).
Proof.
  intros (k & Hlo & Hhi) Hs Hst Ht. pose proof (Z.pow_pos_nonneg 10 (Z.of_nat k) ltac:(lia) ltac:(lia)).
  assert (Hb : forall x, lo <= x <= hi ->
    (10 ^ N.of_nat k <= Z.to_N x)%N /\ (Z.to_N x < 10 ^ N.of_nat (S k))%N).
  { intros x Hx. rewrite <- !nat_N_Z in Hlo, Hhi. change 10 with (Z.of_N 10) in Hlo, Hhi.
    rewrite <- !N2Z.inj_pow in Hlo, Hhi. lia. }
  destruct (Hb s ltac:(lia)) as [Hs1 Hs2], (Hb t ltac:(lia)) as [Ht1 Ht2].
  rewrite !fmt_d_digits by lia. split.
  - apply (digits_lt k); lia.
  - rewrite !(digits_length k) by lia. done.
Qed.
