(* ===== verification/Sstable.v ===== *)
(** * Writing and opening SSTables ([src/sstable])

    [write_block_collector.go], [writer.go], [write_from_entries.go], [atomic_install.go]:
    both writers, from records to an installed file; [reader.go]: opening one table and all
    the tables of a directory.

    The file a writer fills is any [Bufio.Writer], so that write errors are part of the
    model; a failed write leaves the directory as it was. The theorems: the two writers
    produce the same file; the file's sections are where the index and the footer say; and
    [Open] reads back the index and the filter the writer returned. *)

From S2P Require Import Prelude Config Base Mvcc Memtable Bloom Bufio Block Fs.

(** ** [sstable_types.go] *)

(** The cache of a table is a pointer to the database's block cache, or nil: [has_cache]
    says which. The cache itself is shared state, threaded through the readers. *)
Record SSTable := mkSST {
  FilePath : bytes;
  sst_index : list IndexEntry;
  sst_bloom : BloomFilter;
  has_cache : bool
}.

#[global] Instance SSTable_eq_dec : EqDecision SSTable.
Proof. solve_decision. Defined.

Definition SetCache (sst : SSTable) : SSTable :=
  mkSST (FilePath sst) (sst_index sst) (sst_bloom sst) true.

(** ** [write_block_collector.go] *)

Record blockCollector := mkBC {
  bc_entries : list kv;
  sizeEstimate : Z;
  lastFirstKey : bytes
}.

Definition newBlockCollector : blockCollector := mkBC [] 0 [].

Definition bc_add (bc : blockCollector) (e : kv) : blockCollector :=
  let first := if blen (bc_entries bc) =? 0 then Key e else lastFirstKey bc in
  mkBC (bc_entries bc ++ [e]) (sizeEstimate bc + (blen (Key e) + blen (Value e) + 8)) first.

Definition bc_size (bc : blockCollector) : Z := sizeEstimate bc.
Definition bc_len (bc : blockCollector) : Z := blen (bc_entries bc).

(** The drained slice shares its array with the collector; the writers encode it before
    they add the next entry. *)
Definition bc_drain (bc : blockCollector) : list kv * blockCollector :=
  (bc_entries bc, mkBC [] 0 []).

(** ** The writers *)

Definition indexSize (entries : list IndexEntry) : Z :=
  foldl (fun size e => size + (4 + blen (FirstKey e) + 8 + 4)) 0 entries.

(** [os.Rename], then [os.Open] and [Sync] of the directory; [f] is the file, with the faults
    of its disk. When the directory cannot be synced, the error is returned although the file
    has its final name. *)
Definition atomicInstall {W} `{Writer W} (f : W) (fs : FS) (tmpPath finalPath : bytes) :
    FS * option goerror :=
  match disk_Rename f fs tmpPath finalPath with
  | (fs', Some e) => (fs', Some e)
  | (fs', None) => (fs', disk_SyncDir f fs' (filepath_Dir finalPath))
  end.

(** A write step that returns early on an error. *)
Definition wbind {W B} (r : bufio_Writer W * option goerror) (k : bufio_Writer W -> result B) :
    result B :=
  match r with (_, Some e) => Err e | (w, None) => k w end.

Notation "'let!' w := m 'in' k" := (wbind m (fun w => k))
  (at level 10, w name, m at level 100, k at level 200) : go_scope.

Section writers.
Context `{BT : BTree kv Item_Less} {W : Type} `{WL : WriterLaws W}.

(** [NewBloomFilter(config.DEFAULT_BLOOM_EXPECTED_KEYS)]: the empty filter a table starts
    with. [BloomParams.default_bloom_filter_ok] computes it; nothing below depends on its
    size. *)
Variable bloom0 : BloomFilter.

(** The local variables of the two writers. *)
Record wstate := mkWS {
  ws_w : bufio_Writer W;
  ws_bc : blockCollector;
  indexEntries : list IndexEntry;
  currentOffset : Z;
  ws_bloom : BloomFilter
}.

Definition flushBlock (w : bufio_Writer W) (entries : list kv) (off : Z) :
    bufio_Writer W * result Z :=
  let blockBytes := encodeBlock entries in
  match bufio_Write w blockBytes with
  | (w', Some e) => (w', Err e)
  | (w', None) => (w', Ok (off + blen blockBytes))
  end.

(** Drain the collector, write the block and append its index entry. *)
Definition cut_block (st : wstate) : result wstate :=
  let firstKey := lastFirstKey (ws_bc st) in
  let '(entries, bc) := bc_drain (ws_bc st) in
  let '(w, r) := flushBlock (ws_w st) entries (currentOffset st) in
  let* offset := r in
  Ok (mkWS w bc
        (indexEntries st
         ++ [mkIndexEntry firstKey (currentOffset st) (i32 (offset - currentOffset st))])
        offset (ws_bloom st)).

(** The end of both writers: index, filter, footer, flush and fsync. *)
Definition finish (st : wstate) : result W :=
  let indexOffset := currentOffset st in
  let! w := encodeIndex (ws_w st) (indexEntries st) in
  let bloomBytes := Serialize (ws_bloom st) in
  let bloomOffset := indexOffset + indexSize (indexEntries st) in
  let! w := bufio_Write w (le32 (u32 (blen bloomBytes))) in
  let! w := bufio_Write w bloomBytes in
  let! w := encodeFooterWithBloom w indexOffset (u32 (blen (indexEntries st))) bloomOffset in
  let! w := bufio_Flush w in
  match file_Sync (bw_wr w) with (_, Some e) => Err e | (f, None) => Ok f end.

(** Give the finished temporary file its name; on an error the deferred function removes
    the temporary file, if it still has that name ([os.Remove] itself, whose error the code
    ignores, does not fail here). A panic leaves it where it is. *)
Definition install (fs : FS) (tmpPath finalPath old : bytes) (r : result (wstate * W)) :
    FS * result SSTable :=
  match r with
  | Ok (st, f) =>
      let fs1 := <[tmpPath := File (overwrite old (on_file f))]> fs in
      match atomicInstall f fs1 tmpPath finalPath with
      | (fs2, Some e) => ((os_Remove fs2 tmpPath).1, Err e)
      | (fs2, None) => (fs2, Ok (mkSST finalPath (indexEntries st) (ws_bloom st) false))
      end
  | Err e => ((os_Remove fs tmpPath).1, Err e)
  | Panic => (fs, Panic)
  end.

(** *** [writer.go] *)

(** The callback of [memTable.Ascend]; an error is kept in [iterErr] and stops it. *)
Definition flush_entry (r : result wstate) (key value : bytes) : result wstate * bool :=
  match r with
  | Ok st =>
      match Add (ws_bloom st) (UserKey (DecodeInternalKey key)) with
      | Ok bl =>
          let st := mkWS (ws_w st) (bc_add (ws_bc st) (mkKV key value)) (indexEntries st)
                      (currentOffset st) bl in
          if DEFAULT_BLOCK_SIZE <=? bc_size (ws_bc st) then
            match cut_block st with
            | Ok st' => (Ok st', true)
            | r' => (r', false)
            end
          else (Ok st, true)
      | Err e => (Err e, false)
      | Panic => (Panic, false)
      end
  | r => (r, false)
  end.

(** [newFile path] is the empty file that will become [path], with the faults of its disk. *)
Definition Flush (fs : FS) (now : Z) (newFile : bytes -> W) (memTable : MemTable) (dirPath : bytes) :
    FS * result SSTable :=
  let finalPath := sst_path dirPath now in
  let tmpPath := finalPath ++ dot_tmp in
  match disk_OpenFile (newFile finalPath) fs tmpPath with
  | Err e => (fs, Err e)
  | Panic => (fs, Panic)
  | Ok (fs, old) =>
      install fs tmpPath finalPath old
        (let* st := mt_Ascend memTable flush_entry
                      (Ok (mkWS (bufio_NewWriter (newFile finalPath)) newBlockCollector [] 0 bloom0)) in
         let* st := if 0 <? bc_len (ws_bc st) then cut_block st else Ok st in
         let* f := finish st in
         Ok (st, f))
  end.

(** *** [write_from_entries.go] *)

Definition flushCurrent (st : wstate) : result wstate :=
  if bc_len (ws_bc st) =? 0 then Ok st else cut_block st.

Fixpoint collect_entries (st : wstate) (entries : list kv) : result wstate :=
  match entries with
  | [] => Ok st
  | e :: entries' =>
      let st := mkWS (ws_w st) (bc_add (ws_bc st) e) (indexEntries st)
                  (currentOffset st) (ws_bloom st) in
      let* st := if DEFAULT_BLOCK_SIZE <=? bc_size (ws_bc st) then flushCurrent st else Ok st in
      collect_entries st entries'
  end.

Definition WriteSSTableFromBlockEntries (fs : FS) (newFile : bytes -> W) (finalPath : bytes)
    (entries : list kv) : FS * result SSTable :=
  let tmpPath := finalPath ++ dot_tmp in
  match disk_OpenFile (newFile finalPath) fs tmpPath with
  | Err e => (fs, Err e)
  | Panic => (fs, Panic)
  | Ok (fs, old) =>
      install fs tmpPath finalPath old
        (let* bloom := add_all bloom0 ((fun e => UserKey (DecodeInternalKey (Key e))) <$> entries) in
         let* st := collect_entries
                      (mkWS (bufio_NewWriter (newFile finalPath)) newBlockCollector [] 0 bloom) entries in
         let* st := flushCurrent st in
         let* f := finish st in
         Ok (st, f))
  end.
End writers.

Arguments wstate : clear implicits.

(** ** Opening ([reader.go]) *)

Definition readBloom (file : bytes) (bloomOffset : Z) : result BloomFilter :=
  let* r := seek_start file bloomOffset in
  let* (bloomLen, r) := read_uint32 r in
  let* (bloomBytes, r) := io_ReadFull bloomLen r in
  Deserialize bloomBytes.

Definition Open (fs : FS) (filepath : bytes) : result SSTable :=
  let* file := os_Open fs filepath in
  let* (indexOffset, numEntries, bloomOffset) := readFooterWithBloom file in
  let* index := decodeIndex file indexOffset numEntries in
  let* bloom := readBloom file bloomOffset in
  Ok (mkSST filepath index bloom false).

(** The loop of [OpenAllInDir] over the directory entries. *)
Fixpoint open_all (fs : FS) (dirPath : bytes) (dirEntries : list (bytes * node)) :
    result (list SSTable) :=
  match dirEntries with
  | [] => Ok []
  | (name, n) :: rest =>
      match n with
      | Dir => open_all fs dirPath rest
      | File _ =>
          let* sst := Open fs (dirPath ++ slash :: name) in
          let* tables := open_all fs dirPath rest in
          Ok (sst :: tables)
      end
  end.

(** [sort.Slice] by descending name; names in a directory are distinct, so the order does
    not depend on the sorting algorithm. *)
Definition name_ge (a b : bytes * node) : Prop := bytes_Compare b.1 a.1 <= 0.

#[global] Instance name_ge_dec a b : Decision (name_ge a b).
Proof. unfold name_ge. apply _. Defined.

Definition OpenAllInDir (fs : FS) (dirPath : bytes) : result (list SSTable) :=
  let* dirEntries := os_ReadDir fs dirPath in
  open_all fs dirPath (merge_sort name_ge dirEntries).

(** ** The layout of a table file *)

(** The data bytes of a record inside a block, and of a list of records: what the collector
    counts. *)
Definition entry_size (e : kv) : Z := blen (Key e) + blen (Value e) + 8.
Definition entries_size (es : list kv) : Z := foldr (fun e n => entry_size e + n) 0 es.

(** No record is near the limits of the format (the database accepts keys of 1024 bytes and
    values of 1 MiB). *)
Definition kv_small (e : kv) : Prop := blen (Key e) + blen (Value e) < 2 ^ 30.

Definition blocks_bytes (blocks : list (list kv)) : bytes := concat (encodeBlock <$> blocks).

(** The index the writers build for a list of blocks starting at [off]. *)
Fixpoint index_of (off : Z) (blocks : list (list kv)) : list IndexEntry :=
  match blocks with
  | [] => []
  | b :: bs =>
      mkIndexEntry (from_option Key [] (head b)) off (blen (encodeBlock b))
      :: index_of (off + blen (encodeBlock b)) bs
  end.

Definition footer_bytes (indexOffset numEntries bloomOffset : Z) : bytes :=
  le64 indexOffset ++ le32 numEntries ++ le64 bloomOffset.

Definition layout (blocks : list (list kv)) (bl : BloomFilter) : bytes :=
  let idx := index_of 0 blocks in
  let io := blen (blocks_bytes blocks) in
  blocks_bytes blocks ++ index_bytes idx ++ le32 (u32 (blen (Serialize bl))) ++ Serialize bl
  ++ footer_bytes io (u32 (blen idx)) (io + blen (index_bytes idx)).

Lemma entry_size_pos e : 8 <= entry_size e.
Proof.
  unfold entry_size. pose proof (blen_nonneg (Key e)). pose proof (blen_nonneg (Value e)). lia.
Qed.

Lemma entries_size_app a b : entries_size (a ++ b) = entries_size a + entries_size b.
Proof. induction a as [|e a IH]; simpl; [lia|]. unfold entries_size in *. rewrite IH. lia. Qed.

Lemma entries_size_count es : 8 * blen es <= entries_size es.
Proof.
  induction es as [|e es IH]; [done|]. rewrite blen_cons. simpl. fold (entries_size es).
  pose proof (entry_size_pos e). lia.
Qed.

Lemma blen_encodeBlock es : blen (encodeBlock es) = entries_size es + 8.
Proof.
  rewrite encodeBlock_split, blen_app, blen_le32. unfold block_body.
  rewrite writeBlockEntry_app, blen_app, blen_le32.
  assert (blen (concat (writeBlockEntry [] <$> es)) = entries_size es) as ->; [|lia].
  induction es as [|e es IH]; [done|]. cbn [fmap list_fmap concat].
  rewrite blen_app, IH. cbn [foldr entries_size]. fold (entries_size es).
  unfold writeBlockEntry, entry_size. rewrite app_nil_l, !blen_app, !blen_le32. lia.
Qed.

Lemma blocks_bytes_app a b : blocks_bytes (a ++ b) = blocks_bytes a ++ blocks_bytes b.
Proof. unfold blocks_bytes. by rewrite fmap_app, concat_app. Qed.

Lemma blocks_bytes_cons b bs : blocks_bytes (b :: bs) = encodeBlock b ++ blocks_bytes bs.
Proof. done. Qed.

Lemma index_of_app off a b :
  index_of off (a ++ b) = index_of off a ++ index_of (off + blen (blocks_bytes a)) b.
Proof.
  revert off. induction a as [|x a IH]; intros off; simpl.
  - unfold blocks_bytes, blen. simpl. by rewrite Z.add_0_r.
  - rewrite IH, blocks_bytes_cons, blen_app. do 3 f_equal. lia.
Qed.

Lemma length_index_of off blocks : length (index_of off blocks) = length blocks.
Proof. revert off. induction blocks as [|b bs IH]; intros off; simpl; [done|]. by rewrite IH. Qed.

Lemma blen_index_of off blocks : blen (index_of off blocks) = blen blocks.
Proof. unfold blen. by rewrite length_index_of. Qed.

Lemma foldl_indexSize n l :
  foldl (fun size e => size + (4 + blen (FirstKey e) + 8 + 4)) n l = n + blen (index_bytes l).
Proof.
  revert n. induction l as [|idx l IH]; intros n; [unfold blen; simpl; lia|].
  cbn [foldl]. rewrite IH.
  change (index_bytes (idx :: l)) with (concat (index_fields idx) ++ index_bytes l).
  rewrite blen_app. unfold index_fields. cbn [concat].
  rewrite !blen_app, !blen_le32, blen_le64. change (blen (@nil byte)) with 0. lia.
Qed.

Lemma indexSize_bytes l : indexSize l = blen (index_bytes l).
Proof. unfold indexSize. by rewrite foldl_indexSize. Qed.

(** ** The writers build the layout *)

(** A block that the format can hold. *)
Definition block_fits (b : list kv) : Prop :=
  b <> [] /\ Forall kv_small b /\ blen (encodeBlock b) < 2 ^ 31.

(** The collector: the size it counts, the first key it remembers, and less than a block of
    data between two calls. *)
Definition bc_ok (bc : blockCollector) : Prop :=
  sizeEstimate bc = entries_size (bc_entries bc)
  /\ (forall e, head (bc_entries bc) = Some e -> lastFirstKey bc = Key e).

Lemma bc_add_ok bc e : bc_ok bc -> bc_ok (bc_add bc e).
Proof.
  intros [Hs Hf]. split; simpl.
  - rewrite entries_size_app, Hs. simpl. unfold entry_size. lia.
  - intros x. destruct (bc_entries bc) as [|y l]; simpl; [by intros [= ->]|].
    intros [= ->]. by apply Hf.
Qed.

Section writer_facts.
Context `{BT : BTree kv Item_Less} {BL : BTreeLaws kv Item_Less} {W : Type} `{WL : WriterLaws W}.
Implicit Types (st : wstate W) (b : list kv) (blocks : list (list kv)).

(** The invariant of the writers' loops: the blocks cut so far are in the stream, the index
    describes them, and the collector holds the rest of the records seen. *)
Definition ws_inv st blocks (seen : list kv) : Prop :=
  bw_err (ws_w st) = None
  /\ stream_ok (ws_w st) (blocks_bytes blocks)
  /\ currentOffset st = blen (blocks_bytes blocks)
  /\ indexEntries st = index_of 0 blocks
  /\ concat blocks ++ bc_entries (ws_bc st) = seen
  /\ Forall block_fits blocks
  /\ bc_ok (ws_bc st).

(** A step of a writer: it keeps the invariant, or fails, which takes a failing disk. *)
Definition step_ok {A} (r : result A) (P : A -> Prop) : Prop :=
  match r with
  | Ok a => P a
  | Err _ => ~ Reliable W
  | Panic => False
  end.

Lemma step_ok_bind {A B} (r : result A) (k : A -> result B) P Q :
  step_ok r P -> (forall a, P a -> step_ok (k a) Q) -> step_ok (rbind r k) Q.
Proof. destruct r; simpl; auto. Qed.

Lemma step_ok_wbind {B} w r (k : bufio_Writer W -> result B) p s (Q : B -> Prop) :
  writes w r p -> bw_err w = None -> stream_ok w s ->
  (forall w', bw_err w' = None -> stream_ok w' (s ++ p) -> step_ok (k w') Q) ->
  step_ok (wbind r k) Q.
Proof.
  intros Hw E Hs Hk. destruct (Hw E s Hs) as (Hs' & He & Hr). destruct r as [w' [e|]]; simpl in *.
  - intros HR. by specialize (Hr HR).
  - by apply Hk.
Qed.

Lemma cut_block_ok st blocks seen :
  ws_inv st blocks seen -> bc_entries (ws_bc st) <> [] -> Forall kv_small seen ->
  bc_size (ws_bc st) < 2 ^ 30 + 2 ^ 20 ->
  step_ok (cut_block st) (fun st' =>
    (exists blocks', ws_inv st' blocks' seen) /\ bc_entries (ws_bc st') = []
    /\ ws_bloom st' = ws_bloom st).
Proof.
  intros (E & Hok & Hoff & Hidx & Hseen & Hfit & Hsz & Hfk) Hne Hsm Hlt.
  unfold cut_block. simpl. unfold flushBlock.
  set (b := bc_entries (ws_bc st)) in *. set (p := encodeBlock b).
  pose proof (writes_Write (ws_w st) p E _ Hok) as (Hok' & He & Hr).
  destruct (bufio_Write (ws_w st) p) as [w' [e|]]; simpl in *.
  { intros HR. by specialize (Hr HR). }
  assert (Hp : blen p = entries_size b + 8) by apply blen_encodeBlock.
  pose proof (entries_size_count b). pose proof (blen_nonneg b).
  unfold bc_size in Hlt. split; [|done]. exists (blocks ++ [b]).
  split; [done|]. split; [|split; [|split; [|split; [|split]]]]; simpl.
  - by rewrite blocks_bytes_app, blocks_bytes_cons, app_nil_r.
  - rewrite blocks_bytes_app, blocks_bytes_cons, app_nil_r, blen_app. fold p. lia.
  - rewrite index_of_app, Hidx, Hoff. simpl. do 2 f_equal.
    destruct b as [|e0 b'] eqn:Eb; [done|]. simpl. rewrite (Hfk e0) by done. f_equal.
    fold p. replace (blen (blocks_bytes blocks) + blen p - blen (blocks_bytes blocks))
      with (blen p) by lia. apply swrap_small; lia.
  - rewrite concat_app. simpl. by rewrite !app_nil_r.
  - apply Forall_app. split; [done|]. constructor; [|constructor]. split; [done|]. split.
    + rewrite <- Hseen, Forall_app in Hsm. tauto.
    + fold p. lia.
  - by split.
Qed.

Lemma flushCurrent_ok st blocks seen :
  ws_inv st blocks seen -> Forall kv_small seen -> bc_size (ws_bc st) < 2 ^ 30 + 2 ^ 20 ->
  step_ok (flushCurrent st) (fun st' =>
    (exists blocks', ws_inv st' blocks' seen) /\ bc_entries (ws_bc st') = []
    /\ ws_bloom st' = ws_bloom st).
Proof.
  intros Hinv Hsm Hlt. unfold flushCurrent, bc_len. case_if.
  - split; [eauto|]. split; [|done]. destruct (bc_entries (ws_bc st)) as [|e l]; [done|].
    rewrite blen_cons in E. pose proof (blen_nonneg l). lia.
  - eapply cut_block_ok; eauto. intros Hnil. rewrite Hnil in E. by apply E.
Qed.

Lemma collect_entries_ok es st blocks seen :
  ws_inv st blocks seen -> Forall kv_small (seen ++ es) -> bc_size (ws_bc st) < DEFAULT_BLOCK_SIZE ->
  step_ok (collect_entries st es) (fun st' =>
    (exists blocks', ws_inv st' blocks' (seen ++ es)) /\ bc_size (ws_bc st') < DEFAULT_BLOCK_SIZE
    /\ ws_bloom st' = ws_bloom st).
Proof.
  revert st blocks seen. induction es as [|e es IH]; intros st blocks seen Hinv Hsm Hlt.
  { simpl. rewrite app_nil_r. eauto. }
  cbn [collect_entries]. set (st1 := mkWS _ (bc_add (ws_bc st) e) _ _ _).
  replace (seen ++ e :: es) with ((seen ++ [e]) ++ es) in * by (by rewrite <- app_assoc).
  assert (Hinv1 : ws_inv st1 blocks (seen ++ [e])).
  { destruct Hinv as (? & ? & ? & ? & <- & ? & ?). unfold ws_inv, st1. simpl.
    rewrite app_assoc. split_and!; try done. by apply bc_add_ok. }
  assert (Hs1 : bc_size (ws_bc st1) < 2 ^ 30 + 2 ^ 20).
  { apply Forall_app in Hsm as [Hsm _]. apply Forall_app in Hsm as [_ Hsm].
    apply Forall_cons_1 in Hsm as [Hsm _]. unfold st1, bc_size, kv_small, DEFAULT_BLOCK_SIZE in *.
    simpl in *. lia. }
  eapply (step_ok_bind _ _ (fun st2 => (exists blocks', ws_inv st2 blocks' (seen ++ [e]))
    /\ bc_size (ws_bc st2) < DEFAULT_BLOCK_SIZE /\ ws_bloom st2 = ws_bloom st)).
  - case_if; [|by split; [eauto|]].
    pose proof (flushCurrent_ok st1 _ _ Hinv1 ltac:(by apply Forall_app in Hsm as [? _]) Hs1) as Hf.
    destruct (flushCurrent st1) as [st2| |]; simpl in *; [|done..].
    destruct Hf as ([bl Hbl] & Hnil & Hb). split; [eauto|]. split; [|done].
    destruct Hbl as (_ & _ & _ & _ & _ & _ & Hz & _). unfold bc_size. rewrite Hz, Hnil.
    unfold DEFAULT_BLOCK_SIZE. simpl. lia.
  - intros st2 ([bl Hbl] & Hlt2 & Hb2). rewrite <- Hb2. by eapply IH.
Qed.

Lemma finish_ok st blocks seen :
  ws_inv st blocks seen ->
  step_ok (finish st) (fun f => on_file f = layout blocks (ws_bloom st)).
Proof.
  intros (E & Hok & Hoff & Hidx & _). unfold finish. rewrite Hoff, Hidx.
  eapply step_ok_wbind; [apply writes_encodeIndex|done|exact Hok|]. intros w1 E1 S1.
  eapply step_ok_wbind; [apply writes_Write|done|exact S1|]. intros w2 E2 S2.
  eapply step_ok_wbind; [apply writes_Write|done|exact S2|]. intros w3 E3 S3.
  eapply step_ok_wbind; [apply writes_seq|done|exact S3|]. intros w4 E4 S4.
  pose proof (bufio_Flush_stream w4 _ S4) as Hf.
  pose proof (fun HR : Reliable W => bufio_Flush_reliable w4 _ S4 E4) as Hr.
  destruct (bufio_Flush w4) as [w5 [e|]]; cbn [fst snd wbind step_ok] in *.
  { destruct Hf as (_ & He & _). intros HR. rewrite Hr in He by done. done. }
  destruct Hf as (_ & _ & Hfile). destruct (Hfile eq_refl) as [_ Hfile']. unfold file_Sync.
  destruct (sys_error (bw_wr w5) OpSync) as [e|] eqn:Es; cbn [step_ok].
  { intros HR. by rewrite sys_reliable in Es. }
  rewrite fsync_on_file, Hfile'. unfold layout, footer_bytes.
  cbn [concat]. by rewrite indexSize_bytes, app_nil_r, <- !app_assoc.
Qed.

(** Both writers, from the records to the bytes of the file. *)
Definition built bloom0 (es : list kv) (r : wstate W * W) : Prop :=
  exists blocks, concat blocks = es /\ Forall block_fits blocks
    /\ indexEntries r.1 = index_of 0 blocks
    /\ add_all bloom0 (uk <$> es) = Ok (ws_bloom r.1)
    /\ on_file r.2 = layout blocks (ws_bloom r.1).

Definition write_table bloom0 (newFile : W) (es : list kv) : result (wstate W * W) :=
  let* bloom := add_all bloom0 ((fun e => UserKey (DecodeInternalKey (Key e))) <$> es) in
  let* st := collect_entries (mkWS (bufio_NewWriter newFile) newBlockCollector [] 0 bloom) es in
  let* st := flushCurrent st in
  let* f := finish st in
  Ok (st, f).

Lemma write_table_ok bloom0 newFile es :
  bloom_ok bloom0 -> on_file newFile = [] -> Forall kv_small es ->
  step_ok (write_table bloom0 newFile es) (built bloom0 es).
Proof.
  intros Hb Hnil Hsm. unfold write_table.
  change (fun e => UserKey (DecodeInternalKey (Key e))) with uk.
  destruct (add_all_ok bloom0 (uk <$> es) Hb) as (bl & Hadd & _). rewrite Hadd. cbn [rbind].
  set (st0 := mkWS _ _ _ _ _).
  assert (Hinv : ws_inv st0 [] []).
  { split; [done|]. split; [|split_and!; try done; by constructor].
    change (blocks_bytes []) with (@nil byte). rewrite <- Hnil. apply stream_ok_new. }
  eapply step_ok_bind; [by apply (collect_entries_ok es st0 [] [])|].
  intros st1 ([bs1 Hinv1] & Hs1 & Hb1).
  eapply step_ok_bind.
  { eapply flushCurrent_ok; [exact Hinv1|done|]. unfold DEFAULT_BLOCK_SIZE in Hs1. lia. }
  intros st2 ([bs2 Hinv2] & Hnil2 & Hb2).
  eapply step_ok_bind; [by eapply finish_ok|]. intros f Hf.
  exists bs2. destruct Hinv2 as (_ & _ & _ & Hidx & Hc & Hfit & _). simpl in *.
  rewrite Hnil2, app_nil_r in Hc. rewrite Hb2, Hb1. split; [done|]. split; [done|].
  split; [done|]. split; [done|]. rewrite Hf, Hb2, Hb1. done.
Qed.

(** *** The two writers agree *)

Definition with_bloom (bl : BloomFilter) st : wstate W :=
  mkWS (ws_w st) (ws_bc st) (indexEntries st) (currentOffset st) bl.

Lemma cut_block_bloom bl st :
  cut_block (with_bloom bl st) = (let* st' := cut_block st in Ok (with_bloom bl st')).
Proof.
  unfold cut_block. simpl. destruct (flushBlock (ws_w st) _ _) as [w [off| |]]; done.
Qed.

Lemma flush_entries_eq st l :
  bloom_ok (ws_bloom st) ->
  iter_while (fun r e => flush_entry r (Key e) (Value e)) (Ok st) l =
    (let* bl := add_all (ws_bloom st) ((fun e => UserKey (DecodeInternalKey (Key e))) <$> l) in
     collect_entries (with_bloom bl st) l).
Proof.
  revert st. induction l as [|e l IH]; intros st Hb; [by destruct st|].
  cbn [iter_while fmap list_fmap add_all collect_entries]. cbn [flush_entry].
  destruct (Add_ok (ws_bloom st) (UserKey (DecodeInternalKey (Key e))) Hb)
    as (b1 & -> & Hb1 & _). cbn [rbind].
  destruct (add_all_ok b1 ((fun e => UserKey (DecodeInternalKey (Key e))) <$> l) Hb1)
    as (bl & Hadd & _).
  destruct e as [k v]. cbn [Key Value].
  set (st1 := mkWS (ws_w st) (bc_add (ws_bc st) (mkKV k v)) (indexEntries st) (currentOffset st) b1).
  change (bc_size (ws_bc st1)) with (bc_size (bc_add (ws_bc st) (mkKV k v))).
  rewrite Hadd. cbn [rbind].
  change (mkWS (ws_w (with_bloom bl st)) _ _ _ _) with (with_bloom bl st1).
  change (ws_bc (with_bloom bl st1)) with (bc_add (ws_bc st) (mkKV k v)).
  case_if.
  - unfold flushCurrent. change (bc_len (ws_bc (with_bloom bl st1)))
      with (bc_len (bc_add (ws_bc st) (mkKV k v))).
    assert (Hlen : (bc_len (bc_add (ws_bc st) (mkKV k v)) =? 0) = false).
    { apply Z.eqb_neq. unfold bc_len. simpl. rewrite blen_app, blen_cons.
      pose proof (blen_nonneg (bc_entries (ws_bc st))). unfold blen. simpl. lia. }
    rewrite Hlen, cut_block_bloom.
    destruct (cut_block st1) as [st2| |] eqn:Ecut; [|done|done].
    assert (Hb2 : ws_bloom st2 = b1).
    { revert Ecut. unfold cut_block. simpl. destruct (flushBlock _ _ _) as [w [off| |]]; simpl;
        [by intros [= <-]|done..]. }
    rewrite IH by (by rewrite Hb2). rewrite Hb2, Hadd. done.
  - rewrite IH by done. simpl. by rewrite Hadd.
Qed.

Lemma Flush_eq bloom0 fs now newFile (mt : MemTable) dirPath :
  bloom_ok bloom0 -> btree_ok (tree mt) ->
  Flush bloom0 fs now newFile mt dirPath =
    WriteSSTableFromBlockEntries bloom0 fs newFile (sst_path dirPath now) (mt_items mt).
Proof.
  intros Hb Ht. unfold Flush, WriteSSTableFromBlockEntries.
  destruct (disk_OpenFile _ fs _) as [[fs1 old]| |]; try done. f_equal. set (f := newFile _).
  rewrite mt_Ascend_items, flush_entries_eq by done. simpl.
  destruct (add_all bloom0 _) as [bl| |]; try done. simpl.
  change (with_bloom bl _) with (mkWS (bufio_NewWriter f) newBlockCollector [] 0 bl).
  destruct (collect_entries _ _) as [st| |]; try done. simpl. f_equal.
  unfold flushCurrent, bc_len. pose proof (blen_nonneg (bc_entries (ws_bc st))).
  destruct (Z.ltb_spec 0 (blen (bc_entries (ws_bc st)))), (Z.eqb_spec (blen (bc_entries (ws_bc st))) 0);
    try lia; done.
Qed.

(** *** Installing the file *)

Lemma overwrite_nil d : overwrite [] d = d.
Proof. unfold overwrite. by rewrite drop_nil, app_nil_r. Qed.

Lemma path_ne_tmp (p : bytes) : p <> p ++ dot_tmp.
Proof. intros Hl. apply (f_equal length) in Hl. rewrite length_app in Hl. simpl in Hl. lia. Qed.

(** A path where a new table can be written. *)
Definition fresh_table (fs : FS) (dir final : bytes) : Prop :=
  fs !! dir = Some Dir /\ fs !! final = None /\ fs !! (final ++ dot_tmp) = None
  /\ filepath_Dir final = dir /\ filepath_Dir (final ++ dot_tmp) = dir.

(** The complete file of a table with the records [es], and what its writer returns. *)
Definition complete_table (bloom0 : BloomFilter) (final : bytes) (es : list kv) (data : bytes) (sst : SSTable) : Prop :=
  exists blocks bl, concat blocks = es /\ Forall block_fits blocks
    /\ add_all bloom0 (uk <$> es) = Ok bl /\ data = layout blocks bl
    /\ sst = mkSST final (index_of 0 blocks) bl false.

(** What a writer leaves behind: the finished file under its final name and nothing else, or
    the file system as it was. When it reports an error the disk is at fault, and the file is
    there only if the reported error is that of the directory, which could not be synced. *)
Definition written (bloom0 : BloomFilter) (fs : FS) (final : bytes) (es : list kv) (r : FS * result SSTable) : Prop :=
  match r.2 with
  | Ok sst => exists data, complete_table bloom0 final es data sst /\ r.1 = <[final := File data]> fs
  | Err e =>
      ~ Reliable W
      /\ (r.1 = fs
          \/ exists (f : W) sst, sys_error f OpSyncDir = Some e
             /\ complete_table bloom0 final es (on_file f) sst /\ r.1 = <[final := File (on_file f)]> fs)
  | Panic => False
  end.

Lemma WriteSSTable_written (bloom0 : BloomFilter) (fs : FS) (newFile : bytes -> W) (dir final : bytes) es :
  bloom_ok bloom0 -> on_file (newFile final) = [] -> Forall kv_small es -> fresh_table fs dir final ->
  written bloom0 fs final es (WriteSSTableFromBlockEntries bloom0 fs newFile final es).
Proof.
  intros Hb Hnil Hsm (Hdir & Hfin & Htmp & Hd1 & Hd2). unfold WriteSSTableFromBlockEntries.
  assert (Hrel : forall (f : W) op e, sys_error f op = Some e -> ~ Reliable W).
  { intros f op e He HR. by rewrite sys_reliable in He. }
  unfold disk_OpenFile. destruct (sys_error (newFile final) OpOpen) as [e|] eqn:Eo; [split; [eauto|by left]|].
  unfold os_OpenFile. rewrite Htmp, Hd2, Hdir.
  pose proof (write_table_ok bloom0 (newFile final) es Hb Hnil Hsm) as Hw.
  fold (write_table bloom0 (newFile final) es).
  assert (Hne1 : dir <> final ++ dot_tmp) by congruence.
  assert (Hne2 : dir <> final) by congruence.
  pose proof (path_ne_tmp final) as Hne3.
  destruct (write_table bloom0 (newFile final) es) as [[st f]|e|]; [| |exact Hw].
  2:{ split; [exact Hw|left]. unfold install, os_Remove. rewrite lookup_insert_eq. cbn [fst].
      by rewrite delete_insert_id. }
  destruct Hw as (blocks & Hc & Hfit & Hidx & Hadd & Hf). cbn [fst snd] in *. unfold install.
  rewrite overwrite_nil, insert_insert_eq. unfold atomicInstall, disk_Rename.
  destruct (sys_error f OpRename) as [e|] eqn:Er.
  { split; [eauto|left]. unfold os_Remove. rewrite lookup_insert_eq. cbn [fst]. by rewrite delete_insert_id. }
  unfold os_Rename. rewrite lookup_insert_eq, lookup_insert_ne, Hfin by done. rewrite Hd1. unfold disk_SyncDir.
  rewrite lookup_insert_ne, lookup_delete_ne, lookup_insert_ne, Hdir by done.
  rewrite delete_insert_id by done. set (sst := mkSST final (indexEntries st) (ws_bloom st) false).
  assert (Hct : complete_table bloom0 final es (on_file f) sst).
  { exists blocks, (ws_bloom st). unfold sst. by rewrite Hidx. }
  destruct (sys_error f OpSyncDir) as [e|] eqn:Es; [|by exists (on_file f)].
  split; [eauto|right]. exists f, sst. split; [done|]. split; [done|].
  unfold os_Remove. by rewrite lookup_insert_ne, Htmp by done.
Qed.
End writer_facts.

(** ** Opening a written table *)

Lemma blen_Serialize bl :
  bloom_ok bl -> 0 <= blen (Serialize bl) < 2 ^ 32.
Proof.
  intros (Hl & Hs & _). rewrite Serialize_val. unfold blen in *.
  rewrite length_set_bits, !length_app, !length_le32, length_replicate.
  assert ((length (bits bl) + 7) / 8 <= length (bits bl) / 8 + 1)%nat.
  { pose proof (Nat.div_mod_eq (length (bits bl) + 7) 8).
    pose proof (Nat.div_mod_eq (length (bits bl)) 8).
    pose proof (Nat.mod_upper_bound (length (bits bl)) 8 ltac:(lia)).
    pose proof (Nat.mod_upper_bound (length (bits bl) + 7) 8 ltac:(lia)). lia. }
  pose proof (Nat.div_mod_eq (length (bits bl)) 8). lia.
Qed.

Lemma block_fits_small blocks b : Forall block_fits blocks -> b ∈ blocks -> block_fits b.
Proof. rewrite Forall_forall. auto. Qed.

Lemma blocks_bytes_bound blocks :
  Forall block_fits blocks -> 0 <= blen (blocks_bytes blocks) <= 2 ^ 31 * blen blocks.
Proof.
  induction 1 as [|b bs (_ & _ & Hb) _ IH]; [done|].
  rewrite blocks_bytes_cons, blen_app, blen_cons. pose proof (blen_nonneg (encodeBlock b)). lia.
Qed.

Lemma block_fits_head b : block_fits b -> blen (from_option Key [] (head b)) < 2 ^ 30.
Proof.
  intros (Hne & Hsm & _). destruct b as [|e b]; [done|]. simpl.
  apply Forall_cons_1 in Hsm as [Hsm _]. unfold kv_small in Hsm.
  pose proof (blen_nonneg (Value e)). lia.
Qed.

Lemma index_of_fits blocks off :
  Forall block_fits blocks -> 0 <= off -> off + 2 ^ 31 * blen blocks < 2 ^ 63 ->
  Forall fits_index (index_of off blocks).
Proof.
  intros Hf. revert off. induction Hf as [|b bs Hb Hbs IH]; intros off Ho Hlt; simpl; [constructor|].
  pose proof (block_fits_head b Hb). destruct Hb as (_ & _ & Hb).
  pose proof (blen_nonneg (encodeBlock b)). rewrite blen_cons in Hlt. pose proof (blen_nonneg bs).
  constructor; [split; simpl; lia|]. apply IH; lia.
Qed.

Lemma index_bytes_bound blocks off :
  Forall block_fits blocks -> 0 <= blen (index_bytes (index_of off blocks)) <= 2 ^ 31 * blen blocks.
Proof.
  intros Hf. revert off. induction Hf as [|b bs Hb Hbs IH]; intros off; [done|].
  cbn [index_of].
  change (index_bytes (?i :: ?l)) with (concat (index_fields i) ++ index_bytes l).
  rewrite blen_app, blen_cons. specialize (IH (off + blen (encodeBlock b))).
  unfold index_fields. cbn [concat FirstKey].
  rewrite !blen_app, !blen_le32, blen_le64. change (blen (@nil byte)) with 0.
  pose proof (block_fits_head b Hb). pose proof (blen_nonneg (from_option Key [] (head b))). lia.
Qed.

Lemma Open_layout fs path blocks bl :
  Forall block_fits blocks -> blen blocks < 2 ^ 30 -> bloom_ok bl ->
  fs !! path = Some (File (layout blocks bl)) ->
  Open fs path = Ok (mkSST path (index_of 0 blocks) bl false).
Proof.
  intros Hf Hn Hb Hfs. unfold Open, os_Open. rewrite Hfs. cbn [rbind]. unfold layout.
  set (idx := index_of 0 blocks).
  pose proof (blocks_bytes_bound blocks Hf). pose proof (index_bytes_bound blocks 0 Hf).
  pose proof (blen_Serialize bl Hb). pose proof (blen_nonneg blocks).
  assert (Hi : blen idx = blen blocks) by apply blen_index_of.
  rewrite (uwrap_small 32 (blen idx)) by lia. rewrite (uwrap_small 32 (blen (Serialize bl))) by lia.
  set (io := blen (blocks_bytes blocks)) in *. fold idx in H0.
  unfold footer_bytes. rewrite !(app_assoc _ _ (le64 _ ++ _)).
  rewrite readFooterWithBloom_app by lia. cbn [rbind]. rewrite <- !app_assoc.
  rewrite decodeIndex_app by (apply index_of_fits; lia || done). cbn [rbind].
  unfold readBloom. rewrite (app_assoc (blocks_bytes blocks)).
  replace (io + blen (index_bytes idx)) with (blen (blocks_bytes blocks ++ index_bytes idx))
    by (by rewrite blen_app).
  rewrite seek_start_app. cbn [rbind]. rewrite read_uint32_app by lia. cbn [rbind].
  rewrite io_ReadFull_app by done. cbn [rbind]. by rewrite Deserialize_Serialize.
Qed.

Lemma blen_concat_blocks blocks : Forall block_fits blocks -> blen blocks <= blen (concat blocks).
Proof.
  induction 1 as [|b bs (Hb & _) _ IH]; [done|]. simpl. rewrite blen_cons, blen_app.
  destruct b as [|e b]; [done|]. rewrite blen_cons. pose proof (blen_nonneg b). lia.
Qed.

Lemma fresh_sst fs dir t :
  fs !! dir = Some Dir -> fs !! sst_path dir t = None -> fs !! (sst_path dir t ++ dot_tmp) = None ->
  fresh_table fs dir (sst_path dir t).
Proof. intros. repeat split; try done; [apply sst_path_dir|apply sst_tmp_dir]. Qed.

(** A complete table is opened to the same index and filter. *)
Lemma complete_Open bloom0 fs final es data sst :
  bloom_ok bloom0 -> blen es < 2 ^ 30 -> complete_table bloom0 final es data sst ->
  Open (<[final := File data]> fs) final = Ok sst.
Proof.
  intros Hb Hn (blocks & bl & Hc & Hf & Hadd & -> & ->).
  destruct (add_all_ok bloom0 (uk <$> es) Hb) as (bl' & Hadd' & Hbl & _).
  assert (bl' = bl) as -> by congruence.
  apply Open_layout; [done| |done|apply lookup_insert_eq].
  pose proof (blen_concat_blocks blocks Hf). rewrite Hc in *. lia.
Qed.

(** *** Directories with a file that cannot be opened *)

Lemma open_all_fails fs dir l name d :
  (name, File d) ∈ l -> (forall sst, Open fs (dir ++ slash :: name) <> Ok sst) ->
  forall tables, open_all fs dir l <> Ok tables.
Proof.
  intros Hin Hopen. induction l as [|[n [d'|]] l IH]; intros tables; simpl.
  - by apply elem_of_nil in Hin.
  - apply elem_of_cons in Hin as [[= <- <-]|Hin].
    + destruct (Open fs (dir ++ slash :: name)) as [sst| |] eqn:E; try done.
      by destruct (Hopen sst).
    + destruct (Open fs (dir ++ slash :: n)) as [sst| |]; try done. simpl.
      specialize (IH Hin). destruct (open_all fs dir l) as [ts| |]; try done. by destruct (IH ts).
  - apply elem_of_cons in Hin as [[=]|Hin]. by apply IH.
Qed.

Lemma name_in_app dir (name : bytes) :
  slash ∉ name -> name <> [] -> name_in dir (dir ++ slash :: name) = Some name.
Proof.
  intros Hs Hne. unfold name_in.
  replace (dir ++ slash :: name) with ((dir ++ [slash]) ++ name) by (by rewrite <- app_assoc).
  rewrite strip_prefix_app, decide_False; [done|]. by intros [?|?].
Qed.

Lemma ReadDir_elem fs dir (name : bytes) n :
  fs !! dir = Some Dir -> fs !! (dir ++ slash :: name) = Some n -> slash ∉ name -> name <> [] ->
  exists l, os_ReadDir fs dir = Ok l /\ (name, n) ∈ l.
Proof.
  intros Hd Hf Hs Hne. unfold os_ReadDir. rewrite Hd. eexists. split; [done|].
  apply list_elem_of_omap. exists (dir ++ slash :: name, n).
  split; [by apply elem_of_map_to_list|]. by rewrite name_in_app.
Qed.

(** The last eight bytes of a file as an offset, which [Open] takes for the start of the
    filter, and the files for which it is not one: too short for a footer, or no room for the
    filter's length at that offset. *)
Definition last_offset (d : bytes) : Z := i64 (le_combine (drop (length d - 8) d)).
Definition no_footer (d : bytes) : bool :=
  (blen d <? 20) || (last_offset d <? 0) || (blen d - 4 <? last_offset d).

Lemma readFooter_last d r :
  readFooterWithBloom d = Ok r -> 20 <= blen d /\ r.2 = last_offset d.
Proof.
  unfold readFooterWithBloom, seek_end, seek_start. case_if; [done|]. cbn [rbind].
  rewrite Z.min_l by lia. set (q := drop (Z.to_nat (blen d + -20)) d).
  unfold read_int64, read_uint32.
  destruct (io_ReadFull 8 q) as [[b1 r1]| |] eqn:E1; [|done..]. apply io_ReadFull_inv in E1 as [E1 L1]; [|lia].
  cbn [rbind]. destruct (io_ReadFull 4 r1) as [[b2 r2]| |] eqn:E2; [|done..]. apply io_ReadFull_inv in E2 as [E2 L2]; [|lia].
  cbn [rbind]. destruct (io_ReadFull 8 r2) as [[b3 r3]| |] eqn:E3; [|done..]. apply io_ReadFull_inv in E3 as [E3 L3]; [|lia].
  intros [= <-]. split; [lia|]. cbn [snd]. unfold last_offset. do 2 f_equal.
  assert (Hlen : length q = 20%nat) by (unfold q, blen in *; rewrite length_drop; lia).
  rewrite E1, E2, E3, !length_app in Hlen. unfold blen in L1, L2, L3.
  assert (r3 = []) as -> by (destruct r3; [done|simpl in Hlen; lia]). rewrite app_nil_r in E3.
  assert (Hd : drop (length d - 8) d = drop 12 q).
  { unfold q. rewrite drop_drop. f_equal. unfold blen in *. lia. }
  rewrite Hd, E1, E2, E3, app_assoc, drop_app_length'; [done|]. rewrite length_app. lia.
Qed.

Lemma Open_no_footer fs path d sst :
  fs !! path = Some (File d) -> no_footer d = true -> Open fs path <> Ok sst.
Proof.
  intros Hf Hno. unfold Open, os_Open. rewrite Hf. cbn [rbind].
  destruct (readFooterWithBloom d) as [[[io n] bo]| |] eqn:E; [|done..]. apply readFooter_last in E as [Hl Hbo].
  cbn [rbind snd] in *. subst bo. destruct (decodeIndex d io n) as [idx| |]; [|done..]. cbn [rbind].
  unfold no_footer in Hno. rewrite !orb_true_iff, !Z.ltb_lt in Hno. unfold readBloom, seek_start.
  case_if; [done|]. cbn [rbind]. unfold read_uint32. rewrite io_ReadFull_short; [done|].
  unfold blen in *. rewrite length_drop. lia.
Qed.

Lemma OpenAllInDir_no_footer (fs : FS) (dir name d : bytes) (tables : list SSTable) :
  fs !! dir = Some Dir -> fs !! (dir ++ slash :: name) = Some (File d) ->
  slash ∉ name -> name <> [] -> no_footer d = true -> OpenAllInDir fs dir <> Ok tables.
Proof.
  intros Hd Hf Hs Hne Hno. unfold OpenAllInDir.
  destruct (ReadDir_elem fs dir name (File d) Hd Hf Hs Hne) as (l & -> & Hin). simpl.
  apply (open_all_fails fs dir _ name d); [by rewrite merge_sort_Permutation|].
  intros sst. by apply (Open_no_footer _ _ d).
Qed.

(** ** Properties *)

Section sstable_writer_properties.
Context `{BT : BTree kv Item_Less} {BL : BTreeLaws kv Item_Less} {W : Type} `{WL : WriterLaws W}.

(** The flush of a memtable and the compaction writer are one function: given the
    memtable's records, the second produces byte for byte the same file, index, filter and
    error as the first, on any disk. *)
Theorem writers_agree (bloom0 : BloomFilter) (fs : FS) (now : Z) (newFile : bytes -> W) (mt : MemTable)
    (dirPath : bytes) :
  bloom_ok bloom0 -> btree_ok (tree mt) ->
  Flush bloom0 fs now newFile mt dirPath
  = WriteSSTableFromBlockEntries bloom0 fs newFile (sst_path dirPath now) (mt_items mt).
Proof. apply Flush_eq. Qed.

(** C13: a flush never leaves part of a table, on a disk that may fail at any byte it writes
    and at any system call (the removal of the temporary file apart). If it succeeds, the only
    change of the file system is the new file, complete: opening it yields the table the writer
    returned (same index, same filter). If it reports an error the disk is at fault, and the
    file system is as before; or else the rename has happened and the reported error is that of
    opening or syncing the directory, and then the only change is again the complete table. A
    flush never panics. *)
Theorem flush_atomic (bloom0 : BloomFilter) (fs : FS) (now : Z) (newFile : bytes -> W) (mt : MemTable)
    (dir : bytes) :
  bloom_ok bloom0 -> mt_ok mt -> Forall kv_small (mt_items mt) -> blen (mt_items mt) < 2 ^ 30 ->
  on_file (newFile (sst_path dir now)) = [] -> fs !! dir = Some Dir -> fs !! sst_path dir now = None ->
  fs !! (sst_path dir now ++ dot_tmp) = None ->
  let complete fs' sst :=
    exists data, fs' = <[sst_path dir now := File data]> fs
      /\ complete_table bloom0 (sst_path dir now) (mt_items mt) data sst
      /\ Open fs' (sst_path dir now) = Ok sst in
  match Flush bloom0 fs now newFile mt dir with
  | (fs', Ok sst) => complete fs' sst
  | (fs', Err e) =>
      ~ Reliable W
      /\ (fs' = fs
          \/ exists (f : W) sst, fs' !! sst_path dir now = Some (File (on_file f))
               /\ sys_error f OpSyncDir = Some e /\ complete fs' sst)
  | (_, Panic) => False
  end.
Proof.
  intros Hb [Ht _] Hsm Hn Hnil Hdir Hfin Htmp complete. rewrite Flush_eq by done.
  pose proof (WriteSSTable_written bloom0 fs newFile dir _ (mt_items mt) Hb Hnil Hsm
    (fresh_sst fs dir now Hdir Hfin Htmp)) as Hw.
  assert (Hcomp : forall data sst, complete_table bloom0 (sst_path dir now) (mt_items mt) data sst ->
    complete (<[sst_path dir now := File data]> fs) sst).
  { intros data sst Hct. exists data. split; [done|]. split; [done|]. by eapply complete_Open. }
  destruct (WriteSSTableFromBlockEntries _ _ _ _ _) as [fs' [sst|e|]]; cbn [written fst snd] in *; [| |done].
  - destruct Hw as (data & Hct & ->). by apply Hcomp.
  - destruct Hw as [Hr [->|(f & sst & He & Hct & ->)]]; (split; [done|]); [by left|right].
    exists f, sst. split; [apply lookup_insert_eq|]. split; [done|]. by apply Hcomp.
Qed.
End sstable_writer_properties.

(** A file system with an empty directory, and a small filter, for the witnesses. *)
Definition demo_dir : bytes := bytes_of "data".
Definition demo_fs : FS := {[ demo_dir := Dir ]}.
Definition demo_bloom : BloomFilter := newBloom 64 3.

Lemma demo_bloom_ok : bloom_ok demo_bloom.
Proof. apply bloom_ok_new; lia. Qed.

Lemma demo_mt_small : Forall kv_small (mt_items demo_mt).
Proof. repeat constructor; vm_compute; reflexivity. Qed.

Lemma writers_agree_witness :
  Flush demo_bloom demo_fs 7 new_file demo_mt demo_dir
  = WriteSSTableFromBlockEntries demo_bloom demo_fs new_file (sst_path demo_dir 7)
      (mt_items demo_mt).
Proof.
  apply (writers_agree demo_bloom demo_fs 7 new_file demo_mt demo_dir);
    [apply demo_bloom_ok|apply demo_mt_ok].
Defined.

(** A disk that cannot sync the directory. *)
Definition unsynced_dir (path : bytes) : BrokenFile os_File := mkBroken (mkFile [] 0) [OpSyncDir].

(** The error is reported, and the table is there. *)
Lemma flush_atomic_witness :
  exists fs' e sst data, Flush demo_bloom demo_fs 7 unsynced_dir demo_mt demo_dir = (fs', Err e)
    /\ fs' = <[sst_path demo_dir 7 := File data]> demo_fs
    /\ complete_table demo_bloom (sst_path demo_dir 7) (mt_items demo_mt) data sst
    /\ Open fs' (sst_path demo_dir 7) = Ok sst.
Proof.
  pose proof (flush_atomic demo_bloom demo_fs 7 unsynced_dir demo_mt demo_dir
    demo_bloom_ok demo_mt_ok demo_mt_small) as Hf. cbv zeta in *.
  assert (He : match Flush demo_bloom demo_fs 7 unsynced_dir demo_mt demo_dir with
    | (fs', Err _) => if fs' !! sst_path demo_dir 7 then true else false
    | _ => false end = true) by (vm_compute; reflexivity).
  destruct (Flush demo_bloom demo_fs 7 unsynced_dir demo_mt demo_dir) as [fs' [sst|e|]]; try discriminate He.
  destruct Hf as [_ [->|(f & sst & _ & _ & data & Hfs & Hct & Ho)]]; [vm_compute; reflexivity..| |].
  - vm_compute in He. discriminate He.
  - exists fs', e, sst, data. split; [reflexivity|]. split; [exact Hfs|]. split; [exact Hct|exact Ho].
Defined.

(** C37: a file without a footer blocks the start. If the table directory holds any file that
    is shorter than a footer, or whose last eight bytes are not an offset inside the file, such
    as the temporary file of a flush that a crash interrupted while it wrote a block of text,
    then [OpenAllInDir] does not return the tables, whatever else the directory holds. (A
    temporary file whose contents are already complete is opened as one more table.) *)
Theorem leftover_tmp_blocks_open (fs : FS) (dir name d : bytes) (tables : list SSTable) :
  fs !! dir = Some Dir -> fs !! (dir ++ slash :: name) = Some (File d) ->
  slash ∉ name -> name <> [] -> no_footer d = true ->
  OpenAllInDir fs dir <> Ok tables.
Proof. apply OpenAllInDir_no_footer. Qed.

(** The first bytes of a table whose flush was cut short. *)
Definition half_table : bytes := take 30 (encodeBlock (mt_items demo_mt)).

Lemma leftover_tmp_blocks_open_witness :
  blen half_table = 30
  /\ OpenAllInDir (<[sst_path demo_dir 7 ++ dot_tmp := File half_table]> demo_fs) demo_dir <> Ok [].
Proof.
  split; [vm_compute; reflexivity|].
  apply (leftover_tmp_blocks_open _ demo_dir (bytes_of "7.sst.tmp") half_table []);
    [reflexivity|reflexivity| |done|vm_compute; reflexivity].
  by apply (bool_decide_eq_false_1 (slash ∈ bytes_of "7.sst.tmp")).
Defined.
