(* ===== verification/SstReader.v ===== *)
(** * Reading SSTables ([src/sstable/sstable.go], [iterator.go], [block_iterator.go],
      [sort_entries.go])

    Block reads through the shared cache, the iterator that walks a table from a seek
    position, point lookups, the whole-table iterator of compaction, and the sort of merged
    entries.

    The cache is any implementation of [Cache.Cacher]; the theorems are proved against its
    laws: whatever was evicted or cached before, a read answers what the file holds. *)

From S2P Require Import Prelude Config Base Mvcc Memtable Bloom Cache Bufio Block Fs Sstable.

(** ** Block reads *)

(** [fmt.Sprintf("%s:%d", sst.FilePath, idx.Offset)] *)
Definition colon : byte := Byte.x3a.
Definition block_cacheKey (path : bytes) (off : Z) : bytes := path ++ colon :: fmt_d off.

(** Opening the file, seeking to the block and reading it. [make] with a negative length
    panics. *)
Definition read_block_file (fs : FS) (path : bytes) (idx : IndexEntry) : result (list kv) :=
  let* file := os_Open fs path in
  let* r := seek_start file (Offset idx) in
  let* (blockBytes, _) := if Length idx <? 0 then Panic else io_ReadFull (Length idx) r in
  decodeBlock blockBytes.

Section reader.
Context {C : Type} `{CC : Cacher (list kv) C}.

(** A computation that may use the shared block cache. *)
Definition cached (A : Type) : Type := C -> result A * C.

Definition cret {A} (r : result A) : cached A := fun c => (r, c).
Definition cbind {A B} (m : cached A) (k : A -> cached B) : cached B := fun c =>
  match m c with
  | (Ok a, c') => k a c'
  | (Err e, c') => (Err e, c')
  | (Panic, c') => (Panic, c')
  end.

Definition cGet (key : bytes) : cached (option (list kv)) := fun c =>
  match cache_Get c key with
  | Ok (o, c') => (Ok o, c')
  | Err e => (Err e, c)
  | Panic => (Panic, c)
  end.

Definition cPut (key : bytes) (v : list kv) : cached unit := fun c =>
  match cache_Put c key v with
  | Ok c' => (Ok tt, c')
  | Err e => (Err e, c)
  | Panic => (Panic, c)
  end.
End reader.

Notation "'let$' x := m 'in' k" := (cbind m (fun x => k))
  (at level 10, x pattern, m at level 100, k at level 200) : go_scope.

Section table_reader.
Context {C : Type} `{CC : Cacher (list kv) C} (fs : FS).

Definition readBlock (sst : SSTable) (idx : IndexEntry) : cached (list kv) :=
  let cacheKey := block_cacheKey (FilePath sst) (Offset idx) in
  let$ hit := if has_cache sst then cGet cacheKey else cret (Ok None) in
  match hit with
  | Some entries => cret (Ok entries)
  | None =>
      let$ entries := cret (read_block_file fs (FilePath sst) idx) in
      let$ _ := if has_cache sst then cPut cacheKey entries else cret (Ok tt) in
      cret (Ok entries)
  end.

(** ** The iterator ([iterator.go]) *)

Record Iterator := mkIter {
  it_sst : SSTable;
  it_snapshot : Z;
  blockIdx : Z;
  it_entries : list kv;
  it_pos : nat;
  it_valid : bool
}.

(** [it.entries[it.pos]] *)
Definition it_cur (it : Iterator) : result kv :=
  match it_entries it !! it_pos it with Some e => Ok e | None => Panic end.

Definition set_valid (it : Iterator) (v : bool) : Iterator :=
  mkIter (it_sst it) (it_snapshot it) (blockIdx it) (it_entries it) (it_pos it) v.

Definition loadBlock (it : Iterator) : cached Iterator :=
  if blen (sst_index (it_sst it)) <=? blockIdx it then cret (Ok (set_valid it false))
  else
    let$ idx := cret (index_at (sst_index (it_sst it)) (blockIdx it)) in
    let$ entries := readBlock (it_sst it) idx in
    cret (Ok (mkIter (it_sst it) (it_snapshot it) (blockIdx it) entries 0 (0 <? blen entries))).

(** Returns whether there is a next entry; an error of [loadBlock] is not reported. *)
Definition advance (it : Iterator) : cached (bool * Iterator) := fun c =>
  let it := mkIter (it_sst it) (it_snapshot it) (blockIdx it) (it_entries it)
              (S (it_pos it)) (it_valid it) in
  if (it_pos it <? length (it_entries it))%nat then (Ok (true, it), c)
  else
    let it := mkIter (it_sst it) (it_snapshot it) (blockIdx it + 1) (it_entries it)
                (it_pos it) (it_valid it) in
    match loadBlock it c with
    | (Ok it', c') => (Ok (it_valid it', it'), c')
    | (Err _, c') => (Ok (false, set_valid it false), c')
    | (Panic, c') => (Panic, c')
    end.

(** The loops of [NewIterator] and [skipInvisible]: advance while the current key satisfies
    [p]. A block of [n] bytes has at most [n] entries, so [it_fuel] iterations are enough. *)
Fixpoint skip_while (p : InternalKey -> bool) (fuel : nat) (it : Iterator) : cached Iterator :=
  if it_valid it then
    let$ e := cret (it_cur it) in
    if p (DecodeInternalKey (Key e)) then
      match fuel with
      | O => cret Panic
      | S fuel' =>
          let$ (more, it') := advance it in
          if more then skip_while p fuel' it' else cret (Ok it')
      end
    else cret (Ok it)
  else cret (Ok it).

Definition it_fuel (sst : SSTable) : nat :=
  foldr (fun idx n => Z.to_nat (Length idx) + n)%nat 0%nat (sst_index sst).

Definition skipInvisible (it : Iterator) : cached Iterator :=
  skip_while (fun k => negb (Visible k (it_snapshot it))) (it_fuel (it_sst it)) it.

Definition EncodeSearchKeyAt (userKey : bytes) (snapshot : Z) : bytes :=
  encodeIK (MakeSearchKeyAt userKey snapshot).
Definition EncodeSearchKey (userKey : bytes) : bytes := encodeIK (MakeSearchKey userKey).

Definition NewIterator (sst : SSTable) (lowerBound : bytes) (snapshot : Z) : cached Iterator :=
  let encodedSeek := EncodeSearchKeyAt lowerBound snapshot in
  let seekKey := DecodeInternalKey encodedSeek in
  let$ i := cret (searchIndex (sst_index sst) encodedSeek) in
  let i := if i <? 0 then 0 else i in
  let$ it := loadBlock (mkIter sst snapshot i [] 0 false) in
  let$ it := skip_while (fun current => InternalCompare bytes_Compare current seekKey <? 0)
               (it_fuel sst) it in
  skipInvisible it.

Definition it_Valid (it : Iterator) : bool := it_valid it.
Definition it_Key (it : Iterator) : result bytes := let* e := it_cur it in Ok (Key e).
Definition it_Value (it : Iterator) : result bytes := let* e := it_cur it in Ok (Value e).

Definition it_Next (it : Iterator) : cached Iterator :=
  let$ (more, it') := advance it in
  if more then skipInvisible it' else cret (Ok it').

(** ** Point lookups ([sstable.go]) *)

Definition Lookup (sst : SSTable) (userKey : bytes) (snapshot : Z) :
    cached (bytes * KEY_LOOKUP_ENUM) :=
  let$ might := cret (MightContain (sst_bloom sst) userKey) in
  if negb might then cret (Ok ([], KEY_ABSENT))
  else
    let$ it := NewIterator sst userKey snapshot in
    if negb (it_Valid it) then cret (Ok ([], KEY_ABSENT))
    else
      let$ key := cret (it_Key it) in
      let ik := DecodeInternalKey key in
      if negb (bytes_Equal (UserKey ik) userKey) then cret (Ok ([], KEY_ABSENT))
      else if Kind ik =? InternalKeyKindDelete then cret (Ok ([], KEY_DELETED))
      else
        let$ v := cret (it_Value it) in
        cret (Ok (v, KEY_FOUND)).

(** ** Whole tables ([block_iterator.go]) *)

(** Reads every block of a table from the file, without the cache. *)
Fixpoint read_blocks (path : bytes) (index : list IndexEntry) : result (list kv) :=
  match index with
  | [] => Ok []
  | idx :: index' =>
      let* blockEntries := read_block_file fs path idx in
      let* entries := read_blocks path index' in
      Ok (blockEntries ++ entries)
  end.

(** [os.Open] comes first: the file must exist even when the index is empty. *)
Definition NewBlockIterator (sst : SSTable) : result (list kv) :=
  let* _ := os_Open fs (FilePath sst) in
  read_blocks (FilePath sst) (sst_index sst).
End table_reader.

(** ** [sort_entries.go]

    [sort.Slice] with the strict order of internal keys. It is not stable, so for entries
    with equal keys the result is not determined; equal keys are the same record in every
    list the compactor sorts. *)
Definition SortEntries (entries : list kv) : list kv := merge_sort ele entries.

(** ** Tables and caches that agree with the files *)

(** Strict order: no encoded key occurs twice in a table. *)
Definition elt (a b : kv) : Prop := ecmp a b < 0.

(** A decoded block has no more entries than bytes. *)
Lemma read_n_length {A} (read1 : bytes -> result (A * bytes)) fuel n r l :
  (forall r e r', read1 r = Ok (e, r') -> (length r' < length r)%nat) ->
  read_n read1 fuel n r = Ok l -> (length l <= length r)%nat.
Proof.
  intros Hd. revert n r l. induction fuel as [|fuel IH]; intros n r l; simpl.
  - case_if; [|done]. intros [= <-]. simpl. lia.
  - case_if; [intros [= <-]; simpl; lia|].
    destruct (read1 r) as [[e r']| |] eqn:E1; simpl; [|done..]. apply Hd in E1.
    destruct (read_n read1 fuel (n - 1) r') as [es| |] eqn:E2; simpl; [|done..].
    apply IH in E2. intros [= <-]. simpl. lia.
Qed.

Lemma decodeBlock_length b es : decodeBlock b = Ok es -> (length es <= length b)%nat.
Proof.
  unfold decodeBlock. case_if; [done|]. case_if; [done|].
  set (d := take _ b). assert (length d <= length b)%nat by (unfold d; rewrite length_take; lia).
  clearbody d. destruct (read_uint32 d) as [[n r]| |] eqn:E1; cbn [rbind]; [|done..].
  apply read_uint32_len in E1. intros Hr%read_n_length; [lia|]. apply readBlockEntry_len.
Qed.

Lemma read_block_file_length fs path idx es :
  read_block_file fs path idx = Ok es -> (length es <= Z.to_nat (Length idx))%nat.
Proof.
  unfold read_block_file. destruct (os_Open fs path) as [f| |]; simpl; [|done..].
  destruct (seek_start f (Offset idx)) as [r| |]; simpl; [|done..]. case_if; [done|].
  destruct (io_ReadFull (Length idx) r) as [[b r']| |] eqn:E1; simpl; [|done..].
  apply io_ReadFull_inv in E1 as [_ Hb]; [|lia]. intros Hd%decodeBlock_length.
  unfold blen in Hb. lia.
Qed.

Section table_facts.
Context {C : Type} `{CL : CacherLaws (list kv) C} (fs : FS).

(** [truth]: for every cache key ever used, the block it stands for. *)
Implicit Types (truth : gmap bytes (list kv)) (sst : SSTable) (blocks : list (list kv)).

(** The file at [path] holds block [b] where the index entry says. *)
Definition block_of truth path (idx : IndexEntry) (b : list kv) : Prop :=
  read_block_file fs path idx = Ok b /\ b <> [] /\ FirstKey idx = from_option Key [] (head b)
  /\ truth !! block_cacheKey path (Offset idx) = Some b.

Record table_ok truth sst blocks : Prop := {
  to_file : exists d, fs !! FilePath sst = Some (File d);
  to_blocks : Forall2 (block_of truth (FilePath sst)) (sst_index sst) blocks;
  to_sorted : StronglySorted elt (concat blocks);
  to_wf : Forall wf_kv (concat blocks);
  to_bloom_ok : bloom_ok (sst_bloom sst);
  to_bloom e : e ∈ concat blocks -> MightContain (sst_bloom sst) (uk e) = Ok true
}.

(** Whatever the cache holds is true. *)
Definition cache_true truth (c : C) : Prop :=
  cache_ok c /\ forall k v, cache_view c k = Some v -> truth !! k = Some v.

(** A cached computation that keeps the cache true and returns a value with [P]. *)
Definition cspec {A} truth (m : cached A) (P : A -> Prop) : Prop :=
  forall c, cache_true truth c -> exists a c', m c = (Ok a, c') /\ cache_true truth c' /\ P a.

Lemma cspec_ret {A} truth (a : A) (P : A -> Prop) : P a -> cspec truth (cret (Ok a)) P.
Proof. intros Ha c Hc. by exists a, c. Qed.

Lemma cspec_bind {A B} truth (m : cached A) (k : A -> cached B) P Q :
  cspec truth m P -> (forall a, P a -> cspec truth (k a) Q) -> cspec truth (cbind m k) Q.
Proof.
  intros Hm Hk c Hc. destruct (Hm c Hc) as (a & c' & Hma & Hc' & Ha). unfold cbind. rewrite Hma.
  by apply Hk.
Qed.

Lemma cspec_mono {A} truth (m : cached A) (P Q : A -> Prop) :
  cspec truth m P -> (forall a, P a -> Q a) -> cspec truth m Q.
Proof. intros Hm HPQ c Hc. destruct (Hm c Hc) as (a & c' & ? & ? & ?). exists a, c'. eauto. Qed.

Lemma cGet_spec truth key :
  cspec truth (cGet key) (fun o => forall v, o = Some v -> truth !! key = Some v).
Proof.
  intros c [Hok Ht]. destruct (cache_Get_spec c key Hok) as (c' & Hg & Hok' & Hv).
  exists (cache_view c key), c'. unfold cGet. rewrite Hg. split; [done|]. split; [|by auto].
  split; [done|]. intros k v. rewrite Hv. apply Ht.
Qed.

Lemma cPut_spec truth key v :
  truth !! key = Some v -> cspec truth (cPut key v) (fun _ => True).
Proof.
  intros Htr c [Hok Ht]. destruct (cache_Put_spec c key v Hok) as (c' & Hp & Hok' & Hv).
  exists tt, c'. unfold cPut. rewrite Hp. split; [done|]. split; [|done].
  split; [done|]. intros k w Hw. destruct (Hv k w Hw) as [[-> ->]|[_ Hold]]; auto.
Qed.

Lemma readBlock_spec truth sst idx b :
  block_of truth (FilePath sst) idx b -> cspec truth (readBlock fs sst idx) (fun es => es = b).
Proof.
  intros (Hr & _ & _ & Ht). unfold readBlock.
  eapply (cspec_bind _ _ _ (fun o => forall v, o = Some v -> v = b)).
  - destruct (has_cache sst); [|by apply cspec_ret].
    eapply cspec_mono; [apply cGet_spec|]. intros o Ho v ->. specialize (Ho v eq_refl). congruence.
  - intros [es|] Ho; [apply cspec_ret; auto|]. rewrite Hr.
    eapply (cspec_bind _ _ _ (fun es => es = b)); [by apply cspec_ret|]. intros es ->.
    eapply (cspec_bind _ _ _ (fun _ => True)); [|intros; by apply cspec_ret].
    destruct (has_cache sst); [by apply cPut_spec|by apply cspec_ret].
Qed.

(** *** The iterator walks the list of records *)

(** [it] stands before the records [l] of the table. *)
Definition it_at sst snapshot blocks (it : Iterator) (l : list kv) : Prop :=
  it_sst it = sst /\ it_snapshot it = snapshot
  /\ if it_valid it then
       exists i b, blockIdx it = Z.of_nat i /\ blocks !! i = Some b /\ it_entries it = b
         /\ (it_pos it < length b)%nat /\ l = drop (it_pos it) b ++ concat (drop (S i) blocks)
     else l = [].

Lemma it_at_cons sst s blocks it e l :
  it_at sst s blocks it (e :: l) -> it_valid it = true /\ it_cur it = Ok e.
Proof.
  intros (_ & _ & Hi). destruct (it_valid it); [|done]. split; [done|].
  destruct Hi as (i & b & _ & _ & Hb & Hp & Heq). unfold it_cur. rewrite Hb.
  destruct (b !! it_pos it) as [x|] eqn:Hx.
  - rewrite (drop_S _ x) in Heq by done. by injection Heq as <- _.
  - apply lookup_ge_None in Hx. lia.
Qed.

Lemma it_at_nil sst s blocks it : it_at sst s blocks it [] -> it_valid it = false.
Proof.
  intros (_ & _ & Hi). destruct (it_valid it); [|done].
  destruct Hi as (i & b & _ & _ & _ & Hp & Heq). symmetry in Heq.
  apply app_nil in Heq as [Hd _]. apply (f_equal length) in Hd. rewrite length_drop in Hd.
  simpl in Hd. lia.
Qed.

Lemma loadBlock_spec truth sst s blocks it i :
  table_ok truth sst blocks -> it_sst it = sst -> it_snapshot it = s -> blockIdx it = Z.of_nat i ->
  cspec truth (loadBlock fs it) (fun it' => it_at sst s blocks it' (concat (drop i blocks))).
Proof.
  intros Ht Hsst Hsnap Hi. pose proof (to_blocks _ _ _ Ht) as Hf.
  pose proof (Forall2_length _ _ _ Hf) as Hlen.
  unfold loadBlock. rewrite Hsst, Hi. case_if.
  - apply cspec_ret. split; [done|]. split; [done|]. simpl. rewrite drop_ge; [done|].
    unfold blen in E. lia.
  - destruct (lookup_lt_is_Some_2 (sst_index sst) i) as [idx Hidx]; [unfold blen in E; lia|].
    destruct (Forall2_lookup_l _ _ _ _ _ Hf Hidx) as (b & Hb & Hbo).
    rewrite (index_at_Some _ _ _ Hidx).
    eapply (cspec_bind _ _ _ (fun x => x = idx)); [by apply cspec_ret|]. intros ? ->.
    eapply cspec_bind; [by apply readBlock_spec|]. intros ? ->. apply cspec_ret.
    destruct Hbo as (_ & Hne & _).
    assert (Hl : (0 < length b)%nat) by (destruct b; [done|simpl; lia]).
    split; [done|]. split; [done|]. simpl.
    rewrite (proj2 (Z.ltb_lt 0 (blen b))) by (unfold blen; lia).
    exists i, b. split; [done|]. split; [done|]. split; [done|]. split; [done|].
    by rewrite drop_0, (drop_S _ b) by done.
Qed.

Lemma advance_spec truth sst s blocks it e l :
  table_ok truth sst blocks -> it_at sst s blocks it (e :: l) ->
  cspec truth (advance fs it) (fun r => r.1 = it_valid r.2 /\ it_at sst s blocks r.2 l).
Proof.
  intros Ht Hat c Hc. destruct (it_at_cons _ _ _ _ _ _ Hat) as [Hv _].
  destruct Hat as (Hsst & Hsnap & Hx). rewrite Hv in Hx.
  destruct Hx as (i & b & Hi & Hb & Hen & Hp & Heq). unfold advance. cbv zeta. simpl it_pos.
  simpl it_entries. rewrite Hen. destruct (Nat.ltb_spec (S (it_pos it)) (length b)) as [Hlt|Hge].
  - eexists _, c. split; [done|]. split; [done|]. split; [done|]. split; [done|].
    split; [done|]. cbn [snd it_valid]. rewrite Hv. exists i, b. simpl.
    split; [done|]. split; [done|]. split; [done|]. split; [done|].
    destruct (lookup_lt_is_Some_2 b (it_pos it) Hp) as [x Hx].
    rewrite (drop_S _ x) in Heq by done. by injection Heq.
  - set (it1 := mkIter _ _ _ _ _ _).
    destruct (loadBlock_spec truth sst s blocks it1 (S i) Ht) with (c := c)
      as (it' & c' & -> & Hc' & Hat'); [done|done|simpl; lia|done|].
    exists (it_valid it', it'), c'. split; [done|]. split; [done|]. split; [done|].
    simpl.
    destruct (lookup_lt_is_Some_2 b (it_pos it) Hp) as [x Hx].
    rewrite (drop_S _ x), (drop_ge b (S (it_pos it))) in Heq by (done || lia).
    by injection Heq as -> ->.
Qed.

Fixpoint drop_while (p : kv -> bool) (l : list kv) : list kv :=
  match l with
  | [] => []
  | e :: l' => if p e then drop_while p l' else l
  end.

Lemma skip_while_spec truth sst s blocks (p : InternalKey -> bool) fuel it l :
  table_ok truth sst blocks -> it_at sst s blocks it l -> (length l <= fuel)%nat ->
  cspec truth (skip_while fs p fuel it)
    (fun it' => it_at sst s blocks it' (drop_while (fun e => p (ik e)) l)).
Proof.
  intros Ht. revert it l. induction fuel as [|fuel IH]; intros it l Hat Hf.
  - destruct l as [|e l]; [|simpl in Hf; lia]. simpl.
    rewrite (it_at_nil _ _ _ _ Hat). by apply cspec_ret.
  - destruct l as [|e l]; simpl.
    { rewrite (it_at_nil _ _ _ _ Hat). by apply cspec_ret. }
    destruct (it_at_cons _ _ _ _ _ _ Hat) as [-> ->].
    eapply (cspec_bind _ _ _ (fun x => x = e)); [by apply cspec_ret|]. intros ? ->.
    fold (ik e). destruct (p (ik e)); [|by apply cspec_ret].
    eapply cspec_bind; [by eapply advance_spec|]. intros [more it'] [Hm Hat']. simpl in *.
    subst more. destruct l as [|x l].
    + rewrite (it_at_nil _ _ _ _ Hat'). by apply cspec_ret.
    + destruct (it_at_cons _ _ _ _ _ _ Hat') as [-> _]. apply IH; [done|simpl in *; lia].
Qed.

Lemma it_fuel_enough truth sst blocks :
  table_ok truth sst blocks -> (length (concat blocks) <= it_fuel sst)%nat.
Proof.
  intros Ht. pose proof (to_blocks _ _ _ Ht) as Hf. unfold it_fuel. clear Ht.
  revert Hf. generalize (FilePath sst) as path. intros path Hf.
  induction Hf as [|idx b index bs (Hr & _) _ IH]; [done|]. simpl. rewrite length_app.
  apply read_block_file_length in Hr. lia.
Qed.

(** *** Seeking *)

Lemma elt_ele a b : elt a b -> ele a b.
Proof. unfold elt, ele. lia. Qed.

Lemma sorted_elt_ele l : StronglySorted elt l -> StronglySorted ele l.
Proof.
  induction 1 as [|x l Hs IH Hx]; constructor; [done|].
  eapply Forall_impl; [exact Hx|]. apply elt_ele.
Qed.

Lemma sorted_app_elt l1 l2 :
  StronglySorted elt (l1 ++ l2) ->
  StronglySorted elt l1 /\ StronglySorted elt l2 /\ forall a b, a ∈ l1 -> b ∈ l2 -> elt a b.
Proof.
  induction l1 as [|x l1 IH]; simpl.
  - intros Hs. split; [constructor|]. split; [done|]. intros a b Ha. by apply elem_of_nil in Ha.
  - inversion 1 as [|? ? Hs Hx]; subst. destruct (IH Hs) as (H1 & H2 & H3).
    apply Forall_app in Hx as [Hx1 Hx2]. split; [by constructor|]. split; [done|].
    rewrite Forall_forall in Hx2. intros a b [->|Ha]%elem_of_cons Hb; auto.
Qed.

Lemma drop_while_from p l :
  StronglySorted elt l -> drop_while (fun e => kcmp (Key e) p <? 0) l = from p l.
Proof.
  induction 1 as [|x l Hs IH Hx]; [done|]. unfold from in *. simpl. rewrite filter_cons. case_if.
  - by rewrite decide_False by lia.
  - rewrite decide_True by lia. f_equal. symmetry. apply filter_all. intros y Hy.
    rewrite Forall_forall in Hx. specialize (Hx y Hy). unfold elt, ecmp in Hx.
    destruct (Z.lt_ge_cases (kcmp (Key y) p) 0) as [Hlt|]; [|done].
    pose proof (cmp_trans (f := InternalCompare bytes_Compare) _ _ _ Hx Hlt) as Hc.
    unfold kcmp in *. lia.
Qed.

(** The first keys of later blocks are later. *)
Lemma blocks_heads blocks (i j : nat) a b x y :
  StronglySorted elt (concat blocks) -> (i < j)%nat -> blocks !! i = Some a -> blocks !! j = Some b ->
  x ∈ a -> y ∈ b -> elt x y.
Proof.
  intros Hs Hij Ha Hb Hx Hy.
  rewrite <- (take_drop j blocks), concat_app in Hs. apply sorted_app_elt in Hs as (_ & _ & Hlt).
  apply Hlt.
  - apply list_elem_of_In, in_concat. exists a. split; [|by apply list_elem_of_In].
    apply list_elem_of_In, list_elem_of_lookup. exists i. by rewrite lookup_take_lt.
  - apply list_elem_of_In, in_concat. exists b. split; [|by apply list_elem_of_In].
    apply list_elem_of_In, list_elem_of_lookup. exists 0%nat. by rewrite lookup_drop, Nat.add_0_r.
Qed.

Lemma block_of_head truth path idx b :
  block_of truth path idx b -> exists e, e ∈ b /\ FirstKey idx = Key e.
Proof.
  intros (_ & Hne & Hf & _). destruct b as [|e b]; [done|]. exists e.
  split; [apply list_elem_of_here|done].
Qed.

Lemma table_index_sorted truth sst blocks :
  table_ok truth sst blocks -> index_sorted (sst_index sst).
Proof.
  intros Ht i j a b Hij Ha Hb. pose proof (to_blocks _ _ _ Ht) as Hf.
  destruct (decide (i = j)) as [->|Hne].
  { assert (a = b) as -> by congruence. unfold kcmp. by rewrite (cmp_refl _). }
  destruct (Forall2_lookup_l _ _ _ _ _ Hf Ha) as (ba & Hba & (x & Hx & ->)%block_of_head).
  destruct (Forall2_lookup_l _ _ _ _ _ Hf Hb) as (bb & Hbb & (y & Hy & ->)%block_of_head).
  apply elt_ele, (blocks_heads blocks i j ba bb); [apply Ht|lia|done..].
Qed.

(** The block the index search selects is not past the seek position. *)
Lemma from_search truth sst blocks key i :
  table_ok truth sst blocks -> searchIndex (sst_index sst) key = Ok i ->
  from key (concat blocks) = from key (concat (drop (Z.to_nat i) blocks)).
Proof.
  intros Ht Hi. destruct (searchIndex_ok (sst_index sst) key) as (i' & Hi' & Hr & Hspec).
  assert (i' = i) as -> by congruence.
  destruct (decide (i <= 0)); [by replace (Z.to_nat i) with 0%nat by lia|].
  rewrite <- (take_drop (Z.to_nat i) blocks) at 1. rewrite concat_app. unfold from.
  rewrite filter_app, filter_none; [done|]. intros x Hx Hge.
  apply list_elem_of_In, in_concat in Hx as (b & Hb & Hx%list_elem_of_In).
  apply list_elem_of_In, list_elem_of_lookup in Hb as (j & Hj). 
  apply lookup_take_Some in Hj as [Hj Hlt].
  destruct (lookup_lt_is_Some_2 (sst_index sst) (Z.to_nat i)) as [idx Hidx]; [unfold blen in Hr; lia|].
  destruct (Forall2_lookup_l _ _ _ _ _ (to_blocks _ _ _ Ht) Hidx)
    as (bi & Hbi & (y & Hy & Hfk)%block_of_head).
  assert (Hle : kcmp (FirstKey idx) key <= 0).
  { apply (Hspec (table_index_sorted _ _ _ Ht) _ _ Hidx). lia. }
  rewrite Hfk in Hle.
  pose proof (blocks_heads blocks j (Z.to_nat i) b bi x y (to_sorted _ _ _ Ht) Hlt Hj Hbi Hx Hy) as Hxy.
  pose proof (cmp_lt_le_trans (InternalCompare bytes_Compare) _ _ _ Hxy Hle). unfold kcmp in *. lia.
Qed.

Definition invisible (s : Z) (e : kv) : bool := negb (Visible (ik e) s).

Lemma drop_while_length p l : (length (drop_while p l) <= length l)%nat.
Proof. induction l as [|e l IH]; simpl; [lia|]. destruct (p e); simpl; lia. Qed.

Lemma concat_drop_length (blocks : list (list kv)) i :
  (length (concat (drop i blocks)) <= length (concat blocks))%nat.
Proof.
  rewrite <- (take_drop i blocks) at 2. rewrite concat_app, length_app. lia.
Qed.

Lemma NewIterator_spec truth sst blocks lb s :
  table_ok truth sst blocks ->
  cspec truth (NewIterator fs sst lb s) (fun it =>
    it_at sst s blocks it (drop_while (invisible s) (from (search_bytes lb s) (concat blocks)))).
Proof.
  intros Ht. unfold NewIterator. change (EncodeSearchKeyAt lb s) with (search_bytes lb s).
  destruct (searchIndex_ok (sst_index sst) (search_bytes lb s)) as (i & Hi & Hr & _).
  rewrite Hi. eapply (cspec_bind _ _ _ (fun x => x = i)); [by apply cspec_ret|]. intros ? ->.
  cbv zeta. set (i' := if i <? 0 then 0 else i).
  assert (Hi' : i' = Z.of_nat (Z.to_nat i)) by (unfold i'; case_if; lia).
  rewrite (from_search _ _ _ _ _ Ht Hi).
  set (l := concat (drop (Z.to_nat i) blocks)).
  assert (Hfuel : (length l <= it_fuel sst)%nat).
  { etrans; [apply concat_drop_length|]. by eapply it_fuel_enough. }
  assert (Hls : StronglySorted elt l).
  { pose proof (to_sorted _ _ _ Ht) as Hs. rewrite <- (take_drop (Z.to_nat i) blocks) in Hs.
    rewrite concat_app in Hs. by apply sorted_app_elt in Hs as (_ & ? & _). }
  eapply cspec_bind; [by apply (loadBlock_spec truth sst s blocks _ (Z.to_nat i))|].
  intros it Hit. eapply cspec_bind.
  { eapply (skip_while_spec truth sst s blocks); [exact Ht|exact Hit|exact Hfuel]. }
  intros it2 Hit2.
  fold l in Hit2. rewrite <- drop_while_from by done.
  unfold skipInvisible. pose proof Hit2 as (Hsst & Hsnap & _). rewrite Hsst, Hsnap.
  eapply (skip_while_spec truth sst s blocks); [exact Ht|exact Hit2|]. etrans; [apply drop_while_length|done].
Qed.

(** *** Lookups *)

Lemma drop_while_head p l e l' : drop_while p l = e :: l' -> p e = false /\ e ∈ l.
Proof.
  induction l as [|x l IH]; simpl; [done|]. destruct (p x) eqn:Hp.
  - intros H1. destruct (IH H1). split; [done|]. by apply list_elem_of_further.
  - intros [= -> ->]. split; [done|apply list_elem_of_here].
Qed.

(** What the iterator shows first, for a lookup. *)
Lemma lookup_seek k s es :
  0 <= s <= SeqNumMax -> Forall wf_kv es -> StronglySorted elt es ->
  newest k s es =
    match drop_while (invisible s) (from (search_bytes k s) es) with
    | e :: _ => if bytes_Equal (uk e) k then Some e else None
    | [] => None
    end.
Proof.
  intros Hs Hwf Hsort. pose proof (sorted_elt_ele es Hsort) as Hse.
  rewrite newest_seek by done.
  assert (Hge : Forall (fun e => wf_kv e /\ 0 <= kcmp (Key e) (search_bytes k s))
    (from (search_bytes k s) es)).
  { rewrite Forall_forall in *. intros e [He Hin]%list_elem_of_filter. auto. }
  pose proof (sorted_from (search_bytes k s) es Hse) as Hsf.
  destruct (from (search_bytes k s) es) as [|e r]; [done|].
  inversion_clear Hsf as [|? ? _ Hle]. apply Forall_cons_1 in Hge as [[Hwe Hce] Hge].
  unfold bytes_Equal at 1. case_bool_decide as Hk.
  - simpl. assert (invisible s e = false) as ->.
    { unfold invisible, Visible. apply negb_false_iff, Z.leb_le. fold (seqn e).
      by apply (search_bytes_ge k s e) in Hce. }
    unfold bytes_Equal. by rewrite bool_decide_eq_true_2.
  - assert (Hlt : bytes_Compare k (uk e) < 0) by (by eapply search_bytes_uk).
    destruct (drop_while (invisible s) (e :: r)) as [|x l] eqn:E; [done|].
    apply drop_while_head in E as [_ Hin]. unfold bytes_Equal. rewrite bool_decide_eq_false_2; [done|].
    intros Hx. assert (ele e x) as Hex.
    { apply elem_of_cons in Hin as [->|Hin]; [done|]. rewrite Forall_forall in Hle. auto. }
    apply ele_uk in Hex. rewrite Hx in Hex.
    pose proof (cmp_lt_le_trans bytes_Compare _ _ _ Hlt Hex) as Hc.
    by rewrite (cmp_refl bytes_Compare) in Hc.
Qed.

Lemma Lookup_spec truth sst blocks k s :
  table_ok truth sst blocks -> 0 <= s <= SeqNumMax ->
  cspec truth (Lookup fs sst k s) (fun r => r = lookup_result (newest k s (concat blocks))).
Proof.
  intros Ht Hs. unfold Lookup.
  destruct (MightContain_total (sst_bloom sst) k (to_bloom_ok _ _ _ Ht)) as [b Hb]. rewrite Hb.
  eapply (cspec_bind _ _ _ (fun x => x = b)); [by apply cspec_ret|]. intros ? ->.
  destruct b; simpl.
  - eapply cspec_bind; [by apply NewIterator_spec|]. intros it Hit.
    rewrite (lookup_seek k s _ Hs (to_wf _ _ _ Ht) (to_sorted _ _ _ Ht)).
    destruct (drop_while (invisible s) _) as [|e l].
    { unfold it_Valid. rewrite (it_at_nil _ _ _ _ Hit). by apply cspec_ret. }
    destruct (it_at_cons _ _ _ _ _ _ Hit) as [Hv Hcur]. unfold it_Valid, it_Key, it_Value.
    rewrite Hv, Hcur. simpl.
    eapply (cspec_bind _ _ _ (fun x => x = Key e)); [by apply cspec_ret|]. intros ? ->.
    fold (ik e). change (UserKey (ik e)) with (uk e).
    destruct (bytes_Equal (uk e) k); simpl; [|by apply cspec_ret].
    destruct (Kind (ik e) =? InternalKeyKindDelete); [by apply cspec_ret|].
    eapply (cspec_bind _ _ _ (fun x => x = Value e)); [by apply cspec_ret|]. intros ? ->.
    by apply cspec_ret.
  - assert (newest k s (concat blocks) = None) as ->; [|by apply cspec_ret].
    apply newest_None. intros e He. destruct (visible_in k s e) eqn:Hv; [|done].
    apply visible_in_true in Hv as [Hk _]. pose proof (to_bloom _ _ _ Ht e He) as Hm.
    rewrite Hk in Hm. congruence.
Qed.

(** *** Enumerating a table *)

(** [it] will yield the records [v]. *)
Definition it_yields sst s blocks (it : Iterator) (v : list kv) : Prop :=
  exists l, it_at sst s blocks it l /\ drop_while (invisible s) l = l
    /\ v = filter (fun e => seqn e <= s) l /\ (length l <= it_fuel sst)%nat.

Lemma invisible_false s e : invisible s e = false <-> seqn e <= s.
Proof. unfold invisible, Visible. fold (seqn e). rewrite negb_false_iff. apply Z.leb_le. Qed.

Lemma filter_drop_while s l :
  filter (fun e => seqn e <= s) (drop_while (invisible s) l) = filter (fun e => seqn e <= s) l.
Proof.
  induction l as [|e l IH]; simpl; [done|]. destruct (invisible s e) eqn:E; [|done].
  rewrite IH, (filter_cons _ e). rewrite decide_False; [done|].
  intros He%invisible_false. congruence.
Qed.

Lemma drop_while_idemp p l : drop_while p (drop_while p l) = drop_while p l.
Proof. induction l as [|e l IH]; simpl; [done|]. destruct (p e) eqn:E; [done|]. simpl. by rewrite E. Qed.

Lemma it_yields_nil sst s blocks it : it_yields sst s blocks it [] -> it_valid it = false.
Proof.
  intros (l & Hat & Hd & Hv & _). destruct l as [|e l]; [by eapply it_at_nil|].
  simpl in Hd. destruct (invisible s e) eqn:E.
  - apply (f_equal length) in Hd. pose proof (drop_while_length (invisible s) l). simpl in Hd. lia.
  - apply invisible_false in E. rewrite filter_cons, decide_True in Hv by done. done.
Qed.

Lemma it_yields_cons sst s blocks it e v :
  it_yields sst s blocks it (e :: v) -> it_valid it = true /\ it_cur it = Ok e.
Proof.
  intros (l & Hat & Hd & Hv & _). destruct l as [|x l]; [done|].
  destruct (it_at_cons _ _ _ _ _ _ Hat) as [? Hc]. split; [done|]. rewrite Hc.
  simpl in Hd. destruct (invisible s x) eqn:E.
  - apply (f_equal length) in Hd. pose proof (drop_while_length (invisible s) l). simpl in Hd. lia.
  - apply invisible_false in E. rewrite filter_cons, decide_True in Hv by done. congruence.
Qed.

Lemma it_yields_intro truth sst s blocks it l :
  table_ok truth sst blocks -> it_at sst s blocks it (drop_while (invisible s) l) ->
  (length l <= it_fuel sst)%nat -> it_yields sst s blocks it (filter (fun e => seqn e <= s) l).
Proof.
  intros Ht Hat Hf. eexists. split; [exact Hat|]. split; [apply drop_while_idemp|].
  split; [by rewrite filter_drop_while|]. etrans; [apply drop_while_length|done].
Qed.

Lemma it_Next_spec truth sst s blocks it e v :
  table_ok truth sst blocks -> it_yields sst s blocks it (e :: v) ->
  cspec truth (it_Next fs it) (fun it' => it_yields sst s blocks it' v).
Proof.
  intros Ht Hy. pose proof Hy as (l & Hat & Hd & Hv & Hf). destruct l as [|x l]; [done|].
  destruct (it_yields_cons _ _ _ _ _ _ Hy) as [_ Hc].
  destruct (it_at_cons _ _ _ _ _ _ Hat) as [_ Hc']. assert (x = e) as -> by congruence.
  assert (v = filter (fun e => seqn e <= s) l) as ->.
  { rewrite filter_cons in Hv. case_decide as Hde; [congruence|].
    simpl in Hd. destruct (invisible s e) eqn:E; [|by apply invisible_false in E].
    apply (f_equal length) in Hd. pose proof (drop_while_length (invisible s) l). simpl in Hd. lia. }
  unfold it_Next. eapply cspec_bind; [by eapply advance_spec|]. intros [more it'] [Hm Hat'].
  simpl in *. subst more. destruct (it_valid it') eqn:Hval.
  - unfold skipInvisible. pose proof Hat' as (Hsst & Hsnap & _). rewrite Hsst, Hsnap.
    eapply cspec_mono; [eapply (skip_while_spec truth sst s blocks); [exact Ht|exact Hat'|lia]|].
    intros it2 Hat2. eapply it_yields_intro; [exact Ht|exact Hat2|lia].
  - apply cspec_ret. destruct l as [|y l]; [|by destruct (it_at_cons _ _ _ _ _ _ Hat'); congruence].
    exists []. split; [done|]. split; [done|]. split; [done|]. simpl. lia.
Qed.

Lemma NewIterator_yields truth sst blocks lb s :
  table_ok truth sst blocks -> 0 <= s <= SeqNumMax ->
  cspec truth (NewIterator fs sst lb s) (fun it =>
    it_yields sst s blocks it (filter (in_range lb None s) (concat blocks))).
Proof.
  intros Ht Hs. eapply cspec_mono; [by apply NewIterator_spec|]. intros it Hat.
  assert (filter (in_range lb None s) (concat blocks)
    = filter (fun e => seqn e <= s) (from (search_bytes lb s) (concat blocks))) as ->.
  { unfold from. rewrite list_filter_filter. apply list_filter_iff_in. intros e He.
    pose proof (to_wf _ _ _ Ht) as Hwf. rewrite Forall_forall in Hwf.
    rewrite <- (search_bytes_range lb None s e Hs (Hwf e He)). simpl. tauto. }
  eapply it_yields_intro; [exact Ht|exact Hat|].
  etrans; [|by eapply it_fuel_enough]. apply length_filter.
Qed.

(** [for ; it.Valid(); it.Next()], collecting the records. *)
Fixpoint it_collect (fuel : nat) (it : Iterator) : cached (list kv) :=
  if it_Valid it then
    match fuel with
    | O => cret Panic
    | S fuel' =>
        let$ k := cret (it_Key it) in
        let$ v := cret (it_Value it) in
        let$ it' := it_Next fs it in
        let$ l := it_collect fuel' it' in
        cret (Ok (mkKV k v :: l))
    end
  else cret (Ok []).

Lemma it_collect_spec truth sst s blocks fuel it v :
  table_ok truth sst blocks -> it_yields sst s blocks it v -> (length v <= fuel)%nat ->
  cspec truth (it_collect fuel it) (fun l => l = v).
Proof.
  intros Ht. revert it v. induction fuel as [|fuel IH]; intros it v Hy Hf.
  - destruct v as [|e v]; [|simpl in Hf; lia]. simpl. unfold it_Valid.
    rewrite (it_yields_nil _ _ _ _ Hy). by apply cspec_ret.
  - destruct v as [|e v]; simpl; unfold it_Valid.
    { rewrite (it_yields_nil _ _ _ _ Hy). by apply cspec_ret. }
    destruct (it_yields_cons _ _ _ _ _ _ Hy) as [Hv Hc]. rewrite Hv.
    unfold it_Key, it_Value. rewrite Hc. simpl.
    eapply (cspec_bind _ _ _ (fun x => x = Key e)); [by apply cspec_ret|]. intros ? ->.
    eapply (cspec_bind _ _ _ (fun x => x = Value e)); [by apply cspec_ret|]. intros ? ->.
    eapply cspec_bind; [by eapply it_Next_spec|]. intros it' Hy'.
    eapply cspec_bind; [apply (IH it' v Hy'); simpl in Hf; lia|]. intros ? ->.
    apply cspec_ret. by destruct e.
Qed.

(** *** Whole tables *)

Lemma NewBlockIterator_ok truth sst blocks :
  table_ok truth sst blocks -> NewBlockIterator fs sst = Ok (concat blocks).
Proof.
  intros Ht. unfold NewBlockIterator. destruct (to_file _ _ _ Ht) as [d Hd].
  unfold os_Open. rewrite Hd. simpl. pose proof (to_blocks _ _ _ Ht) as Hf. clear Ht Hd.
  revert Hf. generalize (FilePath sst) as path. intros path Hf.
  induction Hf as [|idx b index bs (Hr & _) _ IH]; [done|]. simpl. rewrite Hr. simpl.
  by rewrite IH.
Qed.
End table_facts.

(** ** Tables the writers produce *)

Lemma block_cacheKey_inj p q a b :
  block_cacheKey p a = block_cacheKey q b -> p = q /\ a = b.
Proof.
  intros H. assert (Hc : forall z, colon ∉ fmt_d z).
  { intros z. apply fmt_d_no_char. intros [Hd|Hd]; [done|]. vm_compute in Hd. by destruct Hd. }
  apply split_last_inj in H as [-> H]; [|apply Hc..]. split; [done|]. by apply fmt_d_inj.
Qed.

(** What the cache keys of a new table stand for. *)
Fixpoint truth_of (path : bytes) (off : Z) (blocks : list (list kv)) : gmap bytes (list kv) :=
  match blocks with
  | [] => ∅
  | b :: bs => <[block_cacheKey path off := b]> (truth_of path (off + blen (encodeBlock b)) bs)
  end.

Lemma truth_of_Some path off blocks k b :
  truth_of path off blocks !! k = Some b -> exists o, k = block_cacheKey path o.
Proof.
  revert off. induction blocks as [|x bs IH]; intros off; simpl; [done|].
  rewrite lookup_insert. case_decide as Hk; [eauto|]. apply IH.
Qed.

Lemma blen_encodeBlock_pos b : 0 < blen (encodeBlock b).
Proof.
  rewrite blen_encodeBlock. pose proof (entries_size_count b). pose proof (blen_nonneg b). lia.
Qed.

Lemma block_fits_fits32 b : block_fits b -> Forall fits32 b /\ blen b < 2 ^ 32.
Proof.
  intros (_ & Hsm & Hl). split.
  - eapply Forall_impl; [exact Hsm|]. intros e He. unfold kv_small, fits32 in *.
    pose proof (blen_nonneg (Key e)). pose proof (blen_nonneg (Value e)). lia.
  - rewrite blen_encodeBlock in Hl. pose proof (entries_size_count b). lia.
Qed.

Lemma read_block_at fs path (pre rest : bytes) b k :
  block_fits b -> fs !! path = Some (File (pre ++ encodeBlock b ++ rest)) ->
  read_block_file fs path (mkIndexEntry k (blen pre) (blen (encodeBlock b))) = Ok b.
Proof.
  intros Hb Hf. unfold read_block_file, os_Open. rewrite Hf. cbn [rbind Offset Length].
  rewrite seek_start_app. cbn [rbind]. pose proof (blen_encodeBlock_pos b). case_if; [lia|].
  rewrite io_ReadFull_app by done. cbn [rbind].
  destruct (block_fits_fits32 b Hb). by apply encodeBlock_roundtrip.
Qed.

Lemma truth_of_above path off blocks o :
  o < off -> truth_of path off blocks !! block_cacheKey path o = None.
Proof.
  revert off. induction blocks as [|b bs IH]; intros off Ho; simpl; [done|].
  rewrite lookup_insert_ne by (intros [_ ?]%block_cacheKey_inj; lia).
  apply IH. pose proof (blen_encodeBlock_pos b). lia.
Qed.

Lemma index_of_blocks fs truth path (pre rest : bytes) blocks :
  Forall block_fits blocks ->
  fs !! path = Some (File (pre ++ blocks_bytes blocks ++ rest)) ->
  truth_of path (blen pre) blocks ⊆ truth ->
  Forall2 (block_of fs truth path) (index_of (blen pre) blocks) blocks.
Proof.
  intros Hf. revert pre. induction Hf as [|b bs Hb Hbs IH]; intros pre Hfs Hsub; simpl; [constructor|].
  rewrite blocks_bytes_cons, <- app_assoc in Hfs. constructor.
  - split; [by eapply read_block_at|]. split; [apply Hb|]. split; [done|].
    eapply lookup_weaken; [|exact Hsub]. simpl. apply lookup_insert_eq.
  - rewrite <- blen_app. apply IH; [by rewrite <- app_assoc|].
    etrans; [|exact Hsub]. simpl. rewrite blen_app. apply insert_subseteq.
    apply truth_of_above. pose proof (blen_encodeBlock_pos b). lia.
Qed.

Lemma layout_table_ok fs truth path blocks bl :
  Forall block_fits blocks -> fs !! path = Some (File (layout blocks bl)) ->
  truth_of path 0 blocks ⊆ truth -> StronglySorted elt (concat blocks) ->
  Forall wf_kv (concat blocks) -> bloom_ok bl ->
  (forall e, e ∈ concat blocks -> MightContain bl (uk e) = Ok true) ->
  forall hc, table_ok fs truth (mkSST path (index_of 0 blocks) bl hc) blocks.
Proof.
  intros Hf Hfs Ht Hs Hwf Hb Hbl hc. split; simpl; [eauto| |done..].
  change 0 with (blen (@nil byte)) in Ht |- *. by eapply index_of_blocks.
Qed.

(** Old tables stay good when files are added and the cache learns more. *)
Lemma table_ok_mono fs fs' truth truth' sst blocks :
  truth ⊆ truth' -> fs' !! FilePath sst = fs !! FilePath sst ->
  table_ok fs truth sst blocks -> table_ok fs' truth' sst blocks.
Proof.
  intros Hsub Hfs [Hfile Hb ? ? ? ?]. split; try done; [by rewrite Hfs|].
  eapply Forall2_impl; [exact Hb|]. intros idx b (Hr & Hne & Hk & Ht). split; [|split; [done|]].
  - unfold read_block_file, os_Open in *. by rewrite Hfs.
  - split; [done|]. by eapply lookup_weaken.
Qed.

(** The table's file has the layout of these blocks, index and filter. *)
Definition laid_out (fs : FS) (sst : SSTable) (blocks : list (list kv)) : Prop :=
  fs !! FilePath sst = Some (File (layout blocks (sst_bloom sst)))
  /\ sst_index sst = index_of 0 blocks /\ Forall block_fits blocks.

(** A complete table is a good table. *)
Lemma complete_table_ok bloom0 fs final es data sst truth :
  bloom_ok bloom0 -> complete_table bloom0 final es data sst ->
  StronglySorted elt es -> Forall wf_kv es ->
  (forall o, truth !! block_cacheKey final o = None) ->
  let fs' := <[final := File data]> fs in
  exists blocks truth', concat blocks = es /\ truth ⊆ truth'
    /\ (forall k, is_Some (truth' !! k) -> is_Some (truth !! k) \/ exists o, k = block_cacheKey final o)
    /\ FilePath sst = final /\ laid_out fs' sst blocks
    /\ table_ok fs' truth' sst blocks /\ table_ok fs' truth' (SetCache sst) blocks.
Proof.
  intros Hb (blocks & bl & Hc & Hf & Hadd & -> & ->) Hs Hwf Hfresh fs'.
  destruct (add_all_ok bloom0 (uk <$> es) Hb) as (bl' & Hadd' & Hbl & _ & _ & _ & Hall).
  assert (bl' = bl) as -> by congruence.
  assert (Hdisj : truth_of final 0 blocks ##ₘ truth).
  { apply map_disjoint_spec. intros k x y Hx Hy. apply truth_of_Some in Hx as [o ->].
    by rewrite Hfresh in Hy. }
  exists blocks, (truth_of final 0 blocks ∪ truth). split; [done|].
  split; [by apply map_union_subseteq_r|]. split; [|split; [done|split]].
  - intros k [x [Hx|[_ Hx]]%lookup_union_Some_raw]; [|left; eauto].
    right. by eapply truth_of_Some.
  - split; [apply lookup_insert_eq|done].
  - assert (Hok : forall hc, table_ok (<[final := File (layout blocks bl)]> fs)
      (truth_of final 0 blocks ∪ truth) (mkSST final (index_of 0 blocks) bl hc) blocks).
    { apply layout_table_ok; rewrite ?Hc; try done; [apply lookup_insert_eq| |].
      - apply map_union_subseteq_l.
      - intros e He. apply Hall. by apply list_elem_of_fmap_2. }
    split; apply Hok.
Qed.

Lemma mt_items_elt `{BT : BTree kv Item_Less} {BL : BTreeLaws kv Item_Less} mt :
  btree_ok (tree mt) -> StronglySorted elt (mt_items mt).
Proof.
  intros H. pose proof (items_sorted (tree mt) H) as Hs. unfold mt_items.
  induction Hs as [|x l Hs IH Hx]; constructor; [done|].
  eapply Forall_impl; [exact Hx|]. intros y Hy. unfold Item_Less in Hy. by apply Z.ltb_lt in Hy.
Qed.

(** ** Properties *)

Section reader_properties.
Context {C : Type} `{CL : CacherLaws (list kv) C}.

(** Point lookups. On a table whose file, index and filter agree with its blocks, and
    with any block cache that only holds true blocks, a lookup returns the abstract
    multi-version read of the table's records, and the cache stays true: neither the filter
    nor the index search nor the cache can change an answer. *)
Theorem table_lookup_spec (fs : FS) (truth : gmap bytes (list kv)) (sst : SSTable)
    (blocks : list (list kv)) (k : bytes) (snapshot : Z) (c : C) :
  table_ok fs truth sst blocks -> 0 <= snapshot <= SeqNumMax -> cache_true truth c ->
  exists c', Lookup fs sst k snapshot c = (Ok (lookup_result (newest k snapshot (concat blocks))), c')
    /\ cache_true truth c'.
Proof.
  intros Ht Hs Hc. destruct (Lookup_spec fs truth sst blocks k snapshot Ht Hs c Hc)
    as (r & c' & Hl & Hc' & ->). eauto.
Qed.

(** C15: range iteration. A new iterator, advanced until it is exhausted, yields exactly the
    table's records with a user key at or after the lower bound that are visible at the
    snapshot, in order, across block boundaries; the loop ends. *)
Theorem table_iterator_spec (fs : FS) (truth : gmap bytes (list kv)) (sst : SSTable)
    (blocks : list (list kv)) (lb : bytes) (snapshot : Z) (c : C) :
  table_ok fs truth sst blocks -> 0 <= snapshot <= SeqNumMax -> cache_true truth c ->
  exists it c1 c2, NewIterator fs sst lb snapshot c = (Ok it, c1)
    /\ it_collect fs (length (concat blocks)) it c1
       = (Ok (filter (in_range lb None snapshot) (concat blocks)), c2)
    /\ cache_true truth c2.
Proof.
  intros Ht Hs Hc. destruct (NewIterator_yields fs truth sst blocks lb snapshot Ht Hs c Hc)
    as (it & c1 & Hn & Hc1 & Hy).
  destruct (it_collect_spec fs truth sst snapshot blocks (length (concat blocks)) it _ Ht Hy
    ltac:(apply length_filter) c1 Hc1) as (l & c2 & Hcol & Hc2 & ->). eauto 10.
Qed.
End reader_properties.

Section flush_read.
Context `{BT : BTree kv Item_Less} {BL : BTreeLaws kv Item_Less} {C : Type}
  `{CL : CacherLaws (list kv) C}.

(** C14: what was flushed is what is read. Flushing a memtable to a working disk succeeds;
    reading the whole new table back yields the memtable's records, and a lookup in it, by
    any user key at any snapshot and through any true cache, gives the memtable's answer. *)
Theorem flush_then_read (bloom0 : BloomFilter) (fs : FS) (now : Z) (mt : MemTable) (dir : bytes)
    (truth : gmap bytes (list kv)) (k : bytes) (snapshot : Z) (c : C) :
  bloom_ok bloom0 -> mt_ok mt -> Forall kv_small (mt_items mt) -> 0 <= snapshot <= SeqNumMax ->
  fs !! dir = Some Dir -> fs !! sst_path dir now = None ->
  fs !! (sst_path dir now ++ dot_tmp) = None ->
  (forall o, truth !! block_cacheKey (sst_path dir now) o = None) -> cache_true truth c ->
  exists fs' sst, Flush bloom0 fs now new_file mt dir = (fs', Ok sst)
    /\ NewBlockIterator fs' sst = Ok (mt_items mt)
    /\ (Lookup fs' (SetCache sst) k snapshot c).1 = Ok (mt_Get mt k snapshot).
Proof.
  intros Hb Hok Hsm Hs Hdir Hfin Htmp Hfresh [Hc Hct]. pose proof Hok as [Ht Hwf].
  rewrite Flush_eq by done.
  pose proof (WriteSSTable_written bloom0 fs new_file dir _ (mt_items mt) Hb eq_refl Hsm
    (fresh_sst fs dir now Hdir Hfin Htmp)) as Hw.
  destruct (WriteSSTableFromBlockEntries _ _ _ _ _) as [fs' [sst|e|]] eqn:E;
    cbn [written fst snd] in Hw; [|by destruct Hw as [[] _]|done]. destruct Hw as (data & Hct' & ->).
  destruct (complete_table_ok bloom0 fs _ _ data sst truth Hb Hct' (mt_items_elt mt Ht) Hwf Hfresh)
    as (blocks & truth' & Hcc & Hsub & _ & _ & _ & Ht1 & Ht2). set (fs' := <[_ := _]> fs) in *.
  exists fs', sst. split; [done|]. split.
  - rewrite <- Hcc. by eapply NewBlockIterator_ok.
  - destruct (Lookup_spec fs' truth' _ blocks k snapshot Ht2 Hs c) as (r & c' & -> & _ & ->).
    { split; [done|]. intros x v Hv. eapply lookup_weaken; [|exact Hsub]. auto. }
    by rewrite Hcc, mt_Get_newest.
Qed.
End flush_read.

(** *** A concrete table for the witnesses *)

Lemma new_cache_true truth n cap :
  0 < n < 2 ^ 32 -> cache_true truth (NewShardedLRU (V := list kv) n cap).
Proof.
  intros Hn. split; [by apply NewShardedLRU_ok|]. intros k v. simpl. unfold sharded_view.
  destruct (shardIndex k _) as [i| |]; [|done..]. simpl.
  destruct (replicate _ _ !! _) as [l|] eqn:E; [|done].
  apply lookup_replicate in E as [-> _]. done.
Qed.

Definition demo_path : bytes := sst_path demo_dir 7.
Definition demo_blocks : list (list kv) := [mt_items demo_mt].

Lemma demo_filter : exists bl, add_all demo_bloom (uk <$> mt_items demo_mt) = Ok bl /\ bloom_ok bl
  /\ forall e, e ∈ mt_items demo_mt -> MightContain bl (uk e) = Ok true.
Proof.
  destruct (add_all_ok demo_bloom (uk <$> mt_items demo_mt) demo_bloom_ok)
    as (bl & Hadd & Hok & _ & _ & _ & Hall).
  exists bl. split; [done|]. split; [done|]. intros e He. apply Hall. by apply list_elem_of_fmap_2.
Qed.

Definition demo_bl : BloomFilter :=
  match add_all demo_bloom (uk <$> mt_items demo_mt) with Ok bl => bl | _ => demo_bloom end.
Definition demo_sst : SSTable := mkSST demo_path (index_of 0 demo_blocks) demo_bl true.
Definition demo_table_fs : FS := <[demo_path := File (layout demo_blocks demo_bl)]> demo_fs.

Lemma demo_blocks_fit : Forall block_fits demo_blocks.
Proof.
  constructor; [|constructor]. split; [by vm_compute|]. split; [apply demo_mt_small|].
  vm_compute. reflexivity.
Qed.

Lemma demo_table_ok : table_ok demo_table_fs (truth_of demo_path 0 demo_blocks) demo_sst demo_blocks.
Proof.
  destruct demo_filter as (bl & Hadd & Hok & Hall). unfold demo_sst, demo_table_fs.
  assert (demo_bl = bl) as -> by (unfold demo_bl; by rewrite Hadd).
  assert (concat demo_blocks = mt_items demo_mt) as Hc by apply app_nil_r.
  apply layout_table_ok.
  - apply demo_blocks_fit.
  - apply lookup_insert_eq.
  - reflexivity.
  - rewrite Hc. apply mt_items_elt, demo_mt_ok.
  - rewrite Hc. apply demo_mt_ok.
  - exact Hok.
  - by rewrite Hc.
Qed.

Lemma table_lookup_spec_witness :
  exists c', Lookup demo_table_fs demo_sst (bytes_of "a") 2 (NewShardedLRU 2 4)
      = (Ok (lookup_result (newest (bytes_of "a") 2 (concat demo_blocks))), c')
    /\ cache_true (truth_of demo_path 0 demo_blocks) c'.
Proof.
  apply (table_lookup_spec demo_table_fs (truth_of demo_path 0 demo_blocks) demo_sst demo_blocks);
    [apply demo_table_ok|vm_compute; split; congruence|apply new_cache_true; lia].
Defined.

Lemma table_iterator_spec_witness :
  exists it c1 c2, NewIterator demo_table_fs demo_sst (bytes_of "a") 3 (NewShardedLRU 2 4) = (Ok it, c1)
    /\ it_collect demo_table_fs (length (concat demo_blocks)) it c1
       = (Ok (filter (in_range (bytes_of "a") None 3) (concat demo_blocks)), c2)
    /\ cache_true (truth_of demo_path 0 demo_blocks) c2.
Proof.
  apply (table_iterator_spec demo_table_fs (truth_of demo_path 0 demo_blocks) demo_sst demo_blocks);
    [apply demo_table_ok|vm_compute; split; congruence|apply new_cache_true; lia].
Defined.

Lemma flush_then_read_witness :
  exists fs' sst, Flush demo_bloom demo_fs 7 new_file demo_mt demo_dir = (fs', Ok sst)
    /\ NewBlockIterator fs' sst = Ok (mt_items demo_mt)
    /\ (Lookup fs' (SetCache sst) (bytes_of "a") 2 (NewShardedLRU 2 4)).1
       = Ok (mt_Get demo_mt (bytes_of "a") 2).
Proof.
  apply (flush_then_read demo_bloom demo_fs 7 demo_mt demo_dir ∅ (bytes_of "a") 2 (NewShardedLRU 2 4));
    [apply demo_bloom_ok|apply demo_mt_ok|apply demo_mt_small|vm_compute; split; congruence
    |reflexivity|reflexivity|reflexivity|intros; apply lookup_empty|apply new_cache_true; lia].
Defined.
