(* ===== verification/Store.v ===== *)
(** * The directory of tables

    What the compactor and the database keep true of the tables on disk: every table in use
    agrees with its file ([good]), and the clock is ahead of every file name and cache key
    ever used ([clock_ok]), so that a new table gets a fresh path.

    [table_recs] is the abstraction of a table: the records a whole-table read returns. *)

From S2P Require Import Prelude Config Base Mvcc Memtable Bloom Cache Bufio Block Fs Sstable.
From S2P Require Import SstReader.

(** The records of a table. *)
Definition table_recs (fs : FS) (sst : SSTable) : list kv :=
  match NewBlockIterator fs sst with Ok l => l | _ => [] end.

Definition good (fs : FS) (truth : gmap bytes (list kv)) (sst : SSTable) : Prop :=
  exists blocks, table_ok fs truth sst blocks /\ laid_out fs sst blocks.

Definition clock_ok (dir : bytes) (fs : FS) (truth : gmap bytes (list kv)) (now : Z) : Prop :=
  fs !! dir = Some Dir
  /\ forall t, now < t ->
       fs !! sst_path dir t = None /\ fs !! (sst_path dir t ++ dot_tmp) = None
       /\ forall o, truth !! block_cacheKey (sst_path dir t) o = None.

(** ** Paths *)

Lemma last_app_r {A} (l k : list A) x : last k = Some x -> last (l ++ k) = Some x.
Proof. intros Hk. by rewrite last_app, Hk. Qed.

Lemma last_sst dir t : last (sst_path dir t) = Some Byte.x74.
Proof.
  unfold sst_path. apply last_app_r.
  change (slash :: fmt_d t ++ dot_sst) with ((slash :: fmt_d t) ++ dot_sst). by apply last_app_r.
Qed.

Lemma sst_ne_tmp dir s t : sst_path dir s <> sst_path dir t ++ dot_tmp.
Proof.
  intros H. apply (f_equal last) in H. rewrite last_sst in H.
  by rewrite (last_app_r _ dot_tmp Byte.x70) in H.
Qed.

Lemma sst_ne_dir dir t : sst_path dir t <> dir.
Proof.
  intros H. apply (f_equal length) in H. unfold sst_path in H. rewrite length_app in H. simpl in H. lia.
Qed.

Lemma sst_tmp_inj dir s t : sst_path dir s ++ dot_tmp = sst_path dir t ++ dot_tmp -> s = t.
Proof. intros H%app_inv_tail. by apply sst_path_inj in H. Qed.

Lemma sst_tmp_name dir t :
  exists name, sst_path dir t ++ dot_tmp = dir ++ slash :: name /\ (slash ∉ name) /\ name <> [].
Proof.
  exists (fmt_d t ++ dot_sst ++ dot_tmp). unfold sst_path. rewrite <- app_assoc. cbn [app]. rewrite <- app_assoc.
  split; [done|]. split; [|intros Hn%(f_equal length); rewrite !length_app in Hn; simpl in Hn; lia].
  rewrite app_assoc, elem_of_app. intros [Hs|Hs]; [by apply sst_name_no_slash in Hs|].
  by apply (bool_decide_eq_true_2 (slash ∈ dot_tmp)) in Hs.
Qed.

(** ** Good tables *)

Lemma table_recs_ok fs truth sst blocks :
  table_ok fs truth sst blocks -> table_recs fs sst = concat blocks.
Proof. intros Ht. unfold table_recs. by rewrite (NewBlockIterator_ok fs truth sst blocks). Qed.

Lemma good_recs fs truth sst :
  good fs truth sst ->
  NewBlockIterator fs sst = Ok (table_recs fs sst)
  /\ StronglySorted elt (table_recs fs sst) /\ Forall wf_kv (table_recs fs sst).
Proof.
  intros (blocks & Ht & _). rewrite (table_recs_ok _ _ _ _ Ht).
  split; [by eapply NewBlockIterator_ok|]. split; apply Ht.
Qed.

Lemma good_file fs truth sst : good fs truth sst -> exists d, fs !! FilePath sst = Some (File d).
Proof. intros (blocks & Ht & _). apply Ht. Qed.

Lemma good_mono fs fs' truth truth' sst :
  truth ⊆ truth' -> fs' !! FilePath sst = fs !! FilePath sst -> good fs truth sst ->
  good fs' truth' sst /\ table_recs fs' sst = table_recs fs sst.
Proof.
  intros Hsub Hfs (blocks & Ht & Hl).
  pose proof (table_ok_mono _ _ _ _ _ _ Hsub Hfs Ht) as Ht'.
  split; [exists blocks; split; [done|]; unfold laid_out; by rewrite Hfs|]. by rewrite (table_recs_ok _ _ _ _ Ht), (table_recs_ok _ _ _ _ Ht').
Qed.

(** The cache pointer of a table does not matter. *)
Lemma table_ok_SetCache fs truth sst blocks :
  table_ok fs truth (SetCache sst) blocks <-> table_ok fs truth sst blocks.
Proof. destruct sst. split; intros [? ? ? ? ? ?]; by split. Qed.

Lemma good_SetCache fs truth sst : good fs truth (SetCache sst) <-> good fs truth sst.
Proof.
  split; intros (blocks & Ht & Hl); exists blocks; split; [by apply table_ok_SetCache|by destruct sst| |by destruct sst].
  by apply table_ok_SetCache in Ht.
Qed.

Lemma table_recs_SetCache fs sst : table_recs fs (SetCache sst) = table_recs fs sst.
Proof. by destruct sst. Qed.

Lemma good_ne_fresh dir fs truth now sst t :
  clock_ok dir fs truth now -> good fs truth sst -> now < t -> FilePath sst <> sst_path dir t.
Proof.
  intros [_ Hc] (d & Hd)%good_file Ht Heq. rewrite Heq in Hd.
  destruct (Hc t Ht) as [Hn _]. congruence.
Qed.

(** ** Writing a new table *)

(** A file under the path of time [t] leaves the clock ahead. *)
Lemma clock_ok_new dir fs truth truth' now t data :
  clock_ok dir fs truth now -> now < t ->
  (forall k, is_Some (truth' !! k) -> is_Some (truth !! k) \/ exists o, k = block_cacheKey (sst_path dir t) o) ->
  clock_ok dir (<[sst_path dir t := File data]> fs) truth' t.
Proof.
  intros [Hdir Hc] Ht Hdom. split; [rewrite lookup_insert_ne; [done|apply sst_ne_dir]|].
  intros t' Ht'. destruct (Hc t') as (Hf' & Htm' & Hfr'); [lia|].
  split; [|split].
  - rewrite lookup_insert_ne; [done|]. intros ?%sst_path_inj. lia.
  - rewrite lookup_insert_ne; [done|]. apply sst_ne_tmp.
  - intros o. destruct (truth' !! _) as [x|] eqn:E; [|done].
    destruct (Hdom _ (mk_is_Some _ _ E)) as [[y Hy]|[o' Ho']].
    + by rewrite Hfr' in Hy.
    + apply block_cacheKey_inj in Ho' as [?%sst_path_inj _]. lia.
Qed.

Lemma clock_ok_mono dir fs truth now now' :
  clock_ok dir fs truth now -> now <= now' -> clock_ok dir fs truth now'.
Proof. intros [Hd Hc] Hle. split; [done|]. intros t Ht. apply Hc. lia. Qed.

(** On any disk: the new table; or an error, with nothing else changed. *)
Lemma store_write_at {W} `{WL : WriterLaws W} (bloom0 : BloomFilter) (newFile : bytes -> W) dir fs truth now t es :
  bloom_ok bloom0 -> (forall p, on_file (newFile p) = []) -> clock_ok dir fs truth now -> now < t ->
  StronglySorted elt es -> Forall wf_kv es -> Forall kv_small es ->
  match WriteSSTableFromBlockEntries bloom0 fs newFile (sst_path dir t) es with
  | (fs', Ok sst) =>
      exists truth', truth ⊆ truth' /\ clock_ok dir fs' truth' t /\ FilePath sst = sst_path dir t
        /\ good fs' truth' sst /\ table_recs fs' sst = es
        /\ forall p, p <> sst_path dir t -> fs' !! p = fs !! p
  | (fs', Err _) =>
      ~ Reliable W /\ clock_ok dir fs' truth t /\ forall p, p <> sst_path dir t -> fs' !! p = fs !! p
  | (_, Panic) => False
  end.
Proof.
  intros Hb Hnil Hclock Ht Hs Hwf Hsm. pose proof Hclock as [Hdir Hc]. destruct (Hc t Ht) as (Hfin & Htmp & Hfresh).
  pose proof (WriteSSTable_written bloom0 fs newFile dir _ es Hb (Hnil _) Hsm
    (fresh_sst fs dir t Hdir Hfin Htmp)) as Hw.
  destruct (WriteSSTableFromBlockEntries _ _ _ _ _) as [fs' [sst|e|]]; cbn [written fst snd] in Hw; [| |done].
  - destruct Hw as (data & Hct & ->).
    destruct (complete_table_ok bloom0 fs _ _ data sst truth Hb Hct Hs Hwf Hfresh)
      as (blocks & truth' & Hcc & Hsub & Hdom & Hpath & Hlay & Hok & _).
    exists truth'. split; [done|]. split; [by eapply clock_ok_new|]. split; [done|]. split; [by eexists|]. split.
    + by rewrite (table_recs_ok _ _ _ _ Hok).
    + intros p Hp. by rewrite lookup_insert_ne.
  - destruct Hw as [Hr Hfs]. split; [done|]. destruct Hfs as [->|(f & sst & _ & _ & ->)].
    + split; [|done]. eapply clock_ok_mono; [done|lia].
    + split; [|intros p Hp; by rewrite lookup_insert_ne]. eapply clock_ok_new; [done|done|]. by left.
Qed.

Lemma store_write {W} `{WL : WriterLaws W} `{!Reliable W} (bloom0 : BloomFilter) (newFile : bytes -> W)
    dir fs truth now t es :
  bloom_ok bloom0 -> (forall p, on_file (newFile p) = []) -> clock_ok dir fs truth now -> now < t ->
  StronglySorted elt es -> Forall wf_kv es -> Forall kv_small es ->
  exists fs' sst truth',
    WriteSSTableFromBlockEntries bloom0 fs newFile (sst_path dir t) es = (fs', Ok sst)
    /\ truth ⊆ truth' /\ clock_ok dir fs' truth' t /\ FilePath sst = sst_path dir t
    /\ good fs' truth' sst /\ table_recs fs' sst = es
    /\ forall p, p <> sst_path dir t -> fs' !! p = fs !! p.
Proof.
  intros Hb Hnil Hc Ht Hs Hwf Hsm.
  pose proof (store_write_at bloom0 newFile dir fs truth now t es Hb Hnil Hc Ht Hs Hwf Hsm) as Hw.
  destruct (WriteSSTableFromBlockEntries _ _ _ _ _) as [fs' [sst|e|]]; [|by destruct Hw as [[] _]|done].
  destruct Hw as (truth' & Hw). by exists fs', sst, truth'.
Qed.

(** Removing a table's file. *)
Lemma clock_ok_delete dir fs truth now p :
  clock_ok dir fs truth now -> p <> dir -> clock_ok dir (delete p fs) truth now.
Proof.
  intros [Hd Hc] Hp. split; [by rewrite lookup_delete_ne|]. intros t Ht.
  destruct (Hc t Ht) as (H1 & H2 & H3). split; [|split; [|done]];
    rewrite lookup_delete; by case_decide.
Qed.

(** ** Searching the levels in order *)

(** The search of [db.searchSSTables]: the first level with a visible version answers. *)
Fixpoint search_levels (k : bytes) (s : Z) (levels : list (list kv)) : option kv :=
  match levels with
  | [] => None
  | l :: levels' =>
      match newest k s l with Some e => Some e | None => search_levels k s levels' end
  end.

(** On levels ordered newest first it finds the newest version of all. *)
Lemma search_levels_newest k s levels :
  by_recency levels -> search_levels k s levels = newest k s (concat levels).
Proof.
  induction 1 as [|l levels Hn Hr IH]; [done|]. simpl.
  rewrite newest_app_newer by (by apply newer_than_concat). by rewrite IH.
Qed.
