(* ===== verification/Compaction.v ===== *)
(** * Compaction ([src/compaction])

    [is_similar_size.go], [group_by_similar_size.go], [merge.go], [compact.go]: tables of
    similar size are grouped, every group of two or more is merged into one new table that
    keeps the versions a snapshot at or above the floor can still need, and the merged
    tables' files are removed.

    The theorems: grouping only rearranges the tables; merging keeps every read at a
    snapshot that the floor protects; a compaction whose groups are runs of neighbouring
    tables changes no such read, however the tables are searched afterwards; and a witness
    shows that groups which are not runs can put an old version before a newer one. *)

From S2P Require Import Prelude Config Base Mvcc Memtable Bloom Cache Bufio Block Fs Sstable.
From S2P Require Import SstReader Store.

(** ** Grouping *)

(** File sizes are not negative, so Go's truncating division is [Z.div]. *)
Definition isSimilarSize (a b : Z) : bool :=
  if (a =? 0) || (b =? 0) then false
  else
    let '(a, b) := if a <? b then (b, a) else (a, b) in
    a / b <=? DEFAULT_SIMILAR_SIZE_RATIO.

(** [sizes[i]]: 0 for a file that cannot be inspected. *)
Definition table_size (fs : FS) (sst : SSTable) : Z :=
  match os_Stat fs (FilePath sst) with Ok n => n | _ => 0 end.

(** The loop over [j]: the unused tables from position [j] on that are similar to size [si]
    join the group. *)
Fixpoint group_inner (sizes : list Z) (si : Z) (j : nat) (rest : list SSTable)
    (used : list bool) (group : list SSTable) : list SSTable * list bool :=
  match rest with
  | [] => (group, used)
  | t :: rest' =>
      if (used !!! j : bool) then group_inner sizes si (S j) rest' used group
      else if isSimilarSize si (sizes !!! j)
           then group_inner sizes si (S j) rest' (<[j := true]> used) (group ++ [t])
           else group_inner sizes si (S j) rest' used group
  end.

(** The loop over [i]. *)
Fixpoint group_outer (sizes : list Z) (i : nat) (rest : list SSTable) (used : list bool)
    (groups : list (list SSTable)) : list (list SSTable) :=
  match rest with
  | [] => groups
  | t :: rest' =>
      if (used !!! i : bool) then group_outer sizes (S i) rest' used groups
      else
        let '(group, used') :=
          group_inner sizes (sizes !!! i) (S i) rest' (<[i := true]> used) [t] in
        group_outer sizes (S i) rest' used' (groups ++ [group])
  end.

Definition groupBySimilarSize (fs : FS) (tables : list SSTable) : list (list SSTable) :=
  let sizes := table_size fs <$> tables in
  let used := replicate (length tables) false in
  group_outer sizes 0 tables used [].

(** ** Merging *)

(** One entry: [keptAtOrBelowFloor] and the result so far. *)
Definition merge_entry (floor : Z) (st : gset bytes * list kv) (entry : kv) :
    gset bytes * list kv :=
  let '(kept, result) := st in
  let ik := DecodeInternalKey (Key entry) in
  let key := UserKey ik in
  if bool_decide (key ∈ kept) then (kept, result)
  else (if SeqNum ik <=? floor then {[key]} ∪ kept else kept, result ++ [entry]).

Definition mergeIterators (iterators : list (list kv)) (floor : Z) : list kv :=
  let '(_, result) := foldl (foldl (merge_entry floor)) (∅, []) iterators in
  SortEntries result.

Section compaction.
Context {W : Type} `{WL : WriterLaws W} (bloom0 : BloomFilter) (newFile : bytes -> W).

(** [time.Now().UnixNano()]: the next reading of the clock. *)
Variable tick : Z -> Z.

Fixpoint open_iterators (fs : FS) (tables : list SSTable) : result (list (list kv)) :=
  match tables with
  | [] => Ok []
  | sst :: tables' =>
      let* it := NewBlockIterator fs sst in
      let* its := open_iterators fs tables' in
      Ok (it :: its)
  end.

Definition mergeGroup (fs : FS) (now : Z) (tables : list SSTable) (dirPath : bytes) (floor : Z) :
    FS * Z * result SSTable :=
  match open_iterators fs tables with
  | Err e => (fs, now, Err e)
  | Panic => (fs, now, Panic)
  | Ok iterators =>
      let merged := mergeIterators iterators floor in
      let now := tick now in
      let '(fs', r) := WriteSSTableFromBlockEntries bloom0 fs newFile (sst_path dirPath now) merged in
      (fs', now, r)
  end.

(** The loop over the groups: the new list of tables and the set of merged paths. *)
Fixpoint compact_groups (fs : FS) (now : Z) (groups : list (list SSTable)) (dirPath : bytes)
    (floor : Z) (res : list SSTable) (compacted : gset bytes) :
    FS * Z * result (list SSTable * gset bytes) :=
  match groups with
  | [] => (fs, now, Ok (res, compacted))
  | group :: groups' =>
      if blen group <? 2 then
        compact_groups fs now groups' dirPath floor (res ++ group) compacted
      else
        match mergeGroup fs now group dirPath floor with
        | (fs', now', Ok merged) =>
            compact_groups fs' now' groups' dirPath floor (res ++ [merged])
              (list_to_set (FilePath <$> group) ∪ compacted)
        | (fs', now', Err e) => (fs', now', Err e)
        | (fs', now', Panic) => (fs', now', Panic)
        end
  end.

(** Removing the files of the merged tables. *)
Fixpoint remove_compacted (fs : FS) (tables : list SSTable) (compacted : gset bytes) :
    FS * option goerror :=
  match tables with
  | [] => (fs, None)
  | sst :: tables' =>
      if bool_decide (FilePath sst ∈ compacted) then
        match disk_Remove (newFile (FilePath sst)) fs (FilePath sst) with
        | (fs', Some _) => (fs', Some (Errorf "failed to delete old SSTable %s: %w"))
        | (fs', None) => remove_compacted fs' tables' compacted
        end
      else remove_compacted fs tables' compacted
  end.

Definition Compact (fs : FS) (now : Z) (tables : list SSTable) (dirPath : bytes) (floor : Z) :
    FS * Z * result (list SSTable) :=
  if blen tables <? DEFAULT_COMPACTION_THRESHOLD then (fs, now, Ok tables)
  else
    let groups := groupBySimilarSize fs tables in
    match compact_groups fs now groups dirPath floor [] ∅ with
    | (fs', now', Ok (res, compacted)) =>
        match remove_compacted fs' tables compacted with
        | (fs'', Some e) => (fs'', now', Err e)
        | (fs'', None) => (fs'', now', Ok res)
        end
    | (fs', now', Err e) => (fs', now', Err e)
    | (fs', now', Panic) => (fs', now', Panic)
    end.
End compaction.

(** ** Grouping rearranges *)

(** The tables of [rest], at positions from [j] on, that are not used yet. *)
Fixpoint unused (j : nat) (rest : list SSTable) (used : list bool) : list SSTable :=
  match rest with
  | [] => []
  | t :: rest' =>
      if (used !!! j : bool) then unused (S j) rest' used else t :: unused (S j) rest' used
  end.

Lemma unused_ext j rest used used' :
  (forall i, (j <= i)%nat -> (used !!! i : bool) = used' !!! i) -> unused j rest used = unused j rest used'.
Proof.
  revert j. induction rest as [|t rest IH]; intros j He; simpl; [done|].
  rewrite (He j) by done. rewrite (IH (S j)); [done|]. intros i Hi. apply He. lia.
Qed.

Lemma unused_insert j rest used i b :
  (i < j)%nat -> unused j rest (<[i := b]> used) = unused j rest used.
Proof. intros Hi. apply unused_ext. intros k Hk. by rewrite list_lookup_total_insert_ne by lia. Qed.

Lemma group_inner_spec sizes si j rest used group :
  (j + length rest <= length used)%nat ->
  let '(group', used') := group_inner sizes si j rest used group in
  group' ++ unused j rest used' ≡ₚ group ++ unused j rest used
  /\ (forall i, (i < j)%nat -> (used' !!! i : bool) = used !!! i) /\ length used' = length used.
Proof.
  revert j used group. induction rest as [|t rest IH]; intros j used group Hl; [done|].
  cbn [group_inner length] in *. destruct (used !!! j : bool) eqn:Hj.
  - specialize (IH (S j) used group ltac:(lia)).
    destruct (group_inner sizes si (S j) rest used group) as [g' u']. destruct IH as (Hp & Hlt & Hlen).
    simpl. rewrite Hlt, Hj by lia. split; [done|]. split; [|done]. intros i Hi. apply Hlt. lia.
  - destruct (isSimilarSize si (sizes !!! j)).
    + specialize (IH (S j) (<[j := true]> used) (group ++ [t])). rewrite length_insert in IH.
      specialize (IH ltac:(lia)).
      destruct (group_inner sizes si (S j) rest _ _) as [g' u']. destruct IH as (Hp & Hlt & Hlen).
      simpl. rewrite Hlt by lia. rewrite list_lookup_total_insert_eq by lia. rewrite Hj.
      rewrite Hp, unused_insert by lia. split; [by rewrite <- app_assoc|]. split; [|done].
      intros i Hi. rewrite Hlt by lia. by rewrite list_lookup_total_insert_ne by lia.
    + specialize (IH (S j) used group ltac:(lia)).
      destruct (group_inner sizes si (S j) rest used group) as [g' u']. destruct IH as (Hp & Hlt & Hlen).
      simpl. rewrite Hlt, Hj by lia. split; [|split; [|done]].
      * rewrite <- !Permutation_middle. by rewrite Hp.
      * intros i Hi. apply Hlt. lia.
Qed.

Lemma group_outer_spec sizes i rest used groups :
  (i + length rest <= length used)%nat ->
  concat (group_outer sizes i rest used groups) ≡ₚ concat groups ++ unused i rest used.
Proof.
  revert i used groups. induction rest as [|t rest IH]; intros i used groups Hl.
  { simpl. by rewrite app_nil_r. }
  cbn [group_outer length unused] in *. destruct (used !!! i : bool) eqn:Hi; [apply IH; lia|].
  pose proof (group_inner_spec sizes (sizes !!! i) (S i) rest (<[i := true]> used) [t]) as Hg.
  rewrite length_insert in Hg. specialize (Hg ltac:(lia)).
  destruct (group_inner _ _ _ _ _ _) as [g u']. destruct Hg as (Hp & _ & Hlen).
  rewrite IH by lia. rewrite concat_app. simpl. rewrite app_nil_r, <- app_assoc, Hp.
  by rewrite unused_insert by lia.
Qed.

Lemma unused_none j rest used :
  (forall i, (i < j + length rest)%nat -> (used !!! i : bool) = false) -> unused j rest used = rest.
Proof.
  revert j. induction rest as [|t rest IH]; intros j Hu; simpl in *; [done|].
  rewrite Hu, IH by (intros; apply Hu; lia) || lia. done.
Qed.

Lemma groupBySimilarSize_perm fs tables : concat (groupBySimilarSize fs tables) ≡ₚ tables.
Proof.
  unfold groupBySimilarSize. rewrite group_outer_spec by (rewrite length_replicate; lia). simpl.
  rewrite unused_none; [done|]. intros i Hi. by apply lookup_total_replicate_2.
Qed.

(** ** Merging keeps the protected reads *)

(** The entries [merge_entry] keeps, in order. *)
Fixpoint keep (floor : Z) (kept : gset bytes) (l : list kv) : list kv :=
  match l with
  | [] => []
  | e :: l' =>
      if bool_decide (uk e ∈ kept) then keep floor kept l'
      else e :: keep floor (if seqn e <=? floor then {[uk e]} ∪ kept else kept) l'
  end.

Lemma merge_foldl floor kept acc l :
  (foldl (merge_entry floor) (kept, acc) l).2 = acc ++ keep floor kept l.
Proof.
  revert kept acc. induction l as [|e l IH]; intros kept acc; simpl; [by rewrite app_nil_r|].
  unfold uk, seqn, ik. destruct (bool_decide _); rewrite IH; [done|]. by rewrite <- app_assoc.
Qed.

Lemma mergeIterators_keep its floor :
  mergeIterators its floor = SortEntries (keep floor ∅ (concat its)).
Proof.
  unfold mergeIterators.
  assert (Hf : forall st, foldl (foldl (merge_entry floor)) st its
    = foldl (merge_entry floor) st (concat its)).
  { induction its as [|l its IH]; intros st; simpl; [done|]. by rewrite foldl_app, IH. }
  rewrite Hf. pose proof (merge_foldl floor ∅ [] (concat its)) as Hm.
  destruct (foldl (merge_entry floor) _ _) as [k r]. simpl in Hm. by subst r.
Qed.

(** Versions of one key come newest first. *)
Definition newer_first (l : list kv) : Prop :=
  StronglySorted (fun a b => uk a = uk b -> trl b <= trl a) l.

Lemma newer_first_app l1 l2 :
  newer_first l1 -> newer_first l2 -> newer_than l1 l2 -> newer_first (l1 ++ l2).
Proof.
  intros H1 H2 Hn. induction H1 as [|x l1 Hs IH Hx]; simpl; [done|]. constructor.
  - apply IH. intros a b Ha. apply Hn. by apply list_elem_of_further.
  - apply Forall_app. split; [done|]. apply Forall_forall. intros y Hy Hu.
    apply Hn; [apply list_elem_of_here|done..].
Qed.

Lemma newer_first_sorted l : StronglySorted elt l -> newer_first l.
Proof.
  induction 1 as [|x l Hs IH Hx]; constructor; [done|]. eapply Forall_impl; [exact Hx|].
  intros y Hy Hu. by apply (ele_same_key x y Hu), elt_ele.
Qed.

Lemma newer_first_concat its :
  by_recency its -> Forall (StronglySorted elt) its -> newer_first (concat its).
Proof.
  induction 1 as [|l its Hn Hr IH]; intros Hs; simpl; [constructor|].
  apply Forall_cons_1 in Hs as [Hl Hs]. apply newer_first_app; [by apply newer_first_sorted|auto|].
  by apply newer_than_concat.
Qed.

Lemma keep_sub floor kept l e : e ∈ keep floor kept l -> e ∈ l.
Proof.
  revert kept. induction l as [|x l IH]; intros kept; simpl; [done|].
  case_bool_decide; [intros H1%IH; by apply list_elem_of_further|].
  intros [->|H1%IH]%elem_of_cons; [apply list_elem_of_here|by apply list_elem_of_further].
Qed.

(** The newest visible version is kept, unless a kept version at or below the floor was
    already found, if no version above the snapshot is at or below the floor. *)
Lemma keep_newest floor kept l k s :
  newer_first l -> k ∉ kept ->
  (forall e, e ∈ l -> uk e = k -> s < seqn e -> floor < seqn e) ->
  newest k s (keep floor kept l) = newest k s l.
Proof.
  intros Hs. revert kept. induction Hs as [|x l Hs IH Hx]; intros kept Hk Hfl; [done|].
  assert (Hfl' : forall e, e ∈ l -> uk e = k -> s < seqn e -> floor < seqn e).
  { intros e He. apply Hfl. by apply list_elem_of_further. }
  rewrite Forall_forall in Hx.
  assert (Hhit : forall l', (forall e, e ∈ l' -> e ∈ l) -> visible_in k s x = true ->
    newest k s (x :: l') = Some x).
  { intros l' Hsub Hv. apply newest_cons_hit; [done|].
    intros a b [->|Ha]%elem_of_cons Hb Hu; [|by apply elem_of_nil in Ha]. by apply Hx, Hu; auto. }
  cbn [keep]. case_bool_decide as Hin.
  - rewrite newest_cons_skip; [by apply IH|]. destruct (visible_in k s x) eqn:Hv; [|done].
    apply visible_in_true in Hv as [Hxk _]. congruence.
  - destruct (visible_in k s x) eqn:Hv.
    + rewrite !Hhit; [done|auto|done| |done]. intros e. apply keep_sub.
    + rewrite !newest_cons_skip by done. destruct (decide (uk x = k)) as [Hxk|Hxk].
      * assert (Hgt : s < seqn x).
        { destruct (Z.lt_ge_cases s (seqn x)) as [|Hle]; [done|].
          assert (visible_in k s x = true); [by apply visible_in_true|congruence]. }
        assert (floor < seqn x) by (apply (Hfl x); [apply list_elem_of_here|done..]).
        rewrite (proj2 (Z.leb_gt _ _)) by done. by apply IH.
      * apply IH; [|done]. case_if; [|done]. rewrite elem_of_union, elem_of_singleton.
        intros [->|?]; done.
Qed.

(** *** The merged list as a table *)

Definition keys_nodup (l : list kv) : Prop := NoDup (Key <$> l).

Lemma keys_nodup_coherent l : keys_nodup l -> coherent l.
Proof.
  unfold keys_nodup. induction l as [|x l IH]; intros Hnd a b Ha Hb Hk; [by apply elem_of_nil in Ha|].
  apply NoDup_cons in Hnd as [Hx Hnd].
  apply elem_of_cons in Ha as [->|Ha]; apply elem_of_cons in Hb as [->|Hb]; [done|..|by apply IH].
  - destruct Hx. rewrite Hk. by apply list_elem_of_fmap_2.
  - destruct Hx. rewrite <- Hk. by apply list_elem_of_fmap_2.
Qed.

Lemma keep_nodup floor kept l : keys_nodup l -> keys_nodup (keep floor kept l).
Proof.
  unfold keys_nodup. revert kept. induction l as [|x l IH]; intros kept Hnd; simpl; [done|].
  simpl in Hnd. apply NoDup_cons in Hnd as [Hx Hnd]. case_bool_decide; [by apply IH|].
  simpl. apply NoDup_cons. split; [|by apply IH].
  intros (e & He & Hin)%list_elem_of_fmap. apply Hx. rewrite He.
  apply list_elem_of_fmap_2. by eapply keep_sub.
Qed.

Lemma sorted_ele_elt l :
  Forall wf_kv l -> keys_nodup l -> StronglySorted ele l -> StronglySorted elt l.
Proof.
  intros Hwf Hnd Hs. induction Hs as [|x l Hs IH Hx]; [constructor|].
  apply Forall_cons_1 in Hwf as [Hwx Hwf]. unfold keys_nodup in Hnd. simpl in Hnd.
  apply NoDup_cons in Hnd as [Hx' Hnd]. constructor; [by apply IH|].
  rewrite Forall_forall in *. intros y Hy. specialize (Hx y Hy). unfold ele, elt, ecmp, kcmp in *.
  assert (InternalCompare bytes_Compare (DecodeInternalKey (Key x)) (DecodeInternalKey (Key y)) <> 0);
    [|lia]. intros Heq%(cmp_eq (f := InternalCompare bytes_Compare)). apply Hx'.
  rewrite <- (encode_decode_ik (Key x)), Heq, encode_decode_ik by apply Hwx || apply (Hwf y Hy).
  by apply list_elem_of_fmap_2.
Qed.

Lemma mergeIterators_ok its floor :
  Forall wf_kv (concat its) -> keys_nodup (concat its) ->
  Forall wf_kv (mergeIterators its floor) /\ keys_nodup (mergeIterators its floor)
  /\ StronglySorted elt (mergeIterators its floor)
  /\ (forall e, e ∈ mergeIterators its floor -> e ∈ concat its).
Proof.
  intros Hwf Hnd. rewrite mergeIterators_keep. unfold SortEntries.
  set (l := keep floor ∅ (concat its)).
  assert (Hp : merge_sort ele l ≡ₚ l) by apply merge_sort_Permutation.
  assert (Hwl : Forall wf_kv l).
  { rewrite Forall_forall in *. intros e He. apply Hwf. by eapply keep_sub. }
  assert (Hnl : keys_nodup (merge_sort ele l)).
  { unfold keys_nodup. rewrite Hp. by apply keep_nodup. }
  assert (Hwm : Forall wf_kv (merge_sort ele l)) by (by rewrite Hp).
  split; [done|]. split; [done|]. split.
  - apply sorted_ele_elt; [done..|]. apply (StronglySorted_merge_sort ele).
  - intros e. rewrite Hp. apply keep_sub.
Qed.

Lemma mergeIterators_newest its floor k s :
  by_recency its -> Forall (StronglySorted elt) its ->
  Forall wf_kv (concat its) -> keys_nodup (concat its) ->
  (forall e, e ∈ concat its -> uk e = k -> s < seqn e -> floor < seqn e) ->
  newest k s (mergeIterators its floor) = newest k s (concat its).
Proof.
  intros Hr Hs Hwf Hnd Hfl. rewrite <- (keep_newest floor ∅ (concat its) k s);
    [|by apply newer_first_concat|done|done].
  rewrite mergeIterators_keep. unfold SortEntries. symmetry. apply newest_perm.
  - rewrite Forall_forall in *. intros e He. apply Hwf. by eapply keep_sub.
  - by apply keys_nodup_coherent, keep_nodup.
  - intros e. by rewrite merge_sort_Permutation.
Qed.

(** ** Groups keep the order of the tables *)

Lemma group_inner_sub sizes si j rest used group :
  exists g, (group_inner sizes si j rest used group).1 = group ++ g /\ g `sublist_of` rest.
Proof.
  revert j used group. induction rest as [|t rest IH]; intros j used group; cbn [group_inner].
  { exists []. by rewrite app_nil_r. }
  destruct (used !!! j : bool); [|destruct (isSimilarSize si (sizes !!! j))].
  - destruct (IH (S j) used group) as (g & -> & Hg). exists g. split; [done|by constructor].
  - destruct (IH (S j) (<[j := true]> used) (group ++ [t])) as (g & -> & Hg). exists (t :: g).
    split; [by rewrite <- app_assoc|by constructor].
  - destruct (IH (S j) used group) as (g & -> & Hg). exists g. split; [done|by constructor].
Qed.

Lemma group_outer_sub sizes i rest used groups tables :
  rest `sublist_of` tables -> Forall (fun g => g `sublist_of` tables) groups ->
  Forall (fun g => g `sublist_of` tables) (group_outer sizes i rest used groups).
Proof.
  revert i used groups. induction rest as [|t rest IH]; intros i used groups Hr Hg; [done|].
  cbn [group_outer].
  assert (Hr' : rest `sublist_of` tables) by (etrans; [by constructor|exact Hr]).
  destruct (used !!! i : bool); [by apply IH|].
  destruct (group_inner_sub sizes (sizes !!! i) (S i) rest (<[i := true]> used) [t]) as (g & Hgi & Hsub).
  destruct (group_inner _ _ _ _ _ _) as [group' used']. simpl in Hgi. subst group'.
  apply IH; [done|]. apply Forall_app. split; [done|]. constructor; [|constructor].
  etrans; [|exact Hr]. by constructor.
Qed.

Lemma groups_sub fs tables : Forall (fun g => g `sublist_of` tables) (groupBySimilarSize fs tables).
Proof. unfold groupBySimilarSize. by apply group_outer_sub. Qed.

Lemma by_recency_sublist ls1 ls2 : ls1 `sublist_of` ls2 -> by_recency ls2 -> by_recency ls1.
Proof.
  induction 1 as [|l ls1 ls2 Hsub IH|l ls1 ls2 Hsub IH]; intros Hr; [done|..];
    inversion_clear Hr as [|? ? Hf Hr']; [|by apply IH].
  constructor; [|by apply IH]. rewrite Forall_forall in *. intros l' Hl'. apply Hf.
  by eapply elem_of_sublist.
Qed.

Lemma Forall2_impl_in {A B} (P Q : A -> B -> Prop) l k :
  (forall x y, x ∈ l -> P x y -> Q x y) -> Forall2 P l k -> Forall2 Q l k.
Proof.
  intros Hpq. induction 1 as [|x y l k Hxy _ IH]; constructor.
  - apply Hpq; [apply list_elem_of_here|done].
  - apply IH. intros. apply Hpq; [by apply list_elem_of_further|done].
Qed.

Lemma fmap_sublist {A B} (f : A -> B) l k : l `sublist_of` k -> f <$> l `sublist_of` f <$> k.
Proof. induction 1; by constructor. Qed.

Lemma concat_sublist {A} (l k : list (list A)) : l `sublist_of` k -> concat l `sublist_of` concat k.
Proof.
  induction 1 as [|x l k _ IH|x l k _ IH]; simpl; [done|by apply sublist_app|].
  etrans; [exact IH|]. by apply sublist_inserts_l.
Qed.

(** ** A whole compaction *)

Section compaction_facts.
Context {W : Type} `{WL : WriterLaws W} (bloom0 : BloomFilter) (newFile : bytes -> W).
Context (tick : Z -> Z) (dir : bytes).
Context (bloom0_ok : bloom_ok bloom0) (newFile_empty : forall p, on_file (newFile p) = []).
Context (tick_later : forall t, t < tick t).

Lemma open_iterators_ok fs truth g :
  Forall (good fs truth) g -> open_iterators fs g = Ok (table_recs fs <$> g).
Proof.
  induction 1 as [|sst g Hs _ IH]; [done|]. simpl. destruct (good_recs _ _ _ Hs) as [-> _].
  simpl. by rewrite IH.
Qed.

(** The records of a list of tables. *)
Definition all_recs (fs : FS) (tables : list SSTable) : list kv := concat (table_recs fs <$> tables).

Lemma good_all_wf fs truth g : Forall (good fs truth) g -> Forall wf_kv (all_recs fs g).
Proof.
  unfold all_recs. induction 1 as [|sst g Hs _ IH]; simpl; [constructor|]. apply Forall_app.
  split; [|done]. by apply (good_recs _ _ _ Hs).
Qed.

Lemma good_all_sorted fs truth g :
  Forall (good fs truth) g -> Forall (StronglySorted elt) (table_recs fs <$> g).
Proof. induction 1 as [|sst g Hs _ IH]; constructor; [|done]. by apply (good_recs _ _ _ Hs). Qed.

(** Files other than new tables are as before. *)
Definition only_new (now : Z) (fs fs' : FS) : Prop :=
  forall p, (forall t, now < t -> p <> sst_path dir t) -> fs' !! p = fs !! p.

Lemma only_new_refl (now : Z) (fs : FS) : only_new now fs fs.
Proof. by intros p _. Qed.

Lemma only_new_trans (now now' : Z) (fs fs' fs'' : FS) :
  now <= now' -> only_new now fs fs' -> only_new now' fs' fs'' -> only_new now fs fs''.
Proof. intros Hle H1 H2 p Hp. rewrite H2; [by apply H1|]. intros t Ht. apply Hp. lia. Qed.

(** What a step that failed may leave: files under new names, and a later clock. *)
Definition added (fs : FS) (truth : gmap bytes (list kv)) (now : Z) (fs' : FS) (now' : Z) : Prop :=
  now <= now' /\ only_new now fs fs' /\ clock_ok dir fs' truth now'.

Lemma clock_ok_weaken fs truth truth' now :
  truth ⊆ truth' -> clock_ok dir fs truth' now -> clock_ok dir fs truth now.
Proof.
  intros Hsub [Hd Hc]. split; [done|]. intros t Ht. destruct (Hc t Ht) as (? & ? & Ho).
  split; [done|]. split; [done|]. intros o. eapply lookup_weaken_None; [apply Ho|done].
Qed.

Lemma added_trans fs truth now fs1 truth1 now1 fs' now' :
  now <= now1 -> only_new now fs fs1 -> truth ⊆ truth1 -> added fs1 truth1 now1 fs' now' ->
  added fs truth now fs' now'.
Proof.
  intros Hle Ho Hsub (Hle' & Ho' & Hc). split; [lia|]. split; [by eapply only_new_trans|by eapply clock_ok_weaken].
Qed.

(** Merging a group, on any disk: the new table, or an error. *)
Lemma mergeGroup_at fs truth now g floor :
  clock_ok dir fs truth now -> Forall (good fs truth) g -> keys_nodup (all_recs fs g) ->
  Forall kv_small (all_recs fs g) ->
  match mergeGroup bloom0 newFile tick fs now g dir floor with
  | (fs', now', Ok sst) =>
      now' = tick now /\ exists truth',
        truth ⊆ truth' /\ clock_ok dir fs' truth' (tick now) /\ FilePath sst = sst_path dir (tick now)
        /\ good fs' truth' sst /\ table_recs fs' sst = mergeIterators (table_recs fs <$> g) floor
        /\ forall p, p <> sst_path dir (tick now) -> fs' !! p = fs !! p
  | (fs', now', Err _) => ~ Reliable W /\ added fs truth now fs' now'
  | (_, _, Panic) => False
  end.
Proof.
  intros Hc Hg Hnd Hsm. unfold mergeGroup. rewrite (open_iterators_ok _ _ _ Hg).
  destruct (mergeIterators_ok (table_recs fs <$> g) floor (good_all_wf _ _ _ Hg) Hnd)
    as (Hwf & _ & Hs & Hsub).
  assert (Hsm' : Forall kv_small (mergeIterators (table_recs fs <$> g) floor)).
  { rewrite Forall_forall in *. intros e He. by apply Hsm, Hsub. }
  pose proof (store_write_at bloom0 newFile dir fs truth now (tick now) _ bloom0_ok newFile_empty Hc
    (tick_later now) Hs Hwf Hsm') as Hw.
  destruct (WriteSSTableFromBlockEntries _ _ _ _ _) as [fs' [sst|e|]]; [done| |done].
  destruct Hw as (Hr & Hc' & Hfs). split; [done|]. pose proof (tick_later now). split; [lia|]. split; [|done].
  intros p Hp. apply Hfs, Hp. done.
Qed.

(** What becomes of one group. *)
Definition group_result (fs fs' : FS) (now : Z) (floor : Z) (g ts : list SSTable) : Prop :=
  if blen g <? 2 then ts = g
  else exists sst t, ts = [sst] /\ now < t /\ FilePath sst = sst_path dir t
         /\ table_recs fs' sst = mergeIterators (table_recs fs <$> g) floor.

Lemma only_new_good fs fs' truth truth' now sst :
  clock_ok dir fs truth now -> only_new now fs fs' -> truth ⊆ truth' -> good fs truth sst ->
  good fs' truth' sst /\ table_recs fs' sst = table_recs fs sst.
Proof.
  intros Hc Ho Hsub Hg. eapply good_mono; [done| |done]. apply Ho. intros t Ht.
  by eapply good_ne_fresh.
Qed.

(** Where the paths of the new list come from. *)
Lemma group_results_paths fs fs' now floor groups tss s :
  Forall2 (group_result fs fs' now floor) groups tss -> s ∈ concat tss ->
  FilePath s ∈ FilePath <$> concat groups \/ exists t, now < t /\ FilePath s = sst_path dir t.
Proof.
  induction 1 as [|g ts groups tss Hg _ IH]; simpl; [by intros ?%elem_of_nil|].
  rewrite fmap_app, !elem_of_app. intros [Hs|Hs].
  - unfold group_result in Hg. destruct (blen g <? 2); [subst ts; left; left; by apply list_elem_of_fmap_2|].
    destruct Hg as (x & t & -> & Ht & Hp & _). apply elem_of_cons in Hs as [->|Hs]; [eauto|].
    by apply elem_of_nil in Hs.
  - destruct (IH Hs); [by left; right|by right].
Qed.

(** What the loop over the groups achieves. *)
Record groups_post (fs : FS) (truth : gmap bytes (list kv)) (now floor : Z)
    (groups : list (list SSTable)) (comp : gset bytes)
    (fs' : FS) (now' : Z) (truth' : gmap bytes (list kv)) (tss : list (list SSTable))
    (comp' : gset bytes) : Prop := {
  gp_now : now <= now';
  gp_truth : truth ⊆ truth';
  gp_clock : clock_ok dir fs' truth' now';
  gp_only : only_new now fs fs';
  gp_good : Forall (Forall (good fs' truth')) tss;
  gp_res : Forall2 (group_result fs fs' now floor) groups tss;
  gp_paths : NoDup (FilePath <$> concat groups) -> NoDup (FilePath <$> concat tss);
  gp_comp p : p ∈ comp' <-> p ∈ comp \/ exists g, g ∈ groups /\ 2 <= blen g /\ p ∈ FilePath <$> g;
  gp_new p : fs !! p = None -> is_Some (fs' !! p) -> p ∈ FilePath <$> concat tss
}.

Lemma groups_post_nil fs truth now floor comp :
  clock_ok dir fs truth now -> groups_post fs truth now floor [] comp fs now truth [] comp.
Proof.
  intros Hc. split; try done; [constructor..| |].
  - intros p. split; [by left|]. intros [?|(g & Hg & _)]; [done|by apply elem_of_nil in Hg].
  - intros p Hn [x Hx]. congruence.
Qed.

(** A result's path does not clash with an old table. *)
Lemma result_path_old fs fs' truth now floor groups tss s s' :
  clock_ok dir fs truth now -> Forall2 (group_result fs fs' now floor) groups tss ->
  s ∈ concat tss -> good fs truth s' -> FilePath s = FilePath s' ->
  FilePath s ∈ FilePath <$> concat groups.
Proof.
  intros Hc Hres Hs Hg Heq. destruct (group_results_paths _ _ _ _ _ _ _ Hres Hs) as [?|(t & Ht & Hp)]; [done|].
  destruct (good_ne_fresh dir fs truth now s' t Hc Hg Ht). congruence.
Qed.

(** A group of one table stays as it is. *)
Lemma groups_post_keep fs truth now floor g groups comp fs' now' truth' tss comp' :
  clock_ok dir fs truth now -> Forall (good fs truth) g -> blen g < 2 ->
  groups_post fs truth now floor groups comp fs' now' truth' tss comp' ->
  groups_post fs truth now floor (g :: groups) comp fs' now' truth' (g :: tss) comp'.
Proof.
  intros Hc Hg Hlen [Hle Hsub Hc' Ho Hgood Hres Hndp Hcomp Hnew]. rewrite Forall_forall in Hg.
  split; try done.
  - constructor; [|done]. apply Forall_forall. intros s Hs.
    apply (only_new_good fs fs' truth truth' now s Hc Ho Hsub (Hg s Hs)).
  - constructor; [|done]. unfold group_result. by rewrite (proj2 (Z.ltb_lt _ _)).
  - cbn [concat]. rewrite !fmap_app. intros (Hn1 & Hn2 & Hn3)%NoDup_app. apply NoDup_app.
    split; [done|]. split; [|by apply Hndp]. intros p Hp (s & -> & Hs)%list_elem_of_fmap.
    apply (Hn2 (FilePath s) Hp). apply list_elem_of_fmap in Hp as (s' & Hps & Hs').
    exact (result_path_old fs fs' truth now floor groups tss s s' Hc Hres Hs (Hg s' Hs') Hps).
  - intros p. rewrite Hcomp. split; (intros [?|(g' & Hin & H2 & Hp)]; [by left|right]).
    + exists g'. split; [by apply list_elem_of_further|done].
    + apply elem_of_cons in Hin as [->|Hin]; [lia|eauto].
  - intros p Hn Hs. cbn [concat]. rewrite fmap_app, elem_of_app. right. by apply Hnew.
Qed.

(** What writing one merged table leaves of the other groups. *)
Lemma groups_after_write fs fs1 truth truth1 now groups :
  clock_ok dir fs truth now -> only_new now fs fs1 -> truth ⊆ truth1 ->
  Forall (Forall (good fs truth)) groups ->
  Forall (Forall (good fs1 truth1)) groups
  /\ forall g, g ∈ groups -> table_recs fs1 <$> g = table_recs fs <$> g.
Proof.
  intros Hc Ho Hsub Hg.
  assert (Hall : forall g s, g ∈ groups -> s ∈ g -> good fs1 truth1 s /\ table_recs fs1 s = table_recs fs s).
  { intros g s Hin Hs. rewrite Forall_forall in Hg. specialize (Hg g Hin). rewrite Forall_forall in Hg.
    apply (only_new_good fs fs1 truth truth1 now s Hc Ho Hsub (Hg s Hs)). }
  split.
  - apply Forall_forall. intros g Hin. apply Forall_forall. intros s Hs. by apply (Hall g).
  - intros g Hin. apply list_fmap_ext. intros i s Hs. apply (Hall g); [done|].
    by eapply list_elem_of_lookup_2.
Qed.

(** A group of two or more becomes the merged table [sst]. *)
Lemma groups_post_merge fs truth now floor g groups comp fs1 sst truth1 fs' now' truth' tss comp' :
  clock_ok dir fs truth now -> Forall (Forall (good fs truth)) groups -> 2 <= blen g ->
  truth ⊆ truth1 -> clock_ok dir fs1 truth1 (tick now) -> FilePath sst = sst_path dir (tick now) ->
  good fs1 truth1 sst -> table_recs fs1 sst = mergeIterators (table_recs fs <$> g) floor ->
  (forall p, p <> sst_path dir (tick now) -> fs1 !! p = fs !! p) ->
  groups_post fs1 truth1 (tick now) floor groups (list_to_set (FilePath <$> g) ∪ comp)
    fs' now' truth' tss comp' ->
  groups_post fs truth now floor (g :: groups) comp fs' now' truth' ([sst] :: tss) comp'.
Proof.
  intros Hc Hg Hlen Hsub1 Hc1 Hp1 Hgood1 Hrecs1 Hfs1 [Hle Hsub Hc' Ho Hgood Hres Hndp Hcomp Hnew].
  pose proof (tick_later now) as Htick.
  assert (Ho1 : only_new now fs fs1) by (intros p Hp; apply Hfs1; by apply Hp).
  destruct (groups_after_write fs fs1 truth truth1 now groups Hc Ho1 Hsub1 Hg) as [_ Hrg].
  destruct (only_new_good fs1 fs' truth1 truth' (tick now) sst Hc1 Ho Hsub Hgood1) as [Hsg Hsr].
  split; [lia|by etrans|done|..].
  - intros p Hp. rewrite Ho; [by apply Ho1|]. intros t Ht. apply Hp. lia.
  - constructor; [by constructor|done].
  - constructor.
    + unfold group_result. rewrite (proj2 (Z.ltb_ge _ _)) by done. exists sst, (tick now). by rewrite Hsr.
    + eapply Forall2_impl_in; [|exact Hres]. intros g' ts Hin Hgr.
      unfold group_result in *. case_if; [done|]. destruct Hgr as (s & t & -> & Ht & Hp & Hr).
      exists s, t. rewrite <- (Hrg g') by done. repeat split; try done. lia.
  - cbn [concat]. rewrite fmap_app. intros (_ & _ & Hn3)%NoDup_app. simpl. apply NoDup_cons.
    split; [|by apply Hndp]. rewrite Hp1. intros (s & Hps & Hs)%list_elem_of_fmap.
    destruct (group_results_paths _ _ _ _ _ _ _ Hres Hs) as [Hin|(t & Ht & Hpt)].
    + apply list_elem_of_fmap in Hin as (s' & Hps' & (g' & Hg'' & Hs')%list_elem_of_In%in_concat).
      apply list_elem_of_In in Hg'', Hs'. rewrite Forall_forall in Hg. specialize (Hg g' Hg'').
      rewrite Forall_forall in Hg.
      apply (good_ne_fresh dir fs truth now s' (tick now) Hc (Hg s' Hs') Htick). congruence.
    + rewrite Hpt in Hps. apply sst_path_inj in Hps. lia.
  - intros p. rewrite Hcomp, elem_of_union, elem_of_list_to_set. split.
    + intros [[Hp|?]|(g' & Hin & H2 & Hp)]; [right; exists g|by left|right; exists g'].
      * split; [apply list_elem_of_here|done].
      * split; [by apply list_elem_of_further|done].
    + intros [?|(g' & [->|Hin]%elem_of_cons & H2 & Hp)]; [by left; right|by left; left|right; eauto].
  - intros p Hn Hs. cbn [concat]. rewrite fmap_app, elem_of_app.
    destruct (decide (p = sst_path dir (tick now))) as [->|Hne].
    + left. rewrite <- Hp1. apply list_elem_of_here.
    + right. apply Hnew; [by rewrite Hfs1|done].
Qed.

(** The loop over the groups, on any disk: if it fails it has only added files. *)
Lemma compact_groups_at groups : forall fs truth now floor res comp,
  clock_ok dir fs truth now -> Forall (Forall (good fs truth)) groups ->
  Forall (fun g => keys_nodup (all_recs fs g) /\ Forall kv_small (all_recs fs g)) groups ->
  match compact_groups bloom0 newFile tick fs now groups dir floor res comp with
  | (fs', now', Ok (res', comp')) =>
      exists truth' tss, res' = res ++ concat tss /\ groups_post fs truth now floor groups comp fs' now' truth' tss comp'
  | (fs', now', Err _) => ~ Reliable W /\ added fs truth now fs' now'
  | (_, _, Panic) => False
  end.
Proof.
  induction groups as [|g groups IH]; intros fs truth now floor res comp Hc Hg Hn.
  { exists truth, []. simpl. rewrite app_nil_r. split; [done|by apply groups_post_nil]. }
  apply Forall_cons_1 in Hg as [Hg1 Hg]. apply Forall_cons_1 in Hn as [[Hnd Hsm] Hn].
  cbn [compact_groups]. destruct (Z.ltb_spec (blen g) 2) as [Hlen|Hlen].
  - specialize (IH fs truth now floor (res ++ g) comp Hc Hg Hn).
    destruct (compact_groups _ _ _ _ _ _ _ _ _ _) as [[fs' now'] [[res' comp']|e|]]; [|done..].
    destruct IH as (truth' & tss & -> & Hpost). exists truth', (g :: tss). rewrite <- app_assoc.
    split; [done|by apply groups_post_keep].
  - pose proof (mergeGroup_at fs truth now g floor Hc Hg1 Hnd Hsm) as Hm.
    destruct (mergeGroup _ _ _ _ _ _ _ _) as [[fs1 now1] [sst|e|]];
      [|done..].
    destruct Hm as (-> & truth1 & Hsub1 & Hc1 & Hp1 & Hgood1 & Hrecs1 & Hfs1).
    assert (Ho1 : only_new now fs fs1).
    { intros p Hp. apply Hfs1, Hp. apply tick_later. }
    destruct (groups_after_write fs fs1 truth truth1 now groups Hc Ho1 Hsub1 Hg) as [Hg' Hrg].
    assert (Hn' : Forall (fun g => keys_nodup (all_recs fs1 g) /\ Forall kv_small (all_recs fs1 g)) groups).
    { rewrite Forall_forall in Hn |- *. intros g' Hin. unfold all_recs in *. rewrite Hrg by done. auto. }
    specialize (IH fs1 truth1 (tick now) floor (res ++ [sst]) (list_to_set (FilePath <$> g) ∪ comp) Hc1 Hg' Hn').
    destruct (compact_groups _ _ _ _ _ _ _ _ _ _) as [[fs' now'] [[res' comp']|e|]]; [| |done].
    + destruct IH as (truth' & tss & -> & Hpost). exists truth', ([sst] :: tss). rewrite <- app_assoc.
      split; [done|]. by eapply groups_post_merge.
    + destruct IH as [Hr Ha]. split; [done|]. pose proof (tick_later now).
      eapply added_trans; [|exact Ho1|exact Hsub1|exact Ha]. lia.
Qed.

Lemma compact_groups_ok {HR : Reliable W} groups fs truth now floor res comp :
  clock_ok dir fs truth now -> Forall (Forall (good fs truth)) groups ->
  Forall (fun g => keys_nodup (all_recs fs g) /\ Forall kv_small (all_recs fs g)) groups ->
  exists fs' now' truth' tss comp',
    compact_groups bloom0 newFile tick fs now groups dir floor res comp
      = (fs', now', Ok (res ++ concat tss, comp'))
    /\ groups_post fs truth now floor groups comp fs' now' truth' tss comp'.
Proof.
  intros Hc Hg Hn. pose proof (compact_groups_at groups fs truth now floor res comp Hc Hg Hn) as Hat.
  destruct (compact_groups _ _ _ _ _ _ _ _ _ _) as [[fs' now'] [[res' comp']|e|]]; [|by destruct Hat as [[] _]|done].
  destruct Hat as (truth' & tss & -> & Hpost). by exists fs', now', truth', tss, comp'.
Qed.

(** Removing the merged files, on any disk: all of them, or an error of the disk. *)
Definition removable (sst : SSTable) : Prop := sys_error (newFile (FilePath sst)) OpRemove = None.

Lemma remove_compacted_at tables fs comp :
  NoDup (FilePath <$> tables) ->
  (forall s, s ∈ tables -> exists d, fs !! FilePath s = Some (File d)) ->
  match remove_compacted newFile fs tables comp with
  | (fs', None) =>
      (forall p, ~ (p ∈ comp /\ p ∈ FilePath <$> tables) -> fs' !! p = fs !! p)
      /\ (forall p, fs !! p = None -> fs' !! p = None)
      /\ (forall p, p ∈ comp -> p ∈ FilePath <$> tables -> fs' !! p = None)
  | (_, Some _) => ~ Forall removable tables
  end.
Proof.
  revert fs. induction tables as [|s tables IH]; intros fs Hnd Hf.
  { split; [done|]. split; [done|]. by intros p _ Hp%elem_of_nil. }
  rewrite fmap_cons in Hnd |- *. apply NoDup_cons in Hnd as [Hs Hnd]. cbn [remove_compacted].
  case_bool_decide as Hc.
  - destruct (Hf s) as [d Hd]; [apply list_elem_of_here|]. unfold disk_Remove.
    destruct (sys_error (newFile (FilePath s)) OpRemove) as [e|] eqn:Er.
    { intros [Hr _]%Forall_cons_1. unfold removable in Hr. congruence. }
    unfold os_Remove. rewrite Hd. specialize (IH (delete (FilePath s) fs) Hnd).
    destruct (remove_compacted newFile _ tables comp) as [fs' [e|]].
    { intros [_ Hr]%Forall_cons_1. revert Hr. apply IH. intros s' Hs'.
      rewrite lookup_delete_ne; [by apply Hf, list_elem_of_further|].
      intros Hp. apply Hs. rewrite Hp. by apply list_elem_of_fmap_2. }
    destruct IH as (Heq & Hnone & Hgone).
    { intros s' Hs'. rewrite lookup_delete_ne; [by apply Hf, list_elem_of_further|].
      intros Hp. apply Hs. rewrite Hp. by apply list_elem_of_fmap_2. }
    split; [|split].
    + intros p Hp. rewrite Heq, lookup_delete_ne; [done| |].
      * intros <-. apply Hp. split; [done|apply list_elem_of_here].
      * intros [? ?]. apply Hp. split; [done|by apply list_elem_of_further].
    + intros p Hp. apply Hnone. rewrite lookup_delete. by case_decide.
    + intros p Hp [->|Hin]%elem_of_cons; [apply Hnone, lookup_delete_eq|by apply Hgone].
  - specialize (IH fs Hnd ltac:(intros s' Hs'; by apply Hf, list_elem_of_further)).
    destruct (remove_compacted newFile fs tables comp) as [fs' [e|]].
    { intros [_ Hr]%Forall_cons_1. by apply IH. }
    destruct IH as (Heq & Hnone & Hgone).
    split; [|split; [done|]].
    + intros p Hp. apply Heq. intros [? ?]. apply Hp. split; [done|by apply list_elem_of_further].
    + intros p Hp [->|Hin]%elem_of_cons; [done|by apply Hgone].
Qed.

Lemma all_recs_concat fs (tss : list (list SSTable)) :
  all_recs fs (concat tss) = concat (all_recs fs <$> tss).
Proof.
  unfold all_recs. induction tss as [|ts tss IH]; [done|].
  rewrite fmap_cons. cbn [concat]. by rewrite fmap_app, concat_app, IH.
Qed.

(** Reads see only the newest record of each part. *)
Lemma newest_concat_eq k s (ls ls' : list (list kv)) :
  Forall2 (fun l l' => newest k s l = newest k s l') ls ls' ->
  newest k s (concat ls) = newest k s (concat ls').
Proof. induction 1 as [|l l' ls ls' Hl _ IH]; [done|]. simpl. by rewrite !newest_app, Hl, IH. Qed.

(** The records of a group, before and after. *)
Definition group_recs (floor : Z) (ls : list (list kv)) : list (list kv) :=
  if blen ls <? 2 then ls else [mergeIterators ls floor].

Lemma group_result_recs fs fs' now floor g ts :
  group_result fs fs' now floor g ts -> (forall s, s ∈ g -> table_recs fs' s = table_recs fs s) ->
  table_recs fs' <$> ts = group_recs floor (table_recs fs <$> g).
Proof.
  intros Hg Heq. unfold group_result, group_recs in *.
  assert (blen (table_recs fs <$> g) = blen g) as -> by (unfold blen; by rewrite length_fmap).
  destruct (blen g <? 2).
  - subst ts. clear -Heq. induction g as [|s g IH]; [done|]. rewrite !fmap_cons, IH.
    + by rewrite Heq by apply list_elem_of_here.
    + intros s' Hs'. by apply Heq, list_elem_of_further.
  - destruct Hg as (sst & t & -> & _ & _ & Hr). simpl. by rewrite Hr.
Qed.

Lemma group_recs_sub floor ls e :
  Forall wf_kv (concat ls) -> keys_nodup (concat ls) ->
  e ∈ concat (group_recs floor ls) -> e ∈ concat ls.
Proof.
  intros Hwf Hnd. unfold group_recs. case_if; [done|]. simpl. rewrite app_nil_r.
  by apply mergeIterators_ok.
Qed.

Lemma group_recs_nodup floor ls :
  Forall wf_kv (concat ls) -> keys_nodup (concat ls) -> keys_nodup (concat (group_recs floor ls)).
Proof.
  intros Hwf Hnd. unfold group_recs. case_if; [done|]. simpl. rewrite app_nil_r.
  by apply mergeIterators_ok.
Qed.

Lemma keys_nodup_app l1 l2 :
  keys_nodup (l1 ++ l2) <->
    keys_nodup l1 /\ (forall a b, a ∈ l1 -> b ∈ l2 -> Key a <> Key b) /\ keys_nodup l2.
Proof.
  unfold keys_nodup. rewrite fmap_app, NoDup_app. split; intros (H1 & H2 & H3); (split; [done|split; [|done]]).
  - intros a b Ha Hb Hk. apply (H2 (Key a)); [by apply list_elem_of_fmap_2|].
    rewrite Hk. by apply list_elem_of_fmap_2.
  - intros k (a & -> & Ha)%list_elem_of_fmap (b & Hk & Hb)%list_elem_of_fmap. by apply (H2 a b).
Qed.

(** All groups: the records stay a subset with distinct keys. *)
Lemma groups_recs_ok floor (gs : list (list (list kv))) :
  Forall wf_kv (concat (concat gs)) -> keys_nodup (concat (concat gs)) ->
  (forall e, e ∈ concat (concat (group_recs floor <$> gs)) -> e ∈ concat (concat gs))
  /\ keys_nodup (concat (concat (group_recs floor <$> gs))).
Proof.
  induction gs as [|g gs IH]; [done|]. rewrite fmap_cons. cbn [concat]. rewrite !concat_app.
  intros [Hw1 Hw2]%Forall_app (Hn1 & Hn2 & Hn3)%keys_nodup_app.
  destruct (IH Hw2 Hn3) as [Hsub Hnd]. split.
  - intros e. rewrite !elem_of_app. intros [He|He]; [left; by eapply group_recs_sub|right; auto].
  - apply keys_nodup_app. split; [by apply group_recs_nodup|]. split; [|done].
    intros a b Ha Hb. apply Hn2; [by eapply group_recs_sub|auto].
Qed.

Lemma newer_than_sub l1 l2 l1' l2' :
  newer_than l1 l2 -> (forall e, e ∈ l1' -> e ∈ l1) -> (forall e, e ∈ l2' -> e ∈ l2) ->
  newer_than l1' l2'.
Proof. intros H1 Hs1 Hs2 a b Ha Hb. apply H1; auto. Qed.

Lemma by_recency_single l : by_recency [l].
Proof. constructor; constructor. Qed.

(** Runs of neighbouring levels can be merged in place. *)
Lemma groups_recency floor (gs : list (list (list kv))) :
  Forall wf_kv (concat (concat gs)) -> keys_nodup (concat (concat gs)) ->
  by_recency (concat gs) -> by_recency (concat (group_recs floor <$> gs)).
Proof.
  induction gs as [|g gs IH]; [done|]. rewrite fmap_cons. cbn [concat]. rewrite !concat_app.
  intros [Hw1 Hw2]%Forall_app (Hn1 & Hn2 & Hn3)%keys_nodup_app (Hr1 & Hr2 & Hr3)%by_recency_app.
  destruct (groups_recs_ok floor gs Hw2 Hn3) as [Hsub _].
  assert (Hnew : newer_than (concat g) (concat (concat gs))).
  { intros a b (l1 & Hl1 & Ha)%list_elem_of_In%in_concat (l2 & Hl2 & Hb)%list_elem_of_In%in_concat.
    apply (Hr3 l1 l2); by apply list_elem_of_In. }
  apply by_recency_app. split; [|split; [by apply IH|]].
  - unfold group_recs. case_if; [done|]. apply by_recency_single.
  - intros l1 l2 Hl1 Hl2. eapply newer_than_sub; [exact Hnew| |].
    + intros e He. eapply (group_recs_sub floor g e); [done..|].
      apply list_elem_of_In, in_concat. exists l1. split; by apply list_elem_of_In.
    + intros e He. apply Hsub. apply list_elem_of_In, in_concat. exists l2.
      split; by apply list_elem_of_In.
Qed.
End compaction_facts.

Lemma groups_newest floor k s (gs : list (list (list kv))) :
  Forall (fun g => by_recency g /\ Forall (StronglySorted elt) g) gs ->
  Forall wf_kv (concat (concat gs)) -> keys_nodup (concat (concat gs)) ->
  (forall e, e ∈ concat (concat gs) -> uk e = k -> s < seqn e -> floor < seqn e) ->
  newest k s (concat (concat (group_recs floor <$> gs))) = newest k s (concat (concat gs)).
Proof.
  induction 1 as [|g gs [Hr Hs] _ IH]; [done|]. rewrite fmap_cons. cbn [concat]. rewrite !concat_app.
  intros [Hw1 Hw2]%Forall_app (Hn1 & Hn2 & Hn3)%keys_nodup_app Hfl. rewrite !newest_app, IH; [|done..|].
  - replace (newest k s (concat (group_recs floor g))) with (newest k s (concat g)); [done|].
    unfold group_recs. case_if; [done|]. simpl. rewrite app_nil_r. symmetry.
    apply mergeIterators_newest; try done. intros e He. apply Hfl, elem_of_app. by left.
  - intros e He. apply Hfl, elem_of_app. by right.
Qed.

Lemma concat_perm {A} (l k : list (list A)) : l ≡ₚ k -> concat l ≡ₚ concat k.
Proof.
  induction 1 as [|x l k _ IH|x y l|l k m _ IH1 _ IH2]; simpl; [done|by rewrite IH| |by rewrite IH1].
  by rewrite !app_assoc, (Permutation_app_comm x y).
Qed.

(** A group is determined by any of its members. *)
Lemma nodup_group {A B} (f : A -> B) (gs : list (list A)) g g' x x' :
  NoDup (f <$> concat gs) -> g ∈ gs -> g' ∈ gs -> x ∈ g -> x' ∈ g' -> f x = f x' -> g = g'.
Proof.
  induction gs as [|h gs IH]; intros Hnd Hg Hg' Hx Hx' Hf; [by apply elem_of_nil in Hg|].
  cbn [concat] in Hnd. rewrite fmap_app in Hnd. apply NoDup_app in Hnd as (_ & Hd & Hnd).
  assert (Hin : forall g0 x0, g0 ∈ gs -> x0 ∈ g0 -> f x0 ∈ f <$> concat gs).
  { intros g0 x0 Hg0 Hx0. apply list_elem_of_fmap_2, list_elem_of_In, in_concat. exists g0.
    split; by apply list_elem_of_In. }
  apply elem_of_cons in Hg as [->|Hg]; apply elem_of_cons in Hg' as [->|Hg']; [done|..|by apply IH].
  - destruct (Hd (f x)); [by apply list_elem_of_fmap_2|]. rewrite Hf. by apply (Hin g').
  - destruct (Hd (f x')); [by apply list_elem_of_fmap_2|]. rewrite <- Hf. by apply (Hin g).
Qed.

(** The state of a store: its tables agree with the files, their paths and their records'
    keys are distinct, and they are in the directory. *)
Record store_ok (dir : bytes) (fs : FS) (truth : gmap bytes (list kv)) (now : Z)
    (tables : list SSTable) : Prop := {
  so_clock : clock_ok dir fs truth now;
  so_good : Forall (good fs truth) tables;
  so_paths : NoDup (FilePath <$> tables);
  so_nodup : keys_nodup (all_recs fs tables);
  so_small : Forall kv_small (all_recs fs tables);
  so_in : Forall (fun sst => is_Some (name_in dir (FilePath sst))) tables
}.

(** Nothing else is in the directory: true as long as the disk reports no error. *)
Definition only_tables (dir : bytes) (fs : FS) (tables : list SSTable) : Prop :=
  forall p, is_Some (name_in dir p) -> is_Some (fs !! p) -> p ∈ FilePath <$> tables.

(** A snapshot whose reads of [k] a merge with this floor preserves: every version newer
    than the snapshot is also above the floor. *)
Definition protected (floor s : Z) (k : bytes) (l : list kv) : Prop :=
  forall e, e ∈ l -> uk e = k -> s < seqn e -> floor < seqn e.

Lemma all_recs_elem fs tables sst e :
  sst ∈ tables -> e ∈ table_recs fs sst -> e ∈ all_recs fs tables.
Proof.
  intros Hs He. apply list_elem_of_In, in_concat. exists (table_recs fs sst).
  split; apply list_elem_of_In; [by apply list_elem_of_fmap_2|done].
Qed.

(** The records of every table, group by group. *)
Definition groups_recs (fs : FS) (groups : list (list SSTable)) : list (list (list kv)) :=
  map (fun g => table_recs fs <$> g) groups.

Lemma concat_groups_recs fs groups : concat (groups_recs fs groups) = table_recs fs <$> concat groups.
Proof. induction groups as [|g gr IH]; [done|]. simpl. by rewrite fmap_app, <- IH. Qed.

Lemma fmap_ext_in {A B} (f g : A -> B) (l : list A) :
  (forall x, x ∈ l -> f x = g x) -> f <$> l = g <$> l.
Proof.
  induction l as [|x l IH]; intros Hfg; [done|]. rewrite !fmap_cons, IH.
  - by rewrite Hfg by apply list_elem_of_here.
  - intros y Hy. by apply Hfg, list_elem_of_further.
Qed.

Lemma results_recs (dir : bytes) (fs fs1 fs' : FS) (now floor : Z) (groups tss : list (list SSTable)) :
  Forall2 (group_result dir fs fs1 now floor) groups tss ->
  (forall s, s ∈ concat groups -> table_recs fs1 s = table_recs fs s) ->
  (forall s, s ∈ concat tss -> table_recs fs' s = table_recs fs1 s) ->
  table_recs fs' <$> concat tss = concat (group_recs floor <$> groups_recs fs groups).
Proof.
  induction 1 as [|g ts gr tss Hgr _ IH]; intros Hin Hnew; [done|].
  simpl. rewrite fmap_app, IH.
  - f_equal. rewrite <- (group_result_recs dir fs fs1 now floor g ts Hgr).
    + apply fmap_ext_in. intros s Hs. apply Hnew. simpl. apply elem_of_app. by left.
    + intros s Hs. apply Hin. simpl. apply elem_of_app. by left.
  - intros s Hs. apply Hin. simpl. apply elem_of_app. by right.
  - intros s Hs. apply Hnew. simpl. apply elem_of_app. by right.
Qed.

Section compaction_main.
Context {W : Type} `{WL : WriterLaws W} (bloom0 : BloomFilter) (newFile : bytes -> W).
Context (tick : Z -> Z) (dir : bytes).
Context (bloom0_ok : bloom_ok bloom0) (newFile_empty : forall p, on_file (newFile p) = []).
Context (tick_later : forall t, t < tick t).

(** The groups of a good store satisfy what the loop over the groups needs. *)
Lemma groups_good fs truth now tables :
  store_ok dir fs truth now tables ->
  Forall (Forall (good fs truth)) (groupBySimilarSize fs tables)
  /\ Forall (fun g => keys_nodup (all_recs fs g) /\ Forall kv_small (all_recs fs g))
       (groupBySimilarSize fs tables).
Proof.
  intros [_ Hg _ Hnd Hsm _]. pose proof (groups_sub fs tables) as Hsub.
  split; (eapply Forall_impl; [exact Hsub|]); intros g Hgs.
  - rewrite Forall_forall in *. intros s Hs. apply Hg. by eapply elem_of_sublist.
  - assert (Hr : all_recs fs g `sublist_of` all_recs fs tables)
      by (by apply concat_sublist, fmap_sublist).
    split.
    + eapply sublist_NoDup; [exact Hnd|by apply fmap_sublist].
    + rewrite Forall_forall in *. intros e He. apply Hsm. by eapply elem_of_sublist.
Qed.

(** Removing the merged files leaves the tables of the result alone. *)
Lemma result_not_removed (fs : FS) (truth : gmap bytes (list kv)) (now : Z)
    (tables : list SSTable) (fs' : FS) (floor : Z) (tss : list (list SSTable)) (comp : gset bytes)
    (s : SSTable) :
  store_ok dir fs truth now tables ->
  Forall2 (group_result dir fs fs' now floor) (groupBySimilarSize fs tables) tss ->
  (forall p, p ∈ comp <-> p ∈ (∅ : gset bytes) \/ exists g, g ∈ groupBySimilarSize fs tables /\ 2 <= blen g
     /\ p ∈ FilePath <$> g) ->
  s ∈ concat tss -> ~ (FilePath s ∈ comp /\ FilePath s ∈ FilePath <$> tables).
Proof.
  intros Hst Hres Hcomp Hs [Hc Ht].
  apply Hcomp in Hc as [?|(g & Hg & H2 & (s' & Hp & Hs')%list_elem_of_fmap)]; [done|].
  assert (Hnd : NoDup (FilePath <$> concat (groupBySimilarSize fs tables))).
  { rewrite groupBySimilarSize_perm. apply Hst. }
  apply list_elem_of_In, in_concat in Hs as (ts & Hts & Hs%list_elem_of_In).
  apply list_elem_of_In, list_elem_of_lookup in Hts as [i Hi].
  destruct (Forall2_lookup_r _ _ _ _ _ Hres Hi) as (g' & Hg' & Hgr).
  apply list_elem_of_lookup_2 in Hg'. unfold group_result in Hgr.
  destruct (blen g' <? 2) eqn:Hlen; breflect.
  - subst ts. assert (g' = g) as -> by (by eapply (nodup_group FilePath)). lia.
  - destruct Hgr as (sst & t & -> & Hlt & Hpath & _).
    apply elem_of_cons in Hs as [->|Hs]; [|by apply elem_of_nil in Hs].
    apply list_elem_of_fmap in Ht as (s0 & Hps & Hs0).
    pose proof (so_good _ _ _ _ _ Hst) as Hgood. rewrite Forall_forall in Hgood.
    apply (good_ne_fresh dir fs truth now s0 t (so_clock _ _ _ _ _ Hst) (Hgood s0 Hs0) Hlt). congruence.
Qed.

(** The records of the groups of a good store. *)
Lemma groups_recs_good fs truth now tables :
  store_ok dir fs truth now tables ->
  let gs := groups_recs fs (groupBySimilarSize fs tables) in
  concat (concat gs) ≡ₚ all_recs fs tables /\ Forall wf_kv (concat (concat gs))
  /\ keys_nodup (concat (concat gs))
  /\ (by_recency (table_recs fs <$> tables) ->
      Forall (fun g => by_recency g /\ Forall (StronglySorted elt) g) gs).
Proof.
  intros Hst gs. pose proof Hst as [_ Hgood _ Hnd _ _].
  assert (Hp : concat (concat gs) ≡ₚ all_recs fs tables).
  { unfold gs. rewrite concat_groups_recs. apply concat_perm, fmap_Permutation, groupBySimilarSize_perm. }
  split; [done|]. split; [rewrite Hp; by eapply good_all_wf|].
  split; [unfold keys_nodup; by rewrite Hp|]. intros Hrec.
  destruct (groups_good _ _ _ _ Hst) as [Hgg _]. unfold gs, groups_recs. apply Forall_map.
  pose proof (groups_sub fs tables) as Hgs. rewrite Forall_forall in Hgs, Hgg |- *.
  intros g Hg. simpl. split; [|eapply good_all_sorted; by apply Hgg].
  eapply by_recency_sublist; [by apply fmap_sublist, Hgs|done].
Qed.

Lemma clock_ok_removed fs fs' truth now :
  clock_ok dir fs truth now -> fs' !! dir = fs !! dir -> (forall p, fs !! p = None -> fs' !! p = None) ->
  clock_ok dir fs' truth now.
Proof.
  intros [Hd Hc] Hd' Hn. split; [by rewrite Hd'|]. intros t Ht.
  destruct (Hc t Ht) as (H1 & H2 & H3). split; [by apply Hn|]. split; [by apply Hn|done].
Qed.

(** The files left by the loop over the groups, when the merged ones are removed. *)
Lemma result_dir (fs : FS) (truth : gmap bytes (list kv)) (now : Z) (tables : list SSTable)
    (floor : Z) (fs1 : FS) (now' : Z) (truth' : gmap bytes (list kv)) (tss : list (list SSTable))
    (comp : gset bytes) (fs' : FS) :
  store_ok dir fs truth now tables ->
  groups_post dir fs truth now floor (groupBySimilarSize fs tables) ∅ fs1 now' truth' tss comp ->
  (forall p, fs1 !! p = None -> fs' !! p = None) ->
  (forall p, p ∈ comp -> p ∈ FilePath <$> tables -> fs' !! p = None) ->
  Forall (fun sst => is_Some (name_in dir (FilePath sst))) (concat tss)
  /\ (only_tables dir fs tables -> only_tables dir fs' (concat tss)).
Proof.
  intros Hst Hpost Hnone Hgone. destruct Hpost as [_ _ _ _ _ Hres _ Hcomp Hnew].
  pose proof (groupBySimilarSize_perm fs tables) as Hperm. split.
  - apply Forall_forall. intros s Hs.
    destruct (group_results_paths dir _ _ _ _ _ _ s Hres Hs) as [Hp|(t & _ & ->)];
      [|by rewrite name_in_sst].
    rewrite Hperm in Hp. apply list_elem_of_fmap in Hp as (s' & -> & Hs').
    pose proof (so_in _ _ _ _ _ Hst) as Hin. rewrite Forall_forall in Hin. auto.
  - intros Honly p Hn Hs'. assert (Hs1 : is_Some (fs1 !! p)).
    { destruct (fs1 !! p) eqn:E; [eauto|]. rewrite (Hnone p E) in Hs'. by destruct Hs'. }
    destruct (fs !! p) eqn:E; [|by apply Hnew].
    assert (Hin : p ∈ FilePath <$> tables) by (apply Honly; [done|by rewrite E]).
    pose proof Hin as (s & -> & Hs)%list_elem_of_fmap. rewrite <- Hperm in Hs.
    apply list_elem_of_In, in_concat in Hs as (g & Hg & Hsg). apply list_elem_of_In in Hg, Hsg.
    pose proof Hg as [i Hi]%list_elem_of_lookup.
    destruct (Forall2_lookup_l _ _ _ _ _ Hres Hi) as (ts & Hts & Hgr). unfold group_result in Hgr.
    destruct (Z.ltb_spec (blen g) 2) as [|H2].
    + subst ts. apply list_elem_of_fmap_2, list_elem_of_In, in_concat. exists g.
      split; apply list_elem_of_In; [by eapply list_elem_of_lookup_2|done].
    + rewrite (Hgone (FilePath s)) in Hs'; [by destruct Hs'| |done]. apply Hcomp. right.
      exists g. split; [done|]. split; [done|by apply list_elem_of_fmap_2].
Qed.

(** The tables after a compaction that merges something. *)
Lemma compact_files fs truth now tables floor fs' now' res :
  store_ok dir fs truth now tables -> DEFAULT_COMPACTION_THRESHOLD <= blen tables ->
  Compact bloom0 newFile tick fs now tables dir floor = (fs', now', Ok res) ->
  exists truth',
    now <= now' /\ truth ⊆ truth' /\ clock_ok dir fs' truth' now'
    /\ Forall (good fs' truth') res /\ NoDup (FilePath <$> res)
    /\ Forall (fun sst => is_Some (name_in dir (FilePath sst))) res
    /\ (only_tables dir fs tables -> only_tables dir fs' res)
    /\ table_recs fs' <$> res
       = concat (group_recs floor <$> groups_recs fs (groupBySimilarSize fs tables))
    /\ exists fs1 tss, res = concat tss
       /\ Forall2 (group_result dir fs fs1 now floor) (groupBySimilarSize fs tables) tss.
Proof.
  intros Hst Hlen. unfold Compact. rewrite (proj2 (Z.ltb_ge _ _)) by done.
  destruct (groups_good _ _ _ _ Hst) as [Hgg Hgn].
  pose proof (groupBySimilarSize_perm fs tables) as Hperm.
  pose proof Hst as [Hclock Hgood Hpaths _ _ _].
  pose proof (compact_groups_at bloom0 newFile tick dir bloom0_ok newFile_empty tick_later
    _ fs truth now floor [] ∅ Hclock Hgg Hgn) as Hat.
  destruct (compact_groups _ _ _ _ _ _ _ _ _ _) as [[fs1 now1] [[res1 comp]|e|]]; [|done..].
  destruct Hat as (truth' & tss & -> & Hpost).
  pose proof Hpost as [Hle Hsub Hclock1 Honly Hgood1 Hres Hndp Hcomp _].
  assert (Hold : forall s, s ∈ tables -> good fs1 truth' s /\ table_recs fs1 s = table_recs fs s).
  { intros s Hs. rewrite Forall_forall in Hgood.
    apply (only_new_good dir fs fs1 truth truth' now s Hclock Honly Hsub (Hgood s Hs)). }
  pose proof (remove_compacted_at newFile tables fs1 comp Hpaths) as Hrem.
  destruct (remove_compacted newFile fs1 tables comp) as [fs2 [e|]]; [done|].
  destruct Hrem as (Hkeep & Hnone & Hgone).
  { intros s Hs. destruct (Hold s Hs) as [Hg _]. by apply (good_file _ _ _ Hg). }
  intros [= <- <- <-]. destruct (result_dir _ _ _ _ _ _ _ _ _ _ _ Hst Hpost Hnone Hgone) as [Hin Hdir].
  exists truth'.
  assert (Hnew : forall s, s ∈ concat tss -> good fs2 truth' s /\ table_recs fs2 s = table_recs fs1 s).
  { intros s Hs. eapply (good_mono fs1 fs2 truth' truth'); [done| |].
    - apply Hkeep. by eapply result_not_removed.
    - apply list_elem_of_In, in_concat in Hs as (ts & Hts & Hs). rewrite Forall_forall in Hgood1.
      specialize (Hgood1 ts ltac:(by apply list_elem_of_In)). rewrite Forall_forall in Hgood1.
      apply Hgood1. by apply list_elem_of_In. }
  do 2 (split; [done|]). split; [|split; [|split; [|split; [done|split; [done|split; [|by exists fs1, tss]]]]]].
  - eapply clock_ok_removed; [exact Hclock1| |exact Hnone]. apply Hkeep.
    intros [_ (s & Hp & Hs)%list_elem_of_fmap].
    destruct (Hold s Hs) as [(d & Hd)%good_file _], Hclock1 as [Hdir1 _]. congruence.
  - apply Forall_forall. intros s Hs. by apply Hnew.
  - apply Hndp. by rewrite Hperm.
  - apply (results_recs dir fs fs1 fs2 now floor _ tss Hres); [|by intros s Hs; apply Hnew].
    intros s Hs. apply Hold. by rewrite <- Hperm.
Qed.

(** A compaction on any disk that fails, without failing to remove a table: it has removed
    nothing. *)
Lemma Compact_outcome fs truth now tables floor :
  store_ok dir fs truth now tables ->
  match Compact bloom0 newFile tick fs now tables dir floor with
  | (fs', now', Err _) => ~ Reliable W /\ (Forall (removable newFile) tables -> added dir fs truth now fs' now')
  | (_, _, Panic) => False
  | (_, _, Ok _) => True
  end.
Proof.
  intros Hst. unfold Compact. case_if; [done|]. destruct (groups_good fs truth now tables Hst) as [Hgg Hgn].
  pose proof (compact_groups_at bloom0 newFile tick dir bloom0_ok newFile_empty tick_later
    _ fs truth now floor [] ∅ (so_clock _ _ _ _ _ Hst) Hgg Hgn) as Hat.
  destruct (compact_groups _ _ _ _ _ _ _ _ _ _) as [[fs' now'] [[res comp]|e|]]; [|by destruct Hat|done].
  destruct Hat as (truth' & tss & _ & [_ Hsub _ Ho _ _ _ _ _]).
  pose proof (remove_compacted_at newFile tables fs' comp (so_paths _ _ _ _ _ Hst)) as Hrem.
  destruct (remove_compacted newFile fs' tables comp) as [fs'' [e|]]; [|done].
  assert (Hno : ~ Forall (removable newFile) tables).
  { apply Hrem. intros s Hs. pose proof (so_good _ _ _ _ _ Hst) as Hg. rewrite Forall_forall in Hg.
    destruct (only_new_good dir fs fs' truth truth' now s (so_clock _ _ _ _ _ Hst) Ho Hsub (Hg s Hs)) as [Hgs _].
    by apply (good_file _ _ _ Hgs). }
  split; [|done]. intros HR. apply Hno, Forall_forall. intros s _. apply sys_reliable.
Qed.

(** One that succeeds. What is said of the reads needs tables ordered newest first. *)
Lemma Compact_at fs truth now tables floor fs' now' res :
  store_ok dir fs truth now tables ->
  Compact bloom0 newFile tick fs now tables dir floor = (fs', now', Ok res) ->
  exists truth',
    now <= now' /\ truth ⊆ truth' /\ store_ok dir fs' truth' now' res
    /\ (only_tables dir fs tables -> only_tables dir fs' res)
    /\ (forall e, e ∈ all_recs fs' res -> e ∈ all_recs fs tables)
    /\ (by_recency (table_recs fs <$> tables) -> forall k s, protected floor s k (all_recs fs tables) ->
         newest k s (all_recs fs' res) = newest k s (all_recs fs tables))
    /\ (by_recency (table_recs fs <$> tables) -> (DEFAULT_COMPACTION_THRESHOLD <= blen tables ->
          concat (groupBySimilarSize fs tables) = tables) -> by_recency (table_recs fs' <$> res))
    /\ (blen tables < DEFAULT_COMPACTION_THRESHOLD -> res = tables)
    /\ (DEFAULT_COMPACTION_THRESHOLD <= blen tables ->
         table_recs fs' <$> res
         = concat (group_recs floor <$> groups_recs fs (groupBySimilarSize fs tables))
         /\ exists fs1 tss, res = concat tss
            /\ Forall2 (group_result dir fs fs1 now floor) (groupBySimilarSize fs tables) tss).
Proof.
  intros Hst Hcomp. destruct (Z.le_gt_cases DEFAULT_COMPACTION_THRESHOLD (blen tables)) as [Hlen|Hlen].
  2: { unfold Compact in Hcomp. rewrite (proj2 (Z.ltb_lt _ _)) in Hcomp by done. injection Hcomp as <- <- <-.
       exists truth. split; [lia|]. split_and!; try done. lia. }
  destruct (compact_files fs truth now tables floor fs' now' res Hst Hlen Hcomp)
    as (truth' & Hle & Hsub & Hclock & Hgood & Hndp & Hin & Hdir & Hrecs & Hres).
  exists truth'. do 2 (split; [done|]).
  destruct (groups_recs_good fs truth now tables Hst) as (Hperm2 & Hwf & Hnd2 & Hgs).
  set (gs := groups_recs fs (groupBySimilarSize fs tables)) in *.
  destruct (groups_recs_ok floor gs Hwf Hnd2) as [Hsubset Hndres].
  assert (Hall : all_recs fs' res = concat (concat (group_recs floor <$> gs))).
  { unfold all_recs. by rewrite Hrecs. }
  assert (Hsub3 : forall e, e ∈ all_recs fs' res -> e ∈ all_recs fs tables).
  { intros e. rewrite Hall, <- Hperm2. apply Hsubset. }
  split; [|split; [done|split; [done|split; [|split; [|split; [lia|done]]]]]].
  - split; try done; [by rewrite Hall|]. apply Forall_forall. intros e He.
    pose proof (so_small _ _ _ _ _ Hst) as Hsm. rewrite Forall_forall in Hsm. by apply Hsm, Hsub3.
  - intros Hrec k s Hpr. rewrite Hall, groups_newest; [|by apply Hgs|done|done|].
    + apply newest_perm; [done|by apply keys_nodup_coherent|]. intros e. by rewrite Hperm2.
    + intros e. rewrite Hperm2. apply Hpr.
  - intros Hrec Hcont. rewrite Hrecs. apply groups_recency; [done..|].
    unfold gs. by rewrite concat_groups_recs, Hcont.
Qed.

(** On a working disk it does. *)
Lemma Compact_ok {HR : Reliable W} fs truth now tables floor :
  store_ok dir fs truth now tables -> by_recency (table_recs fs <$> tables) ->
  exists fs' now' truth' res,
    Compact bloom0 newFile tick fs now tables dir floor = (fs', now', Ok res)
    /\ now <= now' /\ truth ⊆ truth' /\ store_ok dir fs' truth' now' res
    /\ (only_tables dir fs tables -> only_tables dir fs' res)
    /\ (forall e, e ∈ all_recs fs' res -> e ∈ all_recs fs tables)
    /\ (forall k s, protected floor s k (all_recs fs tables) ->
         newest k s (all_recs fs' res) = newest k s (all_recs fs tables))
    /\ ((DEFAULT_COMPACTION_THRESHOLD <= blen tables ->
          concat (groupBySimilarSize fs tables) = tables) -> by_recency (table_recs fs' <$> res))
    /\ (blen tables < DEFAULT_COMPACTION_THRESHOLD -> res = tables)
    /\ (DEFAULT_COMPACTION_THRESHOLD <= blen tables ->
         table_recs fs' <$> res
         = concat (group_recs floor <$> groups_recs fs (groupBySimilarSize fs tables))
         /\ exists fs1 tss, res = concat tss
            /\ Forall2 (group_result dir fs fs1 now floor) (groupBySimilarSize fs tables) tss).
Proof.
  intros Hst Hrec. pose proof (Compact_outcome fs truth now tables floor Hst) as Ho.
  destruct (Compact _ _ _ _ _ _ _ _) as [[fs' now'] [res|e|]] eqn:E; [|by destruct Ho as [[] _]|done].
  destruct (Compact_at fs truth now tables floor fs' now' res Hst E)
    as (truth' & Hle & Hsub & Hst' & Hdir & Hin & Hread & Hrec' & Hpost).
  exists fs', now', truth', res. split_and!; auto; apply Hpost.
Qed.
End compaction_main.

(** ** Adding a new table in front *)

(** On any disk, when the table could be written. *)
Lemma store_push_at {W} `{WL : WriterLaws W} (bloom0 : BloomFilter) (newFile : bytes -> W)
    dir fs truth now t tables es fs' sst :
  bloom_ok bloom0 -> (forall p, on_file (newFile p) = []) -> store_ok dir fs truth now tables -> now < t ->
  StronglySorted elt es -> Forall wf_kv es -> Forall kv_small es ->
  keys_nodup (es ++ all_recs fs tables) ->
  WriteSSTableFromBlockEntries bloom0 fs newFile (sst_path dir t) es = (fs', Ok sst) ->
  exists truth',
    truth ⊆ truth' /\ FilePath sst = sst_path dir t /\ store_ok dir fs' truth' t (sst :: tables)
    /\ (only_tables dir fs tables -> only_tables dir fs' (sst :: tables))
    /\ table_recs fs' <$> (sst :: tables) = es :: (table_recs fs <$> tables).
Proof.
  intros Hb Hnil [Hc Hg Hp Hnd Hsm Hi] Ht Hs Hwf Hsm' Hnd' Hw.
  pose proof (store_write_at bloom0 newFile dir fs truth now t es Hb Hnil Hc Ht Hs Hwf Hsm') as Hpost.
  rewrite Hw in Hpost. destruct Hpost as (truth' & Hsub & Hc' & Hpath & Hgood & Hrecs & Hfs).
  exists truth'. split; [done|]. split; [done|].
  assert (Hold : forall x, x ∈ tables -> good fs' truth' x /\ table_recs fs' x = table_recs fs x).
  { intros x Hx. rewrite Forall_forall in Hg. apply (good_mono fs fs' truth truth'); [done| |auto].
    apply Hfs. by eapply good_ne_fresh; [|apply Hg|]. }
  assert (Heq : table_recs fs' <$> tables = table_recs fs <$> tables).
  { apply fmap_ext_in. intros x Hx. by apply Hold. }
  assert (Hr : table_recs fs' <$> (sst :: tables) = es :: (table_recs fs <$> tables)).
  { by rewrite fmap_cons, Hrecs, Heq. }
  split; [|split; [|done]]; [split; [done|..]|].
  - constructor; [done|]. apply Forall_forall. intros x Hx. by apply Hold.
  - rewrite fmap_cons. apply NoDup_cons. split; [|done]. rewrite Hpath.
    intros (x & Hx & Hin)%list_elem_of_fmap. rewrite Forall_forall in Hg.
    by apply (good_ne_fresh dir fs truth now x t Hc (Hg x Hin) Ht).
  - unfold all_recs. by rewrite Hr.
  - unfold all_recs. rewrite Hr. simpl. by apply Forall_app.
  - constructor; [|done]. by rewrite Hpath, name_in_sst.
  - intros Hd p Hn Hs'. rewrite fmap_cons, Hpath. destruct (decide (p = sst_path dir t)) as [->|Hne];
      [apply list_elem_of_here|]. apply list_elem_of_further, Hd; [done|by rewrite <- Hfs].
Qed.

Lemma store_push {W} `{WL : WriterLaws W} `{!Reliable W} (bloom0 : BloomFilter) (newFile : bytes -> W)
    dir fs truth now t tables es :
  bloom_ok bloom0 -> (forall p, on_file (newFile p) = []) -> store_ok dir fs truth now tables -> now < t ->
  StronglySorted elt es -> Forall wf_kv es -> Forall kv_small es ->
  keys_nodup (es ++ all_recs fs tables) ->
  exists fs' sst truth',
    WriteSSTableFromBlockEntries bloom0 fs newFile (sst_path dir t) es = (fs', Ok sst)
    /\ truth ⊆ truth' /\ FilePath sst = sst_path dir t /\ store_ok dir fs' truth' t (sst :: tables)
    /\ (only_tables dir fs tables -> only_tables dir fs' (sst :: tables))
    /\ table_recs fs' <$> (sst :: tables) = es :: (table_recs fs <$> tables).
Proof.
  intros Hb Hnil Hst Ht Hs Hwf Hsm Hnd.
  destruct (store_write bloom0 newFile dir fs truth now t es Hb Hnil (so_clock _ _ _ _ _ Hst) Ht Hs Hwf Hsm)
    as (fs' & sst & _ & Hw & _). exists fs', sst.
  destruct (store_push_at bloom0 newFile dir fs truth now t tables es fs' sst) as (truth' & Hpost); [done..|].
  by exists truth'.
Qed.

(** ** Properties *)

(** Merging keeps every read the floor protects. For tables ordered newest first, the
    merged list is strictly sorted, holds only records of the inputs, and answers every read
    at a snapshot at or above the floor (or at one that sees every version) as the inputs
    do; tombstones included, so no deleted key comes back. *)
Theorem merge_keeps_protected_reads (its : list (list kv)) (floor : Z) (k : bytes) (s : Z) :
  by_recency its -> Forall (StronglySorted elt) its ->
  Forall wf_kv (concat its) -> keys_nodup (concat its) ->
  floor <= s \/ (forall e, e ∈ concat its -> seqn e <= s) ->
  StronglySorted elt (mergeIterators its floor)
  /\ (forall e, e ∈ mergeIterators its floor -> e ∈ concat its)
  /\ newest k s (mergeIterators its floor) = newest k s (concat its).
Proof.
  intros Hr Hs Hwf Hnd Hprot. destruct (mergeIterators_ok its floor Hwf Hnd) as (_ & _ & Hm & Hsub).
  split; [done|]. split; [done|]. apply mergeIterators_newest; try done.
  intros e He _ Hlt. destruct Hprot as [?|Hall]; [lia|]. specialize (Hall e He). lia.
Qed.

(** Three versions of one key in two tables. *)
Definition demo_its : list (list kv) :=
  let v s x := mkKV (encodeIK (MakeInternalKey (bytes_of "k") s 1)) (bytes_of x) in
  [[v 9 "nine"; v 6 "six"]; [v 4 "four"]]%string.

Lemma merge_keeps_protected_reads_witness :
  StronglySorted elt (mergeIterators demo_its 6)
  /\ (forall e, e ∈ mergeIterators demo_its 6 -> e ∈ concat demo_its)
  /\ newest (bytes_of "k") 7 (mergeIterators demo_its 6) = newest (bytes_of "k") 7 (concat demo_its).
Proof.
  apply (merge_keeps_protected_reads demo_its 6 (bytes_of "k") 7).
  - constructor; [|constructor; [constructor|constructor]]. constructor; [|constructor].
    intros a b Ha Hb _. unfold demo_its in *. simpl in *.
    repeat (apply elem_of_cons in Ha as [->|Ha]); [..|by apply elem_of_nil in Ha];
      (apply elem_of_cons in Hb as [->|Hb]; [vm_compute; congruence|by apply elem_of_nil in Hb]).
  - repeat constructor.
  - repeat constructor; vm_compute; congruence.
  - apply (bool_decide_unpack (NoDup (Key <$> concat demo_its))). vm_compute. exact I.
  - left. lia.
Defined.

Section compaction_properties.
Context {W : Type} `{WL : WriterLaws W} {HR : Reliable W}.

(** C10: a compaction changes no protected read. On a good store whose tables are ordered
    newest first, and on a working disk, [Compact] succeeds; the store is good again (new
    files agree with the new list, the clock is ahead, and if the directory held nothing but
    the tables it does so again: the merged files are gone); no record is invented and no read
    at a protected snapshot changes; and when the groups are runs of neighbouring tables, the table list is again ordered newest first, so the
    database's search of the new list answers as its search of the old one. *)
Theorem compact_preserves_reads (bloom0 : BloomFilter) (newFile : bytes -> W) (tick : Z -> Z) (dir : bytes)
    (fs : FS) (truth : gmap bytes (list kv)) (now : Z) (tables : list SSTable) (floor : Z) :
  bloom_ok bloom0 -> (forall p, on_file (newFile p) = []) -> (forall t, t < tick t) ->
  store_ok dir fs truth now tables -> by_recency (table_recs fs <$> tables) ->
  exists fs' now' truth' res,
    Compact bloom0 newFile tick fs now tables dir floor = (fs', now', Ok res)
    /\ store_ok dir fs' truth' now' res /\ truth ⊆ truth'
    /\ (only_tables dir fs tables -> only_tables dir fs' res)
    /\ (forall e, e ∈ all_recs fs' res -> e ∈ all_recs fs tables)
    /\ (forall k s, protected floor s k (all_recs fs tables) ->
         newest k s (all_recs fs' res) = newest k s (all_recs fs tables))
    /\ ((DEFAULT_COMPACTION_THRESHOLD <= blen tables ->
          concat (groupBySimilarSize fs tables) = tables) ->
         by_recency (table_recs fs' <$> res)
         /\ forall k s, protected floor s k (all_recs fs tables) ->
              search_levels k s (table_recs fs' <$> res) = search_levels k s (table_recs fs <$> tables)).
Proof.
  intros Hb Hn Ht Hst Hr.
  destruct (Compact_ok bloom0 newFile tick dir Hb Hn Ht fs truth now tables floor Hst Hr)
    as (fs' & now' & truth' & res & Hc & _ & Hsub & Hst' & Hdir & Hin & Hread & Hrec & _ & _).
  exists fs', now', truth', res. do 6 (split; [done|]). intros Hcont. specialize (Hrec Hcont).
  split; [done|]. intros k s Hp. rewrite !search_levels_newest by done. by apply Hread.
Qed.
End compaction_properties.

(** *** Four tables with one record each *)

Definition demo_rec (k : string) (s : Z) : kv :=
  mkKV (encodeIK (MakeInternalKey (bytes_of k) s 1)) (bytes_of "value").

Definition demo_push (st : FS * list SSTable) (t : Z) (e : kv) : FS * list SSTable :=
  match WriteSSTableFromBlockEntries demo_bloom st.1 new_file (sst_path demo_dir t) [e] with
  | (fs', Ok sst) => (fs', sst :: st.2)
  | (fs', _) => (fs', st.2)
  end.

Definition demo_four : list kv :=
  [demo_rec "a" 1; demo_rec "b" 2; demo_rec "c" 3; demo_rec "d" 4]%string.

(** The store after pushing records at times 1, 2, ... *)
Fixpoint demo_store (es : list kv) : FS * list SSTable :=
  match es with
  | [] => (demo_fs, [])
  | e :: es' => demo_push (demo_store es') (blen (e :: es')) e
  end.

Lemma demo_clock : clock_ok demo_dir demo_fs ∅ 0.
Proof.
  split; [reflexivity|]. intros t Ht.
  assert (Hlen : forall p, (5 <= length p)%nat -> demo_fs !! p = None).
  { intros p Hp. unfold demo_fs. apply lookup_singleton_ne. intros <-. vm_compute in Hp. lia. }
  assert ((5 <= length (sst_path demo_dir t))%nat).
  { unfold sst_path. rewrite length_app. simpl. lia. }
  split; [by apply Hlen|]. split; [|done]. apply Hlen. rewrite length_app. lia.
Qed.

Lemma distinct_keys_recency (es : list kv) :
  NoDup (uk <$> es) -> by_recency ((fun e => [e]) <$> es).
Proof.
  induction es as [|e es IH]; rewrite ?fmap_cons; intros Hnd; [constructor|].
  apply NoDup_cons in Hnd as [He Hnd]. constructor; [|by apply IH].
  apply Forall_fmap, Forall_forall. intros x Hx a b Ha Hb Hu.
  apply list_elem_of_singleton in Ha as ->, Hb as ->. destruct He. rewrite Hu.
  by apply list_elem_of_fmap_2.
Qed.

Lemma demo_store_ok es :
  Forall wf_kv es -> Forall kv_small es -> keys_nodup es ->
  exists truth, store_ok demo_dir (demo_store es).1 truth (blen es) (demo_store es).2
    /\ table_recs (demo_store es).1 <$> (demo_store es).2 = (fun e => [e]) <$> es.
Proof.
  induction es as [|e es IH]; intros Hwf Hsm Hnd.
  { exists ∅. split; [|done]. split; [apply demo_clock|constructor..]. }
  apply Forall_cons_1 in Hwf as [Hw1 Hwf]. apply Forall_cons_1 in Hsm as [Hs1 Hsm].
  pose proof Hnd as Hnd'. unfold keys_nodup in Hnd. rewrite fmap_cons in Hnd.
  apply NoDup_cons in Hnd as [_ Hnd].
  destruct (IH Hwf Hsm Hnd) as (truth & Hst & Hrecs).
  assert (Hall : all_recs (demo_store es).1 (demo_store es).2 = es).
  { unfold all_recs. rewrite Hrecs. clear. induction es as [|x es IHes]; [done|]. simpl. by f_equal. }
  destruct (store_push (WL := os_File_WriterLaws) demo_bloom new_file demo_dir _ truth (blen es) (blen (e :: es)) _ [e]
    demo_bloom_ok (fun _ => eq_refl) Hst) as (fs' & sst & truth' & Hw & _ & _ & Hst' & _ & Hr).
  - rewrite blen_cons. lia.
  - repeat constructor.
  - by constructor.
  - by constructor.
  - by rewrite Hall.
  - exists truth'. cbn [demo_store]. unfold demo_push. rewrite Hw. cbn [fst snd].
    split; [done|]. by rewrite Hr, Hrecs.
Qed.

Lemma compact_preserves_reads_witness :
  exists truth fs' now' truth' res,
    Compact demo_bloom new_file Z.succ (demo_store demo_four).1 4 (demo_store demo_four).2
      demo_dir SeqNumMax = (fs', now', Ok res)
    /\ store_ok demo_dir fs' truth' now' res /\ truth ⊆ truth'
    /\ forall e, e ∈ all_recs fs' res -> e ∈ demo_four.
Proof.
  destruct (demo_store_ok demo_four) as (truth & Hst & Hrecs).
  - repeat constructor; vm_compute; congruence.
  - repeat constructor; vm_compute; congruence.
  - apply (bool_decide_unpack (NoDup (Key <$> demo_four))). vm_compute. exact I.
  - exists truth. destruct (compact_preserves_reads demo_bloom new_file Z.succ demo_dir
      (demo_store demo_four).1 truth 4 (demo_store demo_four).2 SeqNumMax)
      as (fs' & now' & truth' & res & Hc & Hst' & Hsub & _ & Hin & _).
    + apply demo_bloom_ok.
    + reflexivity.
    + intros t. lia.
    + exact Hst.
    + rewrite Hrecs. apply distinct_keys_recency.
      apply (bool_decide_unpack (NoDup (uk <$> demo_four))). vm_compute. exact I.
    + exists fs', now', truth', res. split; [done|]. split; [done|]. split; [done|].
      intros e He. apply Hin in He. unfold all_recs in He. rewrite Hrecs in He. exact He.
Defined.

(** *** Groups that are not runs *)






