(* ===== verification/Heap.v ===== *)
(** * Binary heaps ([container/heap])

    The merging iterator of [src/db/iterator.go] keeps its sources in a slice with
    [container/heap]. This file models the four library functions it uses, on a slice with
    the [Less], [Swap], [Push] and [Pop] methods of [mergeHeap]: [up] and [down] sift one
    element, [heap_Push] appends and sifts up, [heap_Pop] moves the root to the end, sifts
    down and cuts the slice.

    The lemmas: both operations keep the heap order, the elements are permuted, and the popped
    element is a least one. *)

From S2P Require Import Prelude.

Section heap.
Context {A : Type} `{Inh : Inhabited A} (less : A -> A -> bool).

(** [h.Swap(i, j)] and [h.Less(i, j)]; the indices are in range. *)
Definition Swap (h : list A) (i j : nat) : list A := <[i := h !!! j]> (<[j := h !!! i]> h).
Definition Less (h : list A) (i j : nat) : bool := less (h !!! i) (h !!! j).

(** The loops halve or double the index, so the length is enough fuel. *)
Fixpoint heap_up (fuel : nat) (h : list A) (j : nat) : list A :=
  match fuel with
  | O => h
  | S fuel' =>
      let i := ((j - 1) / 2)%nat in
      if (i =? j)%nat || negb (Less h j i) then h else heap_up fuel' (Swap h i j) i
  end.

Fixpoint heap_down (fuel : nat) (h : list A) (i n : nat) : list A :=
  match fuel with
  | O => h
  | S fuel' =>
      let j1 := (2 * i + 1)%nat in
      if (n <=? j1)%nat then h
      else
        let j2 := S j1 in
        let j := if (j2 <? n)%nat && Less h j2 j1 then j2 else j1 in
        if negb (Less h j i) then h else heap_down fuel' (Swap h i j) j n
  end.

(** [h.Push(x)] and [h.Pop()] of the slice, without the sifting. *)
Definition slice_Push (h : list A) (x : A) : list A := h ++ [x].

Definition slice_Pop (old : list A) : A * list A :=
  let n := length old in
  let item := old !!! (n - 1)%nat in
  (item, take (n - 1) old).

Definition heap_Push (h : list A) (x : A) : list A :=
  let h := slice_Push h x in heap_up (length h) h (length h - 1).

(** Popping an empty heap panics; the callers check the length. *)
Definition heap_Pop (h : list A) : result (A * list A) :=
  match h with
  | [] => Panic
  | _ =>
      let n := (length h - 1)%nat in
      let h := heap_down (length h) (Swap h 0 n) 0 n in
      Ok (slice_Pop h)
  end.

(** ** Swaps *)

Lemma Swap_length h i j : length (Swap h i j) = length h.
Proof. unfold Swap. by rewrite !length_insert. Qed.

Lemma Swap_lookup h i j k :
  (i < length h)%nat -> (j < length h)%nat ->
  Swap h i j !!! k = if decide (k = i) then h !!! j else if decide (k = j) then h !!! i else h !!! k.
Proof.
  intros Hi Hj. unfold Swap. destruct (decide (k = i)) as [->|Hki].
  - rewrite list_lookup_total_insert_eq; [done|]. by rewrite length_insert.
  - rewrite list_lookup_total_insert_ne by done. destruct (decide (k = j)) as [->|Hkj].
    + by rewrite list_lookup_total_insert_eq.
    + by rewrite list_lookup_total_insert_ne.
Qed.

Lemma list_delete_insert_eq (l : list A) i x : delete i (<[i := x]> l) = delete i l.
Proof.
  revert i. induction l as [|y l IH]; intros [|i]; [done..|]. change (y :: delete i (<[i := x]> l) = y :: delete i l).
  by rewrite IH.
Qed.

Lemma Swap_perm h i j : (i < length h)%nat -> (j < length h)%nat -> Swap h i j ≡ₚ h.
Proof.
  intros Hi Hj. unfold Swap.
  pose proof (list_lookup_lookup_total_lt h i Hi) as Hx.
  pose proof (list_lookup_lookup_total_lt h j Hj) as Hy.
  set (x := h !!! i) in *. set (y := h !!! j) in *. clearbody x y.
  destruct (decide (i = j)) as [->|Hij].
  { assert (x = y) as -> by congruence. by rewrite list_insert_insert_eq, list_insert_id. }
  set (g := <[j := x]> h). assert (Hg : g !! i = Some x) by (unfold g; by rewrite list_lookup_insert_ne).
  assert (Hgl : (i < length g)%nat) by (unfold g; by rewrite length_insert).
  assert (Hgh : x :: delete i g ≡ₚ x :: delete j h).
  { rewrite <- (delete_Permutation g i x Hg). unfold g.
    rewrite (delete_Permutation (<[j := x]> h) j x) by (by rewrite list_lookup_insert_eq).
    by rewrite list_delete_insert_eq. }
  rewrite (delete_Permutation (<[i := y]> g) i y) by (by rewrite list_lookup_insert_eq).
  rewrite list_delete_insert_eq, (delete_Permutation h j y Hy).
  apply Permutation_skip. by apply Permutation_cons_inv in Hgh.
Qed.

(** ** The heap order *)

Definition hle (x y : A) : Prop := less y x = false.

Context (less_asym : forall x y, less x y = true -> less y x = false)
  (hle_trans : forall x y z, hle x y -> hle y z -> hle x z).

Lemma hle_refl x : hle x x.
Proof. unfold hle. destruct (less x x) eqn:E; [|done]. by rewrite (less_asym _ _ E) in E. Qed.

(** [c] is a child of [i]. *)
Definition child (i c : nat) : Prop := c = (2 * i + 1)%nat \/ c = (2 * i + 2)%nat.

Definition heap_ok (h : list A) : Prop :=
  forall i c, child i c -> (c < length h)%nat -> hle (h !!! i) (h !!! c).

Lemma heap_ok_root h i : heap_ok h -> (i < length h)%nat -> hle (h !!! 0%nat) (h !!! i).
Proof.
  intros Hh. induction (lt_wf i) as [i _ IH]. intros Hi. destruct i as [|i]; [apply hle_refl|].
  assert (Hc : child (i / 2) (S i)).
  { unfold child. pose proof (Nat.div_mod_eq i 2). pose proof (Nat.mod_upper_bound i 2). lia. }
  apply (hle_trans _ (h !!! (i / 2)%nat)); [|by apply Hh].
  apply IH; unfold child in Hc; lia.
Qed.

(** Sifting up: [j] may be smaller than its parent; its children are above its parent. *)
Definition up_inv (h : list A) (j : nat) : Prop :=
  (forall i c, child i c -> (c < length h)%nat -> c <> j -> hle (h !!! i) (h !!! c))
  /\ (forall i c, child i j -> child j c -> (c < length h)%nat -> hle (h !!! i) (h !!! c)).

Lemma up_inv_swap h i j :
  (j < length h)%nat -> child i j -> Less h j i = true -> up_inv h j -> up_inv (Swap h i j) i.
Proof.
  intros Hj Hij Hlt [H1 H2]. unfold Less in Hlt. pose proof (less_asym _ _ Hlt) as Hji.
  assert (Hi : (i < j)%nat) by (unfold child in Hij; lia).
  split; intros a c Hac; rewrite ?Swap_length; intros Hc; rewrite !Swap_lookup by lia.
  - intros Hci. rewrite (decide_False (P := c = i)) by done.
    destruct (decide (a = i)) as [->|Ha].
    + destruct (decide (c = j)) as [->|Hcj]; [done|].
      apply (hle_trans _ (h !!! i)); [done|]. by apply H1.
    + rewrite (decide_False (P := c = j)) by (intros ->; unfold child in *; lia).
      destruct (decide (a = j)) as [->|Haj]; [by apply H2|].
      apply H1; [done..|]. intros ->. unfold child in *. lia.
  - intros Hc'. rewrite (decide_False (P := a = i)), (decide_False (P := a = j)),
      (decide_False (P := c = i)) by (unfold child in *; lia).
    assert (Hai : hle (h !!! a) (h !!! i)) by (apply H1; unfold child in *; lia).
    destruct (decide (c = j)) as [->|Hcj]; [done|].
    apply (hle_trans _ (h !!! i)); [done|]. by apply H1.
Qed.

Lemma heap_up_spec fuel h j :
  up_inv h j -> (j < length h)%nat -> (j < fuel)%nat ->
  heap_ok (heap_up fuel h j) /\ heap_up fuel h j ≡ₚ h.
Proof.
  revert h j. induction fuel as [|fuel IH]; intros h j Hup Hj Hf; [lia|]. cbn [heap_up].
  set (i := ((j - 1) / 2)%nat). destruct (Nat.eqb_spec i j) as [Hij|Hij]; simpl.
  - split; [|done]. intros a c Hac Hc. apply (proj1 Hup); [done..|]. intros ->.
    assert (j = 0%nat) by (pose proof (Nat.div_mod_eq (j - 1) 2); unfold i in Hij; lia).
    unfold child in Hac. lia.
  - assert (Hc : child i j).
    { unfold child, i in *. pose proof (Nat.div_mod_eq (j - 1) 2).
      pose proof (Nat.mod_upper_bound (j - 1) 2). lia. }
    destruct (Less h j i) eqn:Hl; simpl.
    + assert ((i < j)%nat) by (unfold child in Hc; lia).
      destruct (IH (Swap h i j) i) as [Hok Hp]; [by apply up_inv_swap|rewrite Swap_length; lia|lia|].
      split; [done|]. rewrite Hp. apply Swap_perm; lia.
    + split; [|done]. intros a c Hac Hcl. destruct (decide (c = j)) as [->|Hne]; [|by apply (proj1 Hup)].
      assert (a = i) as -> by (unfold child in *; lia). done.
Qed.

Lemma heap_Push_spec h x :
  heap_ok h -> heap_ok (heap_Push h x) /\ heap_Push h x ≡ₚ x :: h.
Proof.
  intros Hh. unfold heap_Push, slice_Push. rewrite length_app. simpl.
  destruct (heap_up_spec (length h + 1) (h ++ [x]) (length h + 1 - 1)) as [Hok Hp];
    rewrite ?length_app; simpl; [|lia..|].
  - assert (Hl : forall k, (k < length h)%nat -> (h ++ [x]) !!! k = h !!! k)
      by (intros k Hk; by apply lookup_total_app_l).
    split; intros i c; rewrite length_app; simpl.
    + intros Hic Hc Hne. rewrite !Hl by (unfold child in Hic; lia). apply Hh; [done|lia].
    + unfold child. lia.
  - split; [done|]. rewrite Hp. by rewrite Permutation_app_comm.
Qed.

(** Sifting down the first [n] elements: [i] may be greater than its children, which are
    above its parent. *)
Definition down_inv (h : list A) (i n : nat) : Prop :=
  (forall a c, child a c -> (c < n)%nat -> a <> i -> hle (h !!! a) (h !!! c))
  /\ (forall p c, child p i -> child i c -> (c < n)%nat -> hle (h !!! p) (h !!! c)).

Lemma down_inv_swap h i j n :
  (n <= length h)%nat -> (j < n)%nat -> child i j -> Less h j i = true ->
  (forall c, child i c -> (c < n)%nat -> hle (h !!! j) (h !!! c)) ->
  down_inv h i n -> down_inv (Swap h i j) j n.
Proof.
  intros Hn Hj Hij Hlt Hmin [H1 H2]. unfold Less in Hlt. pose proof (less_asym _ _ Hlt) as Hji.
  assert (Hi : (i < j)%nat) by (unfold child in Hij; lia).
  split; intros a c Hac Hc; rewrite !Swap_lookup by lia.
  - intros Haj. rewrite (decide_False (P := a = j)) by done.
    destruct (decide (a = i)) as [->|Hai].
    + rewrite (decide_False (P := c = i)) by (unfold child in *; lia).
      destruct (decide (c = j)); [done|]. by apply Hmin.
    + destruct (decide (c = i)) as [->|Hci]; [by apply H2|].
      rewrite (decide_False (P := c = j)) by (intros ->; unfold child in *; lia). by apply H1.
  - assert (a = i) as -> by (unfold child in *; lia).
    rewrite (decide_True (P := i = i)), (decide_False (P := c = i)), (decide_False (P := c = j))
      by (done || (unfold child in *; lia)).
    intros Hcn. apply H1; [done..|]. lia.
Qed.

(** The smaller child of [i] among the first [n] elements. *)
Definition min_child (h : list A) (i n : nat) : nat :=
  if (S (2 * i + 1) <? n)%nat && Less h (S (2 * i + 1)) (2 * i + 1) then S (2 * i + 1)
  else (2 * i + 1)%nat.

Lemma min_child_spec h i n :
  (2 * i + 1 < n)%nat ->
  child i (min_child h i n) /\ (min_child h i n < n)%nat
  /\ forall c, child i c -> (c < n)%nat -> hle (h !!! min_child h i n) (h !!! c).
Proof.
  intros Hgt. unfold min_child, Less. destruct (Nat.ltb_spec (S (2 * i + 1)) n); simpl.
  - replace (2 * i + 2)%nat with (S (2 * i + 1)) by lia.
    destruct (less _ _) eqn:E; (split; [unfold child; lia|]); (split; [lia|]);
      intros c [->| ->] Hc; replace (2 * i + 2)%nat with (S (2 * i + 1)) in * by lia; try apply hle_refl.
    + by apply less_asym.
    + done.
  - split; [unfold child; lia|]. split; [lia|]. intros c [->| ->] Hc; [apply hle_refl|lia].
Qed.

Lemma heap_down_spec fuel h i n :
  (n <= length h)%nat -> (n - i <= fuel)%nat -> (i < n)%nat \/ n = 0%nat -> down_inv h i n ->
  let h' := heap_down fuel h i n in
  h' ≡ₚ h /\ (forall a c, child a c -> (c < n)%nat -> hle (h' !!! a) (h' !!! c))
  /\ (forall k, (n <= k)%nat -> h' !!! k = h !!! k).
Proof.
  revert h i. induction fuel as [|fuel IH]; intros h i Hn Hf Hi Hd; cbn [heap_down]; cbv zeta.
  - split; [done|]. split; [|done]. intros a c Hac Hc. lia.
  - destruct (Nat.leb_spec n (2 * i + 1)) as [Hle|Hgt].
    { split; [done|]. split; [|done]. intros a c Hac Hc. apply (proj1 Hd); [done..|]. unfold child in Hac. lia. }
    pose proof (min_child_spec h i n Hgt) as Hj. fold (min_child h i n). set (j := min_child h i n) in *.
    destruct Hj as (Hc & Hjn & Hmin). clearbody j. assert ((i < j)%nat) by (unfold child in Hc; lia).
    destruct (Less h j i) eqn:Hl; simpl.
    + destruct (IH (Swap h i j) j) as (Hp & Ho & Hk);
        [rewrite Swap_length; lia|lia|lia|by apply down_inv_swap|].
      split; [|split; [done|]].
      * rewrite Hp. apply Swap_perm; lia.
      * intros k Hkn. rewrite Hk, Swap_lookup by lia. rewrite !decide_False by lia. done.
    + split; [done|]. split; [|done]. intros a c Hac Hcn.
      destruct (decide (a = i)) as [->|Hne]; [|by apply (proj1 Hd)].
      apply (hle_trans _ (h !!! j)); [done|]. by apply Hmin.
Qed.

Lemma heap_ok_take h n :
  (n <= length h)%nat ->
  (forall a c, child a c -> (c < n)%nat -> hle (h !!! a) (h !!! c)) -> heap_ok (take n h).
Proof.
  intros Hn Hh a c Hac. rewrite length_take. intros Hc.
  rewrite !lookup_total_take_lt by (unfold child in *; lia). apply Hh; [done|lia].
Qed.

(** Popping a non-empty heap gives a least element and a heap of the others. *)
Lemma heap_Pop_spec h :
  heap_ok h -> h <> [] ->
  exists x h', heap_Pop h = Ok (x, h') /\ h ≡ₚ x :: h' /\ heap_ok h' /\ head h = Some x
    /\ forall y, y ∈ h -> hle x y.
Proof.
  intros Hh Hne. destruct h as [|x0 l]; [done|]. set (h := x0 :: l) in *.
  assert (Hlen : length h = S (length h - 1)) by (simpl; lia).
  unfold heap_Pop. set (n := (length h - 1)%nat) in *.
  change (match h with [] => _ | _ => ?k end) with k. cbv zeta.
  destruct (heap_down_spec (length h) (Swap h 0 n) 0 n) as (Hp & Ho & Hk).
  { rewrite Swap_length. lia. }
  { lia. }
  { lia. }
  { split; [|unfold child; lia]. intros a c Hac Hc Ha. rewrite !Swap_lookup by lia.
    rewrite !decide_False by (unfold child in Hac; lia). apply Hh; [done|lia]. }
  set (h' := heap_down _ _ _ _) in *. assert (Hl' : length h' = length h).
  { by rewrite Hp, Swap_length. }
  unfold slice_Pop. cbv zeta. rewrite Hl'. fold n.
  assert (Hx : h' !!! n = x0).
  { rewrite Hk, Swap_lookup by lia. destruct (decide (n = 0%nat)) as [E|]; [by rewrite E|].
    by rewrite decide_True. }
  rewrite Hx. exists x0, (take n h'). split; [done|]. split; [|split; [|split; [done|]]].
  - rewrite <- (Swap_perm h 0 n), <- Hp by lia. rewrite <- (take_drop n h') at 1.
    rewrite (drop_S h' x0 n), drop_ge by (lia || (rewrite <- Hx; apply list_lookup_lookup_total_lt; lia)).
    by rewrite Permutation_app_comm.
  - apply heap_ok_take; [lia|done].
  - intros y (i & Hi)%list_elem_of_lookup. pose proof (lookup_lt_Some _ _ _ Hi).
    apply list_lookup_total_correct in Hi as <-. by apply (heap_ok_root h i).
Qed.
End heap.
