(* ===== verification/Scan.v ===== *)
(** * Range scans ([src/db/iterator.go])

    The merging iterator over the memtable and every table: a heap of sources ordered by the
    internal key each stands at, from which [Next] pops the least, skips every other version
    of its user key in all sources, hides tombstones and stops past the upper bound.

    A source is the memtable's or a table's iterator; the [source] interface is the sum of the
    two. An item owns its source: it is popped before the source is advanced and a new item is
    pushed afterwards, so a source is never in two items of the heap and is kept by value.
    [Next] runs without the database's lock, on the file system and the cache of the moment it
    is called.

    The theorem: draining a scan yields, in strictly increasing key order, exactly the live
    keys between the bounds with the values a point read at the same snapshot returns. *)

From S2P Require Import Prelude Config Base Mvcc Memtable Bloom Cache Bufio Wal Block Fs Sstable.
From S2P Require Import SstReader Store Compaction Db Heap.

Section scan.
Context {C : Type} `{CC : Cacher (list kv) C} (fs : FS).

(** ** Sources *)

Inductive source :=
| SrcMem (it : mt_Iterator)
| SrcSst (it : Iterator).

Definition src_Valid (s : source) : bool :=
  match s with SrcMem it => mi_Valid it | SrcSst it => it_Valid it end.
Definition src_Key (s : source) : result bytes :=
  match s with SrcMem it => mi_Key it | SrcSst it => it_Key it end.
Definition src_Value (s : source) : result bytes :=
  match s with SrcMem it => mi_Value it | SrcSst it => it_Value it end.
Definition src_Next (s : source) : cached (C := C) source :=
  match s with
  | SrcMem it => cret (Ok (SrcMem (mi_Next it)))
  | SrcSst it => let$ it' := it_Next fs it in cret (Ok (SrcSst it'))
  end.

(** A bound on the entries a source has left. *)
Definition src_fuel (s : source) : nat :=
  match s with SrcMem it => length (mi_entries it) | SrcSst it => it_fuel (it_sst it) end.

(** ** The heap of sources *)

Record mergeItem := mkItem { item_key : bytes; priority : Z; src : source }.

#[local] Instance mergeItem_inhabited : Inhabited mergeItem :=
  populate (mkItem [] 0 (SrcMem (mkMtIter [] 0))).

Definition mergeHeap_Less (a b : mergeItem) : bool :=
  let c := InternalCompare bytes_Compare (DecodeInternalKey (item_key a))
             (DecodeInternalKey (item_key b)) in
  if negb (c =? 0) then c <? 0 else priority a <? priority b.

Record MergeIterator := mkMerge {
  m_h : list mergeItem;
  m_upperBound : option bytes;
  m_key : bytes;
  m_val : bytes;
  m_valid : bool
}.

(** The loop of [skipPast]: [Next] at least once, then while the user key is the same. *)
Fixpoint skip_versions (fuel : nat) (userKey : bytes) (s : source) : cached (C := C) source :=
  let$ s := src_Next s in
  if src_Valid s then
    let$ key := cret (src_Key s) in
    if negb (bytes_Equal (UserKey (DecodeInternalKey key)) userKey) then cret (Ok s)
    else match fuel with O => cret Panic | S fuel' => skip_versions fuel' userKey s end
  else cret (Ok s).

Definition push_source (h : list mergeItem) (prio : Z) (s : source) : cached (C := C) (list mergeItem) :=
  if src_Valid s then
    let$ key := cret (src_Key s) in
    cret (Ok (heap_Push mergeHeap_Less h (mkItem key prio s)))
  else cret (Ok h).

Definition skipPast (userKey : bytes) (item : mergeItem) (h : list mergeItem) :
    cached (C := C) (list mergeItem) :=
  let$ s := skip_versions (src_fuel (src item)) userKey (src item) in
  push_source h (priority item) s.

(** The inner loop of [Next]; every round removes an item that stands at [userKey]. *)
Fixpoint skip_others (fuel : nat) (userKey : bytes) (h : list mergeItem) : cached (C := C) (list mergeItem) :=
  match h with
  | [] => cret (Ok h)
  | top :: _ =>
      if bytes_Equal (UserKey (DecodeInternalKey (item_key top))) userKey then
        match fuel with
        | O => cret Panic
        | S fuel' =>
            let$ (item, h) := cret (heap_Pop mergeHeap_Less h) in
            let$ h := skipPast userKey item h in
            skip_others fuel' userKey h
        end
      else cret (Ok h)
  end.

(** [m.upperBound != nil && bytes.Compare(userKey, m.upperBound) > 0] *)
Definition past_bound (upperBound : option bytes) (userKey : bytes) : bool :=
  match upperBound with Some ub => 0 <? bytes_Compare userKey ub | None => false end.

(** The outer loop of [Next]; every round takes at least one entry from the sources. *)
Fixpoint next_loop (fuel : nat) (m : MergeIterator) : cached (C := C) (bool * MergeIterator) :=
  match m_h m with
  | [] => cret (Ok (false, mkMerge [] (m_upperBound m) (m_key m) (m_val m) false))
  | _ =>
      match fuel with
      | O => cret Panic
      | S fuel' =>
          let$ (top, h) := cret (heap_Pop mergeHeap_Less (m_h m)) in
          let ik := DecodeInternalKey (item_key top) in
          let userKey := UserKey ik in
          let kind := Kind ik in
          let$ val := cret (src_Value (src top)) in
          let$ h := skipPast userKey top h in
          let$ h := skip_others (length h) userKey h in
          if past_bound (m_upperBound m) userKey then
            cret (Ok (false, mkMerge h (m_upperBound m) (m_key m) (m_val m) false))
          else if kind =? InternalKeyKindDelete then
            next_loop fuel' (mkMerge h (m_upperBound m) (m_key m) (m_val m) (m_valid m))
          else cret (Ok (true, mkMerge h (m_upperBound m) userKey val true))
      end
  end.

Definition heap_fuel (h : list mergeItem) : nat :=
  foldr (fun item n => src_fuel (src item) + n)%nat 0%nat h.

Definition merge_Next (m : MergeIterator) : cached (C := C) (bool * MergeIterator) :=
  next_loop (heap_fuel (m_h m)) m.

(** [for it.Next() { ... it.Key(), it.Value() }] *)
Fixpoint scan_loop (fuel : nat) (m : MergeIterator) : cached (C := C) (list (bytes * bytes)) :=
  let$ (more, m) := merge_Next m in
  if more then
    match fuel with
    | O => cret Panic
    | S fuel' =>
        let$ rest := scan_loop fuel' m in
        cret (Ok ((m_key m, m_val m) :: rest))
    end
  else cret (Ok []).

Definition scan_drain (m : MergeIterator) : cached (C := C) (list (bytes * bytes)) :=
  scan_loop (heap_fuel (m_h m)) m.

(** ** Opening a scan *)

(** [for i, sst := range db.sstables] *)
Fixpoint scan_tables (tables : list SSTable) (i : Z) (lowerBound : bytes) (snapshot : Z)
    (h : list mergeItem) : cached (C := C) (list mergeItem) :=
  match tables with
  | [] => cret (Ok h)
  | sst :: tables' =>
      let$ sstIt := NewIterator fs sst lowerBound snapshot in
      let$ h := push_source h (i + 1) (SrcSst sstIt) in
      scan_tables tables' (i + 1) lowerBound snapshot h
  end.

Context `{BT : BTree kv Item_Less}.

Definition ScanAt (db : DB C) (lowerBound : bytes)
    (upperBound : option bytes) (snapshot : Z) : cached (C := C) MergeIterator :=
  let$ h := push_source [] 0 (SrcMem (mt_NewIterator (db_mem db) lowerBound upperBound snapshot)) in
  let$ h := scan_tables (db_tables db) 0 lowerBound snapshot h in
  cret (Ok (mkMerge h upperBound [] [] false)).

Definition Scan (db : DB C) (lowerBound : bytes)
    (upperBound : option bytes) : cached (C := C) MergeIterator :=
  ScanAt db lowerBound upperBound SeqNumMax.
End scan.

#[global] Existing Instance mergeItem_inhabited.

(** ** The order of the heap *)

Lemma kcmp_opp a b : kcmp a b = - kcmp b a.
Proof. apply (cmp_opp (f := InternalCompare bytes_Compare)). Qed.

Lemma mergeHeap_Less_asym a b : mergeHeap_Less a b = true -> mergeHeap_Less b a = false.
Proof.
  unfold mergeHeap_Less. fold (kcmp (item_key a) (item_key b)) (kcmp (item_key b) (item_key a)).
  rewrite (kcmp_opp (item_key b)). set (c := kcmp (item_key a) (item_key b)).
  destruct (Z.eqb_spec c 0), (Z.eqb_spec (- c) 0); simpl; lia.
Qed.

(** Not greater: a smaller key, or the same key and no greater priority. *)
Lemma mergeHeap_hle a b :
  hle mergeHeap_Less a b <->
  kcmp (item_key a) (item_key b) < 0
  \/ (kcmp (item_key a) (item_key b) = 0 /\ priority a <= priority b).
Proof.
  unfold hle, mergeHeap_Less. fold (kcmp (item_key b) (item_key a)).
  rewrite (kcmp_opp (item_key b)). destruct (Z.eqb_spec (- kcmp (item_key a) (item_key b)) 0); simpl; lia.
Qed.

Lemma kcmp_le_trans a b c : kcmp a b <= 0 -> kcmp b c <= 0 -> kcmp a c <= 0.
Proof. unfold kcmp. apply (cmp_le_trans (InternalCompare bytes_Compare)). Qed.

Lemma mergeHeap_hle_trans a b c :
  hle mergeHeap_Less a b -> hle mergeHeap_Less b c -> hle mergeHeap_Less a c.
Proof.
  rewrite !mergeHeap_hle. intros Hab Hbc.
  pose proof (kcmp_le_trans (item_key a) (item_key b) (item_key c)).
  pose proof (kcmp_le_trans (item_key c) (item_key a) (item_key b)).
  pose proof (kcmp_le_trans (item_key b) (item_key c) (item_key a)).
  pose proof (kcmp_opp (item_key a) (item_key b)). pose proof (kcmp_opp (item_key b) (item_key c)).
  pose proof (kcmp_opp (item_key a) (item_key c)). lia.
Qed.

(** ** What the sources and the heap hold *)

Section scan_facts.
Context {C : Type} `{CL : CacherLaws (list kv) C} (fs : FS) (truth : gmap bytes (list kv)).
Context (tabs : list SSTable).
Implicit Types (h : list mergeItem) (l all : list kv).

(** The source will yield the records [l], all visible at [s]; a table is one of [tabs]. *)
Definition src_yields (s : Z) (sr : source) (l : list kv) : Prop :=
  match sr with
  | SrcMem it => l = drop (mi_pos it) (mi_entries it)
  | SrcSst it =>
      exists sst blocks, sst ∈ tabs /\ table_ok fs truth sst blocks /\ it_yields sst s blocks it l
  end.

Lemma src_yields_nil s sr : src_yields s sr [] -> src_Valid sr = false.
Proof.
  destruct sr as [it|it]; simpl.
  - intros Hd%(f_equal length). rewrite length_drop in Hd. simpl in Hd. unfold mi_Valid.
    apply Nat.ltb_ge. lia.
  - intros (sst & blocks & _ & _ & Hy). by apply it_yields_nil in Hy.
Qed.

Lemma src_yields_cons s sr e l :
  src_yields s sr (e :: l) ->
  src_Valid sr = true /\ src_Key sr = Ok (Key e) /\ src_Value sr = Ok (Value e)
  /\ cspec truth (src_Next fs sr) (fun sr' => src_yields s sr' l).
Proof.
  destruct sr as [it|it]; simpl.
  - intros Hd. destruct (mi_entries it !! mi_pos it) as [x|] eqn:Hx.
    + rewrite (drop_S _ x) in Hd by done. injection Hd as -> ->.
      unfold mi_Valid, mi_Key, mi_Value. rewrite Hx. split; [|split; [done|split; [done|]]].
      * apply Nat.ltb_lt. by eapply lookup_lt_Some.
      * by apply cspec_ret.
    + apply lookup_ge_None in Hx. by rewrite drop_ge in Hd.
  - intros (sst & blocks & Hin & Ht & Hy). destruct (it_yields_cons _ _ _ _ _ _ Hy) as [Hv Hc].
    unfold it_Key, it_Value. rewrite Hc. split; [done|]. split; [done|]. split; [done|].
    eapply cspec_bind; [by eapply it_Next_spec|]. intros it' Hy'. apply cspec_ret. simpl. eauto 6.
Qed.

Lemma src_yields_fuel s sr l : src_yields s sr l -> (length l <= src_fuel sr)%nat.
Proof.
  destruct sr as [it|it]; simpl.
  - intros ->. rewrite length_drop. lia.
  - intros (sst & blocks & _ & _ & l' & (Hs & _) & _ & -> & Hf). rewrite Hs.
    etrans; [apply length_filter|done].
Qed.

(** The item stands at the first of the sorted records [l]. *)
Definition item_at (s : Z) (item : mergeItem) l : Prop :=
  src_yields s (src item) l /\ StronglySorted ele l
  /\ exists e l', l = e :: l' /\ item_key item = Key e.

Definition heap_holds (s : Z) h all : Prop :=
  exists ls, Forall2 (item_at s) h ls /\ all ≡ₚ concat ls.

Lemma heap_holds_nil s all : heap_holds s [] all <-> all = [].
Proof.
  split; [|intros ->; by exists []]. intros (ls & Hf & Hp). inversion Hf; subst. simpl in Hp.
  by apply Permutation_nil_r in Hp.
Qed.

Lemma heap_holds_cons s item h all :
  heap_holds s (item :: h) all <->
  exists l all', item_at s item l /\ heap_holds s h all' /\ all ≡ₚ l ++ all'.
Proof.
  split.
  - intros (ls & Hf & Hp). inversion Hf as [|? l ? ls' Hi Hf']; subst.
    exists l, (concat ls'). split; [done|]. split; [by exists ls'|done].
  - intros (l & all' & Hi & (ls & Hf & Hp) & Hall). exists (l :: ls). split; [by constructor|].
    simpl. by rewrite Hall, Hp.
Qed.

#[local] Instance heap_holds_proper s : Proper ((≡ₚ) ==> (≡ₚ) ==> iff) (heap_holds s).
Proof.
  assert (Hall : forall h a1 a2, a1 ≡ₚ a2 -> heap_holds s h a1 -> heap_holds s h a2).
  { intros h a1 a2 Ha (ls & Hf & Hp). exists ls. split; [done|]. by rewrite <- Ha. }
  assert (Hh : forall h1 h2, h1 ≡ₚ h2 -> forall a, heap_holds s h1 a -> heap_holds s h2 a).
  { induction 1 as [|x h1 h2 _ IH|x y h|h1 h2 h3 _ IH1 _ IH2]; intros a Ha; [done| | |auto].
    - rewrite heap_holds_cons in Ha |- *. destruct Ha as (l & a' & ? & ? & ?). eauto 10.
    - rewrite heap_holds_cons in Ha. destruct Ha as (ly & a1 & Hy & Ha1 & Hp1).
      rewrite heap_holds_cons in Ha1. destruct Ha1 as (lx & a2 & Hx & Ha2 & Hp2).
      apply heap_holds_cons. exists lx, (ly ++ a2). split; [done|]. split.
      + apply heap_holds_cons. eauto 10.
      + rewrite Hp1, Hp2. rewrite !app_assoc. by rewrite (Permutation_app_comm ly lx). }
  intros h1 h2 Hhp a1 a2 Hap. split; intros Hx.
  - eapply Hh; [exact Hhp|]. by eapply Hall.
  - eapply Hh; [symmetry; exact Hhp|]. eapply Hall; [symmetry; exact Hap|done].
Qed.

Abbreviation heap_ok' := (heap_ok mergeHeap_Less).

(** The popped item stands at a least record of all. *)
Lemma pop_least s h all :
  heap_ok' h -> heap_holds s h all -> h <> [] ->
  exists top h' e l all', heap_Pop mergeHeap_Less h = Ok (top, h') /\ heap_ok' h' /\ h ≡ₚ top :: h'
    /\ head h = Some top /\ item_key top = Key e
    /\ src_yields s (src top) (e :: l) /\ StronglySorted ele (e :: l)
    /\ heap_holds s h' all' /\ all ≡ₚ e :: l ++ all' /\ forall a, a ∈ all -> ele e a.
Proof.
  intros Hok Hh Hne.
  destruct (heap_Pop_spec mergeHeap_Less mergeHeap_Less_asym mergeHeap_hle_trans h Hok Hne)
    as (top & h' & Hpop & Hp & Hok' & Hhd & Hmin).
  pose proof Hh as Hh'. rewrite Hp in Hh'. apply heap_holds_cons in Hh' as (l0 & all' & Hi & Hh' & Hall).
  destruct Hi as (Hy & Hs & e & l & -> & Hk).
  exists top, h', e, l, all'. repeat (split; [done|]).
  intros a Ha. destruct Hh as (ls & Hf & Hpl). rewrite Hpl in Ha. apply list_elem_of_In, in_concat in Ha.
  destruct Ha as (l1 & Hl1%list_elem_of_In & Ha%list_elem_of_In).
  apply list_elem_of_lookup in Hl1 as [i Hl1].
  destruct (Forall2_lookup_r _ _ _ _ _ Hf Hl1) as (y & Hy1 & _ & Hs1 & e1 & l1' & -> & Hk1).
  assert (Hin : y ∈ h) by (apply list_elem_of_lookup; eauto).
  apply Hmin, mergeHeap_hle in Hin. rewrite Hk, Hk1 in Hin.
  assert (Hee : ele e e1) by (unfold ele, ecmp; lia).
  apply elem_of_cons in Ha as [->|Ha]; [done|]. etrans; [exact Hee|].
  inversion_clear Hs1 as [|? ? _ Hf1]. rewrite Forall_forall in Hf1. auto.
Qed.

(** ** Skipping the versions of a key *)

Definition other (k : bytes) l : list kv := filter (fun a => uk a <> k) l.

(** Every record's key is at or after [k]. *)
Definition from_key (k : bytes) l : Prop := forall a, a ∈ l -> bytes_Compare k (uk a) <= 0.

#[local] Instance other_proper k : Proper ((≡ₚ) ==> (≡ₚ)) (other k).
Proof. intros l1 l2 Hl. unfold other. by rewrite Hl. Qed.

(** A least record of another key leaves nothing to skip. *)
Lemma other_all k e l :
  (forall a, a ∈ l -> ele e a) -> from_key k l -> e ∈ l -> uk e <> k -> other k l = l.
Proof.
  intros Hmin Hf He Hne. apply filter_all. intros a Ha Hk. apply Hne.
  specialize (Hmin a Ha). apply ele_uk in Hmin. rewrite Hk in Hmin.
  apply (cmp_antisym bytes_Compare); [done|]. by apply Hf.
Qed.

Lemma other_hit k e l : uk e = k -> other k (e :: l) = other k l.
Proof. intros Hk. unfold other. rewrite filter_cons, decide_False; [done|]. intros Hn. by apply Hn. Qed.

Lemma other_app k l1 l2 : other k (other k l1 ++ l2) = other k l1 ++ other k l2.
Proof. unfold other. rewrite filter_app. f_equal. by apply list_filter_filter_r. Qed.

Lemma sorted_least e l : StronglySorted ele (e :: l) -> forall a, a ∈ e :: l -> ele e a.
Proof.
  intros Hs a [->|Ha]%elem_of_cons; [done|]. inversion_clear Hs as [|? ? _ Hle].
  rewrite Forall_forall in Hle. auto.
Qed.

Lemma skip_versions_spec s k fuel sr e l :
  src_yields s sr (e :: l) -> StronglySorted ele l -> from_key k l -> (length l <= fuel)%nat ->
  cspec truth (skip_versions fs fuel k sr) (fun sr' => src_yields s sr' (other k l)).
Proof.
  revert sr e l. induction fuel as [|fuel IH]; intros sr e l Hy Hs Hfk Hf;
    destruct (src_yields_cons _ _ _ _ Hy) as (_ & _ & _ & Hn); cbn [skip_versions];
    (eapply cspec_bind; [exact Hn|]); intros sr' Hy'.
  - destruct l; [|simpl in Hf; lia]. rewrite (src_yields_nil _ _ Hy'). by apply cspec_ret.
  - destruct l as [|e' l]; [rewrite (src_yields_nil _ _ Hy'); by apply cspec_ret|].
    destruct (src_yields_cons _ _ _ _ Hy') as (-> & -> & _).
    eapply (cspec_bind _ _ _ (fun x => x = Key e')); [by apply cspec_ret|]. intros ? ->.
    change (UserKey (DecodeInternalKey (Key e'))) with (uk e').
    unfold bytes_Equal. case_bool_decide as Hk; simpl.
    + rewrite other_hit by done. inversion_clear Hs. eapply IH; [exact Hy'|done| |simpl in Hf; lia].
      intros a Ha. apply Hfk. by apply list_elem_of_further.
    + rewrite (other_all k e') by (done || by apply sorted_least || apply list_elem_of_here).
      by apply cspec_ret.
Qed.

Lemma push_source_spec s h all prio sr l :
  heap_ok' h -> heap_holds s h all -> src_yields s sr l -> StronglySorted ele l ->
  cspec truth (push_source (C := C) h prio sr) (fun h' =>
    heap_ok' h' /\ heap_holds s h' (l ++ all)
    /\ (h' = h \/ exists item e l', h' ≡ₚ item :: h /\ item_key item = Key e /\ l = e :: l')).
Proof.
  intros Hok Hh Hy Hs. unfold push_source. destruct l as [|e l].
  { rewrite (src_yields_nil _ _ Hy). apply cspec_ret. auto. }
  destruct (src_yields_cons _ _ _ _ Hy) as (-> & -> & _).
  eapply (cspec_bind _ _ _ (fun x => x = Key e)); [by apply cspec_ret|]. intros ? ->.
  apply cspec_ret. set (item := mkItem (Key e) prio sr).
  destruct (heap_Push_spec mergeHeap_Less mergeHeap_Less_asym mergeHeap_hle_trans h item Hok) as [Hok' Hp].
  split; [done|]. split.
  - rewrite Hp. apply heap_holds_cons. exists (e :: l), all. split; [|done].
    split; [done|]. split; [done|]. by exists e, l.
  - right. by exists item, e, l.
Qed.

(** Items that stand at [k]. *)
Definition at_key (k : bytes) (item : mergeItem) : Prop :=
  UserKey (DecodeInternalKey (item_key item)) = k.

#[local] Instance at_key_dec k item : Decision (at_key k item).
Proof. unfold at_key. apply _. Defined.

Lemma skipPast_spec s k item e l h all :
  src_yields s (src item) (e :: l) -> StronglySorted ele (e :: l) -> from_key k l ->
  heap_ok' h -> heap_holds s h all ->
  cspec truth (skipPast fs k item h) (fun h' =>
    heap_ok' h' /\ heap_holds s h' (other k l ++ all)
    /\ length (filter (at_key k) h') = length (filter (at_key k) h)).
Proof.
  intros Hy Hs Hfk Hok Hh. unfold skipPast. inversion_clear Hs as [|? ? Hs' _].
  pose proof (src_yields_fuel _ _ _ Hy) as Hfu. simpl in Hfu.
  eapply cspec_bind; [eapply skip_versions_spec; [exact Hy|done|done|lia]|]. intros sr' Hy'.
  eapply cspec_mono; [eapply push_source_spec; [done|done|exact Hy'|by apply StronglySorted_filter]|].
  intros h' (Hok' & Hh' & Hshape). split; [done|]. split; [done|].
  destruct Hshape as [->|(it & e1 & l1 & Hp & Hk & Ho)]; [done|]. rewrite Hp.
  rewrite filter_cons, decide_False; [done|]. unfold at_key. rewrite Hk.
  assert (Hin : e1 ∈ other k l) by (rewrite Ho; apply list_elem_of_here).
  by apply list_elem_of_filter in Hin as [? _].
Qed.

Lemma skip_others_spec s k fuel h all :
  heap_ok' h -> heap_holds s h all -> from_key k all ->
  (length (filter (at_key k) h) <= fuel)%nat ->
  cspec truth (skip_others fs fuel k h) (fun h' => heap_ok' h' /\ heap_holds s h' (other k all)).
Proof.
  revert h all. induction fuel as [|fuel IH]; intros h all Hok Hh Hfk Hf;
    (destruct h as [|x h0]; [apply heap_holds_nil in Hh as ->; apply cspec_ret; by split; [|exists []]|]);
    cbn [skip_others];
    destruct (pop_least s (x :: h0) all Hok Hh ltac:(done))
      as (top & h' & e & l & all' & Hpop & Hok' & Hp & Hhd & Hk & Hy & Hs & Hh' & Hall & Hmin);
    injection Hhd as ->; rewrite Hk;
    change (UserKey (DecodeInternalKey (Key e))) with (uk e); unfold bytes_Equal;
    assert (Hea : e ∈ all) by (rewrite Hall; apply list_elem_of_here);
    (case_bool_decide as Hek; [|apply cspec_ret; split; [done|by rewrite (other_all k e)]]);
    assert (Hcnt : length (filter (at_key k) (top :: h0)) = S (length (filter (at_key k) h')))
      by (rewrite Hp, filter_cons, decide_True by (unfold at_key; by rewrite Hk); done);
    [lia|].
  assert (Hsub : forall a, a ∈ l ++ all' -> bytes_Compare k (uk a) <= 0).
  { intros a Ha. apply Hfk. rewrite Hall. by apply list_elem_of_further. }
  rewrite Hpop. eapply (cspec_bind _ _ _ (fun x => x = (top, h'))); [by apply cspec_ret|]. intros ? ->.
  eapply cspec_bind.
  { eapply skipPast_spec; [exact Hy|done| |exact Hok'|exact Hh'].
    intros a Ha. apply Hsub, elem_of_app. by left. }
  intros h2 (Hok2 & Hh2 & Hcnt2). eapply cspec_mono; [apply (IH h2 _ Hok2 Hh2); [|lia]|].
  - intros a. rewrite elem_of_app. intros [[_ Ha]%list_elem_of_filter|Ha]; apply Hsub, elem_of_app; auto.
  - intros h3 [Hok3 Hh3]. split; [done|]. rewrite other_app in Hh3. rewrite Hall.
    rewrite other_hit by done. unfold other at 1. by rewrite filter_app.
Qed.

(** ** [Next] *)

(** What a point read of [k] at [s] answers from these records. *)
Definition live (s : Z) all (k : bytes) : option bytes := read_result (newest k s all).

Record recs_ok (s : Z) all : Prop := {
  ro_wf : Forall wf_kv all;
  ro_coherent : coherent all;
  ro_visible a : a ∈ all -> seqn a <= s
}.

Lemma recs_ok_filter s all (P : kv -> Prop) `{!forall a, Decision (P a)} :
  recs_ok s all -> recs_ok s (filter P all).
Proof.
  intros [Hw Hc Hv]. split.
  - rewrite Forall_forall in *. intros a [_ Ha]%list_elem_of_filter. auto.
  - intros a b [_ Ha]%list_elem_of_filter [_ Hb]%list_elem_of_filter. by apply Hc.
  - intros a [_ Ha]%list_elem_of_filter. auto.
Qed.

Lemma newest_filter_keep k s l (P : kv -> Prop) `{!forall a, Decision (P a)} :
  (forall a, a ∈ l -> uk a = k -> seqn a <= s -> P a) -> newest k s (filter P l) = newest k s l.
Proof.
  induction l as [|a l IH]; intros Hin; [done|]. rewrite filter_cons.
  assert (IH' : newest k s (filter P l) = newest k s l).
  { apply IH. intros b Hb. by apply Hin, list_elem_of_further. }
  case_decide as Hp; [simpl; by rewrite IH'|]. destruct (visible_in k s a) eqn:Hv.
  - apply visible_in_true in Hv as [Hk Hs]. destruct Hp. apply Hin; [apply list_elem_of_here|done..].
  - by rewrite newest_cons_skip.
Qed.

Lemma live_absent s all k : (forall a, a ∈ all -> uk a <> k) -> live s all k = None.
Proof.
  intros Ha. unfold live. rewrite (proj2 (newest_None k s all)); [done|].
  intros e He. destruct (visible_in k s e) eqn:E; [|done]. apply visible_in_true in E as [Hk _].
  by destruct (Ha e He).
Qed.

Lemma live_present s all k v : live s all k = Some v -> exists a, a ∈ all /\ uk a = k.
Proof.
  unfold live. destruct (newest k s all) as [e|] eqn:E; [|done]. intros _.
  apply newest_Some in E as (He & [Hk _]%visible_in_true & _). eauto.
Qed.

Lemma live_other s all k k' : k' <> k -> live s (other k all) k' = live s all k'.
Proof.
  intros Hne. unfold live, other. rewrite newest_filter_keep; [done|]. intros a _ Ha _. congruence.
Qed.

Lemma live_below s all k k' : from_key k all -> bytes_Compare k' k < 0 -> live s all k' = None.
Proof.
  intros Hf Hlt. apply live_absent. intros a Ha <-. specialize (Hf a Ha).
  rewrite (cmp_opp (f := bytes_Compare) (uk a)) in Hf. lia.
Qed.

(** A least record of all is the newest version of its key. *)
Lemma newest_least s all e :
  recs_ok s all -> e ∈ all -> (forall a, a ∈ all -> ele e a) -> newest (uk e) s all = Some e.
Proof.
  intros [Hw Hc Hv] He Hmin. apply newest_intro; [done..| |].
  - apply visible_in_true. auto.
  - intros a Ha [Hk _]%visible_in_true. apply ele_same_key; [done|]. auto.
Qed.

(** The records after key [k]. *)
Definition after (k : bytes) all : list kv := filter (fun a => bytes_Compare k (uk a) < 0) all.

Lemma after_other k all : from_key k all -> after k all = other k all.
Proof.
  intros Hf. apply list_filter_iff_in. intros a Ha. specialize (Hf a Ha). split.
  - intros Hlt <-. by rewrite (cmp_refl bytes_Compare) in Hlt.
  - intros Hne. destruct (Z.eq_dec (bytes_Compare k (uk a)) 0) as [He|]; [|lia].
    apply (cmp_eq (f := bytes_Compare)) in He. congruence.
Qed.

Lemma after_skip k k0 all : bytes_Compare k0 k <= 0 -> after k (other k0 all) = after k all.
Proof.
  intros Hle. apply list_filter_filter_l. intros a Hlt <-.
  rewrite (cmp_opp (f := bytes_Compare) k) in Hle. lia.
Qed.

Definition next_post (s : Z) (ub : option bytes) all (r : bool * MergeIterator) : Prop :=
  m_upperBound r.2 = ub /\
  if r.1 then
    past_bound ub (m_key r.2) = false /\ live s all (m_key r.2) = Some (m_val r.2)
    /\ (forall k, bytes_Compare k (m_key r.2) < 0 -> live s all k = None)
    /\ heap_ok' (m_h r.2) /\ heap_holds s (m_h r.2) (after (m_key r.2) all)
  else forall k, past_bound ub k = false -> live s all k = None.

Lemma past_bound_lt ub k k' :
  past_bound ub k = true -> past_bound ub k' = false -> bytes_Compare k' k < 0.
Proof.
  destruct ub as [u|]; simpl; [|done]. rewrite Z.ltb_lt, Z.ltb_ge. intros H1 H2.
  apply (cmp_le_lt_trans bytes_Compare _ u); [done|]. by apply (cmp_gt_lt bytes_Compare).
Qed.

(** After a tombstone: the rest of the loop answers for all records. *)
Lemma next_post_skip s ub all k r :
  from_key k all -> live s all k = None -> next_post s ub (other k all) r -> next_post s ub all r.
Proof.
  intros Hf Hn [Hub Hr]. split; [done|]. destruct r as [[] m]; simpl in *.
  - destruct Hr as (Hp & Hl & Hbelow & Hok & Hh).
    assert (Hne : m_key m <> k).
    { intros E. destruct (live_present _ _ _ _ Hl) as (a & [Ha _]%list_elem_of_filter & Hk). congruence. }
    rewrite live_other in Hl by done. split; [done|]. split; [done|].
    destruct (live_present _ _ _ _ Hl) as (a & Ha & Hka). pose proof (Hf a Ha) as Hle. rewrite Hka in Hle.
    split; [|split; [done|]].
    + intros k' Hlt. destruct (decide (k' = k)) as [->|Hk']; [done|].
      rewrite <- (live_other _ _ k) by done. by apply Hbelow.
    + by rewrite after_skip in Hh.
  - intros k' Hp. destruct (decide (k' = k)) as [->|Hk']; [done|].
    rewrite <- (live_other _ _ k) by done. by apply Hr.
Qed.

(** Popping the least item and skipping its key everywhere. *)
Lemma next_round s h all :
  heap_ok' h -> heap_holds s h all -> h <> [] -> recs_ok s all ->
  exists top h' e, heap_Pop mergeHeap_Less h = Ok (top, h') /\ item_key top = Key e
    /\ src_Value (src top) = Ok (Value e) /\ newest (uk e) s all = Some e /\ from_key (uk e) all
    /\ (length (other (uk e) all) < length all)%nat
    /\ cspec truth (skipPast fs (uk e) top h') (fun h2 =>
         cspec truth (skip_others fs (length h2) (uk e) h2) (fun h3 =>
           heap_ok' h3 /\ heap_holds s h3 (other (uk e) all))).
Proof.
  intros Hok Hh Hne Hr.
  destruct (pop_least s h all Hok Hh Hne)
    as (top & h' & e & l & all' & Hpop & Hok' & _ & _ & Hk & Hy & Hs & Hh' & Hall & Hmin).
  destruct (src_yields_cons _ _ _ _ Hy) as (_ & _ & Hval & _).
  assert (Hea : e ∈ all) by (rewrite Hall; apply list_elem_of_here).
  assert (Hfk : from_key (uk e) all) by (intros a Ha; by apply ele_uk, Hmin).
  assert (Hsub : forall a, a ∈ l ++ all' -> bytes_Compare (uk e) (uk a) <= 0).
  { intros a Ha. apply Hfk. rewrite Hall. by apply list_elem_of_further. }
  exists top, h', e. repeat (split; [by (done || apply newest_least)|]). split.
  { rewrite Hall, other_hit by done. pose proof (length_filter (fun a => uk a <> uk e) (l ++ all')).
    unfold other. simpl. lia. }
  eapply cspec_mono; [eapply skipPast_spec; [exact Hy|done| |exact Hok'|exact Hh']|].
  { intros a Ha. apply Hsub, elem_of_app. by left. }
  intros h2 (Hok2 & Hh2 & _). eapply cspec_mono; [apply (skip_others_spec s _ _ h2 _ Hok2 Hh2)|].
  - intros a. rewrite elem_of_app. intros [[_ Ha]%list_elem_of_filter|Ha]; apply Hsub, elem_of_app; auto.
  - apply length_filter.
  - intros h3 [Hok3 Hh3]. split; [done|]. rewrite other_app in Hh3. rewrite Hall, other_hit by done.
    unfold other at 1. by rewrite filter_app.
Qed.

Lemma next_loop_spec s fuel m all :
  heap_ok' (m_h m) -> heap_holds s (m_h m) all -> recs_ok s all -> (length all <= fuel)%nat ->
  cspec truth (next_loop fs fuel m) (next_post s (m_upperBound m) all).
Proof.
  revert m all. induction fuel as [|fuel IH]; intros m all Hok Hh Hr Hf; cbn [next_loop];
    (destruct (m_h m) as [|x h0] eqn:Em;
      [apply heap_holds_nil in Hh as ->; apply cspec_ret; by split|]);
    (destruct (next_round s (x :: h0) all Hok Hh ltac:(done) Hr)
      as (top & h' & e & Hpop & Hk & Hval & Hnew & Hfk & Hlen & Hround)); [lia|].
  rewrite Hpop. eapply (cspec_bind _ _ _ (fun x => x = (top, h'))); [by apply cspec_ret|]. intros ? ->.
  cbv zeta. rewrite Hk, Hval. change (UserKey (DecodeInternalKey (Key e))) with (uk e).
  eapply (cspec_bind _ _ _ (fun x => x = Value e)); [by apply cspec_ret|]. intros ? ->.
  eapply cspec_bind; [exact Hround|]. intros h2 Hh2. eapply cspec_bind; [exact Hh2|].
  intros h3 [Hok3 Hh3]. destruct (past_bound (m_upperBound m) (uk e)) eqn:Hpb.
  { apply cspec_ret. split; [done|]. simpl. intros k Hkb. eapply live_below; [exact Hfk|].
    by eapply past_bound_lt. }
  assert (Hlive : live s all (uk e)
    = if Kind (DecodeInternalKey (Key e)) =? InternalKeyKindDelete then None else Some (Value e)).
  { unfold live. by rewrite Hnew. }
  destruct (Kind (DecodeInternalKey (Key e)) =? InternalKeyKindDelete).
  - eapply cspec_mono; [apply (IH (mkMerge h3 _ _ _ _) (other (uk e) all)); [done|done| |lia]|].
    + by apply recs_ok_filter.
    + intros r Hpost. by eapply next_post_skip.
  - apply cspec_ret. split; [done|]. simpl. rewrite after_other by done. split; [done|].
    split; [done|]. split; [|done]. intros k Hlt. by eapply live_below.
Qed.

Lemma heap_holds_fuel s h all : heap_holds s h all -> (length all <= heap_fuel h)%nat.
Proof.
  intros (ls & Hf & ->). induction Hf as [|item l h ls (Hy & _) _ IH]; [done|].
  simpl. rewrite length_app. pose proof (src_yields_fuel _ _ _ Hy). lia.
Qed.

(** ** Draining a scan *)

Definition klt (p q : bytes * bytes) : Prop := bytes_Compare p.1 q.1 < 0.

(** The live keys within the bound, in order. *)
Definition scan_post (s : Z) (ub : option bytes) all (out : list (bytes * bytes)) : Prop :=
  StronglySorted klt out
  /\ forall k v, (k, v) ∈ out <-> past_bound ub k = false /\ live s all k = Some v.

Lemma scan_post_cons s ub all k v out :
  past_bound ub k = false -> live s all k = Some v ->
  (forall k', bytes_Compare k' k < 0 -> live s all k' = None) ->
  scan_post s ub (after k all) out -> scan_post s ub all ((k, v) :: out).
Proof.
  intros Hp Hl Hb [Hs Ho].
  assert (Hlater : forall k', bytes_Compare k k' < 0 -> live s (after k all) k' = live s all k').
  { intros k' Hlt. unfold live, after. rewrite newest_filter_keep; [done|]. by intros a _ -> _. }
  assert (Hout : forall k' v', (k', v') ∈ out -> bytes_Compare k k' < 0).
  { intros k' v' [_ Hlv]%Ho. apply live_present in Hlv as (a & [Ha _]%list_elem_of_filter & <-). done. }
  split.
  - constructor; [done|]. apply Forall_forall. intros [k' v'] Hin. by eapply Hout.
  - intros k' v'. rewrite elem_of_cons. split.
    + intros [[= -> ->]|Hin]; [done|]. pose proof (Hout _ _ Hin). apply Ho in Hin.
      by rewrite Hlater in Hin.
    + intros [Hp' Hl']. destruct (Z.lt_trichotomy (bytes_Compare k k') 0) as [Hlt|[He|Hgt]].
      * right. apply Ho. by rewrite Hlater.
      * apply (cmp_eq (f := bytes_Compare)) in He as ->. left. congruence.
      * apply (cmp_gt_lt bytes_Compare) in Hgt. rewrite Hb in Hl' by done. done.
Qed.

Lemma scan_loop_spec s fuel m all :
  heap_ok' (m_h m) -> heap_holds s (m_h m) all -> recs_ok s all -> (length all <= fuel)%nat ->
  cspec truth (scan_loop fs fuel m) (scan_post s (m_upperBound m) all).
Proof.
  revert m all. induction fuel as [|fuel IH]; intros m all Hok Hh Hr Hf; cbn [scan_loop];
    (eapply cspec_bind; [apply (next_loop_spec s _ m all Hok Hh Hr), (heap_holds_fuel s), Hh|]);
    intros [more m'] [Hub Hpost]; simpl in Hub, Hpost; destruct more.
  - destruct Hpost as (_ & Hl & _). apply live_present in Hl as (a & Ha & _).
    destruct all; [by apply elem_of_nil in Ha|simpl in Hf; lia].
  - apply cspec_ret. split; [constructor|]. intros k v. rewrite elem_of_nil. split; [done|].
    intros [Hp Hl]. by rewrite Hpost in Hl.
  - destruct Hpost as (Hp & Hl & Hbelow & Hok' & Hh').
    eapply cspec_bind; [apply (IH m' _ Hok' Hh'); [by apply recs_ok_filter|]|].
    + destruct (live_present _ _ _ _ Hl) as (a & Ha & Hk).
      assert (length (after (m_key m') all) < length all)%nat; [|lia].
      eapply (length_filter_lt _ _ a); [done|]. rewrite Hk. rewrite (cmp_refl bytes_Compare). lia.
    + intros out Hout. apply cspec_ret. rewrite Hub in Hout. by apply scan_post_cons.
  - apply cspec_ret. split; [constructor|]. intros k v. rewrite elem_of_nil. split; [done|].
    intros [Hp Hl]. by rewrite Hpost in Hl.
Qed.

(** ** Opening a scan *)

Lemma heap_ok_nil : heap_ok' [].
Proof. intros i c _ Hc. simpl in Hc. lia. Qed.

Lemma scan_tables_spec s lb tables i h all :
  Forall (good fs truth) tables -> (forall sst, sst ∈ tables -> sst ∈ tabs) ->
  0 <= s <= SeqNumMax -> heap_ok' h -> heap_holds s h all ->
  cspec truth (scan_tables fs tables i lb s h) (fun h' =>
    heap_ok' h' /\ heap_holds s h' (all ++ filter (in_range lb None s) (all_recs fs tables))).
Proof.
  intros Hg Htabs Hs. revert i h all.
  induction Hg as [|sst tables (blocks & Ht & _) _ IH]; intros i h all Hok Hh; cbn [scan_tables].
  { apply cspec_ret. by rewrite app_nil_r. }
  eapply cspec_bind; [by apply NewIterator_yields|]. intros it Hy.
  eapply cspec_bind.
  { apply (push_source_spec s h all _ (SrcSst it) (filter (in_range lb None s) (concat blocks)) Hok Hh).
    - simpl. exists sst, blocks. split; [apply Htabs, list_elem_of_here|done].
    - apply StronglySorted_filter, sorted_elt_ele, Ht. }
  intros h' (Hok' & Hh' & _). eapply cspec_mono; [apply (IH (fun t Hin => Htabs t (list_elem_of_further _ _ _ Hin)) _ _ _ Hok' Hh')|].
  intros h2 [Hok2 Hh2]. split; [done|]. unfold all_recs in *.
  cbn [fmap list_fmap concat]. rewrite (table_recs_ok _ _ _ _ Ht), filter_app.
  by rewrite (app_assoc all), (Permutation_app_comm all).
Qed.

Context `{BT : BTree kv Item_Less} {BL : BTreeLaws kv Item_Less}.

(** The records a scan merges. *)
Definition scan_recs (db : DB C) (lb : bytes) (ub : option bytes) (s : Z) : list kv :=
  filter (in_range lb ub s) (mt_items (db_mem db))
    ++ filter (in_range lb None s) (all_recs fs (db_tables db)).

Lemma ScanAt_spec (db : DB C) lb ub s :
  mt_ok (db_mem db) -> Forall (good fs truth) (db_tables db) ->
  (forall sst, sst ∈ db_tables db -> sst ∈ tabs) -> 0 <= s <= SeqNumMax ->
  cspec truth (ScanAt fs db lb ub s) (fun m =>
    m_upperBound m = ub /\ heap_ok' (m_h m) /\ heap_holds s (m_h m) (scan_recs db lb ub s)).
Proof.
  intros Hm Hg Htabs Hs. unfold ScanAt. eapply cspec_bind.
  { apply (push_source_spec s [] [] 0 (SrcMem (mt_NewIterator (db_mem db) lb ub s))
      (filter (in_range lb ub s) (mt_items (db_mem db)))).
    - apply heap_ok_nil.
    - by apply heap_holds_nil.
    - unfold src_yields. by rewrite mt_NewIterator_entries.
    - by apply StronglySorted_filter, mt_items_sorted, Hm. }
  intros h (Hok & Hh & _). rewrite app_nil_r in Hh.
  eapply cspec_bind; [by apply scan_tables_spec|]. intros h' [Hok' Hh']. by apply cspec_ret.
Qed.

Lemma all_recs_wf tables : Forall (good fs truth) tables -> Forall wf_kv (all_recs fs tables).
Proof.
  induction 1 as [|sst tables Hg _ IH]; [constructor|]. unfold all_recs in *. simpl.
  apply Forall_app. split; [by apply (good_recs fs truth)|done].
Qed.

Lemma scan_recs_ok (db : DB C) lb ub s :
  mt_ok (db_mem db) -> Forall (good fs truth) (db_tables db) ->
  keys_nodup (mt_items (db_mem db) ++ all_recs fs (db_tables db)) ->
  recs_ok s (scan_recs db lb ub s).
Proof.
  intros Hm Hg Hnd.
  assert (Hin : forall a, a ∈ scan_recs db lb ub s ->
    a ∈ mt_items (db_mem db) ++ all_recs fs (db_tables db) /\ seqn a <= s).
  { intros a. unfold scan_recs. rewrite !elem_of_app, !list_elem_of_filter. unfold in_range. tauto. }
  assert (Hwf : Forall wf_kv (mt_items (db_mem db) ++ all_recs fs (db_tables db))).
  { apply Forall_app. split; [apply Hm|by apply all_recs_wf]. }
  split.
  - rewrite Forall_forall in *. intros a Ha. by apply Hwf, Hin.
  - intros a b Ha Hb. apply (keys_nodup_coherent _ Hnd); by apply Hin.
  - intros a Ha. by apply Hin.
Qed.

(** Within the bounds the merged records answer as all records do. *)
Lemma live_scan_recs (db : DB C) lb ub s k v :
  (past_bound ub k = false /\ live s (scan_recs db lb ub s) k = Some v) <->
  (bytes_Compare lb k <= 0 /\ past_bound ub k = false
   /\ live s (mt_items (db_mem db) ++ all_recs fs (db_tables db)) k = Some v).
Proof.
  assert (Heq : bytes_Compare lb k <= 0 -> past_bound ub k = false ->
    live s (scan_recs db lb ub s) k = live s (mt_items (db_mem db) ++ all_recs fs (db_tables db)) k).
  { intros Hlb Hub. unfold live, scan_recs. rewrite !newest_app, !newest_filter_keep; [done|..];
      intros a _ Hk Ha; unfold in_range; rewrite Hk; (split; [done|]; split; [|done]); [done|].
    destruct ub; [|done]. simpl in Hub. lia. }
  split.
  - intros [Hub Hl]. assert (Hlb : bytes_Compare lb k <= 0).
    { apply live_present in Hl as (a & Ha & <-). unfold scan_recs in Ha.
      rewrite elem_of_app, !list_elem_of_filter in Ha. unfold in_range in Ha. tauto. }
    by rewrite <- Heq.
  - intros (Hlb & Hub & Hl). by rewrite Heq.
Qed.

(** The pairs a full scan of [lb, ub] at [s] must return for these records. *)
Definition scan_answer (lb : bytes) (ub : option bytes) (s : Z) all (out : list (bytes * bytes)) : Prop :=
  StronglySorted klt out
  /\ forall k v, (k, v) ∈ out <->
       bytes_Compare lb k <= 0 /\ past_bound ub k = false /\ read_result (newest k s all) = Some v.

Lemma scan_spec (db : DB C) lb ub s :
  mt_ok (db_mem db) -> Forall (good fs truth) (db_tables db) ->
  (forall sst, sst ∈ db_tables db -> sst ∈ tabs) ->
  keys_nodup (mt_items (db_mem db) ++ all_recs fs (db_tables db)) -> 0 <= s <= SeqNumMax ->
  cspec truth (let$ m := ScanAt fs db lb ub s in scan_drain fs m)
    (scan_answer lb ub s (mt_items (db_mem db) ++ all_recs fs (db_tables db))).
Proof.
  intros Hm Hg Htabs Hnd Hs. eapply cspec_bind; [by apply ScanAt_spec|]. intros m (Hub & Hok & Hh).
  eapply cspec_mono.
  { apply (scan_loop_spec s _ m _ Hok Hh); [by apply scan_recs_ok|by apply (heap_holds_fuel s)]. }
  intros out [Hsort Hout]. split; [done|]. intros k v. rewrite Hout, Hub. apply live_scan_recs.
Qed.
End scan_facts.

(** ** Properties *)

Section scan_properties.
Context `{BT : BTree kv Item_Less} {BL : BTreeLaws kv Item_Less} {C : Type}
  `{CL : CacherLaws (list kv) C}.

(** C7: range scans. Opening a scan at a snapshot and calling [Next] until it returns false
    ends and yields every pair once, in strictly increasing key order: the pairs [(k, v)] with
    [k] between the bounds (no upper bound when it is nil) whose newest version visible at the
    snapshot, over the memtable and all tables together, is a put of [v]. Tombstones hide their
    key, older and invisible versions do not appear, and the block cache stays true. *)
Theorem scan_yields_live_range (fs : FS) (truth : gmap bytes (list kv)) (db : DB C) (lb : bytes)
    (ub : option bytes) (snapshot : Z) :
  mt_ok (db_mem db) -> Forall (good fs truth) (db_tables db) ->
  keys_nodup (mt_items (db_mem db) ++ all_recs fs (db_tables db)) -> 0 <= snapshot <= SeqNumMax ->
  cache_true truth (db_cache db) ->
  exists m c1 out c2,
    ScanAt fs db lb ub snapshot (db_cache db) = (Ok m, c1)
    /\ scan_drain fs m c1 = (Ok out, c2) /\ cache_true truth c2
    /\ StronglySorted klt out
    /\ forall k v, (k, v) ∈ out <->
         bytes_Compare lb k <= 0 /\ past_bound ub k = false
         /\ read_result (newest k snapshot
              (mt_items (db_mem db) ++ all_recs fs (db_tables db))) = Some v.
Proof.
  intros Hm Hg Hnd Hs Hc.
  destruct (scan_spec fs truth (db_tables db) db lb ub snapshot Hm Hg (fun _ H => H) Hnd Hs (db_cache db) Hc)
    as (out & c2 & Hrun & Hc2 & Hsort & Hout).
  unfold cbind in Hrun. destruct (ScanAt fs db lb ub snapshot (db_cache db)) as [[m|e|] c1]; try done.
  by exists m, c1, out, c2.
Qed.
End scan_properties.

(** A memtable that revives ["b"] over the table of the demo. *)
Definition demo_scan_mem : MemTable :=
  mt_Put NewMemTable (encodeIK (MakeInternalKey (bytes_of "b") 5 1)) (bytes_of "back").

Definition demo_scan_db : DB (ShardedLRU (list kv)) :=
  mkDB (wal_Open (mkFile [] 0)) demo_scan_mem [demo_sst] (mkConfig (bytes_of "wal") demo_dir)
    (NewShardedLRU 2 4) 5 NewWatermark.

Lemma scan_yields_live_range_witness :
  exists m c1 out c2,
    ScanAt demo_table_fs demo_scan_db (bytes_of "a") (Some (bytes_of "b")) 5 (NewShardedLRU 2 4)
      = (Ok m, c1)
    /\ scan_drain demo_table_fs m c1 = (Ok out, c2)
    /\ (bytes_of "a", bytes_of "new") ∈ out /\ (bytes_of "b", bytes_of "back") ∈ out.
Proof.
  destruct (scan_yields_live_range demo_table_fs (truth_of demo_path 0 demo_blocks) demo_scan_db
    (bytes_of "a") (Some (bytes_of "b")) 5) as (m & c1 & out & c2 & Hopen & Hrun & _ & _ & Hout).
  - apply mt_insert_ok; [apply NewMemTable_ok|split; vm_compute; congruence].
  - constructor; [|constructor]. exists demo_blocks. split; [apply demo_table_ok|].
    split; [apply lookup_insert_eq|]. split; [reflexivity|apply demo_blocks_fit].
  - apply (bool_decide_unpack (NoDup (Key <$> mt_items demo_scan_mem ++ all_recs demo_table_fs [demo_sst]))).
    vm_compute. exact I.
  - vm_compute. split; congruence.
  - apply new_cache_true. lia.
  - exists m, c1, out, c2. split; [exact Hopen|]. split; [exact Hrun|].
    split; apply Hout; (split; [vm_compute; congruence|split; [reflexivity|vm_compute; reflexivity]]).
Defined.
