(* ===== verification/DbRefine.v ===== *)
(** * The database refines a multi-version map

    The abstract database ([abs]) is the list of all records ever written, the last sequence
    number and the multiset of pinned snapshots. [db_inv] relates it to the program's state:
    the memtable, the tables on disk, the block cache, the log and the watermark.

    Compaction must group neighbouring tables for its result to be searched correctly
    ([Compaction.compaction_can_bury_newer_version] shows the other case); [flush_in_order]
    says so for the flush of a given state, and is trivially true below the compaction
    threshold. *)

From stdpp Require Import gmultiset sorting.
From S2P Require Import Prelude Config Base Mvcc Memtable Bloom Cache Bufio Wal Block Fs Sstable.
From S2P Require Import SstReader Store Compaction Db Heap Scan.

(** ** New records *)

Definition new_rec (key : bytes) (seq kind : Z) (value : bytes) : kv :=
  mkKV (encodeIK (MakeInternalKey key seq kind)) value.

Lemma new_rec_facts key seq kind value :
  0 <= seq <= SeqNumMax -> 0 <= kind <= 1 -> blen key <= MAX_KEY_LENGTH ->
  blen value <= MAX_VALUE_LENGTH ->
  let e := new_rec key seq kind value in
  wf_kv e /\ uk e = key /\ seqn e = seq /\ Kind (ik e) = kind /\ kv_small e /\ entry_ok e.
Proof.
  intros Hs Hk Hkl Hvl e. unfold MAX_KEY_LENGTH, MAX_VALUE_LENGTH in *.
  assert (Hd : ik e = MakeInternalKey key seq kind).
  { apply decode_encodeIK. simpl. apply MakeTrailer_range; lia. }
  assert (Hlen : blen (Key e) = blen key + 8).
  { unfold e, blen. simpl. rewrite encodeIK_length. simpl. lia. }
  assert (Hks : SeqNum (MakeInternalKey key seq kind) = seq /\ Kind (MakeInternalKey key seq kind) = kind).
  { unfold SeqNum, Kind. simpl. split; [apply trailer_SeqNum_make|apply trailer_Kind_make]; lia. }
  destruct Hks as [Hseq Hkind]. pose proof (blen_nonneg key). pose proof (blen_nonneg value).
  split; [split; [lia|unfold Valid, InternalKeyKindMax; rewrite Hd, Hkind; lia]|].
  split; [unfold uk; by rewrite Hd|]. split; [unfold seqn; by rewrite Hd|].
  split; [by rewrite Hd|].
  split; [unfold kv_small; rewrite Hlen; simpl; lia|]. unfold entry_ok, maxEncodedKeyLen.
  rewrite Hlen. unfold MAX_KEY_LENGTH, MAX_VALUE_LENGTH, InternalTrailerLen. simpl. lia.
Qed.

Lemma seqn_lt_trl a b : seqn a < seqn b -> trl a < trl b.
Proof.
  intros Hlt. destruct (Z.lt_ge_cases (trl a) (trl b)) as [|Hge]; [done|].
  apply trl_seqn_le in Hge. lia.
Qed.

Lemma elt_nodup l : StronglySorted elt l -> keys_nodup l.
Proof.
  induction 1 as [|x l Hs IH Hx]; [constructor|]. unfold keys_nodup. rewrite fmap_cons.
  apply NoDup_cons. split; [|done]. intros (y & Hy & Hin)%list_elem_of_fmap.
  rewrite Forall_forall in Hx. specialize (Hx y Hin). unfold elt, ecmp in Hx.
  rewrite Hy in Hx. unfold kcmp in Hx. by rewrite (cmp_refl _) in Hx.
Qed.

(** ** The abstract database *)

(** A write: a key and its new value, [None] when it is deleted. *)
Abbreviation write := (bytes * option bytes)%type.

(** The writes, newest first: the [n]-th write from the end has sequence number [n]. *)
Record abs := mkAbs { a_log : list write; a_pins : gmultiset Z }.

Definition a_seq (a : abs) : Z := blen (a_log a).

Fixpoint abs_read (k : bytes) (s : Z) (log : list write) : option bytes :=
  match log with
  | [] => None
  | (k', v) :: log' =>
      if (blen log <=? s) && bytes_Equal k' k then v else abs_read k s log'
  end.

(** A scan: the live keys between the bounds, in order, with their values. *)
Definition key_le (a b : bytes) : Prop := bytes_Compare a b <= 0.

#[global] Instance key_le_dec a b : Decision (key_le a b).
Proof. unfold key_le. apply _. Defined.

#[global] Instance key_le_trans : Transitive key_le.
Proof. intros a b c. apply (cmp_le_trans bytes_Compare). Qed.

#[global] Instance key_le_total : Total key_le.
Proof. intros a b. unfold key_le. rewrite (cmp_opp (f := bytes_Compare) b). lia. Qed.

Definition abs_pair (lb : bytes) (ub : option bytes) (s : Z) (log : list write) (k : bytes) :
    option (bytes * bytes) :=
  if decide (key_le lb k /\ past_bound ub k = false) then pair k <$> abs_read k s log else None.

Definition abs_scan (lb : bytes) (ub : option bytes) (s : Z) (log : list write) :
    list (bytes * bytes) :=
  omap (abs_pair lb ub s log) (merge_sort key_le (remove_dups log.*1)).

(** The calls of a client, and their answers. *)
Inductive call :=
| CPut (key value : bytes)
| CDelete (key : bytes)
| CGet (key : bytes)
| CGetAt (key : bytes) (snapshot : Z)
| CScanAt (lowerBound : bytes) (upperBound : option bytes) (snapshot : Z)
| CFlush
| CSnapshot
| CRelease (snapshot : Z).

Inductive reply :=
| RDone (r : result unit)
| RValue (r : result (option bytes))
| RPairs (r : result (list (bytes * bytes)))
| RSnapshot (snapshot : Z).

#[global] Instance reply_eq_dec : EqDecision reply.
Proof. solve_decision. Defined.

Definition abs_step (a : abs) (c : call) : abs * reply :=
  match c with
  | CPut k v =>
      if MAX_KEY_LENGTH <? blen k then (a, RDone (Err ErrKeyTooLong))
      else if MAX_VALUE_LENGTH <? blen v then (a, RDone (Err ErrValueTooLong))
      else (mkAbs ((k, Some v) :: a_log a) (a_pins a), RDone (Ok tt))
  | CDelete k =>
      if MAX_KEY_LENGTH <? blen k then (a, RDone (Err ErrKeyTooLong))
      else (mkAbs ((k, None) :: a_log a) (a_pins a), RDone (Ok tt))
  | CGet k => (a, RValue (Ok (abs_read k SeqNumMax (a_log a))))
  | CGetAt k s => (a, RValue (Ok (abs_read k s (a_log a))))
  | CScanAt lb ub s => (a, RPairs (Ok (abs_scan lb ub s (a_log a))))
  | CFlush => (a, RDone (Ok tt))
  | CSnapshot => (mkAbs (a_log a) ({[+ a_seq a +]} ⊎ a_pins a), RSnapshot (a_seq a))
  | CRelease s => (mkAbs (a_log a) (a_pins a ∖ {[+ s +]}), RDone (Ok tt))
  end.

(** A client uses a snapshot only while it holds it (or one not in the past), and stops
    before the sequence numbers run out. *)
Definition call_ok (a : abs) (c : call) : Prop :=
  match c with
  | CPut _ _ | CDelete _ => a_seq a < SeqNumMax
  | CGetAt _ s | CScanAt _ _ s => s ∈ a_pins a \/ a_seq a <= s <= SeqNumMax
  | _ => True
  end.

Fixpoint abs_run (a : abs) (cs : list call) : list reply :=
  match cs with
  | [] => []
  | c :: cs' => (abs_step a c).2 :: abs_run (abs_step a c).1 cs'
  end.

Fixpoint calls_ok (a : abs) (cs : list call) : Prop :=
  match cs with
  | [] => True
  | c :: cs' => call_ok a c /\ calls_ok (abs_step a c).1 cs'
  end.

(** The answer of a scan is determined by what it contains. *)
Lemma klt_unique (l1 l2 : list (bytes * bytes)) :
  StronglySorted klt l1 -> StronglySorted klt l2 -> (forall p, p ∈ l1 <-> p ∈ l2) -> l1 = l2.
Proof.
  assert (Hirr : forall a b, klt a b -> klt b a -> False).
  { intros a b. unfold klt. rewrite (cmp_opp (f := bytes_Compare) a.1). lia. }
  assert (Hself : forall a, klt a a -> False) by eauto.
  intros Hs1. revert l2. induction Hs1 as [|x l1 Hs1 IH Hx]; intros [|y l2] Hs2 Heq.
  - done.
  - exfalso. apply (not_elem_of_nil y), Heq, list_elem_of_here.
  - exfalso. apply (not_elem_of_nil x), Heq, list_elem_of_here.
  - inversion_clear Hs2 as [|? ? Hs2' Hy]. rewrite Forall_forall in Hx, Hy.
    assert (x = y) as ->.
    { assert (Hxy : x ∈ y :: l2) by (apply Heq, list_elem_of_here).
      assert (Hyx : y ∈ x :: l1) by (apply Heq, list_elem_of_here).
      apply elem_of_cons in Hxy as [?|Hxy]; [done|]. apply elem_of_cons in Hyx as [?|Hyx]; [done|].
      exfalso. eauto. }
    f_equal. apply IH; [done|]. intros p. specialize (Heq p). rewrite !elem_of_cons in Heq.
    split; intros Hp; (destruct (proj1 Heq ltac:(by right)) as [->|?] ||
      destruct (proj2 Heq ltac:(by right)) as [->|?]); try done; exfalso; eauto.
Qed.

Lemma merge_sort_keys (ks : list bytes) :
  NoDup ks -> StronglySorted (fun a b => bytes_Compare a b < 0) (merge_sort key_le ks).
Proof.
  intros Hnd. pose proof (StronglySorted_merge_sort key_le ks) as Hs.
  rewrite <- (merge_sort_Permutation key_le ks) in Hnd.
  induction Hs as [|k l Hs IH Hk]; [constructor|]. apply NoDup_cons in Hnd as [Hn Hnd].
  constructor; [auto|]. rewrite Forall_forall in *. intros k' Hk'. specialize (Hk k' Hk').
  unfold key_le in Hk. destruct (Z.eq_dec (bytes_Compare k k') 0) as [He|]; [|lia].
  by apply (cmp_eq (f := bytes_Compare)) in He as ->.
Qed.

Lemma abs_pair_Some lb ub s log k p :
  abs_pair lb ub s log k = Some p <->
  exists v, p = (k, v) /\ key_le lb k /\ past_bound ub k = false /\ abs_read k s log = Some v.
Proof.
  unfold abs_pair. case_decide as Hd.
  - destruct (abs_read k s log) as [v|]; simpl; naive_solver.
  - naive_solver.
Qed.

Lemma abs_read_key k s log v : abs_read k s log = Some v -> k ∈ log.*1.
Proof.
  induction log as [|[k' v'] log IH]; simpl; [done|]. unfold bytes_Equal.
  case_bool_decide as Hk; rewrite ?andb_false_r.
  - subst. intros _. apply list_elem_of_here.
  - intros Hr. by apply list_elem_of_further, IH.
Qed.

Lemma abs_scan_spec lb ub s log :
  StronglySorted klt (abs_scan lb ub s log)
  /\ forall k v, (k, v) ∈ abs_scan lb ub s log <->
       bytes_Compare lb k <= 0 /\ past_bound ub k = false /\ abs_read k s log = Some v.
Proof.
  unfold abs_scan. pose proof (merge_sort_keys _ (NoDup_remove_dups log.*1)) as Hs. split.
  - induction Hs as [|k l Hs IH Hk]; simpl; [constructor|].
    destruct (abs_pair lb ub s log k) as [p|] eqn:E; [|done].
    constructor; [done|]. apply Forall_forall. intros q (k' & Hk' & Hq)%list_elem_of_omap.
    apply abs_pair_Some in E as (v & -> & _). apply abs_pair_Some in Hq as (v' & -> & _).
    rewrite Forall_forall in Hk. unfold klt. simpl. auto.
  - intros k v. rewrite list_elem_of_omap. split.
    + intros (k' & _ & (v' & [= -> ->] & ?)%abs_pair_Some). done.
    + intros (Hlb & Hub & Hr). exists k. split; [|apply abs_pair_Some; eauto].
      rewrite (merge_sort_Permutation key_le). apply elem_of_remove_dups. by eapply abs_read_key.
Qed.

(** The records these writes stand for. *)
Definition write_rec (seq : Z) (wr : write) : kv :=
  match wr.2 with
  | Some v => new_rec wr.1 seq InternalKeyKindSet v
  | None => new_rec wr.1 seq InternalKeyKindDelete []
  end.

Fixpoint hist_of (log : list write) : list kv :=
  match log with [] => [] | wr :: log' => write_rec (blen log) wr :: hist_of log' end.

Definition write_ok (wr : write) : Prop :=
  blen wr.1 <= MAX_KEY_LENGTH /\ blen (default [] wr.2) <= MAX_VALUE_LENGTH.

Lemma write_rec_facts seq wr :
  0 <= seq <= SeqNumMax -> write_ok wr ->
  wf_kv (write_rec seq wr) /\ uk (write_rec seq wr) = wr.1 /\ seqn (write_rec seq wr) = seq
  /\ read_result (Some (write_rec seq wr)) = wr.2.
Proof.
  intros Hs [Hk Hv]. destruct wr as [k [v|]]; simpl in Hk, Hv; unfold write_rec; cbn [fst snd].
  - destruct (new_rec_facts k seq InternalKeyKindSet v Hs) as (Hw & Hu & Hn & Hkd & _); [done..|].
    unfold read_result. by rewrite Hkd.
  - destruct (new_rec_facts k seq InternalKeyKindDelete [] Hs) as (Hw & Hu & Hn & Hkd & _); [done..|].
    unfold read_result. by rewrite Hkd.
Qed.

Lemma hist_of_bound log e :
  Forall write_ok log -> blen log <= SeqNumMax -> e ∈ hist_of log -> seqn e <= blen log.
Proof.
  induction 1 as [|wr log Hw _ IH]; intros Hl He; [by apply elem_of_nil in He|].
  rewrite blen_cons in *. pose proof (blen_nonneg log). cbn [hist_of] in He.
  apply elem_of_cons in He as [->|He]; [|specialize (IH ltac:(lia) He); lia].
  rewrite blen_cons. destruct (write_rec_facts (1 + blen log) wr) as (_ & _ & -> & _); [lia|done|lia].
Qed.

(** Reading the records is reading the writes. *)
Lemma hist_of_read k s log :
  Forall write_ok log -> blen log <= SeqNumMax ->
  read_result (newest k s (hist_of log)) = abs_read k s log.
Proof.
  induction 1 as [|wr log Hw Hws IH]; intros Hl; [done|]. cbn [hist_of abs_read].
  destruct wr as [k' v]. assert (Hl' := Hl). rewrite blen_cons in Hl'. pose proof (blen_nonneg log).
  destruct (write_rec_facts (blen ((k', v) :: log)) (k', v)) as (Hwf & Hu & Hn & Hres);
    [rewrite blen_cons; lia|done|]. set (e := write_rec _ _) in *. cbn [fst snd] in *.
  assert (Hv : visible_in k s e = (blen ((k', v) :: log) <=? s) && bytes_Equal k' k).
  { unfold visible_in. rewrite Hu, andb_comm. f_equal. unfold Visible. fold (seqn e). by rewrite Hn. }
  rewrite <- Hv. destruct (visible_in k s e) eqn:E.
  - rewrite newest_cons_hit; [done|done|]. intros a b ->%list_elem_of_singleton Hb _.
    pose proof (hist_of_bound log b Hws ltac:(lia) Hb).
    assert (trl b < trl e); [apply seqn_lt_trl|lia]. rewrite Hn, blen_cons. lia.
  - rewrite newest_cons_skip by done. apply IH. lia.
Qed.

(** ** The relation *)

Section refine.
Context `{BT : BTree kv Item_Less} {BL : BTreeLaws kv Item_Less}.
Context {C : Type} `{CL : CacherLaws (list kv) C}.
Implicit Types (db : DB C) (w : World).

(** The records in the memtable and in the tables, level by level. *)
Definition levels db w : list (list kv) :=
  mt_items (db_mem db) :: (table_recs (w_fs w) <$> db_tables db).

Definition stored db w : list kv := concat (levels db w).

(** Snapshots whose reads the database answers from the full history: the present and the
    pinned ones. *)
Definition pinned db (s : Z) : Prop := is_Some (active (db_wm db) !! s).
Definition readable db (s : Z) : Prop := (db_seq db <= s <= SeqNumMax) \/ pinned db s.

(** The history, newest first: [es], oldest first, is in the log and in the memtable, and the
    tables answer for the rest. *)
Record logged (hist es old : list kv) db w : Prop := {
  lg_hist : hist = reverse es ++ old;
  lg_wal : wal_inv (db_wal db) es;
  lg_entries : Forall entry_ok es;
  lg_mem e : e ∈ es <-> e ∈ mt_items (db_mem db);
  lg_tables e : e ∈ all_recs (w_fs w) (db_tables db) -> e ∈ old;
  lg_reads k s : readable db s ->
    newest k s (all_recs (w_fs w) (db_tables db)) = newest k s old
}.

(** What holds of a database whatever its compactions have merged: the tables agree with
    their files and the cache with the tables, no internal key is stored twice, and every
    stored record is one of the history. *)
Record db_shape (hist : list kv) db w : Prop := {
  ds_truth : exists truth,
    store_ok (SSTDir (db_conf db)) (w_fs w) truth (w_now w) (db_tables db)
    /\ cache_true truth (db_cache db);
  ds_mem : mt_ok (db_mem db);
  ds_mem_small : Forall kv_small (mt_items (db_mem db));
  ds_nodup : keys_nodup (stored db w);
  ds_seq : 0 <= db_seq db <= SeqNumMax;
  ds_bound e : e ∈ stored db w -> seqn e <= db_seq db;
  ds_pins s : pinned db s -> 0 <= s <= db_seq db;
  ds_log : exists es old, hist = reverse es ++ old /\ wal_inv (db_wal db) es /\ Forall entry_ok es
    /\ (forall e, e ∈ es <-> e ∈ mt_items (db_mem db))
    /\ forall e, e ∈ all_recs (w_fs w) (db_tables db) -> e ∈ old
}.

(** The invariant of a database whose compactions have merged neighbours: a newer level has
    the newer versions, and every readable snapshot is answered as the history answers it. *)
Record db_inv (hist : list kv) db w : Prop := {
  di_truth : exists truth,
    store_ok (SSTDir (db_conf db)) (w_fs w) truth (w_now w) (db_tables db)
    /\ cache_true truth (db_cache db);
  di_mem : mt_ok (db_mem db);
  di_mem_small : Forall kv_small (mt_items (db_mem db));
  di_recency : by_recency (levels db w);
  di_nodup : keys_nodup (stored db w);
  di_seq : 0 <= db_seq db <= SeqNumMax;
  di_bound e : e ∈ stored db w -> seqn e <= db_seq db;
  di_pins s : pinned db s -> 0 <= s <= db_seq db;
  di_log : exists es old, logged hist es old db w
}.

Lemma db_inv_shape hist db w : db_inv hist db w -> db_shape hist db w.
Proof.
  intros [? ? ? ? ? ? ? ? (es & old & [? ? ? ? ? ?])]. split; try done. by exists es, old.
Qed.

Coercion db_inv_shape : db_inv >-> db_shape.

Lemma shape_inv hist db w :
  db_shape hist db w -> by_recency (levels db w) -> (exists es old, logged hist es old db w) ->
  db_inv hist db w.
Proof. intros [? ? ? ? ? ? ? ?] ? ?. by split. Qed.

Lemma stored_split db w : stored db w = mt_items (db_mem db) ++ all_recs (w_fs w) (db_tables db).
Proof. done. Qed.

(** The database answers as its history does. *)
Lemma db_reads hist db w k s :
  db_inv hist db w -> readable db s -> newest k s (stored db w) = newest k s hist.
Proof.
  intros Hinv Hs. destruct (di_log _ _ _ Hinv) as (es & old & [-> _ _ Hm _ Hr]).
  destruct (di_mem _ _ _ Hinv) as [Hb Hwf]. rewrite stored_split, !newest_app, Hr by done.
  replace (newest k s (reverse es)) with (newest k s (mt_items (db_mem db))); [done|].
  apply newest_perm; [done|by apply mt_items_coherent|]. intros e. by rewrite elem_of_reverse, Hm.
Qed.

(** Every stored record was written. *)
Lemma stored_hist hist db w e : db_shape hist db w -> e ∈ stored db w -> e ∈ hist.
Proof.
  intros Hinv. destruct (ds_log _ _ _ Hinv) as (es & old & -> & _ & _ & Hm & Ht).
  rewrite stored_split, !elem_of_app, elem_of_reverse, Hm. intros [?|He]; [by left|right; auto].
Qed.

(** ** Reads *)

Lemma searchSSTables_spec fs truth tables k s :
  Forall (good fs truth) tables -> 0 <= s <= SeqNumMax ->
  cspec truth (searchSSTables (C := C) fs tables k s)
    (fun r => r = read_result (search_levels k s (table_recs fs <$> tables))).
Proof.
  intros Hg Hs. induction Hg as [|sst tables (blocks & Ht & _) _ IH]; intros c Hc; [by exists None, c|].
  destruct (Lookup_spec fs truth sst blocks k s Ht Hs c Hc) as (r & c1 & Hl & Hc1 & ->).
  cbn [searchSSTables]. rewrite Hl. cbn [fmap list_fmap search_levels].
  rewrite (table_recs_ok _ _ _ _ Ht). destruct (newest k s (concat blocks)) as [e|]; simpl; [|by apply IH].
  destruct (Kind (ik e) =? InternalKeyKindDelete); by eexists _, c1.
Qed.

Lemma readable_range hist db w s : db_shape hist db w -> readable db s -> 0 <= s <= SeqNumMax.
Proof.
  intros Hinv [Hs|Hp]; pose proof (ds_seq _ _ _ Hinv); [lia|].
  pose proof (ds_pins _ _ _ Hinv s Hp). lia.
Qed.

(** The cache may hold anything true. *)
Lemma db_shape_cache hist db w truth c :
  db_shape hist db w -> store_ok (SSTDir (db_conf db)) (w_fs w) truth (w_now w) (db_tables db) ->
  cache_true truth c -> db_shape hist (set_cache db c) w.
Proof. intros [? ? ? ? ? ? ? ?] Hst Hc. split; try done. by exists truth. Qed.

Lemma db_inv_cache hist db w truth c :
  db_inv hist db w -> store_ok (SSTDir (db_conf db)) (w_fs w) truth (w_now w) (db_tables db) ->
  cache_true truth c -> db_inv hist (set_cache db c) w.
Proof.
  intros [? ? ? ? ? ? ? ? (es & old & [? ? ? ? ? ?])] Hst Hc. split; try done; [by exists truth|].
  exists es, old. by split.
Qed.

(** A read searches the levels in order; ordered by recency they answer with the newest
    version. *)
Lemma GetAt_search truth db w k s :
  mt_ok (db_mem db) -> Forall (good (w_fs w) truth) (db_tables db) -> cache_true truth (db_cache db) ->
  0 <= s <= SeqNumMax ->
  exists c', GetAt db w k s = (set_cache db c', Ok (read_result (search_levels k s (levels db w)))) /\ cache_true truth c'.
Proof.
  intros Hm Hg Hc Hs. unfold GetAt. rewrite mt_Get_newest by done. unfold levels. cbn [search_levels].
  destruct (newest k s (mt_items (db_mem db))) as [e|]; simpl.
  - exists (db_cache db). assert (set_cache db (db_cache db) = db) as -> by (by destruct db).
    split; [|done]. by destruct (Kind (ik e) =? InternalKeyKindDelete).
  - destruct (searchSSTables_spec (w_fs w) truth (db_tables db) k s Hg Hs (db_cache db) Hc) as (r & c' & Hsr & Hc' & ->).
    rewrite Hsr. by exists c'.
Qed.

Lemma GetAt_levels truth db w k s :
  mt_ok (db_mem db) -> Forall (good (w_fs w) truth) (db_tables db) -> cache_true truth (db_cache db) ->
  by_recency (levels db w) -> 0 <= s <= SeqNumMax ->
  exists c', GetAt db w k s = (set_cache db c', Ok (read_result (newest k s (stored db w)))) /\ cache_true truth c'.
Proof.
  intros Hm Hg Hc Hrec Hs. unfold stored. rewrite <- search_levels_newest by done. by apply GetAt_search.
Qed.

Lemma GetAt_ok hist db w k s :
  db_inv hist db w -> readable db s ->
  exists c', GetAt db w k s = (set_cache db c', Ok (read_result (newest k s hist)))
    /\ db_inv hist (set_cache db c') w.
Proof.
  intros Hinv Hr. pose proof (readable_range _ _ _ _ Hinv Hr) as Hs.
  pose proof Hinv as [(truth & Hst & Hc) Hm ? Hrec ? ? ? ? ?].
  rewrite <- (db_reads hist db w k s Hinv Hr).
  destruct (GetAt_levels truth db w k s Hm (so_good _ _ _ _ _ Hst) Hc Hrec Hs) as (c' & -> & Hc').
  exists c'. split; [done|]. by apply (db_inv_cache hist db w truth).
Qed.

(** ** Writes *)

(** The database before the flush check of [Put] and [Delete]. *)
Definition write_state db (key value : bytes) (kind : Z) : DB C :=
  let e := new_rec key (db_seq db + 1) kind value in
  mkDB (wal_write (db_wal db) (Key e) value).1 (mt_insert (db_mem db) (Key e) value) (db_tables db)
    (db_conf db) (db_cache db) (db_seq db + 1) (db_wm db).

(** A record with the next sequence number is newer than all that is stored. *)
Lemma next_newer hist db w e x :
  db_shape hist db w -> seqn e = db_seq db + 1 -> x ∈ stored db w -> Key x <> Key e /\ trl x < trl e.
Proof.
  intros Hinv Hn Hx. pose proof (ds_bound _ _ _ Hinv x Hx). split; [|apply seqn_lt_trl; lia].
  intros Hxe. assert (seqn x = seqn e) by (unfold seqn, ik; by rewrite Hxe). lia.
Qed.

Lemma write_levels hist db w e :
  db_shape hist db w -> wf_kv e -> seqn e = db_seq db + 1 ->
  let m := mt_insert (db_mem db) (Key e) (Value e) in
  mt_ok m /\ (forall y, y ∈ mt_items m <-> y = e \/ y ∈ mt_items (db_mem db))
  /\ (by_recency (levels db w) -> by_recency (mt_items m :: (table_recs (w_fs w) <$> db_tables db)))
  /\ keys_nodup (mt_items m ++ all_recs (w_fs w) (db_tables db)).
Proof.
  intros Hinv Hwf Hn m. pose proof Hinv as [_ Hm _ Hnd _ _ _ _].
  assert (He : mkKV (Key e) (Value e) = e) by (by destruct e).
  assert (Hnew := fun x => next_newer hist db w e x Hinv Hn). rewrite stored_split in Hnew, Hnd.
  assert (Hitems : forall y, y ∈ mt_items m <-> y = e \/ y ∈ mt_items (db_mem db)).
  { intros y. unfold m. rewrite mt_insert_items; rewrite ?He; [apply elem_of_cons|done..|].
    intros x Hx. apply Hnew, elem_of_app. by left. }
  assert (Hok : mt_ok m) by (apply mt_insert_ok; by rewrite ?He).
  split; [done|]. split; [done|]. split.
  - intros Hrec. inversion_clear Hrec as [|? ? Hnt Hr]. constructor; [|done].
    rewrite newer_than_concat in Hnt |- *. intros a b [->|Ha]%Hitems Hbb Hu; [|by apply Hnt].
    assert (trl b < trl e); [|lia]. apply Hnew, elem_of_app. by right.
  - apply keys_nodup_app in Hnd as (_ & Hd & Hn2). apply keys_nodup_app.
    split; [apply elt_nodup, mt_items_elt, Hok|]. split; [|done].
    intros a b [->|Ha]%Hitems Hbb; [|by apply Hd]. intros Heq.
    destruct (Hnew b) as [Hne _]; [apply elem_of_app; by right|by symmetry in Heq].
Qed.

(** The log after a write. *)
Lemma write_logged hist es old db w e m' wal' :
  logged hist es old db w -> entry_ok e -> wal_inv wal' (es ++ [e]) ->
  (forall y, y ∈ mt_items m' <-> y = e \/ y ∈ mt_items (db_mem db)) ->
  logged (e :: hist) (es ++ [e]) old
    (mkDB wal' m' (db_tables db) (db_conf db) (db_cache db) (db_seq db + 1) (db_wm db)) w.
Proof.
  intros [-> Hw Hes Hin Ht Hr] He Hw' Hm. split; try done.
  - by rewrite reverse_snoc.
  - apply Forall_app. split; [done|]. by constructor.
  - intros y. cbn [db_mem]. rewrite elem_of_app, list_elem_of_singleton, Hm, Hin. tauto.
  - intros k s Hs. apply Hr. destruct Hs as [Hs|Hs]; [left; simpl in Hs; lia|by right].
Qed.

(** What a write does to the log, with the shape and with the invariant. *)
Lemma write_state_shape hist db w key value kind :
  db_shape hist db w -> db_seq db < SeqNumMax -> 0 <= kind <= 1 ->
  blen key <= MAX_KEY_LENGTH -> blen value <= MAX_VALUE_LENGTH ->
  (wal_write (db_wal db) (encodeIK (MakeInternalKey key (db_seq db + 1) kind)) value).2 = None
  /\ db_shape (new_rec key (db_seq db + 1) kind value :: hist) (write_state db key value kind) w.
Proof.
  intros Hinv Hsq Hk Hkl Hvl. pose proof (ds_seq _ _ _ Hinv) as Hseq.
  destruct (new_rec_facts key (db_seq db + 1) kind value ltac:(lia) Hk Hkl Hvl)
    as (Hwf & Huk & Hsn & _ & Hsm & Heo).
  unfold write_state. set (e := new_rec key (db_seq db + 1) kind value) in *.
  change (encodeIK (MakeInternalKey key (db_seq db + 1) kind)) with (Key e). cbv zeta.
  change value with (Value e).
  destruct (write_levels hist db w e Hinv Hwf Hsn) as (Hmok & Hitems & _ & Hnd).
  pose proof Hinv as [Htr _ Hms _ _ Hb Hp (es & old & -> & Hwal & Hes & Hin & Ht)].
  destruct (wal_write_inv (db_wal db) es (Key e) (Value e) Hwal) as (wal' & -> & Hw').
  assert (He : mkKV (Key e) (Value e) = e) by (by destruct e). rewrite He in Hw'.
  split; [done|]. cbn [fst].
  split; cbn [db_mem db_tables db_conf db_cache db_seq db_wm db_wal]; try done.
  - apply Forall_forall. intros y [->|Hy]%Hitems; [done|]. rewrite Forall_forall in Hms. auto.
  - lia.
  - intros y. rewrite stored_split. cbn [db_mem db_tables]. rewrite elem_of_app, Hitems.
    intros Hy. destruct (decide (y = e)) as [->|Hne]; [lia|].
    assert (seqn y <= db_seq db); [|lia]. apply Hb. rewrite stored_split. apply elem_of_app. tauto.
  - intros s Hs. specialize (Hp s Hs). lia.
  - exists (es ++ [e]), old. split; [by rewrite reverse_snoc|]. split; [done|]. split; [|split; [|done]].
    + apply Forall_app. split; [done|]. by constructor.
    + intros y. rewrite elem_of_app, list_elem_of_singleton, Hitems, Hin. tauto.
Qed.

Lemma write_state_ok hist db w key value kind :
  db_inv hist db w -> db_seq db < SeqNumMax -> 0 <= kind <= 1 ->
  blen key <= MAX_KEY_LENGTH -> blen value <= MAX_VALUE_LENGTH ->
  (wal_write (db_wal db) (encodeIK (MakeInternalKey key (db_seq db + 1) kind)) value).2 = None
  /\ db_inv (new_rec key (db_seq db + 1) kind value :: hist) (write_state db key value kind) w.
Proof.
  intros Hinv Hsq Hk Hkl Hvl. destruct (write_state_shape hist db w key value kind Hinv Hsq Hk Hkl Hvl) as [Hw Hsh].
  split; [done|]. pose proof (di_seq _ _ _ Hinv) as Hseq.
  destruct (new_rec_facts key (db_seq db + 1) kind value ltac:(lia) Hk Hkl Hvl) as (Hwf & Huk & Hsn & _ & _ & Heo).
  destruct (write_levels hist db w _ Hinv Hwf Hsn) as (_ & Hitems & Hrec & _).
  pose proof Hinv as [_ _ _ Hr _ _ _ _ (es & old & Hlog)].
  apply shape_inv; [done|by apply Hrec|]. exists (es ++ [new_rec key (db_seq db + 1) kind value]), old.
  apply (write_logged hist es old db w); [done|done| |done].
  by destruct (wal_write_inv (db_wal db) es (Key (new_rec key (db_seq db + 1) kind value)) value (lg_wal _ _ _ _ _ Hlog)) as (wal' & -> & Hw').
Qed.

(** ** Flushing *)

Lemma store_ok_ext dir fs truth now (tables tables' : list SSTable) :
  FilePath <$> tables' = FilePath <$> tables -> table_recs fs <$> tables' = table_recs fs <$> tables ->
  Forall (good fs truth) tables' -> store_ok dir fs truth now tables ->
  store_ok dir fs truth now tables'.
Proof.
  intros Hp Hr Hg [? _ ? ? ? Hin]. unfold all_recs in *.
  split; [done|done|by rewrite Hp|unfold all_recs; by rewrite Hr..|].
  rewrite Forall_forall in Hin |- *. intros s Hs%(list_elem_of_fmap_2 FilePath). rewrite Hp in Hs.
  apply list_elem_of_fmap in Hs as (s' & -> & Hs'). auto.
Qed.

Lemma SetCache_paths (tables : list SSTable) : FilePath <$> (SetCache <$> tables) = FilePath <$> tables.
Proof. rewrite <- list_fmap_compose. by apply list_fmap_ext. Qed.

Lemma SetCache_recs fs (tables : list SSTable) : table_recs fs <$> (SetCache <$> tables) = table_recs fs <$> tables.
Proof. rewrite <- list_fmap_compose. apply list_fmap_ext. intros. apply table_recs_SetCache. Qed.

Lemma store_ok_SetCache dir fs truth now (tables : list SSTable) :
  store_ok dir fs truth now tables -> store_ok dir fs truth now (SetCache <$> tables).
Proof.
  intros Hst. apply (store_ok_ext dir fs truth now tables); [apply SetCache_paths|apply SetCache_recs| |done].
  apply Forall_fmap. eapply Forall_impl; [apply Hst|]. intros s Hs. by apply good_SetCache.
Qed.

Lemma resetWAL_inv (wal : WAL os_File) es : wal_inv wal es -> wal_inv (resetWAL wal) [].
Proof.
  intros (_ & _ & Hc & _). split; [done|]. split; [|split; [done|simpl; lia]].
  split; [done|]. unfold blen, bufio_size. simpl. lia.
Qed.

Lemma mt_items_New : mt_items NewMemTable = [].
Proof. unfold mt_items. simpl. apply items_New. Qed.

(** A merge with the database's floor preserves every readable snapshot. *)
Lemma readable_protected hist db w k s (l : list kv) :
  db_shape hist db w -> readable db s -> (forall e, e ∈ l -> e ∈ stored db w) ->
  protected (Floor (db_wm db)) s k l.
Proof.
  intros Hinv Hs Hsub e He _ Hlt. pose proof (ds_bound _ _ _ Hinv e (Hsub e He)).
  destruct Hs as [Hs|Hs]; [lia|]. destruct (Floor_spec (db_wm db)) as (Hf & _). specialize (Hf s Hs). lia.
Qed.

Section flush.
Context {W : Type} `{WL : WriterLaws W}.
Context (bloom0 : BloomFilter) (newFile : bytes -> W) (tick : Z -> Z).
Context (bloom0_ok : bloom_ok bloom0) (newFile_empty : forall p, on_file (newFile p) = [])
  (tick_later : forall t, t < tick t).

Definition flush_in_order db w : Prop :=
  forall fs' sst,
    Flush bloom0 (w_fs w) (tick (w_now w)) newFile (db_mem db) (SSTDir (db_conf db)) = (fs', Ok sst) ->
    DEFAULT_COMPACTION_THRESHOLD <= blen (SetCache sst :: db_tables db) ->
    concat (groupBySimilarSize fs' (SetCache sst :: db_tables db)) = SetCache sst :: db_tables db.

(** Where the files of the tables after a flush come from: the new one, and the results of
    the compaction. *)
Definition flush_paths db w (tables' : list SSTable) (now' : Z) : Prop :=
  let dir := SSTDir (db_conf db) in
  let now := tick (w_now w) in
  exists fs1 sst, Flush bloom0 (w_fs w) now newFile (db_mem db) dir = (fs1, Ok sst)
    /\ FilePath sst = sst_path dir now /\ now <= now'
    /\ let tables := SetCache sst :: db_tables db in
       (blen tables < DEFAULT_COMPACTION_THRESHOLD -> FilePath <$> tables' = FilePath <$> tables)
       /\ (DEFAULT_COMPACTION_THRESHOLD <= blen tables ->
           exists fs2 tss, FilePath <$> tables' = FilePath <$> concat tss
             /\ Forall2 (group_result dir fs1 fs2 now (Floor (db_wm db))) (groupBySimilarSize fs1 tables) tss).

(** The directory holds the files of the tables and nothing else, as it does until the disk
    reports an error. *)
Definition clean db w : Prop := only_tables (SSTDir (db_conf db)) (w_fs w) (db_tables db).

(** Writing the memtable out gives a table in front of the others: on any disk, when it
    succeeds, and on a working one it does. *)
Lemma flush_push_at hist db w truth fs1 sst :
  db_shape hist db w -> store_ok (SSTDir (db_conf db)) (w_fs w) truth (w_now w) (db_tables db) ->
  Flush bloom0 (w_fs w) (tick (w_now w)) newFile (db_mem db) (SSTDir (db_conf db)) = (fs1, Ok sst) ->
  exists truth1,
    truth ⊆ truth1 /\ FilePath sst = sst_path (SSTDir (db_conf db)) (tick (w_now w))
    /\ store_ok (SSTDir (db_conf db)) fs1 truth1 (tick (w_now w)) (SetCache sst :: db_tables db)
    /\ (clean db w -> only_tables (SSTDir (db_conf db)) fs1 (SetCache sst :: db_tables db))
    /\ table_recs fs1 <$> SetCache sst :: db_tables db = levels db w.
Proof.
  intros Hinv Hst. pose proof Hinv as [_ [Ht Hwf] Hms Hnd _ _ _ _]. rewrite Flush_eq by done.
  set (dir := SSTDir (db_conf db)) in *. intros Hwr.
  destruct (store_push_at bloom0 newFile dir _ truth _ (tick (w_now w)) _ (mt_items (db_mem db)) fs1 sst
    bloom0_ok newFile_empty Hst (tick_later _) (mt_items_elt _ Ht) Hwf Hms Hnd Hwr)
    as (truth1 & Hsub1 & Hpath & Hst1 & Honly & Hrecs1).
  exists truth1. do 2 (split; [done|]). split; [|split; [exact Honly|]].
  - apply (store_ok_ext dir fs1 truth1 _ (sst :: db_tables db)); [done| | |done].
    + by rewrite !fmap_cons, table_recs_SetCache.
    + pose proof (so_good _ _ _ _ _ Hst1) as Hg. apply Forall_cons_1 in Hg as [Hg1 Hg].
      constructor; [by apply good_SetCache|done].
  - unfold levels. rewrite fmap_cons, table_recs_SetCache. by rewrite <- Hrecs1.
Qed.

Lemma flush_push {HR : Reliable W} hist db w truth :
  db_shape hist db w -> store_ok (SSTDir (db_conf db)) (w_fs w) truth (w_now w) (db_tables db) ->
  exists fs1 sst truth1,
    Flush bloom0 (w_fs w) (tick (w_now w)) newFile (db_mem db) (SSTDir (db_conf db)) = (fs1, Ok sst)
    /\ truth ⊆ truth1 /\ FilePath sst = sst_path (SSTDir (db_conf db)) (tick (w_now w))
    /\ store_ok (SSTDir (db_conf db)) fs1 truth1 (tick (w_now w)) (SetCache sst :: db_tables db)
    /\ (clean db w -> only_tables (SSTDir (db_conf db)) fs1 (SetCache sst :: db_tables db))
    /\ table_recs fs1 <$> SetCache sst :: db_tables db = levels db w.
Proof.
  intros Hinv Hst. pose proof Hinv as [_ [Ht Hwf] Hms Hnd _ _ _ _].
  destruct (store_push bloom0 newFile (SSTDir (db_conf db)) _ truth _ (tick (w_now w)) _ (mt_items (db_mem db))
    bloom0_ok newFile_empty Hst (tick_later _) (mt_items_elt _ Ht) Hwf Hms Hnd) as (fs1 & sst & _ & Hwr & _).
  rewrite <- (Flush_eq bloom0 (w_fs w) (tick (w_now w)) newFile) in Hwr by done. exists fs1, sst.
  destruct (flush_push_at hist db w truth fs1 sst Hinv Hst Hwr) as (truth1 & Hpost). by exists truth1.
Qed.

(** The tables after a flush that succeeds, on any disk. *)
Lemma flush_tables_shape hist db w truth db' w' :
  db_shape hist db w ->
  store_ok (SSTDir (db_conf db)) (w_fs w) truth (w_now w) (db_tables db) ->
  flushMemtableLocked bloom0 newFile tick db w = (db', w', Ok tt) ->
  exists truth' tables',
    db' = mkDB (resetWAL (db_wal db)) NewMemTable tables' (db_conf db) (db_cache db) (db_seq db) (db_wm db)
    /\ truth ⊆ truth' /\ store_ok (SSTDir (db_conf db)) (w_fs w') truth' (w_now w') tables'
    /\ (clean db w -> clean db' w')
    /\ (forall e, e ∈ all_recs (w_fs w') tables' -> e ∈ stored db w)
    /\ flush_paths db w tables' (w_now w')
    /\ (by_recency (levels db w) ->
        (forall k s, readable db s -> newest k s (all_recs (w_fs w') tables') = newest k s (stored db w))
        /\ (flush_in_order db w -> by_recency (table_recs (w_fs w') <$> tables'))).
Proof.
  intros Hinv Hst. unfold flush_in_order, flushMemtableLocked, flush_paths.
  destruct (Flush _ _ _ _ _ _) as [fs1 [sst|e|]] eqn:Hwr; [|done..].
  destruct (flush_push_at hist db w truth fs1 sst Hinv Hst Hwr) as (truth1 & Hsub1 & Hpath & Hst1' & Honly1 & Hr1).
  set (dir := SSTDir (db_conf db)) in *.
  set (tables1 := SetCache sst :: db_tables db) in *. cbv zeta. cbn [db_wm db_mem db_wal db_conf db_cache db_seq].
  destruct (Compact _ _ _ _ _ _ _ _) as [[fs2 now2] [res|e|]] eqn:Hcomp; [|done..]. intros [= <- <-].
  destruct (Compact_at bloom0 newFile tick dir bloom0_ok newFile_empty tick_later fs1 truth1
    (tick (w_now w)) tables1 (Floor (db_wm db)) fs2 now2 res Hst1' Hcomp) as
    (truth2 & Hle2 & Hsub2 & Hst2 & Honly2 & Hin2 & Hread2 & Hrec2 & Hfew & Hmany).
  assert (Hall1 : all_recs fs1 tables1 = stored db w) by (unfold all_recs; by rewrite Hr1).
  rewrite Hall1, Hr1 in *. exists truth2, (SetCache <$> res). unfold clean. cbn [w_fs w_now db_conf db_tables].
  unfold all_recs, only_tables. rewrite SetCache_recs, SetCache_paths. split; [done|]. split; [by etrans|].
  split; [by apply store_ok_SetCache|]. split; [intros Hcl; by apply Honly2, Honly1|]. split; [done|]. split.
  - exists fs1, sst. split; [done|]. split; [done|]. split; [done|]. fold tables1.
    split; [intros Hlt; by rewrite Hfew|]. intros Hge. destruct (Hmany Hge) as (_ & fs3 & tss & -> & Hres).
    by exists fs3, tss.
  - intros Hrec. split; [intros k s Hs; apply Hread2; [done|by eapply readable_protected]|].
    intros Hord. apply Hrec2; [done|]. by apply Hord.
Qed.

Lemma flush_tables_at hist db w truth db' w' :
  db_inv hist db w -> flush_in_order db w ->
  store_ok (SSTDir (db_conf db)) (w_fs w) truth (w_now w) (db_tables db) ->
  flushMemtableLocked bloom0 newFile tick db w = (db', w', Ok tt) ->
  exists truth' tables',
    db' = mkDB (resetWAL (db_wal db)) NewMemTable tables' (db_conf db) (db_cache db) (db_seq db) (db_wm db)
    /\ truth ⊆ truth' /\ store_ok (SSTDir (db_conf db)) (w_fs w') truth' (w_now w') tables'
    /\ by_recency (table_recs (w_fs w') <$> tables')
    /\ (forall e, e ∈ all_recs (w_fs w') tables' -> e ∈ stored db w)
    /\ (forall k s, readable db s -> newest k s (all_recs (w_fs w') tables') = newest k s (stored db w))
    /\ flush_paths db w tables' (w_now w').
Proof.
  intros Hinv Hord Hst Hf.
  destruct (flush_tables_shape hist db w truth db' w' Hinv Hst Hf)
    as (truth' & tables' & Hdb & Hsub & Hst' & _ & Hin & Hpaths & Hreads).
  destruct (Hreads (di_recency _ _ _ Hinv)) as [Hread Hrec]. exists truth', tables'.
  split_and!; auto.
Qed.

(** On a working disk a flush succeeds. *)
Lemma flush_succeeds {HR : Reliable W} hist db w :
  db_shape hist db w -> exists db' w', flushMemtableLocked bloom0 newFile tick db w = (db', w', Ok tt).
Proof.
  intros Hinv. destruct (ds_truth _ _ _ Hinv) as (truth & Hst & _).
  destruct (flush_push hist db w truth Hinv Hst) as (fs1 & sst & truth1 & Hwr & _ & _ & Hst1 & _).
  unfold flushMemtableLocked. rewrite Hwr. cbv zeta. cbn [db_wm].
  pose proof (Compact_outcome bloom0 newFile tick _ bloom0_ok newFile_empty tick_later _ _ _ _ (Floor (db_wm db)) Hst1) as Ho.
  destruct (Compact _ _ _ _ _ _ _ _) as [[fs2 now2] [res|e|]]; [eauto|by destruct Ho as [[] _]|done].
Qed.

Lemma cache_true_mono (truth truth' : gmap bytes (list kv)) (c : C) :
  truth ⊆ truth' -> cache_true truth c -> cache_true truth' c.
Proof. intros Hsub [Hc Ht]. split; [done|]. intros k v Hv. eapply lookup_weaken; [|done]. auto. Qed.

(** The shape after a flush that succeeds, and the invariant when it was in order. *)
Lemma flush_shape hist db w db' w' :
  db_shape hist db w -> flushMemtableLocked bloom0 newFile tick db w = (db', w', Ok tt) ->
  db_shape hist db' w' /\ db_seq db' = db_seq db /\ db_wm db' = db_wm db /\ (clean db w -> clean db' w').
Proof.
  intros Hinv Hf. pose proof Hinv as [(truth & Hst & Hc) _ _ _ Hsq Hb Hp (es & old & _ & Hwal & _)].
  destruct (flush_tables_shape hist db w truth db' w' Hinv Hst Hf)
    as (truth' & tables' & -> & Hsub & Hst' & Hclean & Hin & _ & _).
  split; [|done].
  split; rewrite ?stored_split; unfold levels;
    cbn [db_mem db_tables db_conf db_cache db_seq db_wm db_wal];
    rewrite ?mt_items_New; try done.
  - exists truth'. split; [done|]. by eapply cache_true_mono.
  - apply NewMemTable_ok.
  - apply Hst'.
  - intros e He. apply Hb. by apply Hin.
  - exists [], hist. split; [done|]. split; [by eapply resetWAL_inv|]. split; [done|]. split; [done|].
    intros e He. apply (stored_hist hist db w e Hinv). by apply Hin.
Qed.

Lemma flush_at hist db w db' w' :
  db_inv hist db w -> flush_in_order db w -> flushMemtableLocked bloom0 newFile tick db w = (db', w', Ok tt) ->
  db_inv hist db' w' /\ db_seq db' = db_seq db /\ db_wm db' = db_wm db.
Proof.
  intros Hinv Hord Hf. destruct (flush_shape hist db w db' w' Hinv Hf) as (Hsh & Hs & Hwm & _).
  split; [|done]. pose proof Hinv as [(truth & Hst & _) _ _ _ _ _ _ _ (es & old & Hlog)].
  destruct (flush_tables_at hist db w truth db' w' Hinv Hord Hst Hf)
    as (truth' & tables' & -> & _ & _ & Hrec & Hin & Hread & _). apply shape_inv; [done|..].
  - unfold levels. cbn [db_mem db_tables]. rewrite mt_items_New. constructor; [|done].
    apply Forall_forall. intros l _ a b Ha. by apply elem_of_nil in Ha.
  - exists [], hist. split; cbn [db_mem db_tables db_wal]; try done.
    + eapply resetWAL_inv, Hlog.
    + by rewrite mt_items_New.
    + intros e He. apply (stored_hist hist db w e Hinv). by apply Hin.
    + intros k s Hs'. rewrite Hread by done. by apply db_reads.
Qed.

(** What a write needs when it leaves the memtable full. *)
Definition write_in_order db w : Prop :=
  DEFAULT_MEMTABLE_FLUSH_SIZE <= mt_Size (db_mem db) -> flush_in_order db w.

Lemma flushIfFull_at hist db w db' w' :
  db_inv hist db w -> write_in_order db w -> flushIfFullLocked bloom0 newFile tick db w = (db', w', Ok tt) ->
  db_inv hist db' w' /\ db_seq db' = db_seq db /\ db_wm db' = db_wm db.
Proof.
  intros Hinv Hord. unfold flushIfFullLocked. destruct (Z.ltb_spec (mt_Size (db_mem db)) DEFAULT_MEMTABLE_FLUSH_SIZE) as [Hlt|Hge].
  - by intros [= <- <-].
  - apply flush_at; auto.
Qed.

Lemma flushIfFull_shape hist db w db' w' :
  db_shape hist db w -> flushIfFullLocked bloom0 newFile tick db w = (db', w', Ok tt) ->
  db_shape hist db' w' /\ db_seq db' = db_seq db /\ db_wm db' = db_wm db /\ (clean db w -> clean db' w').
Proof.
  intros Hinv. unfold flushIfFullLocked. case_if; [by intros [= <- <-]|by apply flush_shape].
Qed.

Lemma flushIfFull_succeeds {HR : Reliable W} hist db w :
  db_shape hist db w -> exists db' w', flushIfFullLocked bloom0 newFile tick db w = (db', w', Ok tt).
Proof. intros Hinv. unfold flushIfFullLocked. case_if; [eauto|by eapply flush_succeeds]. Qed.

(** ** [Put] and [Delete] *)

(** A write is the insertion and the flush check. *)
Lemma Put_eq hist db w key value :
  db_shape hist db w -> db_seq db < SeqNumMax -> blen key <= MAX_KEY_LENGTH ->
  blen value <= MAX_VALUE_LENGTH ->
  Put bloom0 newFile tick db w key value
  = flushIfFullLocked bloom0 newFile tick (write_state db key value InternalKeyKindSet) w.
Proof.
  intros Hinv Hsq Hk Hv. pose proof (ds_seq _ _ _ Hinv) as Hr. rewrite SeqNumMax_val in *.
  destruct (write_state_shape hist db w key value InternalKeyKindSet Hinv) as [Hww _];
    [rewrite SeqNumMax_val; lia|unfold InternalKeyKindSet; lia|done..|].
  unfold Put. case_if; [lia|]. case_if; [lia|]. unfold encodeNextKey, wal_Put.
  rewrite uwrap_small by lia. cbn [db_wal]. unfold write_state. simpl.
  destruct (wal_write (db_wal db) _ value) as [wal' err]. simpl in Hww. by subst err.
Qed.

Lemma Delete_eq hist db w key :
  db_shape hist db w -> db_seq db < SeqNumMax -> blen key <= MAX_KEY_LENGTH ->
  Delete bloom0 newFile tick db w key
  = flushIfFullLocked bloom0 newFile tick (write_state db key [] InternalKeyKindDelete) w.
Proof.
  intros Hinv Hsq Hk. pose proof (ds_seq _ _ _ Hinv) as Hr. rewrite SeqNumMax_val in *.
  destruct (write_state_shape hist db w key [] InternalKeyKindDelete Hinv) as [Hww _];
    [rewrite SeqNumMax_val; lia|unfold InternalKeyKindDelete; lia|done|by vm_compute|].
  unfold Delete. case_if; [lia|]. unfold encodeNextKey, wal_Delete.
  rewrite uwrap_small by lia. cbn [db_wal]. unfold write_state. simpl.
  destruct (wal_write (db_wal db) _ []) as [wal' err]. simpl in Hww. by subst err.
Qed.

(** The state after the flush check of a write, on any disk. *)
Lemma write_at hist db w key value kind db' w' :
  db_inv hist db w -> db_seq db < SeqNumMax -> 0 <= kind <= 1 ->
  blen key <= MAX_KEY_LENGTH -> blen value <= MAX_VALUE_LENGTH ->
  write_in_order (write_state db key value kind) w ->
  flushIfFullLocked bloom0 newFile tick (write_state db key value kind) w = (db', w', Ok tt) ->
  db_inv (new_rec key (db_seq db + 1) kind value :: hist) db' w'
  /\ db_seq db' = db_seq db + 1 /\ db_wm db' = db_wm db.
Proof.
  intros Hinv Hsq Hk Hkl Hvl Hord Hf.
  apply (flushIfFull_at _ (write_state db key value kind) w); [|done..]. by apply write_state_ok.
Qed.

End flush.

(** ** Snapshots *)

Lemma Begin_active wm s t : is_Some (active (Begin wm s) !! t) <-> t = s \/ is_Some (active wm !! t).
Proof.
  unfold Begin. simpl. rewrite lookup_insert. case_decide; [split; [by left|eauto]|].
  split; [by right|]. by intros [->|?].
Qed.

Lemma Done_active wm s t : is_Some (active (Done wm s) !! t) -> is_Some (active wm !! t).
Proof.
  unfold Done, refcount. destruct (Z.leb_spec (default 0 (active wm !! s)) 1) as [E|E]; simpl;
    rewrite ?lookup_delete, ?lookup_insert; case_decide as Hst; try done.
  subst t. intros _. destruct (active wm !! s); [eauto|]. simpl in E. lia.
Qed.

Lemma snapshot_ok hist db w :
  db_inv hist db w -> db_inv hist (GetSnapshot db).1 w /\ (GetSnapshot db).2 = db_seq db.
Proof.
  intros Hinv. split; [|done]. pose proof Hinv as [? ? ? ? ? Hsq ? Hp (es & old & [? ? ? ? ? Hr])].
  split; try done.
  - intros s [->|Hs]%Begin_active; [simpl; unfold snapshot_load; lia|by apply Hp].
  - exists es, old. split; try done. intros k s Hs. apply Hr. destruct Hs as [Hs|Hs]; [by left|].
    apply Begin_active in Hs as [->|Hs]; [|by right]. left. unfold snapshot_load. lia.
Qed.

Lemma release_ok hist db w s : db_inv hist db w -> db_inv hist (ReleaseSnapshot db s) w.
Proof.
  intros [? ? ? ? ? ? ? Hp (es & old & [? ? ? ? ? Hr])]. split; try done.
  - intros t Ht%Done_active. by apply Hp.
  - exists es, old. split; try done. intros k t Ht. apply Hr.
    destruct Ht as [Ht|Ht]; [by left|]. right. by apply Done_active in Ht.
Qed.

(** ** The simulation *)

Section simulation.
Context {W : Type} `{WL : WriterLaws W}.
Context (bloom0 : BloomFilter) (newFile : bytes -> W) (tick : Z -> Z).

(** Opening a scan and draining it, as [server.doScan] does, with no other call in between. *)
Definition scan_all db w (lb : bytes) (ub : option bytes) (s : Z) :
    DB C * result (list (bytes * bytes)) :=
  let '(r, c) := (let$ m := ScanAt (w_fs w) db lb ub s in scan_drain (w_fs w) m) (db_cache db) in
  (set_cache db c, r).

Definition db_step db w (c : call) : DB C * World * reply :=
  match c with
  | CPut k v => let '(db', w', r) := Put bloom0 newFile tick db w k v in (db', w', RDone r)
  | CDelete k => let '(db', w', r) := Delete bloom0 newFile tick db w k in (db', w', RDone r)
  | CGet k => let '(db', r) := Get db w k in (db', w, RValue r)
  | CGetAt k s => let '(db', r) := GetAt db w k s in (db', w, RValue r)
  | CScanAt lb ub s => let '(db', r) := scan_all db w lb ub s in (db', w, RPairs r)
  | CFlush => let '(db', w', r) := ForceFlush bloom0 newFile tick db w in (db', w', RDone r)
  | CSnapshot => let '(db', s) := GetSnapshot db in (db', w, RSnapshot s)
  | CRelease s => (ReleaseSnapshot db s, w, RDone (Ok tt))
  end.

Fixpoint db_run db w (cs : list call) : list reply :=
  match cs with
  | [] => []
  | c :: cs' => let '(db', w', r) := db_step db w c in r :: db_run db' w' cs'
  end.

(** Every compaction of the run groups neighbouring tables. *)
Definition call_in_order db w (c : call) : Prop :=
  match c with
  | CPut k v => write_in_order bloom0 newFile tick (write_state db k v InternalKeyKindSet) w
  | CDelete k => write_in_order bloom0 newFile tick (write_state db k [] InternalKeyKindDelete) w
  | CFlush => flush_in_order bloom0 newFile tick db w
  | _ => True
  end.

Fixpoint run_in_order db w (cs : list call) : Prop :=
  match cs with
  | [] => True
  | c :: cs' =>
      call_in_order db w c
      /\ let '(db', w', _) := db_step db w c in run_in_order db' w' cs'
  end.

Record sim (a : abs) db w : Prop := {
  sim_inv : db_inv (hist_of (a_log a)) db w;
  sim_seq : db_seq db = a_seq a;
  sim_pins : wm_rel (db_wm db) (a_pins a);
  sim_log : Forall write_ok (a_log a)
}.

(** Without the order of the tables: the database has made the writes of the history, but its
    reads may be wrong. *)
Record rough (a : abs) db w : Prop := {
  ro_shape : db_shape (hist_of (a_log a)) db w;
  ro_seq : db_seq db = a_seq a;
  ro_pins : wm_rel (db_wm db) (a_pins a);
  ro_log : Forall write_ok (a_log a)
}.

Lemma sim_rough a db w : sim a db w -> rough a db w.
Proof. intros [? ? ? ?]. split; try done. by apply db_inv_shape. Qed.

Lemma rough_sim a db w : rough a db w -> db_inv (hist_of (a_log a)) db w -> sim a db w.
Proof. intros [? ? ? ?] ?. by split. Qed.

Context (bloom0_ok : bloom_ok bloom0) (newFile_empty : forall p, on_file (newFile p) = [])
  (tick_later : forall t, t < tick t).

Lemma rough_readable a db w s :
  rough a db w -> s ∈ a_pins a \/ a_seq a <= s <= SeqNumMax -> readable db s.
Proof.
  intros [_ Hs Hp _] [Hpin|Hr]; [right; by apply (wm_rel_pinned _ _ _ Hp)|left; by rewrite Hs].
Qed.

(** Reads change the cache only. *)
Lemma rough_GetAt a db w k s :
  rough a db w -> s ∈ a_pins a \/ a_seq a <= s <= SeqNumMax ->
  exists c' r, GetAt db w k s = (set_cache db c', r) /\ rough a (set_cache db c') w.
Proof.
  intros Hro Hs. pose proof Hro as [Hsh Hq Hp Hl].
  pose proof (readable_range _ _ _ _ Hsh (rough_readable _ _ _ _ Hro Hs)) as Hrange.
  pose proof Hsh as [(truth & Hst & Hc) Hm _ _ _ _ _ _].
  destruct (GetAt_search truth db w k s Hm (so_good _ _ _ _ _ Hst) Hc Hrange) as (c' & -> & Hc').
  eexists c', _. split; [done|]. split; [|done..]. by apply (db_shape_cache _ db w truth).
Qed.

Lemma rough_scan a db w lb ub s :
  rough a db w -> s ∈ a_pins a \/ a_seq a <= s <= SeqNumMax ->
  exists c' r, scan_all db w lb ub s = (set_cache db c', r) /\ rough a (set_cache db c') w.
Proof.
  intros Hro Hs. pose proof Hro as [Hsh Hq Hp Hl].
  pose proof (readable_range _ _ _ _ Hsh (rough_readable _ _ _ _ Hro Hs)) as Hrange.
  pose proof Hsh as [(truth & Hst & Hc) Hm _ Hnd _ _ _ _].
  destruct (scan_spec (w_fs w) truth (db_tables db) db lb ub s Hm (so_good _ _ _ _ _ Hst) (fun _ H => H) Hnd Hrange (db_cache db) Hc)
    as (out & c' & Hrun & Hc' & _).
  unfold scan_all. rewrite Hrun. eexists c', _. split; [done|]. split; [|done..]. by apply (db_shape_cache _ db w truth).
Qed.

(** Adding one write on both sides. *)
Lemma rough_write a db w wr db' w' :
  rough a db w -> write_ok wr ->
  db_shape (write_rec (db_seq db + 1) wr :: hist_of (a_log a)) db' w' ->
  db_seq db' = db_seq db + 1 -> db_wm db' = db_wm db ->
  rough (mkAbs (wr :: a_log a) (a_pins a)) db' w'.
Proof.
  intros [Hinv Hq Hp Hl] Hw Hinv' Hq' Hwm'.
  assert (Hb : blen (wr :: a_log a) = db_seq db + 1) by (rewrite blen_cons, Hq; unfold a_seq; lia).
  split; cbn [a_log a_pins hist_of a_seq].
  - by rewrite Hb.
  - unfold a_seq. cbn [a_log]. by rewrite Hb.
  - by rewrite Hwm'.
  - by constructor.
Qed.

Lemma shape_snapshot hist db w : db_shape hist db w -> db_shape hist (GetSnapshot db).1 w.
Proof.
  intros [? ? ? ? Hsq ? Hp ?]. split; try done.
  intros s [->|Hs]%Begin_active; [simpl; unfold snapshot_load; lia|by apply Hp].
Qed.

Lemma shape_release hist db w s : db_shape hist db w -> db_shape hist (ReleaseSnapshot db s) w.
Proof. intros [? ? ? ? ? ? Hp ?]. split; try done. intros t Ht%Done_active. by apply Hp. Qed.

Lemma sim_readable a db w s :
  sim a db w -> s ∈ a_pins a \/ a_seq a <= s <= SeqNumMax -> readable db s.
Proof.
  intros Hsim. by apply (rough_readable a db w), sim_rough.
Qed.

Lemma sim_GetAt a db w k s :
  sim a db w -> s ∈ a_pins a \/ a_seq a <= s <= SeqNumMax ->
  exists db', GetAt db w k s = (db', Ok (abs_read k s (a_log a))) /\ sim a db' w.
Proof.
  intros Hsim Hs. pose proof Hsim as [Hinv Hq Hp Hl].
  destruct (GetAt_ok _ _ _ k s Hinv (sim_readable _ _ _ _ Hsim Hs)) as (c' & -> & Hinv').
  exists (set_cache db c'). rewrite hist_of_read; [done..|].
  pose proof (di_seq _ _ _ Hinv). unfold a_seq in Hq. lia.
Qed.

(** The abstract scan answers for the records of the database. *)
Lemma sim_scan_answer a db w lb ub s :
  sim a db w -> s ∈ a_pins a \/ a_seq a <= s <= SeqNumMax ->
  scan_answer lb ub s (stored db w) (abs_scan lb ub s (a_log a)).
Proof.
  intros Hsim Hs. pose proof Hsim as [Hinv Hq Hp Hl]. pose proof (di_seq _ _ _ Hinv) as Hsq.
  destruct (abs_scan_spec lb ub s (a_log a)) as [Hsort Hout]. split; [done|]. intros k v. rewrite Hout.
  rewrite <- hist_of_read by (done || (unfold a_seq in Hq; lia)).
  by rewrite (db_reads _ db w k s Hinv (sim_readable _ _ _ _ Hsim Hs)).
Qed.

Lemma sim_scan a db w lb ub s :
  sim a db w -> s ∈ a_pins a \/ a_seq a <= s <= SeqNumMax ->
  exists db', scan_all db w lb ub s = (db', Ok (abs_scan lb ub s (a_log a))) /\ sim a db' w.
Proof.
  intros Hsim Hs. pose proof Hsim as [Hinv Hq Hp Hl].
  pose proof (readable_range _ _ _ _ Hinv (sim_readable _ _ _ _ Hsim Hs)) as Hrange.
  pose proof Hinv as [(truth & Hst & Hc) Hm ? ? Hnd ? ? ? ?].
  destruct (scan_spec (w_fs w) truth (db_tables db) db lb ub s Hm (so_good _ _ _ _ _ Hst) (fun _ H => H) Hnd Hrange (db_cache db) Hc)
    as (out & c' & Hrun & Hc' & Hsort & Hout).
  unfold scan_all. rewrite Hrun. exists (set_cache db c'). split.
  - destruct (sim_scan_answer a db w lb ub s Hsim Hs) as [Hsort' Hout'].
    do 2 f_equal. apply klt_unique; [done..|]. intros [k v]. by rewrite Hout, Hout'.
  - split; [|done..]. by apply (db_inv_cache _ db w truth).
Qed.

(** Adding one write on both sides. *)
Lemma sim_write a db w wr db' w' :
  sim a db w -> write_ok wr ->
  db_inv (write_rec (db_seq db + 1) wr :: hist_of (a_log a)) db' w' ->
  db_seq db' = db_seq db + 1 -> db_wm db' = db_wm db ->
  sim (mkAbs (wr :: a_log a) (a_pins a)) db' w'.
Proof.
  intros Hsim Hw Hinv' Hq' Hwm'. apply rough_sim.
  { apply (rough_write a db w wr db' w' (sim_rough _ _ _ Hsim)); try done. by apply db_inv_shape. }
  cbn [a_log hist_of]. rewrite blen_cons. pose proof (sim_seq _ _ _ Hsim) as Hq. unfold a_seq in Hq.
  by replace (1 + blen (a_log a)) with (db_seq db + 1) by lia.
Qed.

(** A call on any disk, when it is answered without an error. *)
Lemma sim_step_at a db w c db' w' r :
  sim a db w -> call_ok a c -> call_in_order db w c -> db_step db w c = (db', w', r) ->
  (forall e, r = RDone (Err e) -> (abs_step a c).2 = RDone (Err e)) -> r <> RDone Panic ->
  r = (abs_step a c).2 /\ sim (abs_step a c).1 db' w'.
Proof.
  intros Hsim Hok Hord Hstep Herr Hpan. pose proof Hsim as [Hinv Hq Hp Hl].
  destruct c; simpl in Hok, Hord; cbn [db_step abs_step] in *.
  - unfold Put at 1 in Hstep. destruct (Z.ltb_spec MAX_KEY_LENGTH (blen key)); [by injection Hstep as <- <- <-|].
    destruct (Z.ltb_spec MAX_VALUE_LENGTH (blen value)); [by injection Hstep as <- <- <-|].
    pose proof (Put_eq bloom0 newFile tick _ db w key value Hinv) as Heq. unfold Put in Heq.
    rewrite (proj2 (Z.ltb_ge _ _)), (proj2 (Z.ltb_ge MAX_VALUE_LENGTH _)) in Heq by done.
    rewrite Heq in Hstep by (done || lia).
    destruct (flushIfFullLocked _ _ _ _ _) as [[db1 w1] r1] eqn:Hf. injection Hstep as <- <- <-.
    destruct r1 as [[]|e|]; [|by specialize (Herr e eq_refl)|done]. split; [done|].
    destruct (write_at bloom0 newFile tick bloom0_ok newFile_empty tick_later _ db w key value InternalKeyKindSet db1 w1 Hinv)
      as (Hinv' & Hs & Hwm); [lia|unfold InternalKeyKindSet; lia|done..|].
    by apply (sim_write a db w (key, Some value)).
  - unfold Delete at 1 in Hstep. destruct (Z.ltb_spec MAX_KEY_LENGTH (blen key)); [by injection Hstep as <- <- <-|].
    pose proof (Delete_eq bloom0 newFile tick _ db w key Hinv) as Heq. unfold Delete in Heq.
    rewrite (proj2 (Z.ltb_ge _ _)) in Heq by done. rewrite Heq in Hstep by (done || lia).
    destruct (flushIfFullLocked _ _ _ _ _) as [[db1 w1] r1] eqn:Hf. injection Hstep as <- <- <-.
    destruct r1 as [[]|e|]; [|by specialize (Herr e eq_refl)|done]. split; [done|].
    destruct (write_at bloom0 newFile tick bloom0_ok newFile_empty tick_later _ db w key [] InternalKeyKindDelete db1 w1 Hinv)
      as (Hinv' & Hs & Hwm); [lia|unfold InternalKeyKindDelete; lia|done|by vm_compute|done..|].
    by apply (sim_write a db w (key, None)).
  - unfold Get in Hstep. destruct (sim_GetAt a db w key SeqNumMax Hsim) as (db1 & Hg & Hsim').
    { right. pose proof (di_seq _ _ _ Hinv). lia. }
    rewrite Hg in Hstep. by injection Hstep as <- <- <-.
  - destruct (sim_GetAt a db w key snapshot Hsim Hok) as (db1 & Hg & Hsim'). rewrite Hg in Hstep.
    by injection Hstep as <- <- <-.
  - destruct (sim_scan a db w lowerBound upperBound snapshot Hsim Hok) as (db1 & Hg & Hsim').
    rewrite Hg in Hstep. by injection Hstep as <- <- <-.
  - unfold ForceFlush in Hstep. destruct (flushMemtableLocked _ _ _ _ _) as [[db1 w1] r1] eqn:Hf.
    injection Hstep as <- <- <-. destruct r1 as [[]|e|]; [|by specialize (Herr e eq_refl)|done]. split; [done|].
    destruct (flush_at bloom0 newFile tick bloom0_ok newFile_empty tick_later _ db w db1 w1 Hinv Hord Hf) as (Hinv' & Hs & Hwm).
    split; [done|by rewrite Hs|by rewrite Hwm|done].
  - destruct (snapshot_ok _ db w Hinv) as [Hinv' _]. unfold GetSnapshot, snapshot_load in Hstep.
    injection Hstep as <- <- <-. split; [by rewrite Hq|].
    split; cbn [a_log a_pins fst]; [done|done| |done]. cbn [db_wm]. rewrite Hq.
    apply (wm_rel_step _ _ (OpBegin (a_seq a)) Hp).
  - injection Hstep as <- <- <-. split; [done|].
    split; cbn [a_log a_pins fst]; [by apply release_ok|done| |done].
    apply (wm_rel_step _ _ (OpDone snapshot) Hp).
Qed.

(** The same call, whatever its compaction merges. *)
Lemma rough_step_at a db w c db' w' r :
  rough a db w -> call_ok a c -> db_step db w c = (db', w', r) ->
  (forall e, r = RDone (Err e) -> (abs_step a c).2 = RDone (Err e)) -> r <> RDone Panic ->
  rough (abs_step a c).1 db' w' /\ (clean db w -> clean db' w').
Proof.
  intros Hro Hok Hstep Herr Hpan. pose proof Hro as [Hsh Hq Hp Hl].
  destruct c; simpl in Hok; cbn [db_step abs_step] in *.
  - unfold Put at 1 in Hstep. destruct (Z.ltb_spec MAX_KEY_LENGTH (blen key)); [by injection Hstep as <- <- <-|].
    destruct (Z.ltb_spec MAX_VALUE_LENGTH (blen value)); [by injection Hstep as <- <- <-|].
    pose proof (Put_eq bloom0 newFile tick _ db w key value Hsh) as Heq. unfold Put in Heq.
    rewrite (proj2 (Z.ltb_ge _ _)), (proj2 (Z.ltb_ge MAX_VALUE_LENGTH _)) in Heq by done.
    rewrite Heq in Hstep by (done || lia).
    destruct (flushIfFullLocked _ _ _ _ _) as [[db1 w1] r1] eqn:Hf. injection Hstep as <- <- <-.
    destruct r1 as [[]|e|]; [|by specialize (Herr e eq_refl)|done].
    destruct (write_state_shape _ db w key value InternalKeyKindSet Hsh) as [_ Hsh1];
      [lia|unfold InternalKeyKindSet; lia|done..|].
    destruct (flushIfFull_shape bloom0 newFile tick bloom0_ok newFile_empty tick_later _ _ w db1 w1 Hsh1 Hf)
      as (Hsh' & Hs & Hwm & Hcl). split; [by apply (rough_write a db w (key, Some value))|exact Hcl].
  - unfold Delete at 1 in Hstep. destruct (Z.ltb_spec MAX_KEY_LENGTH (blen key)); [by injection Hstep as <- <- <-|].
    pose proof (Delete_eq bloom0 newFile tick _ db w key Hsh) as Heq. unfold Delete in Heq.
    rewrite (proj2 (Z.ltb_ge _ _)) in Heq by done. rewrite Heq in Hstep by (done || lia).
    destruct (flushIfFullLocked _ _ _ _ _) as [[db1 w1] r1] eqn:Hf. injection Hstep as <- <- <-.
    destruct r1 as [[]|e|]; [|by specialize (Herr e eq_refl)|done].
    destruct (write_state_shape _ db w key [] InternalKeyKindDelete Hsh) as [_ Hsh1];
      [lia|unfold InternalKeyKindDelete; lia|done|by vm_compute|].
    destruct (flushIfFull_shape bloom0 newFile tick bloom0_ok newFile_empty tick_later _ _ w db1 w1 Hsh1 Hf)
      as (Hsh' & Hs & Hwm & Hcl). split; [by apply (rough_write a db w (key, None))|exact Hcl].
  - unfold Get in Hstep. destruct (rough_GetAt a db w key SeqNumMax Hro) as (c' & r' & Hg & Hro').
    { right. pose proof (ds_seq _ _ _ Hsh). lia. }
    rewrite Hg in Hstep. by injection Hstep as <- <- <-.
  - destruct (rough_GetAt a db w key snapshot Hro Hok) as (c' & r' & Hg & Hro'). rewrite Hg in Hstep.
    by injection Hstep as <- <- <-.
  - destruct (rough_scan a db w lowerBound upperBound snapshot Hro Hok) as (c' & r' & Hg & Hro').
    rewrite Hg in Hstep. by injection Hstep as <- <- <-.
  - unfold ForceFlush in Hstep. destruct (flushMemtableLocked _ _ _ _ _) as [[db1 w1] r1] eqn:Hf.
    injection Hstep as <- <- <-. destruct r1 as [[]|e|]; [|by specialize (Herr e eq_refl)|done].
    destruct (flush_shape bloom0 newFile tick bloom0_ok newFile_empty tick_later _ db w db1 w1 Hsh Hf) as (Hsh' & Hs & Hwm & Hcl).
    split; [|done]. split; [done|by rewrite Hs|by rewrite Hwm|done].
  - unfold GetSnapshot, snapshot_load in Hstep. injection Hstep as <- <- <-. split; [|done].
    split; cbn [a_log a_pins fst]; [by apply (shape_snapshot _ db)|done| |done]. cbn [db_wm]. rewrite Hq.
    apply (wm_rel_step _ _ (OpBegin (a_seq a)) Hp).
  - injection Hstep as <- <- <-. split; [|done].
    split; cbn [a_log a_pins fst]; [by apply shape_release|done| |done].
    apply (wm_rel_step _ _ (OpDone snapshot) Hp).
Qed.

(** On a working disk only the bounds of the arguments are an error. *)
Lemma step_succeeds {HR : Reliable W} a db w c :
  rough a db w -> call_ok a c ->
  (forall e, (db_step db w c).2 = RDone (Err e) -> (abs_step a c).2 = RDone (Err e)) /\ (db_step db w c).2 <> RDone Panic.
Proof.
  intros Hro Hok. pose proof Hro as [Hinv Hq Hp Hl]. destruct c; simpl in Hok; cbn [db_step abs_step].
  - unfold Put at 1 2. destruct (Z.ltb_spec MAX_KEY_LENGTH (blen key)); [done|].
    destruct (Z.ltb_spec MAX_VALUE_LENGTH (blen value)); [done|].
    pose proof (Put_eq bloom0 newFile tick _ db w key value Hinv) as Heq. unfold Put in Heq.
    rewrite (proj2 (Z.ltb_ge _ _)), (proj2 (Z.ltb_ge MAX_VALUE_LENGTH _)) in Heq by done. rewrite Heq by (done || lia).
    destruct (write_state_shape _ db w key value InternalKeyKindSet Hinv) as [_ Hinv'];
      [lia|unfold InternalKeyKindSet; lia|done..|].
    by destruct (flushIfFull_succeeds bloom0 newFile tick bloom0_ok newFile_empty tick_later _ _ w Hinv') as (db' & w' & ->).
  - unfold Delete at 1 2. destruct (Z.ltb_spec MAX_KEY_LENGTH (blen key)); [done|].
    pose proof (Delete_eq bloom0 newFile tick _ db w key Hinv) as Heq. unfold Delete in Heq.
    rewrite (proj2 (Z.ltb_ge _ _)) in Heq by done. rewrite Heq by (done || lia).
    destruct (write_state_shape _ db w key [] InternalKeyKindDelete Hinv) as [_ Hinv'];
      [lia|unfold InternalKeyKindDelete; lia|done|by vm_compute|].
    by destruct (flushIfFull_succeeds bloom0 newFile tick bloom0_ok newFile_empty tick_later _ _ w Hinv') as (db' & w' & ->).
  - by destruct (Get db w key).
  - by destruct (GetAt db w key snapshot).
  - by destruct (scan_all db w lowerBound upperBound snapshot).
  - unfold ForceFlush. by destruct (flush_succeeds bloom0 newFile tick bloom0_ok newFile_empty tick_later _ db w Hinv) as (db' & w' & ->).
  - done.
  - done.
Qed.

Lemma sim_step {HR : Reliable W} a db w c :
  sim a db w -> call_ok a c -> call_in_order db w c ->
  exists db' w', db_step db w c = (db', w', (abs_step a c).2) /\ sim (abs_step a c).1 db' w'.
Proof.
  intros Hsim Hok Hord. destruct (step_succeeds a db w c (sim_rough _ _ _ Hsim) Hok) as [Herr Hpan].
  destruct (db_step db w c) as [[db' w'] r] eqn:Hs.
  destruct (sim_step_at a db w c db' w' r Hsim Hok Hord Hs Herr Hpan) as [-> Hsim']. by exists db', w'.
Qed.

Lemma rough_step {HR : Reliable W} a db w c :
  rough a db w -> call_ok a c ->
  exists db' w' r, db_step db w c = (db', w', r) /\ rough (abs_step a c).1 db' w' /\ (clean db w -> clean db' w').
Proof.
  intros Hro Hok. destruct (step_succeeds a db w c Hro Hok) as [Herr Hpan].
  destruct (db_step db w c) as [[db' w'] r] eqn:Hs. exists db', w', r. split; [done|].
  by apply (rough_step_at a db w c db' w' r).
Qed.

Context {HR : Reliable W}.

Lemma sim_run cs a db w :
  sim a db w -> calls_ok a cs -> run_in_order db w cs -> db_run db w cs = abs_run a cs.
Proof.
  revert a db w. induction cs as [|c cs IH]; intros a db w Hsim; [done|].
  cbn [calls_ok run_in_order db_run abs_run]. intros [Hc Hcs] [Ho Hos].
  destruct (sim_step a db w c Hsim Hc Ho) as (db' & w' & Hstep & Hsim'). rewrite Hstep in *.
  f_equal. by apply IH.
Qed.

(** ** A new database *)

(** Nothing is in the table directory yet. *)
Definition fresh_dir (fs : FS) (dir : bytes) : Prop :=
  (forall p, is_Some (fs !! p) -> name_in dir p = None) /\ (forall d, fs !! dir <> Some (File d)).

Lemma fresh_dir_clock fs dir now : fresh_dir fs dir -> clock_ok dir (<[dir := Dir]> fs) ∅ now.
Proof.
  intros [Hf _]. split; [apply lookup_insert_eq|]. intros t _.
  assert (Hn : forall p, p <> dir -> is_Some (name_in dir p) -> <[dir := Dir]> fs !! p = None).
  { intros p Hp [n Hin]. rewrite lookup_insert_ne by done. destruct (fs !! p) eqn:E; [|done].
    rewrite Hf in Hin by eauto. done. }
  split; [|split]; [apply Hn; [apply sst_ne_dir|by rewrite name_in_sst]| |done].
  apply Hn.
  - intros Heq%(f_equal length). unfold sst_path in Heq. rewrite !length_app in Heq. simpl in Heq. lia.
  - unfold sst_path. rewrite <- app_assoc. cbn [app]. rewrite name_in_app; [eauto| |].
    + rewrite <- app_assoc, !elem_of_app. intros [Hs|[Hs|Hs]].
      * apply (sst_name_no_slash t), elem_of_app. by left.
      * by apply (bool_decide_eq_true_2 (slash ∈ dot_sst)) in Hs.
      * by apply (bool_decide_eq_true_2 (slash ∈ dot_tmp)) in Hs.
    + intros Heq%(f_equal length). rewrite !length_app in Heq. simpl in Heq. lia.
Qed.

Lemma fresh_dir_none (fs : FS) (dir p : bytes) :
  fresh_dir fs dir -> is_Some (name_in dir p) -> forall x, <[dir := Dir]> fs !! p = Some x -> False.
Proof.
  intros [Hf _] [n Hn] x Hx. destruct (decide (p = dir)) as [->|Hne].
  - unfold name_in in Hn. destruct (strip_prefix (dir ++ [slash]) dir) eqn:Es; [|done].
    apply strip_prefix_Some, (f_equal length) in Es. rewrite !length_app in Es. simpl in Es. lia.
  - rewrite lookup_insert_ne in Hx by done. by rewrite Hf in Hn by eauto.
Qed.

Lemma fresh_dir_list fs dir : fresh_dir fs dir -> OpenAllInDir (<[dir := Dir]> fs) dir = Ok [].
Proof.
  intros Hf. unfold OpenAllInDir, os_ReadDir. rewrite lookup_insert_eq. cbn [rbind].
  replace (omap _ _) with (@nil (bytes * node)); [done|]. symmetry.
  destruct (omap _ _) as [|[n x] l] eqn:E; [done|].
  assert (Hin : (n, x) ∈ (n, x) :: l) by apply list_elem_of_here. rewrite <- E in Hin.
  apply list_elem_of_omap in Hin as ([p nd] & Hp & Hn). apply elem_of_map_to_list in Hp.
  exfalso. apply (fresh_dir_none fs dir p Hf) in Hp; [done|]. destruct (name_in dir p); [eauto|done].
Qed.

(** The database [Open] makes of an empty log and an empty directory. *)
Definition fresh_db (newCache : C) (conf : Config) : DB C :=
  mkDB (wal_Open (mkFile [] 0)) NewMemTable [] conf newCache 0 NewWatermark.

Lemma Open_fresh (newCache : C) (conf : Config) (fs : FS) (now : Z) :
  fresh_dir fs (SSTDir conf) ->
  db_Open newCache conf (mkFile [] 0) (mkWorld fs now)
  = (mkWorld (<[SSTDir conf := Dir]> fs) now, Ok (fresh_db newCache conf)).
Proof.
  intros Hf. unfold db_Open, os_MkdirAll. cbn [w_fs w_now].
  assert (Hm : fs !! SSTDir conf = Some Dir \/ fs !! SSTDir conf = None).
  { destruct Hf as [_ Hf]. destruct (fs !! SSTDir conf) as [[d|]|]; [by destruct (Hf d)|auto..]. }
  replace (match fs !! SSTDir conf with Some (File _) => _ | _ => _ end)
    with (<[SSTDir conf := Dir]> fs, @None goerror) by (by destruct Hm as [-> | ->]).
  change (rebuildMemtable (wal_Open (mkFile [] 0))) with (wal_Open (mkFile [] 0), Ok (NewMemTable, 0)).
  cbv beta iota zeta. by rewrite (fresh_dir_list fs _ Hf).
Qed.

Lemma sim_fresh (newCache : C) (conf : Config) (fs : FS) (now : Z) :
  fresh_dir fs (SSTDir conf) -> cache_true ∅ newCache ->
  exists db, db_Open newCache conf (mkFile [] 0) (mkWorld fs now)
    = (mkWorld (<[SSTDir conf := Dir]> fs) now, Ok db)
    /\ sim (mkAbs [] ∅) db (mkWorld (<[SSTDir conf := Dir]> fs) now).
Proof.
  intros Hf Hc. exists (fresh_db newCache conf). split; [by apply Open_fresh|]. unfold fresh_db.
  split; [|done|intros s; unfold refcount; simpl; by rewrite lookup_empty|constructor].
  split; unfold stored, levels; cbn [db_mem db_tables db_conf db_cache db_seq db_wm db_wal w_fs w_now fmap list_fmap];
    rewrite ?mt_items_New; try done.
  - exists ∅. split; [|done]. split; [by apply fresh_dir_clock|constructor..].
  - apply NewMemTable_ok.
  - repeat constructor.
  - constructor.
  - intros e He. by apply elem_of_nil in He.
  - intros s [x Hx]. change ((∅ : gmap Z Z) !! s = Some x) in Hx. by rewrite lookup_empty in Hx.
  - exists [], []. split; try done. cbn [db_mem]. by rewrite mt_items_New.
Qed.

Lemma clean_fresh (newCache : C) (conf : Config) (fs : FS) (now : Z) w db :
  fresh_dir fs (SSTDir conf) -> db_Open newCache conf (mkFile [] 0) (mkWorld fs now) = (w, Ok db) -> clean db w.
Proof.
  intros Hf Ho. rewrite Open_fresh in Ho by done. injection Ho as <- <-.
  intros p Hn [x Hx]. exfalso. by apply (fresh_dir_none fs _ p Hf Hn x).
Qed.

(** A state below the compaction threshold and the last sequence number, and a call that
    needs no pinned snapshot. *)
Definition few (a : abs) db : bool :=
  (blen (db_tables db) + 1 <? DEFAULT_COMPACTION_THRESHOLD) && (a_seq a <? SeqNumMax).

Definition plain_call (c : call) : bool :=
  match c with CGetAt _ _ => false | CScanAt _ _ s => s =? SeqNumMax | _ => true end.

(** Below the compaction threshold every run is in order. *)
Fixpoint run_few db w (cs : list call) : bool :=
  match cs with
  | [] => true
  | c :: cs' =>
      (blen (db_tables db) + 1 <? DEFAULT_COMPACTION_THRESHOLD)
      && let '(db', w', _) := db_step db w c in run_few db' w' cs'
  end.

Lemma few_in_order db w c :
  blen (db_tables db) + 1 < DEFAULT_COMPACTION_THRESHOLD -> call_in_order db w c.
Proof.
  intros Hlt.
  assert (Hf : forall d : DB C, db_tables d = db_tables db -> flush_in_order bloom0 newFile tick d w).
  { intros d Hd fs' sst _ Hge. rewrite blen_cons, Hd in Hge. lia. }
  destruct c; simpl; [intros _|intros _|done|done|done| |done|done]; by apply Hf.
Qed.

Lemma run_few_in_order db w cs : run_few db w cs = true -> run_in_order db w cs.
Proof.
  revert db w. induction cs as [|c cs IH]; intros db w; [done|]. cbn [run_few run_in_order].
  intros [Hlt%Z.ltb_lt Hrest]%andb_prop. split; [by apply few_in_order|].
  destruct (db_step db w c) as [[db' w'] r]. by apply IH.
Qed.

(** C3: Opening a database on an empty log and a directory with no tables succeeds, and every
    sequence of puts, deletes, reads (current and at a snapshot), range scans, flushes,
    snapshots and releases whose compactions merge neighbouring tables only ([run_in_order];
    for other runs see [compaction_can_bury_newer_version]) is then answered exactly as the
    abstract database answers it, the list of all writes: a read at a held snapshot sees the
    writes up to that snapshot and no later one, oversized keys and values are refused without
    an effect, and no flush, compaction, cache or filter changes an answer. Assumed moreover:
    the calls use snapshots they hold and there are fewer than 2^56 writes ([calls_ok]). *)
Theorem database_refines_history (newCache : C) (conf : Config) (fs : FS) (now : Z) (cs : list call) :
  fresh_dir fs (SSTDir conf) -> cache_true ∅ newCache ->
  exists w db, db_Open newCache conf (mkFile [] 0) (mkWorld fs now) = (w, Ok db)
    /\ (calls_ok (mkAbs [] ∅) cs -> run_in_order db w cs ->
        db_run db w cs = abs_run (mkAbs [] ∅) cs).
Proof.
  intros Hf Hc. destruct (sim_fresh newCache conf fs now Hf Hc) as (db & Ho & Hs).
  eexists _, db. split; [exact Ho|]. by apply sim_run.
Qed.
End simulation.
End refine.

Definition demo_calls : list call :=
  let a := bytes_of "a" in
  [CPut a (bytes_of "1"); CSnapshot; CPut a (bytes_of "2"); CFlush; CGetAt a 1; CDelete a;
   CGet a; CScanAt [] None 1; CFlush; CGetAt a 1; CRelease 1].

(** The demo stays below the compaction threshold. *)
Definition demo_few : bool :=
  match db_Open (NewShardedLRU (V := list kv) 2 4) (mkConfig (bytes_of "wal") demo_dir)
          (mkFile [] 0) (mkWorld ∅ 0) with
  | (w, Ok db) => run_few demo_bloom new_file Z.succ db w demo_calls
  | _ => false
  end.

Lemma database_refines_history_witness :
  exists w db,
    db_Open (NewShardedLRU (V := list kv) 2 4) (mkConfig (bytes_of "wal") demo_dir) (mkFile [] 0)
      (mkWorld ∅ 0) = (w, Ok db)
    /\ db_run demo_bloom new_file Z.succ db w demo_calls
       = [RDone (Ok tt); RSnapshot 1; RDone (Ok tt); RDone (Ok tt);
          RValue (Ok (Some (bytes_of "1"))); RDone (Ok tt); RValue (Ok None);
          RPairs (Ok [(bytes_of "a", bytes_of "1")]); RDone (Ok tt);
          RValue (Ok (Some (bytes_of "1"))); RDone (Ok tt)].
Proof.
  destruct (database_refines_history (C := ShardedLRU (list kv)) (WL := os_File_WriterLaws) demo_bloom new_file Z.succ demo_bloom_ok (fun _ => eq_refl)
    (fun t => Z.lt_succ_diag_r t)
    (NewShardedLRU (V := list kv) 2 4) (mkConfig (bytes_of "wal") demo_dir) ∅ 0 demo_calls)
    as (w & db & Ho & Hrun).
  - split; [intros p [x Hx]; by rewrite lookup_empty in Hx|intros d Hd; by rewrite lookup_empty in Hd].
  - apply new_cache_true. lia.
  - exists w, db. split; [exact Ho|]. rewrite Hrun.
    + vm_compute. reflexivity.
    + repeat (split; [first [exact I|reflexivity|left; vm_compute; lia]|]); exact I.
    + apply run_few_in_order.
      assert (Hfew : demo_few = true) by (vm_compute; reflexivity).
      unfold demo_few in Hfew. by rewrite Ho in Hfew.
Defined.
