(* ===== verification/ScanSteps.v ===== *)
(** * Scans that stay open while others run

    [ScanAt] reads under the database's lock, but [Next] does not take it: between two calls
    of [Next] other goroutines may write, flush and compact. [scan_at] says what an open
    [MergeIterator] will still yield. It holds after [ScanAt] ([scan_open]), [Next] takes the
    first pair of it ([scan_next]), and it survives every change of the database that leaves
    the tables under the iterator in place ([scan_move]): the memtable's entries were copied,
    and table files are never written twice. [Races] has the case of a table that goes away. *)

From stdpp Require Import gmultiset.
From S2P Require Import Prelude Config Base Mvcc Memtable Bloom Cache Bufio Wal Block Fs Sstable.
From S2P Require Import SstReader Store Compaction Db Heap Scan DbRefine.

(** The tables under an open scan. *)
Definition src_table (item : mergeItem) : option SSTable :=
  match src item with SrcSst it => Some (it_sst it) | SrcMem _ => None end.

Definition open_tables (m : MergeIterator) : list SSTable := omap src_table (m_h m).

(** Every table under the scan is one of [tabs] and its file is as it was. *)
Definition scan_kept (fs fs' : FS) (tabs : list SSTable) (m : MergeIterator) : Prop :=
  Forall (fun sst => sst ∈ tabs /\ fs' !! FilePath sst = fs !! FilePath sst) (open_tables m).

#[global] Instance scan_kept_dec fs fs' tabs m : Decision (scan_kept fs fs' tabs m).
Proof. unfold scan_kept. apply _. Defined.

Section scan_steps.
Context {C : Type} `{CL : CacherLaws (list kv) C}.
Implicit Types (truth : gmap bytes (list kv)) (fs : FS) (tabs : list SSTable).

(** The scan will yield exactly the pairs [rest]. *)
Definition scan_at fs truth tabs (s : Z) (m : MergeIterator) (rest : list (bytes * bytes)) : Prop :=
  exists all, heap_ok mergeHeap_Less (m_h m) /\ heap_holds fs truth tabs s (m_h m) all
    /\ recs_ok s all /\ scan_post s (m_upperBound m) all rest.

Lemma scan_post_unique s ub all out out' :
  scan_post s ub all out -> scan_post s ub all out' -> out = out'.
Proof.
  intros [Hs Ho] [Hs' Ho']. apply klt_unique; [done..|]. intros [k v]. by rewrite Ho, Ho'.
Qed.

(** [Next] returns the next pair, or false when there is none. *)
Lemma scan_next fs truth tabs s m rest :
  scan_at fs truth tabs s m rest ->
  cspec truth (merge_Next (C := C) fs m) (fun r =>
    if r.1 then exists rest', rest = (m_key r.2, m_val r.2) :: rest' /\ scan_at fs truth tabs s r.2 rest'
    else rest = []).
Proof.
  intros (all & Hok & Hh & Hr & Hpost) c Hc.
  destruct (next_loop_spec fs truth tabs s _ m all Hok Hh Hr (heap_holds_fuel fs truth tabs s _ _ Hh) c Hc)
    as ([more m'] & c' & Hn & Hc' & Hub & Hp). exists (more, m'), c'. split; [done|]. split; [done|].
  simpl in *. destruct more.
  - destruct Hp as (Hb & Hl & Hbelow & Hok' & Hh').
    assert (Hr' : recs_ok s (after (m_key m') all)) by (by apply recs_ok_filter).
    destruct (scan_loop_spec fs truth tabs s _ m' _ Hok' Hh' Hr' (heap_holds_fuel fs truth tabs s _ _ Hh') c' Hc')
      as (out & _ & _ & _ & Hout).
    exists out. split; [|by exists (after (m_key m') all)]. rewrite Hub in Hout.
    eapply scan_post_unique; [exact Hpost|]. by apply scan_post_cons.
  - destruct Hpost as [_ Ho]. destruct rest as [|[k v] rest]; [done|].
    destruct (proj1 (Ho k v) ltac:(apply list_elem_of_here)) as [Hb Hl]. by rewrite Hp in Hl.
Qed.

(** The blocks of a table are determined by its file. *)
Lemma table_ok_blocks fs fs' truth truth' sst blocks blocks' :
  table_ok fs truth sst blocks -> table_ok fs' truth' sst blocks' ->
  fs' !! FilePath sst = fs !! FilePath sst -> blocks = blocks'.
Proof.
  intros [_ Hb _ _ _ _] [_ Hb' _ _ _ _] Hfs. revert blocks' Hb'.
  induction Hb as [|idx b index blocks (Hr & _) _ IH]; intros blocks' Hb'; inversion_clear Hb' as [|? b' ? bs (Hr' & _) Hbs]; [done|].
  f_equal; [|by apply IH]. unfold read_block_file, os_Open in *. rewrite Hfs in Hr'. congruence.
Qed.

(** An open scan reads tables of [tabs] only. *)
Lemma scan_at_kept fs truth tabs s m rest : scan_at fs truth tabs s m rest -> scan_kept fs fs tabs m.
Proof.
  intros (all & _ & (ls & Hls & _) & _). unfold scan_kept, open_tables.
  induction Hls as [|item l h ls (Hy & _) _ IH]; [constructor|]. cbn [omap list_omap].
  unfold src_table at 1. unfold src_yields in Hy. destruct (src item) as [it|it]; [done|].
  constructor; [|done]. destruct Hy as (sst & blocks & Hin & _ & l' & (-> & _) & _). done.
Qed.

Lemma scan_move fs truth tabs fs' truth' tabs' s m rest :
  scan_at fs truth tabs s m rest -> Forall (good fs' truth') tabs' -> scan_kept fs fs' tabs' m ->
  scan_at fs' truth' tabs' s m rest.
Proof.
  intros (all & Hok & (ls & Hls & Hp) & Hr & Hpost) Hg Hkept. exists all. split; [done|].
  split; [|done]. exists ls. split; [|done]. unfold scan_kept, open_tables in Hkept.
  rewrite Forall_forall in Hg. clear Hok Hp Hpost.
  induction Hls as [|item l h ls (Hy & Hs & He) _ IH]; [constructor|].
  constructor.
  - split; [|done]. unfold src_yields in *. unfold src_table in Hkept. cbn [omap list_omap] in Hkept.
    destruct (src item) as [it|it]; [done|].
    destruct Hy as (sst & blocks & _ & Ht & Hy). pose proof Hy as (l' & (Hsst & _) & _).
    apply Forall_cons_1 in Hkept as [[Hin Hfs] _]. rewrite Hsst in Hin, Hfs.
    destruct (Hg sst Hin) as (blocks' & Ht' & _).
    rewrite (table_ok_blocks _ _ _ _ _ _ _ Ht Ht' Hfs) in Hy. eauto.
  - apply IH. cbn [omap list_omap] in Hkept. destruct (src_table item); [|done].
    by apply Forall_cons_1 in Hkept as [_ ?].
Qed.

Context `{BT : BTree kv Item_Less} {BL : BTreeLaws kv Item_Less}.

(** [ScanAt] opens a scan of the pairs between the bounds that are live at the snapshot. *)
Lemma scan_open fs truth (db : DB C) lb ub s rest :
  mt_ok (db_mem db) -> Forall (good fs truth) (db_tables db) ->
  keys_nodup (mt_items (db_mem db) ++ all_recs fs (db_tables db)) -> 0 <= s <= SeqNumMax ->
  scan_answer lb ub s (mt_items (db_mem db) ++ all_recs fs (db_tables db)) rest ->
  cspec truth (ScanAt fs db lb ub s) (fun m => scan_at fs truth (db_tables db) s m rest).
Proof.
  intros Hm Hg Hnd Hs [Hsort Hout].
  eapply cspec_mono; [by apply (ScanAt_spec fs truth (db_tables db))|].
  intros m (Hub & Hok & Hh). exists (scan_recs fs db lb ub s). split; [done|]. split; [done|].
  split; [by eapply scan_recs_ok|]. rewrite Hub. split; [done|]. intros k v.
  by rewrite Hout, live_scan_recs.
Qed.
End scan_steps.
