(* ===== verification/DbRuns.v ===== *)
(** * Runs of the database

    The state after a sequence of calls, and what stays true along it: [keeps] is what a
    property of the database has to satisfy at a write, at a flush and at the changes of cache
    and watermark, for [after_keeps] to carry it through any run, whatever the compactions of
    the run merge. *)

From stdpp Require Import gmultiset.
From S2P Require Import Prelude Config Base Mvcc Memtable Bloom Cache Bufio Wal Block Fs Sstable.
From S2P Require Import SstReader Store Compaction Db Heap Scan DbRefine.

Section runs.
Context `{BT : BTree kv Item_Less} {BL : BTreeLaws kv Item_Less}.
Context {C : Type} `{CL : CacherLaws (list kv) C}.
Implicit Types (db : DB C) (w : World).
Context {W : Type} `{WL : WriterLaws W} {HR : Reliable W}.
Context (bloom0 : BloomFilter) (newFile : bytes -> W) (tick : Z -> Z).

(** The state after a sequence of calls. *)
Fixpoint db_after db w (cs : list call) : DB C * World :=
  match cs with
  | [] => (db, w)
  | c :: cs' => let '(db', w', _) := db_step bloom0 newFile tick db w c in db_after db' w' cs'
  end.

Definition abs_after (a : abs) (cs : list call) : abs := foldl (fun a c => (abs_step a c).1) a cs.

Context (bloom0_ok : bloom_ok bloom0) (newFile_empty : forall p, on_file (newFile p) = [])
  (tick_later : forall t, t < tick t).

Lemma sim_after cs a db w :
  sim a db w -> calls_ok a cs -> run_in_order bloom0 newFile tick db w cs ->
  sim (abs_after a cs) (db_after db w cs).1 (db_after db w cs).2.
Proof.
  revert a db w. induction cs as [|c cs IH]; intros a db w Hsim; [done|].
  cbn [calls_ok run_in_order db_after]. intros [Hc Hcs] [Ho Hos].
  destruct (sim_step bloom0 newFile tick bloom0_ok newFile_empty tick_later a db w c Hsim Hc Ho)
    as (db' & w' & Hstep & Hsim'). rewrite Hstep in *. by apply IH.
Qed.

(** Without the order of the tables, and whether the directory holds anything else. *)
Lemma rough_after cs a db w :
  rough a db w -> calls_ok a cs ->
  rough (abs_after a cs) (db_after db w cs).1 (db_after db w cs).2
  /\ (clean db w -> clean (db_after db w cs).1 (db_after db w cs).2).
Proof.
  revert a db w. induction cs as [|c cs IH]; intros a db w Hro; [done|].
  cbn [calls_ok db_after]. intros [Hc Hcs].
  destruct (rough_step bloom0 newFile tick bloom0_ok newFile_empty tick_later a db w c Hro Hc)
    as (db' & w' & r & -> & Hro' & Hcl). destruct (IH _ _ _ Hro' Hcs) as [Hro2 Hcl2]. split; [done|auto].
Qed.

Lemma clean_after (newCache : C) (conf : Config) (fs : FS) (now : Z) (cs : list call) db :
  fresh_dir fs (SSTDir conf) -> cache_true ∅ newCache ->
  let w := mkWorld (<[SSTDir conf := Dir]> fs) now in
  db_Open newCache conf (mkFile [] 0) (mkWorld fs now) = (w, Ok db) -> calls_ok (mkAbs [] ∅) cs ->
  clean (db_after db w cs).1 (db_after db w cs).2.
Proof.
  intros Hf Hc w Ho Hok. destruct (sim_fresh newCache conf fs now Hf Hc) as (db' & Ho' & Hs).
  rewrite Ho in Ho'. injection Ho' as <-.
  destruct (rough_after cs _ db _ (sim_rough _ _ _ Hs) Hok) as [_ Hcl]. by eapply Hcl, clean_fresh.
Qed.

(** No call changes the configuration. *)
Lemma flush_conf db w : db_conf (flushMemtableLocked bloom0 newFile tick db w).1.1 = db_conf db.
Proof. unfold flushMemtableLocked. repeat case_match; simplify_eq/=; done. Qed.

Lemma flushIfFull_conf db w : db_conf (flushIfFullLocked bloom0 newFile tick db w).1.1 = db_conf db.
Proof. unfold flushIfFullLocked. case_if; [done|apply flush_conf]. Qed.

Lemma GetAt_conf db w k s : db_conf (GetAt db w k s).1 = db_conf db.
Proof.
  unfold GetAt. destruct (mt_Get _ _ _) as [? []]; try done.
  by destruct (searchSSTables _ _ _ _ (db_cache db)).
Qed.

Lemma db_step_conf db w c : db_conf (db_step bloom0 newFile tick db w c).1.1 = db_conf db.
Proof.
  destruct c; cbn [db_step].
  - unfold Put. destruct (MAX_KEY_LENGTH <? blen key); [done|].
    destruct (MAX_VALUE_LENGTH <? blen value); [done|]. cbn [encodeNextKey db_wal].
    destruct (wal_Put _ _ _) as [wal' [e|]]; [done|].
    match goal with |- context [flushIfFullLocked _ _ _ ?d w] =>
      pose proof (flushIfFull_conf d w) as Hf; destruct (flushIfFullLocked _ _ _ d w) as [[? ?] ?] end. exact Hf.
  - unfold Delete. destruct (MAX_KEY_LENGTH <? blen key); [done|]. cbn [encodeNextKey db_wal].
    destruct (wal_Delete _ _) as [wal' [e|]]; [done|].
    match goal with |- context [flushIfFullLocked _ _ _ ?d w] =>
      pose proof (flushIfFull_conf d w) as Hf; destruct (flushIfFullLocked _ _ _ d w) as [[? ?] ?] end. exact Hf.
  - unfold Get. pose proof (GetAt_conf db w key SeqNumMax) as Hf. by destruct (GetAt _ _ _ _).
  - pose proof (GetAt_conf db w key snapshot) as Hf. by destruct (GetAt _ _ _ _).
  - unfold scan_all. by destruct (cbind _ _ _).
  - unfold ForceFlush. pose proof (flush_conf db w) as Hf.
    destruct (flushMemtableLocked _ _ _ db w) as [[? ?] ?]. exact Hf.
  - done.
  - done.
Qed.

Lemma db_after_conf cs db w : db_conf (db_after db w cs).1 = db_conf db.
Proof.
  revert db w. induction cs as [|c cs IH]; intros db w; [done|]. cbn [db_after].
  pose proof (db_step_conf db w c) as Hc. destruct (db_step _ _ _ db w c) as [[db' w'] r].
  simpl in Hc. by rewrite IH.
Qed.

(** Reads never compact. *)
Lemma gets_in_order db w (ks : list bytes) : run_in_order bloom0 newFile tick db w (CGet <$> ks).
Proof.
  revert db. induction ks as [|k ks IH]; intros db; [done|]. split; [done|]. cbn [db_step].
  destruct (Get db w k) as [db' r]. apply IH.
Qed.

(** ** Properties kept along a run *)

(** Every flush of the call, or of the run, satisfies [Q]. *)
Definition call_where (Q : DB C -> World -> Prop) db w (c : call) : Prop :=
  match c with
  | CPut k v =>
      let db := write_state db k v InternalKeyKindSet in
      DEFAULT_MEMTABLE_FLUSH_SIZE <= mt_Size (db_mem db) -> Q db w
  | CDelete k =>
      let db := write_state db k [] InternalKeyKindDelete in
      DEFAULT_MEMTABLE_FLUSH_SIZE <= mt_Size (db_mem db) -> Q db w
  | CFlush => Q db w
  | _ => True
  end.

Fixpoint run_where (Q : DB C -> World -> Prop) db w (cs : list call) : Prop :=
  match cs with
  | [] => True
  | c :: cs' =>
      call_where Q db w c
      /\ let '(db', w', _) := db_step bloom0 newFile tick db w c in run_where Q db' w' cs'
  end.

Lemma run_where_impl (Q Q' : DB C -> World -> Prop) cs db w :
  (forall d v, Q d v -> Q' d v) -> run_where Q db w cs -> run_where Q' db w cs.
Proof.
  intros HQ. revert db w. induction cs as [|c cs IH]; intros db w; [done|]. cbn [run_where].
  intros [Hc Hcs]. split; [destruct c; simpl in *; auto|].
  destruct (db_step _ _ _ db w c) as [[db' w'] r]. auto.
Qed.

Lemma run_where_true cs db w : run_where (fun _ _ => True) db w cs.
Proof.
  revert db w. induction cs as [|c cs IH]; intros db w; [done|]. cbn [run_where]. split; [by destruct c|].
  by destruct (db_step _ _ _ db w c) as [[db' w'] r].
Qed.

(** The condition is decided by running the calls. *)
Definition call_whereb (Q : DB C -> World -> bool) db w (c : call) : bool :=
  match c with
  | CPut k v =>
      let db := write_state db k v InternalKeyKindSet in
      (mt_Size (db_mem db) <? DEFAULT_MEMTABLE_FLUSH_SIZE) || Q db w
  | CDelete k =>
      let db := write_state db k [] InternalKeyKindDelete in
      (mt_Size (db_mem db) <? DEFAULT_MEMTABLE_FLUSH_SIZE) || Q db w
  | CFlush => Q db w
  | _ => true
  end.

Fixpoint run_whereb (Q : DB C -> World -> bool) db w (cs : list call) : bool :=
  match cs with
  | [] => true
  | c :: cs' =>
      call_whereb Q db w c
      && let '(db', w', _) := db_step bloom0 newFile tick db w c in run_whereb Q db' w' cs'
  end.

Lemma run_whereb_ok (Q : DB C -> World -> bool) cs db w :
  run_whereb Q db w cs = true -> run_where (fun d v => Q d v = true) db w cs.
Proof.
  revert db w. induction cs as [|c cs IH]; intros db w; [done|]. cbn [run_where run_whereb].
  intros [Hc Hcs]%andb_prop. split.
  - destruct c; try done; simpl in *; intros Hge; by rewrite (proj2 (Z.ltb_ge _ _) Hge) in Hc.
  - destruct (db_step _ _ _ db w c) as [[db' w'] r]. auto.
Qed.

Lemma run_in_order_where cs db w :
  run_in_order bloom0 newFile tick db w cs <-> run_where (flush_in_order bloom0 newFile tick) db w cs.
Proof.
  revert db w. induction cs as [|c cs IH]; intros db w; [done|]. cbn [run_where run_in_order].
  assert (Hc : call_in_order bloom0 newFile tick db w c
    <-> call_where (flush_in_order bloom0 newFile tick) db w c) by (by destruct c).
  rewrite Hc. destruct (db_step _ _ _ db w c) as [[db' w'] r]. by rewrite IH.
Qed.

(** [I] holds between calls and [K] between the insertion of a write and its flush check. *)
Record keeps (Q I K : DB C -> World -> Prop) : Prop := {
  kp_weaken db w : I db w -> K db w;
  kp_write hist db w k v kind : db_shape hist db w -> I db w -> K (write_state db k v kind) w;
  kp_small db w : K db w -> mt_Size (db_mem db) < DEFAULT_MEMTABLE_FLUSH_SIZE -> I db w;
  kp_flush hist db w : db_shape hist db w -> Q db w -> K db w ->
    let '(db', w', _) := flushMemtableLocked bloom0 newFile tick db w in I db' w';
  kp_cache db w c : I db w -> I (set_cache db c) w;
  kp_wm db w wm : I db w -> I (set_wm db wm) w
}.

Section keeps.
Context (Q I K : DB C -> World -> Prop) (HI : keeps Q I K).

Lemma check_keeps hist db w :
  db_shape hist db w -> K db w ->
  (DEFAULT_MEMTABLE_FLUSH_SIZE <= mt_Size (db_mem db) -> Q db w) ->
  let '(db', w', _) := flushIfFullLocked bloom0 newFile tick db w in I db' w'.
Proof.
  intros Hinv Hk Hq. unfold flushIfFullLocked.
  destruct (Z.ltb_spec (mt_Size (db_mem db)) DEFAULT_MEMTABLE_FLUSH_SIZE) as [Hlt|Hge].
  - by apply (kp_small _ _ _ HI).
  - eapply (kp_flush _ _ _ HI); eauto.
Qed.

Lemma GetAt_keeps db w k s : I db w -> I (GetAt db w k s).1 w.
Proof.
  intros Hi. unfold GetAt. destruct (mt_Get _ _ _) as [? []]; try done.
  destruct (searchSSTables _ _ _ _ (db_cache db)). by apply (kp_cache _ _ _ HI).
Qed.

Lemma step_keeps a db w c :
  rough a db w -> call_ok a c -> call_where Q db w c -> I db w ->
  let '(db', w', _) := db_step bloom0 newFile tick db w c in I db' w'.
Proof.
  intros Hsim Hok Hq Hi. pose proof Hsim as [Hinv Hs _ _]. destruct c; simpl in Hok, Hq; cbn [db_step].
  - destruct (Z.ltb_spec MAX_KEY_LENGTH (blen key)) as [Hk|Hk];
      [unfold Put; by rewrite (proj2 (Z.ltb_lt _ _))|].
    destruct (Z.ltb_spec MAX_VALUE_LENGTH (blen value)) as [Hv|Hv];
      [unfold Put; by rewrite (proj2 (Z.ltb_ge _ _)), (proj2 (Z.ltb_lt _ _))|].
    rewrite (Put_eq bloom0 newFile tick _ db w key value Hinv) by (done || lia).
    destruct (write_state_shape _ db w key value InternalKeyKindSet Hinv) as [_ Hinv'];
      [lia|unfold InternalKeyKindSet; lia|done..|].
    pose proof (check_keeps _ _ w Hinv' (kp_write _ _ _ HI _ db w _ _ _ Hinv Hi) Hq) as Hc.
    by destruct (flushIfFullLocked _ _ _ _ w) as [[? ?] ?].
  - destruct (Z.ltb_spec MAX_KEY_LENGTH (blen key)) as [Hk|Hk];
      [unfold Delete; by rewrite (proj2 (Z.ltb_lt _ _))|].
    rewrite (Delete_eq bloom0 newFile tick _ db w key Hinv) by (done || lia).
    destruct (write_state_shape _ db w key [] InternalKeyKindDelete Hinv) as [_ Hinv'];
      [lia|unfold InternalKeyKindDelete; lia|done|by vm_compute|].
    pose proof (check_keeps _ _ w Hinv' (kp_write _ _ _ HI _ db w _ _ _ Hinv Hi) Hq) as Hc.
    by destruct (flushIfFullLocked _ _ _ _ w) as [[? ?] ?].
  - unfold Get. pose proof (GetAt_keeps db w key SeqNumMax Hi) as Hg. by destruct (GetAt _ _ _ _).
  - pose proof (GetAt_keeps db w key snapshot Hi) as Hg. by destruct (GetAt _ _ _ _).
  - unfold scan_all. destruct (cbind _ _ _). by apply (kp_cache _ _ _ HI).
  - unfold ForceFlush. pose proof (kp_flush _ _ _ HI _ db w Hinv Hq (kp_weaken _ _ _ HI _ _ Hi)) as Hf.
    by destruct (flushMemtableLocked _ _ _ db w) as [[? ?] ?].
  - by apply (kp_wm _ _ _ HI).
  - by apply (kp_wm _ _ _ HI).
Qed.

Lemma after_keeps cs a db w :
  rough a db w -> calls_ok a cs -> run_where Q db w cs ->
  I db w -> I (db_after db w cs).1 (db_after db w cs).2.
Proof.
  revert a db w. induction cs as [|c cs IH]; intros a db w Hro; [done|].
  cbn [calls_ok run_where db_after]. intros [Hc Hcs] [Hq Hqs] Hi.
  pose proof (step_keeps a db w c Hro Hc Hq Hi) as Hi'.
  destruct (rough_step bloom0 newFile tick bloom0_ok newFile_empty tick_later a db w c Hro Hc)
    as (db' & w' & r & Hstep & Hro' & _). rewrite Hstep in *. by apply (IH _ _ _ Hro').
Qed.
End keeps.
End runs.
