(* ===== verification/DbRecover.v ===== *)
(** * Restarting a database after a crash

    [db_Open] on the files a database has left: the log of which a crash has kept some
    prefix ([Wal.crash]) and the tables of the directory. The log is replayed into a new
    memtable, every table of the directory is opened again, newest name first, and the
    sequence number is the largest one found in either.

    The theorems: the reopened database is again related to the abstract database of
    [DbRefine], to the history without its last few writes; at most nine are lost in a crash
    ([recovery_keeps_synced_writes]), and none after a [Close] ([restart_after_Close]). A crash
    here falls between two calls ([DbFlushCrash] has those in the middle of a flush); the
    tables are synced before they are renamed into place and survive it.

    The names of the tables must order them newest first ([reopen_in_order]). That is an
    assumption here, because the file of a compaction is named by the time of the merge and
    not by the age of its records; [DbStamps] proves it for a class of runs. *)

From stdpp Require Import gmultiset sorting.
From S2P Require Import Prelude Config Base Mvcc Memtable Bloom Cache Bufio Wal Block Fs Sstable.
From S2P Require Import Decimal SstReader Store Compaction Db Heap Scan DbRefine DbRuns.

(** ** The largest sequence number *)

Lemma maxSeq_entries_spec m l :
  m <= maxSeq_entries m l
  /\ (forall e, e ∈ l -> seqn e <= maxSeq_entries m l)
  /\ (maxSeq_entries m l = m \/ exists e, e ∈ l /\ maxSeq_entries m l = seqn e).
Proof.
  unfold maxSeq_entries. revert m. induction l as [|x l IH]; intros m; cbn [foldl].
  { split; [done|]. split; [|by left]. intros e He. by apply elem_of_nil in He. }
  fold (ik x) (seqn x). destruct (Z.ltb_spec m (seqn x)) as [Hlt|Hge].
  - destruct (IH (seqn x)) as (Hm & Hall & Hex). split; [lia|]. split.
    + intros e [->|He]%elem_of_cons; [done|auto].
    + right. destruct Hex as [Heq|(e & He & Heq)]; [exists x|exists e]; (split; [|done]);
        [apply list_elem_of_here|by apply list_elem_of_further].
  - destruct (IH m) as (Hm & Hall & Hex). split; [done|]. split.
    + intros e [->|He]%elem_of_cons; [lia|auto].
    + destruct Hex as [?|(e & He & Heq)]; [by left|right]. exists e.
      split; [by apply list_elem_of_further|done].
Qed.

Lemma maxSeq_tables_ok fs truth tables m :
  Forall (good fs truth) tables ->
  maxSeq_tables fs m tables = Ok (maxSeq_entries m (all_recs fs tables)).
Proof.
  intros Hg. revert m. induction Hg as [|sst tables Hs _ IH]; intros m; [done|].
  cbn [maxSeq_tables]. destruct (good_recs _ _ _ Hs) as [-> _]. cbn [rbind]. rewrite IH.
  unfold all_recs, maxSeq_entries. rewrite fmap_cons. cbn [concat]. by rewrite foldl_app.
Qed.

(** ** The memtable *)

Section memtable.
Context `{BT : BTree kv Item_Less} {BL : BTreeLaws kv Item_Less}.

(** A deletion has no value. *)
Definition tombstone_ok (e : kv) : Prop := Kind (ik e) = InternalKeyKindDelete -> Value e = [].

Lemma rebuild_ok es mem m :
  mt_ok mem -> Forall wf_kv es -> Forall tombstone_ok es ->
  keys_nodup es -> (forall x e, x ∈ mt_items mem -> e ∈ es -> Key x <> Key e) ->
  exists mem', rebuild mem m es = (mem', maxSeq_entries m es) /\ mt_ok mem'
    /\ forall e, e ∈ mt_items mem' <-> e ∈ mt_items mem \/ e ∈ es.
Proof.
  revert mem m. induction es as [|e es IH]; intros mem m Hok Hwf Htomb Hnd Hdis.
  { exists mem. split; [done|]. split; [done|]. intros e. rewrite elem_of_nil. tauto. }
  apply Forall_cons_1 in Hwf as [Hwe Hwf]. apply Forall_cons_1 in Htomb as [Hte Htomb].
  unfold keys_nodup in Hnd. rewrite fmap_cons in Hnd. apply NoDup_cons in Hnd as [Hne Hnd].
  assert (He : mkKV (Key e) (Value e) = e) by (by destruct e). cbn [rebuild]. cbv zeta.
  replace (if Kind (DecodeInternalKey (Key e)) =? InternalKeyKindDelete
           then mt_Delete mem (Key e) else mt_Put mem (Key e) (Value e))
    with (mt_insert mem (Key e) (Value e)).
  2: { unfold mt_Delete, mt_Put. destruct (Z.eqb_spec (Kind (DecodeInternalKey (Key e))) InternalKeyKindDelete) as [Hk|]; [|done].
       by rewrite (Hte Hk). }
  assert (Hit : forall y, y ∈ mt_items (mt_insert mem (Key e) (Value e)) <-> y = e \/ y ∈ mt_items mem).
  { intros y. rewrite mt_insert_items; rewrite ?He; [apply elem_of_cons|done..|].
    intros x Hx. apply Hdis; [done|apply list_elem_of_here]. }
  destruct (IH (mt_insert mem (Key e) (Value e))
    (if m <? SeqNum (DecodeInternalKey (Key e)) then SeqNum (DecodeInternalKey (Key e)) else m))
    as (mem' & Hr & Hok' & Hin); [apply mt_insert_ok; by rewrite ?He|done..| |].
  - intros x y [->|Hx]%Hit Hy; [|apply Hdis; [done|by apply list_elem_of_further]].
    intros Hk. apply Hne. rewrite Hk. by apply list_elem_of_fmap_2.
  - exists mem'. split; [done|]. split; [done|]. intros y. rewrite Hin, Hit, elem_of_cons. tauto.
Qed.
End memtable.

(** ** The directory *)

Lemma name_in_path dir p name : name_in dir p = Some name -> p = dir ++ slash :: name.
Proof.
  unfold name_in. destruct (strip_prefix (dir ++ [slash]) p) as [n|] eqn:E; [|done].
  case_decide; [done|]. intros [= ->]. apply strip_prefix_Some in E. by rewrite <- app_assoc in E.
Qed.

Lemma listing_nodup dir (l : list (bytes * node)) :
  NoDup l.*1 ->
  NoDup (omap (fun '(path, n) => name ← name_in dir path; Some (name, n)) l).*1.
Proof.
  induction l as [|[p n] l IH]; [done|]. rewrite fmap_cons. intros [Hp Hnd]%NoDup_cons. simpl.
  destruct (name_in dir p) as [name|] eqn:E; simpl; [|by apply IH]. apply NoDup_cons.
  split; [|by apply IH]. intros ([name' n'] & Hn & Hin)%list_elem_of_fmap. simpl in Hn. subst name'.
  apply list_elem_of_omap in Hin as ([p' m] & Hin & Hm). apply Hp.
  destruct (name_in dir p') as [q|] eqn:E'; [|done]. injection Hm as -> ->.
  apply name_in_path in E, E'. subst p p'. by apply (list_elem_of_fmap_2 fst) in Hin.
Qed.

Lemma ReadDir_spec (fs : FS) dir :
  fs !! dir = Some Dir ->
  exists l, os_ReadDir fs dir = Ok l /\ NoDup l.*1
    /\ forall name n, (name, n) ∈ l <->
         fs !! (dir ++ slash :: name) = Some n /\ is_Some (name_in dir (dir ++ slash :: name)).
Proof.
  intros Hd. unfold os_ReadDir. rewrite Hd. eexists. split; [done|].
  split; [apply listing_nodup, NoDup_fst_map_to_list|]. intros name n. rewrite list_elem_of_omap. split.
  - intros ([p m] & Hp%elem_of_map_to_list & Hm). destruct (name_in dir p) as [q|] eqn:E; [|done].
    injection Hm as -> ->. pose proof (name_in_path _ _ _ E) as ->. by rewrite E.
  - intros [Hf [q Hq]]. exists (dir ++ slash :: name, n). split; [by apply elem_of_map_to_list|].
    rewrite Hq. simpl. apply name_in_path, app_inv_head in Hq. by injection Hq as ->.
Qed.

(** A table as [Open] returns it. *)
Definition reopened (sst : SSTable) : SSTable :=
  mkSST (FilePath sst) (sst_index sst) (sst_bloom sst) false.

Lemma reopened_SetCache sst : SetCache (reopened sst) = SetCache sst.
Proof. done. Qed.

Lemma good_Open fs truth sst :
  good fs truth sst -> blen (table_recs fs sst) < 2 ^ 30 ->
  Open fs (FilePath sst) = Ok (reopened sst).
Proof.
  intros (blocks & Ht & Hf & Hi & Hb) Hn. rewrite (table_recs_ok _ _ _ _ Ht) in Hn.
  rewrite (Open_layout fs (FilePath sst) blocks (sst_bloom sst)); [|done| |apply Ht|done].
  - unfold reopened. by rewrite Hi.
  - pose proof (blen_concat_blocks blocks Hb). lia.
Qed.

Lemma open_all_ok fs dir truth (tables : list SSTable) l :
  Forall (good fs truth) tables -> Forall (fun sst => blen (table_recs fs sst) < 2 ^ 30) tables ->
  (forall name n, (name, n) ∈ l -> exists sst d, sst ∈ tables /\ FilePath sst = dir ++ slash :: name
     /\ n = File d) ->
  exists ts, open_all fs dir l = Ok ts /\ FilePath <$> ts = (fun e => dir ++ slash :: e.1) <$> l
    /\ forall t, t ∈ ts -> exists sst, sst ∈ tables /\ t = reopened sst.
Proof.
  intros Hg Hn. induction l as [|[name n] l IH]; intros Hl.
  { exists []. split; [done|]. split; [done|]. intros t Ht. by apply elem_of_nil in Ht. }
  destruct (Hl name n) as (sst & d & Hs & Hp & ->); [apply list_elem_of_here|].
  destruct IH as (ts & Ho & Hps & Hts); [intros; by apply Hl, list_elem_of_further|].
  rewrite Forall_forall in Hg, Hn. cbn [open_all]. rewrite <- Hp, (good_Open fs truth sst) by auto.
  cbn [rbind]. rewrite Ho. cbn [rbind]. exists (reopened sst :: ts). split; [done|].
  rewrite !fmap_cons, Hps. split; [simpl; by rewrite <- Hp|].
  intros t [->|Ht]%elem_of_cons; [by exists sst|auto].
Qed.

(** Paths, the later name first. *)
Definition path_ge (p q : bytes) : Prop := bytes_Compare q p <= 0.

#[global] Instance path_ge_trans : Transitive path_ge.
Proof. intros a b c. apply flip, (cmp_le_trans bytes_Compare). Qed.

#[global] Instance path_ge_antisymm : AntiSymm (=) path_ge.
Proof.
  unfold path_ge. intros a b Hab Hba. rewrite (cmp_opp (f := bytes_Compare)) in Hab.
  apply (cmp_eq (f := bytes_Compare)). lia.
Qed.

#[global] Instance name_ge_trans : Transitive name_ge.
Proof. intros a b c. apply (path_ge_trans a.1). Qed.

#[global] Instance name_ge_total : Total name_ge.
Proof.
  intros a b. unfold name_ge. rewrite (cmp_opp (f := bytes_Compare) a.1 b.1). lia.
Qed.

(** The listing is read by descending path. *)
Lemma paths_sorted dir l :
  StronglySorted path_ge ((fun e : bytes * node => dir ++ slash :: e.1) <$> merge_sort name_ge l).
Proof.
  assert (Hs := StronglySorted_merge_sort name_ge l). revert Hs. generalize (merge_sort name_ge l).
  induction 1 as [|x k _ IH Hx]; [constructor|]. rewrite fmap_cons. constructor; [done|].
  apply Forall_fmap. eapply Forall_impl; [exact Hx|]. intros y Hy. simpl. unfold path_ge.
  change (slash :: y.1) with ([slash] ++ y.1). change (slash :: x.1) with ([slash] ++ x.1).
  by rewrite !bytes_Compare_app_l.
Qed.

Lemma nodup_fmap_inj {A B} (f : A -> B) (l : list A) x y :
  NoDup (f <$> l) -> x ∈ l -> y ∈ l -> f x = f y -> x = y.
Proof.
  intros Hnd [i Hi]%list_elem_of_lookup [j Hj]%list_elem_of_lookup Heq.
  assert (i = j) as ->; [|congruence].
  apply (NoDup_lookup (f <$> l) i j (f x)); [done|..]; rewrite list_lookup_fmap, ?Hi, ?Hj; simpl; congruence.
Qed.

(** The files of the directory are the tables [tables], each of them whole. *)
Record dir_ok (dir : bytes) (fs : FS) (truth : gmap bytes (list kv)) (tables : list SSTable) : Prop := {
  do_dir : fs !! dir = Some Dir;
  do_good : Forall (good fs truth) tables;
  do_paths : NoDup (FilePath <$> tables);
  do_in : Forall (fun sst => is_Some (name_in dir (FilePath sst))) tables;
  do_all : only_tables dir fs tables
}.

Lemma store_dir_ok dir fs truth now tables :
  store_ok dir fs truth now tables -> only_tables dir fs tables -> dir_ok dir fs truth tables.
Proof. intros [[Hd _] Hg Hps _ _ Hin] Hdir. by split. Qed.

(** Opening such a directory finds the tables, the latest name first. *)
Lemma OpenAllInDir_ok dir fs truth tables :
  dir_ok dir fs truth tables ->
  Forall (fun sst => blen (table_recs fs sst) < 2 ^ 30) tables ->
  exists ts, OpenAllInDir fs dir = Ok ts /\ ts ≡ₚ reopened <$> tables
    /\ StronglySorted path_ge (FilePath <$> ts).
Proof.
  intros [Hd Hg Hps Hin Hdir] Hn.
  destruct (ReadDir_spec fs dir Hd) as (l & Hl & Hnd & Hspec). unfold OpenAllInDir. rewrite Hl. cbn [rbind].
  rewrite Forall_forall in Hin.
  destruct (open_all_ok fs dir truth tables (merge_sort name_ge l) Hg Hn) as (ts & -> & Hpaths & Hts).
  { intros name n. rewrite merge_sort_Permutation. intros [Hf Hi]%Hspec.
    destruct (proj1 (list_elem_of_fmap _ _ _) (Hdir _ Hi (mk_is_Some _ _ Hf))) as (sst & Hp & Hs).
    rewrite Forall_forall in Hg. destruct (good_file _ _ _ (Hg sst Hs)) as [d Hdat].
    exists sst, d. split; [done|]. split; [done|]. rewrite <- Hp in Hdat. congruence. }
  exists ts. split; [done|]. split; [|rewrite Hpaths; apply paths_sorted].
  apply NoDup_Permutation.
  - apply (NoDup_fmap_1 FilePath). rewrite Hpaths. rewrite (merge_sort_Permutation name_ge l).
    change (NoDup (((fun p : bytes => dir ++ slash :: p) ∘ (fst (B := node))) <$> l)).
    rewrite list_fmap_compose.
    apply NoDup_fmap_2; [|done]. intros x y Hxy%app_inv_head. congruence.
  - apply (NoDup_fmap_1 FilePath). by rewrite <- list_fmap_compose.
  - intros t. split; [intros (s & Hs & ->)%Hts; by apply list_elem_of_fmap_2|].
    intros (s & -> & Hs)%list_elem_of_fmap. destruct (Hin s Hs) as [name Hname].
    pose proof (name_in_path _ _ _ Hname) as Hp. rewrite Forall_forall in Hg.
    destruct (good_file _ _ _ (Hg s Hs)) as [d Hdat].
    assert (Hent : (name, File d) ∈ l) by (apply Hspec; rewrite <- Hp; eauto).
    assert (Hpt : FilePath s ∈ FilePath <$> ts).
    { rewrite Hpaths, (merge_sort_Permutation name_ge l), Hp.
      by apply (list_elem_of_fmap_2 (fun e : bytes * node => dir ++ slash :: e.1)) in Hent. }
    apply list_elem_of_fmap in Hpt as (t & Hpt & Ht). destruct (Hts t Ht) as (s' & Hs' & ->).
    by rewrite (nodup_fmap_inj FilePath tables s s' Hps Hs Hs' Hpt).
Qed.

(** ** The store *)

Lemma store_ok_perm dir fs truth now (tables tables' : list SSTable) :
  tables' ≡ₚ tables -> store_ok dir fs truth now tables -> store_ok dir fs truth now tables'.
Proof.
  intros Hp [Hc Hg Hps Hnd Hsm Hin].
  assert (Hr : all_recs fs tables' ≡ₚ all_recs fs tables) by (by apply concat_perm, fmap_Permutation).
  split; [done|by rewrite Hp..|unfold keys_nodup; by rewrite Hr|by rewrite Hr|by rewrite Hp].
Qed.

(** When everything is visible, the newest version does not depend on the snapshot. *)
Lemma newest_all_visible k s s' (l : list kv) :
  (forall e, e ∈ l -> seqn e <= s /\ seqn e <= s') -> newest k s l = newest k s' l.
Proof.
  induction l as [|x l IH]; intros Hl; [done|]. cbn [newest].
  rewrite IH by (intros e He; by apply Hl, list_elem_of_further).
  replace (visible_in k s x) with (visible_in k s' x); [done|].
  destruct (Hl x) as [H1 H2]; [apply list_elem_of_here|]. apply eq_iff_eq_true.
  rewrite !visible_in_true. tauto.
Qed.

(** ** The history *)

Lemma hist_of_drop n log : hist_of (drop n log) = drop n (hist_of log).
Proof. revert n. induction log as [|x log IH]; intros [|n]; simpl; try done. Qed.

Lemma hist_of_elem log e :
  Forall write_ok log -> blen log <= SeqNumMax -> e ∈ hist_of log ->
  wf_kv e /\ tombstone_ok e /\ 0 < seqn e <= blen log.
Proof.
  induction 1 as [|wr log Hw Hws IH]; intros Hl He; [by apply elem_of_nil in He|].
  rewrite blen_cons in *. pose proof (blen_nonneg log). cbn [hist_of] in He.
  apply elem_of_cons in He as [->|He].
  - rewrite blen_cons. destruct (write_rec_facts (1 + blen log) wr) as (Hwf & _ & -> & Hres); [lia|done|].
    split; [done|]. split; [|lia]. intros Hk. unfold read_result in Hres. rewrite Hk in Hres. simpl in Hres.
    unfold write_rec. by rewrite <- Hres.
  - destruct (IH ltac:(lia) He) as (? & ? & ?). split; [done|]. split; [done|lia].
Qed.

(** The last write has the largest sequence number, and answers the reads of its key. *)
Lemma hist_of_head wr log :
  Forall write_ok (wr :: log) -> blen (wr :: log) <= SeqNumMax ->
  seqn (write_rec (blen (wr :: log)) wr) = blen (wr :: log)
  /\ newest wr.1 SeqNumMax (hist_of (wr :: log)) = Some (write_rec (blen (wr :: log)) wr).
Proof.
  intros [Hw Hws]%Forall_cons_1 Hl. assert (Hl' := Hl). rewrite blen_cons in Hl'. pose proof (blen_nonneg log).
  destruct (write_rec_facts (blen (wr :: log)) wr) as (Hwf & Hu & Hn & _); [rewrite blen_cons; lia|done|].
  split; [done|]. cbn [hist_of]. set (e := write_rec _ _) in *. apply newest_cons_hit.
  - apply visible_in_true. by rewrite Hn.
  - intros a b ->%list_elem_of_singleton Hb _. pose proof (hist_of_bound log b Hws ltac:(lia) Hb).
    assert (trl b < trl e); [apply seqn_lt_trl|lia]. rewrite Hn, blen_cons. lia.
Qed.

Lemma hist_of_nodup log :
  Forall write_ok log -> blen log <= SeqNumMax -> keys_nodup (hist_of log).
Proof.
  induction 1 as [|wr log Hw Hws IH]; intros Hl; [constructor|].
  assert (Hl' := Hl). rewrite blen_cons in Hl'. pose proof (blen_nonneg log).
  destruct (hist_of_head wr log) as [Hn _]; [by constructor|done|].
  unfold keys_nodup. cbn [hist_of]. rewrite fmap_cons. apply NoDup_cons. split; [|apply IH; lia].
  intros (x & Hk & Hx)%list_elem_of_fmap. pose proof (hist_of_bound log x Hws ltac:(lia) Hx).
  assert (seqn x = blen (wr :: log)); [|rewrite blen_cons in *; lia].
  rewrite <- Hn. unfold seqn, ik. by rewrite Hk.
Qed.

(** What is left when the last entries of the log are lost. *)
Lemma drop_lost {A} (es old : list A) n :
  drop (length es - n) (reverse es ++ old) = reverse (take n es) ++ old.
Proof.
  rewrite <- (take_drop n es) at 2. rewrite reverse_app, <- app_assoc.
  apply drop_app_length'. rewrite length_reverse, length_drop. lia.
Qed.

(** The sequence number found on a restart is the number of writes that survived. *)
Lemma recovered_seq log es old recs :
  Forall write_ok log -> blen log <= SeqNumMax -> hist_of log = reverse es ++ old ->
  (forall e, e ∈ recs -> e ∈ old) -> (forall k, newest k SeqNumMax recs = newest k SeqNumMax old) ->
  Z.max (maxSeq_entries 0 es) (maxSeq_entries 0 recs) = blen log.
Proof.
  intros Hok Hl Hh Hsub Hread.
  destruct (maxSeq_entries_spec 0 es) as (Hm1 & Hall1 & Hex1).
  destruct (maxSeq_entries_spec 0 recs) as (Hm2 & Hall2 & Hex2).
  assert (Hb : forall e, e ∈ reverse es ++ old -> seqn e <= blen log).
  { rewrite <- Hh. intros e He. by apply (hist_of_elem log e Hok Hl). }
  assert (Hle : maxSeq_entries 0 es <= blen log /\ maxSeq_entries 0 recs <= blen log).
  { pose proof (blen_nonneg log). split.
    - destruct Hex1 as [->|(e & He & ->)]; [done|]. apply Hb, elem_of_app. left. by rewrite elem_of_reverse.
    - destruct Hex2 as [->|(e & He & ->)]; [done|]. apply Hb, elem_of_app. right. auto. }
  destruct log as [|wr log]; [change (blen (@nil write)) with 0 in *; lia|].
  destruct (hist_of_head wr log Hok Hl) as [Hn Hnew].
  set (e := write_rec (blen (wr :: log)) wr) in *.
  assert (Hhd : hist_of (wr :: log) = e :: hist_of log) by done.
  destruct (reverse es) as [|x l] eqn:Hrev.
  - rewrite Hh, app_nil_l, <- Hread in Hnew. apply newest_Some in Hnew as (He & _).
    specialize (Hall2 e He). lia.
  - rewrite Hhd in Hh. injection Hh as Hx _. assert (He : e ∈ es).
    { rewrite <- elem_of_reverse, Hrev, Hx. apply list_elem_of_here. }
    specialize (Hall1 e He). lia.
Qed.

(** ** Reopening *)

Section recover.
Context `{BT : BTree kv Item_Less} {BL : BTreeLaws kv Item_Less}.
Context {C : Type} `{CL : CacherLaws (list kv) C}.
Implicit Types (db : DB C) (w : World).

(** The names of the tables order them newest first. *)
Definition reopen_in_order (fs : FS) (dir : bytes) : Prop :=
  forall ts, OpenAllInDir fs dir = Ok ts -> by_recency (table_recs fs <$> ts).

(** No table has so many records that the counts in its footer overflow. *)
Definition tables_small (fs : FS) (tables : list SSTable) : Prop :=
  Forall (fun sst => blen (table_recs fs sst) < 2 ^ 30) tables.

Lemma reopen_store dir fs truth now tables :
  store_ok dir fs truth now tables -> only_tables dir fs tables -> tables_small fs tables -> reopen_in_order fs dir ->
  exists ts, OpenAllInDir fs dir = Ok ts /\ store_ok dir fs truth now (SetCache <$> ts)
    /\ by_recency (table_recs fs <$> (SetCache <$> ts))
    /\ all_recs fs (SetCache <$> ts) ≡ₚ all_recs fs tables
    /\ maxSeqNumInTables fs (SetCache <$> ts)
       = Ok (maxSeq_entries 0 (all_recs fs (SetCache <$> ts))).
Proof.
  intros Hst Hdir Hsm Hord. destruct (OpenAllInDir_ok dir fs truth tables (store_dir_ok _ _ _ _ _ Hst Hdir) Hsm) as (ts & Ho & Hp & _).
  assert (Hps : SetCache <$> ts ≡ₚ SetCache <$> tables).
  { rewrite Hp, <- list_fmap_compose. by apply Permutation_refl'. }
  assert (Hst' : store_ok dir fs truth now (SetCache <$> ts)).
  { eapply store_ok_perm; [exact Hps|]. by apply store_ok_SetCache. }
  exists ts. split; [done|]. split; [done|]. split; [|split].
  - rewrite SetCache_recs. by apply Hord.
  - unfold all_recs. rewrite SetCache_recs, <- (SetCache_recs fs tables).
    apply concat_perm. rewrite <- (SetCache_recs fs ts). by apply fmap_Permutation.
  - apply (maxSeq_tables_ok fs truth). apply Hst'.
Qed.

(** What the database knows of its history when it is opened again. *)
Lemma recovered_reads hist es old db w recs s k :
  db_inv hist db w -> logged hist es old db w -> recs ≡ₚ all_recs (w_fs w) (db_tables db) ->
  (forall e, e ∈ old -> seqn e <= s) -> s <= SeqNumMax -> newest k s recs = newest k s old.
Proof.
  intros Hinv [_ _ _ _ Hsub Hread] Hp Hb Hs. destruct (di_truth _ _ _ Hinv) as (truth & Hst & _).
  pose proof (di_seq _ _ _ Hinv) as Hsq.
  assert (Hvis : forall l, (forall e, e ∈ l -> e ∈ old) -> newest k s l = newest k SeqNumMax l).
  { intros l Hl. apply newest_all_visible. intros e He. specialize (Hb e (Hl e He)). lia. }
  rewrite (Hvis old), <- (Hread k SeqNumMax) by (done || (left; lia)).
  rewrite (Hvis recs) by (intros e; rewrite Hp; auto). symmetry. apply newest_perm.
  - eapply good_all_wf, Hst.
  - apply keys_nodup_coherent, Hst.
  - intros e. by rewrite Hp.
Qed.

Lemma recovered_inv a es old db w n wal mem tables conf newCache :
  sim a db w -> logged (hist_of (a_log a)) es old db w -> db_conf db = conf ->
  let a' := mkAbs (drop (length es - n) (a_log a)) ∅ in
  wal_inv wal (take n es) -> mt_ok mem -> (forall e, e ∈ mt_items mem <-> e ∈ take n es) ->
  (forall truth, store_ok (SSTDir conf) (w_fs w) truth (w_now w) (db_tables db) ->
     store_ok (SSTDir conf) (w_fs w) truth (w_now w) tables /\ cache_true truth newCache) ->
  by_recency (table_recs (w_fs w) <$> tables) ->
  all_recs (w_fs w) tables ≡ₚ all_recs (w_fs w) (db_tables db) ->
  sim a' (mkDB wal mem tables conf newCache (a_seq a') NewWatermark) w.
Proof.
  intros Hsim Hlog <- a' Hw Hmem Hitems Hst Hrec Hp. pose proof Hsim as [Hinv Hq _ Hok].
  pose proof Hinv as [(truth & Hst0 & _) Hm0 Hms Hrec0 Hnd Hsq _ _ _].
  assert (Hlen : blen (a_log a') <= blen (a_log a)).
  { unfold a', blen. cbn [a_log]. rewrite length_drop. lia. }
  assert (Hok' : Forall write_ok (a_log a')) by (by apply Forall_drop).
  assert (Hh : hist_of (a_log a') = reverse (take n es) ++ old).
  { unfold a'. cbn [a_log]. rewrite hist_of_drop, (lg_hist _ _ _ _ _ Hlog). apply drop_lost. }
  assert (Hbound : forall e, e ∈ reverse (take n es) ++ old -> seqn e <= a_seq a').
  { rewrite <- Hh. intros e He. apply (hist_of_elem (a_log a') e); [done|unfold a_seq in *; lia|done]. }
  assert (Hsub : forall e, e ∈ mt_items mem -> e ∈ mt_items (db_mem db)).
  { intros e He%Hitems. apply (lg_mem _ _ _ _ _ Hlog).
    rewrite <- (take_drop n es). apply elem_of_app. by left. }
  rewrite stored_split in Hnd. apply keys_nodup_app in Hnd as (_ & Hd & Hnd2).
  assert (Hin : forall e, e ∈ all_recs (w_fs w) tables -> e ∈ old).
  { intros e. rewrite Hp. apply (lg_tables _ _ _ _ _ Hlog). }
  split; [|done|intros s; unfold refcount; simpl; by rewrite lookup_empty|done].
  split; rewrite ?stored_split; cbn [db_mem db_tables db_conf db_cache db_seq db_wm db_wal]; try done.
  - exists truth. by apply Hst.
  - rewrite Forall_forall in Hms |- *. auto.
  - inversion_clear Hrec0 as [|? ? Hnt _]. constructor; [|done]. cbn [db_tables db_mem].
    apply newer_than_concat in Hnt. apply newer_than_concat. intros x y Hx Hy. apply Hnt; [auto|].
    change (y ∈ all_recs (w_fs w) (db_tables db)). by rewrite <- Hp.
  - apply keys_nodup_app. split; [apply elt_nodup, mt_items_elt, Hmem|]. split.
    + intros x y Hx Hy. apply Hd; [auto|by rewrite <- Hp].
    + unfold keys_nodup. by rewrite Hp.
  - pose proof (blen_nonneg (a_log a')). unfold a_seq in *. lia.
  - intros e [He|He]%elem_of_app; apply Hbound, elem_of_app; [left|right; auto].
    by rewrite elem_of_reverse, <- Hitems.
  - intros s [x Hx]. change ((∅ : gmap Z Z) !! s = Some x) in Hx. by rewrite lookup_empty in Hx.
  - exists (take n es), old. split; try done.
    + apply Forall_take, Hlog.
    + intros k s [Hs|[x Hx]]; [|change ((∅ : gmap Z Z) !! s = Some x) in Hx; by rewrite lookup_empty in Hx].
      apply (recovered_reads (hist_of (a_log a)) es old db w); try done; [|apply Hs].
      intros e He. etrans; [apply Hbound, elem_of_app; by right|apply Hs].
Qed.

(** The log holds each record of the memtable once. *)
Lemma logged_nodup a es old db w :
  sim a db w -> logged (hist_of (a_log a)) es old db w -> keys_nodup es.
Proof.
  intros [Hinv Hq _ Hok] Hlog. pose proof (di_seq _ _ _ Hinv).
  pose proof (hist_of_nodup (a_log a) Hok ltac:(unfold a_seq in Hq; lia)) as Hn.
  rewrite (lg_hist _ _ _ _ _ Hlog) in Hn. apply keys_nodup_app in Hn as (Hn & _).
  unfold keys_nodup in Hn. by rewrite (reverse_Permutation es) in Hn.
Qed.

Lemma logged_length a es old db w :
  sim a db w -> logged (hist_of (a_log a)) es old db w -> length es = length (mt_items (db_mem db)).
Proof.
  intros Hsim Hlog. apply Permutation_length, NoDup_Permutation.
  - apply (NoDup_fmap_1 Key). by eapply logged_nodup.
  - apply (NoDup_fmap_1 Key). apply elt_nodup, mt_items_elt, (di_mem _ _ _ (sim_inv _ _ _ Hsim)).
  - apply Hlog.
Qed.

(** Opening a database on what is left of another one. *)
Lemma recover_ok (newCache : C) a es old db w f' n :
  sim a db w -> clean db w -> logged (hist_of (a_log a)) es old db w ->
  fsynced f' = length (fdata f') ->
  (replay (fdata f')).1 = take n es -> replayed (fdata f') = log (take n es) ->
  tables_small (w_fs w) (db_tables db) -> reopen_in_order (w_fs w) (SSTDir (db_conf db)) ->
  (forall truth, cache_true truth newCache) ->
  exists db', db_Open newCache (db_conf db) f' w = (w, Ok db')
    /\ sim (mkAbs (drop (length es - n) (a_log a)) ∅) db' w.
Proof.
  intros Hsim Hcl Hlog Hfs Hr Hrd Hsm Hord Hcache. pose proof Hsim as [Hinv Hq _ Hok].
  pose proof Hinv as [(truth & Hst & _) _ _ _ _ Hsq _ _ _].
  assert (Hmk : os_MkdirAll (w_fs w) (SSTDir (db_conf db)) = (w_fs w, None)).
  { destruct Hst as [[Hd _] _ _ _ _ _]. unfold os_MkdirAll. rewrite Hd. by rewrite insert_id. }
  assert (Hes : forall e, e ∈ es -> e ∈ hist_of (a_log a)).
  { intros e He. rewrite (lg_hist _ _ _ _ _ Hlog), elem_of_app, elem_of_reverse. by left. }
  assert (Hlen : blen (a_log a) <= SeqNumMax) by (unfold a_seq in Hq; lia).
  assert (Hfacts : forall e, e ∈ take n es -> wf_kv e /\ tombstone_ok e /\ 0 < seqn e <= blen (a_log a)).
  { intros e He. apply (hist_of_elem (a_log a) e Hok Hlen), Hes. rewrite <- (take_drop n es).
    apply elem_of_app. by left. }
  assert (Hnd : keys_nodup (take n es)).
  { eapply sublist_NoDup; [exact (logged_nodup a es old db w Hsim Hlog)|]. apply fmap_sublist, sublist_take. }
  destruct (rebuild_ok (take n es) NewMemTable 0) as (mem & Hreb & Hmok & Hitems);
    [apply NewMemTable_ok|apply Forall_forall; intros; by apply Hfacts..|done| |].
  { rewrite mt_items_New. intros x e Hx. by apply elem_of_nil in Hx. }
  destruct (reopen_store _ _ truth _ _ Hst Hcl Hsm Hord) as (ts & Ho & _ & Hrec & Hp & Hmax).
  unfold db_Open. rewrite Hmk. unfold rebuildMemtable. rewrite wal_Replay_Open, Hr, Hrd, Hreb by done.
  cbv beta iota zeta. rewrite Ho. cbn [rbind]. rewrite Hmax. cbn [rbind].
  eexists. split; [by destruct w|].
  rewrite (recovered_seq (drop (length es - n) (a_log a)) (take n es) old).
  - apply (recovered_inv a es old db w n _ mem (SetCache <$> ts) (db_conf db) newCache); try done.
    + apply wal_Open_log_inv.
    + intros e. rewrite Hitems, mt_items_New, elem_of_nil. tauto.
    + intros truth' Hst'. split; [|done].
      destruct (reopen_store _ _ truth' _ _ Hst' Hcl Hsm Hord) as (ts' & Ho' & Hst2 & _). congruence.
  - by apply Forall_drop.
  - unfold blen in *. rewrite length_drop. lia.
  - rewrite hist_of_drop, (lg_hist _ _ _ _ _ Hlog). apply drop_lost.
  - intros e. rewrite Hp. apply Hlog.
  - intros k. apply (recovered_reads (hist_of (a_log a)) es old db w); try done.
    intros e He. destruct (hist_of_elem (a_log a) e Hok Hlen) as (_ & _ & ?); [|lia].
    rewrite (lg_hist _ _ _ _ _ Hlog). apply elem_of_app. by right.
Qed.

(** The log of a running database: what a crash and what a [Close] leave of it. *)
Lemma crash_synced (f f' : os_File) : crash f f' -> fsynced f' = length (fdata f').
Proof. intros (m & Hm & ->). simpl. rewrite length_take. lia. Qed.

Lemma length_log_take k es : (length (log (take k es)) <= length (log es))%nat.
Proof. rewrite <- (take_drop k es) at 2. rewrite log_app, length_app. lia. Qed.

Lemma Close_ok a db w :
  sim a db w ->
  exists db', Close db = (db', None) /\ sim a db' w
    /\ db_conf db' = db_conf db /\ db_tables db' = db_tables db
    /\ exists es old, logged (hist_of (a_log a)) es old db' w
       /\ fdata (bw_wr (BufWriter (db_wal db'))) = log es
       /\ fsynced (bw_wr (BufWriter (db_wal db'))) = length (log es).
Proof.
  intros [Hinv Hq Hp Hok]. destruct (di_log _ _ _ Hinv) as (es & old & Hlog).
  pose proof (lg_wal _ _ _ _ _ Hlog) as (E & Hs & Hc & _).
  destruct (wal_Sync_inv (db_wal db) es E Hs) as (wal' & Hsync & E' & Hs' & Hpc & Hd & Hf).
  unfold Close. rewrite Hsync. eexists. split; [done|].
  assert (Hw' : wal_inv wal' es).
  { split; [done|]. split; [done|]. split; [by rewrite Hpc|]. rewrite Hf, Hd.
    split; [apply length_log_take|done]. }
  assert (Hlog' : logged (hist_of (a_log a)) es old (mkDB wal' (db_mem db) (db_tables db)
    (db_conf db) (db_cache db) (db_seq db) (db_wm db)) w) by (destruct Hlog; by split).
  split; [|split; [done|split; [done|by exists es, old]]].
  split; [|done..]. destruct Hinv as [? ? ? ? ? ? ? ? _]. split; try done. by exists es, old.
Qed.

(** Nothing is lost when the log was closed. *)
Lemma restart_after_Close (newCache : C) a db w :
  sim a db w -> clean db w -> tables_small (w_fs w) (db_tables db) ->
  reopen_in_order (w_fs w) (SSTDir (db_conf db)) -> (forall truth, cache_true truth newCache) ->
  exists db' db2, Close db = (db', None)
    /\ db_Open newCache (db_conf db) (bw_wr (BufWriter (db_wal db'))) w = (w, Ok db2)
    /\ sim (mkAbs (a_log a) ∅) db2 w.
Proof.
  intros Hsim Hclean Hsm Hro Hc.
  destruct (Close_ok _ db w Hsim) as (db' & Hcl & Hsim' & Hconf & Htab & es & old & Hlog & Hd & Hfs).
  assert (Hclean' : clean db' w) by (unfold clean; by rewrite Hconf, Htab).
  rewrite <- Hconf in Hro |- *. rewrite <- Htab in Hsm.
  destruct (replay_log_all es (lg_entries _ _ _ _ _ Hlog)) as [Hr Hrd].
  destruct (recover_ok newCache a es old db' w (bw_wr (BufWriter (db_wal db'))) (length es) Hsim' Hclean' Hlog)
    as (db2 & Ho2 & Hsim2); rewrite ?Hd, ?Hr, ?Hrd, ?firstn_all; try done.
  exists db', db2. split; [done|]. split; [done|]. by rewrite Nat.sub_diag in Hsim2.
Qed.

Section runs.
Context {W : Type} `{WL : WriterLaws W} {HR : Reliable W}.
Context (bloom0 : BloomFilter) (newFile : bytes -> W) (tick : Z -> Z).

Context (bloom0_ok : bloom_ok bloom0) (newFile_empty : forall p, on_file (newFile p) = [])
  (tick_later : forall t, t < tick t).

(** C4: recovery. Run any calls on a new database whose compactions merge neighbouring tables
    only ([run_in_order]) and which leave a directory where the file names order the tables
    newest first ([reopen_in_order]: [restart_keeps_table_order] says when, and
    [restart_returns_overwritten_value] what happens otherwise), and let it crash between two
    calls, so that the log file keeps any part that contains what was synced. Opening a
    database on that file and the table directory succeeds, and it is as if the last few
    writes, at most nine and only such as no flush has written to a table, had never been made:
    every further sequence of calls with neighbouring compactions is answered as the abstract
    database answers it from the surviving writes. No older write is lost, no write is
    recovered without the ones before it, and no deleted or overwritten value comes back.
    Assumed moreover: fewer than 2^56 writes, snapshots that are held ([calls_ok]), and no
    table of 2^30 records ([tables_small]). *)
Theorem recovery_keeps_synced_writes (newCache : C) (conf : Config) (fs : FS) (now : Z)
    (cs : list call) (f' : os_File) :
  fresh_dir fs (SSTDir conf) -> (forall truth, cache_true truth newCache) ->
  exists w db, db_Open newCache conf (mkFile [] 0) (mkWorld fs now) = (w, Ok db)
    /\ (calls_ok (mkAbs [] ∅) cs -> run_in_order bloom0 newFile tick db w cs ->
        let '(db1, w1) := db_after bloom0 newFile tick db w cs in
        let log1 := a_log (abs_after (mkAbs [] ∅) cs) in
        crash (bw_wr (BufWriter (db_wal db1))) f' ->
        tables_small (w_fs w1) (db_tables db1) ->
        reopen_in_order (w_fs w1) (SSTDir (db_conf db1)) ->
        exists lost db2, (lost <= 9)%nat /\ (lost <= length (mt_items (db_mem db1)))%nat
          /\ db_Open newCache (db_conf db1) f' w1 = (w1, Ok db2)
          /\ forall cs', calls_ok (mkAbs (drop lost log1) ∅) cs' ->
               run_in_order bloom0 newFile tick db2 w1 cs' ->
               db_run bloom0 newFile tick db2 w1 cs' = abs_run (mkAbs (drop lost log1) ∅) cs').
Proof.
  intros Hf Hc. destruct (sim_fresh newCache conf fs now Hf (Hc ∅)) as (db & Ho & Hs).
  eexists _, db. split; [exact Ho|]. intros Hok Hord.
  pose proof (sim_after bloom0 newFile tick bloom0_ok newFile_empty tick_later cs _ _ _ Hs Hok Hord) as Hsim.
  pose proof (clean_after bloom0 newFile tick bloom0_ok newFile_empty tick_later newCache conf fs now cs db Hf (Hc ∅) Ho Hok) as Hcl.
  destruct (db_after _ _ _ db _ cs) as [db1 w1]. cbn [fst snd] in Hsim, Hcl. intros log1 Hcr Hsm Hro.
  destruct (di_log _ _ _ (sim_inv _ _ _ Hsim)) as (es & old & Hlog).
  destruct (wal_inv_crash _ es f' (lg_entries _ _ _ _ _ Hlog) (lg_wal _ _ _ _ _ Hlog) Hcr)
    as (n & Hn & Hr & Hrd).
  destruct (recover_ok newCache _ es old db1 w1 f' n Hsim Hcl Hlog (crash_synced _ _ Hcr) Hr Hrd Hsm Hro Hc)
    as (db2 & Ho2 & Hsim2).
  exists (length es - n)%nat, db2.
  split; [|split; [rewrite <- (logged_length _ es old db1 w1 Hsim Hlog); lia|split; [done|]]].
  - destruct (lg_wal _ _ _ _ _ Hlog) as (_ & _ & Hpc & _). unfold DEFAULT_SYNC_THRESHOLD in Hpc. lia.
  - intros cs' Hok' Hord'. by apply sim_run.
Qed.

End runs.
End recover.

(** *** A database with one flushed write and one that is still in the log *)

Definition demo_conf : Config := mkConfig (bytes_of "wal") demo_dir.
Definition demo_cache : ShardedLRU (list kv) := NewShardedLRU 2 4.

Definition demo_before : list call :=
  [CPut (bytes_of "a") (bytes_of "1"); CFlush; CPut (bytes_of "b") (bytes_of "2")].

(** The conditions of a restart, for a state with one table and an unsynced log. *)
Definition demo_restart (db : DB (ShardedLRU (list kv))) (w : World) : bool :=
  (fsynced (bw_wr (BufWriter (db_wal db))) =? 0)%nat
  && (length (mt_items (db_mem db)) =? 1)%nat
  && forallb (fun sst => blen (table_recs (w_fs w) sst) <? 2 ^ 30) (db_tables db)
  && match OpenAllInDir (w_fs w) (SSTDir (db_conf db)) with Ok [_] => true | _ => false end.

Lemma demo_restart_ok db w :
  demo_restart db w = true ->
  crash (bw_wr (BufWriter (db_wal db))) (mkFile [] 0) /\ length (mt_items (db_mem db)) = 1%nat
  /\ tables_small (w_fs w) (db_tables db) /\ reopen_in_order (w_fs w) (SSTDir (db_conf db)).
Proof.
  unfold demo_restart. intros [[[Hs Hm]%andb_prop Ht]%andb_prop Ho]%andb_prop.
  apply Nat.eqb_eq in Hs, Hm. split; [exists 0%nat; split; [lia|done]|]. split; [done|]. split.
  - apply Forall_forall. intros sst Hin. rewrite forallb_forall in Ht. apply Z.ltb_lt, Ht.
    by apply list_elem_of_In.
  - intros ts Hts. rewrite Hts in Ho. destruct ts as [|t [|]]; try done. apply by_recency_single.
Qed.

Definition demo_restarts : bool :=
  match db_Open demo_cache demo_conf (mkFile [] 0) (mkWorld ∅ 0) with
  | (w, Ok db) =>
      run_few demo_bloom new_file Z.succ db w demo_before
      && let '(db1, w1) := db_after demo_bloom new_file Z.succ db w demo_before in
         demo_restart db1 w1
  | _ => false
  end.

Lemma demo_fresh : fresh_dir ∅ (SSTDir demo_conf).
Proof. split; [intros p [x Hx]; by rewrite lookup_empty in Hx|intros d Hd; by rewrite lookup_empty in Hd]. Qed.

Lemma demo_calls_ok : calls_ok (mkAbs [] ∅) demo_before.
Proof. repeat (split; [first [exact I|reflexivity]|]). exact I. Qed.

Lemma recovery_keeps_synced_writes_witness :
  exists w db db1 w1 db2,
    db_Open demo_cache demo_conf (mkFile [] 0) (mkWorld ∅ 0) = (w, Ok db)
    /\ db_after demo_bloom new_file Z.succ db w demo_before = (db1, w1)
    /\ db_Open demo_cache (db_conf db1) (mkFile [] 0) w1 = (w1, Ok db2)
    /\ db_run demo_bloom new_file Z.succ db2 w1 (CGet <$> [bytes_of "a"])
       = [RValue (Ok (Some (bytes_of "1")))].
Proof.
  destruct (recovery_keeps_synced_writes (C := ShardedLRU (list kv)) (WL := os_File_WriterLaws)
    demo_bloom new_file Z.succ demo_bloom_ok (fun _ => eq_refl) (fun t => Z.lt_succ_diag_r t)
    demo_cache demo_conf ∅ 0 demo_before (mkFile [] 0) demo_fresh) as (w & db & Ho & Hrun).
  { intros truth. apply new_cache_true. lia. }
  assert (Hd : demo_restarts = true) by (vm_compute; reflexivity).
  unfold demo_restarts in Hd. rewrite Ho in Hd. apply andb_prop in Hd as [Hfew Hd].
  specialize (Hrun demo_calls_ok (run_few_in_order _ _ _ _ _ _ Hfew)).
  destruct (db_after _ _ _ db w demo_before) as [db1 w1] eqn:Ha.
  apply demo_restart_ok in Hd as (Hcr & Hm & Hsm & Hord).
  destruct (Hrun Hcr Hsm Hord) as (lost & db2 & _ & Hl & Ho2 & Hrun2).
  exists w, db, db1, w1, db2. split; [done|]. split; [done|]. split; [done|].
  rewrite (Hrun2 (CGet <$> [bytes_of "a"])); [|by split|apply gets_in_order].
  rewrite Hm in Hl. destruct lost as [|[|lost]]; [vm_compute; reflexivity..|lia].
Defined.
