(* ===== verification/DbStamps.v ===== *)
(** * The names of the table files and the order of a restart

    A table file is named by the clock when it was written, and [OpenAllInDir] lists the
    tables by descending name. A database lists its tables newest first, so the two orders
    agree as long as the stamps of its tables descend. A flush adds the latest stamp at the
    front. A compaction keeps the order when it merges nothing but the group of the newest
    table: the merged table takes the front place and a later stamp ([front_only]). When it
    merges an older group, that group's table gets the latest stamp and the orders differ.

    [restart_keeps_table_order]: after any run whose compactions are of the first kind, a
    restart opens the tables in exactly the order they had. This discharges the assumption
    [DbRecover.reopen_in_order] for those runs. *)

From stdpp Require Import gmultiset sorting.
From S2P Require Import Prelude Config Base Mvcc Memtable Bloom Cache Bufio Wal Block Fs Decimal Sstable.
From S2P Require Import SstReader Store Compaction Db Heap Scan DbRefine DbRuns DbRecover.

(** ** Stamps and paths *)

Lemma sst_path_ge dir lo hi s t :
  same_decade lo hi -> lo <= s -> s < t -> t <= hi -> path_ge (sst_path dir t) (sst_path dir s).
Proof.
  intros Hd Hs Hst Ht. destruct (fmt_d_lt lo hi s t Hd Hs Hst Ht) as [Hlt Hlen]. unfold path_ge, sst_path.
  change (slash :: ?x) with ([slash] ++ x). rewrite !bytes_Compare_app_l.
  pose proof (bytes_Compare_app_lt _ _ dot_sst dot_sst Hlen Hlt). lia.
Qed.

(** Descending stamps give descending names while their number of digits is the same. *)
Lemma stamps_sorted dir lo hi (ts : list Z) :
  same_decade (lo + 1) hi -> Forall (fun t => lo < t <= hi) ts -> StronglySorted Z.gt ts ->
  StronglySorted path_ge (sst_path dir <$> ts).
Proof.
  intros Hd Hb. induction 1 as [|t ts _ IH Ht]; [constructor|]. apply Forall_cons_1 in Hb as [Hbt Hb].
  rewrite fmap_cons. constructor; [by apply IH|]. apply Forall_fmap, Forall_forall. intros s Hs. simpl.
  rewrite Forall_forall in Ht, Hb. specialize (Ht s Hs). specialize (Hb s Hs).
  apply (sst_path_ge dir (lo + 1) hi); [done|lia..].
Qed.

(** Two listings of the same tables by descending path are the same. *)
Lemma listing_unique (l k : list SSTable) :
  l ≡ₚ k -> NoDup (FilePath <$> k) ->
  StronglySorted path_ge (FilePath <$> l) -> StronglySorted path_ge (FilePath <$> k) -> l = k.
Proof.
  intros Hp Hnd Hl Hk.
  assert (Hs : forall m : list SSTable, StronglySorted path_ge (FilePath <$> m) ->
    StronglySorted (fun a b => path_ge (FilePath a) (FilePath b)) m).
  { induction m as [|x m IH]; [constructor|]. rewrite fmap_cons. intros Hm. inversion_clear Hm as [|? ? Hm' Hx].
    constructor; [by apply IH|]. exact (proj1 (Forall_fmap _ _ _) Hx). }
  eapply (StronglySorted_unique_strong (fun a b => path_ge (FilePath a) (FilePath b))); [|by apply Hs..|done].
  intros x y Hx Hy Hxy Hyx. rewrite Hp in Hx. apply (nodup_fmap_inj FilePath k x y Hnd Hx Hy).
  by apply (anti_symm path_ge).
Qed.

(** ** The tables after a compaction of the first group *)

(** Groups of one table stay as they are. *)
Lemma keep_results dir fs fs' now floor gs (tss : list (list SSTable)) :
  Forall2 (group_result dir fs fs' now floor) gs tss -> Forall (fun g => blen g < 2) gs -> tss = gs.
Proof.
  induction 1 as [|g ts gs' tss' Hg _ IH]; [done|]. intros [Hlt Hlts]%Forall_cons_1.
  unfold group_result in Hg. rewrite (proj2 (Z.ltb_lt _ _) Hlt) in Hg. by rewrite Hg, IH.
Qed.

Lemma front_result dir fs fs' now floor gs (tss : list (list SSTable)) :
  Forall2 (group_result dir fs fs' now floor) gs tss -> Forall (fun g => blen g < 2) (tail gs) ->
  concat tss = concat gs
  \/ exists sst t n, concat tss = sst :: drop n (concat gs) /\ now < t /\ FilePath sst = sst_path dir t.
Proof.
  destruct 1 as [|g ts gs tss Hg Hr]; [by left|]. cbn [tail]. intros Htl.
  rewrite (keep_results _ _ _ _ _ _ _ Hr Htl).
  unfold group_result in Hg. destruct (blen g <? 2); [left; by rewrite Hg|right].
  destruct Hg as (sst & t & -> & Ht & Hp & _). exists sst, t, (length g). split; [|done].
  cbn [concat]. by rewrite drop_app_length.
Qed.

Lemma StronglySorted_drop {A} (R : A -> A -> Prop) n l : StronglySorted R l -> StronglySorted R (drop n l).
Proof.
  revert n. induction l as [|x l IH]; intros [|n] Hs; try done.
  simpl. apply IH. by inversion_clear Hs.
Qed.

(** New stamps are later than the old ones. *)
Lemma stamps_step lo now now' t n (ts ts' : list Z) :
  lo <= now < now' -> Forall (fun t => lo < t <= now) ts -> StronglySorted Z.gt ts ->
  ts' = now' :: ts \/ now' < t /\ ts' = t :: drop n (now' :: ts) ->
  StronglySorted Z.gt ts' /\ Forall (fun t => lo < t) ts'.
Proof.
  intros Hnow Hb Hs Hcase. rewrite Forall_forall in Hb.
  assert (Hs1 : StronglySorted Z.gt (now' :: ts)).
  { constructor; [done|]. apply Forall_forall. intros x Hx%Hb. lia. }
  assert (Hb1 : forall x, x ∈ now' :: ts -> lo < x <= now') by (intros x [->|Hx%Hb]%elem_of_cons; lia).
  destruct Hcase as [->|[Ht ->]].
  - split; [done|]. apply Forall_forall. intros x Hx%Hb1. lia.
  - assert (Hd : forall x, x ∈ drop n (now' :: ts) -> lo < x <= now').
    { intros x Hx. apply Hb1. by apply (subseteq_drop n). }
    split; [constructor; [by apply StronglySorted_drop|]|constructor; [lia|]];
      apply Forall_forall; intros x Hx%Hd; lia.
Qed.

(** No table is stamped later than the clock. *)
Lemma stamps_past dir fs truth now tables ts :
  clock_ok dir fs truth now -> Forall (good fs truth) tables ->
  FilePath <$> tables = sst_path dir <$> ts -> Forall (fun t => t <= now) ts.
Proof.
  intros Hc Hg Hts. apply Forall_forall. intros t Ht. apply (list_elem_of_fmap_2 (sst_path dir)) in Ht.
  rewrite <- Hts in Ht. apply list_elem_of_fmap in Ht as (sst & Hp & Hs). apply Z.nlt_ge. intros Hlt.
  rewrite Forall_forall in Hg. by apply (good_ne_fresh dir fs truth now sst t Hc (Hg sst Hs) Hlt).
Qed.

(** A directory whose tables carry descending stamps is opened in their order. *)
Lemma reopen_listing dir fs truth tables lo hi ts :
  dir_ok dir fs truth tables -> tables_small fs tables ->
  FilePath <$> tables = sst_path dir <$> ts -> StronglySorted Z.gt ts ->
  Forall (fun t => lo < t <= hi) ts -> same_decade (lo + 1) hi ->
  OpenAllInDir fs dir = Ok (reopened <$> tables).
Proof.
  intros Hdir Hsm Hts Hsort Hb Hd. destruct (OpenAllInDir_ok _ _ _ _ Hdir Hsm) as (ts' & Ho & Hp & Hs).
  assert (Hpaths : FilePath <$> (reopened <$> tables) = FilePath <$> tables) by (by rewrite <- list_fmap_compose).
  rewrite (listing_unique ts' (reopened <$> tables)) in Ho; [|done|..|done|]; rewrite ?Hpaths; [done|apply Hdir|].
  rewrite Hts. by apply (stamps_sorted _ lo hi).
Qed.

Section stamps.
Context `{BT : BTree kv Item_Less} {BL : BTreeLaws kv Item_Less}.
Context {C : Type} `{CL : CacherLaws (list kv) C}.
Context {W : Type} `{WL : WriterLaws W} {HR : Reliable W}.
Context (bloom0 : BloomFilter) (newFile : bytes -> W) (tick : Z -> Z).
Implicit Types (db : DB C) (w : World).

(** The compaction of this flush, if there is one, merges at most the group of the newest
    table, and that group is the front of the list. *)
Definition front_only db w : bool :=
  match Flush bloom0 (w_fs w) (tick (w_now w)) newFile (db_mem db) (SSTDir (db_conf db)) with
  | (fs', Ok sst) =>
      let tables := SetCache sst :: db_tables db in
      let groups := groupBySimilarSize fs' tables in
      (blen tables <? DEFAULT_COMPACTION_THRESHOLD)
      || (bool_decide (concat groups = tables)
          && forallb (fun g => blen g <? 2) (tail groups))
  | _ => true
  end.

(** The tables carry descending stamps of the clock since [lo]. *)
Definition stamped (lo : Z) db w : Prop :=
  lo <= w_now w /\ exists ts, FilePath <$> db_tables db = sst_path (SSTDir (db_conf db)) <$> ts
    /\ StronglySorted Z.gt ts /\ Forall (fun t => lo < t <= w_now w) ts.

Lemma front_only_spec db w fs' sst :
  front_only db w = true ->
  Flush bloom0 (w_fs w) (tick (w_now w)) newFile (db_mem db) (SSTDir (db_conf db)) = (fs', Ok sst) ->
  DEFAULT_COMPACTION_THRESHOLD <= blen (SetCache sst :: db_tables db) ->
  let groups := groupBySimilarSize fs' (SetCache sst :: db_tables db) in
  concat groups = SetCache sst :: db_tables db /\ Forall (fun g => blen g < 2) (tail groups).
Proof.
  unfold front_only. intros Hf Hfl Hge. rewrite Hfl in Hf. rewrite (proj2 (Z.ltb_ge _ _) Hge) in Hf. simpl in Hf.
  apply andb_prop in Hf as [Hc%bool_decide_eq_true Hf]. split; [done|].
  apply Forall_forall. intros g Hg. rewrite forallb_forall in Hf. apply Z.ltb_lt, Hf.
  by apply list_elem_of_In.
Qed.

Lemma front_only_in_order db w : front_only db w = true -> flush_in_order bloom0 newFile tick db w.
Proof. intros Hf fs' sst Hfl Hge. by apply (front_only_spec db w fs' sst). Qed.

Context (bloom0_ok : bloom_ok bloom0) (newFile_empty : forall p, on_file (newFile p) = [])
  (tick_later : forall t, t < tick t).

(** Where the stamps after a flush come from. *)
Lemma flush_stamps db w tables' now' ts :
  front_only db w = true -> flush_paths bloom0 newFile tick db w tables' now' ->
  FilePath <$> db_tables db = sst_path (SSTDir (db_conf db)) <$> ts ->
  exists n t ts', FilePath <$> tables' = sst_path (SSTDir (db_conf db)) <$> ts'
    /\ (ts' = tick (w_now w) :: ts \/ tick (w_now w) < t /\ ts' = t :: drop n (tick (w_now w) :: ts)).
Proof.
  intros Hf (fs1 & sst & Hfl & Hp & _ & Hfew & Hmany) Hts. set (now := tick (w_now w)) in *.
  set (dir := SSTDir (db_conf db)) in *.
  assert (Ht : FilePath <$> SetCache sst :: db_tables db = sst_path dir <$> now :: ts).
  { rewrite !fmap_cons, Hts. by rewrite <- Hp. }
  destruct (Z.lt_ge_cases (blen (SetCache sst :: db_tables db)) DEFAULT_COMPACTION_THRESHOLD) as [Hlt|Hge].
  { exists 0%nat, 0, (now :: ts). rewrite Hfew by done. split; [done|by left]. }
  destruct (Hmany Hge) as (fs2 & tss & -> & Hres).
  destruct (front_only_spec db w fs1 sst Hf Hfl Hge) as [Hcat Htail].
  destruct (front_result _ _ _ _ _ _ _ Hres Htail) as [->|(s & t & n & -> & Hlt & Hs)]; rewrite Hcat.
  - exists 0%nat, 0, (now :: ts). split; [done|by left].
  - exists n, t, (t :: drop n (now :: ts)). split; [|by right].
    by rewrite (fmap_cons FilePath), (fmap_cons (sst_path dir)), Hs, !fmap_drop, Ht.
Qed.

Lemma stamped_keeps lo :
  keeps bloom0 newFile tick (fun db w => front_only db w = true) (stamped lo) (stamped lo).
Proof.
  split; try done. intros hist db w Hinv Hf (Hlo & ts & Hts & Hsort & Hb).
  destruct (ds_truth _ _ _ Hinv) as (truth & Hst & _).
  destruct (flush_succeeds bloom0 newFile tick bloom0_ok newFile_empty tick_later hist db w Hinv) as (db' & w' & Hfl).
  destruct (flush_tables_shape bloom0 newFile tick bloom0_ok newFile_empty tick_later hist db w truth db' w' Hinv Hst Hfl)
    as (truth' & tables' & Hdb & _ & Hst' & _ & _ & Hpaths & _). rewrite Hfl. subst db'.
  destruct (flush_stamps db w tables' (w_now w') ts Hf Hpaths Hts) as (n & t & ts' & Hts' & Hcase).
  pose proof (tick_later (w_now w)) as Htick.
  destruct (stamps_step lo (w_now w) (tick (w_now w)) t n ts ts') as [Hsort' Hb']; [lia|done..|].
  destruct Hpaths as (_ & _ & _ & _ & Hnow & _).
  split; [simpl; lia|]. exists ts'. split; [done|]. split; [done|].
  apply Forall_and. split; [done|]. apply (stamps_past _ _ _ _ _ _ (so_clock _ _ _ _ _ Hst') (so_good _ _ _ _ _ Hst') Hts').
Qed.

(** A restart lists stamped tables as the database does. *)
Lemma reopen_stamped hist lo db w :
  db_inv hist db w -> clean db w -> stamped lo db w -> same_decade (lo + 1) (w_now w) ->
  tables_small (w_fs w) (db_tables db) ->
  OpenAllInDir (w_fs w) (SSTDir (db_conf db)) = Ok (reopened <$> db_tables db)
  /\ reopen_in_order (w_fs w) (SSTDir (db_conf db)).
Proof.
  intros Hinv Hcl (_ & ts & Hts & Hsort & Hb) Hd Hsm. destruct (di_truth _ _ _ Hinv) as (truth & Hst & _).
  assert (Ho : OpenAllInDir (w_fs w) (SSTDir (db_conf db)) = Ok (reopened <$> db_tables db)).
  { by eapply (reopen_listing _ _ truth _ lo (w_now w) ts); [eapply store_dir_ok|..]. }
  split; [done|]. intros l. rewrite Ho. intros [= <-]. rewrite <- list_fmap_compose.
  pose proof (di_recency _ _ _ Hinv) as Hrec. by inversion_clear Hrec.
Qed.

(** After a run of such flushes from a new database the tables are stamped in order. *)
Lemma stamped_after (newCache : C) (conf : Config) (fs : FS) (now : Z) (cs : list call) db :
  fresh_dir fs (SSTDir conf) -> cache_true ∅ newCache ->
  let w := mkWorld (<[SSTDir conf := Dir]> fs) now in
  db_Open newCache conf (mkFile [] 0) (mkWorld fs now) = (w, Ok db) ->
  calls_ok (mkAbs [] ∅) cs ->
  run_where bloom0 newFile tick (fun db w => front_only db w = true) db w cs ->
  let r := db_after bloom0 newFile tick db w cs in
  sim (abs_after (mkAbs [] ∅) cs) r.1 r.2 /\ clean r.1 r.2 /\ stamped now r.1 r.2.
Proof.
  intros Hf Hc w Ho Hok Hfront r. destruct (sim_fresh newCache conf fs now Hf Hc) as (db' & Ho' & Hs).
  unfold w in *. rewrite Ho in Ho'. injection Ho' as <-.
  assert (Hord := run_where_impl bloom0 newFile tick _ _ cs db _ front_only_in_order Hfront).
  apply run_in_order_where in Hord.
  split; [by apply (sim_after bloom0 newFile tick)|]. split; [by apply (clean_after bloom0 newFile tick bloom0_ok newFile_empty tick_later newCache conf fs now)|].
  apply (after_keeps bloom0 newFile tick bloom0_ok newFile_empty tick_later _ _ _ (stamped_keeps now) cs _ db _
    (sim_rough _ _ _ Hs) Hok Hfront).
  rewrite Open_fresh in Ho by done. injection Ho as <-. split; [done|]. exists [].
  split; [done|]. split; constructor.
Qed.

(** C8: the order of a restart. Run any calls on a new database, such that every compaction
    merges at most the group of the newest table. A restart then opens exactly the tables of
    the database in exactly the order it searches them, newest first, although it knows them
    by their file names only; so the order that recovery needs is given. Assumed: no table
    has 2^30 records, and the clock has not gained a digit since the database was new. *)
Theorem restart_keeps_table_order (newCache : C) (conf : Config) (fs : FS) (now : Z) (cs : list call) :
  fresh_dir fs (SSTDir conf) -> cache_true ∅ newCache ->
  exists w db, db_Open newCache conf (mkFile [] 0) (mkWorld fs now) = (w, Ok db)
    /\ (calls_ok (mkAbs [] ∅) cs ->
        run_where bloom0 newFile tick (fun db w => front_only db w = true) db w cs ->
        let '(db1, w1) := db_after bloom0 newFile tick db w cs in
        tables_small (w_fs w1) (db_tables db1) -> same_decade (now + 1) (w_now w1) ->
        OpenAllInDir (w_fs w1) (SSTDir (db_conf db1)) = Ok (reopened <$> db_tables db1)
        /\ reopen_in_order (w_fs w1) (SSTDir (db_conf db1))).
Proof.
  intros Hf Hc. destruct (sim_fresh newCache conf fs now Hf Hc) as (db & Ho & Hs).
  eexists _, db. split; [exact Ho|]. intros Hok Hfront.
  destruct (stamped_after newCache conf fs now cs db Hf Hc Ho Hok Hfront) as (Hsim & Hcl & Hst).
  destruct (db_after _ _ _ db _ cs) as [db1 w1]. cbn [fst snd] in *. intros Hsm Hd.
  by apply (reopen_stamped _ now db1 w1 (sim_inv _ _ _ Hsim) Hcl).
Qed.
End stamps.

(** *** Four flushes, their compaction, and one more flush *)

Definition demo_stamps : list call :=
  concat ((fun k => [CPut (bytes_of k) (bytes_of "1"); CFlush]) <$> ["a"; "b"; "c"; "d"; "e"]%string).

Definition demo_in_front : bool :=
  match db_Open demo_cache demo_conf (mkFile [] 0) (mkWorld ∅ 0) with
  | (w, Ok db) =>
      run_whereb demo_bloom new_file Z.succ (front_only demo_bloom new_file Z.succ) db w demo_stamps
      && let '(db1, w1) := db_after demo_bloom new_file Z.succ db w demo_stamps in
         forallb (fun sst => blen (table_recs (w_fs w1) sst) <? 2 ^ 30) (db_tables db1)
         && (w_now w1 =? 6) && bool_decide (FilePath <$> db_tables db1 = sst_path demo_dir <$> [6; 5])
  | _ => false
  end.

Lemma restart_keeps_table_order_witness :
  exists w db db1 w1,
    db_Open demo_cache demo_conf (mkFile [] 0) (mkWorld ∅ 0) = (w, Ok db)
    /\ db_after demo_bloom new_file Z.succ db w demo_stamps = (db1, w1)
    /\ FilePath <$> db_tables db1 = sst_path demo_dir <$> [6; 5]
    /\ OpenAllInDir (w_fs w1) (SSTDir (db_conf db1)) = Ok (reopened <$> db_tables db1).
Proof.
  destruct (restart_keeps_table_order (C := ShardedLRU (list kv)) (WL := os_File_WriterLaws)
    demo_bloom new_file Z.succ demo_bloom_ok (fun _ => eq_refl) (fun t => Z.lt_succ_diag_r t)
    demo_cache demo_conf ∅ 0 demo_stamps demo_fresh) as (w & db & Ho & Hrun).
  { apply new_cache_true. lia. }
  assert (Hd : demo_in_front = true) by (vm_compute; reflexivity).
  unfold demo_in_front in Hd. rewrite Ho in Hd. apply andb_prop in Hd as [Hq Hd].
  specialize (Hrun ltac:(repeat (split; [first [exact I|reflexivity]|]); exact I) (run_whereb_ok _ _ _ _ _ _ _ Hq)).
  destruct (db_after _ _ _ db w demo_stamps) as [db1 w1] eqn:Ha.
  apply andb_prop in Hd as [[Hsm Hnow%Z.eqb_eq]%andb_prop Hps%bool_decide_eq_true].
  destruct Hrun as [Hopen _].
  - apply Forall_forall. intros sst Hin. rewrite forallb_forall in Hsm. apply Z.ltb_lt, Hsm.
    by apply list_elem_of_In.
  - rewrite Hnow. exists 0%nat. split; vm_compute; [discriminate|reflexivity].
  - exists w, db, db1, w1. by repeat split.
Defined.

(** *** A compaction of old tables, and a restart *)




