(* ===== verification/DbFlushCrash.v ===== *)
(** * A crash in the middle of a flush

    [flushMemtableLocked] installs the new table, resets the log, writes the merged tables of
    a compaction one after the other, and removes the files they replace one after the other.
    [flush_point] lists the states between these steps: what a crash there leaves of the log
    and of the table directory; [crash_point] adds the states in which a temporary file is
    there, because a table is being written: from those the next start is refused, as long as
    the file has no footer.

    After the log has been reset, or when it still has all its records, a restart from each of
    these states answers every read with the last value put: tables that are there twice, old
    and merged, do no harm ([flush_crash_loses_nothing]). Between the installation and the
    reset, a log that has lost its unsynced end is replayed to older versions than the new
    table holds, and those are found first ([flush_crash_hides_newer_write]). *)

From stdpp Require Import gmultiset sorting.
From S2P Require Import Prelude Config Base Mvcc Memtable Bloom Cache Bufio Wal Block Fs Decimal Sstable.
From S2P Require Import SstReader Store Compaction Db Heap Scan DbRefine DbRuns DbRecover DbStamps.

(** ** Searching levels of which some are there twice *)

Lemma search_levels_app k s l1 l2 :
  search_levels k s (l1 ++ l2)
  = match search_levels k s l1 with Some e => Some e | None => search_levels k s l2 end.
Proof. induction l1 as [|l l1 IH]; [done|]. simpl. by destruct (newest k s l). Qed.

Lemma search_levels_Some k s ls e : search_levels k s ls = Some e -> e ∈ concat ls.
Proof.
  induction ls as [|l ls IH]; [done|]. simpl. rewrite elem_of_app.
  destruct (newest k s l) as [x|] eqn:E; [intros [= ->]; left; by destruct (newest_Some _ _ _ _ E)|auto].
Qed.

(** No level of a list without a visible version answers. *)
Lemma search_levels_None k s (ls ls' : list (list kv)) :
  newest k s (concat ls) = None -> (forall l, l ∈ ls' -> l ∈ ls) -> search_levels k s ls' = None.
Proof.
  rewrite newest_None. intros Hn Hsub. destruct (search_levels k s ls') as [e|] eqn:E; [|done].
  assert (Hv : exists l, l ∈ ls' /\ newest k s l = Some e).
  { clear -E. induction ls' as [|l ls' IH]; [done|]. simpl in E.
    destruct (newest k s l) as [x|] eqn:En.
    - injection E as ->. exists l. split; [apply list_elem_of_here|done].
    - destruct (IH E) as (l' & Hl & Hx). exists l'. split; [by apply list_elem_of_further|done]. }
  destruct Hv as (l & Hl%Hsub & (He & Hvis & _)%newest_Some). rewrite Hn in Hvis; [done|].
  apply list_elem_of_In, in_concat. exists l. split; by apply list_elem_of_In.
Qed.

(** A level [m] that reads as the levels [g] do, in front of some of them. *)
Lemma search_merged k s (g g' rest : list (list kv)) (m : list kv) :
  by_recency (g ++ rest) -> newest k s m = newest k s (concat g) -> (forall l, l ∈ g' -> l ∈ g) ->
  search_levels k s (m :: g' ++ rest) = newest k s (concat (g ++ rest)).
Proof.
  intros Hrec Hm Hsub. rewrite <- search_levels_newest by done. cbn [search_levels]. rewrite Hm, !search_levels_app.
  apply by_recency_app in Hrec as (Hrg & _ & _). rewrite <- (search_levels_newest k s g Hrg).
  destruct (search_levels k s g) eqn:E; [done|]. rewrite search_levels_newest in E by done.
  by rewrite (search_levels_None k s g g').
Qed.

(** Fewer records, but still the newest one. *)
Lemma newest_between k s (l l' : list kv) :
  Forall wf_kv l -> coherent l -> (forall e, e ∈ l' -> e ∈ l) ->
  (forall e, newest k s l = Some e -> e ∈ l') -> newest k s l' = newest k s l.
Proof.
  intros Hwf Hco Hsub Hin. destruct (newest k s l) as [e|] eqn:E.
  - destruct (newest_Some _ _ _ _ E) as (He & Hv & Hmax). apply newest_intro; auto.
    + rewrite Forall_forall in *. auto.
    + intros a b Ha Hb. apply Hco; auto.
  - apply newest_None. rewrite newest_None in E. auto.
Qed.

(** ** Stamps of some of the tables *)

Lemma sublist_stamps {A B C} (f : A -> C) (g : B -> C) (l l' : list A) (ts : list B) :
  l' `sublist_of` l -> f <$> l = g <$> ts -> exists ts', ts' `sublist_of` ts /\ f <$> l' = g <$> ts'.
Proof.
  intros Hs. revert ts. induction Hs as [|x l' l Hs IH|x l' l Hs IH]; intros ts Hts.
  - exists []. split; [apply sublist_nil_l|done].
  - destruct ts as [|t ts]; [done|]. rewrite !fmap_cons in Hts. injection Hts as Hx Hts.
    destruct (IH ts Hts) as (ts' & Hsub & Heq). exists (t :: ts'). rewrite !fmap_cons, Hx, Heq.
    split; [by constructor|done].
  - destruct ts as [|t ts]; [done|]. rewrite !fmap_cons in Hts. injection Hts as _ Hts.
    destruct (IH ts Hts) as (ts' & Hsub & Heq). exists ts'. split; [by constructor|done].
Qed.

Lemma StronglySorted_sublist {A} (R : A -> A -> Prop) (l l' : list A) :
  l' `sublist_of` l -> StronglySorted R l -> StronglySorted R l'.
Proof.
  induction 1 as [|x l' l Hs IH|x l' l Hs IH]; intros Hl; [done|..]; inversion_clear Hl as [|? ? Hl' Hx]; [|auto].
  constructor; [auto|]. rewrite Forall_forall in *. intros y Hy. apply Hx. by eapply elem_of_sublist.
Qed.

(** ** The states of a compaction *)

Section points.
Context {W : Type} `{WL : WriterLaws W} (bloom0 : BloomFilter) (newFile : bytes -> W) (tick : Z -> Z).

(** The directory and the clock before the first merge, after the first [n] groups, and after
    the first [n] tables have been visited for removal. *)
Inductive compact_point (fs : FS) (now : Z) (tables : list SSTable) (dir : bytes) (floor : Z) : FS -> Z -> Prop :=
| CpStart : compact_point fs now tables dir floor fs now
| CpMerged n fs1 now1 res comp :
    DEFAULT_COMPACTION_THRESHOLD <= blen tables ->
    compact_groups bloom0 newFile tick fs now (take n (groupBySimilarSize fs tables)) dir floor [] ∅
      = (fs1, now1, Ok (res, comp)) ->
    compact_point fs now tables dir floor fs1 now1
| CpRemoved n fs1 now1 res comp fs2 :
    DEFAULT_COMPACTION_THRESHOLD <= blen tables ->
    compact_groups bloom0 newFile tick fs now (groupBySimilarSize fs tables) dir floor [] ∅
      = (fs1, now1, Ok (res, comp)) ->
    remove_compacted newFile fs1 (take n tables) comp = (fs2, None) ->
    compact_point fs now tables dir floor fs2 now1.
End points.

(** The new tables among the results of the first groups. *)
Definition merged (tables : list SSTable) (tss : list (list SSTable)) : list SSTable :=
  filter (fun s => FilePath s ∉ FilePath <$> tables) (concat tss).

(** The tables whose files are still there. *)
Definition remaining (fs : FS) (tables : list SSTable) : list SSTable :=
  filter (fun s => is_Some (fs !! FilePath s)) tables.

Section point_dir.
Context {W : Type} `{WL : WriterLaws W} (newFile : bytes -> W).
Context (dir : bytes) (fs fs1 fs2 : FS) (truth truth1 : gmap bytes (list kv)) (now now1 floor : Z).
Context (tables : list SSTable) (groups tss : list (list SSTable)) (comp : gset bytes) (n : nat).
Context (Hst : store_ok dir fs truth now tables) (Honly : only_tables dir fs tables) (Hgs : concat groups `sublist_of` tables).
Context (Hpost : groups_post dir fs truth now floor groups ∅ fs1 now1 truth1 tss comp).
Context (Hrem : remove_compacted newFile fs1 (take n tables) comp = (fs2, None)).

Lemma point_old s : s ∈ tables -> good fs1 truth1 s /\ table_recs fs1 s = table_recs fs s.
Proof.
  intros Hs. destruct Hst as [Hc Hg _ _ _ _], Hpost as [_ Hsub _ Ho _ _ _ _ _].
  rewrite Forall_forall in Hg. by apply (only_new_good dir fs fs1 truth truth1 now s Hc Ho Hsub), Hg.
Qed.

(** What the removals so far have changed. *)
Lemma point_removed :
  (forall p, fs1 !! p = None -> fs2 !! p = None)
  /\ (forall p, (p ∉ comp) \/ ~ (p ∈ FilePath <$> tables) -> fs2 !! p = fs1 !! p)
  /\ (forall p, is_Some (fs2 !! p) -> fs2 !! p = fs1 !! p).
Proof.
  pose proof (remove_compacted_at newFile (take n tables) fs1 comp) as Hat. rewrite Hrem in Hat.
  destruct Hat as (Hkeep & Hnone & Hgone).
  - eapply sublist_NoDup; [apply Hst|]. apply fmap_sublist, sublist_take.
  - intros s Hs. destruct (point_old s) as [Hg _]; [by apply (subseteq_take n)|]. by eapply good_file.
  - split; [done|]. split.
    + intros p Hp. apply Hkeep. intros [Hc Ht]. destruct Hp as [|Hp]; [done|]. apply Hp.
      apply list_elem_of_fmap in Ht as (s & -> & Hs). apply list_elem_of_fmap_2. by apply (subseteq_take n).
    + intros p [x Hx]. apply Hkeep. intros [Hc Ht]. rewrite (Hgone p Hc Ht) in Hx. done.
Qed.

Lemma point_merged s :
  s ∈ merged tables tss -> s ∈ concat tss /\ (FilePath s ∉ FilePath <$> tables)
    /\ good fs2 truth1 s /\ table_recs fs2 s = table_recs fs1 s
    /\ exists t, now < t /\ FilePath s = sst_path dir t.
Proof.
  intros [Hn Hs]%list_elem_of_filter. destruct Hpost as [_ _ _ _ Hg Hres _ _ _].
  destruct point_removed as (_ & Hkeep & _). split; [done|]. split; [done|].
  assert (Hgs1 : good fs1 truth1 s).
  { apply list_elem_of_In, in_concat in Hs as (ts & Hts & Hs). rewrite Forall_forall in Hg.
    specialize (Hg ts ltac:(by apply list_elem_of_In)). rewrite Forall_forall in Hg.
    apply Hg. by apply list_elem_of_In. }
  destruct (good_mono fs1 fs2 truth1 truth1 s) as [? ?]; [done|apply Hkeep; by right|done|].
  split; [done|]. split; [done|].
  destruct (group_results_paths dir _ _ _ _ _ _ s Hres Hs) as [Hp|?]; [|done].
  destruct Hn. apply list_elem_of_fmap in Hp as (s' & -> & Hs'). apply list_elem_of_fmap_2.
  by eapply elem_of_sublist.
Qed.

Lemma point_remaining s :
  s ∈ remaining fs2 tables -> s ∈ tables /\ good fs2 truth1 s /\ table_recs fs2 s = table_recs fs s.
Proof.
  intros [Hf Hs]%list_elem_of_filter. destruct (point_old s Hs) as [Hg <-].
  destruct point_removed as (_ & _ & Hkeep). split; [done|].
  apply (good_mono fs1 fs2 truth1 truth1); [done|by apply Hkeep|done].
Qed.

Lemma point_clock : clock_ok dir fs2 truth1 now1.
Proof.
  destruct point_removed as (Hnone & Hkeep & _). destruct Hpost as [_ _ Hc _ _ _ _ _ _].
  eapply clock_ok_removed; [exact Hc| |exact Hnone]. apply Hkeep. right.
  intros (s & Hp & Hs)%list_elem_of_fmap. destruct (point_old s Hs) as [(d & Hd)%good_file _], Hc as [Hd1 _].
  congruence.
Qed.

(** The directory holds the new tables and what remains of the old ones. *)
Lemma point_dir_ok : dir_ok dir fs2 truth1 (merged tables tss ++ remaining fs2 tables).
Proof.
  pose proof point_removed as (Hnone & _ & Hkeep). pose proof Hpost as [_ _ _ _ _ _ Hndp _ Hnew].
  split.
  - apply point_clock.
  - apply Forall_app. split; apply Forall_forall; intros s Hs; [by apply point_merged|by apply point_remaining].
  - rewrite fmap_app. apply NoDup_app. split; [|split].
    + eapply sublist_NoDup; [apply Hndp|apply fmap_sublist, sublist_filter].
      eapply sublist_NoDup; [apply Hst|by apply fmap_sublist].
    + intros p (s & -> & (_ & Hn & _)%point_merged)%list_elem_of_fmap (s' & Hp & Hs')%list_elem_of_fmap.
      apply Hn. rewrite Hp. apply list_elem_of_fmap_2. by apply point_remaining.
    + eapply sublist_NoDup; [apply Hst|apply fmap_sublist, sublist_filter].
  - apply Forall_app. split; apply Forall_forall; intros s Hs.
    + destruct (point_merged s Hs) as (_ & _ & _ & _ & t & _ & ->). by rewrite name_in_sst.
    + pose proof (so_in _ _ _ _ _ Hst) as Hin. rewrite Forall_forall in Hin. by apply Hin, point_remaining.
  - intros p Hn Hs. rewrite fmap_app, elem_of_app.
    assert (Hold : p ∈ FilePath <$> tables -> p ∈ FilePath <$> remaining fs2 tables).
    { intros (s & -> & Hs')%list_elem_of_fmap. apply list_elem_of_fmap_2, list_elem_of_filter. by split. }
    destruct (decide (p ∈ FilePath <$> tables)) as [|Hnt]; [right; auto|left].
    assert (Hp : p ∈ FilePath <$> concat tss).
    { apply Hnew; [|rewrite <- Hkeep by done; done].
      destruct (fs !! p) eqn:E; [|done]. destruct Hnt. apply Honly; [done|by rewrite E]. }
    apply list_elem_of_fmap in Hp as (s & -> & Hs'). apply list_elem_of_fmap_2, list_elem_of_filter. by split.
Qed.

(** *** Only the group of the newest table is merged *)

Context (all : list (list SSTable)) (m : nat).
Context (Hall : concat all = tables) (Htail : Forall (fun g => blen g < 2) (tail all)) (Hm : groups = take m all).

Lemma old_path s : s ∈ tables -> FilePath s ∈ FilePath <$> tables.
Proof. apply list_elem_of_fmap_2. Qed.

Lemma merged_nil (l : list (list SSTable)) : concat l `sublist_of` tables -> merged tables l = [].
Proof.
  intros Hl. apply filter_none. intros s Hs Hn. apply Hn, old_path. by eapply elem_of_sublist.
Qed.

(** Either nothing is merged, or the tables [g] at the front are. *)
Lemma front_point :
  (merged tables tss = [] /\ forall p, p ∉ comp)
  \/ exists g rest sst t, tables = g ++ rest /\ merged tables tss = [sst] /\ now < t
     /\ FilePath sst = sst_path dir t
     /\ table_recs fs1 sst = mergeIterators (table_recs fs <$> g) floor
     /\ forall s, s ∈ rest -> FilePath s ∉ comp.
Proof.
  destruct Hpost as [_ _ _ _ _ Hres _ Hcomp _].
  assert (Hsingle : Forall (fun g => blen g < 2) groups -> merged tables tss = [] /\ forall p, p ∉ comp).
  { intros Hlt. rewrite (keep_results _ _ _ _ _ _ _ Hres Hlt). split; [by apply merged_nil|].
    intros p [?|(g & Hg & H2 & _)]%Hcomp; [done|]. rewrite Forall_forall in Hlt. specialize (Hlt g Hg). lia. }
  destruct all as [|g gs]; [left; apply Hsingle; rewrite Hm, take_nil; constructor|].
  destruct m as [|m']; [left; apply Hsingle; rewrite Hm; constructor|]. cbn [take tail] in *.
  assert (Htl : Forall (fun g => blen g < 2) (take m' gs)) by (by apply Forall_take).
  destruct (Z.lt_ge_cases (blen g) 2) as [Hlt|Hge]; [left; apply Hsingle; rewrite Hm; by constructor|right].
  rewrite Hm in Hres. apply Forall2_cons_inv_l in Hres as (ts & tss' & Hg & Hr & Htss). rewrite Htss.
  rewrite (keep_results _ _ _ _ _ _ _ Hr Htl). unfold group_result in Hg.
  rewrite (proj2 (Z.ltb_ge _ _) Hge) in Hg. destruct Hg as (sst & t & -> & Ht & Hp & Hrec).
  assert (Heq : tables = g ++ concat gs) by done. exists g, (concat gs), sst, t. split; [done|]. split; [|do 3 (split; [done|])].
  - unfold merged. cbn [concat app]. rewrite filter_cons_True.
    + f_equal. apply merged_nil. rewrite Heq. apply sublist_inserts_l.
      apply concat_sublist, sublist_take.
    + intros (s & Hps & Hs)%list_elem_of_fmap. pose proof (so_good _ _ _ _ _ Hst) as Hgd.
      rewrite Forall_forall in Hgd.
      apply (good_ne_fresh dir fs truth now s t (so_clock _ _ _ _ _ Hst) (Hgd s Hs) Ht). congruence.
  - intros s Hs [?|(g' & Hg' & H2 & Hps)]%Hcomp; [done|]. rewrite Hm in Hg'.
    apply elem_of_cons in Hg' as [->|Hg']; [|rewrite Forall_forall in Htl; specialize (Htl g' Hg'); lia].
    pose proof (so_paths _ _ _ _ _ Hst) as Hnd. rewrite Heq, fmap_app in Hnd. apply NoDup_app in Hnd as (_ & Hd & _).
    apply (Hd (FilePath s) Hps). by apply list_elem_of_fmap_2.
Qed.

Lemma remaining_kept (l : list SSTable) :
  (forall s, s ∈ l -> s ∈ tables /\ FilePath s ∉ comp) -> remaining fs2 l = l.
Proof.
  intros Hl. apply filter_all. intros s Hs. destruct (Hl s Hs) as [Ht Hc].
  destruct point_removed as (_ & -> & _); [|by left]. destruct (point_old s Ht) as [(d & ->)%good_file _]. eauto.
Qed.

Lemma remaining_recs (l : list SSTable) :
  (forall s, s ∈ l -> s ∈ tables) -> table_recs fs2 <$> remaining fs2 l = table_recs fs <$> remaining fs2 l.
Proof.
  intros Hl. apply fmap_ext_in. intros s [Hf Hs]%list_elem_of_filter. apply point_remaining, list_elem_of_filter.
  auto.
Qed.

(** Searching the directory as it is finds what the tables held. *)
Lemma point_reads k s :
  by_recency (table_recs fs <$> tables) -> protected floor s k (all_recs fs tables) ->
  search_levels k s (table_recs fs2 <$> (merged tables tss ++ remaining fs2 tables)) = newest k s (all_recs fs tables).
Proof.
  intros Hrec Hprot. rewrite fmap_app, (remaining_recs tables) by done. unfold all_recs.
  destruct front_point as [[-> Hnone]|(g & rest & sst & t & Heq & Hmg & _ & _ & Hr & Hrest)].
  - cbn [fmap list_fmap app]. rewrite remaining_kept by auto. by apply search_levels_newest.
  - pose proof Hmg as Hin. rewrite Hmg. cbn [fmap list_fmap app].
    destruct (point_merged sst) as (_ & _ & _ & -> & _); [rewrite Hmg; apply list_elem_of_here|]. rewrite Hr.
    assert (Hrem' : remaining fs2 tables = remaining fs2 g ++ rest).
    { rewrite Heq at 1. unfold remaining. rewrite filter_app. f_equal. apply remaining_kept.
      intros s' Hs'. split; [|by apply Hrest]. rewrite Heq. apply elem_of_app. by right. }
    rewrite Hrem', fmap_app. rewrite Heq, fmap_app in Hrec |- *. 
    pose proof Hrec as (Hrg & _ & _)%by_recency_app. apply search_merged; [done| |].
    + assert (Hsub : table_recs fs <$> g `sublist_of` table_recs fs <$> tables).
      { rewrite Heq. apply fmap_sublist, sublist_inserts_r. reflexivity. }
      pose proof (so_good _ _ _ _ _ Hst) as Hgd. rewrite Heq in Hgd. apply Forall_app in Hgd as [Hgg _].
      apply mergeIterators_newest; [done|by eapply good_all_sorted|by eapply good_all_wf| |].
      * eapply sublist_NoDup; [exact (so_nodup _ _ _ _ _ Hst)|]. by apply fmap_sublist, concat_sublist.
      * intros e He. apply Hprot. eapply elem_of_sublist; [exact He|by apply concat_sublist].
    + intros l (s' & -> & [_ Hs']%list_elem_of_filter)%list_elem_of_fmap. by apply list_elem_of_fmap_2.
Qed.

Lemma point_sub e :
  e ∈ all_recs fs2 (merged tables tss ++ remaining fs2 tables) -> e ∈ all_recs fs tables.
Proof.
  unfold all_recs. rewrite fmap_app, (remaining_recs tables), concat_app, elem_of_app by done. intros [He|He].
  - destruct front_point as [[Hmg _]|(g & rest & sst & t & Heq & Hmg & _ & _ & Hr & _)]; rewrite Hmg in He;
      [by apply elem_of_nil in He|].
    destruct (point_merged sst) as (_ & _ & _ & Hr2 & _); [rewrite Hmg; apply list_elem_of_here|].
    cbn [fmap list_fmap concat] in He. rewrite app_nil_r, Hr2, Hr in He. rewrite Heq, fmap_app, concat_app.
    apply elem_of_app. left. pose proof (so_good _ _ _ _ _ Hst) as Hgd. rewrite Heq in Hgd.
    apply Forall_app in Hgd as [Hgg _].
    apply (mergeIterators_ok (table_recs fs <$> g) floor); [by eapply good_all_wf| |done].
    eapply sublist_NoDup; [exact (so_nodup _ _ _ _ _ Hst)|]. apply fmap_sublist, concat_sublist.
    rewrite Heq. apply fmap_sublist, sublist_inserts_r. reflexivity.
  - eapply elem_of_sublist; [exact He|]. apply concat_sublist, fmap_sublist, sublist_filter.
Qed.

Lemma point_stamps lo ts :
  FilePath <$> tables = sst_path dir <$> ts -> StronglySorted Z.gt ts ->
  Forall (fun t => lo < t <= now) ts -> lo <= now ->
  exists ts2, FilePath <$> (merged tables tss ++ remaining fs2 tables) = sst_path dir <$> ts2
    /\ StronglySorted Z.gt ts2 /\ Forall (fun t => lo < t <= now1) ts2.
Proof.
  intros Hts Hs Hb Hlo.
  destruct (sublist_stamps FilePath (sst_path dir) tables (remaining fs2 tables) ts) as (ts' & Hsub & Hts');
    [apply sublist_filter|done|].
  assert (Hs' : StronglySorted Z.gt ts') by (by eapply StronglySorted_sublist).
  assert (Hb' : forall t, t ∈ ts' -> lo < t <= now).
  { rewrite Forall_forall in Hb. intros t Ht. apply Hb. by eapply elem_of_sublist. }
  assert (Hex : exists ts2, FilePath <$> (merged tables tss ++ remaining fs2 tables) = sst_path dir <$> ts2
    /\ StronglySorted Z.gt ts2 /\ Forall (fun t => lo < t) ts2).
  { destruct front_point as [[-> _]|(g & rest & sst & t & _ & -> & Ht & Hp & _)].
    - exists ts'. split; [done|]. split; [done|]. apply Forall_forall. intros t Ht%Hb'. lia.
    - exists (t :: ts'). cbn [app]. rewrite !fmap_cons, Hts', Hp. split; [done|].
      split; constructor; try done; [|lia|]; apply Forall_forall; intros x Hx%Hb'; lia. }
  destruct Hex as (ts2 & Hts2 & Hs2 & Hb2). exists ts2. split; [done|]. split; [done|].
  apply Forall_and. split; [done|].
  apply (stamps_past dir fs2 truth1 now1 _ ts2 point_clock (do_good _ _ _ _ point_dir_ok) Hts2).
Qed.
End point_dir.

(** What a crash at such a point leaves: tables [T], in the order of their names, that are
    read as [tables] were. *)
Record left_over (dir : bytes) (fs : FS) (tables : list SSTable) (floor lo : Z) (fs2 : FS) (now2 : Z)
    (T : list SSTable) : Prop := {
  lo_dir : exists truth2, dir_ok dir fs2 truth2 T;
  lo_stamps : exists ts2, FilePath <$> T = sst_path dir <$> ts2 /\ StronglySorted Z.gt ts2
    /\ Forall (fun t => lo < t <= now2) ts2;
  lo_sub e : e ∈ all_recs fs2 T -> e ∈ all_recs fs tables;
  lo_reads k s : protected floor s k (all_recs fs tables) ->
    search_levels k s (table_recs fs2 <$> T) = newest k s (all_recs fs tables)
}.

Section compact_points.
Context {W : Type} `{WL : WriterLaws W} {HR : Reliable W} (bloom0 : BloomFilter) (newFile : bytes -> W).
Context (tick : Z -> Z) (dir : bytes).
Context (bloom0_ok : bloom_ok bloom0) (newFile_empty : forall p, on_file (newFile p) = []).
Context (tick_later : forall t, t < tick t).

Lemma groups_point_ok fs truth now tables floor lo ts m n fs1 now1 res comp fs2 :
  store_ok dir fs truth now tables -> only_tables dir fs tables -> by_recency (table_recs fs <$> tables) ->
  concat (groupBySimilarSize fs tables) = tables ->
  Forall (fun g => blen g < 2) (tail (groupBySimilarSize fs tables)) ->
  FilePath <$> tables = sst_path dir <$> ts -> StronglySorted Z.gt ts ->
  Forall (fun t => lo < t <= now) ts -> lo <= now ->
  compact_groups bloom0 newFile tick fs now (take m (groupBySimilarSize fs tables)) dir floor [] ∅
    = (fs1, now1, Ok (res, comp)) ->
  remove_compacted newFile fs1 (take n tables) comp = (fs2, None) ->
  exists T, left_over dir fs tables floor lo fs2 now1 T.
Proof.
  intros Hst Honly Hrec Hall Htail Hts Hs Hb Hlo Hcg Hrem.
  destruct (groups_good dir _ _ _ _ Hst) as [Hgg Hgn].
  destruct (compact_groups_ok bloom0 newFile tick dir bloom0_ok newFile_empty tick_later
    (take m (groupBySimilarSize fs tables)) fs truth now floor [] ∅ (so_clock _ _ _ _ _ Hst))
    as (fs1' & now1' & truth1 & tss & comp' & Heq & Hpost); [by apply Forall_take..|].
  rewrite Heq in Hcg. injection Hcg as <- <- <- <-.
  assert (Hgs : concat (take m (groupBySimilarSize fs tables)) `sublist_of` tables).
  { rewrite <- Hall at 2. apply concat_sublist, sublist_take. }
  exists (merged tables tss ++ remaining fs2 tables). split.
  - exists truth1. by eapply point_dir_ok.
  - by eapply point_stamps.
  - intros e. by eapply point_sub.
  - intros k s. by eapply point_reads.
Qed.

Lemma compact_point_ok fs truth now tables floor lo ts fs2 now2 :
  store_ok dir fs truth now tables -> only_tables dir fs tables -> by_recency (table_recs fs <$> tables) ->
  (DEFAULT_COMPACTION_THRESHOLD <= blen tables ->
    concat (groupBySimilarSize fs tables) = tables
    /\ Forall (fun g => blen g < 2) (tail (groupBySimilarSize fs tables))) ->
  FilePath <$> tables = sst_path dir <$> ts -> StronglySorted Z.gt ts ->
  Forall (fun t => lo < t <= now) ts -> lo <= now ->
  compact_point bloom0 newFile tick fs now tables dir floor fs2 now2 ->
  exists T, left_over dir fs tables floor lo fs2 now2 T.
Proof.
  intros Hst Honly Hrec Hfront Hts Hs Hb Hlo [|m fs1 now1 res comp Hlen Hcg|n fs1 now1 res comp fs2' Hlen Hcg Hrem].
  - exists tables. split.
    + exists truth. by eapply store_dir_ok.
    + by exists ts.
    + done.
    + intros k s _. by apply search_levels_newest.
  - destruct (Hfront Hlen) as [Hall Htail].
    by eapply (groups_point_ok fs truth now tables floor lo ts m 0%nat).
  - destruct (Hfront Hlen) as [Hall Htail].
    rewrite <- (firstn_all (groupBySimilarSize fs tables)) in Hcg. by eapply groups_point_ok.
Qed.
End compact_points.

(** ** The states of a flush *)

Section flush_crash.
Context `{BT : BTree kv Item_Less} {BL : BTreeLaws kv Item_Less}.
Context {C : Type} `{CL : CacherLaws (list kv) C}.

(** What a database opened on a log with the records [es] and on the tables [T] answers. *)
Lemma reopen_reads (newCache : C) conf f' fs now truth T es :
  dir_ok (SSTDir conf) fs truth T -> OpenAllInDir fs (SSTDir conf) = Ok (reopened <$> T) ->
  fsynced f' = length (fdata f') -> (replay (fdata f')).1 = es ->
  Forall wf_kv es -> Forall tombstone_ok es -> keys_nodup es -> cache_true truth newCache ->
  exists db2, db_Open newCache conf f' (mkWorld fs now) = (mkWorld fs now, Ok db2)
    /\ db_seq db2 = Z.max (maxSeq_entries 0 es) (maxSeq_entries 0 (all_recs fs T))
    /\ forall k, (Get db2 (mkWorld fs now) k).2
         = Ok (read_result (search_levels k SeqNumMax (es :: (table_recs fs <$> T)))).
Proof.
  intros [Hd Hg _ _ _] Ho Hfs Hr Hwf Htomb Hnd Hc.
  assert (Hmk : os_MkdirAll fs (SSTDir conf) = (fs, None)).
  { unfold os_MkdirAll. rewrite Hd. by rewrite insert_id. }
  destruct (rebuild_ok es NewMemTable 0) as (mem & Hreb & Hmok & Hitems); [apply NewMemTable_ok|done..| |].
  { rewrite mt_items_New. intros x e Hx. by apply elem_of_nil in Hx. }
  assert (Htab : SetCache <$> (reopened <$> T) = SetCache <$> T) by (by rewrite <- list_fmap_compose).
  assert (Hg' : Forall (good fs truth) (SetCache <$> T)).
  { apply Forall_fmap. eapply Forall_impl; [exact Hg|]. intros s Hs. by apply good_SetCache. }
  unfold db_Open. cbn [w_fs w_now]. rewrite Hmk. unfold rebuildMemtable. rewrite wal_Replay_Open, Hr, Hreb by done.
  cbv beta iota zeta. cbn [w_fs w_now]. rewrite Ho. cbn [rbind]. rewrite Htab.
  unfold maxSeqNumInTables. rewrite (maxSeq_tables_ok fs truth) by done. cbn [rbind].
  eexists. split; [done|]. unfold all_recs. rewrite SetCache_recs. split; [done|]. intros k.
  unfold Get, GetAt. cbn [db_mem db_tables db_cache w_fs]. rewrite mt_Get_newest by done. cbn [search_levels].
  replace (newest k SeqNumMax (mt_items mem)) with (newest k SeqNumMax es).
  2: { apply newest_perm; [done|by apply keys_nodup_coherent|]. intros e. rewrite Hitems, mt_items_New, elem_of_nil. tauto. }
  destruct (newest k SeqNumMax es) as [e|]; simpl; [by destruct (Kind (ik e) =? InternalKeyKindDelete)|].
  destruct (searchSSTables_spec fs truth (SetCache <$> T) k SeqNumMax Hg' ltac:(done) newCache Hc)
    as (r & c' & -> & _ & ->). by rewrite SetCache_recs.
Qed.

Context {W : Type} `{WL : WriterLaws W} {HR : Reliable W}.
Context (bloom0 : BloomFilter) (newFile : bytes -> W) (tick : Z -> Z).
Implicit Types (db : DB C) (w : World).

(** The log file and the world between two steps of [flushMemtableLocked]: the table is
    installed; the log is reset, and the compaction may have begun. *)
Inductive flush_point db w : os_File -> World -> Prop :=
| FpInstalled fs1 sst :
    Flush bloom0 (w_fs w) (tick (w_now w)) newFile (db_mem db) (SSTDir (db_conf db)) = (fs1, Ok sst) ->
    flush_point db w (bw_wr (BufWriter (db_wal db))) (mkWorld fs1 (tick (w_now w)))
| FpReset fs1 sst fs2 now2 :
    Flush bloom0 (w_fs w) (tick (w_now w)) newFile (db_mem db) (SSTDir (db_conf db)) = (fs1, Ok sst) ->
    compact_point bloom0 newFile tick fs1 (tick (w_now w)) (SetCache sst :: db_tables db)
      (SSTDir (db_conf db)) (Floor (db_wm db)) fs2 now2 ->
    flush_point db w (bw_wr (BufWriter (resetWAL (db_wal db)))) (mkWorld fs2 now2).

(** All the points at which a flush can be cut short, with the temporary file that is there:
    none between two steps; and while a table is written, the new one or a merged one, a file
    with any contents, which are not durable before its [Sync]. *)
Inductive crash_point db w : option bytes -> os_File -> World -> Prop :=
| CrBetween f w' : flush_point db w f w' -> crash_point db w None f w'
| CrFlushing d :
    let now := tick (w_now w) in
    crash_point db w (Some d) (bw_wr (BufWriter (db_wal db)))
      (mkWorld (<[sst_path (SSTDir (db_conf db)) now ++ dot_tmp := File d]> (w_fs w)) now)
| CrMerging d fs1 sst n fs2 now2 res comp :
    Flush bloom0 (w_fs w) (tick (w_now w)) newFile (db_mem db) (SSTDir (db_conf db)) = (fs1, Ok sst) ->
    let tables := SetCache sst :: db_tables db in
    compact_groups bloom0 newFile tick fs1 (tick (w_now w)) (take n (groupBySimilarSize fs1 tables))
      (SSTDir (db_conf db)) (Floor (db_wm db)) [] ∅ = (fs2, now2, Ok (res, comp)) ->
    crash_point db w (Some d) (bw_wr (BufWriter (resetWAL (db_wal db))))
      (mkWorld (<[sst_path (SSTDir (db_conf db)) (tick now2) ++ dot_tmp := File d]> fs2) (tick now2)).

Context (bloom0_ok : bloom_ok bloom0) (newFile_empty : forall p, on_file (newFile p) = [])
  (tick_later : forall t, t < tick t).

(** A directory in which a temporary file without a footer is left is not opened. *)
Lemma tmp_blocks_Open (newCache : C) conf f' fs now t d w2 db2 :
  fs !! SSTDir conf = Some Dir -> no_footer d = true ->
  db_Open newCache conf f' (mkWorld (<[sst_path (SSTDir conf) t ++ dot_tmp := File d]> fs) now) <> (w2, Ok db2).
Proof.
  intros Hd Hno. destruct (sst_tmp_name (SSTDir conf) t) as (name & Hname & Hs & Hne). rewrite Hname.
  assert (Hd' : <[SSTDir conf ++ slash :: name := File d]> fs !! SSTDir conf = Some Dir).
  { rewrite lookup_insert_ne; [done|]. intros Heq%(f_equal length). rewrite length_app in Heq. simpl in Heq. lia. }
  unfold db_Open, os_MkdirAll. cbn [w_fs w_now]. rewrite Hd', insert_id by done.
  destruct (rebuildMemtable _) as [wal [[mem m]|e|]]; try done.
  pose proof (OpenAllInDir_no_footer (<[SSTDir conf ++ slash :: name := File d]> fs) (SSTDir conf) name d) as Hn.
  destruct (OpenAllInDir _ _) as [ts|e|]; [|done..]. exfalso.
  by apply (Hn ts Hd'); [apply lookup_insert_eq|..].
Qed.

Lemma crash_point_tmp (newCache : C) hist db w d f f' w' w2 db2 :
  db_shape hist db w -> crash_point db w (Some d) f w' -> no_footer d = true ->
  db_Open newCache (db_conf db) f' w' <> (w2, Ok db2).
Proof.
  intros Hsh Hpt Hno. destruct (ds_truth _ _ _ Hsh) as (truth & Hst & _).
  remember (Some d) as o eqn:Eo. destruct Hpt as [|d' now|d' fs1 sst n fs2 now2 res comp Hfl tables Hcg]; [done|..];
    injection Eo as ->; apply tmp_blocks_Open; try done.
  - apply (so_clock _ _ _ _ _ Hst).
  - destruct (flush_push_at bloom0 newFile tick bloom0_ok newFile_empty tick_later hist db w truth fs1 sst Hsh Hst Hfl)
      as (truth1 & _ & _ & Hst1 & _). destruct (groups_good _ _ _ _ _ Hst1) as [Hgg Hgn].
    destruct (compact_groups_ok bloom0 newFile tick (SSTDir (db_conf db)) bloom0_ok newFile_empty tick_later
      (take n (groupBySimilarSize fs1 tables)) fs1 truth1 (tick (w_now w)) (Floor (db_wm db)) [] ∅ (so_clock _ _ _ _ _ Hst1))
      as (fs1' & now1' & truth2 & tss & comp' & Heq & Hpost); [by apply Forall_take..|].
    rewrite Heq in Hcg. injection Hcg as <- <- <- <-. apply (gp_clock _ _ _ _ _ _ _ _ _ _ _ _ Hpost).
Qed.

(** The tables a crash in a flush leaves, and what the log can hold. *)
Lemma flush_point_ok a es old db w f f' w' lo :
  sim a db w -> clean db w -> logged (hist_of (a_log a)) es old db w -> stamped lo db w ->
  front_only bloom0 newFile tick db w = true -> flush_point db w f w' -> crash f f' ->
  exists fs1 sst n T,
    all_recs fs1 (SetCache sst :: db_tables db) = stored db w
    /\ left_over (SSTDir (db_conf db)) fs1 (SetCache sst :: db_tables db) (Floor (db_wm db)) lo
         (w_fs w') (w_now w') T
    /\ (replay (fdata f')).1 = take n es.
Proof.
  intros Hsim Hcl Hlog (Hlo & ts & Hts & Hs & Hb) Hfront Hpt Hcr. pose proof (sim_inv _ _ _ Hsim) as Hinv.
  destruct (di_truth _ _ _ Hinv) as (truth & Hst & _).
  destruct (flush_push bloom0 newFile tick bloom0_ok newFile_empty tick_later _ db w truth Hinv Hst)
    as (fs1 & sst & truth1 & Hfl & _ & Hpath & Hst1 & Honly & Hr1). specialize (Honly Hcl).
  pose proof (di_recency _ _ _ Hinv) as Hrec. rewrite <- Hr1 in Hrec.
  pose proof (tick_later (w_now w)) as Htick.
  destruct (stamps_step lo (w_now w) (tick (w_now w)) 0 0 ts _ ltac:(lia) Hb Hs (or_introl eq_refl)) as [Hs1 Hb1].
  assert (Hts1 : FilePath <$> SetCache sst :: db_tables db
    = sst_path (SSTDir (db_conf db)) <$> tick (w_now w) :: ts).
  { rewrite !fmap_cons, Hts. by rewrite <- Hpath. }
  assert (Hleft : forall fs2 now2,
    compact_point bloom0 newFile tick fs1 (tick (w_now w)) (SetCache sst :: db_tables db)
      (SSTDir (db_conf db)) (Floor (db_wm db)) fs2 now2 ->
    exists T, left_over (SSTDir (db_conf db)) fs1 (SetCache sst :: db_tables db) (Floor (db_wm db)) lo fs2 now2 T).
  { intros fs2 now2. eapply (compact_point_ok bloom0 newFile tick _ bloom0_ok newFile_empty tick_later); try done.
    - intros Hge. by apply (front_only_spec bloom0 newFile tick db w fs1 sst).
    - apply Forall_and. split; [done|].
      apply (stamps_past _ _ _ _ _ _ (so_clock _ _ _ _ _ Hst1) (so_good _ _ _ _ _ Hst1) Hts1).
    - lia. }
  exists fs1, sst. destruct Hpt as [fs1' sst' Hfl'|fs1' sst' fs2 now2 Hfl' Hcp].
  - rewrite Hfl in Hfl'. injection Hfl' as <- <-.
    destruct (wal_inv_crash _ es f' (lg_entries _ _ _ _ _ Hlog) (lg_wal _ _ _ _ _ Hlog) Hcr) as (n & _ & Hr & _).
    destruct (Hleft fs1 (tick (w_now w)) ltac:(constructor)) as [T HT]. exists n, T.
    split; [unfold all_recs; by rewrite Hr1|]. by split.
  - rewrite Hfl in Hfl'. injection Hfl' as <- <-.
    destruct (wal_inv_crash _ [] f' ltac:(constructor) (resetWAL_inv _ _ (lg_wal _ _ _ _ _ Hlog)) Hcr) as (n & _ & Hr & _).
    destruct (Hleft fs2 now2 Hcp) as [T HT]. exists 0%nat, T.
    split; [unfold all_recs; by rewrite Hr1|]. split; [done|]. by rewrite Hr, take_nil.
Qed.

Lemma hist_of_length log : length (hist_of log) = length log.
Proof. induction log as [|wr log IH]; [done|]. simpl. by rewrite IH. Qed.

(** Every table of a set of written records is small when few writes were made. *)
Lemma few_writes_small log fs truth (T : list SSTable) :
  Forall (good fs truth) T -> (forall e, e ∈ all_recs fs T -> e ∈ hist_of log) -> blen log < 2 ^ 30 ->
  tables_small fs T.
Proof.
  intros Hg Hsub Hl. apply Forall_forall. intros s Hs. rewrite Forall_forall in Hg.
  destruct (good_recs _ _ _ (Hg s Hs)) as (_ & Hsort & _).
  enough (Hle : (length (table_recs fs s) <= length (hist_of log))%nat).
  { rewrite hist_of_length in Hle. unfold blen in *. lia. }
  apply submseteq_length, NoDup_submseteq; [by eapply (NoDup_fmap_1 Key), elt_nodup|].
  intros e He. apply Hsub, list_elem_of_In, in_concat. exists (table_recs fs s).
  split; apply list_elem_of_In; [by apply list_elem_of_fmap_2|done].
Qed.

(** The reads from an empty or complete log in front of the levels that are left. *)
Lemma left_reads hist es old db w es' T fs2 (reads : forall k,
    search_levels k SeqNumMax (table_recs fs2 <$> T) = newest k SeqNumMax (stored db w)) k :
  db_inv hist db w -> logged hist es old db w -> es' = [] \/ es' = es ->
  search_levels k SeqNumMax (es' :: (table_recs fs2 <$> T)) = newest k SeqNumMax (stored db w).
Proof.
  intros Hinv Hlog Hes. cbn [search_levels]. rewrite reads. destruct Hes as [->| ->]; [done|].
  destruct (di_mem _ _ _ Hinv) as [Hb Hwf].
  replace (newest k SeqNumMax es) with (newest k SeqNumMax (mt_items (db_mem db))).
  2: { apply newest_perm; [done|by apply mt_items_coherent|]. intros e. by rewrite (lg_mem _ _ _ _ _ Hlog). }
  pose proof (di_recency _ _ _ Hinv) as Hrec. inversion_clear Hrec as [|? ? Hn _].
  rewrite stored_split, newest_app_newer by (by apply newer_than_concat).
  by destruct (newest k SeqNumMax (mt_items (db_mem db))).
Qed.

Lemma stored_wf hist db w : db_inv hist db w -> Forall wf_kv (stored db w).
Proof.
  intros Hinv. destruct (di_truth _ _ _ Hinv) as (truth & Hst & _). rewrite stored_split.
  apply Forall_app. split; [apply Hinv|]. eapply good_all_wf, Hst.
Qed.

(** The sequence number a restart finds in what is left. *)
Lemma left_seq a db w es old (recs : list kv) es' :
  sim a db w -> logged (hist_of (a_log a)) es old db w -> (forall e, e ∈ es' -> e ∈ es) ->
  (forall e, e ∈ recs -> e ∈ stored db w) ->
  (forall k e, newest k SeqNumMax (stored db w) = Some e -> e ∈ recs) ->
  Z.max (maxSeq_entries 0 es') (maxSeq_entries 0 recs) = a_seq a.
Proof.
  intros [Hinv Hq _ Hok] Hlog Hes Hsub Hnew. pose proof (di_seq _ _ _ Hinv) as Hsq.
  assert (Hl : blen (a_log a) <= SeqNumMax) by (unfold a_seq in Hq; lia).
  assert (Hm : Z.max (maxSeq_entries 0 []) (maxSeq_entries 0 recs) = blen (a_log a)).
  { apply (recovered_seq (a_log a) [] (hist_of (a_log a)) recs Hok Hl eq_refl).
    - intros e He. by apply (stored_hist _ db w _ Hinv), Hsub.
    - intros k. rewrite <- (db_reads _ db w k SeqNumMax Hinv) by (left; lia).
      apply newest_between; [by eapply stored_wf|apply keys_nodup_coherent, Hinv|done|apply Hnew]. }
  destruct (maxSeq_entries_spec 0 es') as (_ & _ & [->|(e & He & ->)]); [done|].
  assert (seqn e <= blen (a_log a)).
  { apply hist_of_bound; [done..|]. rewrite (lg_hist _ _ _ _ _ Hlog), elem_of_app, elem_of_reverse. left. auto. }
  change (maxSeq_entries 0 []) with 0 in Hm. destruct (maxSeq_entries_spec 0 recs) as (Hm0 & _). unfold a_seq. lia.
Qed.

Lemma flush_crash_reads (newCache : C) a db w f f' w' lo :
  sim a db w -> clean db w -> stamped lo db w -> front_only bloom0 newFile tick db w = true ->
  flush_point db w f w' -> crash f f' ->
  (replay (fdata f')).1 = [] \/ length (replay (fdata f')).1 = length (mt_items (db_mem db)) ->
  blen (a_log a) < 2 ^ 30 -> same_decade (lo + 1) (w_now w') -> (forall truth, cache_true truth newCache) ->
  exists db2, db_Open newCache (db_conf db) f' w' = (w', Ok db2) /\ db_seq db2 = a_seq a
    /\ forall k, (Get db2 w' k).2 = Ok (abs_read k SeqNumMax (a_log a)).
Proof.
  intros Hsim Hcl Hstamp Hfront Hpt Hcr Hwhole Hfew Hdec Hcache. pose proof Hsim as [Hinv Hq _ Hok].
  destruct (di_log _ _ _ Hinv) as (es & old & Hlog). pose proof (di_seq _ _ _ Hinv) as Hsq.
  destruct (flush_point_ok a es old db w f f' w' lo Hsim Hcl Hlog Hstamp Hfront Hpt Hcr)
    as (fs1 & sst & n & T & Hall & [(truth2 & Hdir) (ts & Hts & Hs & Hb) Hsub Hreads] & Hr).
  rewrite Hall in Hsub, Hreads. rewrite Hr in Hwhole. destruct w' as [fs2 now2]. cbn [w_fs w_now] in *.
  assert (Hes : take n es = [] \/ take n es = es).
  { destruct Hwhole as [|Hlen]; [by left|right]. rewrite <- (logged_length a es old db w Hsim Hlog), length_take in Hlen.
    apply take_ge. lia. }
  assert (Hin : forall e, e ∈ take n es -> e ∈ es) by (intros e He; by apply (subseteq_take n)).
  assert (Hfacts : forall e, e ∈ take n es -> wf_kv e /\ tombstone_ok e /\ 0 < seqn e <= blen (a_log a)).
  { intros e He%Hin. apply hist_of_elem; [done|unfold a_seq in Hq; lia|].
    rewrite (lg_hist _ _ _ _ _ Hlog), elem_of_app, elem_of_reverse. by left. }
  assert (Hreads' : forall k, search_levels k SeqNumMax (table_recs fs2 <$> T) = newest k SeqNumMax (stored db w)).
  { intros k. apply Hreads. eapply (readable_protected _ db w k SeqNumMax _ Hinv); [left; lia|done]. }
  assert (Hsmall : tables_small fs2 T).
  { eapply (few_writes_small (a_log a)); [apply Hdir| |done]. intros e He. by apply (stored_hist _ db w _ Hinv), Hsub. }
  destruct (reopen_reads newCache (db_conf db) f' fs2 now2 truth2 T (take n es) Hdir) as (db2 & Ho & Hseq & Hget);
    [by eapply (reopen_listing _ _ truth2 _ lo now2 ts)|by eapply crash_synced|done| | | |done|].
  - apply Forall_forall. intros e He. by apply Hfacts.
  - apply Forall_forall. intros e He. by apply Hfacts.
  - eapply sublist_NoDup; [exact (logged_nodup a es old db w Hsim Hlog)|]. apply fmap_sublist, sublist_take.
  - exists db2. split; [done|]. split.
    + rewrite Hseq. apply (left_seq a db w es old); try done. intros k e He. rewrite <- Hreads' in He.
      by apply search_levels_Some in He.
    + intros k. rewrite Hget, (left_reads (hist_of (a_log a)) es old db w) by done.
      rewrite (db_reads _ db w k SeqNumMax Hinv) by (left; lia).
      by rewrite hist_of_read by (done || (unfold a_seq in Hq; lia)).
Qed.

(** C9: a crash in the middle of a flush. Run any calls on a new database such that no
    compaction merges more than the group of the newest table ([front_only]; for other runs see
    C35), and let it crash inside a flush of that kind. If it crashes between two steps (the
    new table is installed; the log is reset; any number of groups are merged; any number of
    replaced files are removed) and the log that is left is empty or complete (for a log that
    has lost its end see C36), opening a database on the log and the directory succeeds, every
    key reads as the last write to it says, although records may be there twice, in the log and
    in a table or in an old and in a merged table, and the sequence number continues where it
    was: nothing is lost and nothing comes back. If it crashes while a table is being written,
    by the flush or by the compaction, and the temporary file has no footer yet ([no_footer]),
    the next start is refused. (A temporary file that is already complete is not covered.)
    Assumed: fewer than 2^30 writes, and the clock has not gained a digit since the database
    was new. *)
Theorem flush_crash_loses_nothing (newCache : C) (conf : Config) (fs : FS) (now : Z)
    (cs : list call) (tmp : option bytes) (f f' : os_File) (w' : World) :
  fresh_dir fs (SSTDir conf) -> (forall truth, cache_true truth newCache) ->
  exists w db, db_Open newCache conf (mkFile [] 0) (mkWorld fs now) = (w, Ok db)
    /\ (calls_ok (mkAbs [] ∅) cs ->
        run_where bloom0 newFile tick (fun db w => front_only bloom0 newFile tick db w = true) db w cs ->
        let '(db1, w1) := db_after bloom0 newFile tick db w cs in
        let log1 := a_log (abs_after (mkAbs [] ∅) cs) in
        front_only bloom0 newFile tick db1 w1 = true -> crash_point db1 w1 tmp f w' -> crash f f' ->
        blen log1 < 2 ^ 30 -> same_decade (now + 1) (w_now w') ->
        match tmp with
        | None =>
            (replay (fdata f')).1 = [] \/ length (replay (fdata f')).1 = length (mt_items (db_mem db1)) ->
            exists db2, db_Open newCache (db_conf db1) f' w' = (w', Ok db2) /\ db_seq db2 = blen log1
              /\ forall k, (Get db2 w' k).2 = Ok (abs_read k SeqNumMax log1)
        | Some d => no_footer d = true -> forall w2 db2, db_Open newCache (db_conf db1) f' w' <> (w2, Ok db2)
        end).
Proof.
  intros Hf Hc. destruct (sim_fresh newCache conf fs now Hf (Hc ∅)) as (db & Ho & Hs).
  eexists _, db. split; [exact Ho|]. intros Hok Hrun.
  destruct (stamped_after bloom0 newFile tick bloom0_ok newFile_empty tick_later newCache conf fs now cs db
    Hf (Hc ∅) Ho Hok Hrun) as (Hsim & Hcl & Hst).
  destruct (db_after _ _ _ db _ cs) as [db1 w1]. cbn [fst snd] in Hsim, Hcl, Hst. intros log1.
  intros Hfront Hpt Hcr Hl Hd. destruct tmp as [d|].
  - intros Hno w2 db2. by eapply (crash_point_tmp newCache _ db1 w1 d f f' w' w2 db2 (sim_inv _ _ _ Hsim)).
  - intros Hw. assert (Hpt0 : flush_point db1 w1 f w') by (by inversion Hpt).
    by apply (flush_crash_reads newCache _ db1 w1 f f' w' now).
Qed.
End flush_crash.

(** *** A compaction that is interrupted while it removes files *)

Definition cut_calls : list call :=
  concat ((fun k => [CPut (bytes_of k) (bytes_of "1"); CFlush]) <$> ["a"; "b"; "a"]%string)
  ++ [CPut (bytes_of "d") (bytes_of "4")].

(** The state after two of the four replaced files were removed, before the flush has ended. *)
Definition cut_state (db : DB (ShardedLRU (list kv))) (w : World) : option World :=
  match Flush demo_bloom (w_fs w) (Z.succ (w_now w)) new_file (db_mem db) (SSTDir (db_conf db)) with
  | (fs1, Ok sst) =>
      let tables := SetCache sst :: db_tables db in
      match compact_groups demo_bloom new_file Z.succ fs1 (Z.succ (w_now w))
              (groupBySimilarSize fs1 tables) (SSTDir (db_conf db)) (Floor (db_wm db)) [] ∅ with
      | (fs2, now2, Ok (res, comp)) =>
          match remove_compacted new_file fs2 (take 2 tables) comp with
          | (fs3, None) =>
              if DEFAULT_COMPACTION_THRESHOLD <=? blen tables then Some (mkWorld fs3 now2) else None
          | _ => None
          end
      | _ => None
      end
  | _ => None
  end.

Lemma cut_state_point db w w' :
  cut_state db w = Some w' ->
  flush_point demo_bloom new_file Z.succ db w (bw_wr (BufWriter (resetWAL (db_wal db)))) w'.
Proof.
  unfold cut_state. destruct (Flush _ _ _ _ _ _) as [fs1 [sst|e|]] eqn:Hf; [|done..]. cbv zeta.
  destruct (compact_groups _ _ _ _ _ _ _ _ _ _) as [[fs2 now2] [[res comp]|e|]] eqn:Hg; [|done..].
  destruct (remove_compacted _ _ _ _) as [fs3 [e|]] eqn:Hr; [done|].
  destruct (Z.leb_spec DEFAULT_COMPACTION_THRESHOLD (blen (SetCache sst :: db_tables db))) as [Hle|]; [|done].
  intros [= <-]. eapply FpReset; [exact Hf|]. by eapply CpRemoved.
Qed.

(** Three files are left: the merged table and the two oldest ones. *)
Definition cut_check : bool :=
  match db_Open demo_cache demo_conf (mkFile [] 0) (mkWorld ∅ 0) with
  | (w, Ok db) =>
      run_whereb demo_bloom new_file Z.succ (front_only demo_bloom new_file Z.succ) db w cut_calls
      && let '(db1, w1) := db_after demo_bloom new_file Z.succ db w cut_calls in
         front_only demo_bloom new_file Z.succ db1 w1
         && match cut_state db1 w1 with
            | Some w' =>
                (w_now w' =? 5)
                && match OpenAllInDir (w_fs w') demo_dir with
                   | Ok ts => bool_decide (FilePath <$> ts = sst_path demo_dir <$> [5; 2; 1])
                   | _ => false
                   end
            | None => false
            end
  | _ => false
  end.

Lemma flush_crash_loses_nothing_witness :
  exists w db db1 w1 w' db2,
    db_Open demo_cache demo_conf (mkFile [] 0) (mkWorld ∅ 0) = (w, Ok db)
    /\ db_after demo_bloom new_file Z.succ db w cut_calls = (db1, w1)
    /\ flush_point demo_bloom new_file Z.succ db1 w1 (bw_wr (BufWriter (resetWAL (db_wal db1)))) w'
    /\ db_Open demo_cache (db_conf db1) (mkFile [] 0) w' = (w', Ok db2)
    /\ db_seq db2 = 4 /\ (Get db2 w' (bytes_of "d")).2 = Ok (Some (bytes_of "4")).
Proof.
  assert (Hd : cut_check = true) by (vm_compute; reflexivity).
  unfold cut_check in Hd.
  destruct (db_Open demo_cache demo_conf (mkFile [] 0) _) as [w [db|e|]] eqn:Ho; [|done..].
  apply andb_prop in Hd as [Hq Hd].
  destruct (db_after _ _ _ db w cut_calls) as [db1 w1] eqn:Ha. apply andb_prop in Hd as [Hfr Hd].
  destruct (cut_state db1 w1) as [w'|] eqn:Hcut; [|done]. apply andb_prop in Hd as [Hnow%Z.eqb_eq _].
  pose proof (cut_state_point _ _ _ Hcut) as Hpt.
  destruct (flush_crash_loses_nothing (C := ShardedLRU (list kv)) (WL := os_File_WriterLaws)
    demo_bloom new_file Z.succ demo_bloom_ok (fun _ => eq_refl) (fun t => Z.lt_succ_diag_r t)
    demo_cache demo_conf ∅ 0 cut_calls None (bw_wr (BufWriter (resetWAL (db_wal db1)))) (mkFile [] 0) w' demo_fresh)
    as (w0 & db0 & Ho' & Hrun); [intros truth; apply new_cache_true; lia|].
  rewrite Ho in Ho'. injection Ho' as <- <-.
  specialize (Hrun ltac:(repeat (split; [first [exact I|reflexivity]|]); exact I) (run_whereb_ok _ _ _ _ _ _ _ Hq)).
  rewrite Ha in Hrun.
  destruct Hrun as (db2 & Ho2 & Hseq & Hget); [done|by constructor| |by vm_compute| |by left|].
  - exists 0%nat. split; [simpl; lia|done].
  - rewrite Hnow. exists 0%nat. split; vm_compute; [discriminate|reflexivity].
  - exists w, db, db1, w1, w', db2. do 4 (split; [done|]). split; [by rewrite Hseq|].
    rewrite Hget. reflexivity.
Defined.

(** *** A log that has lost its end, behind a new table *)

(** Ten writes to one key, which are synced, and two more. *)
Definition torn_calls : list call :=
  replicate 10 (CPut (bytes_of "k") (bytes_of "1"))
  ++ [CPut (bytes_of "k") (bytes_of "2"); CPut (bytes_of "x") (bytes_of "3")].

Definition torn_state : option (World * DB (ShardedLRU (list kv)) * World * DB (ShardedLRU (list kv)) * World) :=
  match db_Open demo_cache demo_conf (mkFile [] 0) (mkWorld ∅ 0) with
  | (w, Ok db) =>
      let '(db1, w1) := db_after demo_bloom new_file Z.succ db w torn_calls in
      match Flush demo_bloom (w_fs w1) (Z.succ (w_now w1)) new_file (db_mem db1) (SSTDir (db_conf db1)) with
      | (fs1, Ok sst) => Some (w, db, w1, db1, mkWorld fs1 (Z.succ (w_now w1)))
      | _ => None
      end
  | _ => None
  end.

Definition torn_check : bool :=
  match torn_state with
  | Some (w, db, w1, db1, w2) =>
      let f := bw_wr (BufWriter (db_wal db1)) in
      (fsynced f =? length (fdata f))%nat
      && match db_Open demo_cache (db_conf db1) f w2 with
         | (w2', Ok db2) =>
             bool_decide (w_now w2' = w_now w2)
             && bool_decide ((Get db1 w1 (bytes_of "k")).2 = Ok (Some (bytes_of "2")))
             && bool_decide ((Get db2 w2' (bytes_of "k")).2 = Ok (Some (bytes_of "1")))
             && bool_decide ((Get db2 w2' (bytes_of "x")).2 = Ok (Some (bytes_of "3")))
         | _ => false
         end
  | None => false
  end.

(** A crash may leave a synced file as it is. *)
Lemma crash_self (f : os_File) : fsynced f = length (fdata f) -> crash f f.
Proof.
  intros Hs. exists (fsynced f). split; [lia|]. rewrite take_ge by lia. by destruct f.
Qed.

(** C36: a crash between the installation of the new table and the reset of the log. After
    twelve puts a flush installs its table, which holds all of them, and the process is
    killed before the log is truncated; the file of the log has the first ten records, which
    were synced. The restarted database finds the older value of the key in the memtable it
    rebuilds from the log and answers with it, although the newer one is in the table, and at
    the same time it has the write that came after: its state is no prefix of the history. *)
Theorem flush_crash_hides_newer_write :
  exists w db w1 db1 w2 w2' db2,
    db_Open demo_cache demo_conf (mkFile [] 0) (mkWorld ∅ 0) = (w, Ok db)
    /\ db_after demo_bloom new_file Z.succ db w torn_calls = (db1, w1)
    /\ (Get db1 w1 (bytes_of "k")).2 = Ok (Some (bytes_of "2"))
    /\ let f := bw_wr (BufWriter (db_wal db1)) in
       flush_point demo_bloom new_file Z.succ db1 w1 f w2 /\ crash f f
       /\ db_Open demo_cache (db_conf db1) f w2 = (w2', Ok db2)
       /\ (Get db2 w2' (bytes_of "k")).2 = Ok (Some (bytes_of "1"))
       /\ (Get db2 w2' (bytes_of "x")).2 = Ok (Some (bytes_of "3")).
Proof.
  assert (Hc : torn_check = true) by (vm_compute; reflexivity). unfold torn_check, torn_state in Hc.
  destruct (db_Open demo_cache demo_conf (mkFile [] 0) _) as [w [db|e|]] eqn:Ho; [|done..].
  destruct (db_after _ _ _ db w torn_calls) as [db1 w1] eqn:Ha.
  destruct (Flush _ _ _ _ _ _) as [fs1 [sst|e|]] eqn:Hf; [|done..]. cbv zeta in Hc |- *.
  set (f := bw_wr (BufWriter (db_wal db1))) in *. apply andb_prop in Hc as [Hs%Nat.eqb_eq Hc].
  destruct (db_Open demo_cache (db_conf db1) f _) as [w2' [db2|e|]] eqn:Ho2; [|done..].
  apply andb_prop in Hc as [[[_ H1%bool_decide_eq_true]%andb_prop H2%bool_decide_eq_true]%andb_prop
    H3%bool_decide_eq_true].
  exists w, db, w1, db1, (mkWorld fs1 (Z.succ (w_now w1))), w2', db2. do 3 (split; [done|]).
  split; [by eapply FpInstalled|]. split; [by apply crash_self|by repeat split].
Qed.
