(* ===== verification/DbBounds.v ===== *)
(** * Bounds on what a database keeps

    Every write goes to the memtable and to the log, and both start again when the memtable
    has reached the flush size. [bounded] counts the bytes of the records written since: the
    size the memtable keeps is their sum, and the log adds sixteen bytes to each. *)

From stdpp Require Import gmultiset.
From S2P Require Import Prelude Config Base Mvcc Memtable Bloom Cache Bufio Wal Block Fs Sstable.
From S2P Require Import SstReader Store Compaction Db Heap Scan DbRefine DbRuns DbRecover.

(** The bytes of the keys and values of some records. *)
Fixpoint data_size (es : list kv) : Z :=
  match es with [] => 0 | e :: es' => blen (Key e) + blen (Value e) + data_size es' end.

Lemma data_size_app es es' : data_size (es ++ es') = data_size es + data_size es'.
Proof. induction es as [|e es IH]; simpl; lia. Qed.

Lemma blen_log_cons e es : blen (log (e :: es)) = 16 + blen (Key e) + blen (Value e) + blen (log es).
Proof.
  unfold log. cbn [map concat]. rewrite blen_app, blen_record, writeDataBuff_len. unfold log. lia.
Qed.

(** A key has at least its trailer, so the log is at most three times as long. *)
Lemma log_size es :
  Forall (fun e => 8 <= blen (Key e)) es -> blen (log es) <= 3 * data_size es /\ 0 <= data_size es.
Proof.
  induction 1 as [|e es He _ IH]; [done|]. rewrite blen_log_cons. cbn [data_size].
  pose proof (blen_nonneg (Value e)). lia.
Qed.

Section bounds.
Context `{BT : BTree kv Item_Less} {BL : BTreeLaws kv Item_Less}.
Context {C : Type} `{CL : CacherLaws (list kv) C}.
Context {W : Type} `{WL : WriterLaws W} {HR : Reliable W}.
Context (bloom0 : BloomFilter) (newFile : bytes -> W) (tick : Z -> Z).
Implicit Types (db : DB C) (w : World).

(** The memtable and the log hold the records [es] since the last flush. *)
Definition holds db (es : list kv) : Prop :=
  wal_inv (db_wal db) es /\ Forall (fun e => 8 <= blen (Key e)) es
  /\ mt_Size (db_mem db) = data_size es.

Definition bounded db : Prop :=
  mt_Size (db_mem db) < DEFAULT_MEMTABLE_FLUSH_SIZE /\ exists es, holds db es.

Lemma holds_log db es :
  holds db es -> blen (fdata (bw_wr (BufWriter (db_wal db)))) <= 3 * mt_Size (db_mem db).
Proof.
  intros ((_ & Hs & _) & H8 & ->). destruct (log_size es H8) as [Hl _].
  destruct (stream_ok_prefix _ _ Hs) as [rest Hr].
  apply (f_equal blen) in Hr. rewrite blen_app in Hr. pose proof (blen_nonneg rest). simpl in Hr. lia.
Qed.

Lemma holds_write hist db w es key value kind :
  db_shape hist db w -> holds db es ->
  exists es', holds (write_state db key value kind) es'.
Proof.
  intros Hinv (Hw & H8 & Hm). set (e := new_rec key (db_seq db + 1) kind value).
  exists (es ++ [e]). destruct (wal_write_inv (db_wal db) es (Key e) value Hw) as (wal' & Hww & Hw').
  unfold holds, write_state. cbv zeta. fold e. rewrite Hww. cbn [fst db_wal db_mem].
  split; [done|]. split.
  - apply Forall_app. split; [done|]. constructor; [|done]. unfold e, blen. simpl.
    rewrite encodeIK_length. lia.
  - rewrite data_size_app, <- Hm. unfold mt_Size. simpl. lia.
Qed.

Context (bloom0_ok : bloom_ok bloom0) (newFile_empty : forall p, on_file (newFile p) = [])
  (tick_later : forall t, t < tick t).

Lemma bounded_keeps :
  keeps bloom0 newFile tick (fun _ _ => True)
    (fun db _ => bounded db) (fun db _ => exists es, holds db es).
Proof.
  split.
  - by intros db w [_ Hes].
  - intros hist db w k v kind Hinv [_ (es & Hh)]. by eapply holds_write.
  - by intros db w Hes Hlt.
  - intros hist db w Hinv _ (es & Hw & _). destruct (ds_truth _ _ _ Hinv) as (truth & Hst & _).
    destruct (flush_succeeds bloom0 newFile tick bloom0_ok newFile_empty tick_later hist db w Hinv) as (db' & w' & Hfl).
    destruct (flush_tables_shape bloom0 newFile tick bloom0_ok newFile_empty tick_later hist db w truth db' w' Hinv Hst Hfl)
      as (truth' & tables' & -> & _). rewrite Hfl. split; [by vm_compute|].
    exists []. split; [by eapply resetWAL_inv|done].
  - done.
  - done.
Qed.

(** C21: memory and log stay bounded. After any sequence of calls on a new database, on a
    working disk and whatever the compactions merge, with fewer than 2^56 writes and reads only
    at snapshots that are held ([calls_ok]), the memtable holds less than the flush size of 4
    MiB of keys and values, and the log file is shorter than 12 MiB. *)
Theorem memtable_and_log_bounded (newCache : C) (conf : Config) (fs : FS) (now : Z) (cs : list call) :
  fresh_dir fs (SSTDir conf) -> cache_true ∅ newCache ->
  exists w db, db_Open newCache conf (mkFile [] 0) (mkWorld fs now) = (w, Ok db)
    /\ (calls_ok (mkAbs [] ∅) cs ->
        let db1 := (db_after bloom0 newFile tick db w cs).1 in
        mt_Size (db_mem db1) < DEFAULT_MEMTABLE_FLUSH_SIZE
        /\ blen (fdata (bw_wr (BufWriter (db_wal db1)))) < 3 * DEFAULT_MEMTABLE_FLUSH_SIZE).
Proof.
  intros Hf Hc. destruct (sim_fresh newCache conf fs now Hf Hc) as (db & Ho & Hs).
  eexists _, db. split; [exact Ho|]. intros Hok.
  assert (Hb : bounded db).
  { rewrite Open_fresh in Ho by done. injection Ho as <-. split; [by vm_compute|]. exists [].
    split; [apply (wal_Open_log_inv [])|by split]. }
  destruct (after_keeps bloom0 newFile tick bloom0_ok newFile_empty tick_later _ _ _ bounded_keeps
    cs _ db _ (sim_rough _ _ _ Hs) Hok (run_where_true bloom0 newFile tick cs db _) Hb) as [Hlt (es & Hh)]. cbv zeta.
  split; [done|]. pose proof (holds_log _ es Hh). lia.
Qed.
End bounds.

Lemma memtable_and_log_bounded_witness :
  exists w db,
    db_Open demo_cache demo_conf (mkFile [] 0) (mkWorld ∅ 0) = (w, Ok db)
    /\ let db1 := (db_after demo_bloom new_file Z.succ db w demo_before).1 in
       mt_Size (db_mem db1) < DEFAULT_MEMTABLE_FLUSH_SIZE
       /\ blen (fdata (bw_wr (BufWriter (db_wal db1)))) < 3 * DEFAULT_MEMTABLE_FLUSH_SIZE.
Proof.
  destruct (memtable_and_log_bounded (C := ShardedLRU (list kv)) (WL := os_File_WriterLaws)
    demo_bloom new_file Z.succ demo_bloom_ok (fun _ => eq_refl) (fun t => Z.lt_succ_diag_r t)
    demo_cache demo_conf ∅ 0 demo_before demo_fresh) as (w & db & Ho & Hrun).
  { apply new_cache_true. lia. }
  exists w, db. split; [done|]. exact (Hrun demo_calls_ok).
Defined.
