(* ===== verification/DbTypes.v ===== *)
(** * The records a database stores

    The program keeps keys and values as byte slices; which of them are internal keys, how
    long they are and which kinds occur is kept by the operations, not by the types.
    [well_typed] says it of one record, and [stored_records_well_typed] that every record of
    the memtable and of every table satisfies it after any sequence of calls, that every level
    is in strict key order, that a newer level has the newer versions if compactions merge
    neighbours, and that no record was made up: each is the write of the history that its
    sequence number counts. *)

From stdpp Require Import gmultiset.
From S2P Require Import Prelude Config Base Mvcc Memtable Bloom Cache Bufio Wal Block Fs Sstable.
From S2P Require Import SstReader Store Compaction Db Heap Scan DbRefine DbRuns DbRecover.

(** A record of a database whose last sequence number is [seq]: the key is a user key of at
    most the maximal length with a trailer, the kind is Set or Delete, a tombstone has no
    value. *)
Definition well_typed (seq : Z) (e : kv) : bool :=
  (8 <=? blen (Key e)) && (blen (Key e) <=? MAX_KEY_LENGTH + 8) && (blen (Value e) <=? MAX_VALUE_LENGTH)
  && ((Kind (ik e) =? InternalKeyKindSet) || (Kind (ik e) =? InternalKeyKindDelete) && (blen (Value e) =? 0))
  && (0 <? seqn e) && (seqn e <=? seq).

Lemma well_typed_write seq n wr :
  0 < n <= seq -> seq <= SeqNumMax -> write_ok wr -> well_typed seq (write_rec n wr) = true.
Proof.
  intros Hn Hs [Hk Hv]. destruct wr as [k o]. cbn [fst snd] in *.
  assert (Hrec : forall kind v, kind = InternalKeyKindSet \/ kind = InternalKeyKindDelete /\ v = [] ->
    blen v <= MAX_VALUE_LENGTH -> well_typed seq (new_rec k n kind v) = true).
  { intros kind v Hkind Hlen.
    destruct (new_rec_facts k n kind v) as (_ & _ & Hq & Hkd & _);
      [lia|by destruct Hkind as [->|[-> _]]|done|done|].
    assert (Hlk : blen (Key (new_rec k n kind v)) = blen k + 8) by (unfold blen; simpl; rewrite encodeIK_length; simpl; lia).
    unfold well_typed. rewrite Hq, Hkd, Hlk. cbn [Value new_rec]. pose proof (blen_nonneg k).
    assert (((kind =? InternalKeyKindSet) || (kind =? InternalKeyKindDelete) && (blen v =? 0)) = true) as ->
      by (by destruct Hkind as [->|[-> ->]]).
    rewrite !andb_true_iff, !Z.leb_le, Z.ltb_lt. lia. }
  destruct o as [v|]; apply Hrec; auto.
Qed.

(** The record of the history with sequence number [n] is its [n]th write. *)
Lemma hist_of_nth log e :
  Forall write_ok log -> blen log <= SeqNumMax -> e ∈ hist_of log ->
  exists wr, reverse log !! Z.to_nat (seqn e - 1) = Some wr /\ e = write_rec (seqn e) wr /\ write_ok wr.
Proof.
  induction 1 as [|wr log Hw Hws IH]; intros Hl He; [by apply elem_of_nil in He|].
  rewrite blen_cons in *. pose proof (blen_nonneg log). cbn [hist_of] in He. rewrite reverse_cons.
  apply elem_of_cons in He as [->|He].
  - rewrite blen_cons. destruct (write_rec_facts (1 + blen log) wr) as (_ & _ & -> & _); [lia|done|].
    exists wr. split; [|done]. replace (Z.to_nat (1 + blen log - 1)) with (length (reverse log))
      by (rewrite length_reverse; unfold blen; lia).
    by rewrite lookup_app_r, Nat.sub_diag by done.
  - destruct IH as (wr' & Hl' & Heq & Hok); [lia|done|]. exists wr'. split; [|done]. by apply lookup_app_l_Some.
Qed.

Section types.
Context `{BT : BTree kv Item_Less} {BL : BTreeLaws kv Item_Less}.
Context {C : Type} `{CL : CacherLaws (list kv) C}.
Context {W : Type} `{WL : WriterLaws W} {HR : Reliable W}.
Context (bloom0 : BloomFilter) (newFile : bytes -> W) (tick : Z -> Z).
Implicit Types (db : DB C) (w : World).

(** The levels of a database in a state of the refinement. *)
Lemma levels_sorted hist db w : db_shape hist db w -> Forall (StronglySorted elt) (levels db w).
Proof.
  intros Hinv. pose proof Hinv as [(truth & Hst & _) Hm _ Hnd _ _ _ _]. constructor.
  - apply sorted_ele_elt; [apply Hm| |apply mt_items_sorted, Hm].
    unfold keys_nodup in *. rewrite stored_split, fmap_app in Hnd. by apply NoDup_app in Hnd as (? & _).
  - apply Forall_fmap. eapply Forall_impl; [apply Hst|]. intros sst Hg. by apply (good_recs _ truth).
Qed.

(** The dump of the memtable has a line for every record, in internal-key order. *)
Lemma PrintMemTable_lines db :
  mt_ok (db_mem db) ->
  PrintMemTable db
  = (Byte.x0a :: bytes_of "--- Memtable (sorted keys) ---" ++ [Byte.x0a])
    ++ concat ((fun e => print_item (Key e) (Value e)) <$> mt_items (db_mem db))
    ++ (Byte.x0a :: bytes_of "--- Memtable Ended ---" ++ [Byte.x0a]) ++ [Byte.x0a].
Proof.
  intros [Hok _]. unfold PrintMemTable, mt_Ascend. rewrite Ascend_items by done.
  rewrite iter_while_app by done. do 2 f_equal. unfold mt_items.
  assert (Hacc : forall l out, foldl (fun s x => ((s ++ print_item (Key x) (Value x), true)).1) out l
    = out ++ concat ((fun e => print_item (Key e) (Value e)) <$> l)).
  { induction l as [|x l IH]; intros out; simpl; [by rewrite app_nil_r|]. by rewrite IH, <- app_assoc. }
  apply Hacc.
Qed.

Context (bloom0_ok : bloom_ok bloom0) (newFile_empty : forall p, on_file (newFile p) = [])
  (tick_later : forall t, t < tick t).

(** C20: the shape of the stored data. After any sequence of calls on a new database, on a
    working disk and whatever the compactions merge, with fewer than 2^56 writes and reads only
    at snapshots that are held ([calls_ok]), the memtable and every table hold their records in
    strictly ascending internal-key order, no internal key is stored twice, and every stored
    record has a key of 8 to 1032 bytes, a value of at most 1 MiB, kind Set or Delete (a
    tombstone without a value) and a sequence number from 1 to the database's; it is the write
    the client made with that number, unchanged. If moreover every compaction of the run has
    merged neighbouring tables ([run_in_order]), a version in a newer level is newer than one
    in an older level. *)
Theorem stored_records_well_typed (newCache : C) (conf : Config) (fs : FS) (now : Z) (cs : list call) :
  fresh_dir fs (SSTDir conf) -> cache_true ∅ newCache ->
  exists w db, db_Open newCache conf (mkFile [] 0) (mkWorld fs now) = (w, Ok db)
    /\ (calls_ok (mkAbs [] ∅) cs ->
        let '(db1, w1) := db_after bloom0 newFile tick db w cs in
        Forall (StronglySorted elt) (levels db1 w1)
        /\ (run_in_order bloom0 newFile tick db w cs -> by_recency (levels db1 w1))
        /\ NoDup (Key <$> stored db1 w1)
        /\ forall e, e ∈ stored db1 w1 ->
             well_typed (db_seq db1) e = true
             /\ exists wr, reverse (a_log (abs_after (mkAbs [] ∅) cs)) !! Z.to_nat (seqn e - 1) = Some wr
                  /\ e = write_rec (seqn e) wr).
Proof.
  intros Hf Hc. destruct (sim_fresh newCache conf fs now Hf Hc) as (db & Ho & Hs).
  eexists _, db. split; [exact Ho|]. intros Hok.
  pose proof (sim_after bloom0 newFile tick bloom0_ok newFile_empty tick_later cs _ db _ Hs Hok) as Hsim.
  destruct (rough_after bloom0 newFile tick bloom0_ok newFile_empty tick_later cs _ db _ (sim_rough _ _ _ Hs) Hok)
    as [[Hinv Hq _ Hw] _].
  destruct (db_after _ _ _ _ _ _) as [db1 w1]. cbn [fst snd] in *. unfold a_seq in Hq.
  pose proof (ds_seq _ _ _ Hinv) as Hr. split; [by eapply levels_sorted|].
  split; [intros Hord; apply (sim_inv _ _ _ (Hsim Hord))|]. split; [apply Hinv|]. intros e He. apply (stored_hist _ _ _ _ Hinv) in He.
  destruct (hist_of_nth _ e Hw) as (wr & Hl & Heq & Hwr); [lia|done|]. split; [|by exists wr].
  destruct (hist_of_elem _ e Hw) as (_ & _ & Hn); [lia|done|]. rewrite Heq. apply well_typed_write; [lia..|done].
Qed.
End types.

Lemma stored_records_well_typed_witness :
  exists w db,
    db_Open demo_cache demo_conf (mkFile [] 0) (mkWorld ∅ 0) = (w, Ok db)
    /\ let '(db1, w1) := db_after demo_bloom new_file Z.succ db w demo_before in
       Forall (StronglySorted elt) (levels db1 w1) /\ by_recency (levels db1 w1)
       /\ NoDup (Key <$> stored db1 w1)
       /\ forall e, e ∈ stored db1 w1 ->
            well_typed (db_seq db1) e = true
            /\ exists wr, reverse (a_log (abs_after (mkAbs [] ∅) demo_before)) !! Z.to_nat (seqn e - 1) = Some wr
                 /\ e = write_rec (seqn e) wr.
Proof.
  destruct (stored_records_well_typed (C := ShardedLRU (list kv)) (WL := os_File_WriterLaws)
    demo_bloom new_file Z.succ demo_bloom_ok (fun _ => eq_refl) (fun t => Z.lt_succ_diag_r t)
    demo_cache demo_conf ∅ 0 demo_before demo_fresh) as (w & db & Ho & Hrun).
  { apply new_cache_true. lia. }
  assert (Hd : demo_restarts = true) by (vm_compute; reflexivity).
  unfold demo_restarts in Hd. rewrite Ho in Hd. apply andb_prop in Hd as [Hfew _].
  exists w, db. split; [done|]. specialize (Hrun demo_calls_ok).
  destruct (db_after _ _ _ db w demo_before) as [db1 w1]. destruct Hrun as (Hs & Hr & Hrest).
  split; [exact Hs|]. split; [exact (Hr (run_few_in_order _ _ _ _ _ _ Hfew))|exact Hrest].
Defined.
