(* ===== verification/DbFaults.v ===== *)
(** * A failing disk ([src/db/operations.go], [db.go], [src/compaction], [src/sstable])

    A [Put] or [Delete] appends to the log, inserts into the memtable and then, when the
    memtable is full, flushes and compacts; an error of the flush or of the compaction is
    returned as the error of the write. Here the disk that takes the tables may fail at any
    byte and at any system call, differently for every file (an instance of [WriterLaws] that
    need not be [Reliable], such as the program's own [FaultyWriter] or [BrokenFile]).

    When a call of the disk fails, other than the removal of a table that was merged, the
    write reports the error but has taken effect, and the database goes on
    ([failed_write_takes_effect]); a whole run of calls on such a disk is answered from the
    history of its writes ([failing_disk_refines_history]). A removal that fails leaves the
    database with tables whose files are gone, and their keys are no longer found
    ([failed_removal_hides_key]). *)

From stdpp Require Import gmultiset.
From S2P Require Import Prelude Config Base Mvcc Memtable Bloom Cache Bufio Wal Block Fs Sstable.
From S2P Require Import SstReader Store Compaction Db Heap Scan DbRefine DbRuns DbRecover.

(** ** What a step that fails leaves behind *)

(** A store is as good as before when files under new names have been added. *)
Lemma store_ok_added dir fs truth now tables fs' now' :
  store_ok dir fs truth now tables -> added dir fs truth now fs' now' ->
  store_ok dir fs' truth now' tables /\ table_recs fs' <$> tables = table_recs fs <$> tables.
Proof.
  intros [Hc Hg Hp Hnd Hsm Hin] (Hle & Ho & Hc'). rewrite Forall_forall in Hg.
  assert (Hold : forall x, x ∈ tables -> good fs' truth x /\ table_recs fs' x = table_recs fs x).
  { intros x Hx. by apply (only_new_good dir fs fs' truth truth now x Hc Ho), Hg. }
  assert (Heq : table_recs fs' <$> tables = table_recs fs <$> tables).
  { apply fmap_ext_in. intros x Hx. by apply Hold. }
  split; [|done]. split; [done| |done|unfold all_recs; by rewrite Heq..|done].
  apply Forall_forall. intros x Hx. by apply Hold.
Qed.

Section faults.
Context `{BT : BTree kv Item_Less} {BL : BTreeLaws kv Item_Less}.
Context {C : Type} `{CL : CacherLaws (list kv) C}.
Context {W : Type} `{WL : WriterLaws W}.
Context (bloom0 : BloomFilter) (newFile : bytes -> W) (tick : Z -> Z).
Implicit Types (db : DB C) (w : World).

Lemma db_inv_added hist db w truth fs' now' :
  db_inv hist db w -> store_ok (SSTDir (db_conf db)) (w_fs w) truth (w_now w) (db_tables db) ->
  cache_true truth (db_cache db) -> added (SSTDir (db_conf db)) (w_fs w) truth (w_now w) fs' now' ->
  db_inv hist db (mkWorld fs' now').
Proof.
  intros [_ Hm Hms Hrec Hnd Hsq Hb Hp (es & old & [Hh Hw He Hin Ht Hr])] Hst Hc Ha.
  destruct (store_ok_added _ _ _ _ _ _ _ Hst Ha) as [Hst' Heq].
  assert (Hl : levels db (mkWorld fs' now') = levels db w) by (unfold levels; cbn [w_fs]; by rewrite Heq).
  assert (Hall : all_recs fs' (db_tables db) = all_recs (w_fs w) (db_tables db)) by (unfold all_recs; by rewrite Heq).
  split; try done; unfold stored; rewrite ?Hl; try done; [by exists truth|].
  exists es, old. split; try done; cbn [w_fs]; by rewrite Hall.
Qed.

(** The error the disk causes in a flush of this database, if any: that of writing the new
    table, or that of the compaction behind it. *)
Definition disk_result db w : result unit :=
  let dir := SSTDir (db_conf db) in
  let now := tick (w_now w) in
  match Flush bloom0 (w_fs w) now newFile (db_mem db) dir with
  | (_, Err e) => Err e
  | (_, Panic) => Panic
  | (fs, Ok sst) =>
      match Compact bloom0 newFile tick fs now (SetCache sst :: db_tables db) dir (Floor (db_wm db)) with
      | (_, _, Err e) => Err e
      | (_, _, Panic) => Panic
      | (_, _, Ok _) => Ok tt
      end
  end.

Lemma flush_disk_result db w : (flushMemtableLocked bloom0 newFile tick db w).2 = disk_result db w.
Proof.
  unfold flushMemtableLocked, disk_result. destruct (Flush _ _ _ _ _ _) as [fs1 [sst|e|]]; [|done..].
  cbv zeta. cbn [db_wm]. by destruct (Compact _ _ _ _ _ _ _ _) as [[fs2 now2] [res|e|]].
Qed.

Context (bloom0_ok : bloom_ok bloom0) (newFile_empty : forall p, on_file (newFile p) = [])
  (tick_later : forall t, t < tick t).

(** The database between the flush and the compaction. *)
Lemma flush_installed hist db w truth fs1 sst :
  db_inv hist db w -> store_ok (SSTDir (db_conf db)) (w_fs w) truth (w_now w) (db_tables db) ->
  cache_true truth (db_cache db) ->
  Flush bloom0 (w_fs w) (tick (w_now w)) newFile (db_mem db) (SSTDir (db_conf db)) = (fs1, Ok sst) ->
  exists truth1, truth ⊆ truth1
    /\ store_ok (SSTDir (db_conf db)) fs1 truth1 (tick (w_now w)) (SetCache sst :: db_tables db)
    /\ db_inv hist (mkDB (resetWAL (db_wal db)) NewMemTable (SetCache sst :: db_tables db) (db_conf db)
         (db_cache db) (db_seq db) (db_wm db)) (mkWorld fs1 (tick (w_now w))).
Proof.
  intros Hinv Hst Hc Hfl. pose proof Hinv as [_ _ _ Hrec Hnd Hsq Hb Hp (es & old & Hlog)].
  destruct (flush_push_at bloom0 newFile tick bloom0_ok newFile_empty tick_later hist db w truth fs1 sst Hinv Hst Hfl)
    as (truth1 & Hsub & _ & Hst1 & _ & Hlev).
  assert (Hall : all_recs fs1 (SetCache sst :: db_tables db) = stored db w) by (unfold all_recs; by rewrite Hlev).
  exists truth1. split; [done|]. split; [done|].
  split; rewrite ?stored_split; unfold levels; cbn [db_mem db_tables db_conf db_cache db_seq db_wm db_wal w_fs w_now];
    rewrite ?mt_items_New, ?app_nil_l, ?Hall, ?Hlev; try done.
  - exists truth1. split; [done|by eapply cache_true_mono].
  - apply NewMemTable_ok.
  - constructor; [|done]. apply Forall_forall. intros l _ a b Ha. by apply elem_of_nil in Ha.
  - exists [], hist. split; cbn [db_mem db_tables db_wal w_fs]; rewrite ?Hall; try done.
    + eapply resetWAL_inv, Hlog.
    + by rewrite mt_items_New.
    + intros e He. by apply (stored_hist hist db w e Hinv).
    + intros k s Hs. by apply db_reads.
Qed.

(** No removal of a table fails. *)
Context (removals : forall p, sys_error (newFile p) OpRemove = None).

Lemma flush_outcome hist db w :
  db_inv hist db w ->
  match flushMemtableLocked bloom0 newFile tick db w with
  | (db', w', Err _) => db_inv hist db' w' /\ db_seq db' = db_seq db /\ db_wm db' = db_wm db
  | (_, _, Panic) => False
  | (_, _, Ok _) => True
  end.
Proof.
  intros Hinv. pose proof Hinv as [(truth & Hst & Hc) [Ht Hwf] Hms _ _ _ _ _ _]. unfold flushMemtableLocked.
  pose proof (store_write_at bloom0 newFile _ (w_fs w) truth (w_now w) (tick (w_now w)) (mt_items (db_mem db))
    bloom0_ok newFile_empty (so_clock _ _ _ _ _ Hst) (tick_later _) (mt_items_elt _ Ht) Hwf Hms) as Hw.
  rewrite <- (Flush_eq bloom0 (w_fs w) (tick (w_now w)) newFile) in Hw by done.
  pose proof (fun fs1 sst => flush_installed hist db w truth fs1 sst Hinv Hst Hc) as Hpush.
  destruct (Flush _ _ _ _ _ _) as [fs1 [sst|e|]]; [| |done].
  - destruct (Hpush fs1 sst eq_refl) as (truth1 & Hsub & Hst1 & Hinv1). cbv zeta. cbn [db_wm].
    pose proof (Compact_outcome bloom0 newFile tick _ bloom0_ok newFile_empty tick_later fs1 truth1 _ _
      (Floor (db_wm db)) Hst1) as Hco.
    destruct (Compact _ _ _ _ _ _ _ _) as [[fs2 now2] [res|e|]]; [done| |done]. destruct Hco as [_ Ha].
    split; [|done]. eapply (db_inv_added _ _ _ truth1); [exact Hinv1|done|by eapply cache_true_mono|].
    apply Ha, Forall_forall. intros s _. apply removals.
  - destruct Hw as (_ & Hc' & Hfs). split; [|done]. eapply db_inv_added; [done|done|done|].
    pose proof (tick_later (w_now w)). split; [lia|]. split; [|done]. intros p Hp. apply Hfs, Hp. done.
Qed.

(** ** The calls *)

Lemma flush_took_effect a db w db' w' e :
  sim a db w -> flushMemtableLocked bloom0 newFile tick db w = (db', w', Err e) -> sim a db' w'.
Proof.
  intros Hsim Hf. pose proof Hsim as [Hinv Hq Hp Hl]. pose proof (flush_outcome _ db w Hinv) as Ho.
  rewrite Hf in Ho. destruct Ho as (Hinv' & Hs & Hwm). split; [done|by rewrite Hs|by rewrite Hwm|done].
Qed.

(** The database that a call is about to flush, if it is. *)
Definition flush_state db (c : call) : option (DB C) :=
  match c with
  | CPut key value =>
      let db1 := write_state db key value InternalKeyKindSet in
      if (blen key <=? MAX_KEY_LENGTH) && (blen value <=? MAX_VALUE_LENGTH)
         && (DEFAULT_MEMTABLE_FLUSH_SIZE <=? mt_Size (db_mem db1)) then Some db1 else None
  | CDelete key =>
      let db1 := write_state db key [] InternalKeyKindDelete in
      if (blen key <=? MAX_KEY_LENGTH) && (DEFAULT_MEMTABLE_FLUSH_SIZE <=? mt_Size (db_mem db1)) then Some db1 else None
  | CFlush => Some db
  | _ => None
  end.

Lemma flush_step a db w c db1 :
  sim a db w -> call_ok a c -> flush_state db c = Some db1 ->
  (abs_step a c).2 = RDone (Ok tt) /\ sim (abs_step a c).1 db1 w
  /\ db_step bloom0 newFile tick db w c
     = let '(db', w', r) := flushMemtableLocked bloom0 newFile tick db1 w in (db', w', RDone r).
Proof.
  intros Hsim Hok. pose proof Hsim as [Hinv Hq Hp Hl].
  destruct c; cbn [flush_state db_step abs_step]; try done; simpl in Hok.
  - match goal with |- (if ?b then _ else _) = _ -> _ => destruct b eqn:E end; [|done]. intros [= <-]. apply andb_prop in E as [[Hk%Z.leb_le Hv%Z.leb_le]%andb_prop Hf%Z.leb_le].
    rewrite !(proj2 (Z.ltb_ge _ _)) by done. split; [done|]. cbn [fst].
    destruct (write_state_ok _ db w key value InternalKeyKindSet Hinv) as [_ Hinv'];
      [lia|unfold InternalKeyKindSet; lia|done..|].
    split; [by apply (sim_write a db w (key, Some value))|].
    rewrite (Put_eq bloom0 newFile tick _ db w key value Hinv) by (done || lia).
    unfold flushIfFullLocked. by rewrite (proj2 (Z.ltb_ge _ _)).
  - match goal with |- (if ?b then _ else _) = _ -> _ => destruct b eqn:E end; [|done]. intros [= <-]. apply andb_prop in E as [Hk%Z.leb_le Hf%Z.leb_le].
    rewrite !(proj2 (Z.ltb_ge _ _)) by done. split; [done|]. cbn [fst].
    destruct (write_state_ok _ db w key [] InternalKeyKindDelete Hinv) as [_ Hinv'];
      [lia|unfold InternalKeyKindDelete; lia|done|by vm_compute|].
    split; [by apply (sim_write a db w (key, None))|].
    rewrite (Delete_eq bloom0 newFile tick _ db w key Hinv) by (done || lia).
    unfold flushIfFullLocked. by rewrite (proj2 (Z.ltb_ge _ _)).
  - by intros [= <-].
Qed.

(** A call that does not flush does not get to the disk. *)
Lemma no_flush_step a db w c :
  sim a db w -> call_ok a c -> flush_state db c = None ->
  (forall e, (db_step bloom0 newFile tick db w c).2 = RDone (Err e) -> (abs_step a c).2 = RDone (Err e))
  /\ (db_step bloom0 newFile tick db w c).2 <> RDone Panic.
Proof.
  intros Hsim Hok. pose proof Hsim as [Hinv Hq Hp Hl].
  destruct c; cbn [flush_state db_step abs_step]; try done; simpl in Hok.
  - match goal with |- (if ?b then _ else _) = _ -> _ => destruct b eqn:E end; [done|]. intros _. unfold Put at 1 2. destruct (Z.ltb_spec MAX_KEY_LENGTH (blen key)); [done|].
    destruct (Z.ltb_spec MAX_VALUE_LENGTH (blen value)); [done|].
    pose proof (Put_eq bloom0 newFile tick _ db w key value Hinv) as Heq. unfold Put in Heq.
    rewrite (proj2 (Z.ltb_ge _ _)), (proj2 (Z.ltb_ge MAX_VALUE_LENGTH _)) in Heq by done. rewrite Heq by (done || lia).
    rewrite !(proj2 (Z.leb_le _ _)) in E by done. simpl in E. apply Z.leb_gt in E.
    unfold flushIfFullLocked. by rewrite (proj2 (Z.ltb_lt _ _)).
  - match goal with |- (if ?b then _ else _) = _ -> _ => destruct b eqn:E end; [done|]. intros _. unfold Delete at 1 2. destruct (Z.ltb_spec MAX_KEY_LENGTH (blen key)); [done|].
    pose proof (Delete_eq bloom0 newFile tick _ db w key Hinv) as Heq. unfold Delete in Heq.
    rewrite (proj2 (Z.ltb_ge _ _)) in Heq by done. rewrite Heq by (done || lia).
    rewrite (proj2 (Z.leb_le _ _)) in E by done. simpl in E. apply Z.leb_gt in E.
    unfold flushIfFullLocked. by rewrite (proj2 (Z.ltb_lt _ _)).
  - by destruct (Get db w key).
  - by destruct (GetAt db w key snapshot).
  - by destruct (scan_all db w lowerBound upperBound snapshot).
Qed.


Lemma flushing_call a db w c db1 :
  sim a db w -> call_ok a c -> call_in_order bloom0 newFile tick db w c -> flush_state db c = Some db1 ->
  let '(db', w', r) := db_step bloom0 newFile tick db w c in
  r = RDone (disk_result db1 w) /\ disk_result db1 w <> Panic /\ sim (abs_step a c).1 db' w'.
Proof.
  intros Hsim Hok Hord Hfl. destruct (flush_step a db w c db1 Hsim Hok Hfl) as (Hspec & Hsim1 & Hstep).
  pose proof (fun db' w' r => sim_step_at bloom0 newFile tick bloom0_ok newFile_empty tick_later a db w c db' w' r Hsim Hok Hord) as Hat.
  rewrite Hstep in Hat |- *. rewrite <- flush_disk_result.
  pose proof (flush_outcome _ db1 w (sim_inv _ _ _ Hsim1)) as Ho.
  pose proof (flush_took_effect (abs_step a c).1 db1 w) as Heff.
  destruct (flushMemtableLocked _ _ _ db1 w) as [[db' w'] [[]|e|]]; [| |done]; (split; [done|]); (split; [done|]).
  - by apply (Hat db' w' (RDone (Ok tt)) eq_refl).
  - by apply (Heff db' w' e Hsim1).
Qed.

End faults.

(** ** Runs on a disk that fails now and then *)

Section disk_runs.
Context `{BT : BTree kv Item_Less} {BL : BTreeLaws kv Item_Less}.
Context {C : Type} `{CL : CacherLaws (list kv) C}.
Context {W : Type} `{WL : WriterLaws W}.
Context (bloom0 : BloomFilter) (tick : Z -> Z).
Context (bloom0_ok : bloom_ok bloom0) (tick_later : forall t, t < tick t).
Implicit Types (db : DB C) (w : World) (a : abs).

(** Every call meets the disk of its moment: for every path, the new file it would write there
    and the faults of the calls on it. *)
Fixpoint disk_run db w (cs : list (call * (bytes -> W))) : list reply :=
  match cs with
  | [] => []
  | (c, f) :: cs' => let '(db', w', r) := db_step bloom0 f tick db w c in r :: disk_run db' w' cs'
  end.

(** New files are empty and tables can be removed; the calls are ones the refinement covers
    and their compactions group neighbouring tables. *)
Fixpoint disk_safe a db w (cs : list (call * (bytes -> W))) : Prop :=
  match cs with
  | [] => True
  | (c, f) :: cs' =>
      (forall p, on_file (f p) = []) /\ (forall p, sys_error (f p) OpRemove = None)
      /\ call_ok a c /\ call_in_order bloom0 f tick db w c
      /\ let '(db', w', _) := db_step bloom0 f tick db w c in disk_safe (abs_step a c).1 db' w' cs'
  end.

(** The reply of the abstract database, or an error where it reports success. *)
Definition reply_or_error (r spec : reply) : Prop :=
  r = spec \/ spec = RDone (Ok tt) /\ exists e, r = RDone (Err e).

Lemma disk_step a db w c f db' w' r :
  sim a db w -> (forall p, on_file (f p) = []) -> (forall p, sys_error (f p) OpRemove = None) ->
  call_ok a c -> call_in_order bloom0 f tick db w c -> db_step bloom0 f tick db w c = (db', w', r) ->
  reply_or_error r (abs_step a c).2 /\ sim (abs_step a c).1 db' w'.
Proof.
  intros Hsim Hf Hrm Hok Hord Hstep. destruct (flush_state db c) as [db1|] eqn:Hfl.
  - pose proof (flushing_call bloom0 f tick bloom0_ok Hf tick_later Hrm a db w c db1 Hsim Hok Hord Hfl) as Hc.
    destruct (flush_step bloom0 f tick a db w c db1 Hsim Hok Hfl) as (Hspec & _).
    rewrite Hstep in Hc. destruct Hc as (-> & Hpan & Hsim'). split; [|done]. rewrite Hspec.
    destruct (disk_result bloom0 f tick db1 w) as [[]|e|]; [by left|right; eauto|done].
  - destruct (no_flush_step bloom0 f tick a db w c Hsim Hok Hfl) as [Herr Hpan]. rewrite Hstep in Herr, Hpan.
    destruct (sim_step_at bloom0 f tick bloom0_ok Hf tick_later a db w c db' w' r) as [-> ?]; [done..|].
    split; [by left|done].
Qed.

Lemma disk_run_ok cs : forall a db w,
  sim a db w -> disk_safe a db w cs -> Forall2 reply_or_error (disk_run db w cs) (abs_run a cs.*1).
Proof.
  induction cs as [|[c f] cs IH]; intros a db w Hsim; [constructor|]. cbn [disk_safe disk_run abs_run fmap list_fmap fst].
  intros (Hf & Hrm & Hok & Hord & Hsafe). destruct (db_step bloom0 f tick db w c) as [[db' w'] r] eqn:Hstep.
  destruct (disk_step a db w c f db' w' r Hsim Hf Hrm Hok Hord Hstep) as [Hr Hsim'].
  destruct (abs_step a c) as [a' spec]. constructor; [done|by apply IH].
Qed.

(** C6: a run on a disk that fails now and then. Open a new database and make any calls. For
    every call the disk may fail at any byte of any file it writes and at any opening, [Sync],
    renaming or [Sync] of the directory, in the flush as well as in the compaction; only the
    removal of a table that was merged does not fail. Every read is answered exactly as the
    history of all writes answers it, and every write is in that history: it is answered with
    success or with the disk's error, and in both cases it has happened. Assumed, as on a
    working disk: the calls use snapshots they hold, there are fewer than 2^56 writes, and
    every compaction groups neighbouring tables ([disk_safe]); the log is on a working disk. *)
Theorem failing_disk_refines_history (newCache : C) (conf : Config) (fs : FS) (now : Z) (cs : list (call * (bytes -> W))) :
  fresh_dir fs (SSTDir conf) -> cache_true ∅ newCache ->
  exists w db, db_Open newCache conf (mkFile [] 0) (mkWorld fs now) = (w, Ok db)
    /\ (disk_safe (mkAbs [] ∅) db w cs ->
        Forall2 reply_or_error (disk_run db w cs) (abs_run (mkAbs [] ∅) cs.*1)).
Proof.
  intros Hf Hc. destruct (sim_fresh newCache conf fs now Hf Hc) as (db & Ho & Hsim).
  eexists _, db. split; [exact Ho|]. intros Hsafe. by apply disk_run_ok.
Qed.

(** The grouping can be decided by running the calls. *)
Definition flush_in_orderb (f : bytes -> W) db w : bool :=
  match Flush bloom0 (w_fs w) (tick (w_now w)) f (db_mem db) (SSTDir (db_conf db)) with
  | (fs', Ok sst) =>
      let tables := SetCache sst :: db_tables db in
      (blen tables <? DEFAULT_COMPACTION_THRESHOLD) || bool_decide (concat (groupBySimilarSize fs' tables) = tables)
  | _ => true
  end.

Fixpoint disk_ordered a db w (cs : list (call * (bytes -> W))) : bool :=
  match cs with
  | [] => true
  | (c, f) :: cs' =>
      (a_seq a <? SeqNumMax) && plain_call c && call_whereb (flush_in_orderb f) db w c
      && let '(db', w', _) := db_step bloom0 f tick db w c in disk_ordered (abs_step a c).1 db' w' cs'
  end.

Lemma flush_in_orderb_ok f db w : flush_in_orderb f db w = true -> flush_in_order bloom0 f tick db w.
Proof.
  unfold flush_in_orderb, flush_in_order. intros Hb fs' sst Hfl Hge. rewrite Hfl in Hb.
  apply orb_prop in Hb as [Hlt%Z.ltb_lt|Hb]; [lia|by apply bool_decide_eq_true in Hb].
Qed.


Lemma disk_ordered_safe cs : forall a db w,
  Forall (fun cf => (forall p, on_file (cf.2 p) = []) /\ forall p, sys_error (cf.2 p) OpRemove = None) cs ->
  disk_ordered a db w cs = true -> disk_safe a db w cs.
Proof.
  induction cs as [|[c f] cs IH]; intros a db w; [done|]. intros [[Hf Hrm] Hcs]%Forall_cons_1. cbn [disk_ordered disk_safe].
  intros [[[Hq%Z.ltb_lt Hp]%andb_prop Hc]%andb_prop Hrest]%andb_prop. split; [done|]. split; [done|]. split; [|split].
  - destruct c; simpl in *; try done. right. apply Z.eqb_eq in Hp. lia.
  - destruct c; cbn [call_whereb call_in_order] in *; try done; [intros Hge..|by apply flush_in_orderb_ok];
      (apply orb_prop in Hc as [Hlt%Z.ltb_lt|Hc]; [lia|by apply flush_in_orderb_ok]).
  - destruct (db_step bloom0 f tick db w c) as [[db' w'] r]. by apply IH.
Qed.
End disk_runs.

(** ** Disks that fail, for the witnesses *)

Definition faulty_disk (W : Type) : Type := bytes -> BrokenFile (FaultyWriter W).

(** A disk that takes [n] bytes of each file and fails the calls [ops] on the file of time [t]. *)
Definition test_disk (n : Z) (ops : list sysop) (t : Z) : faulty_disk os_File := fun path =>
  mkBroken (NewFaultyWriter (mkFile [] 0) n) (if decide (path = sst_path demo_dir t) then ops else []).

Definition good_disk : faulty_disk os_File := test_disk 100000 [] 0.

Lemma test_disk_empty n ops t path : on_file (test_disk n ops t path) = [].
Proof. done. Qed.

Lemma test_disk_removes n ops t path : OpRemove ∉ ops -> sys_error (test_disk n ops t path) OpRemove = None.
Proof.
  intros Hno. unfold test_disk. simpl. rewrite decide_False; [done|].
  case_decide; [done|by apply not_elem_of_nil].
Qed.

Definition put_flush (k : string) (d : faulty_disk os_File) : list (call * faulty_disk os_File) :=
  [(CPut (bytes_of k) (bytes_of "1"), good_disk); (CFlush, d)].

(** Three tables, and a write in the memtable. *)
Definition three_tables : list call :=
  concat ((fun k => [CPut (bytes_of k) (bytes_of "1"); CFlush]) <$> ["a"; "b"; "c"]%string)
  ++ [CPut (bytes_of "d") (bytes_of "1")].

Definition is_error (o : option reply) : bool := match o with Some (RDone (Err _)) => true | _ => false end.




(** A flush to a full disk, one whose directory cannot be synced, three that succeed, one whose
    compaction fails, and one that succeeds with its compaction; with reads in between. *)
Definition disk_calls : list (call * faulty_disk os_File) :=
  put_flush "a" (test_disk 50 [] 0) ++ [(CFlush, test_disk 100000 [OpSyncDir] 2); (CGet (bytes_of "a"), good_disk);
    (CFlush, good_disk)]
  ++ put_flush "b" good_disk ++ put_flush "c" good_disk ++ put_flush "d" (test_disk 100000 [OpSync] 7)
  ++ [(CGet (bytes_of "a"), good_disk); (CGet (bytes_of "d"), good_disk)]
  ++ put_flush "e" good_disk ++ [(CGet (bytes_of "a"), good_disk)].

Definition disk_check : bool :=
  match db_Open demo_cache demo_conf (mkFile [] 0) (mkWorld ∅ 0) with
  | (w, Ok db) =>
      disk_ordered demo_bloom Z.succ (mkAbs [] ∅) db w disk_calls
      && bool_decide ((fun r => is_error (Some r)) <$> disk_run demo_bloom Z.succ db w disk_calls
           = [false; true; true; false; false; false; false; false; false; false; true; false; false; false; false; false])
  | _ => false
  end.

Lemma failing_disk_refines_history_witness :
  exists w db, db_Open demo_cache demo_conf (mkFile [] 0) (mkWorld ∅ 0) = (w, Ok db)
    /\ (fun r => is_error (Some r)) <$> disk_run demo_bloom Z.succ db w disk_calls
       = [false; true; true; false; false; false; false; false; false; false; true; false; false; false; false; false]
    /\ Forall2 reply_or_error (disk_run demo_bloom Z.succ db w disk_calls)
         (abs_run (mkAbs [] ∅) disk_calls.*1).
Proof.
  destruct (failing_disk_refines_history (C := ShardedLRU (list kv)) demo_bloom Z.succ demo_bloom_ok
    (fun t => Z.lt_succ_diag_r t) demo_cache demo_conf ∅ 0 disk_calls demo_fresh) as (w & db & Ho & Hrun).
  { apply new_cache_true. lia. }
  assert (Hd : disk_check = true) by (vm_compute; reflexivity).
  unfold disk_check in Hd. rewrite Ho in Hd. apply andb_prop in Hd as [Hordered Hd%bool_decide_eq_true].
  exists w, db. split; [exact Ho|]. split; [exact Hd|]. apply Hrun.
  apply disk_ordered_safe; [|exact Hordered].
  repeat constructor; cbn [snd]; try apply test_disk_empty; intros p; apply test_disk_removes;
    first [by apply (bool_decide_eq_false_1 (OpRemove ∈ []))
          |by apply (bool_decide_eq_false_1 (OpRemove ∈ [OpSync]))
          |by apply (bool_decide_eq_false_1 (OpRemove ∈ [OpSyncDir]))].
Defined.

(** ** A removal that fails *)

(** The compaction behind the fourth flush removes the file of the newest table, but not that
    of the next one. *)
Definition removal_fails : faulty_disk os_File := test_disk 100000 [OpRemove] 3.

Definition removal_state : option (World * DB (ShardedLRU (list kv)) * DB (ShardedLRU (list kv)) * World
    * DB (ShardedLRU (list kv)) * World * goerror) :=
  match db_Open demo_cache demo_conf (mkFile [] 0) (mkWorld ∅ 0) with
  | (w, Ok db) =>
      let '(db1, w1) := db_after demo_bloom new_file Z.succ db w three_tables in
      match db_step demo_bloom removal_fails Z.succ db1 w1 CFlush with
      | (db2, w2, RDone (Err e)) => Some (w, db, db1, w1, db2, w2, e)
      | _ => None
      end
  | _ => None
  end.

Definition removal_check : bool :=
  match removal_state with
  | Some (w, db, db1, w1, db2, w2, e) =>
      bool_decide ((Get db1 w1 (bytes_of "d")).2 = Ok (Some (bytes_of "1")))
      && bool_decide ((Get db2 w2 (bytes_of "d")).2 = Ok None)
  | None => false
  end.

(** A removal that fails makes a key disappear. The compaction of four tables has written the
    merged table and removed the newest of the four when the disk fails to remove the next one.
    [Compact] returns the error and no tables, so the database keeps its old list, in which the
    file of the newest table is missing: a key of that table, found before the flush, is
    answered as absent, without an error, although the merged table holds it. *)
Theorem failed_removal_hides_key :
  exists w db db1 w1 db2 w2 e,
    db_Open demo_cache demo_conf (mkFile [] 0) (mkWorld ∅ 0) = (w, Ok db)
    /\ db_after demo_bloom new_file Z.succ db w three_tables = (db1, w1)
    /\ (Get db1 w1 (bytes_of "d")).2 = Ok (Some (bytes_of "1"))
    /\ db_step demo_bloom removal_fails Z.succ db1 w1 CFlush = (db2, w2, RDone (Err e))
    /\ (Get db2 w2 (bytes_of "d")).2 = Ok None.
Proof.
  assert (Hc : removal_check = true) by (vm_compute; reflexivity). unfold removal_check, removal_state in Hc.
  destruct (db_Open demo_cache demo_conf (mkFile [] 0) _) as [w [db|e|]] eqn:Ho; [|done..].
  destruct (db_after _ _ _ db w three_tables) as [db1 w1] eqn:Ha.
  destruct (db_step _ _ _ db1 w1 CFlush) as [[db2 w2] [[u|e|]| | |]] eqn:Hs; try discriminate Hc.
  apply andb_prop in Hc as [H1%bool_decide_eq_true H2%bool_decide_eq_true].
  exists w, db, db1, w1, db2, w2, e. split; [reflexivity|]. split; [exact Ha|]. split; [exact H1|].
  split; [exact Hs|exact H2].
Qed.
