(* ===== verification/DbCorrupt.v ===== *)
(** * A damaged table ([src/db/db.go], [src/sstable])

    Every block carries a checksum, and reading a block with a changed byte fails
    ([block_corruption_detected]). [searchSSTables] answers such an error, like every error of
    a lookup, with "not found": the damage is detected and not reported, and the key is absent
    although older tables and the log are intact. *)

From stdpp Require Import gmultiset.
From S2P Require Import Prelude Config Base Mvcc Memtable Bloom Cache Bufio Wal Block Fs Sstable.
From S2P Require Import SstReader Store Compaction Db Heap Scan DbRefine DbRuns DbRecover.

(** ** A block with a changed byte cannot be read *)

Lemma take_insert_in {A} (l : list A) i n x : (i < n)%nat -> take n (<[i := x]> l) = <[i := x]> (take n l).
Proof.
  revert l n. induction i as [|i IH]; intros [|y l] [|n] Hi; simpl; try done; try lia. by rewrite IH by lia.
Qed.

Lemma drop_insert_in {A} (l : list A) i n x : (n <= i)%nat -> drop n (<[i := x]> l) = <[(i - n)%nat := x]> (drop n l).
Proof.
  revert l i. induction n as [|n IH]; intros l i Hi; [by rewrite !drop_0, Nat.sub_0_r|].
  destruct l as [|y l]; [done|]. destruct i as [|i]; [lia|]. simpl. apply IH. lia.
Qed.

Lemma read_block_changed (fs : FS) path (idx : IndexEntry) (es : list kv) (d : bytes) (j : nat) (x y : byte) :
  fs !! path = Some (File d) -> read_block_file fs path idx = Ok es ->
  Offset idx <= Z.of_nat j < Offset idx + Length idx -> d !! j = Some y -> x <> y ->
  read_block_file (<[path := File (<[j := x]> d)]> fs) path idx = Err (Errorf "block CRC mismatch").
Proof.
  intros Hd Hr Hj Hy Hne. pose proof (lookup_lt_Some _ _ _ Hy) as Hlt. revert Hr.
  unfold read_block_file, os_Open. rewrite Hd, lookup_insert_eq. cbn [rbind].
  unfold seek_start, blen. rewrite length_insert. destruct (Z.ltb_spec (Offset idx) 0); [done|]. cbn [rbind].
  rewrite Z.min_l by lia. destruct (Z.ltb_spec (Length idx) 0); [done|].
  unfold io_ReadFull, blen. rewrite drop_insert_in by lia. rewrite length_insert, length_drop.
  case_if; [lia|]. case_if; [done|]. case_if; [done|]. cbn [rbind]. rewrite take_insert_in by lia.
  intros Hdec. apply (decodeBlock_changed _ _ x y es Hdec); [|done].
  rewrite lookup_take_lt by lia. rewrite lookup_drop. by replace (Z.to_nat (Offset idx) + (j - Z.to_nat (Offset idx)))%nat with j by lia.
Qed.

(** ** The read of the key *)

(** The index entry of the block where a lookup starts. *)
Definition seek_entry (sst : SSTable) (k : bytes) (s : Z) : result IndexEntry :=
  let* i := searchIndex (sst_index sst) (EncodeSearchKeyAt k s) in
  index_at (sst_index sst) (if i <? 0 then 0 else i).

Section corrupt.
Context `{BT : BTree kv Item_Less} {BL : BTreeLaws kv Item_Less}.
Context {C : Type} `{CL : CacherLaws (list kv) C}.
Implicit Types (db : DB C) (w : World).

(** A block that is not in the cache is read from the file, and an error is returned. *)
Lemma readBlock_error (fs : FS) (sst : SSTable) idx (c : C) e :
  cache_ok c -> cache_view c (block_cacheKey (FilePath sst) (Offset idx)) = None ->
  read_block_file fs (FilePath sst) idx = Err e ->
  exists c', readBlock fs sst idx c = (Err e, c').
Proof.
  intros Hok Hv Hr. unfold readBlock, cbind at 1. destruct (has_cache sst).
  - destruct (cache_Get_spec c (block_cacheKey (FilePath sst) (Offset idx)) Hok) as (c' & Hg & _).
    unfold cGet. rewrite Hg, Hv. unfold cbind, cret. rewrite Hr. by exists c'.
  - unfold cbind, cret. rewrite Hr. by exists c.
Qed.

Lemma Lookup_error (fs : FS) (sst : SSTable) k s idx (c : C) e :
  MightContain (sst_bloom sst) k = Ok true -> seek_entry sst k s = Ok idx ->
  cache_ok c -> cache_view c (block_cacheKey (FilePath sst) (Offset idx)) = None ->
  read_block_file fs (FilePath sst) idx = Err e ->
  exists c', Lookup fs sst k s c = (Err e, c').
Proof.
  intros Hm Hidx Hok Hv Hr. destruct (readBlock_error fs sst idx c e Hok Hv Hr) as (c' & Hb). exists c'.
  unfold seek_entry in Hidx. destruct (searchIndex _ _) as [i|?|] eqn:Hs; try done. cbn [rbind] in Hidx.
  unfold Lookup, NewIterator. unfold cbind at 1, cret at 1. rewrite Hm. cbn [negb]. unfold cbind at 1.
  cbv zeta. unfold cbind at 1, cret at 1. rewrite Hs. unfold cbind at 1, loadBlock at 1.
  cbn [it_sst blockIdx]. rewrite (proj2 (Z.leb_gt _ _)).
  - unfold cbind at 1, cret at 1. rewrite Hidx. unfold cbind at 1. by rewrite Hb.
  - unfold index_at in Hidx. destruct ((0 <=? (if i <? 0 then 0 else i)) && _) eqn:E; [|done].
    apply andb_prop in E as [_ E%Z.ltb_lt]. exact E.
Qed.

(** The entry where a lookup starts is one of the table, so its block can be read. *)
Lemma seek_entry_block (fs : FS) truth (sst : SSTable) blocks k s idx :
  table_ok fs truth sst blocks -> seek_entry sst k s = Ok idx ->
  exists b, read_block_file fs (FilePath sst) idx = Ok b.
Proof.
  intros Ht. unfold seek_entry. destruct (searchIndex _ _) as [i|?|]; try done. cbn [rbind]. unfold index_at.
  destruct ((0 <=? _) && _); [|done]. destruct (sst_index sst !! _) as [e|] eqn:E; [|done]. intros [= <-].
  destruct (Forall2_lookup_l _ _ _ _ _ (to_blocks _ _ _ _ Ht) E) as (b & _ & Hb & _). by exists b.
Qed.

(** C30: a damaged block is reported as an absent key. Take any state of the database in which
    the key is not in the memtable and is live in the newest table, and change one byte of the
    block in which the lookup starts, a block that is not in the cache. The checksum reveals
    it, but where the database answered the value before it now answers that there is no such
    key, without an error. *)
Theorem corrupt_block_reads_as_absent (a : abs) (db : DB C) (w : World) (k v : bytes) (s : Z) (sst : SSTable)
    (older : list SSTable) (e : kv) (idx : IndexEntry) (d : bytes) (j : nat) (x y : byte) :
  sim a db w -> s ∈ a_pins a \/ a_seq a <= s <= SeqNumMax ->
  newest k s (mt_items (db_mem db)) = None -> db_tables db = sst :: older ->
  newest k s (table_recs (w_fs w) sst) = Some e -> Kind (ik e) = InternalKeyKindSet -> Value e = v ->
  seek_entry sst k s = Ok idx -> cache_view (db_cache db) (block_cacheKey (FilePath sst) (Offset idx)) = None ->
  w_fs w !! FilePath sst = Some (File d) -> Offset idx <= Z.of_nat j < Offset idx + Length idx ->
  d !! j = Some y -> x <> y ->
  (GetAt db w k s).2 = Ok (Some v)
  /\ (GetAt db (mkWorld (<[FilePath sst := File (<[j := x]> d)]> (w_fs w)) (w_now w)) k s).2 = Ok None.
Proof.
  intros Hsim Hs Hmem Htab He Hset Hval Hidx Hcv Hd Hj Hy Hne. pose proof Hsim as [Hinv _ _ _].
  pose proof (readable_range _ _ _ _ Hinv (sim_readable _ _ _ _ Hsim Hs)) as Hrange.
  pose proof Hinv as [(truth & Hst & Hc) Hm _ Hrec _ _ _ _ _].
  pose proof (so_good _ _ _ _ _ Hst) as Hg. rewrite Htab in Hg. apply Forall_cons_1 in Hg as [(blocks & Ht & _) _]. split.
  - destruct (GetAt_levels truth db w k s Hm (so_good _ _ _ _ _ Hst) Hc Hrec Hrange) as (c' & -> & _). cbn [snd].
    unfold stored. rewrite <- search_levels_newest by done. unfold levels. rewrite Htab.
    cbn [fmap list_fmap search_levels]. rewrite Hmem, He. unfold read_result. by rewrite Hset, Hval.
  - unfold GetAt. rewrite mt_Get_newest, Hmem by done. cbn [lookup_result]. rewrite Htab. cbn [w_fs searchSSTables].
    destruct (seek_entry_block _ _ _ _ _ _ _ Ht Hidx) as (b & Hb).
    destruct (Lookup_error (<[FilePath sst := File (<[j := x]> d)]> (w_fs w)) sst k s idx (db_cache db) (Errorf "block CRC mismatch")) as (c' & Hl);
      [|exact Hidx|apply Hc|exact Hcv|by eapply read_block_changed|by rewrite Hl].
    rewrite (table_recs_ok _ _ _ _ Ht) in He. apply newest_Some in He as (Hin & Hv & _).
    apply visible_in_true in Hv as [<- _]. by apply (to_bloom _ _ _ _ Ht).
Qed.
End corrupt.

(** ** A byte of the only block *)

Definition damage_db : DB (ShardedLRU (list kv)) := fresh_db demo_cache demo_conf.
Definition damage_world : World := mkWorld (<[SSTDir demo_conf := Dir]> ∅) 0.
Definition damage_calls : list call := [CPut (bytes_of "a") (bytes_of "1"); CFlush].
Definition damaged : DB (ShardedLRU (list kv)) * World :=
  db_after demo_bloom new_file Z.succ damage_db damage_world damage_calls.

(** The table of the flush, the index entry of its block, its file and its record. *)
Definition damage_sst : SSTable :=
  match db_tables damaged.1 with sst :: _ => sst | [] => mkSST [] [] demo_bloom false end.
Definition damage_idx : IndexEntry :=
  match seek_entry damage_sst (bytes_of "a") SeqNumMax with Ok idx => idx | _ => mkIndexEntry [] 0 0 end.
Definition damage_file : bytes :=
  match w_fs damaged.2 !! FilePath damage_sst with Some (File d) => d | _ => [] end.
Definition damage_rec : kv := new_rec (bytes_of "a") 1 InternalKeyKindSet (bytes_of "1").

Lemma damaged_sim : sim (abs_after (mkAbs [] ∅) damage_calls) damaged.1 damaged.2.
Proof.
  destruct (sim_fresh demo_cache demo_conf ∅ 0 demo_fresh) as (db & Ho & Hsim); [apply new_cache_true; lia|].
  rewrite Open_fresh in Ho by apply demo_fresh. injection Ho as <-.
  apply (sim_after (WL := os_File_WriterLaws) demo_bloom new_file Z.succ demo_bloom_ok (fun _ => eq_refl) (fun t => Z.lt_succ_diag_r t) _ _ _ _ Hsim).
  - repeat (split; [first [exact I|reflexivity]|]). exact I.
  - apply run_few_in_order. vm_compute. reflexivity.
Qed.

Lemma corrupt_block_reads_as_absent_witness :
  (GetAt damaged.1 damaged.2 (bytes_of "a") SeqNumMax).2 = Ok (Some (bytes_of "1"))
  /\ (GetAt damaged.1 (mkWorld (<[FilePath damage_sst := File (<[4%nat := Byte.xff]> damage_file)]> (w_fs damaged.2))
        (w_now damaged.2)) (bytes_of "a") SeqNumMax).2 = Ok None.
Proof.
  apply (corrupt_block_reads_as_absent (abs_after (mkAbs [] ∅) damage_calls) damaged.1 damaged.2 (bytes_of "a")
    (bytes_of "1") SeqNumMax damage_sst [] damage_rec damage_idx damage_file 4 Byte.xff Byte.x09).
  - exact damaged_sim.
  - right. vm_compute. split; congruence.
  - vm_compute. reflexivity.
  - vm_compute. reflexivity.
  - vm_compute. reflexivity.
  - vm_compute. reflexivity.
  - reflexivity.
  - vm_compute. reflexivity.
  - vm_compute. reflexivity.
  - vm_compute. reflexivity.
  - vm_compute. split; congruence.
  - vm_compute. reflexivity.
  - discriminate.
Defined.
