(* ===== verification/DbOverflow.v ===== *)
(** * Running out of sequence numbers ([src/db/operations.go], [src/internal/base])

    The trailer of an internal key has 56 bits for the sequence number, and the largest one is
    reserved for search keys. [encodeNextKey] counts in 64 bits and checks neither: after
    2^56 - 2 writes the next record gets the reserved number, and the one after that the
    number zero, which makes it older than every version of its key. *)

From stdpp Require Import gmultiset.
From S2P Require Import Prelude Config Base Mvcc Memtable Bloom Cache Bufio Wal Block Fs Sstable.
From S2P Require Import SstReader Store Compaction Db Heap Scan DbRefine DbRuns DbRecover.

(** The number of a record is the count modulo 2^56. *)
Lemma MakeTrailer_wraps seq kind :
  0 <= seq -> 0 <= kind < 256 -> MakeTrailer seq kind = MakeTrailer (seq mod 2 ^ 56) kind.
Proof.
  intros Hs Hk. unfold MakeTrailer, uwrap. f_equal. rewrite !Z.shiftl_mul_pow2 by lia.
  change (2 ^ 64) with (2 ^ 56 * 2 ^ 8). rewrite Z.mul_mod_distr_r, Z.mul_mod_distr_r by lia.
  by rewrite Z.mod_mod.
Qed.

Lemma next_number db_seq key kind :
  0 <= db_seq <= SeqNumMax -> 0 <= kind <= 1 ->
  SeqNum (MakeInternalKey key (u64 (db_seq + 1)) kind) = (db_seq + 1) mod 2 ^ 56.
Proof.
  rewrite SeqNumMax_val. intros Hs Hk. rewrite uwrap_small by lia.
  unfold SeqNum, MakeInternalKey. cbn [Trailer]. rewrite MakeTrailer_wraps by lia.
  pose proof (Z.mod_pos_bound (db_seq + 1) (2 ^ 56) ltac:(lia)).
  apply trailer_SeqNum_make; [rewrite SeqNumMax_val|]; lia.
Qed.

Section overflow.
Context `{BT : BTree kv Item_Less} {BL : BTreeLaws kv Item_Less}.
Context {C : Type} `{CL : CacherLaws (list kv) C}.
Context {W : Type} `{WL : WriterLaws W}.
Context (bloom0 : BloomFilter) (newFile : bytes -> W) (tick : Z -> Z).
Implicit Types (db : DB C) (w : World).

(** An older record does not change what is read. *)
Lemma insert_older mt (r e : kv) s :
  mt_ok mt -> wf_kv r -> (forall x, x ∈ mt_items mt -> Key x <> Key r) ->
  newest (uk r) s (mt_items mt) = Some e -> trl r <= trl e ->
  newest (uk r) s (mt_items (mt_insert mt (Key r) (Value r))) = Some e.
Proof.
  intros Hok Hr Hfresh He Hle. assert (Hr' : mkKV (Key r) (Value r) = r) by (by destruct r).
  assert (Hok' : mt_ok (mt_insert mt (Key r) (Value r))) by (apply mt_insert_ok; by rewrite ?Hr').
  apply newest_Some in He as (Hin & Hv & Hmax).
  assert (Hitems : forall y, y ∈ mt_items (mt_insert mt (Key r) (Value r)) <-> y = r \/ y ∈ mt_items mt).
  { intros y. rewrite mt_insert_items by (by rewrite ?Hr'). by rewrite Hr', elem_of_cons. }
  apply newest_intro; [apply Hok'|apply mt_items_coherent, Hok'|apply Hitems; by right|done|].
  intros y [->|Hy]%Hitems Hvy; [done|by apply Hmax].
Qed.

(** C31: the sequence numbers run out silently. In a database whose last record has the
    largest number, 2^56 - 1 (the one reserved for searches), a [Put] of a key that is live in
    the memtable is acknowledged, but its record has the number zero: a later [Get] still
    answers the old value. *)
Theorem sequence_overflow_loses_write (db : DB C) (w : World) (es : list kv) (k v : bytes) (e : kv) :
  mt_ok (db_mem db) -> wal_inv (db_wal db) es -> db_seq db = SeqNumMax ->
  (forall x, x ∈ mt_items (db_mem db) -> 0 < seqn x) ->
  newest k SeqNumMax (mt_items (db_mem db)) = Some e -> Kind (ik e) = InternalKeyKindSet ->
  blen k <= MAX_KEY_LENGTH -> blen v <= MAX_VALUE_LENGTH ->
  mt_Size (db_mem db) + blen k + 8 + blen v < DEFAULT_MEMTABLE_FLUSH_SIZE ->
  exists db', Put bloom0 newFile tick db w k v = (db', w, Ok tt)
    /\ db_seq db' = 2 ^ 56 /\ (Get db' w k).2 = Ok (Some (Value e)).
Proof.
  intros Hm Hw Hq Hpos He Hk Hkl Hvl Hsz.
  destruct (new_rec_facts k 0 InternalKeyKindSet v) as (Hwf & Huk & Hsn & _); [by vm_compute|by vm_compute|done..|].
  set (r := new_rec k 0 InternalKeyKindSet v) in *.
  assert (Hkey : encodeIK (MakeInternalKey k (u64 (db_seq db + 1)) InternalKeyKindSet) = Key r).
  { rewrite Hq. unfold r, new_rec, MakeInternalKey. cbn [Key]. do 2 f_equal. }
  assert (Hlen : blen (Key r) = blen k + 8) by (unfold blen; simpl; rewrite encodeIK_length; simpl; lia).
  destruct (wal_write_inv (db_wal db) es (Key r) v Hw) as (wal' & Hww & _).
  exists (mkDB wal' (mt_insert (db_mem db) (Key r) v) (db_tables db) (db_conf db) (db_cache db) (2 ^ 56) (db_wm db)).
  split; [|split; [done|]].
  - unfold Put. rewrite (proj2 (Z.ltb_ge _ _)), (proj2 (Z.ltb_ge MAX_VALUE_LENGTH _)) by done.
    unfold encodeNextKey. rewrite Hkey. cbn [db_wal]. unfold wal_Put. rewrite Hww. unfold flushIfFullLocked.
    rewrite (proj2 (Z.ltb_lt _ _)); [by rewrite Hq|].
    cbn [set_wal_mem db_mem]. unfold mt_Size, mt_Put, mt_insert in *. cbn [mt_size Value].
    change (Key (mkKV (Key r) v)) with (Key r). lia.
  - unfold Get, GetAt. cbn [db_mem]. rewrite mt_Get_newest; [|apply mt_insert_ok; [done|exact Hwf]|by vm_compute].
    pose proof (insert_older (db_mem db) r e SeqNumMax Hm Hwf) as Hn. rewrite Huk in Hn.
    change (Value r) with v in Hn. rewrite Hn; [cbn [lookup_result]; by rewrite Hk| |exact He|].
    + intros x Hx Heq. assert (seqn x = seqn r) by (unfold seqn, ik; by rewrite Heq). specialize (Hpos x Hx). lia.
    + apply newest_Some in He as (Hin & _ & _). apply Z.lt_le_incl, seqn_lt_trl. rewrite Hsn. by apply Hpos.
Qed.
End overflow.

(** ** A database whose log ends with the largest number *)

Definition last_rec : kv := new_rec (bytes_of "a") SeqNumMax InternalKeyKindSet (bytes_of "1").
Definition last_log : os_File := mkFile (log [last_rec]) (length (log [last_rec])).

(** What [Open] makes of it. *)
Definition last_db : DB (ShardedLRU (list kv)) :=
  match (db_Open demo_cache demo_conf last_log (mkWorld ∅ 0)).2 with Ok db => db | _ => fresh_db demo_cache demo_conf end.

Lemma sequence_overflow_loses_write_witness :
  exists db', Put demo_bloom new_file Z.succ last_db (mkWorld ∅ 0) (bytes_of "a") (bytes_of "2") = (db', mkWorld ∅ 0, Ok tt)
    /\ db_seq db' = 2 ^ 56 /\ (Get db' (mkWorld ∅ 0) (bytes_of "a")).2 = Ok (Some (bytes_of "1")).
Proof.
  assert (Hi : mt_items (db_mem last_db) = [last_rec]) by (vm_compute; reflexivity).
  apply (sequence_overflow_loses_write (WL := os_File_WriterLaws) demo_bloom new_file Z.succ last_db (mkWorld ∅ 0) [last_rec]
    (bytes_of "a") (bytes_of "2") last_rec).
  - assert (Ht : tree (db_mem last_db) = [last_rec]) by (vm_compute; reflexivity).
    split; [rewrite Ht; constructor; constructor|]. rewrite Hi. constructor; [|constructor].
    split; vm_compute; [congruence|reflexivity].
  - assert (Hw : db_wal last_db = wal_Open last_log) by (vm_compute; reflexivity). rewrite Hw. apply wal_Open_log_inv.
  - vm_compute. reflexivity.
  - rewrite Hi. clear Hi. intros x Hx. apply list_elem_of_singleton in Hx. rewrite Hx. vm_compute. reflexivity.
  - vm_compute. reflexivity.
  - vm_compute. reflexivity.
  - vm_compute. congruence.
  - vm_compute. congruence.
  - vm_compute. reflexivity.
Defined.
