(* ===== verification/HcdbServer.v ===== *)
(** * The server program ([src/cmd/hcdb-server/main.go])

    The configuration from the environment, with what [path/filepath] makes of it, and the
    life of the process: open the database, serve until the context is cancelled, close. The
    calls the connections make on the database are a list, in the order in which they take
    its lock; what they are is in [Server], and when [Serve] returns is in [ServerConns].

    The theorems: the log and the tables never get in each other's way, whatever the
    environment says; a process that is asked to stop loses no write; one whose [Serve] fails
    does not close the database and may lose acknowledged writes. *)

From stdpp Require Import gmultiset.
From S2P Require Import Prelude Config Base Mvcc Memtable Bloom Cache Bufio Wal Block Fs Sstable.
From S2P Require Import SstReader Store Compaction Db Heap Scan DbRefine DbRuns DbRecover.

(** ** Paths ([path/filepath] on Unix) *)

Definition dot : byte := Byte.x2e.

(** [strings.Split(path, "/")] and [strings.Join(elems, "/")] *)
Fixpoint split_slash (path : bytes) : list bytes :=
  match path with
  | [] => [[]]
  | c :: path' =>
      if decide (c = slash) then [] :: split_slash path'
      else match split_slash path' with
           | [] => [[c]]
           | x :: rest => (c :: x) :: rest
           end
  end.

Fixpoint join_slash (elems : list bytes) : bytes :=
  match elems with
  | [] => []
  | [x] => x
  | x :: rest => x ++ slash :: join_slash rest
  end.

(** One path element: empty ones and [.] are dropped, [..] removes the element before it,
    or is dropped at the root. [out] is the path so far, last element first. *)
Definition clean_elem (rooted : bool) (out : list bytes) (elem : bytes) : list bytes :=
  if decide (elem = [] \/ elem = [dot]) then out
  else if decide (elem = [dot; dot]) then
    match out with
    | x :: rest => if decide (x = [dot; dot]) then elem :: out else rest
    | [] => if rooted then [] else [elem]
    end
  else elem :: out.

Definition clean_elems (path : bytes) : list bytes :=
  foldl (clean_elem (bool_decide (head path = Some slash))) [] (split_slash path).

Definition filepath_Clean (path : bytes) : bytes :=
  match path with
  | [] => [dot]
  | _ =>
      let body := join_slash (reverse (clean_elems path)) in
      if bool_decide (head path = Some slash) then slash :: body
      else match body with [] => [dot] | _ => body end
  end.

Fixpoint filepath_Join (elems : list bytes) : bytes :=
  match elems with
  | [] => []
  | [] :: rest => filepath_Join rest
  | _ => filepath_Clean (join_slash elems)
  end.

(** ** The configuration *)

(** [os.Getenv] answers the empty string for a variable that is not set. *)
Definition getenv (env : bytes -> bytes) (key fallback : bytes) : bytes :=
  match env key with [] => fallback | v => v end.

Definition main_addr (env : bytes -> bytes) : bytes :=
  getenv env (bytes_of "HCDB_ADDR") (bytes_of ":6380").

Definition main_config (env : bytes -> bytes) : Config :=
  let dataDir := getenv env (bytes_of "HCDB_DATA_DIR") (bytes_of "assets") in
  mkConfig (filepath_Join [dataDir; bytes_of "server.wal"])
           (filepath_Join [dataDir; bytes_of "server-sstables"]).

(** ** The process *)

(** What a process finds and leaves on disk: the log, and the tables with the clock. *)
Record files := mkFiles { f_world : World; f_log : os_File }.

Inductive outcome :=
| OpenFailed (e : goerror)                      (* [log.Fatalf("open db: ...")] *)
| OpenPanicked
| ServeFailed (e : goerror) (f : files)         (* [log.Fatalf("serve: ...")] *)
| ServePanicked (f : files)                     (* a goroutine panicked *)
| Stopped (close : option goerror) (f : files). (* the end of [main], after its defers *)

Section main.
Context `{BT : BTree kv Item_Less} {C : Type} `{CC : Cacher (list kv) C}.
Context {W : Type} `{WL : WriterLaws W}.
Variables (bloom0 : BloomFilter) (newFile : bytes -> W) (tick : Z -> Z) (newCache : C).

(** [serve] is what [Serve] does to the database until it returns [nil] or an error, or a
    goroutine panics. [log.Fatalf] and a panic end the process at once: the deferred
    [database.Close] does not run. *)
Definition main_with (env : bytes -> bytes) (f : files) (serve : DB C -> World -> DB C * World * result unit) : outcome :=
  match db_Open newCache (main_config env) (f_log f) (f_world f) with
  | (_, Err e) => OpenFailed e
  | (_, Panic) => OpenPanicked
  | (w, Ok database) =>
      let '(database, w, r) := serve database w in
      match r with
      | Err e => ServeFailed e (mkFiles w (bw_wr (BufWriter (db_wal database))))
      | Panic => ServePanicked (mkFiles w (bw_wr (BufWriter (db_wal database))))
      | Ok _ =>
          let '(database, err) := Close database in
          Stopped err (mkFiles w (bw_wr (BufWriter (db_wal database))))
      end
  end.

(** [cs] are the calls on the database while the server runs, and [r] is what [Serve]
    returns. *)
Definition main (env : bytes -> bytes) (f : files) (cs : list call) (r : option goerror) : outcome :=
  main_with env f (fun database w =>
    (db_after bloom0 newFile tick database w cs, match r with None => Ok tt | Some e => Err e end)).
End main.

(** ** Lemmas *)

Lemma split_slash_name (n : bytes) : slash ∉ n -> split_slash n = [n].
Proof.
  induction n as [|c n IH]; intros Hn; [done|]. cbn [split_slash].
  rewrite decide_False by (intros ->; apply Hn, list_elem_of_here).
  by rewrite IH by (intros Hin; by apply Hn, list_elem_of_further).
Qed.

Lemma split_slash_ne (p : bytes) : split_slash p <> [].
Proof. destruct p as [|c p]; [done|]. cbn [split_slash]. case_decide; [done|]. by destruct (split_slash p). Qed.

Lemma split_slash_app (d n : bytes) :
  slash ∉ n -> split_slash (d ++ slash :: n) = split_slash d ++ [n].
Proof.
  intros Hn. induction d as [|c d IH]; cbn [app split_slash].
  - rewrite decide_True by done. by rewrite split_slash_name.
  - rewrite IH. case_decide; [done|]. pose proof (split_slash_ne d). by destruct (split_slash d).
Qed.

Lemma join_slash_snoc (l : list bytes) (n : bytes) :
  l <> [] -> join_slash (l ++ [n]) = join_slash l ++ slash :: n.
Proof.
  induction l as [|x l IH]; intros Hl; [done|]. destruct l as [|y l]; [done|].
  change (join_slash ((x :: y :: l) ++ [n])) with (x ++ slash :: join_slash ((y :: l) ++ [n])).
  rewrite IH by done. change (join_slash (x :: y :: l)) with (x ++ slash :: join_slash (y :: l)).
  by rewrite <- app_assoc.
Qed.

(** An ordinary file name. *)
Definition plain_name (n : bytes) : Prop :=
  (slash ∉ n) /\ n <> [] /\ n <> [dot] /\ n <> [dot; dot].

#[global] Instance plain_name_dec n : Decision (plain_name n).
Proof. unfold plain_name. apply _. Defined.

(** The directory part of [Join(d, n)], the same for every name. *)
Definition join_dir (d : bytes) : bytes :=
  let st := clean_elems d in
  (if bool_decide (head d = Some slash) then [slash] else [])
  ++ match st with [] => [] | _ => join_slash (reverse st) ++ [slash] end.

Lemma filepath_Join_name (d n : bytes) :
  d <> [] -> plain_name n -> filepath_Join [d; n] = join_dir d ++ n.
Proof.
  intros Hd (Hs & Hne & Hdot & Hdd). destruct d as [|c d]; [done|].
  change (filepath_Join [c :: d; n]) with (filepath_Clean ((c :: d) ++ slash :: n)).
  assert (Hel : clean_elems ((c :: d) ++ slash :: n) = n :: clean_elems (c :: d)).
  { unfold clean_elems. rewrite split_slash_app, foldl_app by done. cbn [foldl].
    change (head ((c :: d) ++ slash :: n)) with (head (c :: d)). unfold clean_elem at 1.
    rewrite decide_False by (intros [?|?]; done). by rewrite decide_False. }
  unfold filepath_Clean. change ((c :: d) ++ slash :: n) with (c :: (d ++ slash :: n)) in *.
  rewrite Hel, reverse_cons. unfold join_dir.
  change (head (c :: (d ++ slash :: n))) with (head (c :: d)).
  assert (Hbody : join_slash (reverse (clean_elems (c :: d)) ++ [n])
    = match clean_elems (c :: d) with [] => [] | _ => join_slash (reverse (clean_elems (c :: d))) ++ [slash] end ++ n).
  { destruct (clean_elems (c :: d)) as [|x st] eqn:E; [done|].
    rewrite join_slash_snoc by (rewrite reverse_cons; by destruct (reverse st)). by rewrite <- app_assoc. }
  rewrite Hbody. case_bool_decide; [done|]. cbn [app].
  destruct (_ ++ n) as [|y l] eqn:E; [|done]. apply app_nil in E as [_ ->]. done.
Qed.

Lemma getenv_nonempty env key fallback : fallback <> [] -> getenv env key fallback <> [].
Proof. unfold getenv. by destruct (env key). Qed.

Lemma main_config_paths env :
  exists dir, WALPath (main_config env) = dir ++ bytes_of "server.wal"
    /\ SSTDir (main_config env) = dir ++ bytes_of "server-sstables".
Proof.
  assert (Hn : getenv env (bytes_of "HCDB_DATA_DIR") (bytes_of "assets") <> [])
    by (by apply getenv_nonempty).
  exists (join_dir (getenv env (bytes_of "HCDB_DATA_DIR") (bytes_of "assets"))).
  unfold main_config. cbn [WALPath SSTDir].
  split; apply filepath_Join_name; try done; apply (bool_decide_unpack (plain_name _)); by vm_compute.
Qed.

(** ** Properties *)

(** Whatever the environment says, the log lies beside the table directory: the two paths
    are [<dir>/server.wal] and [<dir>/server-sstables] with the same cleaned [<dir>], so the
    log is not listed as a table, is no table's file and not the directory itself. *)
Theorem config_paths_apart (env : bytes -> bytes) :
  let conf := main_config env in
  (exists dir, WALPath conf = dir ++ bytes_of "server.wal"
     /\ SSTDir conf = dir ++ bytes_of "server-sstables")
  /\ name_in (SSTDir conf) (WALPath conf) = None
  /\ WALPath conf <> SSTDir conf
  /\ forall t, WALPath conf <> sst_path (SSTDir conf) t.
Proof.
  intros conf. destruct (main_config_paths env) as (dir & Hw & Hs). fold conf in Hw, Hs.
  assert (Hno : forall rest, WALPath conf <> SSTDir conf ++ rest).
  { intros rest Heq. rewrite Hw, Hs, <- app_assoc in Heq. apply app_inv_head in Heq. discriminate Heq. }
  split; [eauto|]. split; [|split; [|intros t; apply Hno]].
  - unfold name_in. destruct (strip_prefix _ _) as [n|] eqn:E; [|done].
    apply strip_prefix_Some in E. rewrite <- app_assoc in E. by destruct (Hno _ E).
  - intros Heq. apply (Hno []). by rewrite app_nil_r.
Qed.

Section process_properties.
Context `{BT : BTree kv Item_Less} {BL : BTreeLaws kv Item_Less}.
Context {C : Type} `{CL : CacherLaws (list kv) C}.
Context {W : Type} `{WL : WriterLaws W} {HR : Reliable W}.
Context (bloom0 : BloomFilter) (newFile : bytes -> W) (tick : Z -> Z) (newCache : C).
Context (bloom0_ok : bloom_ok bloom0) (newFile_empty : forall p, on_file (newFile p) = [])
  (tick_later : forall t, t < tick t) (newCache_empty : forall truth, cache_true truth newCache).

(** A process that is asked to stop loses nothing. Start the program on an empty data
    directory, let its connections make any calls, and let [Serve] return [nil]: the program
    ends without an error, and the next start finds every write: all further calls are
    answered as the abstract database with the whole history answers them. *)
Theorem graceful_stop_loses_nothing (env : bytes -> bytes) (fs : FS) (now : Z) (cs : list call) :
  let conf := main_config env in
  fresh_dir fs (SSTDir conf) ->
  exists w db, db_Open newCache conf (mkFile [] 0) (mkWorld fs now) = (w, Ok db)
    /\ (calls_ok (mkAbs [] ∅) cs -> run_in_order bloom0 newFile tick db w cs ->
        let '(db1, w1) := db_after bloom0 newFile tick db w cs in
        let a2 := mkAbs (a_log (abs_after (mkAbs [] ∅) cs)) ∅ in
        tables_small (w_fs w1) (db_tables db1) -> reopen_in_order (w_fs w1) (SSTDir conf) ->
        exists f2 db2,
          main bloom0 newFile tick newCache env (mkFiles (mkWorld fs now) (mkFile [] 0)) cs None
            = Stopped None f2
          /\ db_Open newCache conf (f_log f2) (f_world f2) = (f_world f2, Ok db2)
          /\ forall cs', calls_ok a2 cs' -> run_in_order bloom0 newFile tick db2 (f_world f2) cs' ->
               db_run bloom0 newFile tick db2 (f_world f2) cs' = abs_run a2 cs').
Proof.
  intros conf Hf. destruct (sim_fresh newCache conf fs now Hf (newCache_empty ∅)) as (db & Ho & Hs).
  eexists _, db. split; [exact Ho|]. intros Hok Hord.
  pose proof (sim_after bloom0 newFile tick bloom0_ok newFile_empty tick_later cs _ _ _ Hs Hok Hord) as Hsim.
  pose proof (db_after_conf bloom0 newFile tick cs db (mkWorld (<[SSTDir conf := Dir]> fs) now)) as Hc1.
  pose proof (clean_after bloom0 newFile tick bloom0_ok newFile_empty tick_later newCache conf fs now cs db Hf
    (newCache_empty ∅) Ho Hok) as Hcl.
  assert (Hc0 : db_conf db = conf).
  { rewrite Open_fresh in Ho by done. by injection Ho as <-. }
  unfold main, main_with. fold conf. cbn [f_log f_world]. rewrite Ho.
  destruct (db_after _ _ _ db _ cs) as [db1 w1]. cbn [fst snd] in *. rewrite Hc0 in Hc1.
  intros Hsm Hro. rewrite <- Hc1 in Hro.
  destruct (restart_after_Close newCache _ db1 w1 Hsim Hcl Hsm Hro newCache_empty) as (db1' & db2 & -> & Ho2 & Hsim2).
  eexists _, db2. split; [done|]. cbn [f_log f_world]. rewrite <- Hc1. split; [done|].
  intros cs' Hok' Hord'. by apply sim_run.
Qed.

Lemma fresh_dir_again (fs : FS) (dir : bytes) : fresh_dir fs dir -> fresh_dir (<[dir := Dir]> fs) dir.
Proof.
  intros Hf. split.
  - intros p [x Hx]. destruct (name_in dir p) as [n|] eqn:E; [|done].
    exfalso. apply (fresh_dir_none fs dir p Hf) in Hx; [done|]. by rewrite E.
  - intros d. by rewrite lookup_insert_eq.
Qed.

(** The first write of a new database, when its record fits in the buffer of the log. *)
Lemma first_Put (conf : Config) (w : World) (k v : bytes) :
  blen k <= MAX_KEY_LENGTH -> blen (record (new_rec k 1 InternalKeyKindSet v)) <= bufio_size ->
  exists db1, db_step bloom0 newFile tick (fresh_db newCache conf) w (CPut k v) = (db1, w, RDone (Ok tt))
    /\ bw_wr (BufWriter (db_wal db1)) = mkFile [] 0.
Proof.
  intros Hk Hlen. set (e := new_rec k 1 InternalKeyKindSet v) in *.
  pose proof Hlen as Hb. rewrite blen_record, writeDataBuff_len in Hb. unfold bufio_size in Hb.
  change (Value e) with v in Hb. pose proof (blen_nonneg (Key e)).
  destruct (first_write_buffered (Key e) v Hlen) as (wal' & Hw & Hd).
  destruct (wal_write_inv _ [] (Key e) v (wal_Open_log_inv [])) as (wal2 & Hw2 & (_ & _ & _ & Hfs)).
  change (mkFile (log []) (length (log []))) with (mkFile [] 0) in Hw2.
  assert (wal2 = wal') as -> by congruence. rewrite Hd in Hfs. simpl in Hfs.
  unfold db_step, Put. rewrite (proj2 (Z.ltb_ge _ _)) by done.
  rewrite (proj2 (Z.ltb_ge MAX_VALUE_LENGTH _)) by (unfold MAX_VALUE_LENGTH; lia).
  unfold encodeNextKey, fresh_db. cbn [db_seq db_wal]. change (u64 (0 + 1)) with 1.
  change (encodeIK (MakeInternalKey k 1 InternalKeyKindSet)) with (Key e). unfold wal_Put. rewrite Hw.
  unfold flushIfFullLocked. rewrite (proj2 (Z.ltb_lt _ _)).
  - eexists. split; [done|]. cbn [set_wal_mem db_wal].
    destruct (bw_wr (BufWriter wal')) as [d n]. simpl in *. f_equal; [done|lia].
  - unfold mt_Size, DEFAULT_MEMTABLE_FLUSH_SIZE. cbn [set_wal_mem db_mem mt_Put mt_insert mt_size NewMemTable Key Value].
    lia.
Qed.

(** C40: when [Serve] fails, acknowledged writes can be lost: [log.Fatalf] leaves without
    closing the database. A first write of a short record is acknowledged, the process ends,
    and after the next start the key is absent. *)
Theorem serve_failure_loses_write (env : bytes -> bytes) (fs : FS) (now : Z) (k v : bytes) (e : goerror) :
  let conf := main_config env in
  fresh_dir fs (SSTDir conf) -> blen k <= MAX_KEY_LENGTH ->
  blen (record (new_rec k 1 InternalKeyKindSet v)) <= bufio_size ->
  exists w db f2 db2 db3,
    db_Open newCache conf (mkFile [] 0) (mkWorld fs now) = (w, Ok db)
    /\ db_run bloom0 newFile tick db w [CPut k v] = [RDone (Ok tt)]
    /\ main bloom0 newFile tick newCache env (mkFiles (mkWorld fs now) (mkFile [] 0)) [CPut k v] (Some e)
       = ServeFailed e f2
    /\ db_Open newCache conf (f_log f2) (f_world f2) = (f_world f2, Ok db2)
    /\ Get db2 (f_world f2) k = (db3, Ok None).
Proof.
  intros conf Hf Hk Hlen. set (w := mkWorld (<[SSTDir conf := Dir]> fs) now).
  destruct (first_Put conf w k v Hk Hlen) as (db1 & Hstep & Hfile).
  destruct (sim_fresh newCache conf (w_fs w) now (fresh_dir_again _ _ Hf) (newCache_empty ∅)) as (db2 & Ho2 & Hsim).
  cbn [w_fs w] in Ho2, Hsim. rewrite insert_insert_eq in Ho2, Hsim. fold w in Ho2, Hsim.
  destruct (sim_GetAt _ db2 w k SeqNumMax Hsim) as (db3 & Hget & _); [right; by vm_compute|].
  exists w, (fresh_db newCache conf), (mkFiles w (mkFile [] 0)), db2, db3.
  split; [by apply Open_fresh|]. cbn [db_run]. rewrite Hstep. split; [done|].
  split; [|by split].
  unfold main, main_with. fold conf. cbn [f_log f_world]. rewrite Open_fresh by done. cbn [db_after]. fold w.
  by rewrite Hstep, Hfile.
Qed.
End process_properties.

(** *** A short life of the program *)

Definition demo_env (_ : bytes) : bytes := [].

(** One write that is flushed, one that is not. *)
Definition demo_process : bool :=
  match db_Open demo_cache (main_config demo_env) (mkFile [] 0) (mkWorld ∅ 0) with
  | (w, Ok db) =>
      run_few demo_bloom new_file Z.succ db w demo_before
      && let '(db1, w1) := db_after demo_bloom new_file Z.succ db w demo_before in
         demo_restart db1 w1
  | _ => false
  end.

Lemma demo_env_fresh : fresh_dir ∅ (SSTDir (main_config demo_env)).
Proof. split; [intros p [x Hx]; by rewrite lookup_empty in Hx|intros d Hd; by rewrite lookup_empty in Hd]. Qed.

Lemma demo_cache_empty truth : cache_true truth demo_cache.
Proof. apply new_cache_true. lia. Qed.

Lemma graceful_stop_loses_nothing_witness :
  exists f2 db2,
    main demo_bloom new_file Z.succ demo_cache demo_env (mkFiles (mkWorld ∅ 0) (mkFile [] 0))
      demo_before None = Stopped None f2
    /\ db_Open demo_cache (main_config demo_env) (f_log f2) (f_world f2) = (f_world f2, Ok db2)
    /\ db_run demo_bloom new_file Z.succ db2 (f_world f2) (CGet <$> [bytes_of "a"; bytes_of "b"])
       = [RValue (Ok (Some (bytes_of "1"))); RValue (Ok (Some (bytes_of "2")))].
Proof.
  destruct (graceful_stop_loses_nothing (C := ShardedLRU (list kv)) (WL := os_File_WriterLaws)
    demo_bloom new_file Z.succ demo_cache demo_bloom_ok (fun _ => eq_refl) (fun t => Z.lt_succ_diag_r t)
    demo_cache_empty demo_env ∅ 0 demo_before demo_env_fresh) as (w & db & Ho & Hrun).
  assert (Hd : demo_process = true) by (vm_compute; reflexivity).
  unfold demo_process in Hd. rewrite Ho in Hd. apply andb_prop in Hd as [Hfew Hd].
  specialize (Hrun demo_calls_ok (run_few_in_order _ _ _ _ _ _ Hfew)).
  pose proof (db_after_conf demo_bloom new_file Z.succ demo_before db w) as Hc.
  assert (Hc0 : db_conf db = main_config demo_env).
  { rewrite Open_fresh in Ho by apply demo_env_fresh. by injection Ho as _ <-. }
  destruct (db_after _ _ _ db w demo_before) as [db1 w1] eqn:Ha. cbn [fst] in Hc. rewrite Hc0 in Hc.
  apply demo_restart_ok in Hd as (_ & _ & Hsm & Hord). rewrite Hc in Hord.
  destruct (Hrun Hsm Hord) as (f2 & db2 & Hmain & Ho2 & Hrun2).
  exists f2, db2. split; [done|]. split; [done|].
  rewrite (Hrun2 (CGet <$> [bytes_of "a"; bytes_of "b"])); [vm_compute; reflexivity| |apply gets_in_order].
  by repeat split.
Defined.

Lemma serve_failure_loses_write_witness :
  exists w db f2 db2 db3,
    db_Open demo_cache (main_config demo_env) (mkFile [] 0) (mkWorld ∅ 0) = (w, Ok db)
    /\ db_run demo_bloom new_file Z.succ db w [CPut (bytes_of "a") (bytes_of "1")] = [RDone (Ok tt)]
    /\ main demo_bloom new_file Z.succ demo_cache demo_env (mkFiles (mkWorld ∅ 0) (mkFile [] 0))
         [CPut (bytes_of "a") (bytes_of "1")] (Some ErrNotExist) = ServeFailed ErrNotExist f2
    /\ db_Open demo_cache (main_config demo_env) (f_log f2) (f_world f2) = (f_world f2, Ok db2)
    /\ Get db2 (f_world f2) (bytes_of "a") = (db3, Ok None).
Proof.
  apply (serve_failure_loses_write (C := ShardedLRU (list kv)) (WL := os_File_WriterLaws)
    demo_bloom new_file Z.succ demo_cache demo_cache_empty demo_env ∅ 0
    (bytes_of "a") (bytes_of "1") ErrNotExist demo_env_fresh); by vm_compute.
Defined.
