(* ===== verification/Resp.v ===== *)
(** * The wire protocol ([src/resp])

    [resp.go] (values), [writer.go] (serialisation through a [bufio.Writer]) and [reader.go]
    (the recursive parser). The reader is the byte stream of a connection: what a client sends
    until it closes, in whatever pieces it arrives ([bufio.Reader] hides the pieces); when the
    stream runs out a read returns [io.EOF] or [io.ErrUnexpectedEOF].

    The theorems: parsing what was written gives the value back and leaves the following bytes,
    on every value the server sends or accepts; a parse depends only on the bytes it consumed
    and always terminates; and a length line can make the parser panic in [make], which ends
    the process. *)

From stdpp Require Import pretty.
From S2P Require Import Prelude Bufio Block Fs.

(** ** [resp.go] *)

Definition SimpleString : byte := Byte.x2b.  (* '+' *)
Definition Error : byte := Byte.x2d.         (* '-' *)
Definition Integer : byte := Byte.x3a.       (* ':' *)
Definition BulkString : byte := Byte.x24.    (* '$' *)
Definition Array : byte := Byte.x2a.         (* '*' *)

(** The struct [Value]; [v_Type] is any byte. *)
Inductive RespValue := mkValue {
  v_Type : byte;
  v_Str : bytes;
  v_Num : Z;
  v_Elems : list RespValue;
  v_Null : bool
}.

Definition SimpleStringValue (s : bytes) : RespValue := mkValue SimpleString s 0 [] false.
Definition ErrorValue (s : bytes) : RespValue := mkValue Error s 0 [] false.
Definition IntegerValue (n : Z) : RespValue := mkValue Integer [] n [] false.
Definition BulkStringValue (s : bytes) : RespValue := mkValue BulkString s 0 [] false.
Definition NullBulkStringValue : RespValue := mkValue BulkString [] 0 [] true.
Definition ArrayValue (elems : list RespValue) : RespValue := mkValue Array [] 0 elems false.
Definition NullArrayValue : RespValue := mkValue Array [] 0 [] true.

(** ** [writer.go] *)

Definition CR : byte := Byte.x0d.
Definition LF : byte := Byte.x0a.
Definition crlf : bytes := [CR; LF].

Section resp_writer.
Context {W : Type} `{WR : Writer W}.

(** One [fmt.Fprintf] is one [Write] of the formatted bytes. *)
Fixpoint resp_write (w : bufio_Writer W) (v : RespValue) {struct v} :
    bufio_Writer W * option goerror :=
  match v with
  | mkValue t str num elems null =>
      if byte_eq_dec t SimpleString then bufio_Write w (SimpleString :: str ++ crlf)
      else if byte_eq_dec t Error then bufio_Write w (Error :: str ++ crlf)
      else if byte_eq_dec t Integer then bufio_Write w (Integer :: fmt_d num ++ crlf)
      else if byte_eq_dec t BulkString then
        if null then bufio_Write w (BulkString :: bytes_of "-1" ++ crlf)
        else bufio_Write w (BulkString :: fmt_d (blen str) ++ crlf ++ str ++ crlf)
      else if byte_eq_dec t Array then
        if null then bufio_Write w (Array :: bytes_of "-1" ++ crlf)
        else
          match bufio_Write w (Array :: fmt_d (blen elems) ++ crlf) with
          | (w, Some e) => (w, Some e)
          | (w, None) =>
              (fix write_elems (w : bufio_Writer W) (es : list RespValue) :=
                match es with
                | [] => (w, None)
                | e :: es' =>
                    match resp_write w e with
                    | (w, Some err) => (w, Some err)
                    | (w, None) => write_elems w es'
                    end
                end) w elems
          end
      else (w, Some (Errorf "resp: unknown type %q"))
  end.

Definition resp_Write (w : bufio_Writer W) (v : RespValue) : bufio_Writer W * option goerror :=
  match resp_write w v with
  | (w, Some e) => (w, Some e)
  | (w, None) => bufio_Flush w
  end.
End resp_writer.

(** ** What [reader.go] uses of the standard library *)

(** [bufio.Reader.ReadString(delim)]: up to and including the first [delim]. *)
Fixpoint ReadString (delim : byte) (r : bytes) : result (bytes * bytes) :=
  match r with
  | [] => Err EOF
  | c :: r' =>
      if byte_eq_dec c delim then Ok ([c], r')
      else let* (line, rest) := ReadString delim r' in Ok (c :: line, rest)
  end.

(** [strconv.ParseInt(s, 10, 64)], and [strconv.Atoi] on a 64-bit machine: an optional sign,
    at least one digit, nothing else, and a value that fits. *)
Fixpoint parse_digits (acc : Z) (s : bytes) : option Z :=
  match s with
  | [] => Some acc
  | c :: s' =>
      let d := byte.unsigned c - 48 in
      if (0 <=? d) && (d <=? 9) then parse_digits (acc * 10 + d) s' else None
  end.

Definition ParseInt (s : bytes) : result Z :=
  let '(neg, digits) := match s with
    | c :: s' => if byte_eq_dec c Byte.x2d then (true, s')
                 else if byte_eq_dec c Byte.x2b then (false, s') else (false, s)
    | [] => (false, [])
    end in
  match digits with
  | [] => Err (Errorf "invalid syntax")
  | _ =>
      match parse_digits 0 digits with
      | None => Err (Errorf "invalid syntax")
      | Some un =>
          let n := if neg then - un else un in
          if (n <? - 2 ^ 63) || (2 ^ 63 <=? n) then Err (Errorf "value out of range") else Ok n
      end
  end.

(** [make([]T, n)]: panics when [n] is negative or the slice is larger than the runtime's
    address space (2^48 bytes on amd64); a [Value] takes 64 bytes. *)
Definition maxAlloc : Z := 2 ^ 48.
Definition sizeof_Value : Z := 64.

Definition go_make (elemSize n : Z) : result unit :=
  if (n <? 0) || (maxAlloc <? elemSize * n) then Panic else Ok tt.

(** ** [reader.go] *)

Definition readLine (r : bytes) : result (bytes * bytes) :=
  let* (line, r) := ReadString LF r in
  let n := length line in
  if (2 <=? n)%nat && bool_decide (line !! (n - 2)%nat = Some CR) then Ok (take (n - 2) line, r)
  else Ok (take (n - 1) line, r).

(** A computation that may run out of fuel ([None]) before it returns a result. *)
Definition fuelled (A : Type) : Type := option (result A).

Definition fbind {A B} (m : fuelled A) (f : A -> fuelled B) : fuelled B :=
  match m with
  | Some (Ok a) => f a
  | Some (Err e) => Some (Err e)
  | Some Panic => Some Panic
  | None => None
  end.

Notation "'let?' p := m 'in' k" := (fbind m (fun p => k))
  (at level 10, p pattern, m at level 100, k at level 200) : go_scope.

(** [Read], and its loop over the elements of an array. [Some Panic] is the panic of [make];
    a call that has not returned when the fuel is used up is [None]. Every call consumes a
    line, so twice the length of the input is enough fuel ([resp_read_total]). *)
Fixpoint resp_read (fuel : nat) (r : bytes) : fuelled (RespValue * bytes) :=
  match fuel with
  | O => None
  | S fuel' =>
      let? (line, r) := Some (readLine r) in
      match line with
      | [] => Some (Err (Errorf "resp: empty line"))
      | t :: arg =>
          if byte_eq_dec t SimpleString then Some (Ok (SimpleStringValue arg, r))
          else if byte_eq_dec t Error then Some (Ok (ErrorValue arg, r))
          else if byte_eq_dec t Integer then
            match ParseInt arg with
            | Ok n => Some (Ok (IntegerValue n, r))
            | _ => Some (Err (Errorf "resp: bad integer %q: %w"))
            end
          else if byte_eq_dec t BulkString then
            match ParseInt arg with
            | Ok n =>
                if n <? 0 then Some (Ok (NullBulkStringValue, r))
                else
                  let? _ := Some (go_make 1 (i64 (n + 2))) in
                  let? (buf, r) := Some (io_ReadFull (n + 2) r) in
                  Some (Ok (BulkStringValue (take (Z.to_nat n) buf), r))
            | _ => Some (Err (Errorf "resp: bad bulk length %q: %w"))
            end
          else if byte_eq_dec t Array then
            match ParseInt arg with
            | Ok n =>
                if n <? 0 then Some (Ok (NullArrayValue, r))
                else
                  let? _ := Some (go_make sizeof_Value n) in
                  let? (elems, r) := read_elems fuel' n r in
                  Some (Ok (ArrayValue elems, r))
            | _ => Some (Err (Errorf "resp: bad array length %q: %w"))
            end
          else Some (Err (Errorf "resp: unknown type byte %q"))
      end
  end
with read_elems (fuel : nat) (n : Z) (r : bytes) : fuelled (list RespValue * bytes) :=
  if n <=? 0 then Some (Ok ([], r))
  else
    match fuel with
    | O => None
    | S fuel' =>
        let? (e, r) := resp_read fuel' r in
        let? (es, r) := read_elems fuel' (n - 1) r in
        Some (Ok (e :: es, r))
    end.

Definition read_fuel (r : bytes) : nat := (2 * length r + 1)%nat.

(** [Read] with the fuel that is always enough: the default is never used. *)
Definition resp_Read (r : bytes) : result (RespValue * bytes) := default Panic (resp_read (read_fuel r) r).

(** ** Encoded values *)

(** The bytes [resp_write] sends, as a function of the value. *)
Fixpoint encode (v : RespValue) : bytes :=
  match v with
  | mkValue t str num elems null =>
      if byte_eq_dec t SimpleString then SimpleString :: str ++ crlf
      else if byte_eq_dec t Error then Error :: str ++ crlf
      else if byte_eq_dec t Integer then Integer :: fmt_d num ++ crlf
      else if byte_eq_dec t BulkString then
        if null then BulkString :: bytes_of "-1" ++ crlf
        else BulkString :: fmt_d (blen str) ++ crlf ++ str ++ crlf
      else if byte_eq_dec t Array then
        if null then Array :: bytes_of "-1" ++ crlf
        else (Array :: fmt_d (blen elems) ++ crlf) ++ concat (encode <$> elems)
      else []
  end.

(** Values whose parse gives them back: lines hold no newline, numbers fit 64 bits, slices fit
    the address space, and the fields that do not belong to the type are zero. *)
Inductive wire_ok : RespValue -> Prop :=
| wire_simple s : LF ∉ s -> wire_ok (SimpleStringValue s)
| wire_error s : LF ∉ s -> wire_ok (ErrorValue s)
| wire_integer n : - 2 ^ 63 <= n < 2 ^ 63 -> wire_ok (IntegerValue n)
| wire_bulk s : blen s + 2 <= maxAlloc -> wire_ok (BulkStringValue s)
| wire_null_bulk : wire_ok NullBulkStringValue
| wire_array es :
    sizeof_Value * blen es <= maxAlloc -> Forall wire_ok es -> wire_ok (ArrayValue es)
| wire_null_array : wire_ok NullArrayValue.

Fixpoint value_ind (P : RespValue -> Prop)
    (step : forall t str num elems null, Forall P elems -> P (mkValue t str num elems null))
    (v : RespValue) : P v :=
  match v with
  | mkValue t str num elems null =>
      step t str num elems null
        ((fix go (es : list RespValue) : Forall P es :=
            match es with
            | [] => Forall_nil_2 P
            | e :: es' => Forall_cons_2 P e es' (value_ind P step e) (go es')
            end) elems)
  end.

(** ** Decimal numbers *)

Lemma parse_digits_char acc d s :
  (d < 10)%N ->
  parse_digits acc (Ascii.byte_of_ascii (pretty_N_char d) :: s) = parse_digits (acc * 10 + Z.of_N d) s.
Proof.
  intros Hd. assert (d = 0 \/ d = 1 \/ d = 2 \/ d = 3 \/ d = 4 \/ d = 5 \/ d = 6 \/ d = 7 \/ d = 8 \/ d = 9)%N as Hc by lia.
  by repeat destruct Hc as [->|Hc]; [..|subst d].
Qed.

Lemma parse_pretty_go x s :
  parse_digits 0 (bytes_of (pretty_N_go x s)) = parse_digits (Z.of_N x) (bytes_of s).
Proof.
  revert s. induction (N.lt_wf_0 x) as [x _ IH]; intros s.
  destruct (decide (x = 0%N)) as [->|Hx]; [by rewrite pretty_N_go_0|].
  rewrite pretty_N_go_step by lia. rewrite IH by (apply N.div_lt; lia).
  rewrite bytes_of_String, parse_digits_char by (apply N.mod_lt; lia).
  f_equal. pose proof (N.div_mod x 10 ltac:(lia)). lia.
Qed.

Lemma parse_pretty (x : N) : parse_digits 0 (bytes_of (pretty x)) = Some (Z.of_N x).
Proof.
  unfold pretty, pretty_N. case_decide; [by subst|]. by rewrite parse_pretty_go.
Qed.

(** The first character of a printed natural number is a digit. *)
Lemma pretty_N_head (x : N) :
  exists c s, bytes_of (pretty x) = c :: s /\ c <> Byte.x2d /\ c <> Byte.x2b.
Proof.
  pose proof (pretty_N_decimal x) as Hd. pose proof (parse_pretty x) as Hp.
  destruct (bytes_of (pretty x)) as [|c s] eqn:E.
  { simpl in Hp. injection Hp as Hx. assert (x = 0%N) as -> by lia. done. }
  exists c, s. split; [done|]. split; intros ->; by vm_compute in Hp.
Qed.

Lemma ParseInt_fmt_d z : - 2 ^ 63 <= z < 2 ^ 63 -> ParseInt (fmt_d z) = Ok z.
Proof.
  intros Hz. unfold fmt_d.
  assert (Hnat : forall x : N, Z.of_N x < 2 ^ 63 -> ParseInt (bytes_of (pretty x)) = Ok (Z.of_N x)).
  { intros x Hx. pose proof (parse_pretty x) as Hp.
    destruct (pretty_N_head x) as (c & s & E & H1 & H2). rewrite E in *. unfold ParseInt.
    destruct (byte_eq_dec c Byte.x2d); [done|]. destruct (byte_eq_dec c Byte.x2b); [done|].
    rewrite Hp. destruct (orb _ _) eqn:Hr; [|done]. apply orb_prop in Hr. lia. }
  destruct z as [|p|p].
  - apply (Hnat 0%N). lia.
  - apply (Hnat (Npos p)). lia.
  - change (bytes_of (pretty (Z.neg p))) with (Byte.x2d :: bytes_of (pretty (Npos p))).
    pose proof (parse_pretty (Npos p)) as Hp. destruct (pretty_N_head (Npos p)) as (c & s & E & _ & _).
    rewrite E in *. unfold ParseInt. destruct (byte_eq_dec Byte.x2d Byte.x2d); [|done].
    rewrite Hp. simpl Z.of_N.
    destruct (orb _ _) eqn:Hr; [|done]. apply orb_prop in Hr. lia.
Qed.

Lemma fmt_d_no_LF z : LF ∉ fmt_d z.
Proof. apply fmt_d_no_char. intros [Hd|Hd]; [done|]. vm_compute in Hd. by destruct Hd. Qed.

(** ** Lines *)

Lemma ReadString_app c l rest : c ∉ l -> ReadString c (l ++ c :: rest) = Ok (l ++ [c], rest).
Proof.
  induction l as [|x l IH]; intros Hn; simpl.
  - destruct (byte_eq_dec c c); done.
  - destruct (byte_eq_dec x c) as [->|]; [destruct Hn; apply list_elem_of_here|].
    rewrite IH; [done|]. intros Hin. by apply Hn, list_elem_of_further.
Qed.

Lemma ReadString_inv c r line r' :
  ReadString c r = Ok (line, r') ->
  exists l, (c ∉ l) /\ line = l ++ [c] /\ r = l ++ c :: r'.
Proof.
  revert line. induction r as [|x r IH]; intros line; simpl; [done|].
  destruct (byte_eq_dec x c) as [->|Hx].
  - intros [= <- <-]. exists []. split; [apply not_elem_of_nil|done].
  - destruct (ReadString c r) as [[line' r'']| |]; simpl; [|done..]. intros [= <- <-].
    destruct (IH line' eq_refl) as (l & Hl & -> & ->). exists (x :: l).
    split; [|done]. rewrite elem_of_cons. by intros [->|?].
Qed.

Lemma readLine_crlf l rest : LF ∉ l -> readLine (l ++ crlf ++ rest) = Ok (l, rest).
Proof.
  intros Hl. unfold readLine. change (l ++ crlf ++ rest) with (l ++ [CR] ++ LF :: rest).
  rewrite app_assoc, ReadString_app.
  - cbn [rbind]. rewrite <- app_assoc, length_app. change (length ([CR] ++ [LF])) with 2%nat.
    rewrite (proj2 (Nat.leb_le 2 (length l + 2))) by lia.
    replace (length l + 2 - 2)%nat with (length l) by lia. rewrite bool_decide_eq_true_2.
    + cbn [andb]. by rewrite take_app_length.
    + by apply list_lookup_middle.
  - rewrite elem_of_app. intros [?|Hin]; [done|]. by apply list_elem_of_singleton in Hin.
Qed.

(** A line that was read is determined by the bytes it consumed. *)
Lemma readLine_local r line r' :
  readLine r = Ok (line, r') ->
  exists p, r = p ++ r' /\ p <> [] /\ forall more, readLine (p ++ more) = Ok (line, more).
Proof.
  unfold readLine. destruct (ReadString LF r) as [[l r1]| |] eqn:E; cbn [rbind]; [|done..].
  apply ReadString_inv in E as (l0 & Hn & -> & ->). intros Hc.
  set (b := andb _ _) in *. assert (Hr : r1 = r') by (destruct b; congruence). subst r1.
  exists (l0 ++ [LF]). split; [by rewrite <- app_assoc|]. split; [by destruct l0|].
  intros more. rewrite <- app_assoc. cbn [app]. rewrite ReadString_app by done. cbn [rbind].
  fold b. destruct b; congruence.
Qed.

(** ** Parsing what was written *)

(** Decides the comparisons of two type bytes in the goal. *)
Ltac type_cases :=
  repeat match goal with
  | |- context [byte_eq_dec ?a ?b] =>
      let E := fresh in destruct (byte_eq_dec a b) as [E|E]; [try discriminate E|try by destruct E]; clear E
  end.

Lemma go_make_ok size n : 0 <= n -> size * n <= maxAlloc -> go_make size n = Ok tt.
Proof. intros H1 H2. unfold go_make. destruct (orb _ _) eqn:E; [|done]. apply orb_prop in E. lia. Qed.

(** A header line: a type byte and a number. *)
Lemma header_line t n rest :
  t <> LF -> - 2 ^ 63 <= n < 2 ^ 63 ->
  readLine ((t :: fmt_d n) ++ crlf ++ rest) = Ok (t :: fmt_d n, rest) /\ ParseInt (fmt_d n) = Ok n.
Proof.
  intros Ht Hn. split; [|by apply ParseInt_fmt_d]. apply readLine_crlf.
  rewrite elem_of_cons. intros [Hin|Hin]; [congruence|by apply fmt_d_no_LF in Hin].
Qed.

Lemma encode_length v : wire_ok v -> (0 < length (encode v))%nat.
Proof. destruct 1; simpl; lia. Qed.

Lemma read_elems_ok es : forall fuel rest,
  Forall (fun v => forall fuel rest, (read_fuel (encode v ++ rest) <= fuel)%nat ->
    resp_read fuel (encode v ++ rest) = Some (Ok (v, rest))) es ->
  Forall wire_ok es -> (S (read_fuel (concat (encode <$> es) ++ rest)) <= fuel)%nat ->
  read_elems fuel (blen es) (concat (encode <$> es) ++ rest) = Some (Ok (es, rest)).
Proof.
  induction es as [|v es IH]; intros fuel rest Hread Hok Hf.
  { destruct fuel; [|done]. unfold read_fuel in Hf. lia. }
  apply Forall_cons_1 in Hread as [Hv Hread]. apply Forall_cons_1 in Hok as [Hvok Hok].
  cbn [fmap list_fmap concat] in *. rewrite <- app_assoc in *. fold (encode <$> es) in *.
  destruct fuel as [|fuel]; [lia|]. cbn [read_elems]. rewrite blen_cons. pose proof (blen_nonneg es).
  destruct (Z.leb_spec (1 + blen es) 0); [lia|]. rewrite Hv by lia. cbn [fbind].
  replace (1 + blen es - 1) with (blen es) by lia. rewrite IH; [done..|].
  pose proof (encode_length v Hvok). unfold read_fuel in *. rewrite length_app in Hf. lia.
Qed.

Lemma resp_read_encode v : wire_ok v -> forall fuel rest,
  (read_fuel (encode v ++ rest) <= fuel)%nat -> resp_read fuel (encode v ++ rest) = Some (Ok (v, rest)).
Proof.
  induction v as [t str num elems null IH] using value_ind. intros Hok fuel rest Hf.
  destruct fuel as [|fuel]; [unfold read_fuel in Hf; lia|].
  inversion Hok as [s Hs|s Hs|n Hn|s Hs| |es Hl Hes| ]; subst; cbn [resp_read].
  - change (encode (mkValue _ _ _ _ _)) with ((SimpleString :: str) ++ crlf).
    rewrite <- app_assoc, readLine_crlf; [done|]. rewrite elem_of_cons. by intros [?|?].
  - change (encode (mkValue _ _ _ _ _)) with ((Error :: str) ++ crlf).
    rewrite <- app_assoc, readLine_crlf; [done|]. rewrite elem_of_cons. by intros [?|?].
  - change (encode (mkValue _ _ _ _ _)) with ((Integer :: fmt_d num) ++ crlf).
    destruct (header_line Integer num rest ltac:(done) Hn) as [Hl Hp].
    rewrite <- app_assoc, Hl. cbn [fbind]. type_cases. by rewrite Hp.
  - change (encode (mkValue _ _ _ _ _)) with ((BulkString :: fmt_d (blen str)) ++ crlf ++ str ++ crlf).
    pose proof (blen_nonneg str). unfold maxAlloc in Hs.
    destruct (header_line BulkString (blen str) (str ++ crlf ++ rest) ltac:(done) ltac:(lia)) as [Hl Hp].
    rewrite <- !app_assoc, Hl. cbn [fbind]. rewrite Hp. type_cases.
    destruct (Z.ltb_spec (blen str) 0); [lia|]. rewrite swrap_small by lia.
    rewrite go_make_ok by (unfold maxAlloc; lia). cbn [fbind].
    rewrite app_assoc, io_ReadFull_app by (by rewrite blen_app). cbn [fbind].
    unfold blen. rewrite Nat2Z.id, take_app_length. done.
  - done.
  - change (encode (mkValue _ _ _ _ _))
      with (((Array :: fmt_d (blen elems)) ++ crlf) ++ concat (encode <$> elems)) in *.
    pose proof (blen_nonneg elems). unfold maxAlloc, sizeof_Value in Hl.
    destruct (header_line Array (blen elems) (concat (encode <$> elems) ++ rest) ltac:(done) ltac:(lia)) as [Hh Hp].
    rewrite <- !app_assoc, Hh. cbn [fbind]. rewrite Hp. type_cases.
    destruct (Z.ltb_spec (blen elems) 0); [lia|].
    rewrite go_make_ok by (unfold maxAlloc, sizeof_Value; lia). cbn [fbind].
    rewrite read_elems_ok; [done| |done|].
    + clear -IH Hes. induction IH as [|v es Hv _ IH]; [constructor|].
      apply Forall_cons_1 in Hes as [Hvok Hes]. constructor; [by apply Hv|by apply IH].
    + unfold read_fuel in *. rewrite <- !app_assoc, !length_app in Hf. rewrite length_app. simpl in Hf. lia.
  - done.
Qed.

Lemma resp_Read_encode v rest : wire_ok v -> resp_Read (encode v ++ rest) = Ok (v, rest).
Proof. intros Hok. unfold resp_Read. by rewrite resp_read_encode. Qed.

(** ** A parse depends only on what it consumed *)

(** The part of [Read] after the line, with the loop over the elements. *)
Definition read_rest (elems : Z -> bytes -> fuelled (list RespValue * bytes)) (line r : bytes) :
    fuelled (RespValue * bytes) :=
  match line with
  | [] => Some (Err (Errorf "resp: empty line"))
  | t :: arg =>
      if byte_eq_dec t SimpleString then Some (Ok (SimpleStringValue arg, r))
      else if byte_eq_dec t Error then Some (Ok (ErrorValue arg, r))
      else if byte_eq_dec t Integer then
        match ParseInt arg with
        | Ok n => Some (Ok (IntegerValue n, r))
        | _ => Some (Err (Errorf "resp: bad integer %q: %w"))
        end
      else if byte_eq_dec t BulkString then
        match ParseInt arg with
        | Ok n =>
            if n <? 0 then Some (Ok (NullBulkStringValue, r))
            else
              let? _ := Some (go_make 1 (i64 (n + 2))) in
              let? (buf, r) := Some (io_ReadFull (n + 2) r) in
              Some (Ok (BulkStringValue (take (Z.to_nat n) buf), r))
        | _ => Some (Err (Errorf "resp: bad bulk length %q: %w"))
        end
      else if byte_eq_dec t Array then
        match ParseInt arg with
        | Ok n =>
            if n <? 0 then Some (Ok (NullArrayValue, r))
            else
              let? _ := Some (go_make sizeof_Value n) in
              let? (elems, r) := elems n r in
              Some (Ok (ArrayValue elems, r))
        | _ => Some (Err (Errorf "resp: bad array length %q: %w"))
        end
      else Some (Err (Errorf "resp: unknown type byte %q"))
  end.

Lemma resp_read_S fuel r :
  resp_read (S fuel) r = (let? (line, r) := Some (readLine r) in read_rest (read_elems fuel) line r).
Proof. done. Qed.

Definition local_parser {A} (f : bytes -> fuelled (A * bytes)) : Prop :=
  forall r v r', f r = Some (Ok (v, r')) ->
    exists p, r = p ++ r' /\ forall more, f (p ++ more) = Some (Ok (v, more)).

Lemma local_ret {A} (a : A) : local_parser (fun r => Some (Ok (a, r))).
Proof. intros r v r' [= <- <-]. by exists []. Qed.

Lemma local_bind {A B} (f : bytes -> fuelled (A * bytes)) (g : A -> bytes -> fuelled (B * bytes)) :
  local_parser f -> (forall a, local_parser (g a)) ->
  local_parser (fun r => let? (a, r) := f r in g a r).
Proof.
  intros Hf Hg r v r'. destruct (f r) as [[[a r1]| |]|] eqn:E; cbn [fbind]; [|done..]. intros E2.
  apply Hf in E as (p & -> & Hp). apply Hg in E2 as (q & -> & Hq). exists (p ++ q).
  split; [by rewrite app_assoc|]. intros more. rewrite <- app_assoc, Hp. apply Hq.
Qed.

Lemma local_fail {A} (x : fuelled (A * bytes)) : (forall p, x <> Some (Ok p)) -> local_parser (fun _ => x).
Proof. intros Hx r v r' E. by destruct (Hx (v, r')). Qed.

Lemma local_ReadFull n : 0 <= n -> local_parser (fun r => Some (io_ReadFull n r)).
Proof.
  intros Hn r b r' [= E]. apply io_ReadFull_inv in E as [-> Hb]; [|done]. exists b. split; [done|].
  intros more. by rewrite io_ReadFull_app.
Qed.

Lemma read_rest_local elems line :
  (forall n, local_parser (elems n)) -> local_parser (read_rest elems line).
Proof.
  intros He. unfold read_rest. destruct line as [|t arg]; [by apply local_fail|].
  destruct (byte_eq_dec t SimpleString); [apply local_ret|].
  destruct (byte_eq_dec t Error); [apply local_ret|].
  destruct (byte_eq_dec t Integer); [destruct (ParseInt arg); [apply local_ret|by apply local_fail..]|].
  destruct (byte_eq_dec t BulkString).
  { destruct (ParseInt arg) as [num| |]; [|by apply local_fail..].
    destruct (Z.ltb_spec num 0); [apply local_ret|].
    destruct (go_make 1 (i64 (num + 2))); cbn [fbind]; [|by apply local_fail..].
    apply (local_bind (fun r => Some (io_ReadFull (num + 2) r))); [apply local_ReadFull; lia|]. intros. apply local_ret. }
  destruct (byte_eq_dec t Array); [|by apply local_fail].
  destruct (ParseInt arg) as [num| |]; [|by apply local_fail..].
  destruct (Z.ltb_spec num 0); [apply local_ret|].
  destruct (go_make sizeof_Value num); cbn [fbind]; [|by apply local_fail..].
  apply local_bind; [done|]. intros. apply local_ret.
Qed.

(** The loop over the elements starts where the line ends: only its results there count. *)
Lemma read_rest_total elems line r :
  (forall n, is_Some (elems n r)) -> is_Some (read_rest elems line r).
Proof.
  intros He. unfold read_rest. destruct line as [|t arg]; [done|].
  destruct (ParseInt arg) as [num| |]; [|repeat case_if; done..]. destruct (He num) as [x Hx]. rewrite Hx.
  repeat case_if; try done; destruct (go_make _ _) as [| |]; try done; cbn [fbind].
  - by destruct (io_ReadFull _ _) as [[]| |].
  - by destruct x as [[]| |].
Qed.

Lemma read_rest_ext e1 e2 line r :
  (forall n, e1 n r = e2 n r) -> read_rest e1 line r = read_rest e2 line r.
Proof.
  intros He. unfold read_rest. destruct line as [|t arg]; [done|].
  destruct (ParseInt arg) as [num| |]; [|done..]. by rewrite He.
Qed.

Lemma local_readLine : local_parser (fun r => Some (readLine r)).
Proof. intros r v r' [= E]. apply readLine_local in E as (p & -> & _ & Hp). exists p. split; [done|]. intros. by rewrite Hp. Qed.

Lemma readLine_shorter r line r1 : readLine r = Ok (line, r1) -> (length r1 < length r)%nat.
Proof. intros (p & -> & Hp & _)%readLine_local. rewrite length_app. destruct p; [done|]. simpl. lia. Qed.

Lemma resp_read_local fuel :
  local_parser (resp_read fuel) /\ forall n, local_parser (read_elems fuel n).
Proof.
  induction fuel as [|fuel [IHr IHe]]; (split; [|intros n; cbn [read_elems];
    destruct (Z.leb_spec n 0); [apply local_ret|]]).
  - by apply local_fail.
  - by apply local_fail.
  - change (resp_read (S fuel)) with (fun r => let? (line, r) := Some (readLine r) in read_rest (read_elems fuel) line r).
    apply (local_bind (fun r => Some (readLine r))); [apply local_readLine|]. intros. by apply read_rest_local.
  - apply local_bind; [done|]. intros e. apply local_bind; [done|]. intros es. apply local_ret.
Qed.

(** A successful read consumes at least the end of a line. *)
Lemma resp_read_consumes fuel r v r' : resp_read fuel r = Some (Ok (v, r')) -> (length r' < length r)%nat.
Proof.
  destruct fuel as [|fuel]; [done|]. rewrite resp_read_S.
  destruct (readLine r) as [[line r1]| |] eqn:E; cbn [fbind]; [|done..]. intros E2.
  apply readLine_shorter in E.
  apply (read_rest_local _ line (proj2 (resp_read_local fuel))) in E2 as (q & -> & _).
  rewrite length_app in E. lia.
Qed.

(** The parser returns: [read_fuel] is enough on every input. *)
Lemma resp_read_total f :
  (forall r, (read_fuel r <= f)%nat -> is_Some (resp_read f r))
  /\ (forall n r, (S (read_fuel r) <= f)%nat -> is_Some (read_elems f n r)).
Proof.
  unfold read_fuel. induction f as [|f [IHr IHe]]; (split; [intros r|intros n r]); intros Hf; [lia|lia|..].
  - rewrite resp_read_S. destruct (readLine r) as [[line r1]| |] eqn:E; [|done..].
    apply readLine_shorter in E. apply read_rest_total. intros n. apply IHe. lia.
  - cbn [read_elems]. destruct (Z.leb_spec n 0); [done|].
    destruct (IHr r ltac:(lia)) as [[[e r1]| |] E]; rewrite E; [|done..]. cbn [fbind].
    apply resp_read_consumes in E. destruct (IHe (n - 1) r1 ltac:(lia)) as [[[es r2]| |] E2]; by rewrite E2.
Qed.

(** More fuel than [read_fuel] does not change the result. *)
Lemma resp_read_fuel f1 :
  (forall f2 r, (read_fuel r <= f1)%nat -> (read_fuel r <= f2)%nat -> resp_read f1 r = resp_read f2 r)
  /\ (forall f2 n r, (S (read_fuel r) <= f1)%nat -> (S (read_fuel r) <= f2)%nat ->
       read_elems f1 n r = read_elems f2 n r).
Proof.
  unfold read_fuel. induction f1 as [|f1 [IHr IHe]]; split; intros f2; [lia|lia|intros r|intros n r];
    intros H1 H2; (destruct f2 as [|f2]; [lia|]).
  - rewrite !resp_read_S. destruct (readLine r) as [[line r1]| |] eqn:E; cbn [fbind]; [|done..].
    apply readLine_shorter in E.
    assert (Heq : forall n, read_elems f1 n r1 = read_elems f2 n r1) by (intros n; apply IHe; lia).
    by apply read_rest_ext.
  - cbn [read_elems]. destruct (Z.leb_spec n 0); [done|]. rewrite (IHr f2 r) by lia.
    destruct (resp_read f2 r) as [[[e r1]| |]|] eqn:E; cbn [fbind]; [|done..].
    apply resp_read_consumes in E. by rewrite (IHe f2 (n - 1) r1) by lia.
Qed.

Lemma resp_Read_fuel fuel r : (read_fuel r <= fuel)%nat -> resp_read fuel r = Some (resp_Read r).
Proof.
  intros Hf. unfold resp_Read. rewrite (proj1 (resp_read_fuel fuel) (read_fuel r) r) by done.
  by destruct (proj1 (resp_read_total (read_fuel r)) r) as [x ->].
Qed.

Lemma resp_Read_consumes r v r' : resp_Read r = Ok (v, r') -> (length r' < length r)%nat.
Proof. intros E. apply (resp_read_consumes (read_fuel r) r v). by rewrite resp_Read_fuel, E. Qed.

(** ** Writing *)

(** Only known type bytes, at every depth. *)
Fixpoint known_types (v : RespValue) : bool :=
  existsb (fun t => if byte_eq_dec (v_Type v) t then true else false)
    [SimpleString; Error; Integer; BulkString; Array]
  && forallb known_types (v_Elems v).

Section writer_facts.
Context {W : Type} `{WL : WriterLaws W}.
Implicit Types (w : bufio_Writer W) (s : bytes).

Fixpoint write_elems w (es : list RespValue) : bufio_Writer W * option goerror :=
  match es with
  | [] => (w, None)
  | e :: es' =>
      match resp_write w e with
      | (w, Some err) => (w, Some err)
      | (w, None) => write_elems w es'
      end
  end.

(** What [resp_write] does to the stream of bytes written so far: it appends the encoding, or
    fails with a prefix of it. *)
Definition writes (f : bufio_Writer W -> bufio_Writer W * option goerror) (p : bytes) : Prop :=
  forall w s, stream_ok w s -> bw_err w = None ->
    let '(w', e) := f w in stream_ok w' (s ++ p) /\ e = bw_err w'.

Lemma writes_bufio p : writes (fun w => bufio_Write w p) p.
Proof. intros w s Hok _. by apply bufio_Write_stream. Qed.

Lemma resp_writes_seq f g p q :
  writes f p -> writes g q ->
  writes (fun w => match f w with (w, Some e) => (w, Some e) | (w, None) => g w end) (p ++ q).
Proof.
  intros Hf Hg w s Hok He. specialize (Hf w s Hok He). destruct (f w) as [w1 [e|]].
  - destruct Hf as [Hok1 He1]. split; [|done]. eapply stream_ok_err; [by rewrite <- He1| |exact Hok1].
    rewrite app_assoc. by eexists.
  - destruct Hf as [Hok1 He1]. rewrite app_assoc. by apply Hg.
Qed.

Lemma writes_elems es :
  Forall (fun v => writes (fun w => resp_write w v) (encode v)) es ->
  writes (fun w => write_elems w es) (concat (encode <$> es)).
Proof.
  induction 1 as [|v es Hv _ IH].
  - intros w s Hok He. simpl. by rewrite app_nil_r.
  - apply (resp_writes_seq _ _ _ _ Hv IH).
Qed.

Lemma resp_write_spec v : known_types v = true -> writes (fun w => resp_write w v) (encode v).
Proof.
  induction v as [t str num elems null IH] using value_ind. intros Hk.
  cbn [known_types v_Type v_Elems] in Hk. apply andb_prop in Hk as [Ht He].
  cbn [resp_write encode].
  destruct (byte_eq_dec t SimpleString); [apply writes_bufio|].
  destruct (byte_eq_dec t Error); [apply writes_bufio|].
  destruct (byte_eq_dec t Integer); [apply writes_bufio|].
  destruct (byte_eq_dec t BulkString); [destruct null; apply writes_bufio|].
  destruct (byte_eq_dec t Array); [|exfalso; cbn [existsb] in Ht; repeat case_match; done].
  destruct null; [apply writes_bufio|].
  apply (resp_writes_seq _ (fun w => write_elems w elems)); [apply writes_bufio|]. apply writes_elems.
  clear -IH He. induction IH as [|v es Hv _ IH]; [constructor|].
  simpl in He. apply andb_prop in He as [? ?]. constructor; auto.
Qed.

Context `{!Reliable W}.

Definition succeeds (f : bufio_Writer W -> bufio_Writer W * option goerror) : Prop :=
  forall w s, stream_ok w s -> bw_err w = None -> (f w).2 = None.

Lemma succeeds_seq f g p :
  writes f p -> succeeds f -> succeeds g ->
  succeeds (fun w => match f w with (w, Some e) => (w, Some e) | (w, None) => g w end).
Proof.
  intros Hw Hf Hg w s Hok He. specialize (Hw w s Hok He). specialize (Hf w s Hok He).
  destruct (f w) as [w1 e1]. simpl in Hf. subst e1. destruct Hw as [Hok1 He1]. by eapply Hg.
Qed.

Lemma succeeds_bufio p : succeeds (fun w => bufio_Write w p).
Proof. intros w s Hok He. by eapply bufio_Write_reliable. Qed.

Lemma resp_write_reliable v : known_types v = true -> succeeds (fun w => resp_write w v).
Proof.
  induction v as [t str num elems null IH] using value_ind. intros Hk.
  cbn [known_types v_Type v_Elems] in Hk. apply andb_prop in Hk as [Ht He].
  cbn [resp_write].
  destruct (byte_eq_dec t SimpleString); [apply succeeds_bufio|].
  destruct (byte_eq_dec t Error); [apply succeeds_bufio|].
  destruct (byte_eq_dec t Integer); [apply succeeds_bufio|].
  destruct (byte_eq_dec t BulkString); [destruct null; apply succeeds_bufio|].
  destruct (byte_eq_dec t Array); [|exfalso; cbn [existsb] in Ht; repeat case_match; done].
  destruct null; [apply succeeds_bufio|].
  apply (succeeds_seq _ (fun w => write_elems w elems) _ (writes_bufio _) (succeeds_bufio _)).
  clear -IH He Reliable0. induction IH as [|v es Hv _ IH]; [by intros w s|].
  simpl in He. apply andb_prop in He as [Hkv Hkes].
  apply (succeeds_seq _ _ _ (resp_write_spec v Hkv)); auto.
Qed.

(** Writing a value and flushing it, on a connection that does not fail. *)
Lemma resp_Write_ok w s v :
  stream_ok w s -> bw_err w = None -> known_types v = true ->
  exists w', resp_Write w v = (w', None) /\ stream_ok w' (s ++ encode v) /\ bw_err w' = None
    /\ bw_buf w' = [] /\ on_file (bw_wr w') = s ++ encode v.
Proof.
  intros Hok He Hk. pose proof (resp_write_spec v Hk w s Hok He) as Hw.
  pose proof (resp_write_reliable v Hk w s Hok He) as Hr. cbn beta in Hw, Hr.
  unfold resp_Write. destruct (resp_write w v) as [w1 e1]. simpl in Hr. subst e1.
  destruct Hw as [Hs He1]. pose proof (bufio_Flush_stream w1 _ Hs) as Hfl.
  pose proof (bufio_Flush_reliable w1 _ Hs (eq_sym He1)) as Hfr.
  destruct (bufio_Flush w1) as [w2 e2]. destruct Hfl as (Hs2 & -> & Hnil). simpl in Hfr.
  destruct (Hnil Hfr) as [Hb Hf]. exists w2. by rewrite Hfr.
Qed.
End writer_facts.

Lemma wire_ok_known v : wire_ok v -> known_types v = true.
Proof.
  induction v as [t str num elems null IH] using value_ind. intros Hok.
  inversion Hok as [| | | | |es _ Hes| ]; subst; try done.
  cbn [known_types v_Type v_Elems]. apply andb_true_iff. split; [done|].
  apply forallb_forall. intros v Hv%list_elem_of_In. rewrite Forall_forall in *. auto.
Qed.

(** ** Properties *)

(** C16: round trip. Writing a value to a connection that does not fail sends all of it in one
    flush, and a reader that finds those bytes followed by anything parses the same value and
    stops exactly at what follows, for every value of the wire format (lines without a newline,
    64-bit numbers, lengths within the address space, arrays nested to any depth). *)
Theorem resp_roundtrip {W} `{WL : WriterLaws W} `{!Reliable W} (conn : W) (v : RespValue) (rest : bytes) :
  wire_ok v ->
  exists w' sent, resp_Write (bufio_NewWriter conn) v = (w', None)
    /\ on_file (bw_wr w') = on_file conn ++ sent /\ bw_buf w' = []
    /\ resp_Read (sent ++ rest) = Ok (v, rest).
Proof.
  intros Hok. destruct (resp_Write_ok (bufio_NewWriter conn) (on_file conn) v)
    as (w' & Hw & _ & _ & Hb & Hf); [apply stream_ok_new|done|by apply wire_ok_known|].
  exists w', (encode v). split; [done|]. split; [done|]. split; [done|]. by apply resp_Read_encode.
Qed.

(** C27: the parser on a stream. On every input it returns within [read_fuel] nested calls
    (running out of fuel is [None], which is neither a value nor an error nor the panic of
    [make]), and its result is the same with any more; a parsed value is determined by a
    non-empty prefix of the stream, and whatever follows that prefix is left for the next
    read: a later byte can neither change nor delay a value that has arrived. *)
Theorem resp_read_streaming (r : bytes) :
  (forall fuel, (read_fuel r <= fuel)%nat ->
     is_Some (resp_read fuel r) /\ resp_read fuel r = Some (resp_Read r))
  /\ forall v rest, resp_Read r = Ok (v, rest) ->
       exists p, r = p ++ rest /\ p <> [] /\ forall more, resp_Read (p ++ more) = Ok (v, more).
Proof.
  split; [intros fuel Hf; rewrite (resp_Read_fuel fuel r Hf); eauto|]. intros v rest E.
  pose proof (resp_Read_consumes _ _ _ E) as Hc.
  assert (Hloc : forall more, exists p, r = p ++ rest /\ resp_Read (p ++ more) = Ok (v, more)).
  { intros more. set (f := (read_fuel r + read_fuel (r ++ more))%nat).
    assert (Ef : resp_read f r = Some (Ok (v, rest))) by (rewrite resp_Read_fuel; [by rewrite E|unfold f; lia]).
    apply (proj1 (resp_read_local f)) in Ef as (p & Hr & Hp). exists p. split; [done|].
    specialize (Hp more). rewrite resp_Read_fuel in Hp; [by injection Hp|]. unfold f, read_fuel.
    rewrite Hr, !length_app. lia. }
  destruct (Hloc []) as (p & Hr & _). exists p. split; [done|]. split.
  - intros ->. rewrite Hr in Hc. simpl in Hc. lia.
  - intros more. destruct (Hloc more) as (q & Hq & Hread). rewrite Hr in Hq.
    by apply app_inv_tail in Hq as ->.
Qed.

(** C38: a client can make the parser panic. A bulk-string or array header that announces more
    than 2^48 bytes or elements reaches [make] with a length the runtime refuses, whatever
    follows it; the connection's goroutine has no recover, so the process ends. *)
Theorem oversized_length_panics (n : Z) (rest : bytes) :
  maxAlloc < n < 2 ^ 63 ->
  resp_Read ((BulkString :: fmt_d n) ++ crlf ++ rest) = Panic
  /\ resp_Read ((Array :: fmt_d n) ++ crlf ++ rest) = Panic.
Proof.
  unfold maxAlloc. intros Hn. unfold resp_Read, read_fuel. split.
  - destruct (header_line BulkString n rest ltac:(done) ltac:(lia)) as [Hl Hp].
    replace (2 * _ + 1)%nat with (S (2 * length ((BulkString :: fmt_d n) ++ crlf ++ rest)))%nat by lia.
    cbn [resp_read]. rewrite Hl. cbn [fbind]. type_cases. rewrite Hp.
    destruct (Z.ltb_spec n 0); [lia|]. replace (go_make 1 (i64 (n + 2))) with (@Panic unit); [done|].
    symmetry. unfold go_make. destruct (Z.ltb_spec (i64 (n + 2)) 0); [done|]. cbn [orb].
    unfold maxAlloc. destruct (Z.ltb_spec (2 ^ 48) (1 * i64 (n + 2))); [done|]. exfalso.
    destruct (Z.lt_ge_cases (n + 2) (2 ^ 63)); [rewrite swrap_small in *; lia|].
    assert (i64 (n + 2) = n + 2 - 2 ^ 64); [|lia]. unfold swrap.
    rewrite <- (Z.mod_unique_pos (n + 2 + 2 ^ (64 - 1)) (2 ^ 64) 1 (n + 2 - 2 ^ 63)); lia.
  - destruct (header_line Array n rest ltac:(done) ltac:(lia)) as [Hl Hp].
    replace (2 * _ + 1)%nat with (S (2 * length ((Array :: fmt_d n) ++ crlf ++ rest)))%nat by lia.
    cbn [resp_read]. rewrite Hl. cbn [fbind]. type_cases. rewrite Hp.
    destruct (Z.ltb_spec n 0); [lia|]. replace (go_make sizeof_Value n) with (@Panic unit); [done|].
    symmetry. unfold go_make, maxAlloc, sizeof_Value. destruct (Z.ltb_spec n 0); [lia|]. cbn [orb].
    destruct (Z.ltb_spec (2 ^ 48) (64 * n)); [done|lia].
Qed.

Lemma resp_roundtrip_witness :
  let v := ArrayValue [BulkStringValue (bytes_of "GET"); NullBulkStringValue; IntegerValue (-7)] in
  exists w' sent, resp_Write (bufio_NewWriter (mkFile [] 0)) v = (w', None)
    /\ on_file (bw_wr w') = sent /\ bw_buf w' = []
    /\ resp_Read (sent ++ bytes_of "+OK") = Ok (v, bytes_of "+OK").
Proof.
  intros v. destruct (resp_roundtrip (mkFile [] 0) v (bytes_of "+OK")) as (w' & sent & Hw & Hf & Hb & Hr).
  - apply wire_array; [vm_compute; congruence|]. repeat constructor; vm_compute; congruence.
  - exists w', sent. repeat (split; [assumption|]). exact Hr.
Defined.

Lemma oversized_length_panics_witness :
  resp_Read ((BulkString :: fmt_d (2 ^ 63 - 1)) ++ crlf ++ []) = Panic
  /\ resp_Read ((Array :: fmt_d (2 ^ 63 - 1)) ++ crlf ++ []) = Panic.
Proof. apply (oversized_length_panics (2 ^ 63 - 1) []). vm_compute. split; congruence. Defined.
