(* ===== verification/Server.v ===== *)
(** * The server ([src/server])

    [types.go] (command names), [dispatch.go] (one command against the database) and the
    connection loop [handleConn] of [server.go].

    A command's handler is a [prog]: it calls the database, looks at the answer and goes on.
    The database calls are those of [DbRefine], so one handler runs against the real database
    and against the abstract one ([Store] is the interface; [db_Store] and [abs_Store] are its
    instances). A scan is opened and drained without another call in between.

    The theorems: a connection served by a newly opened database gets, byte for byte, the
    replies the abstract database gives; pipelined commands are answered in order; DEL counts
    the distinct live keys it is given; and an unknown command with a line break in its name
    splits the reply. *)

From S2P Require Import Prelude Config Base Mvcc Memtable Bloom Cache Bufio Wal Block Fs Sstable.
From S2P Require Import SstReader Store Compaction Db Heap Scan DbRefine Resp.

(** ** The database as the handlers see it *)

Class Store (S : Type) := do_call : S -> call -> S * reply.

#[export] Instance abs_Store : Store abs := abs_step.

(** ** [types.go] *)

Definition CmdSet : bytes := bytes_of "SET".
Definition CmdGet : bytes := bytes_of "GET".
Definition CmdDel : bytes := bytes_of "DEL".
Definition CmdScan : bytes := bytes_of "SCAN".
Definition CmdPing : bytes := bytes_of "PING".

(** ** [dispatch.go] *)

(** A handler: the reply, a database call and what follows, or a panic. *)
Inductive prog :=
| Reply (v : RespValue)
| Crash
| Call (c : call) (k : reply -> prog).

Section dispatch.
(** [err.Error()], and [strings.ToUpper] on strings with non-ASCII characters. *)
Variables (errText : goerror -> bytes) (unicode_ToUpper : bytes -> bytes).

Definition isASCII (s : bytes) : bool := forallb (fun c => byte.unsigned c <? 128) s.

Definition upper_char (c : byte) : byte :=
  if (97 <=? byte.unsigned c) && (byte.unsigned c <=? 122) then byte.of_Z (byte.unsigned c - 32) else c.

(** [strings.ToUpper] *)
Definition ToUpper (s : bytes) : bytes :=
  if isASCII s then map upper_char s else unicode_ToUpper s.

Definition error_reply (e : goerror) : RespValue := ErrorValue (bytes_of "ERR " ++ errText e).

Definition doSet (args : list RespValue) : prog :=
  match args with
  | [k; v] =>
      Call (CPut (v_Str k) (v_Str v)) (fun r =>
        match r with
        | RDone (Ok _) => Reply (SimpleStringValue (bytes_of "OK"))
        | RDone (Err e) => Reply (error_reply e)
        | _ => Crash
        end)
  | _ => Reply (ErrorValue (bytes_of "ERR wrong number of arguments for 'SET'"))
  end.

Definition doGet (args : list RespValue) : prog :=
  match args with
  | [k] =>
      Call (CGet (v_Str k)) (fun r =>
        match r with
        | RValue (Ok (Some val)) => Reply (BulkStringValue val)
        | RValue (Ok None) | RValue (Err _) => Reply NullBulkStringValue
        | _ => Crash
        end)
  | _ => Reply (ErrorValue (bytes_of "ERR wrong number of arguments for 'GET'"))
  end.

(** The loop of [doDel]. *)
Fixpoint del_loop (removed : Z) (args : list RespValue) : prog :=
  match args with
  | [] => Reply (IntegerValue removed)
  | a :: args' =>
      Call (CGet (v_Str a)) (fun r =>
        let go (removed : Z) :=
          Call (CDelete (v_Str a)) (fun r =>
            match r with
            | RDone (Ok _) => del_loop removed args'
            | RDone (Err e) => Reply (error_reply e)
            | _ => Crash
            end) in
        match r with
        | RValue (Ok (Some _)) => go (i64 (removed + 1))
        | RValue (Ok None) | RValue (Err _) => go removed
        | _ => Crash
        end)
  end.

Definition doDel (args : list RespValue) : prog :=
  match args with
  | [] => Reply (ErrorValue (bytes_of "ERR wrong number of arguments for 'DEL'"))
  | _ => del_loop 0 args
  end.

(** [database.Scan] reads at [SeqNumMax]; [[]byte(s)] is never nil. *)
Definition doScan (args : list RespValue) : prog :=
  match args with
  | [lo; hi] =>
      Call (CScanAt (v_Str lo) (Some (v_Str hi)) SeqNumMax) (fun r =>
        match r with
        | RPairs (Ok kvs) =>
            Reply (ArrayValue (concat (map (fun p => [BulkStringValue p.1; BulkStringValue p.2]) kvs)))
        | RPairs (Err e) => Reply (error_reply e)
        | _ => Crash
        end)
  | _ => Reply (ErrorValue (bytes_of "ERR wrong number of arguments for 'SCAN'"))
  end.

Definition doPing (args : list RespValue) : prog :=
  match args with
  | [] => Reply (SimpleStringValue (bytes_of "PONG"))
  | a :: _ => Reply (BulkStringValue (v_Str a))
  end.

Definition is_type (t : byte) (v : RespValue) : bool := if byte_eq_dec (v_Type v) t then true else false.

Definition dispatch (cmd : RespValue) : prog :=
  match v_Elems cmd with
  | name :: args =>
      if negb (is_type Array cmd) then
        Reply (ErrorValue (bytes_of "ERR expected a non-empty command array"))
      else if negb (forallb (is_type BulkString) (name :: args)) then
        Reply (ErrorValue (bytes_of "ERR command elements must be bulk strings"))
      else
        let cmdName := ToUpper (v_Str name) in
        if bytes_Equal cmdName CmdSet then doSet args
        else if bytes_Equal cmdName CmdGet then doGet args
        else if bytes_Equal cmdName CmdDel then doDel args
        else if bytes_Equal cmdName CmdScan then doScan args
        else if bytes_Equal cmdName CmdPing then doPing args
        else Reply (ErrorValue (bytes_of "ERR unknown command '" ++ v_Str name ++ bytes_of "'"))
  | [] => Reply (ErrorValue (bytes_of "ERR expected a non-empty command array"))
  end.

(** ** [handleConn] ([server.go]) *)

(** Running a handler against a database; [None] is a panic. *)
Fixpoint run_prog {S} `{Store S} (s : S) (p : prog) : S * option RespValue :=
  match p with
  | Reply v => (s, Some v)
  | Crash => (s, None)
  | Call c k => let '(s', r) := do_call s c in run_prog s' (k r)
  end.

(** How a connection ends: closed by the server, or the process has panicked. A loop that
    has used up its fuel is still running. *)
Inductive conn_end := ConnClosed | ProcessPanic | ConnRunning.

Section handle.
Context {W : Type} `{WR : Writer W}.

(** The loop of [handleConn] on the bytes the client sends. A round consumes at least a line,
    so the length of the input is enough fuel ([handle_loop_ends]). *)
Fixpoint handle_loop {S} `{Store S} (fuel : nat) (s : S) (r : bytes) (w : bufio_Writer W) :
    S * bufio_Writer W * conn_end :=
  match fuel with
  | O => (s, w, ConnRunning)
  | Datatypes.S fuel' =>
      match resp_Read r with
      | Err _ => (s, w, ConnClosed)
      | Panic => (s, w, ProcessPanic)
      | Ok (cmd, r') =>
          match run_prog s (dispatch cmd) with
          | (s', None) => (s', w, ProcessPanic)
          | (s', Some v) =>
              match resp_Write w v with
              | (w', Some _) => (s', w', ConnClosed)
              | (w', None) => handle_loop fuel' s' r' w'
              end
          end
      end
  end.

Definition handleConn {S} `{Store S} (s : S) (r : bytes) (conn : W) :
    S * bufio_Writer W * conn_end :=
  handle_loop (Datatypes.S (length r)) s r (bufio_NewWriter conn).

(** The loop ends: every round consumes input. *)
Lemma handle_loop_ends {S} `{Store S} fuel : forall (s : S) (r : bytes) (w : bufio_Writer W),
  (length r < fuel)%nat -> (handle_loop fuel s r w).2 <> ConnRunning.
Proof.
  induction fuel as [|fuel IH]; intros s r w Hf; [lia|]. cbn [handle_loop].
  destruct (resp_Read r) as [[cmd r']| |] eqn:E; [|done..]. apply resp_Read_consumes in E.
  destruct (run_prog s (dispatch cmd)) as [s' [v|]]; [|done].
  destruct (resp_Write w v) as [w' [e|]]; [done|]. apply IH. lia.
Qed.
End handle.

(** ** Handlers answer with values of the wire format *)

Fixpoint prog_all (P : RespValue -> Prop) (p : prog) : Prop :=
  match p with
  | Reply v => P v
  | Crash => True
  | Call _ k => forall r, prog_all P (k r)
  end.

Lemma run_prog_all {S} `{Store S} P (s : S) p s' v :
  prog_all P p -> run_prog s p = (s', Some v) -> P v.
Proof.
  revert s. induction p as [x| |c k IH]; intros s Hp; simpl.
  - by intros [= _ <-].
  - done.
  - destruct (do_call s c) as [s1 r]. apply (IH r). apply Hp.
Qed.

Definition known (v : RespValue) : Prop := known_types v = true.

Lemma del_loop_known removed args : prog_all known (del_loop removed args).
Proof.
  revert removed. induction args as [|a args IH]; intros removed; [done|]. cbn [del_loop prog_all].
  intros [[]|[[v|]| |]|[]|]; try done; intros [[]|[]|[]|]; try done; apply IH.
Qed.

Lemma pairs_known kvs :
  known (ArrayValue (concat (map (fun p => [BulkStringValue p.1; BulkStringValue p.2]) kvs))).
Proof.
  unfold known. cbn [known_types v_Elems ArrayValue]. apply andb_true_iff. split; [done|].
  induction kvs as [|p kvs IH]; [done|]. simpl. done.
Qed.

Lemma dispatch_known cmd : prog_all known (dispatch cmd).
Proof.
  unfold dispatch. destruct (v_Elems cmd) as [|name args]; [done|].
  destruct (negb (is_type Array cmd)); [done|]. destruct (negb (forallb _ _)); [done|].
  cbv zeta. destruct (bytes_Equal _ CmdSet).
  { destruct args as [|k [|v [|]]]; try done. by intros [[]|[]|[]|]. }
  destruct (bytes_Equal _ CmdGet).
  { destruct args as [|k [|]]; try done. by intros [[]|[[]| |]|[]|]. }
  destruct (bytes_Equal _ CmdDel); [destruct args; [done|apply del_loop_known]|].
  destruct (bytes_Equal _ CmdScan).
  { destruct args as [|lo [|hi [|]]]; try done. intros [[]|[]|[]|]; try done. apply pairs_known. }
  destruct (bytes_Equal _ CmdPing); [by destruct args|done].
Qed.

(** ** A connection answers its commands in order *)

Fixpoint run_cmds {S} `{Store S} (s : S) (cmds : list RespValue) : S * option (list RespValue) :=
  match cmds with
  | [] => (s, Some [])
  | cmd :: cmds' =>
      match run_prog s (dispatch cmd) with
      | (s', None) => (s', None)
      | (s', Some v) =>
          match run_cmds s' cmds' with
          | (s2, Some vs) => (s2, Some (v :: vs))
          | (s2, None) => (s2, None)
          end
      end
  end.

Section pipeline.
Context {W : Type} `{WL : WriterLaws W} `{!Reliable W} {S : Type} `{Store S}.

Lemma handle_loop_cmds cmds tail e : forall fuel (s : S) (w : bufio_Writer W) sent s' replies,
  Forall wire_ok cmds -> resp_Read tail = Err e -> (length cmds < fuel)%nat ->
  stream_ok w sent -> bw_err w = None -> bw_buf w = [] ->
  run_cmds s cmds = (s', Some replies) ->
  exists w', handle_loop fuel s (concat (encode <$> cmds) ++ tail) w = (s', w', ConnClosed)
    /\ on_file (bw_wr w') = sent ++ concat (encode <$> replies) /\ bw_buf w' = [].
Proof.
  induction cmds as [|cmd cmds IH]; intros fuel s w sent s' replies Hok Htail Hf Hs He Hb;
    (destruct fuel as [|fuel]; [simpl in Hf; lia|]); cbn [run_cmds].
  - intros [= <- <-]. exists w. cbn [handle_loop fmap list_fmap concat app]. rewrite Htail.
    split; [done|]. split; [|done]. unfold stream_ok in Hs. rewrite He, Hb in Hs.
    destruct Hs as [<- _]. by rewrite !app_nil_r.
  - apply Forall_cons_1 in Hok as [Hc Hok].
    destruct (run_prog s (dispatch cmd)) as [s1 [v|]] eqn:E1; [|done].
    destruct (run_cmds s1 cmds) as [s2 [vs|]] eqn:E2; [|done]. intros [= <- <-].
    cbn [handle_loop fmap list_fmap concat]. fold (encode <$> cmds) (encode <$> vs).
    rewrite <- app_assoc. rewrite resp_Read_encode by done. rewrite E1.
    destruct (resp_Write_ok w sent v Hs He) as (w1 & -> & Hs1 & He1 & Hb1 & _).
    { eapply (run_prog_all known); [apply dispatch_known|exact E1]. }
    destruct (IH fuel s1 w1 _ s2 vs Hok Htail ltac:(simpl in Hf; lia) Hs1 He1 Hb1 E2)
      as (w2 & Hrun & Hout & Hnil).
    exists w2. split; [done|]. split; [|done]. by rewrite Hout, <- app_assoc.
Qed.
End pipeline.

(** ** Serving from the database is serving from the history *)

Section refinement.
Context `{BT : BTree kv Item_Less} {BL : BTreeLaws kv Item_Less}.
Context {C : Type} `{CL : CacherLaws (list kv) C}.
Context {W : Type} `{WL : WriterLaws W} {HR : Reliable W}.
Context (bloom0 : BloomFilter) (newFile : bytes -> W) (tick : Z -> Z).
Implicit Types (db : DB C) (w : World) (a : abs).

#[local] Instance db_Store : Store (DB C * World) := fun st c =>
  let '(db', w', r) := db_step bloom0 newFile tick st.1 st.2 c in ((db', w'), r).

(** The conditions of [database_refines_history] along the calls of a handler, and of the
    commands in a stream. *)
Fixpoint prog_safe a db w (p : prog) : Prop :=
  match p with
  | Call c k =>
      call_ok a c /\ call_in_order bloom0 newFile tick db w c
      /\ let '(db', w', r) := db_step bloom0 newFile tick db w c in
         prog_safe (abs_step a c).1 db' w' (k r)
  | _ => True
  end.

Fixpoint conn_safe (fuel : nat) a db w (r : bytes) : Prop :=
  match fuel with
  | O => True
  | Datatypes.S fuel' =>
      match resp_Read r with
      | Ok (cmd, r') =>
          prog_safe a db w (dispatch cmd)
          /\ let '((db', w'), _) := run_prog (db, w) (dispatch cmd) in
             conn_safe fuel' (run_prog a (dispatch cmd)).1 db' w' r'
      | _ => True
      end
  end.

Context (bloom0_ok : bloom_ok bloom0) (newFile_empty : forall p, on_file (newFile p) = [])
  (tick_later : forall t, t < tick t).

Lemma sim_prog p : forall a db w,
  sim a db w -> prog_safe a db w p ->
  exists a' db' w' o, run_prog (db, w) p = ((db', w'), o) /\ run_prog a p = (a', o) /\ sim a' db' w'.
Proof.
  induction p as [v| |c k IH]; intros a db w Hsim; [by exists a, db, w, (Some v)|by exists a, db, w, None|].
  cbn [prog_safe run_prog]. intros (Hc & Ho & Hrest).
  destruct (sim_step bloom0 newFile tick bloom0_ok newFile_empty tick_later a db w c Hsim Hc Ho)
    as (db1 & w1 & Hstep & Hsim1).
  unfold do_call, db_Store, abs_Store. cbn [fst snd]. rewrite Hstep in *.
  destruct (abs_step a c) as [a1 r]. by apply (IH r).
Qed.

Lemma sim_conn {W'} `{Writer W'} fuel : forall a db w r (bw : bufio_Writer W'),
  sim a db w -> conn_safe fuel a db w r ->
  exists a' db' w' bw' e, handle_loop fuel (db, w) r bw = ((db', w'), bw', e)
    /\ handle_loop fuel a r bw = (a', bw', e) /\ sim a' db' w'.
Proof.
  induction fuel as [|fuel IH]; intros a db w r bw Hsim; cbn [conn_safe handle_loop].
  { intros _. by exists a, db, w, bw, ConnRunning. }
  destruct (resp_Read r) as [[cmd r']|e|]; [|intros _; by eexists a, db, w, bw, _..].
  intros [Hsafe Hrest].
  destruct (sim_prog (dispatch cmd) a db w Hsim Hsafe) as (a1 & db1 & w1 & o & Hd & Ha & Hsim1).
  rewrite Hd, Ha in *. destruct o as [v|]; [|by eexists a1, db1, w1, bw, _].
  destruct (resp_Write bw v) as [bw' [e|]]; [by eexists a1, db1, w1, bw', _|]. by apply IH.
Qed.

(** *** Properties *)

(** C1: the whole program. Opening a database on an empty log and directory and serving a
    connection from it leaves the client with exactly the bytes, and the same end of the
    connection, that serving it from the abstract database (the list of all writes) gives,
    and the connection does end: for every stream of bytes the client may send (commands,
    pipelined or not, malformed and truncated input) that is [conn_safe]. That is, at every
    call of the stream there have been fewer than 2^56 writes, and a compaction that the call
    starts merges neighbouring tables only; a stream that makes the compaction merge tables
    across another one can be answered with an old value
    ([compaction_can_bury_newer_version]). *)
Theorem server_refines_history {W'} `{Writer W'} (newCache : C) (conf : Config) (fs : FS) (now : Z)
    (r : bytes) (conn : W') :
  fresh_dir fs (SSTDir conf) -> cache_true ∅ newCache ->
  exists w db, db_Open newCache conf (mkFile [] 0) (mkWorld fs now) = (w, Ok db)
    /\ (conn_safe (Datatypes.S (length r)) (mkAbs [] ∅) db w r ->
        exists st a' bw e, handleConn (db, w) r conn = (st, bw, e)
          /\ handleConn (mkAbs [] ∅) r conn = (a', bw, e) /\ e <> ConnRunning).
Proof.
  intros Hf Hc.
  destruct (sim_fresh newCache conf fs now Hf Hc) as (db & Ho & Hsim). eexists _, db.
  split; [exact Ho|]. intros Hsafe. unfold handleConn.
  destruct (sim_conn _ _ db _ r (bufio_NewWriter conn) Hsim Hsafe)
    as (a' & db' & w' & bw' & e & Hd & Ha & _). eexists _, a', bw', e. split; [exact Hd|].
  split; [exact Ha|]. pose proof (handle_loop_ends (Datatypes.S (length r)) (mkAbs [] ∅) r
    (bufio_NewWriter conn) ltac:(lia)) as He. by rewrite Ha in He.
Qed.

(** Below the compaction threshold and the last sequence number a connection is safe. *)
Fixpoint prog_few a db w (p : prog) : bool :=
  match p with
  | Call c k =>
      few a db && plain_call c
      && let '(db', w', r) := db_step bloom0 newFile tick db w c in
         prog_few (abs_step a c).1 db' w' (k r)
  | _ => true
  end.

Fixpoint conn_few (fuel : nat) a db w (r : bytes) : bool :=
  match fuel with
  | O => true
  | Datatypes.S fuel' =>
      match resp_Read r with
      | Ok (cmd, r') =>
          prog_few a db w (dispatch cmd)
          && let '((db', w'), _) := run_prog (db, w) (dispatch cmd) in
             conn_few fuel' (run_prog a (dispatch cmd)).1 db' w' r'
      | _ => true
      end
  end.

Lemma prog_few_safe p : forall a db w, prog_few a db w p = true -> prog_safe a db w p.
Proof.
  induction p as [v| |c k IH]; intros a db w; [done..|]. cbn [prog_few prog_safe].
  intros [[[Ht%Z.ltb_lt Hq%Z.ltb_lt]%andb_prop Hp]%andb_prop Hrest]%andb_prop.
  split; [|split; [by apply few_in_order|]].
  - destruct c; simpl in *; try done. right. apply Z.eqb_eq in Hp. lia.
  - destruct (db_step bloom0 newFile tick db w c) as [[db' w'] r]. by apply IH.
Qed.

Lemma conn_few_safe fuel : forall a db w r, conn_few fuel a db w r = true -> conn_safe fuel a db w r.
Proof.
  induction fuel as [|fuel IH]; intros a db w r; [done|]. cbn [conn_few conn_safe].
  destruct (resp_Read r) as [[cmd r']| |]; [|done..]. intros [Hp Hrest]%andb_prop.
  split; [by apply prog_few_safe|]. destruct (run_prog (db, w) (dispatch cmd)) as [[db' w'] o]. by apply IH.
Qed.
End refinement.

(** ** DEL *)

(** The current value of a key. *)
Definition live_value (a : abs) (k : bytes) : option bytes := abs_read k SeqNumMax (a_log a).

Definition live_keys (a : abs) (ks : list bytes) : gset bytes :=
  filter (fun k => is_Some (live_value a k)) (list_to_set ks).

Definition deleted (a : abs) (k : bytes) : abs := mkAbs ((k, None) :: a_log a) (a_pins a).

Lemma live_value_deleted a k k' :
  a_seq a < SeqNumMax -> live_value (deleted a k) k' = if decide (k = k') then None else live_value a k'.
Proof.
  unfold a_seq. intros Hq. unfold live_value. cbn [deleted a_log abs_read]. rewrite blen_cons.
  rewrite (proj2 (Z.leb_le _ _)) by lia. unfold bytes_Equal. simpl.
  by destruct (decide (k = k')); [rewrite bool_decide_eq_true_2|rewrite bool_decide_eq_false_2].
Qed.

Lemma live_keys_deleted a k ks :
  a_seq a < SeqNumMax ->
  Z.of_nat (size (live_keys a (k :: ks)))
  = (if decide (is_Some (live_value a k)) then 1 else 0) + Z.of_nat (size (live_keys (deleted a k) ks)).
Proof.
  intros Hq.
  assert (Hin : forall x, x ∈ live_keys (deleted a k) ks <-> x <> k /\ x ∈ live_keys a ks).
  { intros x. unfold live_keys. rewrite !elem_of_filter, live_value_deleted by done.
    case_decide as Hx; [|split; [intros [? ?]; split; [congruence|done]|tauto]].
    split; [intros [[? ?] _]; done|intros [? _]; congruence]. }
  case_decide as Hk.
  - assert (live_keys a (k :: ks) = {[k]} ∪ live_keys (deleted a k) ks) as ->.
    { apply set_eq. intros x. rewrite elem_of_union, elem_of_singleton, Hin. unfold live_keys.
      rewrite !elem_of_filter. simpl. rewrite elem_of_union, elem_of_singleton.
      destruct (decide (x = k)) as [->|]; tauto. }
    rewrite size_union by (intros x; rewrite elem_of_singleton, Hin; tauto). rewrite size_singleton. lia.
  - rewrite Z.add_0_l. do 2 f_equal. apply set_eq. intros x. rewrite Hin. unfold live_keys. rewrite !elem_of_filter.
    simpl. rewrite elem_of_union, elem_of_singleton. destruct (decide (x = k)) as [->|]; tauto.
Qed.

Lemma del_loop_spec ks : forall a removed,
  Forall (fun k => blen k <= MAX_KEY_LENGTH) ks -> a_seq a + blen ks <= SeqNumMax ->
  0 <= removed -> removed + blen ks < 2 ^ 63 ->
  exists a', run_prog a (del_loop removed (BulkStringValue <$> ks))
      = (a', Some (IntegerValue (removed + Z.of_nat (size (live_keys a ks)))))
    /\ forall k, live_value a' k = if decide (k ∈ ks) then None else live_value a k.
Proof.
  induction ks as [|k ks IH]; intros a removed Hsz Hq Hr Hb.
  { exists a. assert (live_keys a [] = ∅) as ->.
    { apply set_eq. intros x. unfold live_keys. rewrite elem_of_filter. simpl. rewrite elem_of_empty. tauto. }
    rewrite size_empty. split; [simpl; by rewrite Z.add_0_r|].
    intros k. rewrite decide_False; [done|]. apply not_elem_of_nil. }
  apply Forall_cons_1 in Hsz as [Hk Hsz]. rewrite blen_cons in Hq, Hb. pose proof (blen_nonneg ks).
  cbn [fmap list_fmap del_loop run_prog]. unfold do_call, abs_Store. cbn [abs_step v_Str BulkStringValue].
  assert (Hq' : a_seq (deleted a k) = a_seq a + 1) by (unfold a_seq; simpl; rewrite blen_cons; lia).
  rewrite live_keys_deleted by lia. fold (live_value a k).
  set (d := if decide (is_Some (live_value a k)) then 1 else 0).
  assert (Hd : 0 <= d <= 1) by (unfold d; case_decide; lia).
  destruct (IH (deleted a k) (removed + d)) as (a' & Hrun & Hlive); [done|lia..|].
  exists a'. split.
  - assert (Hgo : run_prog a (Call (CDelete k) (fun r => match r with
        | RDone (Ok _) => del_loop (removed + d) (BulkStringValue <$> ks)
        | RDone (Err e) => Reply (error_reply e) | _ => Crash end))
      = run_prog (deleted a k) (del_loop (removed + d) (BulkStringValue <$> ks))).
    { cbn [run_prog]. unfold do_call, abs_Store. cbn [abs_step].
      by rewrite (proj2 (Z.ltb_ge MAX_KEY_LENGTH (blen k))). }
    rewrite Z.add_assoc, <- Hrun, <- Hgo. unfold d. destruct (live_value a k); simpl.
    + by rewrite swrap_small by lia.
    + by rewrite Z.add_0_r.
  - intros x. rewrite Hlive, live_value_deleted by lia.
    destruct (decide (k = x)) as [->|Hne].
    + rewrite (decide_True (P := x ∈ x :: ks)) by apply list_elem_of_here. by case_decide.
    + destruct (decide (x ∈ ks)) as [Hx|Hx]; [by rewrite decide_True by (by apply list_elem_of_further)|].
      rewrite decide_False; [done|]. rewrite elem_of_cons. intros [?|?]; [congruence|done].
Qed.

(** *** Properties *)

(** Pipelining. For every database behind the interface, a connection whose input is a
    sequence of commands followed by the end of the stream (or by bytes the parser rejects)
    runs the commands one after the other and sends back the encodings of their replies, in
    that order and nothing else, before it closes. *)
Theorem pipeline_in_order {W} `{WL : WriterLaws W} `{!Reliable W} {S} `{Store S} (s s' : S)
    (cmds replies : list RespValue) (tail : bytes) (e : goerror) (conn : W) :
  Forall wire_ok cmds -> resp_Read tail = Err e -> run_cmds s cmds = (s', Some replies) ->
  exists bw, handleConn s (concat (encode <$> cmds) ++ tail) conn = (s', bw, ConnClosed)
    /\ on_file (bw_wr bw) = on_file conn ++ concat (encode <$> replies) /\ bw_buf bw = [].
Proof.
  intros Hok Htail Hrun. apply (handle_loop_cmds cmds tail e); try done; [|apply stream_ok_new].
  rewrite length_app. clear -Hok. induction Hok as [|c cmds Hc _ IH]; simpl; [lia|].
  apply encode_length in Hc. rewrite !length_app. change (list_fmap _ _ encode cmds) with (encode <$> cmds). lia.
Qed.

(** C28: DEL on the abstract database, under any spelling of the name: it replies with the
    number of distinct keys among its arguments that have a value (a repeated or missing key
    does not count), afterwards none of them has one, and every other key keeps its value. *)
Theorem del_counts_live_keys (a : abs) (name : bytes) (ks : list bytes) :
  ToUpper name = CmdDel -> ks <> [] -> Forall (fun k => blen k <= MAX_KEY_LENGTH) ks ->
  a_seq a + blen ks <= SeqNumMax ->
  exists a', run_prog a (dispatch (ArrayValue (BulkStringValue <$> name :: ks)))
      = (a', Some (IntegerValue (Z.of_nat (size (live_keys a ks)))))
    /\ forall k, live_value a' k = if decide (k ∈ ks) then None else live_value a k.
Proof.
  intros Hn Hne Hsz Hq.
  assert (Hall : forallb (is_type BulkString) (BulkStringValue <$> name :: ks) = true).
  { apply forallb_forall. intros v Hv%list_elem_of_In. by apply list_elem_of_fmap in Hv as (k & -> & _). }
  unfold dispatch. cbn [ArrayValue v_Elems fmap list_fmap] in *. rewrite Hall.
  cbn [is_type v_Type negb BulkStringValue v_Str]. rewrite Hn. simpl (bytes_Equal _ _). cbv iota beta.
  unfold doDel. destruct ks as [|k0 ks0]; [done|]. rewrite SeqNumMax_val in Hq.
  assert (0 <= a_seq a) by apply blen_nonneg.
  destruct (del_loop_spec (k0 :: ks0) a 0) as (a' & Hrun & Hlive); [done|rewrite SeqNumMax_val; lia|lia|lia|].
  exists a'. split; [exact Hrun|exact Hlive].
Qed.

(** C39: an unknown command's name is echoed into the error line unescaped. If it contains a
    line break, the client parses the error up to the break and takes what follows the break
    in the name for the next reply. *)
Theorem unknown_command_splits_reply {S} `{Store S} (s : S) (n1 n2 : bytes) (args : list RespValue)
    (more : bytes) :
  let name := n1 ++ crlf ++ n2 in
  LF ∉ n1 -> forallb (is_type BulkString) args = true ->
  Forall (fun c => ToUpper name <> c) [CmdSet; CmdGet; CmdDel; CmdScan; CmdPing] ->
  exists v, run_prog s (dispatch (ArrayValue (BulkStringValue name :: args))) = (s, Some v)
    /\ resp_Read (encode v ++ more)
       = Ok (ErrorValue (bytes_of "ERR unknown command '" ++ n1), n2 ++ bytes_of "'" ++ crlf ++ more).
Proof.
  intros name Hn Hargs Hcmd. repeat (apply Forall_cons_1 in Hcmd as [? Hcmd]).
  unfold dispatch. cbn [ArrayValue v_Elems BulkStringValue forallb]. rewrite Hargs.
  cbn [is_type v_Type negb andb v_Str]. unfold bytes_Equal.
  rewrite !bool_decide_eq_false_2 by done. cbn [run_prog].
  eexists. split; [done|].
  change (encode (ErrorValue ?x)) with ((Error :: x) ++ crlf).
  change (v_Str (BulkStringValue name)) with name.
  set (pre := Error :: bytes_of "ERR unknown command '" ++ n1).
  replace (((Error :: bytes_of "ERR unknown command '" ++ name ++ bytes_of "'") ++ crlf) ++ more)
    with (pre ++ crlf ++ n2 ++ bytes_of "'" ++ crlf ++ more)
    by (unfold pre, name; cbn [app]; rewrite <- !app_assoc; done).
  unfold resp_Read, read_fuel. rewrite Nat.add_1_r, resp_read_S. rewrite readLine_crlf; [done|].
  unfold pre. rewrite elem_of_cons, elem_of_app. intros [?|[Hin|?]]; [done| |done].
  by apply (bool_decide_eq_true_2 (LF ∈ bytes_of "ERR unknown command '")) in Hin.
Qed.
End dispatch.

(** ** Witnesses *)

Definition demo_cmd (args : list string) : RespValue :=
  ArrayValue (BulkStringValue ∘ bytes_of <$> args).

Definition demo_cmds : list RespValue := [demo_cmd ["set"; "a"; "1"]; demo_cmd ["GET"; "a"]]%string.

Definition demo_stream : bytes := concat (encode <$> demo_cmds).

Definition demo_replies : list RespValue :=
  [SimpleStringValue (bytes_of "OK"); BulkStringValue (bytes_of "1")].

(** No error text and no non-ASCII command occurs in the demo. *)
Definition demo_errText (e : goerror) : bytes := [].
Definition demo_upper (s : bytes) : bytes := s.

Definition demo_conn_few : bool :=
  match db_Open (NewShardedLRU (V := list kv) 2 4) (mkConfig (bytes_of "wal") demo_dir)
          (mkFile [] 0) (mkWorld ∅ 0) with
  | (w, Ok db) =>
      conn_few demo_errText demo_upper demo_bloom new_file Z.succ (S (length demo_stream))
        (mkAbs [] ∅) db w demo_stream
  | _ => false
  end.

(** What the abstract database answers. *)
Definition demo_answers : bool :=
  match handleConn demo_errText demo_upper (mkAbs [] ∅) demo_stream (mkFile [] 0) with
  | (_, bw, ConnClosed) => bool_decide (fdata (bw_wr bw) = concat (encode <$> demo_replies))
  | _ => false
  end.

Lemma server_refines_history_witness :
  exists w db,
    db_Open (NewShardedLRU (V := list kv) 2 4) (mkConfig (bytes_of "wal") demo_dir) (mkFile [] 0)
      (mkWorld ∅ 0) = (w, Ok db)
    /\ exists st bw,
         handleConn demo_errText demo_upper (H := db_Store demo_bloom new_file Z.succ) (db, w)
           demo_stream (mkFile [] 0) = (st, bw, ConnClosed)
         /\ fdata (bw_wr bw) = concat (encode <$> demo_replies).
Proof.
  destruct (server_refines_history (C := ShardedLRU (list kv)) (WL := os_File_WriterLaws)
    demo_errText demo_upper demo_bloom new_file Z.succ demo_bloom_ok (fun _ => eq_refl)
    (fun t => Z.lt_succ_diag_r t) (NewShardedLRU (V := list kv) 2 4)
    (mkConfig (bytes_of "wal") demo_dir) ∅ 0 demo_stream (mkFile [] 0)) as (w & db & Ho & Hrun).
  - split; [intros p [x Hx]; by rewrite lookup_empty in Hx|intros d Hd; by rewrite lookup_empty in Hd].
  - apply new_cache_true. lia.
  - exists w, db. split; [exact Ho|]. destruct Hrun as (st & a' & bw & e & Hdb & Habs & _).
    + apply conn_few_safe. assert (Hfew : demo_conn_few = true) by (vm_compute; reflexivity).
      unfold demo_conn_few in Hfew. by rewrite Ho in Hfew.
    + assert (Hans : demo_answers = true) by (vm_compute; reflexivity).
      unfold demo_answers in Hans. rewrite Habs in Hans. destruct e; [|done..].
      exists st, bw. split; [exact Hdb|]. by apply bool_decide_eq_true in Hans.
Defined.

Lemma pipeline_in_order_witness :
  exists s' bw, handleConn demo_errText demo_upper (mkAbs [] ∅) (concat (encode <$> demo_cmds) ++ [])
      (mkFile [] 0) = (s', bw, ConnClosed)
    /\ on_file (bw_wr bw) = on_file (mkFile [] 0) ++ concat (encode <$> demo_replies) /\ bw_buf bw = [].
Proof.
  exists (run_cmds demo_errText demo_upper (mkAbs [] ∅) demo_cmds).1.
  apply (pipeline_in_order demo_errText demo_upper (mkAbs [] ∅) _ demo_cmds demo_replies [] EOF (mkFile [] 0)).
  - repeat constructor; vm_compute; congruence.
  - reflexivity.
  - vm_compute. reflexivity.
Defined.

Definition demo_abs : abs := mkAbs [(bytes_of "a", Some (bytes_of "1"))] ∅.
Definition demo_keys : list bytes := [bytes_of "a"; bytes_of "b"; bytes_of "a"].

Lemma del_counts_live_keys_witness :
  exists a', run_prog demo_abs
      (dispatch demo_errText demo_upper (ArrayValue (BulkStringValue <$> bytes_of "dEL" :: demo_keys)))
      = (a', Some (IntegerValue 1))
    /\ live_value a' (bytes_of "a") = None.
Proof.
  destruct (del_counts_live_keys demo_errText demo_upper demo_abs (bytes_of "dEL") demo_keys)
    as (a' & Hrun & Hlive).
  - vm_compute. reflexivity.
  - discriminate.
  - repeat constructor; vm_compute; congruence.
  - vm_compute. congruence.
  - assert (Hn : Z.of_nat (size (live_keys demo_abs demo_keys)) = 1) by (vm_compute; reflexivity).
    rewrite Hn in Hrun. exists a'. split; [exact Hrun|]. rewrite Hlive.
    by rewrite decide_True by apply list_elem_of_here.
Defined.

Lemma unknown_command_splits_reply_witness :
  exists v, run_prog (mkAbs [] ∅)
      (dispatch demo_errText demo_upper
         (ArrayValue [BulkStringValue (bytes_of "X" ++ crlf ++ bytes_of "+OK")])) = (mkAbs [] ∅, Some v)
    /\ resp_Read (encode v ++ [])
       = Ok (ErrorValue (bytes_of "ERR unknown command '" ++ bytes_of "X"),
             bytes_of "+OK" ++ bytes_of "'" ++ crlf ++ []).
Proof.
  apply (unknown_command_splits_reply demo_errText demo_upper (mkAbs [] ∅) (bytes_of "X") (bytes_of "+OK") [] []).
  - by apply (bool_decide_unpack (LF ∉ bytes_of "X")).
  - reflexivity.
  - repeat constructor; vm_compute; congruence.
Defined.
