(* ===== verification/ServerThreads.v ===== *)
(** * Many connections on one database ([src/server/server.go], [dispatch.go])

    Every connection has its goroutine, which runs [handleConn] against the one database. A
    state of the server is the database, the world and the place of every goroutine in its
    loop: before a read, inside [dispatch], inside the loop of [doScan], or after the
    connection was closed. A schedule is the list of the goroutines in the order in which they
    make their steps. A call of the database holds its mutex and is one step; opening a scan
    is one step and every [Next] another, because [Next] does not take the mutex. Readers hold
    the mutex together, but they share only the block cache, which has its own locks and whose
    contents never change an answer, so one after the other is the general case.

    The theorems: whatever the schedule, there is one sequence of all database calls that is
    answered as the abstract database answers it, and every connection is sent exactly the
    replies its commands compute from its own calls in that sequence
    ([connections_linearize]). A command that makes one call (SET, GET, SCAN, PING) is
    therefore atomic. DEL makes two calls for every key and is not: two connections that
    delete the same key can both be told that they removed it ([concurrent_del_counts_twice]). *)

From stdpp Require Import gmultiset.
From S2P Require Import Prelude Config Base Mvcc Memtable Bloom Cache Bufio Wal Block Fs Sstable.
From S2P Require Import SstReader Store Compaction Db Heap Scan DbRefine ScanSteps DbRuns DbRecover.
From S2P Require Import Resp Server.

(** ** The goroutines *)

Section threads.
Variables (errText : goerror -> bytes) (unicode_ToUpper : bytes -> bytes).
Context `{BT : BTree kv Item_Less} {BL : BTreeLaws kv Item_Less}.
Context {C : Type} `{CL : CacherLaws (list kv) C}.
Context {W : Type} `{WL : WriterLaws W} {HR : Reliable W}.
Context (bloom0 : BloomFilter) (newFile : bytes -> W) (tick : Z -> Z).
Context {V : Type} `{VL : WriterLaws V} {VR : Reliable V}.
Implicit Types (db : DB C) (w : World) (a : abs).

Abbreviation dispatch' := (dispatch errText unicode_ToUpper).

(** Where a goroutine is: at [resp.Read], in [dispatch] or at [resp.Write] (a program that is
    a reply), in the loop of [doScan], or gone. [r] is what the client has sent and the
    goroutine has not read. *)
Inductive thread :=
| TRead (r : bytes) (bw : bufio_Writer V)
| TRun (p : prog) (r : bytes) (bw : bufio_Writer V)
| TScan (m : MergeIterator) (elems : list (bytes * bytes)) (k : reply -> prog) (r : bytes) (bw : bufio_Writer V)
| TClosed (r : bytes) (bw : bufio_Writer V).

(** One step of a goroutine; [None] is a panic, which ends the process. *)
Definition thread_step db w (t : thread) : DB C * World * option thread :=
  match t with
  | TRead r bw =>
      (db, w, match resp_Read r with
              | Ok (cmd, r') => Some (TRun (dispatch' cmd) r' bw)
              | Err _ => Some (TClosed r bw)
              | Panic => None
              end)
  | TRun (Reply v) r bw =>
      (db, w, match resp_Write bw v with
              | (bw', None) => Some (TRead r bw')
              | (bw', Some _) => Some (TClosed r bw')
              end)
  | TRun Crash _ _ => (db, w, None)
  | TRun (Call (CScanAt lb ub s) k) r bw =>
      let '(it, c) := ScanAt (w_fs w) db lb ub s (db_cache db) in
      (set_cache db c, w, match it with
                          | Ok m => Some (TScan m [] k r bw)
                          | Err e => Some (TRun (k (RPairs (Err e))) r bw)
                          | Panic => None
                          end)
  | TRun (Call c k) r bw =>
      let '(db', w', rep) := db_step bloom0 newFile tick db w c in (db', w', Some (TRun (k rep) r bw))
  | TScan m elems k r bw =>
      let '(next, c) := merge_Next (w_fs w) m (db_cache db) in
      (set_cache db c, w, match next with
                          | Ok (true, m') => Some (TScan m' (elems ++ [(m_key m', m_val m')]) k r bw)
                          | Ok (false, _) => Some (TRun (k (RPairs (Ok elems))) r bw)
                          | Err e => Some (TRun (k (RPairs (Err e))) r bw)
                          | Panic => None
                          end)
  | TClosed _ _ => (db, w, Some t)
  end.

Record server_state := mkServerState {
  sv_db : DB C;
  sv_world : World;
  sv_threads : list thread;
  sv_panicked : bool
}.

Definition goroutine_step (sv : server_state) (i : nat) : server_state :=
  if sv_panicked sv then sv
  else
    match sv_threads sv !! i with
    | None => sv
    | Some t =>
        let '(db', w', o) := thread_step (sv_db sv) (sv_world sv) t in
        match o with
        | Some t' => mkServerState db' w' (<[i := t']> (sv_threads sv)) false
        | None => mkServerState db' w' (sv_threads sv) true
        end
    end.

Definition server_run (sv : server_state) (schedule : list nat) : server_state := foldl goroutine_step sv schedule.

(** Connections with everything their clients will ever send. *)
Definition connected db w (clients : list (bytes * V)) : server_state :=
  mkServerState db w ((fun c => TRead c.1 (bufio_NewWriter c.2)) <$> clients) false.

(** ** What a connection has done *)

(** [cmds] are the commands read from [r], and [r'] is left. *)
Inductive reads : bytes -> list RespValue -> bytes -> Prop :=
| reads_nil r : reads r [] r
| reads_cons r cmd r' cmds r'' : resp_Read r = Ok (cmd, r') -> reads r' cmds r'' -> reads r (cmd :: cmds) r''.

Lemma reads_snoc r cmds r' cmd r'' :
  reads r cmds r' -> resp_Read r' = Ok (cmd, r'') -> reads r (cmds ++ [cmd]) r''.
Proof.
  induction 1 as [r|r c r1 cmds r2 Hc _ IH]; intros Hr; simpl; [econstructor; [done|constructor]|].
  econstructor; [done|auto].
Qed.

(** The program [p] has made the calls of [tr] and got the replies; [q] is left of it. *)
Inductive follows : prog -> list (call * reply) -> prog -> Prop :=
| follows_nil p : follows p [] p
| follows_call c k rep tr q : follows (k rep) tr q -> follows (Call c k) ((c, rep) :: tr) q.

Lemma follows_snoc p tr c k rep : follows p tr (Call c k) -> follows p (tr ++ [(c, rep)]) (k rep).
Proof.
  remember (Call c k) as q eqn:Hq. induction 1 as [p|c' k' rep' tr q _ IH]; subst; simpl.
  - constructor. constructor.
  - constructor. by apply IH.
Qed.

Lemma follows_all (P : RespValue -> Prop) p tr q : follows p tr q -> prog_all P p -> prog_all P q.
Proof. induction 1 as [p|c k rep tr q _ IH]; [done|]. intros Hp. apply IH, Hp. Qed.

(** A handler that never panics when the database answers as the abstract one does. *)
Fixpoint answering (p : prog) : Prop :=
  match p with
  | Reply _ => True
  | Crash => False
  | Call c k => forall a, answering (k (abs_step a c).2)
  end.

Lemma del_loop_answering removed args : answering (del_loop errText removed args).
Proof.
  revert removed. induction args as [|x args IH]; intros removed; [done|]. cbn [del_loop answering abs_step].
  intros a. cbn [snd]. assert (Hdel : forall n a', answering (match (abs_step a' (CDelete (v_Str x))).2 with
    | RDone (Ok _) => del_loop errText n args | RDone (Err e) => Reply (error_reply errText e) | _ => Crash end)).
  { intros n a'. cbn [abs_step]. case_if; [done|apply IH]. }
  destruct (abs_read _ _ _); cbn [answering]; intros a'; apply Hdel.
Qed.

Lemma dispatch_answering cmd : answering (dispatch' cmd).
Proof.
  unfold dispatch. destruct (v_Elems cmd) as [|name args]; [done|].
  destruct (negb (is_type Array cmd)); [done|]. destruct (negb (forallb _ _)); [done|].
  cbv zeta. destruct (bytes_Equal _ CmdSet).
  { destruct args as [|k [|v [|]]]; try done. intros a. cbn [abs_step]. by repeat case_if. }
  destruct (bytes_Equal _ CmdGet).
  { destruct args as [|k [|]]; try done. intros a. cbn [abs_step snd]. by destruct (abs_read _ _ _). }
  destruct (bytes_Equal _ CmdDel); [destruct args; [done|apply del_loop_answering]|].
  destruct (bytes_Equal _ CmdScan); [by destruct args as [|lo [|hi [|]]]|].
  destruct (bytes_Equal _ CmdPing); [by destruct args|done].
Qed.

(** A command, the calls it made with their replies, and its own reply. *)
Definition served : Type := RespValue * list (call * reply) * RespValue.

Definition served_ok (s : served) : Prop :=
  let '(cmd, tr, v) := s in follows (dispatch' cmd) tr (Reply v).

(** The replies of [done] have been sent to the connection. *)
Record progress (conn : V) (bw : bufio_Writer V) (done : list served) : Prop := {
  pg_served : Forall served_ok done;
  pg_stream : stream_ok bw (on_file conn ++ concat (encode <$> done.*2));
  pg_err : bw_err bw = None;
  pg_buf : bw_buf bw = []
}.

Definition cmds_of (done : list served) : list RespValue := (fun s => s.1.1) <$> done.
Definition calls_of (done : list served) : list (call * reply) := concat ((fun s => s.1.2) <$> done).

(** What a goroutine whose calls so far are [tr] has done: it has answered the commands of
    [done], and [tr'] are the calls of the command it is working on. *)
Definition view db w (input : bytes) (conn : V) (tr : list (call * reply)) (t : thread) : Prop :=
  exists done tr', tr = calls_of done ++ tr' /\
    match t with
    | TRead r bw => tr' = [] /\ reads input (cmds_of done) r /\ progress conn bw done
    | TRun p r bw =>
        exists cmd, reads input (cmds_of done ++ [cmd]) r /\ follows (dispatch' cmd) tr' p
          /\ answering p /\ progress conn bw done
    | TScan m elems k r bw =>
        exists cmd rest s truth, reads input (cmds_of done ++ [cmd]) r
          /\ follows (dispatch' cmd) tr' (k (RPairs (Ok (elems ++ rest))))
          /\ answering (k (RPairs (Ok (elems ++ rest))))
          /\ scan_at (w_fs w) truth (db_tables db) s m rest /\ progress conn bw done
    | TClosed r bw =>
        tr' = [] /\ reads input (cmds_of done) r /\ (exists e, resp_Read r = Err e) /\ progress conn bw done
    end.

(** Every call but a scan is a single step. *)
Definition db_calls (c : call) : bool := match c with CScanAt _ _ _ => false | _ => true end.

(** The call a goroutine is about to make, and what it does to the abstract database. *)
Definition called (t : thread) : option call := match t with TRun (Call c _) _ _ => Some c | _ => None end.
Definition after_call a (o : option call) : abs := match o with Some c => (abs_step a c).1 | None => a end.
Definition event a (o : option call) : list (call * reply) :=
  match o with Some c => [(c, (abs_step a c).2)] | None => [] end.

Context (bloom0_ok : bloom_ok bloom0) (newFile_empty : forall p, on_file (newFile p) = [])
  (tick_later : forall t, t < tick t).

Lemma progress_new conn : progress conn (bufio_NewWriter conn) [].
Proof. split; [constructor|simpl; rewrite app_nil_r; apply stream_ok_new|done|done]. Qed.

(** Sending the reply of a finished command. *)
Lemma progress_write conn bw done cmd tr v :
  progress conn bw done -> follows (dispatch' cmd) tr (Reply v) ->
  exists bw', resp_Write bw v = (bw', None) /\ progress conn bw' (done ++ [(cmd, tr, v)]).
Proof.
  intros [Hs Hst He Hb] Hf.
  destruct (resp_Write_ok bw _ v Hst He) as (bw' & Hw & Hst' & He' & Hb' & _).
  { apply (follows_all known _ _ _ Hf), dispatch_known. }
  exists bw'. split; [done|]. split; [|rewrite fmap_app, fmap_app, concat_app; simpl; by rewrite app_nil_r, app_assoc|done|done].
  apply Forall_app. split; [done|]. by constructor.
Qed.

Lemma calls_of_snoc done cmd tr v : calls_of (done ++ [(cmd, tr, v)]) = calls_of done ++ tr.
Proof. unfold calls_of. rewrite fmap_app, concat_app. simpl. by rewrite app_nil_r. Qed.

Lemma cmds_of_snoc done cmd tr v : cmds_of (done ++ [(cmd, tr, v)]) = cmds_of done ++ [cmd].
Proof. unfold cmds_of. by rewrite fmap_app. Qed.

(** Opening a scan. *)
Lemma sim_ScanAt a db w lb ub s :
  sim a db w -> s ∈ a_pins a \/ a_seq a <= s <= SeqNumMax ->
  exists m c truth, ScanAt (w_fs w) db lb ub s (db_cache db) = (Ok m, c) /\ sim a (set_cache db c) w
    /\ scan_at (w_fs w) truth (db_tables db) s m (abs_scan lb ub s (a_log a)).
Proof.
  intros Hsim Hs. pose proof Hsim as [Hinv Hq Hp Hl].
  pose proof (readable_range _ _ _ _ Hinv (sim_readable _ _ _ _ Hsim Hs)) as Hrange.
  pose proof Hinv as [(truth & Hst & Hc) Hm ? ? Hnd ? ? ? ?].
  destruct (scan_open (w_fs w) truth db lb ub s (abs_scan lb ub s (a_log a)) Hm (so_good _ _ _ _ _ Hst) Hnd
    Hrange (sim_scan_answer a db w lb ub s Hsim Hs) (db_cache db) Hc) as (m & c & Ho & Hc' & Hat).
  exists m, c, truth. split; [done|]. split; [|done]. split; [|done..]. by apply (db_inv_cache _ db w truth).
Qed.

(** A [Next] of an open scan. *)
Lemma sim_Next a db w s m rest truth :
  sim a db w -> scan_at (w_fs w) truth (db_tables db) s m rest ->
  exists more m' c truth', merge_Next (w_fs w) m (db_cache db) = (Ok (more, m'), c) /\ sim a (set_cache db c) w
    /\ if more then exists rest', rest = (m_key m', m_val m') :: rest'
                     /\ scan_at (w_fs w) truth' (db_tables db) s m' rest'
        else rest = [].
Proof.
  intros [Hinv ? ? ?] Hat. pose proof Hinv as [(truth0 & Hst & Hc) ? ? ? ? ? ? ? ?].
  pose proof (scan_move _ _ _ _ truth0 _ _ _ _ Hat (so_good _ _ _ _ _ Hst) (scan_at_kept _ _ _ _ _ _ Hat)) as Hat'.
  destruct (scan_next _ _ _ _ _ _ Hat' (db_cache db) Hc) as ([more m'] & c & Hn & Hc' & Hp).
  exists more, m', c, truth0. split; [done|]. split; [|by destruct more]. split; [|done..].
  by apply (db_inv_cache _ db w truth0).
Qed.

(** *** One step *)

Definition stepped a db w input conn tr t : Prop :=
  exists db' w' o, thread_step db w t = (db', w', o) /\ sim (after_call a (called t)) db' w'
    /\ (called t = None -> w' = w /\ db_tables db' = db_tables db)
    /\ match o with
       | Some t' => view db' w' input conn (tr ++ event a (called t)) t'
       | None => called t = None /\ exists cmds r, reads input cmds r /\ resp_Read r = Panic
       end.

Lemma step_read a db w input conn tr r bw :
  sim a db w -> view db w input conn tr (TRead r bw) -> stepped a db w input conn tr (TRead r bw).
Proof.
  intros Hsim (done & tr' & -> & -> & Hr & Hp). unfold stepped. cbn [thread_step called after_call event].
  rewrite !app_nil_r. eexists db, w, _. split; [done|]. split; [done|]. split; [done|].
  destruct (resp_Read r) as [[cmd r']|e|] eqn:E.
  - exists done, []. rewrite app_nil_r. split; [done|]. exists cmd.
    split; [by eapply reads_snoc|]. split; [constructor|]. split; [apply dispatch_answering|done].
  - exists done, []. rewrite app_nil_r. split; [done|]. split; [done|]. split; [done|]. eauto.
  - split; [done|]. eauto.
Qed.

Lemma step_reply a db w input conn tr v r bw :
  sim a db w -> view db w input conn tr (TRun (Reply v) r bw) -> stepped a db w input conn tr (TRun (Reply v) r bw).
Proof.
  intros Hsim (done & tr' & -> & cmd & Hr & Hf & _ & Hp). unfold stepped. cbn [thread_step called after_call event].
  rewrite app_nil_r. destruct (progress_write conn bw done cmd tr' v Hp Hf) as (bw' & -> & Hp').
  eexists db, w, _. split; [done|]. split; [done|]. split; [done|].
  exists (done ++ [(cmd, tr', v)]), []. rewrite calls_of_snoc, cmds_of_snoc, app_nil_r. done.
Qed.

Lemma step_scan a db w input conn tr m elems k r bw :
  sim a db w -> view db w input conn tr (TScan m elems k r bw) ->
  stepped a db w input conn tr (TScan m elems k r bw).
Proof.
  intros Hsim (done & tr' & -> & cmd & rest & s & truth & Hr & Hf & Ha & Hat & Hp).
  unfold stepped. cbn [thread_step called after_call event]. rewrite app_nil_r.
  destruct (sim_Next a db w s m rest truth Hsim Hat) as (more & m' & c & truth' & -> & Hsim' & Hn).
  eexists (set_cache db c), w, _. split; [done|]. split; [done|]. split; [done|].
  destruct more; exists done, tr'; (split; [done|]).
  - destruct Hn as (rest' & -> & Hat'). exists cmd, rest', s, truth'. by rewrite <- app_assoc.
  - subst rest. rewrite app_nil_r in Hf, Ha. by exists cmd.
Qed.

Lemma step_call a db w input conn tr c k r bw :
  sim a db w -> view db w input conn tr (TRun (Call c k) r bw) ->
  call_ok a c -> call_in_order bloom0 newFile tick db w c ->
  stepped a db w input conn tr (TRun (Call c k) r bw).
Proof.
  intros Hsim (done & tr' & -> & cmd & Hr & Hf & Ha & Hp) Hok Hord.
  assert (Hnext : follows (dispatch' cmd) (tr' ++ [(c, (abs_step a c).2)]) (k (abs_step a c).2)
    /\ answering (k (abs_step a c).2)).
  { split; [by apply follows_snoc|apply Ha]. }
  destruct Hnext as [Hf' Ha']. unfold stepped. cbn [called after_call event].
  assert (Hview : forall db' w', view db' w' input conn ((calls_of done ++ tr') ++ [(c, (abs_step a c).2)])
    (TRun (k (abs_step a c).2) r bw)).
  { intros db' w'. exists done, (tr' ++ [(c, (abs_step a c).2)]). rewrite app_assoc. split; [done|]. by exists cmd. }
  assert (Hcall : db_calls c = true -> exists db' w' o, thread_step db w (TRun (Call c k) r bw) = (db', w', o)
    /\ sim (abs_step a c).1 db' w' /\ o = Some (TRun (k (abs_step a c).2) r bw)).
  { intros Hc. destruct (sim_step bloom0 newFile tick bloom0_ok newFile_empty tick_later a db w c Hsim Hok Hord)
      as (db' & w' & Hstep & Hsim'). eexists db', w', _.
    destruct c; try done; cbn [thread_step]; by rewrite Hstep. }
  destruct (db_calls c) eqn:Hc.
  - destruct (Hcall eq_refl) as (db' & w' & o & -> & Hsim' & ->). eexists db', w', _. split; [done|].
    split; [done|]. split; [done|]. apply Hview.
  - destruct c as [| | | |lb ub s| | |]; try done. cbn [thread_step abs_step fst snd] in *.
    destruct (sim_ScanAt a db w lb ub s Hsim Hok) as (m & c' & truth & -> & Hsim' & Hat).
    eexists (set_cache db c'), w, _. split; [done|]. split; [done|]. split; [done|].
    exists done, (tr' ++ [(CScanAt lb ub s, RPairs (Ok (abs_scan lb ub s (a_log a))))]).
    rewrite app_assoc. split; [done|]. by exists cmd, (abs_scan lb ub s (a_log a)), s, truth.
Qed.

Lemma thread_step_ok a db w input conn tr t :
  sim a db w -> view db w input conn tr t ->
  (forall c, called t = Some c -> call_ok a c /\ call_in_order bloom0 newFile tick db w c) ->
  stepped a db w input conn tr t.
Proof.
  intros Hsim Hv Hc. destruct t as [r bw|[v| |c k] r bw|m elems k r bw|r bw].
  - by apply step_read.
  - by apply step_reply.
  - by destruct Hv as (done & tr' & _ & cmd & _ & _ & [] & _).
  - destruct (Hc c eq_refl) as [Hok Hord]. by apply step_call.
  - by apply step_scan.
  - unfold stepped. cbn [thread_step called after_call event]. rewrite app_nil_r.
    eexists db, w, _. split; [done|]. split; [done|]. by split.
Qed.

(** The other goroutines do not notice, unless a table under their scan has gone. *)
Definition kept_for (fs fs' : FS) (tabs : list SSTable) (t : thread) : Prop :=
  match t with TScan m _ _ _ _ => scan_kept fs fs' tabs m | _ => True end.

Lemma view_move a db w db' w' input conn tr t :
  sim a db' w' -> view db w input conn tr t -> kept_for (w_fs w) (w_fs w') (db_tables db') t ->
  view db' w' input conn tr t.
Proof.
  intros Hsim (done & tr' & -> & Hv) Hk. exists done, tr'. split; [done|].
  destruct t as [r bw|p r bw|m elems k r bw|r bw]; try done.
  destruct Hv as (cmd & rest & s & truth & Hr & Hf & Ha & Hat & Hp).
  destruct (di_truth _ _ _ (sim_inv _ _ _ Hsim)) as (truth' & Hst & _).
  exists cmd, rest, s, truth'. do 3 (split; [done|]). split; [|done].
  by eapply scan_move; [exact Hat|apply Hst|].
Qed.

Lemma view_same db w db' input conn tr t :
  db_tables db' = db_tables db -> view db w input conn tr t -> view db' w input conn tr t.
Proof.
  intros Heq (done & tr' & -> & Hv). exists done, tr'. split; [done|].
  destruct t; try done. by rewrite Heq.
Qed.

(** ** The server *)

Definition next_call (sv : server_state) (i : nat) : option call :=
  if sv_panicked sv then None else sv_threads sv !! i ≫= called.

(** The database calls of a schedule in the order in which they are made, each with its
    connection and the answer of the abstract database. *)
Fixpoint server_log a (sv : server_state) (schedule : list nat) : list (nat * (call * reply)) :=
  match schedule with
  | [] => []
  | i :: schedule' =>
      (pair i <$> event a (next_call sv i))
        ++ server_log (after_call a (next_call sv i)) (goroutine_step sv i) schedule'
  end.

(** The calls of connection [i]. *)
Definition of_conn (i : nat) (L : list (nat * (call * reply))) : list (call * reply) :=
  (filter (fun e => e.1 = i) L).*2.

(** Every call is one the refinement of the database covers, and no compaction removes a
    table under an open scan. *)
Fixpoint server_safe a (sv : server_state) (schedule : list nat) : Prop :=
  match schedule with
  | [] => True
  | i :: schedule' =>
      let sv' := goroutine_step sv i in
      (forall c, next_call sv i = Some c ->
         call_ok a c /\ call_in_order bloom0 newFile tick (sv_db sv) (sv_world sv) c
         /\ Forall (kept_for (w_fs (sv_world sv)) (w_fs (sv_world sv')) (db_tables (sv_db sv'))) (sv_threads sv))
      /\ server_safe (after_call a (next_call sv i)) sv' schedule'
  end.

Definition serving (clients : list (bytes * V)) a (sv : server_state) (L : list (nat * (call * reply))) : Prop :=
  sim a (sv_db sv) (sv_world sv)
  /\ (forall i t, sv_threads sv !! i = Some t ->
       exists input conn, clients !! i = Some (input, conn)
         /\ view (sv_db sv) (sv_world sv) input conn (of_conn i L) t)
  /\ (sv_panicked sv = true ->
       exists i input conn cmds r, clients !! i = Some (input, conn) /\ reads input cmds r
         /\ resp_Read r = Panic).

Lemma of_conn_event i j L a o :
  of_conn j (L ++ (pair i <$> event a o)) = of_conn j L ++ if decide (j = i) then event a o else [].
Proof.
  unfold of_conn. rewrite filter_app, fmap_app. f_equal. destruct o as [c|]; simpl; [|by case_decide].
  rewrite filter_cons. cbn [fst]. destruct (decide (i = j)), (decide (j = i)); by subst.
Qed.

Lemma serving_step clients a sv L i :
  serving clients a sv L ->
  (forall c, next_call sv i = Some c ->
     call_ok a c /\ call_in_order bloom0 newFile tick (sv_db sv) (sv_world sv) c
     /\ Forall (kept_for (w_fs (sv_world sv)) (w_fs (sv_world (goroutine_step sv i)))
          (db_tables (sv_db (goroutine_step sv i)))) (sv_threads sv)) ->
  serving clients (after_call a (next_call sv i)) (goroutine_step sv i) (L ++ (pair i <$> event a (next_call sv i))).
Proof.
  intros (Hsim & Hconns & Hpanic). unfold next_call, goroutine_step. destruct (sv_panicked sv) eqn:Hp.
  { intros _. cbn [after_call event fmap list_fmap]. rewrite app_nil_r. split; [done|]. split; [done|]. intros _. by apply Hpanic. }
  destruct (sv_threads sv !! i) as [t|] eqn:Ht; 
    [|intros _; cbn; rewrite app_nil_r; split; [done|]; split; [done|]; congruence].
  cbn [mbind option_bind]. intros Hc. destruct (Hconns i t Ht) as (input & conn & Hcl & Hv).
  destruct (thread_step_ok a (sv_db sv) (sv_world sv) input conn _ t Hsim Hv) as (db' & w' & o & Hst & Hsim' & Hsame & Ho).
  { intros c Hcc. destruct (Hc c Hcc) as (? & ? & _). done. }
  rewrite Hst in *.
  assert (Hothers : forall j u, sv_threads sv !! j = Some u -> j <> i -> exists input conn, clients !! j = Some (input, conn)
    /\ view db' w' input conn (of_conn j (L ++ (pair i <$> event a (called t)))) u).
  { intros j u Hu Hji. destruct (Hconns j u Hu) as (inp & cn & Hclj & Hvj). exists inp, cn. split; [done|].
    rewrite of_conn_event, decide_False, app_nil_r by done. destruct (called t) as [c|] eqn:Hct.
    - destruct (Hc c eq_refl) as (_ & _ & Hk). rewrite Forall_forall in Hk.
      specialize (Hk u (list_elem_of_lookup_2 _ _ _ Hu)).
      eapply view_move; [exact Hsim'|exact Hvj|by destruct o].
    - destruct (Hsame eq_refl) as [-> Heq]. by eapply view_same. }
  destruct o as [t'|]; (split; [done|]).
  - split; [|done]. intros j u Hu. destruct (decide (j = i)) as [->|Hji].
    + cbn [sv_threads] in Hu. rewrite list_lookup_insert_eq in Hu by (by eapply lookup_lt_Some).
      injection Hu as <-. exists input, conn. split; [done|]. by rewrite of_conn_event, decide_True.
    + cbn [sv_threads] in Hu. rewrite list_lookup_insert_ne in Hu by done. by apply Hothers.
  - destruct Ho as (Hct & cmds & r & Hr & Hpan). split; [|intros _; by exists i, input, conn, cmds, r].
    intros j u Hu. cbn [sv_threads] in Hu. destruct (decide (j = i)) as [->|Hji]; [|by apply Hothers].
    rewrite Ht in Hu. injection Hu as <-. exists input, conn. split; [done|]. rewrite Hct. simpl. rewrite app_nil_r.
    destruct (Hsame Hct) as [-> Heq]. by eapply view_same.
Qed.

(** The calls of a schedule, in the order in which they are made. *)
Definition server_calls a (sv : server_state) (schedule : list nat) : list call := (server_log a sv schedule).*2.*1.

Lemma serving_run clients schedule : forall a sv L,
  serving clients a sv L -> server_safe a sv schedule ->
  serving clients (abs_after a (server_calls a sv schedule)) (server_run sv schedule) (L ++ server_log a sv schedule).
Proof.
  induction schedule as [|i schedule IH]; intros a sv L Hs; unfold server_calls in *;
    cbn [server_safe server_log server_run foldl].
  { intros _. by rewrite app_nil_r. }
  intros [Hc Hsafe]. rewrite app_assoc, !fmap_app. unfold abs_after at 1. rewrite foldl_app.
  replace (foldl _ a _) with (after_call a (next_call sv i)) by (by destruct (next_call sv i)).
  by apply IH; [apply serving_step|].
Qed.

(** Every file of the table directory stays one of the tables. *)
Lemma thread_step_clean a db w t :
  sim a db w -> (forall c, called t = Some c -> call_ok a c) -> clean db w ->
  clean (thread_step db w t).1.1 (thread_step db w t).1.2.
Proof.
  intros Hsim Hok Hcl. destruct t as [r bw|[v| |c k] r bw|m elems k r bw|r bw]; try done; cbn [thread_step].
  - destruct (rough_step bloom0 newFile tick bloom0_ok newFile_empty tick_later a db w c (sim_rough _ _ _ Hsim)
      (Hok c eq_refl)) as (db' & w' & rep & Hstep & _ & Hcl').
    destruct c; try (rewrite Hstep; by apply Hcl'). by destruct (ScanAt _ _ _ _ _ _) as [it c'].
  - by destruct (merge_Next _ _ _) as [next c'].
Qed.

Lemma server_run_clean clients schedule : forall a sv L,
  serving clients a sv L -> server_safe a sv schedule -> clean (sv_db sv) (sv_world sv) ->
  clean (sv_db (server_run sv schedule)) (sv_world (server_run sv schedule)).
Proof.
  induction schedule as [|i schedule IH]; intros a sv L Hs; [done|]. cbn [server_safe server_run foldl].
  intros [Hc Hsafe] Hcl. eapply IH; [by eapply serving_step|done|].
  unfold next_call, goroutine_step in *. destruct (sv_panicked sv); [done|].
  destruct (sv_threads sv !! i) as [t|]; [|done]. cbn [mbind option_bind] in Hc.
  pose proof (thread_step_clean a _ _ t (proj1 Hs) (fun c Hcc => proj1 (Hc c Hcc)) Hcl) as Hcl'.
  by destruct (thread_step _ _ t) as [[db' w'] [t'|]].
Qed.

(** A new server. *)
Lemma serving_start clients a db w : sim a db w -> serving clients a (connected db w clients) [].
Proof.
  intros Hsim. split; [done|]. split; [|done]. intros i t. cbn [connected sv_threads].
  rewrite list_lookup_fmap. destruct (clients !! i) as [[input conn]|]; [|done]. intros [= <-].
  exists input, conn. split; [done|]. exists [], []. split; [done|]. split; [done|].
  split; [constructor|apply progress_new].
Qed.

Lemma server_log_run schedule : forall a sv,
  abs_run a (server_log a sv schedule).*2.*1 = (server_log a sv schedule).*2.*2.
Proof.
  induction schedule as [|i schedule IH]; intros a sv; [done|]. cbn [server_log]. rewrite !fmap_app.
  destruct (next_call sv i) as [c|]; simpl; [f_equal|]; apply IH.
Qed.

(** *** What the client of a connection sees *)

Definition t_writer (t : thread) : bufio_Writer V :=
  match t with TRead _ bw | TRun _ _ bw | TScan _ _ _ _ bw | TClosed _ bw => bw end.

Definition is_closed (t : thread) : bool := match t with TClosed _ _ => true | _ => false end.

(** The client has been sent the replies of its first commands, [done], each of which follows
    from the command and its calls; the calls [tr'] are those of the next command. The
    connection is closed at the first input that is no command. *)
Definition conn_answered (input : bytes) (conn : V) (tr : list (call * reply)) (t : thread) : Prop :=
  exists done tr' r,
    tr = calls_of done ++ tr' /\ Forall served_ok done /\ reads input (cmds_of done) r
    /\ on_file (bw_wr (t_writer t)) = on_file conn ++ concat (encode <$> done.*2)
    /\ (tr' = [] \/ exists cmd r' q, resp_Read r = Ok (cmd, r') /\ follows (dispatch' cmd) tr' q)
    /\ (is_closed t = true -> tr' = [] /\ exists e, resp_Read r = Err e).

Lemma reads_snoc_inv r cmds cmd r'' :
  reads r (cmds ++ [cmd]) r'' -> exists r', reads r cmds r' /\ resp_Read r' = Ok (cmd, r'').
Proof.
  revert r. induction cmds as [|c cmds IH]; intros r Hr; inversion Hr as [|? ? r1 ? ? Hc Hrest]; subst.
  - inversion Hrest; subst. exists r. split; [constructor|done].
  - destruct (IH r1 Hrest) as (r' & Hr' & Hc'). exists r'. split; [by econstructor|done].
Qed.

Lemma progress_file conn bw done :
  progress conn bw done -> on_file (bw_wr bw) = on_file conn ++ concat (encode <$> done.*2).
Proof. intros [_ Hs He Hb]. unfold stream_ok in Hs. rewrite He, Hb in Hs. destruct Hs as [<- _]. by rewrite app_nil_r. Qed.

Lemma view_answered db w input conn tr t : view db w input conn tr t -> conn_answered input conn tr t.
Proof.
  intros (done & tr' & -> & Hv). destruct t as [r bw|p r bw|m elems k r bw|r bw].
  - destruct Hv as (-> & Hr & Hp). exists done, [], r. split; [done|]. split; [apply Hp|]. split; [done|].
    split; [by apply progress_file|]. split; [by left|done].
  - destruct Hv as (cmd & Hr & Hf & _ & Hp). destruct (reads_snoc_inv _ _ _ _ Hr) as (r' & Hr' & Hc).
    exists done, tr', r'. split; [done|]. split; [apply Hp|]. split; [done|].
    split; [by apply progress_file|]. split; [right; eauto|done].
  - destruct Hv as (cmd & rest & s & truth & Hr & Hf & _ & _ & Hp).
    destruct (reads_snoc_inv _ _ _ _ Hr) as (r' & Hr' & Hc).
    exists done, tr', r'. split; [done|]. split; [apply Hp|]. split; [done|].
    split; [by apply progress_file|]. split; [right; eauto|done].
  - destruct Hv as (-> & Hr & He & Hp). exists done, [], r. split; [done|]. split; [apply Hp|]. split; [done|].
    split; [by apply progress_file|]. split; [by left|done].
Qed.

(** C2: many connections. Open a new database and let any number of clients send any bytes; the
    goroutines of their connections run in any order, step by step. Assumed along the schedule
    ([server_safe]): a compaction merges neighbouring tables only and removes no table under an
    open scan (both can happen and both give wrong answers, see
    [compaction_can_bury_newer_version] and [Races.v]), and there are fewer than 2^56 writes.
    Then there is one sequence of database calls, in the order in which they were made, which
    is answered as the abstract database (the list of all writes) answers it from the start;
    and at every moment each client has been sent exactly the replies of its first commands, in
    order, each computed from the command and the connection's own calls in that sequence; a
    scan is answered as of the moment it was opened, however long it is drained. No handler
    panics: if the process does, a client has sent bytes on which the parser panics. *)
Theorem connections_linearize (newCache : C) (conf : Config) (fs : FS) (now : Z)
    (clients : list (bytes * V)) (schedule : list nat) :
  fresh_dir fs (SSTDir conf) -> cache_true ∅ newCache ->
  exists w db, db_Open newCache conf (mkFile [] 0) (mkWorld fs now) = (w, Ok db)
    /\ let sv0 := connected db w clients in
       let sv := server_run sv0 schedule in
       let L := server_log (mkAbs [] ∅) sv0 schedule in
       server_safe (mkAbs [] ∅) sv0 schedule ->
       abs_run (mkAbs [] ∅) L.*2.*1 = L.*2.*2
       /\ (forall i t, sv_threads sv !! i = Some t ->
            exists input conn, clients !! i = Some (input, conn) /\ conn_answered input conn (of_conn i L) t)
       /\ (sv_panicked sv = true ->
            exists i input conn cmds r, clients !! i = Some (input, conn) /\ reads input cmds r
              /\ resp_Read r = Panic).
Proof.
  intros Hf Hc. destruct (sim_fresh newCache conf fs now Hf Hc) as (db & Ho & Hsim). eexists _, db.
  split; [exact Ho|]. intros sv0 sv L Hsafe. split; [apply server_log_run|].
  destruct (serving_run clients schedule (mkAbs [] ∅) sv0 []) as (_ & Hconns & Hpanic); [by apply serving_start|done|].
  split; [|done]. intros i t Ht. destruct (Hconns i t Ht) as (input & conn & Hcl & Hv).
  exists input, conn. split; [done|]. by eapply view_answered.
Qed.

(** ** DEL is two calls *)

(** A step of goroutine [i] that does not panic. *)
Lemma safe_step a db w ts i t db' w' t' schedule :
  ts !! i = Some t -> thread_step db w t = (db', w', Some t') ->
  server_safe a (mkServerState db w ts false) (i :: schedule) ->
  server_safe (after_call a (called t)) (mkServerState db' w' (<[i := t']> ts) false) schedule
  /\ server_run (mkServerState db w ts false) (i :: schedule) = server_run (mkServerState db' w' (<[i := t']> ts) false) schedule.
Proof.
  intros Ht Hs. assert (Hst : goroutine_step (mkServerState db w ts false) i = mkServerState db' w' (<[i := t']> ts) false).
  { unfold goroutine_step. cbn [sv_panicked sv_threads sv_db sv_world]. by rewrite Ht, Hs. }
  cbn [server_safe server_run foldl]. rewrite Hst. unfold next_call. cbn [sv_panicked sv_threads]. rewrite Ht.
  cbn [mbind option_bind]. by intros [_ Hsafe].
Qed.

Lemma safe_call a db w ts i t c schedule :
  ts !! i = Some t -> called t = Some c -> server_safe a (mkServerState db w ts false) (i :: schedule) ->
  call_ok a c /\ call_in_order bloom0 newFile tick db w c.
Proof.
  intros Ht Hc [Hcall _]. destruct (Hcall c) as (? & ? & _); [|done].
  unfold next_call. cbn [sv_panicked sv_threads]. rewrite Ht. exact Hc.
Qed.

Definition del_cmd (k : bytes) : RespValue := ArrayValue (BulkStringValue <$> [CmdDel; k]).

Lemma thread_read_del db w k bw :
  blen k <= MAX_KEY_LENGTH ->
  thread_step db w (TRead (encode (del_cmd k)) bw) = (db, w, Some (TRun (del_loop errText 0 [BulkStringValue k]) [] bw)).
Proof.
  intros Hk. cbn [thread_step]. do 2 f_equal.
  assert (resp_Read (encode (del_cmd k) ++ []) = Ok (del_cmd k, [])) as Hr.
  { apply resp_Read_encode. unfold MAX_KEY_LENGTH in Hk.
    apply wire_array; [vm_compute; congruence|]. repeat constructor; [vm_compute; congruence|].
    etransitivity; [apply Z.add_le_mono_r, Hk|vm_compute; congruence]. }
  rewrite app_nil_r in Hr. by rewrite Hr.
Qed.

(** The goroutine after its [Get] found the key, and after its [Delete]. *)
Lemma thread_get_live a db w k r bw :
  sim a db w -> is_Some (live_value a k) ->
  exists db', thread_step db w (TRun (del_loop errText 0 [BulkStringValue k]) r bw)
      = (db', w, Some (TRun (Call (CDelete k) (fun rep =>
          match rep with
          | RDone (Ok _) => Reply (IntegerValue 1)
          | RDone (Err e) => Reply (error_reply errText e)
          | _ => Crash
          end)) r bw))
    /\ sim a db' w.
Proof.
  intros Hsim [v Hv]. destruct (sim_step bloom0 newFile tick bloom0_ok newFile_empty tick_later a db w (CGet k) Hsim I I)
    as (db' & w' & Hstep & Hsim'). cbn [abs_step fst snd] in *.
  assert (w' = w) as -> by (cbn [db_step] in Hstep; by destruct (Get db w k) as [? ?]; injection Hstep).
  exists db'. split; [|done]. cbn [thread_step del_loop v_Str BulkStringValue]. rewrite Hstep.
  unfold live_value in Hv. by rewrite Hv.
Qed.

Lemma thread_delete a db w k r bw :
  sim a db w -> blen k <= MAX_KEY_LENGTH ->
  call_ok a (CDelete k) -> call_in_order bloom0 newFile tick db w (CDelete k) ->
  exists db' w', thread_step db w (TRun (Call (CDelete k) (fun rep =>
          match rep with
          | RDone (Ok _) => Reply (IntegerValue 1)
          | RDone (Err e) => Reply (error_reply errText e)
          | _ => Crash
          end)) r bw)
      = (db', w', Some (TRun (Reply (IntegerValue 1)) r bw))
    /\ sim (deleted a k) db' w'.
Proof.
  intros Hsim Hk Hok Hord. destruct (sim_step bloom0 newFile tick bloom0_ok newFile_empty tick_later a db w (CDelete k)
    Hsim Hok Hord) as (db' & w' & Hstep & Hsim'). exists db', w'. cbn [abs_step thread_step] in *.
  rewrite (proj2 (Z.ltb_ge _ _)) in Hstep, Hsim' by done. by rewrite Hstep.
Qed.

Lemma thread_write_one db w r (conn : V) :
  exists bw, thread_step db w (TRun (Reply (IntegerValue 1)) r (bufio_NewWriter conn)) = (db, w, Some (TRead r bw))
    /\ on_file (bw_wr bw) = on_file conn ++ encode (IntegerValue 1).
Proof.
  destruct (resp_Write_ok (bufio_NewWriter conn) (on_file conn) (IntegerValue 1)) as (bw & Hw & _ & _ & _ & Hf);
    [apply stream_ok_new|done|done|]. exists bw. split; [|done]. cbn [thread_step]. by rewrite Hw.
Qed.

(** Both goroutines make their [Get] before either makes its [Delete]. *)
Definition del_schedule : list nat := [0; 1; 0; 1; 0; 1; 0; 1]%nat.

(** C32: DEL counts the keys that its own [Get] finds before its own [Delete]; another
    connection's DEL of the same key can come between. In every state of the database in
    which the key is live there is a schedule in which two connections each send DEL for the
    key and both are told that they removed one: only one of them did, as the sequential
    meaning of the command ([del_counts_live_keys]) has it. *)
Theorem concurrent_del_counts_twice (a : abs) (db : DB C) (w : World) (k : bytes) (conn1 conn2 : V) :
  sim a db w -> is_Some (live_value a k) -> blen k <= MAX_KEY_LENGTH ->
  server_safe a (connected db w [(encode (del_cmd k), conn1); (encode (del_cmd k), conn2)]) del_schedule ->
  exists t1 t2,
    sv_threads (server_run (connected db w [(encode (del_cmd k), conn1); (encode (del_cmd k), conn2)]) del_schedule)
      = [t1; t2]
    /\ on_file (bw_wr (t_writer t1)) = on_file conn1 ++ encode (IntegerValue 1)
    /\ on_file (bw_wr (t_writer t2)) = on_file conn2 ++ encode (IntegerValue 1).
Proof.
  intros Hsim Hl Hk. unfold connected, del_schedule. cbn [fmap list_fmap fst snd]. intros Hs.
  eapply safe_step in Hs as [Hs ->]; [|done|by apply thread_read_del].
  eapply safe_step in Hs as [Hs ->]; [|done|by apply thread_read_del].
  destruct (thread_get_live a db w k [] (bufio_NewWriter conn1) Hsim Hl) as (db1 & Hg & Hsim1).
  eapply safe_step in Hs as [Hs ->]; [|done|exact Hg].
  destruct (thread_get_live a db1 w k [] (bufio_NewWriter conn2) Hsim1 Hl) as (db2 & Hg2 & Hsim2).
  eapply safe_step in Hs as [Hs ->]; [|done|exact Hg2].
  assert (call_ok a (CDelete k) /\ call_in_order bloom0 newFile tick db2 w (CDelete k)) as [Hok Hord]
    by (by eapply safe_call; [..|exact Hs]).
  destruct (thread_delete a db2 w k [] (bufio_NewWriter conn1) Hsim2 Hk Hok Hord) as (db3 & w3 & Hd & Hsim3).
  eapply safe_step in Hs as [Hs ->]; [|done|exact Hd].
  assert (Ha : after_call a (Some (CDelete k)) = deleted a k).
  { cbn [after_call abs_step]. by rewrite (proj2 (Z.ltb_ge _ _)). }
  match type of Hs with server_safe ?x _ _ => change x with (after_call a (Some (CDelete k))) in Hs end.
  rewrite Ha in Hs.
  assert (call_ok (deleted a k) (CDelete k) /\ call_in_order bloom0 newFile tick db3 w3 (CDelete k)) as [Hok' Hord']
    by (by eapply safe_call; [..|exact Hs]).
  destruct (thread_delete (deleted a k) db3 w3 k [] (bufio_NewWriter conn2) Hsim3 Hk Hok' Hord') as (db4 & w4 & Hd' & _).
  eapply safe_step in Hs as [Hs ->]; [|done|exact Hd'].
  destruct (thread_write_one db4 w4 [] conn1) as (bw1 & Hw1 & Hf1).
  eapply safe_step in Hs as [Hs ->]; [|done|exact Hw1].
  destruct (thread_write_one db4 w4 [] conn2) as (bw2 & Hw2 & Hf2).
  eapply safe_step in Hs as [Hs ->]; [|done|exact Hw2].
  by exists (TRead [] bw1), (TRead [] bw2).
Qed.

(** Below the compaction threshold and the last sequence number the assumptions can be
    decided by running the schedule. *)
#[local] Instance kept_for_dec fs fs' tabs t : Decision (kept_for fs fs' tabs t).
Proof. destruct t; apply _. Defined.

Fixpoint server_few a (sv : server_state) (schedule : list nat) : bool :=
  match schedule with
  | [] => true
  | i :: schedule' =>
      let sv' := goroutine_step sv i in
      match next_call sv i with
      | Some c =>
          few a (sv_db sv) && plain_call c
          && bool_decide (Forall (kept_for (w_fs (sv_world sv)) (w_fs (sv_world sv')) (db_tables (sv_db sv')))
               (sv_threads sv))
      | None => true
      end && server_few (after_call a (next_call sv i)) sv' schedule'
  end.

Lemma server_few_safe schedule : forall a sv, server_few a sv schedule = true -> server_safe a sv schedule.
Proof.
  induction schedule as [|i schedule IH]; intros a sv; [done|]. cbn [server_few server_safe].
  intros [Hc Hrest]%andb_prop. split; [|by apply IH]. intros c Hn. rewrite Hn in Hc.
  apply andb_prop in Hc as [[[Ht%Z.ltb_lt Hq%Z.ltb_lt]%andb_prop Hp]%andb_prop Hk%bool_decide_eq_true].
  split; [|split; [by apply few_in_order|done]].
  destruct c; simpl in *; try done. right. apply Z.eqb_eq in Hp. lia.
Qed.
End threads.

(** ** A scan around a write *)

Definition pair_clients : list (bytes * os_File) :=
  [(concat (encode <$> [demo_cmd ["SET"; "a"; "1"]; demo_cmd ["SCAN"; "a"; "z"]]%string), mkFile [] 0);
   (encode (demo_cmd ["SET"; "b"; "2"]%string), mkFile [] 0)].

(** The first client sets and opens its scan, the second sets, the first drains its scan. *)
Definition pair_schedule : list nat := [0; 0; 0; 0; 0; 1; 1; 1; 0; 0; 0; 0; 1]%nat.

Definition pair_run (db : DB (ShardedLRU (list kv))) (w : World) : server_state :=
  server_run demo_errText demo_upper demo_bloom new_file Z.succ (connected db w pair_clients) pair_schedule.

Definition pair_log (db : DB (ShardedLRU (list kv))) (w : World) : list (nat * (call * reply)) :=
  server_log demo_errText demo_upper demo_bloom new_file Z.succ (mkAbs [] ∅) (connected db w pair_clients) pair_schedule.

Definition pair_check : bool :=
  match db_Open demo_cache demo_conf (mkFile [] 0) (mkWorld ∅ 0) with
  | (w, Ok db) =>
      server_few demo_errText demo_upper demo_bloom new_file Z.succ (mkAbs [] ∅)
        (connected db w pair_clients) pair_schedule
      && bool_decide ((fun t => fdata (bw_wr (t_writer t))) <$> sv_threads (pair_run db w)
           = [concat (encode <$> [SimpleStringValue (bytes_of "OK");
                                  ArrayValue [BulkStringValue (bytes_of "a"); BulkStringValue (bytes_of "1")]]);
              encode (SimpleStringValue (bytes_of "OK"))])
  | _ => false
  end.

Lemma connections_linearize_witness :
  exists w db, db_Open demo_cache demo_conf (mkFile [] 0) (mkWorld ∅ 0) = (w, Ok db)
    /\ (fun t => fdata (bw_wr (t_writer t))) <$> sv_threads (pair_run db w)
       = [concat (encode <$> [SimpleStringValue (bytes_of "OK");
                              ArrayValue [BulkStringValue (bytes_of "a"); BulkStringValue (bytes_of "1")]]);
          encode (SimpleStringValue (bytes_of "OK"))]
    /\ abs_run (mkAbs [] ∅) (pair_log db w).*2.*1 = (pair_log db w).*2.*2
    /\ forall i t, sv_threads (pair_run db w) !! i = Some t ->
         exists input conn, pair_clients !! i = Some (input, conn)
           /\ conn_answered demo_errText demo_upper input conn (of_conn i (pair_log db w)) t.
Proof.
  destruct (connections_linearize (C := ShardedLRU (list kv)) (WL := os_File_WriterLaws) (VL := os_File_WriterLaws)
    demo_errText demo_upper demo_bloom new_file Z.succ demo_bloom_ok (fun _ => eq_refl) (fun t => Z.lt_succ_diag_r t)
    demo_cache demo_conf ∅ 0 pair_clients pair_schedule demo_fresh) as (w & db & Ho & Hrun).
  { apply new_cache_true. lia. }
  assert (Hd : pair_check = true) by (vm_compute; reflexivity).
  unfold pair_check in Hd. rewrite Ho in Hd. apply andb_prop in Hd as [Hfew Hout%bool_decide_eq_true].
  exists w, db. split; [done|]. split; [done|].
  destruct Hrun as (Hlog & Hconns & _); [by apply server_few_safe|]. split; [exact Hlog|exact Hconns].
Defined.

(** ** Two DELs of one key *)

Definition twice_db (db : DB (ShardedLRU (list kv))) (w : World) : DB (ShardedLRU (list kv)) * World :=
  db_after demo_bloom new_file Z.succ db w [CPut (bytes_of "a") (bytes_of "1")].

Definition twice_clients : list (bytes * os_File) :=
  [(encode (del_cmd (bytes_of "a")), mkFile [] 0); (encode (del_cmd (bytes_of "a")), mkFile [] 0)].

Definition twice_check : bool :=
  match db_Open demo_cache demo_conf (mkFile [] 0) (mkWorld ∅ 0) with
  | (w, Ok db) =>
      run_few demo_bloom new_file Z.succ db w [CPut (bytes_of "a") (bytes_of "1")]
      && server_few demo_errText demo_upper demo_bloom new_file Z.succ demo_abs
           (connected (twice_db db w).1 (twice_db db w).2 twice_clients) del_schedule
  | _ => false
  end.

Lemma concurrent_del_counts_twice_witness :
  exists w db, db_Open demo_cache demo_conf (mkFile [] 0) (mkWorld ∅ 0) = (w, Ok db)
    /\ exists t1 t2,
      sv_threads (server_run demo_errText demo_upper demo_bloom new_file Z.succ
        (connected (twice_db db w).1 (twice_db db w).2 twice_clients) del_schedule) = [t1; t2]
      /\ on_file (bw_wr (t_writer t1)) = bytes_of ":1" ++ crlf
      /\ on_file (bw_wr (t_writer t2)) = bytes_of ":1" ++ crlf.
Proof.
  destruct (sim_fresh demo_cache demo_conf ∅ 0 demo_fresh) as (db & Ho & Hsim); [apply new_cache_true; lia|].
  assert (Hd : twice_check = true) by (vm_compute; reflexivity).
  unfold twice_check in Hd. rewrite Ho in Hd. apply andb_prop in Hd as [Hfew Hsafe].
  eexists _, db. split; [exact Ho|].
  apply (concurrent_del_counts_twice (WL := os_File_WriterLaws) (VL := os_File_WriterLaws)
    demo_errText demo_upper demo_bloom new_file Z.succ demo_bloom_ok (fun _ => eq_refl) (fun t => Z.lt_succ_diag_r t)
    demo_abs _ _ (bytes_of "a") (mkFile [] 0) (mkFile [] 0)).
  - change demo_abs with (abs_after (mkAbs [] ∅) [CPut (bytes_of "a") (bytes_of "1")]). apply sim_after.
    + exact demo_bloom_ok.
    + reflexivity.
    + exact (fun t => Z.lt_succ_diag_r t).
    + exact Hsim.
    + split; [reflexivity|exact I].
    + by apply run_few_in_order.
  - exists (bytes_of "1"). vm_compute. reflexivity.
  - vm_compute. congruence.
  - by apply server_few_safe.
Defined.
