(* ===== verification/Process.v ===== *)
(** * The process with its clients ([src/cmd/hcdb-server/main.go] over [src/server])

    [main] with a [Serve] that is the goroutines of its connections in some order of their
    steps ([ServerThreads]), from the start on an empty data directory to the end of the
    process and the next start.

    The theorem: when [Serve] has returned [nil], every client has been sent the replies that
    follow from its calls, the process ends without an error, and the next start finds every
    write of every client, in the order in which the calls were made. *)

From stdpp Require Import gmultiset.
From S2P Require Import Prelude Config Base Mvcc Memtable Bloom Cache Bufio Wal Block Fs Sstable.
From S2P Require Import SstReader Store Compaction Db Heap Scan DbRefine DbRuns DbRecover HcdbServer.
From S2P Require Import Resp Server ServerThreads.

Section process.
Variables (errText : goerror -> bytes) (unicode_ToUpper : bytes -> bytes).
Context `{BT : BTree kv Item_Less} {BL : BTreeLaws kv Item_Less}.
Context {C : Type} `{CL : CacherLaws (list kv) C}.
Context {W : Type} `{WL : WriterLaws W} {HR : Reliable W}.
Context (bloom0 : BloomFilter) (newFile : bytes -> W) (tick : Z -> Z) (newCache : C).
Context {V : Type} `{VL : WriterLaws V} {VR : Reliable V}.
Implicit Types (db : DB C) (w : World).

(** [Serve] with these clients and this order of the steps of their goroutines; [r] is what
    it returns unless a goroutine panics. *)
Definition Serve (clients : list (bytes * V)) (schedule : list nat) (r : option goerror) db w :
    DB C * World * result unit :=
  let sv := server_run errText unicode_ToUpper bloom0 newFile tick (connected db w clients) schedule in
  (sv_db sv, sv_world sv,
   if sv_panicked sv then Panic else match r with None => Ok tt | Some e => Err e end).

(** ** No step changes the configuration *)

Lemma thread_step_conf db w (t : thread) :
  db_conf (thread_step errText unicode_ToUpper bloom0 newFile tick db w t).1.1 = db_conf db.
Proof.
  destruct t as [r bw|[v| |c k] r bw|m elems k r bw|r bw]; try done; cbn [thread_step].
  - pose proof (db_step_conf bloom0 newFile tick db w c) as Hc.
    destruct c; try (by destruct (db_step _ _ _ db w _) as [[db' w'] rep]).
    by destruct (ScanAt _ _ _ _ _ _) as [it c'].
  - by destruct (merge_Next _ _ _) as [next c'].
Qed.

Lemma server_run_conf schedule : forall sv : server_state,
  db_conf (sv_db (server_run errText unicode_ToUpper bloom0 newFile tick sv schedule)) = db_conf (sv_db sv).
Proof.
  induction schedule as [|i schedule IH]; intros sv; [done|]. cbn [server_run foldl].
  fold (server_run errText unicode_ToUpper bloom0 newFile tick (goroutine_step errText unicode_ToUpper bloom0 newFile tick sv i) schedule).
  rewrite IH. unfold goroutine_step. destruct (sv_panicked sv); [done|].
  destruct (sv_threads sv !! i) as [t|]; [|done]. pose proof (thread_step_conf (sv_db sv) (sv_world sv) t) as Hc.
  by destruct (thread_step _ _ _ _ _ _ _ _) as [[db' w'] [t'|]].
Qed.

Context (bloom0_ok : bloom_ok bloom0) (newFile_empty : forall p, on_file (newFile p) = [])
  (tick_later : forall t, t < tick t) (newCache_empty : forall truth, cache_true truth newCache).

(** C5: the life of the server. Start the program on an empty data directory, let any number of
    clients send any bytes and their goroutines run in any order, none of them panicking, and
    let [Serve] return [nil]. Assumed along the schedule ([server_safe]): a compaction merges
    neighbouring tables only and removes no table under an open scan, and there are fewer than
    2^56 writes; and at its end, the file names order the tables newest first
    ([reopen_in_order]; without it an overwritten value can come back, see
    [restart_returns_overwritten_value]) and no table has 2^30 records. Then every client has
    been sent the replies of its first commands, each computed from its own calls; the process
    ends without an error; and the next start finds all writes of all clients: every further
    call is answered from the one history of the calls in the order in which they were made, as
    long as the compactions merge neighbours. *)
Theorem served_writes_survive_restart (env : bytes -> bytes) (fs : FS) (now : Z)
    (clients : list (bytes * V)) (schedule : list nat) :
  fresh_dir fs (SSTDir (main_config env)) ->
  exists w db, db_Open newCache (main_config env) (mkFile [] 0) (mkWorld fs now) = (w, Ok db)
    /\ let sv0 := connected db w clients in
       let sv := server_run errText unicode_ToUpper bloom0 newFile tick sv0 schedule in
       let L := server_log errText unicode_ToUpper bloom0 newFile tick (mkAbs [] ∅) sv0 schedule in
       let a2 := mkAbs (a_log (abs_after (mkAbs [] ∅) L.*2.*1)) ∅ in
       server_safe errText unicode_ToUpper bloom0 newFile tick (mkAbs [] ∅) sv0 schedule ->
       sv_panicked sv = false ->
       tables_small (w_fs (sv_world sv)) (db_tables (sv_db sv)) ->
       reopen_in_order (w_fs (sv_world sv)) (SSTDir (main_config env)) ->
       (forall i t, sv_threads sv !! i = Some t ->
          exists input conn, clients !! i = Some (input, conn)
            /\ conn_answered errText unicode_ToUpper input conn (of_conn i L) t)
       /\ exists f2 db2,
            main_with newCache env (mkFiles (mkWorld fs now) (mkFile [] 0)) (Serve clients schedule None)
              = Stopped None f2
            /\ db_Open newCache (main_config env) (f_log f2) (f_world f2) = (f_world f2, Ok db2)
            /\ forall cs, calls_ok a2 cs -> run_in_order bloom0 newFile tick db2 (f_world f2) cs ->
                 db_run bloom0 newFile tick db2 (f_world f2) cs = abs_run a2 cs.
Proof.
  intros Hf. destruct (sim_fresh newCache (main_config env) fs now Hf (newCache_empty ∅)) as (db & Ho & Hsim).
  eexists _, db. split; [exact Ho|]. intros sv0 sv L a2 Hsafe Hpan Hsm Hro.
  destruct (serving_run errText unicode_ToUpper bloom0 newFile tick bloom0_ok newFile_empty tick_later
    clients schedule (mkAbs [] ∅) sv0 [] (serving_start errText unicode_ToUpper clients _ db _ Hsim) Hsafe)
    as (Hsim1 & Hconns & _).
  pose proof (server_run_clean errText unicode_ToUpper bloom0 newFile tick bloom0_ok newFile_empty tick_later
    clients schedule (mkAbs [] ∅) sv0 [] (serving_start errText unicode_ToUpper clients _ db _ Hsim) Hsafe
    (clean_fresh newCache (main_config env) fs now _ db Hf Ho)) as Hclean. split.
  { intros i t Ht. destruct (Hconns i t Ht) as (input & conn & Hcl & Hv).
    exists input, conn. split; [done|]. by eapply view_answered. }
  assert (Hconf : db_conf (sv_db sv) = main_config env).
  { unfold sv. rewrite server_run_conf. rewrite Open_fresh in Ho by done. by injection Ho as <-. }
  fold sv in Hsim1. rewrite <- Hconf in Hro.
  destruct (restart_after_Close newCache _ _ _ Hsim1 Hclean Hsm Hro newCache_empty) as (db1' & db2 & Hcl & Ho2 & Hsim2).
  exists (mkFiles (sv_world sv) (bw_wr (BufWriter (db_wal db1')))), db2. split; [|split].
  - unfold main_with. cbn [f_log f_world]. rewrite Ho. unfold Serve. fold sv0 sv. by rewrite Hpan, Hcl.
  - cbn [f_log f_world]. by rewrite <- Hconf.
  - intros cs Hok Hord. by apply sim_run.
Qed.
End process.

(** ** Two clients, a stop and a restart *)

Definition life_log : list write := [(bytes_of "b", Some (bytes_of "2")); (bytes_of "a", Some (bytes_of "1"))].

(** The state when [Serve] returns: no goroutine has panicked and no table was written. *)
Definition life_ok (sv : server_state (C := ShardedLRU (list kv)) (V := os_File)) (cs : list call) : bool :=
  negb (sv_panicked sv)
  && match db_tables (sv_db sv) with [] => true | _ => false end
  && match OpenAllInDir (w_fs (sv_world sv)) (SSTDir (main_config demo_env)) with Ok [] => true | _ => false end
  && bool_decide (a_log (abs_after (mkAbs [] ∅) cs) = life_log).

Lemma life_ok_spec sv cs :
  life_ok sv cs = true ->
  sv_panicked sv = false /\ tables_small (w_fs (sv_world sv)) (db_tables (sv_db sv))
  /\ reopen_in_order (w_fs (sv_world sv)) (SSTDir (main_config demo_env))
  /\ a_log (abs_after (mkAbs [] ∅) cs) = life_log.
Proof.
  unfold life_ok. intros [[[Hp%negb_true_iff Ht]%andb_prop Hd]%andb_prop Hl%bool_decide_eq_true]%andb_prop.
  split; [done|]. split; [by destruct (db_tables _); [constructor|]|]. split; [|done].
  intros ts Hts. rewrite Hts in Hd. destruct ts; [constructor|done].
Qed.

Definition life_check : bool :=
  match db_Open demo_cache (main_config demo_env) (mkFile [] 0) (mkWorld ∅ 0) with
  | (w, Ok db) =>
      server_few demo_errText demo_upper demo_bloom new_file Z.succ (mkAbs [] ∅)
        (connected db w pair_clients) pair_schedule
      && life_ok (server_run demo_errText demo_upper demo_bloom new_file Z.succ (connected db w pair_clients) pair_schedule)
           (server_log demo_errText demo_upper demo_bloom new_file Z.succ (mkAbs [] ∅)
              (connected db w pair_clients) pair_schedule).*2.*1
  | _ => false
  end.

Lemma served_writes_survive_restart_witness :
  exists f2 db2,
    main_with demo_cache demo_env (mkFiles (mkWorld ∅ 0) (mkFile [] 0))
      (Serve demo_errText demo_upper demo_bloom new_file Z.succ pair_clients pair_schedule None)
      = Stopped None f2
    /\ db_Open demo_cache (main_config demo_env) (f_log f2) (f_world f2) = (f_world f2, Ok db2)
    /\ db_run demo_bloom new_file Z.succ db2 (f_world f2) (CGet <$> [bytes_of "a"; bytes_of "b"])
       = [RValue (Ok (Some (bytes_of "1"))); RValue (Ok (Some (bytes_of "2")))].
Proof.
  destruct (served_writes_survive_restart (C := ShardedLRU (list kv)) (WL := os_File_WriterLaws) (VL := os_File_WriterLaws)
    demo_errText demo_upper demo_bloom new_file Z.succ demo_cache demo_bloom_ok (fun _ => eq_refl)
    (fun t => Z.lt_succ_diag_r t) demo_cache_empty demo_env ∅ 0 pair_clients pair_schedule demo_env_fresh)
    as (w & db & Ho & Hrun).
  assert (Hd : life_check = true) by (vm_compute; reflexivity).
  unfold life_check in Hd. rewrite Ho in Hd. apply andb_prop in Hd as [Hfew Hd].
  destruct (life_ok_spec _ _ Hd) as (Hpan & Hsm & Hro & Hlog). apply server_few_safe in Hfew.
  destruct (Hrun Hfew Hpan Hsm Hro) as (_ & f2 & db2 & Hmain & Ho2 & Hcalls).
  exists f2, db2. split; [exact Hmain|]. split; [exact Ho2|]. cbv zeta in Hcalls. rewrite Hlog in Hcalls.
  rewrite Hcalls; [vm_compute; reflexivity| |apply gets_in_order]. by repeat split.
Defined.
