(* ===== verification/ServerConns.v ===== *)
(** * Connections and shutdown ([src/server/server.go])

    The goroutines of a running server as an interleaving of their steps: the accept loop of
    [Serve], the goroutine that waits for the cancellation and closes the listener and the
    connections, and one goroutine per connection. What a connection's goroutine does with a
    command is in [Server]; here only its waiting and its exits matter.

    A critical section of [connsMu] is one step, except the loop of [closeAllConns], which
    holds the lock from its first to its last [Close]. The clients, the operating system and
    the cancellation are the environment.

    The theorems: the bookkeeping of [conns] and of the wait group is exact in every
    reachable state, so [Serve] returns [nil] only when every goroutine it started has left
    and every connection it accepted is closed; a shutdown that closed every connection ends
    whatever the clients do; a connection that is added after [closeAllConns] has run is not
    closed by anyone, and [Serve] waits for its client. *)

From S2P Require Import Prelude.

(** ** The state *)

Abbreviation conn := nat.

(** Where [Serve] is. *)
Inductive serve_pc :=
| SListen                              (* before [net.Listen] *)
| SAccept                              (* in [ln.Accept] *)
| SAddConn (c : conn)                  (* before [s.addConn(conn)] *)
| SWgAdd (c : conn)                    (* before [s.wg.Add(1)] *)
| SGo (c : conn)                       (* before [go func] *)
| SWait                                (* in [s.wg.Wait] *)
| SReturned (r : option goerror).

(** Where the goroutine that waits for [ctx.Done()] is. *)
Inductive closer_pc :=
| KNone                                (* not started *)
| KWait                                (* in [<-ctx.Done()] *)
| KCloseListener                       (* before [ln.Close()] *)
| KCloseAll                            (* before [s.closeAllConns()] *)
| KLoop (todo : gset conn)             (* in its loop, holding [connsMu] *)
| KExit.

(** Where the goroutine of a connection is. *)
Inductive handler_pc :=
| HRead                                (* in [resp.Read] *)
| HReply                               (* a command was read, its reply is not yet written *)
| HClose                               (* before the deferred [conn.Close()] *)
| HRemove                              (* before the deferred [s.removeConn(conn)] *)
| HDone                                (* before the deferred [s.wg.Done()] *)
| HExit.

#[global] Instance handler_pc_eq_dec : EqDecision handler_pc.
Proof. solve_decision. Defined.

Record server := mkServer {
  s_serve : serve_pc;
  s_closer : closer_pc;
  s_handlers : gmap conn handler_pc;
  s_conns : gset conn;                 (* [s.conns] *)
  s_wg : Z;                            (* the counter of [s.wg] *)
  s_listener : option bool;            (* [s.listener]: not stored, open or closed *)
  s_cancelled : bool;                  (* the state of [ctx] *)
  s_closed : gset conn;                (* connections this side has closed *)
  s_gone : gset conn;                  (* connections the client has closed *)
  s_input : conn -> nat                (* complete commands that can still be read *)
}.

Definition set_serve (p : serve_pc) (s : server) : server :=
  mkServer p (s_closer s) (s_handlers s) (s_conns s) (s_wg s) (s_listener s) (s_cancelled s)
    (s_closed s) (s_gone s) (s_input s).
Definition set_closer (k : closer_pc) (s : server) : server :=
  mkServer (s_serve s) k (s_handlers s) (s_conns s) (s_wg s) (s_listener s) (s_cancelled s)
    (s_closed s) (s_gone s) (s_input s).
Definition set_handler (c : conn) (h : handler_pc) (s : server) : server :=
  mkServer (s_serve s) (s_closer s) (<[c := h]> (s_handlers s)) (s_conns s) (s_wg s)
    (s_listener s) (s_cancelled s) (s_closed s) (s_gone s) (s_input s).
Definition set_conns (x : gset conn) (s : server) : server :=
  mkServer (s_serve s) (s_closer s) (s_handlers s) x (s_wg s) (s_listener s) (s_cancelled s)
    (s_closed s) (s_gone s) (s_input s).
Definition set_wg (n : Z) (s : server) : server :=
  mkServer (s_serve s) (s_closer s) (s_handlers s) (s_conns s) n (s_listener s) (s_cancelled s)
    (s_closed s) (s_gone s) (s_input s).
Definition set_listener (l : option bool) (s : server) : server :=
  mkServer (s_serve s) (s_closer s) (s_handlers s) (s_conns s) (s_wg s) l (s_cancelled s)
    (s_closed s) (s_gone s) (s_input s).
Definition conn_Close (c : conn) (s : server) : server :=
  mkServer (s_serve s) (s_closer s) (s_handlers s) (s_conns s) (s_wg s) (s_listener s)
    (s_cancelled s) ({[c]} ∪ s_closed s) (s_gone s) (s_input s).
Definition set_input (c : conn) (n : nat) (s : server) : server :=
  mkServer (s_serve s) (s_closer s) (s_handlers s) (s_conns s) (s_wg s) (s_listener s)
    (s_cancelled s) (s_closed s) (s_gone s) (fun d => if decide (d = c) then n else s_input s d).
Definition set_gone (c : conn) (s : server) : server :=
  mkServer (s_serve s) (s_closer s) (s_handlers s) (s_conns s) (s_wg s) (s_listener s)
    (s_cancelled s) (s_closed s) ({[c]} ∪ s_gone s) (s_input s).
Definition set_cancelled (s : server) : server :=
  mkServer (s_serve s) (s_closer s) (s_handlers s) (s_conns s) (s_wg s) (s_listener s) true
    (s_closed s) (s_gone s) (s_input s).

(** [New], and a call of [Serve] that has not listened yet. *)
Definition New : server :=
  mkServer SListen KNone ∅ ∅ 0 None false ∅ ∅ (fun _ => O).

(** ** The operations on [conns] *)

(** [connsMu] is free: nobody is inside the loop of [closeAllConns]. *)
Definition mu_free (s : server) : Prop := match s_closer s with KLoop _ => False | _ => True end.

Definition addConn (c : conn) (s : server) : server := set_conns ({[c]} ∪ s_conns s) s.
Definition removeConn (c : conn) (s : server) : server := set_conns (s_conns s ∖ {[c]}) s.

(** [closeAllConns]: locking, one turn of its loop, and unlocking. *)
Inductive closeAllConns : server -> server -> Prop :=
| close_lock s :
    s_closer s = KCloseAll -> closeAllConns s (set_closer (KLoop (s_conns s)) s)
| close_one s todo c :
    s_closer s = KLoop todo -> c ∈ todo ->
    closeAllConns s (set_closer (KLoop (todo ∖ {[c]})) (conn_Close c s))
| close_unlock s :
    s_closer s = KLoop ∅ -> closeAllConns s (set_closer KExit s).

(** [Addr]: the listener's address, once there is one. *)
Definition Addr {A} (addr : A) (s : server) : option A :=
  match s_listener s with None => None | Some _ => Some addr end.

(** ** The steps of the server *)

(** A connection that was never accepted before. *)
Definition unused (c : conn) (s : server) : Prop :=
  s_handlers s !! c = None /\ (c ∉ s_conns s) /\ (c ∉ s_closed s).

Inductive serve_step : server -> server -> Prop :=
| serve_listen_err s e :
    s_serve s = SListen -> serve_step s (set_serve (SReturned (Some e)) s)
| serve_listen s :
    s_serve s = SListen ->
    serve_step s (set_serve SAccept (set_closer KWait (set_listener (Some true) s)))
| serve_accept s c :
    s_serve s = SAccept -> s_listener s = Some true -> unused c s ->
    serve_step s (set_serve (SAddConn c) s)
| serve_accept_err s e :
    s_serve s = SAccept -> s_listener s = Some true ->
    serve_step s (set_serve (SReturned (Some e)) s)
| serve_closed s :
    s_serve s = SAccept -> s_listener s = Some false -> serve_step s (set_serve SWait s)
| serve_addConn s c :
    s_serve s = SAddConn c -> mu_free s -> serve_step s (set_serve (SWgAdd c) (addConn c s))
| serve_wg_Add s c :
    s_serve s = SWgAdd c -> serve_step s (set_serve (SGo c) (set_wg (s_wg s + 1) s))
| serve_go s c :
    s_serve s = SGo c -> serve_step s (set_serve SAccept (set_handler c HRead s))
| serve_wg_Wait s :
    s_serve s = SWait -> s_wg s = 0 -> serve_step s (set_serve (SReturned None) s).

Inductive closer_step : server -> server -> Prop :=
| closer_done s :
    s_closer s = KWait -> s_cancelled s = true -> closer_step s (set_closer KCloseListener s)
| closer_listener s :
    s_closer s = KCloseListener ->
    closer_step s (set_closer KCloseAll (set_listener (Some false) s))
| closer_conns s s' : closeAllConns s s' -> closer_step s s'.

(** A read fails when either side has closed the connection; so does the flush of a reply. *)
Definition dead (c : conn) (s : server) : Prop := c ∈ s_closed s \/ c ∈ s_gone s.

Inductive handleConn_step (c : conn) : server -> server -> Prop :=
| handle_read s n :
    s_handlers s !! c = Some HRead -> s_input s c = Datatypes.S n ->
    handleConn_step c s (set_handler c HReply (set_input c n s))
| handle_read_err s :
    s_handlers s !! c = Some HRead -> dead c s -> handleConn_step c s (set_handler c HClose s)
| handle_reply s :
    s_handlers s !! c = Some HReply -> c ∉ s_closed s ->
    handleConn_step c s (set_handler c HRead s)
| handle_reply_err s :
    s_handlers s !! c = Some HReply -> dead c s -> handleConn_step c s (set_handler c HClose s)
| handle_Close s :
    s_handlers s !! c = Some HClose ->
    handleConn_step c s (set_handler c HRemove (conn_Close c s))
| handle_removeConn s :
    s_handlers s !! c = Some HRemove -> mu_free s ->
    handleConn_step c s (set_handler c HDone (removeConn c s))
| handle_wg_Done s :
    s_handlers s !! c = Some HDone ->
    handleConn_step c s (set_handler c HExit (set_wg (s_wg s - 1) s)).

Inductive server_step (s s' : server) : Prop :=
| step_serve : serve_step s s' -> server_step s s'
| step_closer : closer_step s s' -> server_step s s'
| step_handler c : handleConn_step c s s' -> server_step s s'.

(** The environment: the cancellation, and the clients. Nothing arrives on a connection that
    has been closed; a client that sends malformed input counts as gone. *)
Inductive env_step : server -> server -> Prop :=
| env_cancel s : env_step s (set_cancelled s)
| env_send s c :
    c ∉ s_closed s -> c ∉ s_gone s -> env_step s (set_input c (Datatypes.S (s_input s c)) s)
| env_gone s c : env_step s (set_gone c s).

Inductive step (s s' : server) : Prop :=
| by_server : server_step s s' -> step s s'
| by_env : env_step s s' -> step s s'.

Inductive reachable : server -> Prop :=
| reach_new : reachable New
| reach_step s s' : reachable s -> step s s' -> reachable s'.

(** ** Sums over the handlers *)

Definition total (f : handler_pc -> nat) (m : gmap conn handler_pc) : nat :=
  map_fold (fun _ h n => (f h + n)%nat) O m.

Lemma total_insert f m c h : m !! c = None -> total f (<[c := h]> m) = (f h + total f m)%nat.
Proof.
  intros Hc. unfold total.
  rewrite (map_fold_insert_L (fun (_ : conn) h n => (f h + n)%nat)); [done|intros; lia|done].
Qed.

Lemma total_update f m c h h' :
  m !! c = Some h -> (total f (<[c := h']> m) + f h = total f m + f h')%nat.
Proof.
  intros Hc. rewrite <- (insert_id m c h Hc) at 2. rewrite <- (insert_delete_eq m c h').
  rewrite <- (insert_delete_eq m c h). rewrite !total_insert by apply lookup_delete_eq. lia.
Qed.

Lemma total_0 f m : total f m = O -> forall c h, m !! c = Some h -> f h = O.
Proof.
  intros Ht c h Hc. rewrite <- (insert_id m c h Hc), <- (insert_delete_eq m c h) in Ht.
  rewrite total_insert in Ht by apply lookup_delete_eq. lia.
Qed.

Lemma total_pos f m : total f m <> O -> exists c h, m !! c = Some h /\ f h <> O.
Proof.
  induction m as [|c h m Hc IH] using map_ind; [done|]. rewrite total_insert by done. intros Ht.
  destruct (decide (f h = O)) as [Hz|Hz].
  - destruct IH as (d & k & Hd & Hk); [lia|]. exists d, k. split; [|done].
    rewrite lookup_insert_ne; [done|]. intros <-. congruence.
  - exists c, h. by rewrite lookup_insert_eq.
Qed.

(** A goroutine that has not called [wg.Done] yet. *)
Definition running (h : handler_pc) : nat := match h with HExit => O | _ => 1%nat end.

(** ** The invariant *)

(** A goroutine whose connection is in [conns]. *)
Definition registered (h : handler_pc) : bool :=
  match h with HRead | HReply | HClose | HRemove => true | _ => false end.

(** A goroutine that has closed its connection. *)
Definition past_Close (h : handler_pc) : bool :=
  match h with HRemove | HDone | HExit => true | _ => false end.

(** The connection [Serve] has accepted and not yet handed to a goroutine. *)
Definition pending (p : serve_pc) : option conn :=
  match p with SAddConn c | SWgAdd c | SGo c => Some c | _ => None end.

Definition pending_added (p : serve_pc) : option conn :=
  match p with SWgAdd c | SGo c => Some c | _ => None end.

Definition pending_counted (p : serve_pc) : Z := match p with SGo _ => 1 | _ => 0 end.

(** What [Serve], the listener and the closing goroutine know of one another. *)
Definition phases_ok (s : server) : Prop :=
  match s_closer s with
  | KNone => s_listener s = None
  | KWait => s_listener s = Some true
  | KCloseListener => s_listener s = Some true /\ s_cancelled s = true
  | _ => s_listener s = Some false /\ s_cancelled s = true
  end
  /\ match s_serve s with
     | SListen => s_closer s = KNone
     | SWait => s_listener s = Some false
     | SReturned None => s_listener s = Some false /\ s_wg s = 0
     | SReturned (Some _) => True
     | _ => s_closer s <> KNone
     end.

Record inv (s : server) : Prop := {
  inv_conns c : c ∈ s_conns s <->
    (exists h, s_handlers s !! c = Some h /\ registered h = true) \/ pending_added (s_serve s) = Some c;
  inv_wg : s_wg s = Z.of_nat (total running (s_handlers s)) + pending_counted (s_serve s);
  inv_closed c h : s_handlers s !! c = Some h -> past_Close h = true -> c ∈ s_closed s;
  inv_pending c : pending (s_serve s) = Some c -> s_handlers s !! c = None;
  inv_todo todo : s_closer s = KLoop todo -> todo ⊆ s_conns s;
  inv_phases : phases_ok s
}.

Lemma registered_insert (m : gmap conn handler_pc) c h d :
  (exists k, <[c := h]> m !! d = Some k /\ registered k = true) <->
  (d = c /\ registered h = true) \/ (d <> c /\ exists k, m !! d = Some k /\ registered k = true).
Proof.
  rewrite lookup_insert. split.
  - intros (k & Hk & Hr). case_decide as Hd; [left|right]; [|eauto]. by injection Hk as ->.
  - intros [[-> Hr]|[Hne Hk]]; [rewrite decide_True by done; eauto|].
    rewrite decide_False by congruence. done.
Qed.

Lemma inv_New : inv New.
Proof.
  split; simpl; try done. intros c. split; [by intros ?%elem_of_empty|].
  intros [(h & Hh & _)|?]; [by rewrite lookup_empty in Hh|done].
Qed.

(** The parts of the invariant that a step keeps because it does not touch them. *)
Ltac inv_frame Hi :=
  let Hc := fresh "Hconns" in let Hw := fresh "Hwg" in let Hcl := fresh "Hclosed" in
  let Hp := fresh "Hpending" in let Ht := fresh "Htodo" in let Hph := fresh "Hphases" in
  destruct Hi as [Hc Hw Hcl Hp Ht Hph]; unfold phases_ok in Hph;
  try match goal with E : s_serve _ = _ |- _ => rewrite ?E in Hc, Hw, Hp, Hph end;
  try match goal with E : s_closer _ = _ |- _ => rewrite ?E in Hph end;
  split; cbn [s_serve s_closer s_handlers s_conns s_wg s_listener s_cancelled s_closed s_gone
    s_input set_serve set_closer set_handler set_conns set_wg set_listener conn_Close set_input
    set_gone set_cancelled addConn removeConn pending pending_added pending_counted] in *;
  try done; try congruence; try lia; try (unfold phases_ok; cbn; tauto).

(** The phases, place by place. *)
Ltac phases :=
  unfold phases_ok; cbn;
  match goal with |- context [match s_serve ?s with _ => _ end] =>
    destruct (s_serve s) as [| | | | | |[?|]] end; intuition congruence.

Lemma inv_serve s s' : inv s -> serve_step s s' -> inv s'.
Proof.
  intros Hi Hs.
  inversion Hs as [s0 e Hp|s0 Hp|s0 c Hp Hl Hu|s0 e Hp Hl|s0 Hp Hl|s0 c Hp Hm|s0 c Hp|s0 c Hp|s0 Hp Hz];
    subst s0 s'; clear Hs.
  all: inv_frame Hi.
  - intros c0 [= <-]. apply Hu.
  - intros c0. rewrite elem_of_union, elem_of_singleton, Hconns. split.
    + intros [->|[?|?]]; [by right|by left|done].
    + intros [?|[= ->]]; [by right; left|by left].
  - intros todo Ht. unfold mu_free in Hm. by rewrite Ht in Hm.
  - intros c0. rewrite registered_insert, Hconns. specialize (Hpending c eq_refl).
    destruct (decide (c0 = c)) as [->|Hne]; [|naive_solver]. split; [by left; left|]. intros _. by right.
  - rewrite total_insert by auto. simpl. lia.
  - intros c0 h. rewrite lookup_insert. case_decide; [by intros [= <-]|by apply Hclosed].
Qed.

Lemma inv_closer s s' : inv s -> closer_step s s' -> inv s'.
Proof.
  intros Hi Hs. inversion Hs as [s0 Hk Hc|s0 Hk|s0 s1 Hc]; subst; clear Hs;
    [| |inversion Hc as [s0 Hk|s0 todo c Hk Hin|s0 Hk]; subst; clear Hc].
  all: inv_frame Hi; try (phases).
  - intros c0 h Hh Hp. apply elem_of_union. right. eauto.
  - intros todo0 [= <-]. specialize (Htodo todo Hk). set_solver.
Qed.

(** What a goroutine may do between two of its places. *)
Record moves (c : conn) (h h' : handler_pc) (s s' : server) : Prop := {
  mv_at : s_handlers s !! c = Some h;
  mv_handlers : s_handlers s' = <[c := h']> (s_handlers s);
  mv_running : running h = 1%nat;
  mv_registered : registered h' = true -> registered h = true;
  mv_conns d : d ∈ s_conns s' <-> d ∈ s_conns s /\ (registered h' = true \/ d <> c);
  mv_wg : s_wg s' + Z.of_nat (running h) = s_wg s + Z.of_nat (running h');
  mv_closed : s_closed s ⊆ s_closed s';
  mv_past : past_Close h' = true -> c ∈ s_closed s';
  mv_todo todo : s_closer s = KLoop todo -> todo ⊆ s_conns s -> todo ⊆ s_conns s';
  mv_same : (s_serve s', s_closer s', s_listener s', s_cancelled s')
            = (s_serve s, s_closer s, s_listener s, s_cancelled s)
}.

Lemma inv_moves c h h' s s' : inv s -> moves c h h' s s' -> inv s'.
Proof.
  intros [Hconns Hwg Hclosed Hpending Htodo Hphases] [Hat Hh Hrun Hreg Hc Hw Hcl Hpast Htd Hsame].
  injection Hsame as Es Ek El Ex. pose proof (total_update running _ c h h' Hat) as Ht.
  assert (Hnot : pending (s_serve s) <> Some c) by (intros Hp; specialize (Hpending c Hp); congruence).
  split.
  - intros d. rewrite Hc, Hconns, Hh, registered_insert, Es. destruct (decide (d = c)) as [->|Hne].
    + assert (pending_added (s_serve s) <> Some c) by (destruct (s_serve s); naive_solver).
      split; [intros [_ [?|?]]; [by left; left|done]|].
      intros [[[_ ?]|[? _]]|?]; [|done..]. split; [left; exists h; auto|by left].
    + split; [intros [[?|?] _]; [left; right; by split|by right]|].
      intros [[[? _]|[_ ?]]|?]; [done|split; [by left|by right]|split; [by right|by right]].
  - rewrite Hh, Es. lia.
  - intros d k. rewrite Hh, lookup_insert. case_decide as Hd; [subst d; intros [= <-]; auto|].
    intros Hk Hp. apply Hcl. eauto.
  - intros d. rewrite Es, Hh. intros Hp. rewrite lookup_insert_ne by congruence. auto.
  - intros todo. rewrite Ek. intros Hk. apply (Htd todo Hk), Htodo, Hk.
  - unfold phases_ok in *. rewrite Es, Ek, El, Ex. destruct Hphases as [? Hp]. split; [done|].
    destruct (s_serve s) as [| | | | | |[e|]]; try done. destruct Hp as [? Hz]. split; [done|].
    simpl in Hwg. rewrite Hz in Hwg.
    assert (Hr0 : total running (s_handlers s) = O) by lia.
    pose proof (total_0 running _ Hr0 c h Hat). lia.
Qed.

Lemma handler_moves c s s' : inv s -> handleConn_step c s s' -> exists h h', moves c h h' s s'.
Proof.
  intros Hi Hs. inversion Hs as [s0 n Hh Hn|s0 Hh Hd|s0 Hh Hd|s0 Hh Hd|s0 Hh|s0 Hh Hm|s0 Hh];
    subst s0 s'; clear Hs; eexists _, _; (split; [exact Hh|reflexivity|..]); simpl; try done; try lia;
    try (intros d; tauto).
  - apply union_subseteq_r.
  - intros _. apply elem_of_union_l, elem_of_singleton. done.
  - intros d. rewrite elem_of_difference, elem_of_singleton. naive_solver.
  - intros _. by apply (inv_closed _ Hi c HRemove).
  - intros todo Hk. unfold mu_free in Hm. by rewrite Hk in Hm.
  - intros d. split; [|tauto]. intros Hd. split; [done|]. right. intros ->.
    apply (inv_conns _ Hi) in Hd as [(h & Hh' & Hr)|Hp]; [by rewrite Hh in Hh'; injection Hh' as <-|].
    rewrite (inv_pending _ Hi c) in Hh; [done|]. by destruct (s_serve s).
  - intros _. by apply (inv_closed _ Hi c HDone).
Qed.

Lemma inv_env s s' : inv s -> env_step s s' -> inv s'.
Proof.
  intros Hi Hs. inversion Hs; subst; inv_frame Hi.
  unfold phases_ok. cbn. destruct (s_closer s); intuition congruence.
Qed.

Lemma reachable_inv s : reachable s -> inv s.
Proof.
  induction 1 as [|s s' _ IH [[Hs|Hs|c Hs]|Hs]]; [apply inv_New|..].
  - by eapply inv_serve.
  - by eapply inv_closer.
  - destruct (handler_moves c s s' IH Hs) as (h & h' & Hm). by eapply inv_moves.
  - by eapply inv_env.
Qed.

(** ** Shutting down *)

(** [closeAllConns] has run, and every connection in use is closed. *)
Record settled (s : server) : Prop := {
  st_exit : s_closer s = KExit;
  st_added c : s_serve s <> SAddConn c;
  st_closed c : c ∈ s_conns s -> c ∈ s_closed s;
  st_serving e : s_serve s <> SReturned (Some e)
}.

(** Steps still to be made: by a goroutine whose connection is closed, and by [Serve]. *)
Definition rank (h : handler_pc) : nat :=
  match h with HRead => 5 | HReply => 4 | HClose => 3 | HRemove => 2 | HDone => 1 | HExit => 0 end.

Definition serve_rank (p : serve_pc) : nat :=
  match p with
  | SWgAdd _ => 9 | SGo _ => 8 | SAccept => 2 | SWait => 1 | _ => 0
  end.

Definition remaining (s : server) : nat := serve_rank (s_serve s) + total rank (s_handlers s).

(** A run: [n] steps of the server, with steps of the environment in between. *)
Inductive runs : nat -> server -> server -> Prop :=
| runs_nil s : runs O s s
| runs_server n s s1 s' : runs n s s1 -> server_step s1 s' -> runs (Datatypes.S n) s s'
| runs_env n s s1 s' : runs n s s1 -> env_step s1 s' -> runs n s s'.

Lemma settled_serve s s' :
  inv s -> settled s -> serve_step s s' -> settled s' /\ (remaining s' < remaining s)%nat.
Proof.
  intros Hi [Hk Hadd Hcl Hret] Hs. pose proof (inv_phases _ Hi) as Hph. unfold phases_ok in Hph.
  rewrite Hk in Hph. destruct Hph as [[Hl _] Hph].
  inversion Hs as [s0 e Hp|s0 Hp|s0 c Hp Hl' Hu|s0 e Hp Hl'|s0 Hp _|s0 c Hp Hm|s0 c Hp|s0 c Hp|s0 Hp Hz];
    subst s0 s'; clear Hs; rewrite Hp in Hph; try congruence.
  - split; [split; simpl; congruence || done|]. unfold remaining. rewrite Hp. simpl. lia.
  - split; [split; simpl; congruence || done|]. unfold remaining. rewrite Hp. simpl. lia.
  - split; [split; simpl; congruence || done|]. unfold remaining. rewrite Hp. simpl.
    rewrite total_insert by (apply (inv_pending _ Hi); by rewrite Hp). simpl. lia.
  - split; [split; simpl; congruence || done|]. unfold remaining. rewrite Hp. simpl. lia.
Qed.

Lemma settled_handler c s s' :
  inv s -> settled s -> handleConn_step c s s' -> settled s' /\ (remaining s' < remaining s)%nat.
Proof.
  intros Hi [Hk Hadd Hcl Hret] Hs. destruct (handler_moves c s s' Hi Hs) as (h & h' & Hm).
  pose proof (total_update rank _ c h h' (mv_at _ _ _ _ _ Hm)) as Ht.
  pose proof (mv_same _ _ _ _ _ Hm) as Hsame. injection Hsame as Es Ek _ _. split.
  - split; [congruence|intros; congruence| |intros; congruence].
    intros d [Hd _]%(mv_conns _ _ _ _ _ Hm). apply (mv_closed _ _ _ _ _ Hm). auto.
  - unfold remaining. rewrite Es, (mv_handlers _ _ _ _ _ Hm).
    assert (Hlt : (rank h' < rank h)%nat); [|lia]. destruct Hm as [Hat Hh' _ _ _ _ _ _ _ _].
    inversion Hs as [s0 n Hh Hn|s0 Hh Hd|s0 Hh Hd|s0 Hh Hd|s0 Hh|s0 Hh Hm|s0 Hh]; subst s0 s'; simpl in Hh';
      apply (f_equal (lookup c)) in Hh'; rewrite !lookup_insert_eq in Hh'; injection Hh' as <-;
      rewrite Hat in Hh; injection Hh as ->; simpl; try lia.
    destruct Hd. apply Hcl, (inv_conns _ Hi). left. by exists HReply.
Qed.

Lemma settled_step s s' :
  inv s -> settled s -> server_step s s' -> settled s' /\ (remaining s' < remaining s)%nat.
Proof.
  intros Hi Hst [Hs|Hs|c Hs]; [by apply settled_serve| |by eapply settled_handler].
  pose proof (st_exit _ Hst) as Hk.
  inversion Hs as [? Hk' _|? Hk'|? ? Hc]; [congruence..|]. inversion Hc; congruence.
Qed.

Lemma settled_env s s' :
  settled s -> env_step s s' -> settled s' /\ remaining s' = remaining s.
Proof. intros [? ? ? ?] Hs. inversion Hs; subst; split; by try split. Qed.

(** As long as [Serve] has not returned, some goroutine can go on. *)
Lemma settled_progress s :
  inv s -> settled s -> s_serve s <> SReturned None -> exists s', server_step s s'.
Proof.
  intros Hi [Hk Hadd Hcl Hret] Hnr. pose proof (inv_phases _ Hi) as Hph. unfold phases_ok in Hph.
  rewrite Hk in Hph. destruct Hph as [[Hl _] Hph].
  destruct (s_serve s) as [| |c|c|c| |[e|]] eqn:Hp; try done.
  - eexists. apply step_serve. by apply serve_closed.
  - by destruct (Hadd c).
  - eexists. apply step_serve. by apply serve_wg_Add.
  - eexists. apply step_serve. by apply serve_go.
  - destruct (decide (s_wg s = 0)) as [Hz|Hz]; [eexists; apply step_serve; by apply serve_wg_Wait|].
    pose proof (inv_wg _ Hi) as Hw. rewrite Hp in Hw. simpl in Hw.
    destruct (total_pos running (s_handlers s)) as (c & h & Hh & Hr); [lia|].
    assert (Hdead : registered h = true -> dead c s).
    { intros Hreg. left. apply Hcl, (inv_conns _ Hi). left. by exists h. }
    destruct h; [..|done]; eexists; apply (step_handler _ _ c).
    + by apply handle_read_err, Hdead.
    + by apply handle_reply_err, Hdead.
    + by apply handle_Close.
    + apply handle_removeConn; [done|]. unfold mu_free. by rewrite Hk.
    + by apply handle_wg_Done.
  - by destruct (Hret e).
Qed.

Lemma settled_runs n s s' :
  inv s -> settled s -> runs n s s' -> inv s' /\ settled s' /\ (n + remaining s' <= remaining s)%nat.
Proof.
  intros Hi Hst. induction 1 as [s|n s s1 s' _ IH Hs|n s s1 s' _ IH Hs]; [done|..];
    destruct (IH Hi Hst) as (Hi1 & Hst1 & Hle).
  - destruct (settled_step s1 s' Hi1 Hst1 Hs) as [Hst' Hlt]. split; [|split; [done|lia]].
    destruct Hs as [Hs|Hs|c Hs]; [by eapply inv_serve|by eapply inv_closer|].
    destruct (handler_moves c s1 s' Hi1 Hs) as (h & h' & Hm). by eapply inv_moves.
  - destruct (settled_env s1 s' Hst1 Hs) as [Hst' ->]. split; [by eapply inv_env|done].
Qed.

(** ** Properties *)

(** C19: the server's bookkeeping. In every reachable state [conns] holds exactly the
    connections that are being served or about to be, until their goroutine has removed
    them, the counter of the wait group is the number of goroutines that have not finished
    (plus the one about to be started), and a goroutine that leaves [handleConn] has closed
    its connection. In particular the counter never goes negative, which would panic. *)
Theorem connections_accounted_for (s : server) :
  reachable s ->
  (forall c, c ∈ s_conns s <->
     (exists h, s_handlers s !! c = Some h /\ registered h = true)
     \/ pending_added (s_serve s) = Some c)
  /\ s_wg s = Z.of_nat (total running (s_handlers s)) + pending_counted (s_serve s)
  /\ 0 <= s_wg s
  /\ (forall c h, s_handlers s !! c = Some h -> past_Close h = true -> c ∈ s_closed s).
Proof.
  intros Hi%reachable_inv. split; [apply Hi|]. split; [apply Hi|]. split; [|apply Hi].
  rewrite (inv_wg _ Hi). destruct (s_serve s); simpl; lia.
Qed.

(** C18: [Serve] returns [nil] only when everything has ended: the context was cancelled,
    the listener is closed, every goroutine it started has finished, every connection is
    closed and none is left in [conns]. *)
Theorem serve_returns_after_handlers (s : server) :
  reachable s -> s_serve s = SReturned None ->
  s_cancelled s = true /\ s_listener s = Some false /\ s_conns s = ∅ /\ s_wg s = 0
  /\ forall c h, s_handlers s !! c = Some h -> h = HExit /\ c ∈ s_closed s.
Proof.
  intros Hi%reachable_inv Hr. pose proof (inv_phases _ Hi) as [Hk Hs]. rewrite Hr in Hs.
  destruct Hs as [Hl Hz]. pose proof (inv_wg _ Hi) as Hw. rewrite Hr, Hz in Hw. simpl in Hw.
  assert (Hex : forall c h, s_handlers s !! c = Some h -> h = HExit).
  { intros c h Hh. pose proof (total_0 running (s_handlers s) ltac:(lia) c h Hh). by destruct h. }
  split; [|split; [done|split; [|split; [done|]]]].
  - rewrite Hl in Hk. destruct (s_closer s); intuition congruence.
  - apply set_eq. intros c. split; [|by intros ?%elem_of_empty]. intros Hc.
    apply (inv_conns _ Hi) in Hc as [(h & Hh & Hreg)|Hp]; [by rewrite (Hex c h Hh) in Hreg|by rewrite Hr in Hp].
  - intros c h Hh. pose proof (Hex c h Hh) as ->. split; [done|]. by eapply (inv_closed _ Hi).
Qed.

(** C17: a shutdown ends. When [closeAllConns] has run, every connection in use is closed and
    none is waiting to be added, then whatever the clients do, the server makes at most
    [remaining s] more steps, and it can make one as long as [Serve] has not returned [nil]:
    no goroutine is left waiting for a client. *)
Theorem shutdown_completes (s : server) (n : nat) (s' : server) :
  reachable s -> settled s -> runs n s s' ->
  (n <= remaining s)%nat /\ (s_serve s' = SReturned None \/ exists s'', server_step s' s'').
Proof.
  intros Hi%reachable_inv Hst Hrun. destruct (settled_runs n s s' Hi Hst Hrun) as (Hi' & Hst' & Hle).
  split; [lia|]. destruct (s_serve s') as [| | | | | |[e|]] eqn:E; try (by left);
    right; apply settled_progress; try done; congruence.
Qed.

(** *** Runs of one connection *)

(** After [listen] and [accept]: the connection 0 is about to be added. *)
Definition accepted : server :=
  set_serve (SAddConn 0) (set_serve SAccept (set_closer KWait (set_listener (Some true) New))).

Lemma accepted_reachable : reachable accepted.
Proof.
  eapply reach_step; [eapply reach_step; [apply reach_new|]|].
  - apply by_server, step_serve. by apply serve_listen.
  - apply by_server, step_serve. apply serve_accept; [done..|]. repeat split; by apply not_elem_of_empty.
Qed.

(** [addConn], [wg.Add] and [go] for the connection 0. *)
Lemma handed_over s :
  reachable s -> s_serve s = SAddConn 0 -> mu_free s ->
  reachable (set_serve SAccept (set_handler 0 HRead (set_serve (SGo 0) (set_wg (s_wg s + 1)
    (set_serve (SWgAdd 0) (addConn 0 s)))))).
Proof.
  intros Hr Hp Hm. eapply reach_step; [eapply reach_step; [eapply reach_step; [exact Hr|]|]|].
  - apply by_server, step_serve. by apply (serve_addConn s 0).
  - apply by_server, step_serve. by apply serve_wg_Add.
  - apply by_server, step_serve. by apply serve_go.
Qed.

(** The cancellation, up to the lock of [closeAllConns]. *)
Lemma closing s :
  reachable s -> s_closer s = KWait ->
  reachable (set_closer (KLoop (s_conns s)) (set_closer KCloseAll (set_listener (Some false)
    (set_closer KCloseListener (set_cancelled s))))).
Proof.
  intros Hr Hk. eapply reach_step; [eapply reach_step; [eapply reach_step; [eapply reach_step; [exact Hr|]|]|]|].
  - apply by_env, env_cancel.
  - apply by_server, step_closer. by apply closer_done.
  - apply by_server, step_closer. by apply closer_listener.
  - apply by_server, step_closer, closer_conns.
    by apply (close_lock (set_closer KCloseAll (set_listener (Some false)
      (set_closer KCloseListener (set_cancelled s))))).
Qed.

Definition one_conn : server :=
  set_serve SAccept (set_handler 0 HRead (set_serve (SGo 0) (set_wg 1
    (set_serve (SWgAdd 0) (addConn 0 accepted))))).

Lemma one_conn_reachable : reachable one_conn.
Proof. by apply (handed_over accepted); [apply accepted_reachable|..]. Qed.

(** A shutdown that closes the connection 0. *)
Definition one_closed : server :=
  set_closer KExit (set_closer (KLoop ∅) (conn_Close 0 (set_closer (KLoop {[0%nat]}) (set_closer KCloseAll
    (set_listener (Some false) (set_closer KCloseListener (set_cancelled one_conn))))))).

Lemma one_closed_reachable : reachable one_closed.
Proof.
  eapply reach_step; [eapply reach_step; [apply (closing one_conn); [apply one_conn_reachable|done]|]|].
  - apply by_server, step_closer, closer_conns, (close_one _ {[0%nat]} 0%nat); [done|].
    by apply elem_of_singleton.
  - apply by_server, step_closer, closer_conns.
    rewrite difference_diag_L.
    by apply (close_unlock (set_closer (KLoop ∅) _)).
Qed.

Lemma connections_accounted_for_witness : s_wg one_conn = 1 /\ 0%nat ∈ s_conns one_conn.
Proof.
  destruct (connections_accounted_for one_conn one_conn_reachable) as (Hc & Hw & _). split.
  - rewrite Hw. vm_compute. reflexivity.
  - apply Hc. left. exists HRead. vm_compute. done.
Defined.

Lemma one_closed_settled : settled one_closed.
Proof. by split. Qed.

Lemma shutdown_completes_witness :
  (0 <= 7)%nat /\ (s_serve one_closed = SReturned None \/ exists s'', server_step one_closed s'').
Proof.
  apply (shutdown_completes one_closed 0 one_closed one_closed_reachable one_closed_settled).
  apply runs_nil.
Defined.

(** The shutdown of a server without connections. *)
Definition none_left : server :=
  set_serve (SReturned None) (set_serve SWait (set_closer KExit (set_closer (KLoop ∅) (set_closer KCloseAll
    (set_listener (Some false) (set_closer KCloseListener (set_cancelled
      (set_serve SAccept (set_closer KWait (set_listener (Some true) New)))))))))).

Lemma none_left_reachable : reachable none_left.
Proof.
  eapply reach_step; [eapply reach_step; [eapply reach_step;
    [apply (closing (set_serve SAccept (set_closer KWait (set_listener (Some true) New))))|]|]|].
  - eapply reach_step; [apply reach_new|]. apply by_server, step_serve. by apply serve_listen.
  - done.
  - apply by_server, step_closer, closer_conns. by apply (close_unlock (set_closer (KLoop ∅) _)).
  - apply by_server, step_serve. by apply (serve_closed (set_closer KExit _)).
  - apply by_server, step_serve. by apply (serve_wg_Wait (set_serve SWait _)).
Qed.

Lemma serve_returns_after_handlers_witness : s_listener none_left = Some false /\ s_conns none_left = ∅.
Proof.
  destruct (serve_returns_after_handlers none_left none_left_reachable eq_refl) as (_ & Hl & Hc & _).
  done.
Defined.

(** C33: a late connection keeps [Serve] from returning. There is a reachable state after the
    cancellation in which the listener is closed, [closeAllConns] has run, [Serve] waits for
    the goroutines, and the only one left waits for a command on a connection that nobody
    has closed: no goroutine of the server can make a step, so [Serve] does not return
    unless that client sends something or goes away. *)
Theorem late_connection_hangs :
  exists s c, reachable s /\ s_cancelled s = true /\ s_listener s = Some false
    /\ s_closer s = KExit /\ s_serve s = SWait
    /\ s_handlers s !! c = Some HRead /\ (c ∉ s_closed s)
    /\ forall s', ~ server_step s s'.
Proof.
  pose proof (closing accepted accepted_reachable eq_refl) as H1.
  assert (H2 : exists s, reachable s /\ s = set_closer KExit (set_closer (KLoop ∅)
    (set_closer KCloseAll (set_listener (Some false) (set_closer KCloseListener (set_cancelled accepted)))))).
  { eexists. split; [|done]. eapply reach_step; [exact H1|].
    apply by_server, step_closer, closer_conns. by apply (close_unlock (set_closer (KLoop ∅) _)). }
  destruct H2 as (s & H2 & ->). apply handed_over in H2; [|done..].
  eexists _, 0%nat. split; [eapply reach_step; [exact H2|]|].
  { apply by_server, step_serve. by apply (serve_closed (set_serve SAccept _)). }
  repeat (split; [done|]).
  intros s' [Hs|Hs|c Hs].
  - inversion Hs; discriminate.
  - inversion Hs as [? Hk _|? Hk|? ? Hc]; [discriminate..|]. inversion Hc; discriminate.
  - assert (Hat : forall h, s_handlers (set_handler 0 HRead New) !! c = Some h -> h = HRead /\ c = 0%nat).
    { simpl. intros h [[<- <-]|[_ ?]]%lookup_insert_Some; [done|]. by rewrite lookup_empty in *. }
    inversion Hs as [? n Hh Hn|? Hh [Hd|Hd]|? Hh|? Hh|? Hh|? Hh|? Hh]; subst; apply Hat in Hh as [? ->];
      try discriminate; by apply elem_of_empty in Hd.
Qed.
