(* ===== verification/Races.v ===== *)
(** * Interleavings that go wrong

    [GetSnapshot] does not take the database's lock, and a [MergeIterator] reads its tables
    after [ScanAt] has released it. Both are modelled by the separate steps the program
    makes, with the calls of other goroutines in between: here two such orders are run. *)

From stdpp Require Import gmultiset.
From S2P Require Import Prelude Config Base Mvcc Memtable Bloom Cache Bufio Wal Block Fs Sstable.
From S2P Require Import SstReader Store Compaction Db Heap Scan DbRefine DbRuns DbRecover.

(** Calls on the database of the demonstrations. *)
Definition demo_after (db : DB (ShardedLRU (list kv))) (w : World) (cs : list call) :
    DB (ShardedLRU (list kv)) * World :=
  db_after demo_bloom new_file Z.succ db w cs.

Definition demo_open : option (DB (ShardedLRU (list kv)) * World) :=
  match db_Open demo_cache demo_conf (mkFile [] 0) (mkWorld ∅ 0) with
  | (w, Ok db) => Some (db, w)
  | _ => None
  end.

(** ** Taking a snapshot *)

Definition race_key : bytes := bytes_of "k".

(** Another goroutine overwrites the key and flushes, four times. *)
Definition race_calls : list call :=
  concat (replicate 4 [CPut race_key (bytes_of "new"); CFlush]).

(** One write, then a snapshot whose two steps are made before the calls of the other
    goroutine, or around them; then a read at the snapshot. *)
Definition read_at_snapshot (together : bool) : option (result (option bytes)) :=
  '(db, w) ← demo_open;
  let '(db, w) := demo_after db w [CPut race_key (bytes_of "old")] in
  let snap := snapshot_load db in
  let '(db, w) :=
    if together then demo_after (snapshot_begin db snap) w race_calls
    else let '(db, w) := demo_after db w race_calls in (snapshot_begin db snap, w) in
  Some (GetAt db w race_key snap).2.

(** The two steps of [GetSnapshot] race with a compaction. When the other goroutine runs
    after the snapshot is pinned, a read at it answers the value it was taken at; when it
    runs between the load of the sequence number and the pin, the compaction drops that
    version, and the read answers that the key is absent. *)
Theorem snapshot_pin_races_compaction :
  read_at_snapshot true = Some (Ok (Some (bytes_of "old")))
  /\ read_at_snapshot false = Some (Ok None).
Proof. split; vm_compute; reflexivity. Qed.

(** ** An open scan *)

(** Three records of which a block holds two. *)
Definition scan_value : bytes := replicate 3000 Byte.x2e.
Definition scan_before : list call :=
  [CPut (bytes_of "a") scan_value; CPut (bytes_of "b") scan_value; CPut (bytes_of "c") scan_value; CFlush].

(** Three more tables like it, which make the flush merge all four and remove them. *)
Definition scan_race : list call :=
  concat (replicate 3 [CPut (bytes_of "x") scan_value; CPut (bytes_of "y") scan_value;
                       CPut (bytes_of "z") scan_value; CFlush]).

(** The keys a scan yields that is opened before the other goroutine's calls [cs] and
    drained after them. *)
Definition scan_across (cs : list call) : option (result (list bytes)) :=
  '(db, w) ← demo_open;
  let '(db, w) := demo_after db w scan_before in
  match ScanAt (w_fs w) db [] None (db_seq db) (db_cache db) with
  | (Ok m, c) =>
      let '(db, w) := demo_after (set_cache db c) w cs in
      Some (match (scan_drain (w_fs w) m (db_cache db)).1 with
            | Ok out => Ok out.*1
            | Err e => Err e
            | Panic => Panic
            end)
  | _ => None
  end.

(** A compaction cuts an open scan short. With no call in between, the scan yields the
    three keys; when a compaction removes the table under it, the scan ends without an error
    after the blocks it has already read, although every key is still in the database. *)
Theorem compaction_cuts_open_scan :
  scan_across [] = Some (Ok [bytes_of "a"; bytes_of "b"; bytes_of "c"])
  /\ scan_across scan_race = Some (Ok [bytes_of "a"; bytes_of "b"]).
Proof. split; vm_compute; reflexivity. Qed.
